(* ===== verification/_CoqProject ===== *)
-Q . S2P
Prelude.v
Bitset.v
Size.v
Data.v
Cas.v
Slab.v
Heap.v
HeapLists.v
HeapRules.v
HeapInv.v
HeapSafe.v
HeapFree.v
HeapSys.v
HeapFrame.v
CasProto.v
Huge.v
HugeSafe.v
HugeSys.v
Allocator.v
AllocSys.v
Recover.v
Text.v
DaxArena.v
Preload.v
Stat.v
Shm.v
Region.v
RawHeap.v
Capi.v
Cache.v
Mcas.v
Crash.v
Global.v
ShmObject.v
StackConc.v
Ivshmem.v
CrashLogic.v
HeapHand.v
HeapConc.v
HeapThreads.v
HeapAccess.v
HeapClients.v
MmtBase.v
MmtCheckpoint.v
MmtDcas.v
MmtDetect.v
MmtQueue.v
MmtEnqueue.v
RecoverQueue.v
