(* ===== verification/Prelude.v ===== *)
(** * A verification of cxlalloc

    cxlalloc is a memory allocator for memory shared by processes and hosts
    (CXL). This development models its Rust code as executable functions and
    proves what makes the code correct. Definitions keep the names of the source
    and follow it statement by statement.

    ** The program and its parts

    - A heap consists of memory regions that every process maps at an address of
      its own, chunk by chunk, on page faults (cxlalloc/src/raw.rs,
      raw/region.rs) over one of five backends (extern/shm). Pointers between
      processes are therefore offsets (data.rs, box.rs).
    - Blocks of at most 1016 bytes and of at most 512 KiB come from two slab heaps
      that share one generic implementation (heap.rs, slab.rs, slab/, bitset.rs,
      size/); a slab belongs to a thread, which keeps its slabs in stacks; slabs
      that become free move to a global stack, blocks freed by another thread are
      counted in the slab's remote word.
    - Larger allocations are ranges of reserved address space with a descriptor
      in the small heap (huge.rs).
    - Words that several threads update are detectable compare-and-swap cells
      (cas.rs), so that a thread that crashed can find out with the help of a log
      which operation it was in and finish it (recover.rs).
    - allocator.rs puts the three together; cxlalloc-static and cxlalloc-global
      are the interfaces for C and Rust, with the page-fault handler.
    - cxlalloc-preload is a separate allocator for LD_PRELOAD: large requests go
      to an extent arena on a device, small ones to the C library.
    - cxlalloc-recover crashes threads that work on the detectable data
      structures of memento (extern/memento), which are allocated from the heap,
      and checks that nothing is lost.

    ** Files

    - [Prelude]: machine integers, the program monad [M] with its outcomes
      ([Done], [Panic], [Diverge], [Undef]), the judgements [wp] (total
      correctness) and [pwp] (may panic), sums and list lemmas.
    - [Bitset] (bitset.rs), [Size] (size.rs and size/), [Data] (thread.rs,
      data.rs, box.rs, slab indices), [Text] (string functions).
    - [Cas] (cas.rs, log records), [CasProto] (the protocol under interleaving:
      loads, stores and updates of any cells that share a help array).
    - [Slab] (slab.rs, slab/), [Heap] (heap.rs); [HeapLists], [HeapRules],
      [HeapInv], [HeapSafe], [HeapFree], [HeapFrame]: the invariant of a heap and
      that every operation keeps it; [HeapSys]: a heap refines an abstract
      allocator.
    - [Huge] (huge.rs), [HugeSafe], [HugeSys]: the same for huge ranges.
    - [Allocator] (allocator.rs), [AllocSys]: the whole allocator refines an
      abstract allocator.
    - [Recover] (recover.rs), [Stat] (stat.rs).
    - [Shm], [ShmObject] (extern/shm), [Region] (raw/region.rs, [Heap::layout],
      [Heap::try_map]), [RawHeap] (raw.rs): address spaces, regions, page faults.
    - [Capi] (cxlalloc-static), [Global] (cxlalloc-global).
    - [Cache] (cache.rs), [Mcas] (mcas.rs, its regions and the controller of
      mCAS/rtl, transaction by transaction), [Crash] (the crash crate).
    - [DaxArena], [Preload] (cxlalloc-preload).
    - [StackConc]: the global stack of slabs (slab/stack.rs over cas.rs), access
      by access, for interleaved threads.
    - [Ivshmem]: the driver requests of extern/shm/src/backend/ivshmem.rs.
    - [CrashLogic]: programs of atomic accesses, with a rely/guarantee logic for
      threads that crash and start again, and its parallel composition.
    - [HeapConc] (heap.rs, slab/stack.rs and cas.rs, access by access),
      [HeapHand] (slabs between two stacks), [HeapThreads] (the state of
      interleaved threads and what they rely on), [HeapAccess], [HeapClients]:
      allocation and free under interleaving.
    - [MmtBase] (tagged words, timestamps, handles of memento), [MmtCheckpoint]
      (ploc/checkpoint.rs), [MmtDcas] (ploc/detectable_cas.rs, access by access),
      [MmtDetect]: what it promises to a thread that crashes, and where it does
      not, [MmtQueue] (ploc/insert_delete.rs, ds/queue.rs) with
      its invariant, [MmtEnqueue]: the proof of enqueue, [RecoverQueue]: the
      queue workload of cxlalloc-recover.

    ** How the code is modelled

    A function is a program over an explicit state. A panic, a loop that does
    not end and undefined behaviour are outcomes of their own; integers are
    kept at their width: [arith] panics or wraps around as the build does.
    Generic code is written over type classes: [Bracket] with [BracketLaws] for
    the size brackets, [HasCtx] with [CtxLaws] for the log and help array a cell
    lives with, [IntervalSet] with [IntervalLaws] for the third-party interval
    sets, [Libc] with [LibcLaws] for the C library. Every class that stands for foreign code has an instance, so
    its laws can hold. The kernel's answers are the record [Os].

    The theorems on the slab heaps and the allocator are for builds without the
    validation asserts, with batch sizes that the caches can hold ([cfg_ok] in
    [HeapInv]): with validation a legal run can panic, because the counter of a
    sized stack may exceed its length ([sized_len_drift] in [HeapSys]).

    Operations of a heap are atomic steps of the system models ([HeapSys],
    [HugeSys], [AllocSys]): any number of threads, in any order, but without
    interleaving inside an operation. The interleaving of the steps of
    compare-and-swap loops is the subject of [CasProto], that of the operations
    on the global stack of [StackConc]. [HeapConc] has the operations of a heap
    once more, as programs of accesses: one access is one use of a word that
    other threads use too, together with what the thread does to its own slabs
    until the next one. The experiments are modelled access by access as well
    ([CrashLogic]): a thread can be interrupted or crash before each access.
    Memory is sequentially consistent there; [Cache] models caches and
    durability on their own.

    ** What the theorems show

    - Safety of allocation: what [allocate_untyped] returns overlaps nothing the
      application holds, for small, large and huge blocks, over any sequence of
      allocate, free and realloc by any threads ([AllocSys], [HeapSys],
      [HugeSys]); no operation has undefined behaviour, and allocations up to
      512 KiB return while the reservations last. No slab is lost, all stacks
      stay well-formed, and free bits, held blocks and remote counters balance
      ([blocks_accounted]).
    - realloc keeps the contents; roots and offsets round-trip, at different
      addresses in different processes.
    - Huge ranges are reused only when no thread has them mapped; a thread that
      restarts rebuilds its free space without giving out live bytes. It must
      restart with no freed descriptor pending, or ranges still mapped elsewhere
      are given out; and requests are at most 2^64 - 2^30 bytes, since a larger
      one makes every later claim loop ([oversized_claim_hangs]).
    - Detectable compare-and-swap: what a recovering thread may conclude under
      every interleaving, on which conditions on its history, and where the
      answer is wrong without them.
    - The same under interleaving: threads whose allocations and frees interleave
      access by access never panic, never get overlapping blocks and lose no
      slab, as long as the head of the global stack does not take the same value
      again under a pop; in the default build it does after a few operations,
      and a block is allocated twice ([HeapClients]). Without other threads the
      programs of accesses are the operations of [Heap].
    - The global stack of slabs: under every interleaving it is the stack that
      the successful compare-exchanges make, and no slab is in two places, as
      long as no thread writes the tag of a head that another has loaded; in
      the default build it does, and two threads can get one slab ([StackConc]).
    - The experiments: checkpoints replay the same values after any number of
      crashes and every session ends ([all_end] in [CrashLogic]), and threads that
      crash anywhere and start over enqueue each of their numbers exactly once
      ([MmtCheckpoint], [RecoverQueue]).
    - The detectable compare-and-swap of memento: a thread that crashes and starts
      over makes every exchange it reports exactly once, among other threads that
      do not help it; with helpers, with a crash between the two stores that
      record a success, and after a failed operation in an earlier process, runs
      in which the report is wrong ([MmtDetect]).
    - The heap's backing store: [Raw::new] lays out disjoint regions, the fault
      handler maps exactly the bytes in use and makes progress (on shared memory),
      two processes that set up and map one heap see the same byte at the same
      offset ([RawHeap]), and the interfaces set up a usable
      process; [memalign] aligns up to a page.
    - Recovery after a crash at the modelled points, including cases in which it
      goes wrong.
    - The data structures below: bitsets refine finite sets, size classes are
      tightest, hazards a set, the device arena a first-fit allocator.
    - The preload library keeps contents and never falls back to DRAM for
      memory selected for the device.
    - Flush and fence make objects durable in every build configuration;
      compare-and-swap through the device is atomic for the 32 threads whose
      slots its controller watches, and the command slots do not interfere; the stack filter of crash points is a subsequence test.

    ** Fuel

    Loops that the source leaves unbounded take fuel. A compare-exchange loop
    takes the list of the other threads' writes that come between its attempts,
    and ends after the last one. Walks of slab lists get the number of slabs
    plus two ([trace_fuel]), walks of descriptors the number of descriptors, the
    search of the arena the number of extents plus two ([search_fuel]); the
    slot loops are bounded by the slot array; [huge_allocate] and [store_loop] need
    two rounds. The total correctness and termination theorems show that the
    fuel is enough. The waiting loops of [MmtDcas] end when the fuel exceeds the
    clock offset and the patience, as the clock moves with every reading. The retry loops of the memento queue take fuel as well; they
    wait for other threads, so running out of it is allowed there ([D] in
    [CrashLogic]), and the theorems speak about all states that are reached; so
    do the compare-exchange loops of [HeapConc].

    ** Not modelled

    - Interleaving inside the operations of the huge allocator and inside
      recovery, and weak memory.
    - The logger and opening device files (I/O), the statistics report of one
      thread through cxlalloc-global.
    - The typed wrappers of allocator.rs, which only add type parameters.
    - Of the experiments: the stop-the-world barrier, the clevel workload and the
      measurements. Of memento: all data structures but the queue, clearing the
      mementos of a thread, the pool and the epoch collector; nodes are never
      reused in the model of the queue.
    - Benchmarks and tests, which only call the allocator; of the FPGA design
      everything but the transactions of the controller. *)

(** * Prelude: shared vocabulary *)

From Stdlib Require Import ZArith Lia.
From stdpp Require Import base numbers option list gmap strings.

Local Open Scope Z_scope.

(** ** Machine integers

    A [w]-bit unsigned integer is a [Z] in the range [0 <= x < 2^w]. *)

Definition in_range (w x : Z) : Prop := 0 <= x < 2 ^ w.

Definition wrap (w x : Z) : Z := x mod 2 ^ w.

(** [uN::checked_add], [uN::checked_sub] and [uN::checked_mul]. *)
Definition checked_add (w x y : Z) : option Z :=
  if x + y <? 2 ^ w then Some (x + y) else None.

Definition checked_sub (x y : Z) : option Z :=
  if y <=? x then Some (x - y) else None.

Definition checked_mul (w x y : Z) : option Z :=
  if x * y <? 2 ^ w then Some (x * y) else None.

(** [uN::next_multiple_of] for a positive [m] (exact; the caller bounds it). *)
Definition next_multiple_of (x m : Z) : Z :=
  if x mod m =? 0 then x else x + (m - x mod m).

(** [uN::is_power_of_two]: exactly one bit is set. *)
Definition is_power_of_two (x : Z) : bool :=
  (0 <? x) && (2 ^ Z.log2 x =? x).

Lemma is_power_of_two_spec x : is_power_of_two x = true -> exists k, 0 <= k /\ x = 2 ^ k.
Proof.
  unfold is_power_of_two. intros H. apply andb_prop in H as [H1 H2]. apply Z.eqb_eq in H2.
  exists (Z.log2 x). split; [apply Z.log2_nonneg|done].
Qed.

(** [uN::next_power_of_two] (the smallest power of two not below [x]). *)
Definition next_power_of_two (x : Z) : Z := 2 ^ Z.log2_up x.

(** [uN::trailing_zeros]: the position of the lowest set bit, [w] for zero. *)
Definition trailing_zeros (w x : Z) : Z :=
  default w (List.find (Z.testbit x) (seqZ 0 w)).

(** Sum of an integer-valued function over a list. *)
Fixpoint zsum {A} (f : A -> Z) (l : list A) : Z :=
  match l with
  | [] => 0
  | x :: l => f x + zsum f l
  end.

(** [u64::count_ones]. *)
Definition count_ones (x : Z) : Z :=
  zsum (fun i => Z.b2z (Z.testbit x i)) (seqZ 0 64).

(** ** Outcomes

    A Rust call returns, panics, loops for ever or, inside [unsafe] blocks,
    has undefined behaviour (an unchecked access out of bounds). *)
Inductive outcome (A : Type) : Type :=
| Done (a : A)
| Panic
| Diverge
| Undef.
Arguments Done {A} a.
Arguments Panic {A}.
Arguments Diverge {A}.
Arguments Undef {A}.

Definition obind {A B} (m : outcome A) (k : A -> outcome B) : outcome B :=
  match m with
  | Done a => k a
  | Panic => Panic
  | Diverge => Diverge
  | Undef => Undef
  end.

(** Result of a [w]-bit [+], [-] or [*]: out of range it panics when overflow
    checks are on (builds with debug assertions) and wraps around otherwise. *)
Definition arith (checks : bool) (w x : Z) : outcome Z :=
  if (0 <=? x) && (x <? 2 ^ w) then Done x
  else if checks then Panic else Done (wrap w x).

(** [uN::next_multiple_of] at width [w]: the addition panics in a debug build
    and wraps around in a release build. *)
Definition next_multiple_of_uw (dbg : bool) (w x m : Z) : outcome Z :=
  if x mod m =? 0 then Done x else arith dbg w (x + (m - x mod m)).

(** ** State-passing programs over a state [S] *)
Definition M (S A : Type) : Type := S -> outcome (S * A).

Definition ret {S A} (a : A) : M S A := fun s => Done (s, a).
Definition bind {S A B} (m : M S A) (k : A -> M S B) : M S B :=
  fun s => obind (m s) (fun p => k p.2 p.1).
Definition panic {S A} : M S A := fun _ => Panic.
Definition diverge {S A} : M S A := fun _ => Diverge.
Definition undef {S A} : M S A := fun _ => Undef.
Definition gets {S A} (f : S -> A) : M S A := fun s => Done (s, f s).
Definition modify {S} (f : S -> S) : M S unit := fun s => Done (f s, tt).
Definition lift {S A} (o : outcome A) : M S A :=
  fun s => obind o (fun a => Done (s, a)).

(** [Option::unwrap] / [Option::expect]. *)
Definition unwrap {S A} (o : option A) : M S A :=
  match o with Some a => ret a | None => panic end.

(** [assert!]. *)
Definition assert_ {S} (b : bool) : M S unit :=
  if b then ret tt else panic.

Definition when_ {S} (b : bool) (m : M S unit) : M S unit :=
  if b then m else ret tt.

Declare Scope prog_scope.
Delimit Scope prog_scope with prog.
Notation "x '<-' m ;; k" := (bind m (fun x => k))
  (at level 100, m at next level, right associativity) : prog_scope.
Notation "m ;;; k" := (bind m (fun _ => k))
  (at level 100, right associativity) : prog_scope.

(** ** Fallible programs

    A function that returns [Result<A, E>] is a program with a value of type
    [E + A]; [x <?- m ;; k] is the [?] operator. *)
Section res.
Context {St E : Type}.

Definition err {A} (e : E) : M St (E + A) := ret (inl e).
Definition ok {A} (x : A) : M St (E + A) := ret (inr x).
Definition ok_or {A} (o : option A) (e : E) : M St (E + A) :=
  match o with Some x => ok x | None => err e end.
Definition ebind {A C} (m : M St (E + A)) (k : A -> M St (E + C)) : M St (E + C) :=
  bind m (fun r => match r with inl e => err e | inr x => k x end).

End res.

Declare Scope res_scope.
Delimit Scope res_scope with res.
Notation "x '<?-' m ;; k" := (ebind m (fun x => k))
  (at level 100, m at next level, right associativity) : res_scope.

(** Success goes through every [?]. *)
Lemma ebind_inv {St E A C} (m : M St (E + A)) (k : A -> M St (E + C)) s s' x :
  ebind m k s = Done (s', inr x) -> exists s1 y, m s = Done (s1, inr y) /\ k y s1 = Done (s', inr x).
Proof.
  unfold ebind, bind. destruct (m s) as [[s1 [e|y]]| | |]; cbn [obind fst snd]; try done. eauto.
Qed.

Lemma ok_or_inv {St E A} (o : option A) (e : E) (s s' : St) x : ok_or o e s = Done (s', inr x) -> s' = s /\ o = Some x.
Proof. unfold ok_or, ok, err, ret. destruct o; intros [= <- <-]; done. Qed.

(** ** Total correctness

    [wp m Q s]: from [s] the program [m] returns (no panic, no divergence,
    no undefined behaviour) in a state and with a value that satisfy [Q]. *)
Definition wp {S A} (m : M S A) (Q : S -> A -> Prop) (s : S) : Prop :=
  match m s with Done (s', a) => Q s' a | _ => False end.

(** ** Lemmas on programs *)
Section wp.
Context {S : Type}.

Lemma wp_ret {A} (a : A) (Q : S -> A -> Prop) s : Q s a -> wp (ret a) Q s.
Proof. done. Qed.

Lemma wp_bind {A B} (m : M S A) (k : A -> M S B) Q s :
  wp m (fun s' a => wp (k a) Q s') s -> wp (bind m k) Q s.
Proof. unfold wp, bind. destruct (m s) as [[s' a]| | |]; done. Qed.

Lemma wp_conseq {A} (m : M S A) (P Q : S -> A -> Prop) s :
  wp m P s -> (forall s' a, P s' a -> Q s' a) -> wp m Q s.
Proof. unfold wp. destruct (m s) as [[s' a]| | |]; naive_solver. Qed.

Lemma wp_gets {A} (f : S -> A) Q s : Q s (f s) -> wp (gets f) Q s.
Proof. done. Qed.

Lemma wp_modify (f : S -> S) (Q : S -> unit -> Prop) s :
  Q (f s) tt -> wp (modify f) Q s.
Proof. done. Qed.

Lemma wp_lift {A} (a : A) (o : outcome A) (Q : S -> A -> Prop) s :
  o = Done a -> Q s a -> wp (lift o) Q s.
Proof. by intros ->. Qed.

Lemma wp_unwrap {A} (a : A) (o : option A) (Q : S -> A -> Prop) s :
  o = Some a -> Q s a -> wp (unwrap o) Q s.
Proof. by intros ->. Qed.

Lemma wp_assert (b : bool) (Q : S -> unit -> Prop) s :
  b = true -> Q s tt -> wp (assert_ b) Q s.
Proof. by intros ->. Qed.

Lemma wp_when (b : bool) (m : M S unit) Q s :
  (b = true -> wp m Q s) -> (b = false -> Q s tt) -> wp (when_ b m) Q s.
Proof. destruct b; unfold when_; naive_solver. Qed.

Lemma wp_done {A} (m : M S A) Q s :
  wp m Q s <-> exists s' a, m s = Done (s', a) /\ Q s' a.
Proof.
  unfold wp. split.
  - destruct (m s) as [[s' a]| | |]; naive_solver.
  - intros (s' & a & -> & HQ). done.
Qed.

Lemma wp_ebind {E A C} (m : M S (E + A)) (k : A -> M S (E + C)) Q s :
  wp m (fun s' r => match r with inl e => Q s' (inl e) | inr x => wp (k x) Q s' end) s -> wp (ebind m k) Q s.
Proof. unfold wp, ebind, bind. destruct (m s) as [[s' [e|x]]| | |]; done. Qed.

(** A fallible program that succeeds. *)
Lemma wp_ebind_ok {E A C} (m : M S (E + A)) (k : A -> M S (E + C)) P Q s :
  wp m (fun s' r => exists x, r = inr x /\ P s' x) s -> (forall s' x, P s' x -> wp (k x) Q s') -> wp (ebind m k) Q s.
Proof. intros Hm Hk. apply wp_ebind. eapply wp_conseq; [exact Hm|]. intros s' r (x & -> & H). by apply Hk. Qed.
End wp.

Lemma bind_done {S A B} (m : M S A) (k : A -> M S B) s s' b :
  bind m k s = Done (s', b) -> exists s1 a, m s = Done (s1, a) /\ k a s1 = Done (s', b).
Proof. unfold bind. destruct (m s) as [[s1 a]| | |]; simpl; naive_solver. Qed.

Lemma bind_assoc {S A B C} (m : M S A) (k : A -> M S B) (k' : B -> M S C) s :
  bind (bind m k) k' s = bind m (fun a => bind (k a) k') s.
Proof. unfold bind. by destruct (m s). Qed.

Lemma bind_ext {S A B} (m : M S A) (k k' : A -> M S B) s :
  (forall a s', k a s' = k' a s') -> bind m k s = bind m k' s.
Proof. intros H. unfold bind. destruct (m s); simpl; [apply H|done..]. Qed.

(** One step of symbolic execution of a program under [wp]. *)
Ltac wp_step :=
  lazymatch goal with
  | |- wp (bind _ _) _ _ => apply wp_bind
  | |- wp (ret _) _ _ => apply wp_ret
  | |- wp (gets _) _ _ => apply wp_gets
  | |- wp (modify _) _ _ => apply wp_modify
  end; cbn beta iota.

Ltac wp_go := repeat wp_step.

(** ** Safety

    [pwp m Q s]: from [s] the program [m] returns as described by [Q] or
    panics; it neither diverges nor has undefined behaviour. *)
Definition pwp {S A} (m : M S A) (Q : S -> A -> Prop) (s : S) : Prop :=
  match m s with Done (s', a) => Q s' a | Panic => True | _ => False end.

Section pwp.
Context {S : Type}.

Lemma pwp_bind {A B} (m : M S A) (k : A -> M S B) Q s :
  pwp m (fun s' a => pwp (k a) Q s') s -> pwp (bind m k) Q s.
Proof. unfold pwp, bind. destruct (m s) as [[s' a]| | |]; done. Qed.

Lemma pwp_conseq {A} (m : M S A) (P Q : S -> A -> Prop) s :
  pwp m P s -> (forall s' a, P s' a -> Q s' a) -> pwp m Q s.
Proof. unfold pwp. destruct (m s) as [[s' a]| | |]; naive_solver. Qed.

Lemma pwp_ret {A} (a : A) (Q : S -> A -> Prop) s : Q s a -> pwp (ret a) Q s.
Proof. done. Qed.

Lemma pwp_gets {A} (f : S -> A) Q s : Q s (f s) -> pwp (gets f) Q s.
Proof. done. Qed.

Lemma pwp_modify (f : S -> S) (Q : S -> unit -> Prop) s : Q (f s) tt -> pwp (modify f) Q s.
Proof. done. Qed.

Lemma pwp_lift {A} (o : outcome A) (Q : S -> A -> Prop) s :
  (match o with Done a => Q s a | Panic => True | _ => False end) -> pwp (lift o) Q s.
Proof. unfold pwp, lift. by destruct o. Qed.

Lemma pwp_unwrap {A} (o : option A) (Q : S -> A -> Prop) s :
  (forall a, o = Some a -> Q s a) -> pwp (unwrap o) Q s.
Proof. destruct o; unfold pwp, unwrap; simpl; naive_solver. Qed.

Lemma pwp_assert (b : bool) (Q : S -> unit -> Prop) s :
  (b = true -> Q s tt) -> pwp (assert_ b) Q s.
Proof. destruct b; unfold pwp, assert_; simpl; naive_solver. Qed.

Lemma pwp_done {A} (m : M S A) (Q : S -> A -> Prop) s s' a : m s = Done (s', a) -> Q s' a -> pwp m Q s.
Proof. unfold pwp. by intros ->. Qed.

Lemma wp_pwp {A} (m : M S A) (Q : S -> A -> Prop) s : wp m Q s -> pwp m Q s.
Proof. unfold wp, pwp. by destruct (m s) as [[s' a]| | |]. Qed.
End pwp.

Ltac pwp_step :=
  lazymatch goal with
  | |- pwp (bind _ _) _ _ => apply pwp_bind
  | |- pwp (ret _) _ _ => apply pwp_ret
  | |- pwp (gets _) _ _ => apply pwp_gets
  | |- pwp (modify _) _ _ => apply pwp_modify
  end; cbn beta iota.

Ltac pwp_go := repeat pwp_step.

Lemma arith_ok checks w x : in_range w x -> arith checks w x = Done x.
Proof.
  intros [H0 H1]. unfold arith.
  rewrite (proj2 (Z.leb_le 0 x) H0), (proj2 (Z.ltb_lt x (2 ^ w)) H1). done.
Qed.

(** Machine arithmetic never has undefined behaviour. *)
Lemma arith_cases checks w x : arith checks w x = Panic \/ exists y, arith checks w x = Done y.
Proof. unfold arith. destruct (_ && _); [eauto|]. destruct checks; eauto. Qed.

(** ** Lemmas on sums *)
Section zsum.
Context {A : Type}.
Implicit Types (f g : A -> Z) (l : list A).

Lemma zsum_ext f g l : (forall x, x ∈ l -> f x = g x) -> zsum f l = zsum g l.
Proof.
  induction l as [|x l IH]; simpl; [done|]. intros H.
  rewrite IH, (H x); [done | set_solver..].
Qed.

Lemma zsum_app f l k : zsum f (l ++ k) = zsum f l + zsum f k.
Proof. induction l; simpl; lia. Qed.

Lemma zsum_bounds f l a b :
  (forall x, x ∈ l -> a <= f x <= b) ->
  a * Z.of_nat (length l) <= zsum f l <= b * Z.of_nat (length l).
Proof.
  induction l as [|x l IH]; intros H; [simpl; lia|].
  assert (a <= f x <= b) by (apply H; set_solver).
  assert (a * Z.of_nat (length l) <= zsum f l <= b * Z.of_nat (length l))
    by (apply IH; set_solver).
  change (zsum f (x :: l)) with (f x + zsum f l).
  rewrite length_cons. nia.
Qed.

Lemma zsum_const0 f l : (forall x, x ∈ l -> f x = 0) -> zsum f l = 0.
Proof. intros H. pose proof (zsum_bounds f l 0 0). apply Z.le_antisymm; naive_solver lia. Qed.

Lemma zsum_nonneg f l : (forall x, x ∈ l -> 0 <= f x) -> 0 <= zsum f l.
Proof.
  induction l as [|x l IH]; intros H; simpl; [lia|].
  assert (0 <= f x) by (apply H; set_solver).
  assert (0 <= zsum f l) by (apply IH; intros; apply H; set_solver). lia.
Qed.

Lemma zsum_pos f l :
  (forall x, x ∈ l -> 0 <= f x) -> (exists x, x ∈ l /\ 0 < f x) -> 0 < zsum f l.
Proof.
  induction l as [|y l IH]; intros Hn [x [Hin Hx]]; [set_solver|]. simpl.
  assert (0 <= f y) by (apply Hn; set_solver).
  assert (0 <= zsum f l) by (apply zsum_nonneg; intros; apply Hn; set_solver).
  apply elem_of_cons in Hin as [->|Hin]; [lia|].
  assert (0 < zsum f l) by (apply IH; [intros; apply Hn; set_solver | eauto]). lia.
Qed.

(** Changing one summand changes the sum by the difference. *)
Lemma zsum_update f g l x :
  NoDup l -> x ∈ l -> (forall y, y ∈ l -> y <> x -> f y = g y) ->
  zsum g l = zsum f l + (g x - f x).
Proof.
  induction l as [|y l IH]; intros Hnd Hin Heq; [set_solver|].
  apply NoDup_cons in Hnd as [Hy Hnd]. simpl.
  apply elem_of_cons in Hin as [->|Hin].
  - rewrite (zsum_ext g f l); [lia|]. intros z Hz. symmetry. apply Heq; set_solver.
  - rewrite (IH Hnd Hin) by (intros; apply Heq; set_solver).
    rewrite (Heq y); [lia | set_solver | set_solver].
Qed.

Lemma zsum_zero_inv f l x :
  (forall y, y ∈ l -> 0 <= f y) -> zsum f l = 0 -> x ∈ l -> f x = 0.
Proof.
  intros Hn H0 Hin. destruct (decide (f x = 0)) as [|Hne]; [done|].
  pose proof (Hn x Hin).
  assert (0 < zsum f l) by (apply zsum_pos; [done | exists x; split; [done|lia]]). lia.
Qed.
End zsum.

(** ** Lemmas on arithmetic *)
Lemma next_multiple_of_spec x m :
  0 <= x -> 0 < m ->
  x <= next_multiple_of x m < x + m /\ next_multiple_of x m mod m = 0.
Proof.
  intros Hx Hm. unfold next_multiple_of.
  pose proof (Z.mod_pos_bound x m Hm). pose proof (Z.div_mod x m).
  destruct (Z.eqb_spec (x mod m) 0) as [E|E]; [lia|]. split; [lia|].
  replace (x + (m - x mod m)) with ((x / m + 1) * m) by lia.
  apply Z.mod_mul. lia.
Qed.

Lemma next_multiple_of_uw_exact dbg w x m :
  0 <= next_multiple_of x m < 2 ^ w -> next_multiple_of_uw dbg w x m = Done (next_multiple_of x m).
Proof.
  unfold next_multiple_of_uw, next_multiple_of, arith. destruct (x mod m =? 0); [done|].
  intros [H0 H1]. by rewrite (proj2 (Z.leb_le _ _) H0), (proj2 (Z.ltb_lt _ _) H1).
Qed.

Lemma next_multiple_of_le x m k :
  0 < m -> k mod m = 0 -> x <= k -> next_multiple_of x m <= k.
Proof.
  intros Hm Hk Hle. unfold next_multiple_of.
  destruct (Z.eqb_spec (x mod m) 0) as [E|E]; [lia|].
  pose proof (Z.mod_pos_bound x m Hm). pose proof (Z.div_mod x m ltac:(lia)).
  pose proof (Z.div_mod k m ltac:(lia)).
  assert (x / m < k / m) by nia. nia.
Qed.

Lemma checked_sub_Some x y z : checked_sub x y = Some z <-> y <= x /\ z = x - y.
Proof. unfold checked_sub. destruct (Z.leb_spec y x); naive_solver lia. Qed.

Lemma checked_add_Some w x y z :
  checked_add w x y = Some z <-> x + y < 2 ^ w /\ z = x + y.
Proof. unfold checked_add. destruct (Z.ltb_spec (x + y) (2 ^ w)); naive_solver lia. Qed.

(** ** Lemmas on bits *)
Lemma find_seqZ_Some (p : Z -> bool) a n i :
  List.find p (seqZ a n) = Some i <->
  a <= i < a + n /\ p i = true /\ forall j, a <= j < i -> p j = false.
Proof.
  destruct (decide (n <= 0)) as [Hn|Hn].
  { rewrite seqZ_nil by lia. simpl. naive_solver lia. }
  replace n with (Z.of_nat (Z.to_nat n)) by lia.
  generalize (Z.to_nat n) as k. clear n Hn. intros k. revert a.
  induction k as [|k IH]; intros a; [simpl; naive_solver lia|].
  rewrite seqZ_cons by lia.
  replace (Z.pred (Z.of_nat (Datatypes.S k))) with (Z.of_nat k) by lia. simpl.
  destruct (p a) eqn:E.
  - split.
    + intros [= <-]. split_and!; [lia|lia|done|lia].
    + intros (Ha & Hp & Hlt). destruct (decide (a = i)) as [->|]; [done|].
      specialize (Hlt a). rewrite E in Hlt. assert (true = false) by (apply Hlt; lia). done.
  - rewrite IH. split.
    + intros (Ha & Hp & Hlt). split_and!; [lia|lia|done|].
      intros j Hj. destruct (decide (j = a)) as [->|]; [done|]. apply Hlt; lia.
    + intros (Ha & Hp & Hlt). assert (a <> i) by congruence.
      split_and!; [lia|lia|done|]. intros j Hj. apply Hlt; lia.
Qed.

Lemma trailing_zeros_spec w x i :
  0 <= i < w -> Z.testbit x i = true ->
  0 <= trailing_zeros w x <= i /\ Z.testbit x (trailing_zeros w x) = true /\
  forall j, 0 <= j < trailing_zeros w x -> Z.testbit x j = false.
Proof.
  intros Hi Hb. unfold trailing_zeros.
  destruct (List.find (Z.testbit x) (seqZ 0 w)) as [k|] eqn:E.
  - simpl. apply find_seqZ_Some in E as (Hk & Hp & Hlt). split_and!; [lia| |done|done].
    destruct (decide (k <= i)) as [|Hgt]; [done|].
    rewrite (Hlt i) in Hb by lia. done.
  - exfalso. pose proof (List.find_none _ _ E i) as Hn.
    rewrite Hn in Hb; [done|]. apply list_elem_of_In, elem_of_seqZ. lia.
Qed.

Lemma testbit_pow2 c i : 0 <= c -> Z.testbit (Z.shiftl 1 c) i = bool_decide (i = c).
Proof.
  intros Hc. destruct (decide (i < 0)) as [Hi|Hi].
  { rewrite Z.testbit_neg_r by lia. rewrite bool_decide_eq_false_2 by lia. done. }
  rewrite Z.shiftl_spec by lia. destruct (decide (i = c)) as [->|Hne].
  - rewrite Z.sub_diag, bool_decide_eq_true_2 by done. done.
  - rewrite bool_decide_eq_false_2 by done.
    destruct (decide (i < c)); [by rewrite Z.testbit_neg_r by lia|].
    change 1 with (2 ^ 0). rewrite Z.pow2_bits_false by lia. done.
Qed.

Lemma testbit_set x c i :
  0 <= c -> Z.testbit (Z.lor x (Z.shiftl 1 c)) i = Z.testbit x i || bool_decide (i = c).
Proof. intros. by rewrite Z.lor_spec, testbit_pow2. Qed.

Lemma testbit_clear x c i :
  0 <= c ->
  Z.testbit (Z.ldiff x (Z.shiftl 1 c)) i = Z.testbit x i && negb (bool_decide (i = c)).
Proof. intros. by rewrite Z.ldiff_spec, testbit_pow2. Qed.

(** A number below [2^w] has no bit from [w] on; a field above it is added. *)
Lemma testbit_high a w n : 0 <= a < 2 ^ w -> w <= n -> Z.testbit a n = false.
Proof.
  intros Ha Hn. destruct (decide (a = 0)) as [->|]; [apply Z.testbit_0_l|]. apply Z.bits_above_log2; [lia|].
  apply Z.log2_lt_pow2; [lia|]. eapply Z.lt_le_trans; [apply Ha|]. apply Z.pow_le_mono_r; lia.
Qed.

Lemma lor_field a b w : 0 <= w -> 0 <= a < 2 ^ w -> Z.lor a (Z.shiftl b w) = a + 2 ^ w * b.
Proof.
  intros Hw Ha. rewrite Z.shiftl_mul_pow2, (Z.mul_comm (2 ^ w)) by done. symmetry. rewrite Z.add_nocarry_lxor.
  - apply Z.lxor_lor. apply Z.bits_inj'. intros n Hn. rewrite Z.land_spec, Z.bits_0.
    destruct (Z.lt_ge_cases n w); [rewrite Z.mul_pow2_bits_low by lia; apply andb_false_r|by rewrite (testbit_high a w)].
  - apply Z.bits_inj'. intros n Hn. rewrite Z.land_spec, Z.bits_0.
    destruct (Z.lt_ge_cases n w); [rewrite Z.mul_pow2_bits_low by lia; apply andb_false_r|by rewrite (testbit_high a w)].
Qed.

(** Bits [pos .. pos + width) of a word. *)
Definition field (x pos width : Z) : Z := Z.land (Z.shiftr x pos) (Z.ones width).

Lemma field_spec x pos width : 0 <= pos -> 0 <= width -> field x pos width = (x / 2 ^ pos) mod 2 ^ width.
Proof. intros. unfold field. by rewrite Z.shiftr_div_pow2, Z.land_ones by done. Qed.

(** A number below [2^w] has no bit at or above [w], and conversely. *)
Lemma range_testbit w x i : in_range w x -> w <= i -> Z.testbit x i = false.
Proof.
  intros [H0 H1] Hi. destruct (decide (x = 0)) as [->|]; [apply Z.bits_0|].
  apply Z.bits_above_log2; [done|]. apply Z.log2_lt_pow2; [lia|].
  eapply Z.lt_le_trans; [done|]. apply Z.pow_le_mono_r; lia.
Qed.

Lemma testbit_range w x :
  0 <= w -> 0 <= x -> (forall i, w <= i -> Z.testbit x i = false) -> in_range w x.
Proof.
  intros Hw Hx H. split; [done|].
  destruct (decide (x = 0)) as [->|]; [lia|].
  apply Z.log2_lt_pow2; [lia|].
  destruct (decide (Z.log2 x < w)) as [|Hge]; [done|].
  exfalso. pose proof (Z.bit_log2 x ltac:(lia)) as Hb. rewrite H in Hb by lia. done.
Qed.

Lemma range_nonzero_bit w x :
  in_range w x -> x <> 0 -> exists i, 0 <= i < w /\ Z.testbit x i = true.
Proof.
  intros Hr Hx. destruct Hr as [H0 H1]. exists (Z.log2 x). split; [|apply Z.bit_log2; lia].
  split; [apply Z.log2_nonneg|]. apply Z.log2_lt_pow2; lia.
Qed.

Lemma count_ones_bounds x : 0 <= count_ones x <= 64.
Proof.
  unfold count_ones.
  pose proof (zsum_bounds (fun i => Z.b2z (Z.testbit x i)) (seqZ 0 64) 0 1) as H.
  rewrite length_seqZ in H. replace (Z.of_nat (Z.to_nat 64)) with 64 in H by done.
  assert (forall i, i ∈ seqZ 0 64 -> 0 <= Z.b2z (Z.testbit x i) <= 1)
    by (intros i _; destruct (Z.testbit x i); simpl; lia).
  naive_solver lia.
Qed.

Lemma count_ones_set x c :
  0 <= c < 64 -> Z.testbit x c = false ->
  count_ones (Z.lor x (Z.shiftl 1 c)) = count_ones x + 1.
Proof.
  intros Hc Hb. unfold count_ones.
  rewrite (zsum_update (fun i => Z.b2z (Z.testbit x i)) _ _ c).
  - rewrite testbit_set, Hb, bool_decide_eq_true_2 by lia. simpl. lia.
  - apply NoDup_seqZ.
  - apply elem_of_seqZ. lia.
  - intros y _ Hy. rewrite testbit_set, bool_decide_eq_false_2, orb_false_r by (done || lia). done.
Qed.

Lemma count_ones_clear x c :
  0 <= c < 64 -> Z.testbit x c = true ->
  count_ones (Z.ldiff x (Z.shiftl 1 c)) = count_ones x - 1.
Proof.
  intros Hc Hb. unfold count_ones.
  rewrite (zsum_update (fun i => Z.b2z (Z.testbit x i)) _ _ c).
  - rewrite testbit_clear, Hb, bool_decide_eq_true_2 by lia. simpl. lia.
  - apply NoDup_seqZ.
  - apply elem_of_seqZ. lia.
  - intros y _ Hy. rewrite testbit_clear, bool_decide_eq_false_2, andb_true_r by (done || lia). done.
Qed.
