(* ===== verification/Bitset.v ===== *)
(** * Bitset: the two-level free-block set (cxlalloc/src/bitset.rs)

    A [BitSet] keeps one 64-bit word per row ([dense]), a summary word with one
    bit per non-empty row ([sparse]) and the number of members ([count]).
    [abs] is the finite set it represents. *)

From S2P Require Import Prelude.
From Stdlib Require Import ZArith Lia.
From stdpp Require Import base numbers option list gmap.
Local Open Scope Z_scope.

Definition u64_MAX : Z := 2 ^ 64 - 1.

(** [pub(crate) const SIZE_METADATA: usize = mem::size_of::<u64>() * 2;] *)
Definition SIZE_METADATA : Z := 8 * 2.

Record BitSet := mkBitSet {
  count : Z;
  sparse : Z;
  dense : list Z;
}.

Record Bit := mkBit { row : Z; col : Z }.

#[export] Instance BitSet_eq_dec : EqDecision BitSet.
Proof. solve_decision. Defined.
#[export] Instance Bit_eq_dec : EqDecision Bit.
Proof. solve_decision. Defined.

(** [u6::new]: panics when the value does not fit in six bits. *)
Definition u6_new (x : Z) : outcome Z :=
  if (0 <=? x) && (x <? 64) then Done x else Panic.

(** [Bit::from_loose]. *)
Definition from_loose (bit : Z) : outcome Bit :=
  obind (u6_new (wrap 8 (Z.shiftr bit 6))) (fun row =>
  obind (u6_new (Z.land bit 63)) (fun col =>
  Done (mkBit row col))).

(** [impl From<Bit> for u64]. *)
Definition bit_to_u64 (b : Bit) : Z := Z.lor (col b) (Z.shiftl (row b) 6).

(** [BitSet::new]. *)
Definition new (SIZE : nat) : BitSet := mkBitSet 0 0 (replicate SIZE 0).

(** [Interface::SIZE_DATA] and [Interface::SIZE], in bytes. *)
Definition SIZE_DATA (SIZE : Z) : Z := 8 * SIZE.
Definition SIZE_TOTAL (SIZE : Z) : Z := SIZE_DATA SIZE + SIZE_METADATA.

(** The [while] loops of [fill]: checked stores of [v] at [i .. i + n]. *)
Fixpoint store_range (d : list Z) (i n : nat) (v : Z) : outcome (list Z) :=
  match n with
  | O => Done d
  | S n =>
      match d !! i with
      | None => Panic
      | Some _ => store_range (<[i := v]> d) (S i) n v
      end
  end.

(** [BitSet::fill]. *)
Definition fill (s : BitSet) (n : Z) : outcome BitSet :=
  let rows := n / 64 in
  let cols := n mod 64 in
  obind (store_range (dense s) 0 (Z.to_nat rows) u64_MAX) (fun d =>
  let sp := if rows <? 64 then Z.shiftl 1 rows - 1 else u64_MAX in
  obind
    (if cols =? 0 then Done (d, sp, 0%nat)
     else match d !! Z.to_nat rows with
          | None => Panic
          | Some _ =>
              Done (<[Z.to_nat rows := Z.shiftl 1 cols - 1]> d,
                    Z.lor sp (Z.shiftl 1 rows), 1%nat)
          end)
    (fun '(d, sp, skip) =>
  let j := (Z.to_nat rows + skip)%nat in
  obind (store_range d j (length d - j) 0) (fun d =>
  Done (mkBitSet n sp d)))).

(** [BitSet::filled]. *)
Definition filled (SIZE : nat) (n : Z) : outcome BitSet := fill (new SIZE) n.

(** [BitSet::len] and [Interface::is_empty]. *)
Definition len (s : BitSet) : Z := count s.
Definition is_empty (s : BitSet) : bool := len s =? 0.

(** [BitSet::peek_unchecked]. *)
Definition peek_unchecked (s : BitSet) : outcome Bit :=
  let row := trailing_zeros 64 (sparse s) in
  match dense s !! Z.to_nat row with
  | None => Undef
  | Some w =>
      let col := trailing_zeros 64 w in
      obind (u6_new row) (fun row =>
      obind (u6_new col) (fun col =>
      Done (mkBit row col)))
  end.

(** The assertions of [BitSet::validate]. *)
Definition validate_check (s : BitSet) : bool :=
  (zsum count_ones (dense s) =? count s)
  && forallb (fun bit =>
       eqb (Z.testbit (sparse s) (Z.of_nat bit))
           (0 <? default 0 (dense s !! bit))) (seq 0 (length (dense s)))
  && forallb (fun bit => negb (Z.testbit (sparse s) bit))
       (seqZ (Z.of_nat (length (dense s))) (64 - Z.of_nat (length (dense s)))).

(** [BitSet::validate] ([v]: built with the validation asserts). *)
Definition validate (v : bool) (s : BitSet) : outcome BitSet :=
  if v && negb (validate_check s) then Panic else Done s.

(** [BitSet::set]. *)
Definition set (v dbg : bool) (s : BitSet) (b : Bit) : outcome BitSet :=
  match dense s !! Z.to_nat (row b) with
  | None => Undef
  | Some cols =>
      if v && Z.testbit cols (col b) then Panic
      else
        obind (arith dbg 64 (count s + 1)) (fun c =>
        validate v
          (mkBitSet c (Z.lor (sparse s) (Z.shiftl 1 (row b)))
             (<[Z.to_nat (row b) := Z.lor cols (Z.shiftl 1 (col b))]> (dense s))))
  end.

(** [BitSet::unset]. In Rust [!] binds tighter than [<<], so the mask is
    [(!(cols == 0)) << row] and also clears the summary bits below [row]. *)
Definition unset (v dbg : bool) (s : BitSet) (b : Bit) : outcome BitSet :=
  match dense s !! Z.to_nat (row b) with
  | None => Undef
  | Some cols =>
      if v && negb (Z.testbit cols (col b)) then Panic
      else
        let cols' := Z.land cols (u64_MAX - Z.shiftl 1 (col b)) in
        obind (arith dbg 64 (count s - 1)) (fun c =>
        let mask := wrap 64 (Z.shiftl (u64_MAX - Z.b2z (cols' =? 0)) (row b)) in
        validate v
          (mkBitSet c (Z.land (sparse s) mask)
             (<[Z.to_nat (row b) := cols']> (dense s))))
  end.

(** ** The represented set *)

Definition capacity (s : BitSet) : Z := 64 * Z.of_nat (length (dense s)).

Definition mem (s : BitSet) (k : Z) : bool :=
  (0 <=? k) && Z.testbit (default 0 (dense s !! Z.to_nat (k / 64))) (k mod 64).

Definition abs (s : BitSet) : gset Z :=
  list_to_set (List.filter (mem s) (seqZ 0 (capacity s))).

Record wf (s : BitSet) : Prop := {
  wf_size : (length (dense s) <= 64)%nat;
  wf_dense : forall i w, dense s !! i = Some w -> in_range 64 w;
  wf_sparse_range : in_range 64 (sparse s);
  wf_sparse : forall i, 0 <= i < 64 ->
    Z.testbit (sparse s) i = bool_decide (default 0 (dense s !! Z.to_nat i) <> 0);
  wf_count : count s = zsum count_ones (dense s);
}.

(** ** Lemmas: membership, bit names and list updates *)

Definition bit_wf (s : BitSet) (b : Bit) : Prop :=
  0 <= row b < Z.of_nat (length (dense s)) /\ 0 <= col b < 64.

Lemma zsum_insert f (d : list Z) (i : nat) w v :
  d !! i = Some w -> zsum f (<[i := v]> d) = zsum f d + (f v - f w).
Proof.
  revert i. induction d as [|x d IH]; intros [|i]; simpl; try done.
  - intros [= ->]. lia.
  - intros H. rewrite (IH _ H). lia.
Qed.

Lemma bit_to_u64_eq b : 0 <= row b -> 0 <= col b < 64 -> bit_to_u64 b = 64 * row b + col b.
Proof.
  intros Hr Hc. unfold bit_to_u64. rewrite Z.shiftl_mul_pow2 by lia.
  rewrite Z.lor_comm, <- Z.lxor_lor, <- Z.add_nocarry_lxor; [lia| |].
  all: apply Z.bits_inj'; intros i Hi; rewrite Z.land_spec, Z.bits_0.
  all: destruct (decide (i < 6)).
  all: try (rewrite Z.mul_pow2_bits_low by lia; done).
  all: rewrite (range_testbit 6 (col b) i), andb_false_r; [done|split; simpl; lia|lia].
Qed.

Lemma bit_to_u64_div b : 0 <= row b -> 0 <= col b < 64 ->
  bit_to_u64 b / 64 = row b /\ bit_to_u64 b mod 64 = col b.
Proof.
  intros Hr Hc. rewrite bit_to_u64_eq by done. split.
  - rewrite Z.mul_comm, Z.div_add_l, Z.div_small by lia. lia.
  - rewrite Z.add_comm, Z.mul_comm, Z_mod_plus_full. apply Z.mod_small. lia.
Qed.

Lemma from_loose_done k :
  0 <= k < 4096 -> from_loose k = Done (mkBit (k / 64) (k mod 64)).
Proof.
  intros Hk. unfold from_loose, u6_new, wrap.
  rewrite Z.shiftr_div_pow2 by lia. change (2 ^ 6) with 64.
  change 63 with (Z.ones 6). rewrite Z.land_ones by lia. change (2 ^ 6) with 64.
  assert (0 <= k / 64 < 64) by (split; [apply Z.div_pos; lia|apply Z.div_lt_upper_bound; lia]).
  pose proof (Z.mod_pos_bound k 64 ltac:(lia)).
  rewrite (Z.mod_small (k / 64)) by (simpl; lia).
  rewrite !(proj2 (Z.leb_le _ _)), !(proj2 (Z.ltb_lt _ _)) by lia. done.
Qed.

Lemma mem_bit s b : 0 <= row b -> 0 <= col b < 64 ->
  mem s (bit_to_u64 b) = Z.testbit (default 0 (dense s !! Z.to_nat (row b))) (col b).
Proof.
  intros Hr Hc. destruct (bit_to_u64_div b Hr Hc) as [E1 E2]. unfold mem. rewrite E1, E2.
  rewrite bit_to_u64_eq by done.
  rewrite (proj2 (Z.leb_le 0 _)) by lia. done.
Qed.

Lemma mem_capacity s k : mem s k = true -> 0 <= k < capacity s.
Proof.
  unfold mem, capacity. rewrite andb_true_iff, Z.leb_le. intros [Hk Hb].
  split; [done|]. destruct (dense s !! Z.to_nat (k / 64)) as [w|] eqn:E.
  - apply lookup_lt_Some in E. pose proof (Z.div_mod k 64 ltac:(lia)).
    pose proof (Z.mod_pos_bound k 64 ltac:(lia)). lia.
  - simpl in Hb. by rewrite Z.bits_0 in Hb.
Qed.

Lemma elem_of_abs s k : k ∈ abs s <-> mem s k = true.
Proof.
  unfold abs. rewrite elem_of_list_to_set, list_elem_of_In, List.filter_In, <- list_elem_of_In.
  rewrite elem_of_seqZ. split; [naive_solver|].
  intros H. split; [|done]. apply mem_capacity in H. lia.
Qed.

Lemma seqZ_snoc64 n : seqZ 0 (64 * Z.of_nat (S n)) = seqZ 0 (64 * Z.of_nat n) ++ seqZ (64 * Z.of_nat n) 64.
Proof.
  replace (64 * Z.of_nat (S n)) with (64 * Z.of_nat n + 64) by lia.
  rewrite seqZ_app by lia. f_equal.
Qed.

(** The popcount of one appended row. *)
Lemma zsum_last_row d w l :
  (forall i, i ∈ l -> 0 <= i < 64) ->
  zsum (fun i => Z.b2z (Z.testbit w i)) l =
  zsum (fun k => Z.b2z ((0 <=? k) &&
           Z.testbit (default 0 ((d ++ [w]) !! Z.to_nat (k / 64))) (k mod 64)))
    (Z.add (64 * Z.of_nat (length d)) <$> l).
Proof.
  induction l as [|i l IHl]; intros Hl; [done|].
  rewrite fmap_cons. cbn [zsum]. rewrite IHl by (intros j Hj; apply Hl; set_solver).
  assert (0 <= i < 64) by (apply Hl; set_solver).
  f_equal. f_equal. rewrite (proj2 (Z.leb_le 0 _)) by lia.
  rewrite Z.mul_comm, Z.div_add_l, Z.div_small, Z.add_0_r, Nat2Z.id by lia.
  rewrite lookup_app_r, Nat.sub_diag by done. simpl.
  rewrite Z.add_comm, Z_mod_plus_full, Z.mod_small by lia. done.
Qed.

(** The popcount of the rows is the number of members. *)
Lemma zsum_count_ones_mem s :
  zsum count_ones (dense s) = zsum (fun k => Z.b2z (mem s k)) (seqZ 0 (capacity s)).
Proof.
  unfold capacity, mem. generalize (dense s) as d. clear s. intros d.
  induction d as [|w d IH] using rev_ind; [done|].
  rewrite length_app, Nat.add_1_r, seqZ_snoc64, !zsum_app. f_equal.
  - rewrite IH. apply zsum_ext. intros k Hk%elem_of_seqZ.
    rewrite lookup_app_l; [done|].
    assert (k / 64 < Z.of_nat (length d)) by (apply Z.div_lt_upper_bound; lia).
    assert (0 <= k / 64) by (apply Z.div_pos; lia). lia.
  - cbn [zsum]. rewrite Z.add_0_r. unfold count_ones.
    replace (seqZ (64 * Z.of_nat (length d)) 64)
      with (Z.add (64 * Z.of_nat (length d)) <$> seqZ 0 64)
      by (rewrite fmap_add_seqZ; f_equal; lia).
    apply zsum_last_row. intros i Hi%elem_of_seqZ. lia.
Qed.

Lemma zsum_b2z_filter {A} (p : A -> bool) l :
  zsum (fun k => Z.b2z (p k)) l = Z.of_nat (length (List.filter p l)).
Proof. induction l as [|x l IH]; simpl; [done|]. destruct (p x); simpl; lia. Qed.

Lemma size_abs s : Z.of_nat (size (abs s)) = zsum count_ones (dense s).
Proof.
  rewrite zsum_count_ones_mem, zsum_b2z_filter. unfold abs. f_equal.
  apply size_list_to_set. pose proof (NoDup_seqZ 0 (capacity s)) as H.
  apply NoDup_ListNoDup. apply NoDup_ListNoDup in H. by apply List.NoDup_filter.
Qed.

(** ** Lemmas: the summary word, validation and extensionality *)

Lemma wf_validate s : wf s -> validate_check s = true.
Proof.
  intros [Hsz Hd Hsr Hs Hc]. unfold validate_check. rewrite !andb_true_iff. split_and!.
  - by apply Z.eqb_eq.
  - apply forallb_forall. intros i Hi%in_seq. rewrite Hs, Nat2Z.id by lia.
    destruct (dense s !! i) as [w|] eqn:E; [|apply lookup_ge_None in E; lia].
    apply Hd in E as [? ?]. simpl. rewrite Bool.eqb_true_iff.
    destruct (Z.ltb_spec 0 w); [rewrite bool_decide_eq_true_2 by lia|rewrite bool_decide_eq_false_2 by lia]; done.
  - apply forallb_forall. intros i Hi. apply list_elem_of_In, elem_of_seqZ in Hi.
    rewrite Hs by lia. rewrite lookup_ge_None_2 by lia. done.
Qed.

Lemma validate_ok v s : wf s -> validate v s = Done s.
Proof. intros H. unfold validate. rewrite (wf_validate s H). by destruct v. Qed.

Lemma store_range_spec d i n v :
  (i + n <= length d)%nat ->
  exists d', store_range d i n v = Done d' /\ length d' = length d /\
    forall j, d' !! j = if decide (i <= j < i + n)%nat then Some v else d !! j.
Proof.
  revert d i. induction n as [|n IH]; intros d i Hn; cbn [store_range].
  - exists d. split_and!; [done|done|]. intros j. rewrite decide_False by lia. done.
  - destruct (lookup_lt_is_Some_2 d i ltac:(lia)) as [w Hw]. rewrite Hw.
    destruct (IH (<[i := v]> d) (S i)) as (d' & -> & Hlen & Hl).
    { rewrite length_insert. lia. }
    rewrite length_insert in Hlen. exists d'. split_and!; [done|done|].
    intros j. rewrite Hl. destruct (decide (i = j)) as [->|Hne].
    + rewrite decide_False, decide_True, list_lookup_insert_eq by lia. done.
    + rewrite list_lookup_insert_ne by done. repeat case_decide; (done || lia).
Qed.

(** The word of row [i] after [fill n]: its low [n - 64 i] bits. *)
Definition fill_row (n i : Z) : Z := Z.ones (Z.max 0 (Z.min 64 (n - 64 * i))).

Lemma fill_row_testbit n i c :
  0 <= c < 64 -> Z.testbit (fill_row n i) c = bool_decide (64 * i + c < n).
Proof.
  intros Hc. unfold fill_row. rewrite Z.testbit_ones_nonneg by lia.
  destruct (Z.ltb_spec c (Z.max 0 (Z.min 64 (n - 64 * i)))).
  - rewrite bool_decide_eq_true_2 by lia. done.
  - rewrite bool_decide_eq_false_2 by lia. done.
Qed.

Lemma fill_row_range n i : in_range 64 (fill_row n i).
Proof.
  unfold fill_row, in_range. rewrite Z.ones_equiv.
  assert (2 ^ Z.max 0 (Z.min 64 (n - 64 * i)) <= 2 ^ 64) by (apply Z.pow_le_mono_r; lia).
  assert (0 < 2 ^ Z.max 0 (Z.min 64 (n - 64 * i))) by (apply Z.pow_pos_nonneg; lia). lia.
Qed.

Lemma fill_row_nonzero n i : fill_row n i <> 0 <-> 64 * i < n.
Proof.
  split.
  - intros H. destruct (decide (64 * i < n)) as [|Hge]; [done|].
    exfalso. apply H. unfold fill_row. replace (Z.max 0 _) with 0 by lia. done.
  - intros H E. pose proof (fill_row_testbit n i 0 ltac:(lia)) as Hb.
    rewrite E, Z.bits_0, bool_decide_eq_true_2 in Hb by lia. done.
Qed.

Lemma testbit_low_mask r i : 0 <= r -> 0 <= i -> Z.testbit (Z.shiftl 1 r - 1) i = (i <? r).
Proof.
  intros Hr Hi. replace (Z.shiftl 1 r - 1) with (Z.ones r) by (unfold Z.ones; lia).
  by apply Z.testbit_ones_nonneg.
Qed.

Lemma fill_row_full n i : 64 * i + 64 <= n -> fill_row n i = u64_MAX.
Proof. intros H. unfold fill_row. replace (Z.max 0 _) with 64 by lia. done. Qed.

Lemma fill_row_zero n i : n <= 64 * i -> fill_row n i = 0.
Proof. intros H. unfold fill_row. replace (Z.max 0 _) with 0 by lia. done. Qed.

Lemma fill_row_partial n i c : n = 64 * i + c -> 0 <= c < 64 -> fill_row n i = Z.shiftl 1 c - 1.
Proof. intros H Hc. unfold fill_row. replace (Z.max 0 _) with c by lia. unfold Z.ones. lia. Qed.

(** The summary word before the partial row is accounted for. *)
Definition fill_summary (r : Z) : Z := if r <? 64 then Z.shiftl 1 r - 1 else u64_MAX.

Lemma fill_summary_spec r :
  0 <= r -> in_range 64 (fill_summary r) /\
  forall i, 0 <= i < 64 -> Z.testbit (fill_summary r) i = (i <? r).
Proof.
  intros Hr. unfold fill_summary. destruct (Z.ltb_spec r 64).
  - split; [|intros; apply testbit_low_mask; lia]. unfold in_range.
    rewrite Z.shiftl_mul_pow2, Z.mul_1_l by lia.
    assert (0 < 2 ^ r) by (apply Z.pow_pos_nonneg; lia).
    assert (2 ^ r <= 2 ^ 64) by (apply Z.pow_le_mono_r; lia). lia.
  - split; [unfold in_range, u64_MAX; lia|]. intros i Hi.
    change u64_MAX with (Z.ones 64). rewrite Z.testbit_ones_nonneg by lia.
    destruct (Z.ltb_spec i 64), (Z.ltb_spec i r); (done || lia).
Qed.

Lemma range_set_bit x r : in_range 64 x -> 0 <= r < 64 -> in_range 64 (Z.lor x (Z.shiftl 1 r)).
Proof.
  intros Hx Hr. apply testbit_range; [lia| |].
  - apply Z.lor_nonneg. split; [apply Hx|apply Z.shiftl_nonneg; lia].
  - intros i Hi. rewrite testbit_set, (range_testbit 64 x), bool_decide_eq_false_2 by (done || lia).
    done.
Qed.

(** What [fill] computes, row by row. *)
Lemma fill_done s n :
  (length (dense s) <= 64)%nat -> 0 <= n <= capacity s ->
  exists s', fill s n = Done s' /\ count s' = n /\ length (dense s') = length (dense s) /\
    (forall i, (i < length (dense s))%nat -> dense s' !! i = Some (fill_row n (Z.of_nat i))) /\
    in_range 64 (sparse s') /\
    (forall i, 0 <= i < 64 -> Z.testbit (sparse s') i = bool_decide (64 * i < n)).
Proof.
  unfold capacity. intros Hsz Hn. unfold fill. cbv zeta.
  pose proof (Z.div_mod n 64 ltac:(lia)) as Hdm.
  pose proof (Z.mod_pos_bound n 64 ltac:(lia)) as Hc.
  assert (0 <= n / 64) as Hr0 by (apply Z.div_pos; lia).
  set (r := n / 64) in *. set (c := n mod 64) in *. fold (fill_summary r).
  destruct (fill_summary_spec r Hr0) as [Hspr Hsp].
  destruct (store_range_spec (dense s) 0 (Z.to_nat r) u64_MAX) as (d & -> & Hlen & Hl); [lia|].
  cbn [obind]. destruct (Z.eqb_spec c 0) as [Hc0|Hc0]; cbn [obind].
  - destruct (store_range_spec d (Z.to_nat r + 0) (length d - (Z.to_nat r + 0)) 0)
      as (d' & -> & Hlen' & Hl'); [lia|].
    eexists. split; [reflexivity|]. cbn. split_and!; [done|lia| |done|].
    + intros i Hi. rewrite Hl'. case_decide; [by rewrite fill_row_zero by lia|].
      rewrite Hl, decide_True, fill_row_full by lia. done.
    + intros i Hi. rewrite Hsp by done.
      destruct (Z.ltb_spec i r), (bool_decide_reflect (64 * i < n)); (done || lia).
  - destruct (lookup_lt_is_Some_2 d (Z.to_nat r) ltac:(lia)) as [w ->]. cbn [obind].
    rewrite length_insert.
    destruct (store_range_spec (<[Z.to_nat r := Z.shiftl 1 c - 1]> d) (Z.to_nat r + 1)
      (length d - (Z.to_nat r + 1)) 0) as (d' & -> & Hlen' & Hl'); [rewrite length_insert; lia|].
    rewrite length_insert in Hlen'.
    eexists. split; [reflexivity|]. cbn. split_and!; [done|lia| | |].
    + intros i Hi. rewrite Hl'. case_decide; [by rewrite fill_row_zero by lia|].
      destruct (decide (i = Z.to_nat r)) as [->|].
      * rewrite list_lookup_insert_eq, (fill_row_partial n _ c) by lia. done.
      * rewrite list_lookup_insert_ne, Hl, decide_True, fill_row_full by lia. done.
    + apply range_set_bit; [done|lia].
    + intros i Hi. rewrite testbit_set, Hsp by lia.
      destruct (Z.ltb_spec i r), (bool_decide_reflect (i = r)), (bool_decide_reflect (64 * i < n));
        (done || lia).
Qed.

Lemma fill_mem s s' n k :
  length (dense s') = length (dense s) -> 0 <= n <= capacity s ->
  (forall i, (i < length (dense s))%nat -> dense s' !! i = Some (fill_row n (Z.of_nat i))) ->
  mem s' k = bool_decide (0 <= k < n).
Proof.
  unfold capacity, mem. intros Hlen Hn Hd. destruct (Z.leb_spec 0 k) as [Hk|]; simpl.
  2: { rewrite bool_decide_eq_false_2 by lia. done. }
  pose proof (Z.div_mod k 64 ltac:(lia)). pose proof (Z.mod_pos_bound k 64 ltac:(lia)).
  assert (0 <= k / 64) by (apply Z.div_pos; lia).
  destruct (decide (Z.to_nat (k / 64) < length (dense s))%nat) as [Hlt|Hge].
  - rewrite Hd by done. simpl. rewrite fill_row_testbit by lia.
    destruct (bool_decide_reflect (64 * Z.of_nat (Z.to_nat (k / 64)) + k mod 64 < n)),
      (bool_decide_reflect (0 <= k < n)); (done || lia).
  - rewrite lookup_ge_None_2 by lia. simpl. rewrite Z.bits_0, bool_decide_eq_false_2 by lia. done.
Qed.

Lemma fill_wf s n s' :
  (length (dense s) <= 64)%nat -> 0 <= n <= capacity s -> fill s n = Done s' ->
  wf s' /\ length (dense s') = length (dense s) /\ count s' = n /\
  forall k, mem s' k = bool_decide (0 <= k < n).
Proof.
  intros Hsz Hn Hf. destruct (fill_done s n Hsz Hn) as (s2 & Hf2 & Hc & Hlen & Hd & Hspr & Hsp).
  rewrite Hf in Hf2. injection Hf2 as <-.
  assert (forall k, mem s' k = bool_decide (0 <= k < n)) as Hm by (intros; by eapply fill_mem).
  split_and!; [|done..]. split.
  - lia.
  - intros i w Hw. pose proof (lookup_lt_Some _ _ _ Hw). rewrite Hd in Hw by lia.
    injection Hw as <-. apply fill_row_range.
  - done.
  - intros i Hi. rewrite Hsp by done.
    destruct (decide (Z.to_nat i < length (dense s))%nat) as [Hlt|].
    + rewrite Hd by done. simpl. apply bool_decide_ext.
      pose proof (fill_row_nonzero n (Z.of_nat (Z.to_nat i))). rewrite H, Z2Nat.id by lia. done.
    + rewrite lookup_ge_None_2 by lia. simpl. unfold capacity in Hn.
      rewrite !bool_decide_eq_false_2 by lia. done.
  - rewrite Hc, zsum_count_ones_mem, zsum_b2z_filter. unfold capacity in *.
    erewrite List.filter_ext by (intros; apply Hm).
    pose proof (zsum_b2z_filter (fun k => bool_decide (0 <= k < n)) (seqZ 0 (64 * Z.of_nat (length (dense s'))))) as <-.
    replace (64 * Z.of_nat (length (dense s'))) with (n + (64 * Z.of_nat (length (dense s')) - n)) by lia.
    rewrite seqZ_app, zsum_app by lia.
    rewrite (zsum_ext _ (fun _ => 1) (seqZ 0 n)), (zsum_const0 _ (seqZ (0 + n) _)).
    + pose proof (zsum_bounds (fun _ : Z => 1) (seqZ 0 n) 1 1) as Hb. rewrite length_seqZ in Hb.
      assert (forall x : Z, x ∈ seqZ 0 n -> 1 <= 1 <= 1) by (intros; lia). specialize (Hb H). lia.
    + intros k Hk%elem_of_seqZ. rewrite bool_decide_eq_false_2 by lia. done.
    + intros k Hk%elem_of_seqZ. rewrite bool_decide_eq_true_2 by lia. done.
Qed.

(** ** Lemmas: [set], [peek_unchecked] and [unset] *)

(** The bits below [b] in row order: [unset] needs every lower row empty. *)
Definition lowest_row (s : BitSet) (b : Bit) : Prop :=
  forall i, (i < Z.to_nat (row b))%nat -> default 0 (dense s !! i) = 0.

Lemma mem_row_update s r w w' c sp k :
  dense s !! Z.to_nat r = Some w -> 0 <= r ->
  mem (mkBitSet c sp (<[Z.to_nat r := w']> (dense s))) k =
  if decide (0 <= k /\ k / 64 = r) then Z.testbit w' (k mod 64) else mem s k.
Proof.
  intros Hw Hr. unfold mem. simpl. destruct (Z.leb_spec 0 k) as [Hk|].
  2: { rewrite decide_False by lia. done. }
  assert (0 <= k / 64) by (apply Z.div_pos; lia). case_decide as Hd.
  - destruct Hd as [_ ->]. pose proof (lookup_lt_Some _ _ _ Hw).
    rewrite list_lookup_insert_eq by done. done.
  - rewrite list_lookup_insert_ne; [done|]. intros E. apply Hd. split; [done|]. lia.
Qed.

Lemma mem_update_bit s b w w' c sp (f : bool -> bool) k :
  bit_wf s b -> dense s !! Z.to_nat (row b) = Some w ->
  (forall i, 0 <= i < 64 -> Z.testbit w' i = if decide (i = col b) then f (Z.testbit w i) else Z.testbit w i) ->
  mem (mkBitSet c sp (<[Z.to_nat (row b) := w']> (dense s))) k =
  if decide (k = bit_to_u64 b) then f (mem s k) else mem s k.
Proof.
  intros [Hr Hc] Hw Hw'. rewrite (mem_row_update s (row b) w w' c sp k Hw) by lia.
  destruct (bit_to_u64_div b ltac:(lia) Hc) as [E1 E2].
  assert (mem s k = ((0 <=? k) && Z.testbit (default 0 (dense s !! Z.to_nat (k / 64))) (k mod 64))) as Hm by done.
  pose proof (Z.mod_pos_bound k 64 ltac:(lia)) as Hkm.
  case_decide as Hd.
  - destruct Hd as [Hk Hd]. rewrite Hw' by lia.
    rewrite Hm, (proj2 (Z.leb_le 0 k) Hk), Hd, Hw. simpl.
    pose proof (Z.div_mod k 64 ltac:(lia)). rewrite bit_to_u64_eq by lia.
    do 2 case_decide; (done || lia).
  - rewrite decide_False; [done|]. intros ->. apply Hd.
    split; [rewrite bit_to_u64_eq; lia|exact E1].
Qed.

Lemma dense_bit s b : bit_wf s b -> exists w, dense s !! Z.to_nat (row b) = Some w.
Proof. intros [Hr _]. apply lookup_lt_is_Some_2. lia. Qed.

Lemma lor_nonzero x c : 0 <= x -> 0 <= c -> Z.lor x (Z.shiftl 1 c) <> 0.
Proof.
  intros Hx Hc E. pose proof (testbit_set x c c Hc) as H.
  rewrite E, Z.bits_0, bool_decide_eq_true_2, orb_true_r in H by done. done.
Qed.

Lemma count_bound s : wf s -> 0 <= count s <= 4096.
Proof.
  intros [Hsz _ _ _ ->]. pose proof (zsum_bounds count_ones (dense s) 0 64) as H.
  assert (0 * Z.of_nat (length (dense s)) <= zsum count_ones (dense s) <= 64 * Z.of_nat (length (dense s)))
    by (apply H; intros; apply count_ones_bounds). lia.
Qed.

Lemma set_done v dbg s b :
  wf s -> bit_wf s b -> mem s (bit_to_u64 b) = false ->
  exists s', set v dbg s b = Done s' /\ wf s' /\ length (dense s') = length (dense s) /\
    count s' = count s + 1 /\
    forall k, mem s' k = if decide (k = bit_to_u64 b) then true else mem s k.
Proof.
  intros Hwf Hb Hm. pose proof (count_bound s Hwf). destruct Hwf as [Hsz Hd Hsr Hs Hc].
  destruct (dense_bit s b Hb) as [w Hw]. pose proof Hb as [Hr Hcol].
  rewrite mem_bit, Hw in Hm by lia. simpl in Hm. unfold set. rewrite Hw, Hm, andb_false_r.
  rewrite arith_ok by (unfold in_range; lia). cbn [obind].
  set (w' := Z.lor w (Z.shiftl 1 (col b))).
  set (s' := mkBitSet _ _ _). pose proof (Hd _ _ Hw) as Hwr.
  assert (wf s') as Hwf'.
  { split; simpl.
    - rewrite length_insert. done.
    - intros i x Hx. apply list_lookup_insert_Some in Hx as [(_ & <- & _)|[_ Hx]]; [|by eapply Hd].
      by apply range_set_bit.
    - apply range_set_bit; [done|lia].
    - intros i Hi. rewrite testbit_set, Hs by lia. destruct (decide (i = row b)) as [->|Hne].
      + rewrite (bool_decide_eq_true_2 (row b = row b)), orb_true_r by done. symmetry.
        rewrite list_lookup_insert_eq by lia. apply bool_decide_eq_true_2, lor_nonzero; [apply Hwr|lia].
      + rewrite (bool_decide_eq_false_2 (i = row b)), orb_false_r by done.
        rewrite list_lookup_insert_ne by lia. done.
    - rewrite (zsum_insert _ _ _ w) by done. unfold w'.
      rewrite count_ones_set by done. lia. }
  exists s'. rewrite validate_ok by done. split_and!; [done|done|by apply length_insert|done|].
  intros k. unfold s'. rewrite (mem_update_bit s b w w' _ _ (fun _ => true)); [done|done|done|].
  intros i Hi. unfold w'. rewrite testbit_set by lia.
  case_decide; [by rewrite bool_decide_eq_true_2, orb_true_r|by rewrite bool_decide_eq_false_2, orb_false_r].
Qed.

Lemma peek_done s :
  wf s -> 0 < count s ->
  exists b, peek_unchecked s = Done b /\ bit_wf s b /\ mem s (bit_to_u64 b) = true /\
    lowest_row s b /\ forall k, mem s k = true -> bit_to_u64 b <= k.
Proof.
  intros [Hsz Hd Hsr Hs Hc] Hpos. unfold peek_unchecked.
  assert (exists i, 0 <= i < 64 /\ Z.testbit (sparse s) i = true) as (i & Hi & Hbit).
  { apply range_nonzero_bit; [done|]. intros E. rewrite Hc in Hpos.
    rewrite zsum_const0 in Hpos; [lia|]. intros w Hin.
    apply list_elem_of_lookup in Hin as [j Hj]. pose proof (lookup_lt_Some _ _ _ Hj).
    assert (Z.testbit (sparse s) (Z.of_nat j) = false) as Hz by (rewrite E; apply Z.bits_0).
    rewrite Hs, Nat2Z.id, Hj in Hz by lia. apply bool_decide_eq_false in Hz.
    simpl in Hz. assert (w = 0) as -> by lia. done. }
  destruct (trailing_zeros_spec 64 _ i Hi Hbit) as (Hr & Hrb & Hrlow).
  set (r := trailing_zeros 64 (sparse s)) in *.
  rewrite Hs in Hrb by lia. apply bool_decide_eq_true in Hrb.
  destruct (dense s !! Z.to_nat r) as [w|] eqn:Hw; [|done]. simpl in Hrb.
  pose proof (lookup_lt_Some _ _ _ Hw).
  destruct (range_nonzero_bit 64 w (Hd _ _ Hw) Hrb) as (c0 & Hc0 & Hcb0).
  destruct (trailing_zeros_spec 64 _ c0 Hc0 Hcb0) as (Hcr & Hcb & Hclow).
  set (c := trailing_zeros 64 w) in *.
  unfold u6_new. rewrite !(proj2 (Z.leb_le _ _)), !(proj2 (Z.ltb_lt _ _)) by lia. cbn [obind].
  exists (mkBit r c). split_and!; [done| | | |].
  - split; simpl; lia.
  - rewrite mem_bit by (simpl; lia). simpl. rewrite Hw. done.
  - intros j Hj. simpl in Hj. pose proof (Hrlow (Z.of_nat j) ltac:(lia)) as Hz.
    rewrite Hs, Nat2Z.id in Hz by lia. apply bool_decide_eq_false in Hz. lia.
  - intros k Hk. pose proof (mem_capacity _ _ Hk) as Hcap.
    rewrite bit_to_u64_eq by (simpl; lia). simpl. unfold mem in Hk.
    rewrite (proj2 (Z.leb_le 0 k)) in Hk by lia. simpl in Hk.
    pose proof (Z.div_mod k 64 ltac:(lia)). pose proof (Z.mod_pos_bound k 64 ltac:(lia)).
    assert (0 <= k / 64) by (apply Z.div_pos; lia).
    destruct (decide (k / 64 < r)).
    + pose proof (Hrlow (k / 64) ltac:(lia)) as Hz. rewrite Hs in Hz by lia.
      apply bool_decide_eq_false in Hz.
      assert (default 0 (dense s !! Z.to_nat (k / 64)) = 0) as Hz0 by lia.
      rewrite Hz0, Z.bits_0 in Hk. done.
    + destruct (decide (k / 64 = r)) as [E|]; [|lia]. rewrite E, Hw in Hk. simpl in Hk.
      destruct (decide (k mod 64 < c)); [|lia]. rewrite Hclow in Hk by lia. done.
Qed.

(** The word that clears bit [c]. *)
Lemma land_clear w c :
  in_range 64 w -> 0 <= c < 64 ->
  Z.land w (u64_MAX - Z.shiftl 1 c) = Z.ldiff w (Z.shiftl 1 c).
Proof.
  intros Hw Hc. change u64_MAX with (Z.ones 64).
  rewrite Z.sub_nocarry_ldiff.
  - apply Z.bits_inj'. intros i Hi. rewrite Z.land_spec, !Z.ldiff_spec, Z.testbit_ones_nonneg by lia.
    destruct (Z.ltb_spec i 64); [done|]. rewrite (range_testbit 64 w) by (done || lia). done.
  - apply Z.bits_inj'. intros i Hi. rewrite Z.ldiff_spec, testbit_pow2, Z.bits_0 by lia.
    rewrite Z.testbit_ones_nonneg by lia.
    destruct (bool_decide_reflect (i = c)); [|done]. destruct (Z.ltb_spec i 64); (done || lia).
Qed.

Lemma ldiff_range w c : in_range 64 w -> 0 <= c -> in_range 64 (Z.ldiff w (Z.shiftl 1 c)).
Proof.
  intros Hw Hc. apply testbit_range; [lia| |].
  - apply Z.ldiff_nonneg. left. apply Hw.
  - intros i Hi. rewrite testbit_clear, (range_testbit 64 w) by (done || lia). done.
Qed.

(** The summary mask of [unset] keeps the bits above [r], and bit [r] when the
    row is still occupied; every bit below [r] is cleared. *)
Lemma unset_mask_spec (e : bool) r i :
  0 <= r < 64 -> 0 <= i < 64 ->
  Z.testbit (wrap 64 (Z.shiftl (u64_MAX - Z.b2z e) r)) i =
  bool_decide (r < i) || (bool_decide (i = r) && negb e).
Proof.
  intros Hr Hi. unfold wrap. rewrite Z.mod_pow2_bits_low by lia.
  rewrite Z.shiftl_spec by lia.
  destruct (decide (i < r)) as [|Hge].
  { rewrite Z.testbit_neg_r, !bool_decide_eq_false_2 by lia. done. }
  assert (Z.testbit (u64_MAX - Z.b2z e) (i - r) = (0 <? i - r) || negb e) as ->.
  { destruct e; simpl Z.b2z.
    - change (u64_MAX - 1) with (Z.shiftl (Z.ones 63) 1).
      rewrite Z.shiftl_spec by lia. destruct (Z.ltb_spec 0 (i - r)); simpl.
      + rewrite Z.testbit_ones_nonneg by lia. destruct (Z.ltb_spec (i - r - 1) 63); (done || lia).
      + rewrite Z.testbit_neg_r by lia. done.
    - rewrite Z.sub_0_r, orb_true_r. change u64_MAX with (Z.ones 64).
      rewrite Z.testbit_ones_nonneg by lia. destruct (Z.ltb_spec (i - r) 64); (done || lia). }
  destruct (Z.ltb_spec 0 (i - r)).
  - rewrite bool_decide_eq_true_2 by lia. done.
  - rewrite (bool_decide_eq_false_2 (r < i)), bool_decide_eq_true_2 by lia. done.
Qed.

Lemma unset_sparse_wf s b w' i :
  wf s -> bit_wf s b -> lowest_row s b -> Z.testbit (sparse s) (row b) = true -> 0 <= i < 64 ->
  Z.testbit (Z.land (sparse s) (wrap 64 (Z.shiftl (u64_MAX - Z.b2z (w' =? 0)) (row b)))) i =
  bool_decide (default 0 (<[Z.to_nat (row b) := w']> (dense s) !! Z.to_nat i) <> 0).
Proof.
  intros [Hsz Hd Hsr Hs Hc] [Hr Hcol] Hlow Hset Hi.
  rewrite Z.land_spec, unset_mask_spec by lia.
  destruct (Z.lt_trichotomy i (row b)) as [Hlt|[->|Hgt]].
  - rewrite Hs by lia. rewrite list_lookup_insert_ne by lia.
    rewrite Hlow by lia. done.
  - rewrite Hset, list_lookup_insert_eq by lia. simpl.
    rewrite (bool_decide_eq_false_2 (row b < row b)), (bool_decide_eq_true_2 (row b = row b)) by lia. simpl.
    destruct (Z.eqb_spec w' 0); [rewrite bool_decide_eq_false_2 by lia|rewrite bool_decide_eq_true_2 by lia]; done.
  - rewrite (bool_decide_eq_true_2 (row b < i)), andb_true_r by lia.
    rewrite Hs, list_lookup_insert_ne by lia. done.
Qed.

Lemma unset_done v dbg s b :
  wf s -> bit_wf s b -> mem s (bit_to_u64 b) = true -> lowest_row s b ->
  exists s', unset v dbg s b = Done s' /\ wf s' /\ length (dense s') = length (dense s) /\
    count s' = count s - 1 /\
    forall k, mem s' k = if decide (k = bit_to_u64 b) then false else mem s k.
Proof.
  intros Hwf Hb Hm Hlow. pose proof Hwf as [Hsz Hd Hsr Hs Hc].
  destruct (dense_bit s b Hb) as [w Hw]. pose proof Hb as [Hr Hcol].
  pose proof (Hd _ _ Hw) as Hwr.
  rewrite mem_bit, Hw in Hm by lia. simpl in Hm.
  assert (w <> 0) as Hw0 by (intros ->; by rewrite Z.bits_0 in Hm).
  assert (Z.testbit (sparse s) (row b) = true) as Hset.
  { rewrite Hs, Hw by lia. by apply bool_decide_eq_true_2. }
  assert (1 <= count s <= 4096) as Hcb.
  { pose proof (count_bound s Hwf). split; [|lia]. rewrite Hc.
    enough (0 < zsum count_ones (dense s)) by lia.
    apply zsum_pos; [intros; apply count_ones_bounds|]. exists w. split; [by eapply list_elem_of_lookup_2|].
    pose proof (count_ones_clear w (col b) ltac:(lia) Hm).
    pose proof (count_ones_bounds (Z.ldiff w (Z.shiftl 1 (col b)))). lia. }
  unfold unset. rewrite Hw, Hm, andb_false_r, land_clear by (done || lia).
  rewrite arith_ok by (unfold in_range; lia). cbn [obind].
  set (w' := Z.ldiff w (Z.shiftl 1 (col b))). cbv zeta. set (s' := mkBitSet _ _ _).
  assert (wf s') as Hwf'.
  { split; simpl.
    - rewrite length_insert. done.
    - intros i x Hx. apply list_lookup_insert_Some in Hx as [(_ & <- & _)|[_ Hx]]; [|by eapply Hd].
      apply ldiff_range; [done|lia].
    - apply testbit_range; [lia|apply Z.land_nonneg; left; apply Hsr|].
      intros i Hi. rewrite Z.land_spec, (range_testbit 64 (sparse s)) by (done || lia). done.
    - intros i Hi. by apply unset_sparse_wf.
    - rewrite (zsum_insert _ _ _ w) by done. unfold w'. rewrite count_ones_clear by done. lia. }
  exists s'. rewrite validate_ok by done. split_and!; [done|done|by apply length_insert|done|].
  intros k. unfold s'. rewrite (mem_update_bit s b w w' _ _ (fun _ => false)); [done|done|done|].
  intros i Hi. unfold w'. rewrite testbit_clear by lia.
  case_decide; [by rewrite bool_decide_eq_true_2, andb_false_r|by rewrite bool_decide_eq_false_2, andb_true_r].
Qed.

(** ** The contract of [bitset::Interface], as operations on finite sets *)

(** The set [{0, .., n-1}]. *)
Definition below (n : Z) : gset Z := list_to_set (seqZ 0 n).

Lemma elem_of_below k n : k ∈ below n <-> 0 <= k < n.
Proof. unfold below. rewrite elem_of_list_to_set, elem_of_seqZ. lia. Qed.

Lemma abs_ext_mem s (X : gset Z) :
  (forall k, mem s k = true <-> k ∈ X) -> abs s = X.
Proof. intros H. apply set_eq. intros k. rewrite elem_of_abs. apply H. Qed.

Lemma count_size s : wf s -> count s = Z.of_nat (size (abs s)).
Proof. intros Hwf. rewrite size_abs. apply Hwf. Qed.

(** Repeatedly take the first member, as [Heap::pop] does until the set is
    empty; [n] bounds the number of rounds. *)
Fixpoint drain (v dbg : bool) (n : nat) (s : BitSet) : outcome (list Z * BitSet) :=
  match n with
  | O => Done ([], s)
  | S n =>
      if is_empty s then Done ([], s)
      else
        obind (peek_unchecked s) (fun b =>
        obind (unset v dbg s b) (fun s =>
        obind (drain v dbg n s) (fun '(l, s) => Done (bit_to_u64 b :: l, s))))
  end.

Lemma drain_seq v dbg s a n :
  wf s -> 0 <= a -> (forall k, mem s k = bool_decide (a <= k < a + Z.of_nat n)) ->
  exists s', drain v dbg n s = Done (seqZ a (Z.of_nat n), s') /\ wf s' /\ abs s' = ∅.
Proof.
  revert s a. induction n as [|n IH]; intros s a Hwf Ha Hm; cbn [drain].
  - exists s. split_and!; [done|done|]. apply abs_ext_mem. intros k. rewrite Hm.
    rewrite bool_decide_eq_true. set_solver by lia.
  - assert (mem s a = true) as Hma by (rewrite Hm; apply bool_decide_eq_true; lia).
    assert (0 < count s) as Hpos.
    { rewrite count_size by done. enough (size (abs s) <> 0%nat) by lia.
      apply elem_of_abs in Hma.
      apply size_non_empty_iff. set_solver. }
    unfold is_empty, len. rewrite (proj2 (Z.eqb_neq _ _)) by lia.
    destruct (peek_done s Hwf Hpos) as (b & -> & Hb & Hbm & Hlow & Hmin). cbn [obind].
    assert (bit_to_u64 b = a) as Ea.
    { pose proof (Hmin a Hma). rewrite Hm in Hbm. apply bool_decide_eq_true in Hbm. lia. }
    destruct (unset_done v dbg s b Hwf Hb Hbm Hlow) as (s1 & -> & Hwf1 & _ & _ & Hm1). cbn [obind].
    destruct (IH s1 (a + 1) Hwf1 ltac:(lia)) as (s2 & -> & Hwf2 & Habs).
    { intros k. rewrite Hm1, Ea, Hm. case_decide; apply eq_sym;
        [apply bool_decide_eq_false; lia | apply bool_decide_ext; lia]. }
    cbn [obind]. exists s2. split_and!; [|done|done].
    rewrite (seqZ_cons a) by lia. rewrite Ea. repeat f_equal; lia.
Qed.

(** [set] inserts and [unset] of the peeked block removes the minimum. *)
Lemma set_abs v dbg s b :
  wf s -> bit_wf s b -> bit_to_u64 b ∉ abs s ->
  exists s', set v dbg s b = Done s' /\ wf s' /\ length (dense s') = length (dense s) /\
    abs s' = {[bit_to_u64 b]} ∪ abs s /\ count s' = count s + 1.
Proof.
  intros Hwf Hb Hni. rewrite elem_of_abs in Hni. apply not_true_is_false in Hni.
  destruct (set_done v dbg s b Hwf Hb Hni) as (s' & Hs & Hwf' & Hl & Hc & Hm).
  exists s'. split_and!; [done|done|done| |done]. apply abs_ext_mem. intros k. rewrite Hm.
  rewrite elem_of_union, elem_of_singleton, elem_of_abs. case_decide; naive_solver.
Qed.

Lemma peek_unset_abs v dbg s :
  wf s -> abs s <> ∅ ->
  exists b s', peek_unchecked s = Done b /\ bit_wf s b /\ bit_to_u64 b ∈ abs s /\
    (forall k, k ∈ abs s -> bit_to_u64 b <= k) /\
    unset v dbg s b = Done s' /\ wf s' /\ length (dense s') = length (dense s) /\
    abs s' = abs s ∖ {[bit_to_u64 b]} /\ count s' = count s - 1.
Proof.
  intros Hwf Hne. assert (0 < count s) as Hpos.
  { rewrite count_size by done. enough (size (abs s) <> 0%nat) by lia.
    apply size_non_empty_iff. set_solver. }
  destruct (peek_done s Hwf Hpos) as (b & Hp & Hb & Hbm & Hlow & Hmin).
  destruct (unset_done v dbg s b Hwf Hb Hbm Hlow) as (s' & Hu & Hwf' & Hl & Hc & Hm).
  exists b, s'. split_and!; [done|done|by apply elem_of_abs| |done|done|done| |done].
  - intros k Hk%elem_of_abs. by apply Hmin.
  - apply abs_ext_mem. intros k. rewrite Hm.
    rewrite elem_of_difference, elem_of_singleton, elem_of_abs. case_decide; naive_solver.
Qed.

(** ** Properties *)

(** [fill n] returns for every [n] up to the capacity, whatever the old
    contents were, and leaves a consistent bitset that represents exactly
    [{0, .., n-1}] and reports length [n]. *)
Theorem bitset_fill_refines s n :
  (length (dense s) <= 64)%nat -> 0 <= n <= capacity s ->
  exists s', fill s n = Done s' /\ wf s' /\ abs s' = below n /\ len s' = n.
Proof.
  intros Hsz Hn. destruct (fill_done s n Hsz Hn) as (s' & Hf & _).
  destruct (fill_wf s n s' Hsz Hn Hf) as (Hwf & _ & Hc & Hm).
  exists s'. split_and!; [done|done| |done]. apply abs_ext_mem. intros k.
  rewrite Hm, elem_of_below. apply bool_decide_eq_true.
Qed.

Lemma bitset_fill_refines_witness :
  exists s', fill (new 3) 130 = Done s' /\ wf s' /\ abs s' = below 130 /\ len s' = 130.
Proof. apply (bitset_fill_refines (new 3) 130); vm_compute; [lia | split; discriminate]. Defined.

(** on a consistent bitset, [set] of an absent block inserts exactly that
    block, and [unset] of the block that [peek_unchecked] returns (the only way
    the allocator calls it) removes exactly the smallest member; neither
    panics, also when every validation assert is compiled in. *)
Theorem bitset_set_unset_refine v dbg s :
  wf s ->
  (forall b, bit_wf s b -> bit_to_u64 b ∉ abs s ->
     exists s', set v dbg s b = Done s' /\ wf s' /\
       abs s' = {[bit_to_u64 b]} ∪ abs s /\ len s' = len s + 1) /\
  (abs s <> ∅ ->
     exists b s', peek_unchecked s = Done b /\ bit_to_u64 b ∈ abs s /\
       (forall k, k ∈ abs s -> bit_to_u64 b <= k) /\
       unset v dbg s b = Done s' /\ wf s' /\
       abs s' = abs s ∖ {[bit_to_u64 b]} /\ len s' = len s - 1).
Proof.
  intros Hwf. split.
  - intros b Hb Hni. destruct (set_abs v dbg s b Hwf Hb Hni) as (s' & ? & ? & _ & ? & ?). eauto 10.
  - intros Hne. destruct (peek_unset_abs v dbg s Hwf Hne) as (b & s' & ? & _ & ? & ? & ? & ? & _ & ? & ?).
    exists b, s'. eauto 10.
Qed.

Lemma wf_new SIZE : (SIZE <= 64)%nat -> wf (new SIZE).
Proof.
  intros H. split; simpl.
  - by rewrite length_replicate.
  - intros i w [-> _]%lookup_replicate. split; simpl; lia.
  - split; simpl; lia.
  - intros i Hi. rewrite Z.bits_0. symmetry. apply bool_decide_eq_false.
    destruct (replicate SIZE 0 !! Z.to_nat i) as [w|] eqn:E; [|naive_solver].
    apply lookup_replicate in E as [-> _]. naive_solver.
  - symmetry. apply zsum_const0. intros w [-> _]%elem_of_replicate. done.
Qed.

Lemma bitset_set_unset_refine_witness :
  exists s', set true true (new 2) (mkBit 1 5) = Done s' /\ abs s' = {[69]} ∪ abs (new 2).
Proof.
  destruct (bitset_set_unset_refine true true (new 2)) as [H _].
  { apply wf_new. lia. }
  destruct (H (mkBit 1 5)) as (s' & Hs & _ & Ha & _).
  - split; vm_compute; split; (discriminate || reflexivity).
  - rewrite elem_of_abs. vm_compute. discriminate.
  - exists s'. split; [exact Hs|exact Ha].
Defined.

(** a bitset filled with [n] blocks hands out [0, 1, .., n-1] in this
    order, one per peek/unset round, and is then empty. *)
Theorem bitset_drain_ascending v dbg SIZE n :
  (SIZE <= 64)%nat -> 0 <= n <= 64 * Z.of_nat SIZE ->
  exists s s', filled SIZE n = Done s /\ drain v dbg (Z.to_nat n) s = Done (seqZ 0 n, s') /\
    wf s' /\ abs s' = ∅.
Proof.
  intros Hsz Hn. unfold filled.
  assert (length (dense (new SIZE)) <= 64)%nat as Hl by (simpl; rewrite length_replicate; lia).
  assert (0 <= n <= capacity (new SIZE)) as Hn' by (unfold capacity; simpl; rewrite length_replicate; lia).
  destruct (fill_done _ n Hl Hn') as (s & Hf & _).
  destruct (fill_wf _ _ _ Hl Hn' Hf) as (Hwf & _ & _ & Hm).
  destruct (drain_seq v dbg s 0 (Z.to_nat n) Hwf ltac:(lia)) as (s' & Hd & Hwf' & Ha).
  { intros k. rewrite Hm. apply bool_decide_ext. lia. }
  rewrite Z2Nat.id in Hd by lia. eauto 10.
Qed.

Lemma bitset_drain_ascending_witness :
  exists s s', filled 2 70 = Done s /\ drain true true 70 s = Done (seqZ 0 70, s') /\
    wf s' /\ abs s' = ∅.
Proof. apply (bitset_drain_ascending true true 2 70); lia. Defined.

(** the summary update of [unset] is only right for the lowest non-empty
    row. On the set [{0, .., 129}], removing block 67 (row 1) without the
    validation asserts clears the summary bit of row 0 too, so the next peek
    skips the 64 free blocks of row 0; with the asserts the call panics. *)
Theorem unset_higher_row_loses_blocks :
  exists s s', filled 3 130 = Done s /\ unset false true s (mkBit 1 3) = Done s' /\
    0 ∈ abs s' /\ peek_unchecked s' = Done (mkBit 1 0) /\ ~ wf s' /\
    unset true true s (mkBit 1 3) = Panic.
Proof.
  eexists _, _. split_and!; [reflexivity|reflexivity| |reflexivity| |reflexivity].
  - apply elem_of_abs. reflexivity.
  - intros [_ _ _ H _]. specialize (H 0 ltac:(lia)). vm_compute in H. discriminate.
Qed.

(** block numbers and [(row, col)] pairs are in bijection: packing the
    result of [from_loose] gives the number back, and every number a bitset of
    at most 64 rows can hold is accepted. *)
Theorem bit_roundtrip k :
  0 <= k < 4096 -> exists b, from_loose k = Done b /\ bit_to_u64 b = k.
Proof.
  intros Hk. eexists. split; [by apply from_loose_done|].
  pose proof (Z.div_pos k 64 ltac:(lia) ltac:(lia)). pose proof (Z.mod_pos_bound k 64 ltac:(lia)).
  rewrite bit_to_u64_eq by (simpl; lia). simpl. pose proof (Z.div_mod k 64). lia.
Qed.

Lemma bit_roundtrip_witness : exists b, from_loose 4095 = Done b /\ bit_to_u64 b = 4095.
Proof. apply (bit_roundtrip 4095). lia. Defined.
