(* ===== verification/Size.v ===== *)
(** * Size: size brackets and size classes (cxlalloc/src/size.rs, size/*.rs)

    [Bracket] is the trait the heap is generic over; [Small], [Large] and
    [Huge] are its three implementations. [BracketLaws] is what the heap
    relies on; it is discharged for [Small] and [Large]. A class is the
    integer stored in the packed [u7] or [u4]. *)

From S2P Require Import Prelude Bitset.
From Stdlib Require Import ZArith Lia.
From stdpp Require Import base numbers option list gmap.
Local Open Scope Z_scope.

Definition SIZE_CACHE_LINE : Z := 64.
Definition SIZE_PAGE : Z := 4096.

(** [slab::local::SIZE_METADATA]: next (4), owner (2), class (1), padding. *)
Definition LOCAL_SIZE_METADATA : Z := 8.

(** [uN::new] of the [arbitrary_int] types: panics when out of range. *)
Definition un_new (n x : Z) : outcome Z :=
  if (0 <=? x) && (x <? 2 ^ n) then Done x else Panic.

(** [u8::try_from(index).ok().and_then(|i| uN::try_new(i).ok())]. *)
Definition un_try_new (n x : Z) : option Z :=
  if (0 <=? x) && (x <? 2 ^ 8) then
    if x <? 2 ^ n then Some x else None
  else None.

(** [trait Bracket]: the associated constants and functions. [ROWS] is the
    const argument of the associated [BitSet] type. *)
Class Bracket := mkBracket {
  SIZE_SLAB : Z;
  SIZE_MIN : Z;
  SIZE_MAX : Z;
  COUNT : Z;
  ROWS : nat;
  class_new : Z -> outcome (option Z);
  class_from_index : Z -> option Z;
  is_zero : Z -> bool;
  class_size : Z -> Z;
  class_count : Z -> outcome Z;
}.

Module Small.
Definition SIZE_MIN : Z := 8.
Definition SIZE_MAX : Z := 1016.
Definition COUNT : Z := 128.
Definition SIZE_SLAB : Z := (SIZE_CACHE_LINE * 8) * 8 * SIZE_MIN.
Definition ROWS : Z := (SIZE_CACHE_LINE * 8 - SIZE_METADATA - LOCAL_SIZE_METADATA) / 8.

(** [Small::new]. *)
Definition new (size : Z) : outcome (option Z) :=
  if size <=? SIZE_MAX then
    obind (un_new 7 (wrap 8 (next_multiple_of size 8 / 8))) (fun c => Done (Some c))
  else Done None.

Definition from_index (index : Z) : option Z := un_try_new 7 index.

(** The table built by [Small::counts]; a class is in range of the table. *)
Definition counts (i : Z) : Z :=
  if i =? 0 then 0
  else if i =? 1 then wrap 16 (SIZE_DATA ROWS * 8)
  else wrap 16 (SIZE_SLAB / (i * 8)).

Definition is_zero (c : Z) : bool := c =? 0.
Definition size (c : Z) : Z := c * 8.
Definition count (c : Z) : outcome Z :=
  if (0 <=? c) && (c <? COUNT) then Done (counts c) else Undef.

#[export] Instance bracket : Bracket :=
  mkBracket SIZE_SLAB SIZE_MIN SIZE_MAX COUNT (Z.to_nat ROWS)
    new from_index is_zero size count.
End Small.

Module Large.
Definition SIZE_MIN_LOG2 : Z := 10.
Definition SIZE_MAX_LOG2 : Z := 19.
Definition SIZE_MIN : Z := Z.shiftl 1 SIZE_MIN_LOG2.
Definition SIZE_MAX : Z := Z.shiftl 1 SIZE_MAX_LOG2.
Definition COUNT : Z := SIZE_MAX_LOG2 - SIZE_MIN_LOG2 + 1.
Definition SIZE_SLAB : Z := (SIZE_CACHE_LINE * 1) * 8 * SIZE_MIN.
Definition ROWS : Z := (SIZE_CACHE_LINE * 2 - SIZE_METADATA - LOCAL_SIZE_METADATA) / 8.

(** [Large::new]. *)
Definition new (size : Z) : outcome (option Z) :=
  if size <=? SIZE_MAX then
    obind (un_new 4 (wrap 8 (trailing_zeros 64
             (Z.shiftr (next_power_of_two size) SIZE_MIN_LOG2))))
      (fun c => Done (Some c))
  else Done None.

Definition from_index (index : Z) : option Z := un_try_new 4 index.
Definition is_zero (_ : Z) : bool := false.
Definition size (c : Z) : Z := Z.shiftl SIZE_MIN c.
Definition count (c : Z) : outcome Z :=
  Done (Z.shiftr (Z.shiftr SIZE_SLAB SIZE_MIN_LOG2) c).

#[export] Instance bracket : Bracket :=
  mkBracket SIZE_SLAB SIZE_MIN SIZE_MAX COUNT (Z.to_nat ROWS)
    new from_index is_zero size count.
End Large.

Module Huge.
Definition SIZE_SLAB : Z := Z.shiftl 1 30.
Definition SIZE_MIN : Z := 4096.
Definition SIZE_MAX : Z := 4096.
Definition COUNT : Z := 1.
Definition new (_ : Z) : outcome (option Z) := Done (Some 0).
Definition from_index (index : Z) : option Z := if index =? 0 then Some 0 else None.
Definition is_zero (_ : Z) : bool := false.
Definition size (_ : Z) : Z := u64_MAX.

(** [unreachable!()]. *)
Definition count (_ : Z) : outcome Z := Panic.

#[export] Instance bracket : Bracket :=
  mkBracket SIZE_SLAB SIZE_MIN SIZE_MAX COUNT 0
    new from_index is_zero size count.
End Huge.

(** ** What the heap relies on *)

Definition class_wf `{Bracket} (c : Z) : Prop := 0 <= c < COUNT /\ is_zero c = false.

(** Number of blocks per slab of a class, where it is defined. *)
Definition blocks `{Bracket} (c : Z) : Z :=
  match class_count c with Done n => n | _ => 0 end.

Class BracketLaws (B : Bracket) : Prop := {
  slab_pos : 0 < SIZE_SLAB < 2 ^ 32;
  rows_bound : (1 <= ROWS <= 64)%nat;
  count_pos : 0 < COUNT <= 128;
  class_size_pos : forall c, class_wf c -> 0 < class_size c;
  class_count_done : forall c, class_wf c -> class_count c = Done (blocks c);
  blocks_pos : forall c, class_wf c -> 1 <= blocks c <= 64 * Z.of_nat ROWS;
  blocks_fit : forall c, class_wf c -> blocks c * class_size c <= SIZE_SLAB;
}.

(** A finite property of classes is checked by evaluation. *)
Lemma class_forall (n : Z) (P : Z -> bool) :
  forallb P (seqZ 0 n) = true -> forall c, 0 <= c < n -> P c = true.
Proof.
  intros H c Hc. rewrite forallb_forall in H. apply H.
  apply list_elem_of_In, elem_of_seqZ. lia.
Qed.

Definition class_check `{Bracket} (c : Z) : bool :=
  is_zero c ||
  ((0 <? class_size c)
   && match class_count c with
      | Done n => (1 <=? n) && (n <=? 64 * Z.of_nat ROWS) && (n * class_size c <=? SIZE_SLAB)
      | _ => false
      end).

Lemma class_check_ok `{Bracket} c :
  class_check c = true -> is_zero c = false ->
  0 < class_size c /\ class_count c = Done (blocks c) /\
  1 <= blocks c <= 64 * Z.of_nat ROWS /\ blocks c * class_size c <= SIZE_SLAB.
Proof.
  unfold class_check, blocks. intros Hc Hz. rewrite Hz in Hc. simpl in Hc.
  destruct (class_count c); try by rewrite andb_false_r in Hc.
  rewrite !andb_true_iff, Z.ltb_lt, !Z.leb_le in Hc. naive_solver.
Qed.

Lemma laws_from_check (B : Bracket) :
  0 < SIZE_SLAB < 2 ^ 32 -> (1 <= ROWS <= 64)%nat -> 0 < COUNT <= 128 ->
  forallb class_check (seqZ 0 COUNT) = true -> BracketLaws B.
Proof.
  intros Hs Hr Hn Hf. pose proof (class_forall COUNT class_check Hf) as H.
  split; [done|done|done|..]; intros c [Hc Hz]; by apply (class_check_ok c (H c Hc) Hz).
Qed.

#[export] Instance Small_laws : BracketLaws Small.bracket.
Proof. apply laws_from_check; [by vm_compute|vm_compute; lia|by vm_compute|by vm_compute]. Qed.

#[export] Instance Large_laws : BracketLaws Large.bracket.
Proof. apply laws_from_check; [by vm_compute|vm_compute; lia|by vm_compute|by vm_compute]. Qed.

(** ** Binning *)

Lemma un_new_done n x : 0 <= x < 2 ^ n -> un_new n x = Done x.
Proof. intros [H0 H1]. unfold un_new. by rewrite (proj2 (Z.leb_le _ _) H0), (proj2 (Z.ltb_lt _ _) H1). Qed.

Lemma small_new_done s : 0 <= s <= Small.SIZE_MAX ->
  Small.new s = Done (Some (next_multiple_of s 8 / 8)).
Proof.
  intros Hs. unfold Small.new. rewrite (proj2 (Z.leb_le _ _)) by lia.
  pose proof (next_multiple_of_spec s 8 ltac:(lia) ltac:(lia)) as [? _].
  pose proof (next_multiple_of_le s 8 Small.SIZE_MAX ltac:(lia) eq_refl ltac:(lia)).
  assert (0 <= next_multiple_of s 8 / 8 < 2 ^ 7).
  { unfold Small.SIZE_MAX in *. split; [apply Z.div_pos; lia|]. apply Z.div_lt_upper_bound; [lia|]. change (8 * 2 ^ 7) with 1024. lia. }
  unfold wrap. rewrite Z.mod_small by (simpl in *; lia). by rewrite un_new_done.
Qed.

Lemma trailing_zeros_pow2 w k : 0 <= k < w -> trailing_zeros w (2 ^ k) = k.
Proof.
  intros Hk. destruct (trailing_zeros_spec w (2 ^ k) k) as (Hle & Hb & _); [done|apply Z.pow2_bits_true; lia|].
  rewrite Z.pow2_bits_eqb in Hb by lia. apply Z.eqb_eq in Hb. lia.
Qed.

Lemma log2_up_bounds s k : 0 <= k -> 2 ^ k < s -> k < Z.log2_up s.
Proof. intros Hk Hs. apply Z.log2_up_lt_pow2; lia. Qed.

Lemma large_new_done s : 2 ^ 9 < s <= Large.SIZE_MAX ->
  Large.new s = Done (Some (Z.log2_up s - 10)) /\ 10 <= Z.log2_up s <= 19.
Proof.
  intros [Hlo Hhi]. assert (10 <= Z.log2_up s <= 19) as Hl.
  { split.
    - pose proof (log2_up_bounds s 9 ltac:(lia) Hlo). lia.
    - change 19 with (Z.log2_up Large.SIZE_MAX). by apply Z.log2_up_le_mono. }
  split; [|done]. unfold Large.new. rewrite (proj2 (Z.leb_le _ _)) by lia.
  unfold next_power_of_two, Large.SIZE_MIN_LOG2.
  rewrite Z.shiftr_div_pow2, <- Z.pow_sub_r by lia.
  rewrite trailing_zeros_pow2 by lia. unfold wrap. rewrite Z.mod_small by (simpl; lia).
  by rewrite un_new_done by (simpl; lia).
Qed.

(** ** Properties *)

(** C23: size-class binning is tight. Every request of at most 1016 bytes gets
    a small class, every request above 512 bytes and up to 512 KiB a large
    one; the class is in range, its block is big enough and no class of the
    bracket with a big enough block is smaller. Anything above the bracket's
    maximum is refused. *)
Theorem class_new_tightest s :
  (0 <= s <= Small.SIZE_MAX ->
     exists c, Small.new s = Done (Some c) /\ 0 <= c < Small.COUNT /\ s <= Small.size c /\
       forall c', 0 <= c' -> s <= Small.size c' -> c <= c') /\
  (2 ^ 9 < s <= Large.SIZE_MAX ->
     exists c, Large.new s = Done (Some c) /\ 0 <= c < Large.COUNT /\ s <= Large.size c /\
       forall c', 0 <= c' -> s <= Large.size c' -> c <= c') /\
  (Small.SIZE_MAX < s -> Small.new s = Done None) /\
  (Large.SIZE_MAX < s -> Large.new s = Done None).
Proof.
  split_and!.
  - intros Hs. eexists. split; [by apply small_new_done|].
    pose proof (next_multiple_of_spec s 8 ltac:(lia) ltac:(lia)) as [Hm H0].
    assert (next_multiple_of s 8 = 8 * (next_multiple_of s 8 / 8)) as E
      by (apply Z.div_exact; lia).
    pose proof (next_multiple_of_le s 8 Small.SIZE_MAX ltac:(lia) eq_refl ltac:(lia)).
    unfold Small.COUNT, Small.size, Small.SIZE_MAX in *. split_and!; [lia|lia|lia|].
    intros c' Hc' Hle. pose proof (next_multiple_of_le s 8 (c' * 8) ltac:(lia) ltac:(by apply Z.mod_mul) Hle). lia.
  - intros Hs. destruct (large_new_done s Hs) as [E Hl]. eexists. split; [done|].
    unfold Large.COUNT, Large.size, Large.SIZE_MIN, Large.SIZE_MIN_LOG2, Large.SIZE_MAX_LOG2.
    assert (forall c, 0 <= c -> Z.shiftl (Z.shiftl 1 10) c = 2 ^ (10 + c)) as Esh.
    { intros c Hc. rewrite !Z.shiftl_mul_pow2 by lia. rewrite Z.pow_add_r by lia. lia. }
    split_and!; [lia|lia| |].
    + rewrite Esh by lia. replace (10 + (Z.log2_up s - 10)) with (Z.log2_up s) by lia.
      apply Z.log2_up_spec. simpl in Hs. lia.
    + intros c' Hc' Hle. rewrite Esh in Hle by done.
      apply Z.log2_up_le_pow2 in Hle; [lia|simpl in Hs; lia].
  - intros Hs. unfold Small.new. by rewrite (proj2 (Z.leb_gt _ _)).
  - intros Hs. unfold Large.new. by rewrite (proj2 (Z.leb_gt _ _)).
Qed.

(** the large bracket alone does not accept the sizes below it: a request
    of at most 512 bytes makes [Large::new] panic (the rounded size shifts to
    zero, whose 64 trailing zeros do not fit in four bits). *)
Theorem large_new_small_panics s : 0 <= s <= 2 ^ 9 -> Large.new s = Panic.
Proof.
  intros Hs. unfold Large.new, Large.SIZE_MAX, Large.SIZE_MAX_LOG2.
  change (2 ^ 9) with 512 in Hs.
  change (Z.shiftl 1 19) with 524288. rewrite (proj2 (Z.leb_le _ _)) by lia.
  assert (Z.shiftr (next_power_of_two s) Large.SIZE_MIN_LOG2 = 0) as ->; [|done].
  unfold next_power_of_two, Large.SIZE_MIN_LOG2. rewrite Z.shiftr_div_pow2 by lia.
  apply Z.div_small. split; [apply Z.pow_nonneg; lia|]. apply Z.pow_lt_mono_r; [lia|lia|].
  apply Z.le_lt_trans with (Z.log2_up (2 ^ 9)); [apply Z.log2_up_le_mono; simpl; lia|reflexivity].
Qed.

Lemma class_new_tightest_witness :
  exists c, Large.new 1017 = Done (Some c) /\ 0 <= c < Large.COUNT /\ 1017 <= Large.size c /\
       forall c', 0 <= c' -> 1017 <= Large.size c' -> c <= c'.
Proof. apply (class_new_tightest 1017). vm_compute. split; [reflexivity | discriminate]. Defined.

Lemma large_new_small_panics_witness : Large.new 512 = Panic.
Proof. apply (large_new_small_panics 512). vm_compute. split; discriminate. Defined.
