(* ===== verification/Data.v ===== *)
(** * Data: thread ids, slab indices, block offsets and pointers

    Models cxlalloc/src/thread.rs ([Id]), the [Index] type of
    cxlalloc/src/slab.rs, cxlalloc/src/data.rs ([Data], [Offset]) and the
    self-relative pointer of cxlalloc/src/box.rs. The non-zero integer types
    are modelled by their stored (non-zero) value; addresses are integers. *)

From S2P Require Import Prelude Bitset Size.
From Stdlib Require Import ZArith Lia.
From stdpp Require Import base numbers option list gmap.
Local Open Scope Z_scope.

(** ** [thread::Id] *)

Definition COUNT_THREAD : Z := 512.

(** [thread::Id::new]: the stored value is [id + 1]. *)
Definition id_new (id : Z) : outcome Z :=
  if id <? wrap 16 COUNT_THREAD then Done (wrap 16 (id + 1)) else Panic.

(** [impl From<Id> for u16]. *)
Definition id_to_u16 (id : Z) : Z := id - 1.

Definition id_wf (id : Z) : Prop := 1 <= id <= COUNT_THREAD.

(** ** [slab::Index] *)

Definition index_MIN : Z := 1.

(** [NonZeroU32::checked_add] and the surrounding [unwrap]. *)
Definition index_add (i n : Z) : outcome Z :=
  match checked_add 32 i n with Some j => Done j | None => Panic end.

(** [impl From<Index<B>> for u32]. *)
Definition index_to_u32 (i : Z) : Z := i - 1.

(** [Index::<Huge>::new_huge]: the slot is truncated to [u32]. *)
Definition new_huge (slot : Z) : outcome Z := index_add index_MIN (wrap 32 slot).

(** [impl From<data::Offset<B>> for Index<B>]. *)
Definition index_from_offset `{Bracket} (o : Z) : outcome Z :=
  let i := wrap 32 (o / SIZE_SLAB) in
  if i =? 0 then Panic else Done i.

Definition index_wf (i : Z) : Prop := 1 <= i < 2 ^ 32.

(** ** [data::Offset] *)

Definition nonzero (x : Z) : outcome Z := if x =? 0 then Panic else Done x.

(** [Offset::from_block]. *)
Definition from_block `{Bracket} (dbg : bool) (class slab : Z) (block : Bit) : outcome Z :=
  obind (if dbg then
           obind (class_count class) (fun n =>
           if bit_to_u64 block <=? n then Done tt else Panic)
         else Done tt) (fun _ =>
  obind (arith dbg 64 (slab * SIZE_SLAB)) (fun a =>
  obind (arith dbg 64 (bit_to_u64 block * class_size class)) (fun b =>
  obind (arith dbg 64 (a + b)) nonzero))).

(** [Offset::into_block]; dividing by a zero size panics. *)
Definition into_block `{Bracket} (dbg : bool) (o class : Z) : outcome Bit :=
  if class_size class =? 0 then Panic
  else
    let block := o mod SIZE_SLAB / class_size class in
    obind (if dbg then
             obind (class_count class) (fun n =>
             if block <=? n then Done tt else Panic)
           else Done tt) (fun _ =>
    from_loose (wrap 16 block)).

(** [Offset::into_index]. *)
Definition into_index `{Bracket} (o : Z) : outcome Z := index_from_offset o.

(** [impl From<slab::Index<B>> for Offset<B>]. *)
Definition offset_from_index `{Bracket} (dbg : bool) (i : Z) : outcome Z :=
  obind (arith dbg 64 (i * SIZE_SLAB)) nonzero.

(** [impl From<Offset<B>> for u64]. *)
Definition offset_to_u64 `{Bracket} (dbg : bool) (o : Z) : outcome Z :=
  arith dbg 64 (o - SIZE_SLAB).

(** [impl Add<u64> for Offset<B>]. *)
Definition offset_plus (o n : Z) : outcome Z :=
  match checked_add 64 o n with Some x => Done x | None => Panic end.

(** ** [Data]: the base address is one slab below the mapped region *)

Definition data_new `{Bracket} (region : Z) : Z := region - SIZE_SLAB.

(** Offsets are only applied to mapped memory, which ends below 2^64, so the
    sum is the address. *)
Definition offset_to_pointer (base o : Z) : Z := base + o.

Definition offset_to_offset `{Bracket} (dbg : bool) (o : Z) : outcome Z :=
  obind (arith dbg 64 (o + SIZE_SLAB)) nonzero.

Definition pointer_to_offset (base p : Z) : option Z :=
  match checked_sub p base with
  | Some o => if o =? 0 then None else Some o
  | None => None
  end.

(** ** [Box]: a self-relative pointer stored at address [self] *)

(** [Box::link]: the stored delta, [None] for the null pointer. The addresses
    are user-space addresses, whose signed difference cannot overflow. *)
Definition box_link (self : Z) (pointee : option Z) : outcome (option Z) :=
  match pointee with
  | None => Done None
  | Some p => if p - self =? 0 then Panic else Done (Some (p - self))
  end.

(** [Box::deref] and [Box::deref_mut]: a null result panics. *)
Definition box_deref (self delta : Z) : outcome Z := nonzero (wrap 64 (self + delta)).

(** ** Lemmas *)
Section offsets.
Context `{BL : BracketLaws}.

Definition block_wf (c b : Z) : Prop := class_wf c /\ 0 <= b < blocks c.

(** Offset of block [b] of slab [i], without the machine arithmetic. *)
Definition block_offset (c i b : Z) : Z := i * SIZE_SLAB + b * class_size c.

Lemma block_in_slab c b :
  block_wf c b -> 0 <= b * class_size c /\ (b + 1) * class_size c <= SIZE_SLAB.
Proof.
  intros [Hc Hb]. pose proof (class_size_pos c Hc). pose proof (blocks_fit c Hc). nia.
Qed.

Lemma block_small c b : block_wf c b -> 0 <= b < 4096.
Proof. intros [Hc Hb]. pose proof (blocks_pos c Hc). pose proof rows_bound. lia. Qed.

Lemma offset_divmod c i b :
  block_wf c b ->
  block_offset c i b / SIZE_SLAB = i /\ block_offset c i b mod SIZE_SLAB = b * class_size c.
Proof.
  intros Hb. pose proof (block_in_slab c b Hb). pose proof slab_pos.
  pose proof (class_size_pos c (proj1 Hb)). unfold block_offset. split.
  - rewrite Z.div_add_l, Z.div_small by lia. lia.
  - rewrite Z.add_comm, Z_mod_plus_full. apply Z.mod_small. lia.
Qed.

Lemma offset_range c i b :
  index_wf i -> block_wf c b -> 0 < block_offset c i b < 2 ^ 64.
Proof.
  intros Hi Hb. pose proof (block_in_slab c b Hb). pose proof slab_pos.
  pose proof (class_size_pos c (proj1 Hb)). unfold block_offset, index_wf in *.
  change (2 ^ 64) with (2 ^ 32 * 2 ^ 32). nia.
Qed.

Lemma from_block_done dbg c i bit :
  index_wf i -> 0 <= row bit -> 0 <= col bit < 64 -> block_wf c (bit_to_u64 bit) ->
  from_block dbg c i bit = Done (block_offset c i (bit_to_u64 bit)).
Proof.
  intros Hi Hr Hc Hb. pose proof (offset_range c i _ Hi Hb) as Ho.
  pose proof (block_in_slab c _ Hb). unfold from_block, block_offset in *.
  assert (0 <= i * SIZE_SLAB) by (pose proof slab_pos; unfold index_wf in Hi; nia).
  rewrite (class_count_done c (proj1 Hb)). cbn [obind].
  rewrite (proj2 (Z.leb_le _ _)) by (destruct Hb; lia).
  rewrite !arith_ok by (unfold in_range; lia). unfold nonzero.
  destruct dbg; cbn [obind]; rewrite !arith_ok by (unfold in_range; lia); cbn [obind];
    rewrite (proj2 (Z.eqb_neq _ _)) by lia; done.
Qed.

Lemma into_index_done c i b :
  index_wf i -> block_wf c b -> into_index (block_offset c i b) = Done i.
Proof.
  intros Hi Hb. unfold into_index, index_from_offset. destruct (offset_divmod c i b Hb) as [-> _].
  unfold wrap. rewrite Z.mod_small by (unfold index_wf in *; lia). cbv zeta.
  rewrite (proj2 (Z.eqb_neq _ _)) by (unfold index_wf in *; lia). done.
Qed.

Lemma into_block_done dbg c i b :
  block_wf c b ->
  into_block dbg (block_offset c i b) c = Done (mkBit (b / 64) (b mod 64)).
Proof.
  intros Hb. pose proof (block_small c b Hb). pose proof (class_size_pos c (proj1 Hb)).
  unfold into_block. rewrite (proj2 (Z.eqb_neq _ _)) by lia.
  destruct (offset_divmod c i b Hb) as [_ ->]. rewrite Z.div_mul by lia.
  rewrite (class_count_done c (proj1 Hb)). cbv zeta. cbn [obind].
  rewrite (proj2 (Z.leb_le _ _)) by (destruct Hb; lia).
  unfold wrap. rewrite Z.mod_small by (simpl; lia).
  destruct dbg; cbn [obind]; by apply from_loose_done.
Qed.

Lemma bit_of_block b : 0 <= b -> bit_to_u64 (mkBit (b / 64) (b mod 64)) = b.
Proof.
  intros Hb. pose proof (Z.div_pos b 64 Hb ltac:(lia)). pose proof (Z.mod_pos_bound b 64 ltac:(lia)).
  rewrite bit_to_u64_eq by (simpl; lia). simpl. pose proof (Z.div_mod b 64). lia.
Qed.

Lemma block_of_bit bit :
  0 <= row bit -> 0 <= col bit < 64 ->
  mkBit (bit_to_u64 bit / 64) (bit_to_u64 bit mod 64) = bit.
Proof. intros Hr Hc. destruct (bit_to_u64_div bit Hr Hc) as [-> ->]. by destruct bit. Qed.

Lemma pointer_roundtrip base o :
  0 <= base -> 0 < o -> pointer_to_offset base (offset_to_pointer base o) = Some o.
Proof.
  intros Hb Ho. unfold pointer_to_offset, offset_to_pointer, checked_sub.
  rewrite (proj2 (Z.leb_le _ _)) by lia. replace (base + o - base) with o by lia.
  by rewrite (proj2 (Z.eqb_neq _ _)) by lia.
Qed.

Lemma block_ranges c c' i i' b b' :
  block_wf c b -> block_wf c' b' -> i <> i' \/ c = c' /\ b <> b' ->
  i * SIZE_SLAB <= block_offset c i b /\
  block_offset c i b + class_size c <= (i + 1) * SIZE_SLAB /\
  (block_offset c i b + class_size c <= block_offset c' i' b' \/
   block_offset c' i' b' + class_size c' <= block_offset c i b).
Proof.
  intros Hb Hb' Hne. pose proof (block_in_slab c b Hb). pose proof (block_in_slab c' b' Hb').
  pose proof (class_size_pos c (proj1 Hb)). pose proof (class_size_pos c' (proj1 Hb')).
  pose proof slab_pos. unfold block_offset. split_and!; [lia|lia|].
  destruct (Z.lt_trichotomy i i') as [Hlt|[->|Hlt]]; [left; nia| |right; nia].
  destruct Hne as [|[<- Hne]]; [done|].
  destruct (decide (b < b')); [left; nia|right; nia].
Qed.

(** ** Properties *)

(** C34: a block's offset determines its slab and its block number: computing
    the offset never overflows or panics, the pointer made from it converts
    back to the same offset, and [into_index] and [into_block] recover the
    slab and the bit the offset was built from. *)
Theorem offset_roundtrip dbg base c i bit :
  0 <= base -> index_wf i -> 0 <= row bit -> 0 <= col bit < 64 ->
  block_wf c (bit_to_u64 bit) ->
  exists o, from_block dbg c i bit = Done o /\
    pointer_to_offset base (offset_to_pointer base o) = Some o /\
    into_index o = Done i /\ into_block dbg o c = Done bit.
Proof.
  intros Hbase Hi Hr Hc Hb. exists (block_offset c i (bit_to_u64 bit)).
  pose proof (offset_range c i _ Hi Hb). split_and!.
  - by apply from_block_done.
  - apply pointer_roundtrip; lia.
  - by apply into_index_done.
  - rewrite into_block_done by done. by rewrite block_of_bit.
Qed.

(** the byte ranges of two different blocks never overlap, and each lies
    inside its slab: blocks of different slabs whatever their classes, and
    different blocks of the same slab and class. *)
Theorem blocks_disjoint c c' i i' b b' :
  block_wf c b -> block_wf c' b' -> i <> i' \/ c = c' /\ b <> b' ->
  let o := block_offset c i b in
  let o' := block_offset c' i' b' in
  i * SIZE_SLAB <= o /\ o + class_size c <= (i + 1) * SIZE_SLAB /\
  (o + class_size c <= o' \/ o' + class_size c' <= o).
Proof. intros Hb Hb' Hne. by apply block_ranges. Qed.
End offsets.

Lemma offset_roundtrip_witness :
  exists o, from_block (H := Small.bracket) true 3 7 (mkBit 20 5) = Done o /\
    pointer_to_offset 4096 (offset_to_pointer 4096 o) = Some o /\
    into_index (H := Small.bracket) o = Done 7 /\
    into_block (H := Small.bracket) true o 3 = Done (mkBit 20 5).
Proof.
  apply (offset_roundtrip (B := Small.bracket)); try (vm_compute; intuition discriminate).
Defined.

Lemma blocks_disjoint_witness :
  let B := Large.bracket in
  3 * SIZE_SLAB <= block_offset 1 3 0 /\
  block_offset 1 3 0 + class_size 1 <= (3 + 1) * SIZE_SLAB /\
  (block_offset 1 3 0 + class_size 1 <= block_offset 1 3 1 \/
   block_offset 1 3 1 + class_size 1 <= block_offset 1 3 0).
Proof.
  intros B. apply (blocks_disjoint (B := Large.bracket) 1 1 3 3 0 1).
  - vm_compute. intuition discriminate.
  - vm_compute. intuition discriminate.
  - right. split; [reflexivity | discriminate].
Defined.

(** a self-relative [Box] finds its target again after both the box and
    the target moved by the same distance, that is when the region is mapped
    at another address; linking a box to itself panics. *)
Theorem box_position_independent self pointee shift :
  self <> pointee -> 0 < pointee + shift < 2 ^ 64 ->
  exists d, box_link self (Some pointee) = Done (Some d) /\
    box_deref (self + shift) d = Done (pointee + shift) /\
    box_link self (Some self) = Panic.
Proof.
  intros Hne Hp. exists (pointee - self). unfold box_link, box_deref, nonzero, wrap.
  rewrite (proj2 (Z.eqb_neq _ _)) by lia. rewrite Z.sub_diag.
  replace (self + shift + (pointee - self)) with (pointee + shift) by lia.
  rewrite Z.mod_small by lia. rewrite (proj2 (Z.eqb_neq _ _)) by lia. done.
Qed.

Lemma box_position_independent_witness :
  exists d, box_link 8192 (Some 4096) = Done (Some d) /\
    box_deref (8192 + 65536) d = Done (4096 + 65536) /\ box_link 8192 (Some 8192) = Panic.
Proof. apply (box_position_independent 8192 4096 65536); lia. Defined.
