(* ===== verification/Cas.v ===== *)
(** * Cas: build configuration, recovery log and detectable CAS

    Models cxlalloc/src/cas.rs ([Detectable], [help::Array], [Version]), the
    log records of cxlalloc/src/recover.rs ([State], [HeapState]) and the
    context of cxlalloc/src/allocator.rs ([Context::log]).

    A [Detectable] is a 64-bit cell with the id of its last writer, that
    writer's version and a 32-bit payload. Its operations are written for any
    state that contains a context ([HasCtx]) and the cell ([cell]). Cache
    flushes and fences have no effect on values and are left out. *)

From S2P Require Import Prelude Bitset Size Data.
From Stdlib Require Import ZArith Lia.
From stdpp Require Import base numbers option list gmap.
Local Open Scope Z_scope.
Local Open Scope prog_scope.

(** ** Build and run-time configuration (cxlalloc/src/lib.rs, Cargo.toml) *)
Record Cfg := mkCfg {
  debug_assertions : bool;
  feature_validate : bool;
  recover_log : bool;
  recover_cas : bool;
  feature_stat : bool;
  COUNT_CACHE_SLAB : Z;
  BATCH_GLOBAL_PUSH : Z;
  BATCH_BUMP_POP : Z;
}.

(** [cfg!(any(feature = "validate", debug_assertions))]. *)
Definition validating (cfg : Cfg) : bool := feature_validate cfg || debug_assertions cfg.

(** The defaults: release or debug build, default features. *)
Definition default_cfg (dbg : bool) : Cfg := mkCfg dbg false true true false 0 1 1.

(** ** Log records *)
Inductive HeapState :=
| UnsizedToSized (index : option Z) (class : Z)
| GlobalToUnsized (index version : Z)
| BumpToUnsized (start : option Z) (version : Z)
| UnsizedToGlobalSave (index : Z)
| UnsizedToGlobal (index version : Z)
| SizedToApplication (index : Z) (block : Bit)
| ApplicationToSized (index : Z) (block : Bit)
| Remote (index version : Z) (last : bool)
| Detach (index version : Z).

Inductive State :=
| StateSmall (s : HeapState)
| StateLarge (s : HeapState).

(** [State: From<HeapState<B>>]. *)
Class IntoState := into_state : HeapState -> State.

Definition small_into : IntoState := StateSmall.
Definition large_into : IntoState := StateLarge.

(** ** Versions and the help array *)

(** [Version::next]. *)
Definition version_next (v : Z) : Z := wrap 16 (v + 1).

(** The part of the allocator state a [Context] reaches: the help array
    (row: observer, column: observed thread) and the log of each thread. *)
Record Ctx := mkCtx {
  help_array : gmap (Z * Z) Z;
  logs : gmap Z State;
}.

Class HasCtx (S : Type) := {
  get_ctx : S -> Ctx;
  set_ctx : Ctx -> S -> S;
}.

(** [help::Array::load]: memory starts zeroed. *)
Definition help_load (x : Ctx) (i j : Z) : Z := default 0 (help_array x !! (i, j)).

Definition help_put (i j v : Z) (x : Ctx) : Ctx :=
  mkCtx (<[(i, j) := v]> (help_array x)) (logs x).

(** ** Cells *)
Record DState (T : Type) := mkD { d_id : option Z; d_version : Z; d_inner : T }.
Arguments mkD {T}.
Arguments d_id {T}.
Arguments d_version {T}.
Arguments d_inner {T}.

#[export] Instance DState_eq_dec `{EqDecision T} : EqDecision (DState T).
Proof. solve_decision. Defined.

Record cell (S T : Type) := mkCell {
  cget : S -> DState T;
  cput : DState T -> S -> S;
}.
Arguments mkCell {S T}.
Arguments cget {S T}.
Arguments cput {S T}.

Section ops.
Context (cfg : Cfg) {S : Type} `{HC : HasCtx S} `{IS : IntoState}.

Definition with_ctx (f : Ctx -> Ctx) : M S unit :=
  modify (fun s => set_ctx (f (get_ctx s)) s).

(** [help::Array::store]. *)
Definition help_store (i j v : Z) : M S unit := with_ctx (help_put i j v).

(** [Context::log_unsync] and [Context::log] (equal but for the fences). *)
Definition log_unsync (id : Z) (h : HeapState) : M S unit :=
  if negb (recover_log cfg) then ret tt
  else with_ctx (fun x => mkCtx (help_array x) (<[id := into_state h]> (logs x))).

Definition log_ (id : Z) (h : HeapState) : M S unit :=
  if negb (recover_log cfg) then ret tt else log_unsync id h.

(** [Detectable::help]. *)
Definition help {T} (id : Z) (st : DState T) : M S unit :=
  if negb (recover_cas cfg) then ret tt
  else match d_id st with
       | None => ret tt
       | Some j => help_store id j (d_version st)
       end.

(** [Detectable::load]. *)
Definition load {T} (id : Z) (c : cell S T) : M S T :=
  old <- gets (cget c) ;;
  help id old ;;;
  ret (d_inner old).

(** [Detectable::store]. *)
Definition store {T} (id : Z) (c : cell S T) (value : T) : M S unit :=
  old <- gets (cget c) ;;
  help id old ;;;
  modify (cput c (mkD (Some id) 0 value)).

(** The loop of [Detectable::update]. [env] lists what other threads do to the
    shared state before each compare-exchange; once it is exhausted no other
    thread interferes and the next compare-exchange succeeds. *)
Fixpoint update_loop {T} `{EqDecision T} (env : list (S -> S)) (id version : Z)
    (c : cell S T) (next : T -> Z -> M S (option (T * HeapState))) (old : DState T)
    : M S (option T) :=
  help id old ;;;
  r <- next (d_inner old) version ;;
  match r with
  | None => ret None
  | Some (new, log) =>
      log_unsync id log ;;;
      match env with
      | [] =>
          cur <- gets (cget c) ;;
          if decide (cur = old) then
            modify (cput c (mkD (Some id) version new)) ;;;
            ret (Some (d_inner old))
          else diverge
      | e :: env =>
          modify e ;;;
          cur <- gets (cget c) ;;
          if decide (cur = old) then
            modify (cput c (mkD (Some id) version new)) ;;;
            ret (Some (d_inner old))
          else update_loop env id version c next cur
      end
  end.

(** [Detectable::update]. *)
Definition update {T} `{EqDecision T} (env : list (S -> S)) (id : Z) (c : cell S T)
    (next : T -> Z -> M S (option (T * HeapState))) : M S (option T) :=
  version <- gets (fun s => version_next (help_load (get_ctx s) id id)) ;;
  when_ (recover_cas cfg) (help_store id id version) ;;;
  old <- gets (cget c) ;;
  update_loop env id version c next old.

(** Rows of the help array, as [help.0.iter()] visits them. *)
Definition help_rows : list Z := seqZ 1 COUNT_THREAD.

(** The test of [Detectable::detect], after its assertion. *)
Definition detected {T} (x : Ctx) (st : DState T) (id version : Z) : bool :=
  (bool_decide (d_id st = Some id) && (d_version st =? version))
  || (1 <? Z.of_nat (length
         (List.filter (fun i => help_load x i id =? version) help_rows))).

(** [Detectable::detect]. *)
Definition detect {T} (id : Z) (c : cell S T) (version : Z) : M S bool :=
  v <- gets (fun s => help_load (get_ctx s) id id) ;;
  assert_ (v =? version) ;;;
  st <- gets (cget c) ;;
  x <- gets get_ctx ;;
  ret (detected x st id version).

(** ** Lemmas

    A program is run up to the context: the invariants of the heap do not
    mention it, so the rules below quantify over the context left behind. *)
Class CtxLaws : Prop := {
  set_set : forall x y s, set_ctx x (set_ctx y s) = set_ctx x s;
  set_get : forall s, set_ctx (get_ctx s) s = s;
}.

Record cell_ok {T} (c : cell S T) : Prop := {
  cell_ctx : forall x s, cget c (set_ctx x s) = cget c s;
}.

Context `{CL : CtxLaws}.

Lemma wp_with_ctx f (Q : S -> unit -> Prop) s :
  (forall x, Q (set_ctx x s) tt) -> wp (with_ctx f) Q s.
Proof. intros H. apply wp_modify, H. Qed.

Lemma wp_ctx_ret (Q : S -> unit -> Prop) s :
  (forall x, Q (set_ctx x s) tt) -> wp (ret tt) Q s.
Proof. intros H. apply wp_ret. rewrite <- (set_get s). apply H. Qed.

Lemma wp_help {T} id (st : DState T) (Q : S -> unit -> Prop) s :
  (forall x, Q (set_ctx x s) tt) -> wp (help id st) Q s.
Proof.
  intros H. unfold help, help_store. destruct (recover_cas cfg); simpl; [|by apply wp_ctx_ret].
  destruct (d_id st); [by apply wp_with_ctx|by apply wp_ctx_ret].
Qed.

Lemma wp_log_unsync id h (Q : S -> unit -> Prop) s :
  (forall x, Q (set_ctx x s) tt) -> wp (log_unsync id h) Q s.
Proof.
  intros H. unfold log_unsync. destruct (recover_log cfg); simpl; [by apply wp_with_ctx|by apply wp_ctx_ret].
Qed.

Lemma wp_log id h (Q : S -> unit -> Prop) s :
  (forall x, Q (set_ctx x s) tt) -> wp (log_ id h) Q s.
Proof.
  intros H. unfold log_. destruct (recover_log cfg); simpl; [by apply wp_log_unsync|by apply wp_ctx_ret].
Qed.

Lemma wp_load {T} id (c : cell S T) (Q : S -> T -> Prop) s :
  (forall x, Q (set_ctx x s) (d_inner (cget c s))) -> wp (load id c) Q s.
Proof. intros H. unfold load. wp_go. apply wp_help. intros x. apply wp_ret, H. Qed.

Lemma wp_store {T} id (c : cell S T) v (Q : S -> unit -> Prop) s :
  (forall x, Q (cput c (mkD (Some id) 0 v) (set_ctx x s)) tt) -> wp (store id c v) Q s.
Proof. intros H. unfold store. wp_go. apply wp_help. intros x. apply wp_modify, H. Qed.

(** Without interference the first compare-exchange of [update] succeeds. *)
Lemma wp_update {T} `{EqDecision T} id (c : cell S T) next (Q : S -> option T -> Prop) s :
  cell_ok c ->
  (forall x v, wp (next (d_inner (cget c s)) v) (fun s' r =>
     match r with
     | None => Q s' None
     | Some (new, _) => cget c s' = cget c s /\
         forall x', Q (cput c (mkD (Some id) v new) (set_ctx x' s')) (Some (d_inner (cget c s)))
     end) (set_ctx x s)) ->
  wp (update [] id c next) Q s.
Proof.
  intros [Hc] H. unfold update. wp_go. set (v := version_next _).
  assert (forall x, wp (update_loop [] id v c next (cget c s)) Q (set_ctx x s)) as Hloop.
  { intros x. cbn [update_loop]. wp_go. apply wp_help. intros y. rewrite set_set. apply wp_bind.
    eapply wp_conseq; [apply (H y v)|]. intros s' [[new log]|] HQ; [|by apply wp_ret].
    destruct HQ as [Hcell HQ]. wp_go. apply wp_log_unsync. intros z. wp_go. rewrite Hc, Hcell.
    rewrite decide_True by done. wp_go. apply HQ. }
  apply wp_when; intros _.
  - apply wp_with_ctx. intros x. wp_go. rewrite Hc. apply Hloop.
  - wp_go. rewrite <- (set_get s) at 2. apply Hloop.
Qed.
End ops.

#[global] Arguments CtxLaws S {HC}.
