(* ===== verification/Slab.v ===== *)
(** * Slab: slab descriptors and the stacks that link them

    Models cxlalloc/src/slab.rs ([Slab], [link], [trace]),
    cxlalloc/src/slab/local.rs, cxlalloc/src/slab/remote.rs and
    cxlalloc/src/slab/stack.rs ([Local], [Global]), over the memory of one
    heap: the slab descriptors, the shared words and the stacks of every
    thread. All of it starts as zeroed memory. *)

From S2P Require Import Prelude Bitset Size Data Cas.
From Stdlib Require Import ZArith Lia.
From stdpp Require Import base numbers option list gmap.
Local Open Scope Z_scope.
Local Open Scope prog_scope.

(** ** State *)

(** [slab::Local]. *)
Record Local := mkLocal {
  next : option Z;
  owner : option Z;
  class : Z;
  free : BitSet;
}.

(** [slab::stack::Local]. *)
Record LStack := mkLStack { head : option Z; len : Z }.

(** [heap::Owned]: the stacks of one thread; [sized] is indexed by class. *)
Record Owned := mkOwned { unsized : LStack; sized : gmap Z LStack }.

(** [stat::thread::Event]. *)
Inductive Event :=
| EvBump
| EvGlobalToUnsized
| EvAllocate (size : Z)
| EvUnsizedToSized (class : Z)
| EvFree (size : Z)
| EvSizedToUnsized (class : Z)
| EvUnsizedToGlobal
| EvDetach (class : Z)
| EvDisown (class : Z)
| EvAttach (class : Z)
| EvClaim (class : Z).

(** Memory of one heap: [Slab { locals, remotes }], [heap::Shared] and the
    [heap::Owned] of every thread. [slab::Remote] is its [free] counter. *)
Record HeapMem := mkHeapMem {
  locals : gmap Z Local;
  remotes : gmap Z (DState Z);
  shared_free : DState (option Z);
  shared_bump : DState (option Z);
  owned : gmap Z Owned;
}.

(** What a heap operation runs on: the context, the memory and the recorded
    statistics events, newest first. *)
Record HS := mkHS {
  hs_ctx : Ctx;
  hs_mem : HeapMem;
  hs_stat : list (Z * Event);
}.

#[export] Instance HS_ctx : HasCtx HS := {|
  get_ctx := hs_ctx;
  set_ctx x s := mkHS x (hs_mem s) (hs_stat s);
|}.

#[export] Instance HS_ctx_laws : CtxLaws HS.
Proof. split; [done|by intros []]. Qed.

Definition zero_stack : LStack := mkLStack None 0.
Definition zero_owned : Owned := mkOwned zero_stack ∅.

Section slab.
Context (cfg : Cfg) `{B : Bracket} `{IS : IntoState}.

Definition zero_local : Local := mkLocal None None 0 (new ROWS).
Definition zero_mem : HeapMem := mkHeapMem ∅ ∅ (mkD None 0 None) (mkD None 0 None) ∅.

(** [Slab::local] and [Slab::remote]. *)
Definition loc (m : HeapMem) (i : Z) : Local := default zero_local (locals m !! i).
Definition rem (m : HeapMem) (i : Z) : DState Z := default (mkD None 0 0) (remotes m !! i).
Definition own_of (m : HeapMem) (t : Z) : Owned := default zero_owned (owned m !! t).
Definition sized_of (o : Owned) (c : Z) : LStack := default zero_stack (sized o !! c).

Definition put_loc (i : Z) (l : Local) (m : HeapMem) : HeapMem :=
  mkHeapMem (<[i := l]> (locals m)) (remotes m) (shared_free m) (shared_bump m) (owned m).
Definition put_rem (i : Z) (d : DState Z) (m : HeapMem) : HeapMem :=
  mkHeapMem (locals m) (<[i := d]> (remotes m)) (shared_free m) (shared_bump m) (owned m).
Definition put_free (d : DState (option Z)) (m : HeapMem) : HeapMem :=
  mkHeapMem (locals m) (remotes m) d (shared_bump m) (owned m).
Definition put_bump (d : DState (option Z)) (m : HeapMem) : HeapMem :=
  mkHeapMem (locals m) (remotes m) (shared_free m) d (owned m).
Definition put_owned (t : Z) (o : Owned) (m : HeapMem) : HeapMem :=
  mkHeapMem (locals m) (remotes m) (shared_free m) (shared_bump m) (<[t := o]> (owned m)).

Definition on_mem (f : HeapMem -> HeapMem) (s : HS) : HS := mkHS (hs_ctx s) (f (hs_mem s)) (hs_stat s).

(** The atomic words of a heap, as cells. *)
Definition remote_cell (i : Z) : cell HS Z :=
  mkCell (fun s => rem (hs_mem s) i) (fun d => on_mem (put_rem i d)).
Definition free_cell : cell HS (option Z) :=
  mkCell (fun s => shared_free (hs_mem s)) (fun d => on_mem (put_free d)).
Definition bump_cell : cell HS (option Z) :=
  mkCell (fun s => shared_bump (hs_mem s)) (fun d => on_mem (put_bump d)).

(** ** Slab descriptors *)
Definition get_local (i : Z) : M HS Local := gets (fun s => loc (hs_mem s) i).
Definition set_local (i : Z) (f : Local -> Local) : M HS unit :=
  modify (on_mem (fun m => put_loc i (f (loc m i)) m)).

Definition set_next (n : option Z) (l : Local) : Local := mkLocal n (owner l) (class l) (free l).
Definition set_owner (o : option Z) (l : Local) : Local := mkLocal (next l) o (class l) (free l).
Definition set_class (c : Z) (l : Local) : Local := mkLocal (next l) (owner l) c (free l).
Definition set_bits (b : BitSet) (l : Local) : Local := mkLocal (next l) (owner l) (class l) b.

(** [validate!]. *)
Definition validate_ (b : bool) : M HS unit := when_ (validating cfg) (assert_ b).

(** [Local::own], [Local::steal] and [Local::disown]. *)
Definition own (id i : Z) : M HS unit :=
  l <- get_local i ;;
  validate_ (bool_decide (owner l = None)) ;;;
  set_local i (set_owner (Some id)).

Definition steal (id i : Z) : M HS unit := set_local i (set_owner (Some id)).

Definition disown (id i : Z) : M HS unit :=
  l <- get_local i ;;
  validate_ (bool_decide (owner l = Some id)) ;;;
  set_local i (set_owner None).

(** [Slab::link]: the slabs [start, start + n) in order, the last one followed
    by [hd]. *)
Fixpoint link (id start : Z) (n : nat) (hd : option Z) : M HS unit :=
  match n with
  | O => ret tt
  | S n =>
      own id start ;;;
      set_local start (set_next (match n with O => hd | _ => Some (start + 1) end)) ;;;
      link id (start + 1) n hd
  end.

(** ** Traces *)

(** [Slab::trace(..).take(n)]. *)
Fixpoint trace_take (m : HeapMem) (n : nat) (h : option Z) : list Z :=
  match n, h with
  | S n, Some i => i :: trace_take m n (next (loc m i))
  | _, _ => []
  end.

(** The whole trace. Only touched descriptors have a successor, so a trace
    longer than the bound revisits one and never ends. *)
Definition trace_fuel (m : HeapMem) : nat := S (S (size (locals m))).

Definition trace (m : HeapMem) (h : option Z) : outcome (list Z) :=
  let l := trace_take m (trace_fuel m) h in
  if (length l <? trace_fuel m)%nat then Done l else Diverge.

(** ** Thread-local stacks *)

(** Which stack of [heap::Owned]. *)
Inductive sref := Unsized | Sized (c : Z).

#[export] Instance sref_eq_dec : EqDecision sref.
Proof. solve_decision. Defined.

Definition stk (m : HeapMem) (t : Z) (r : sref) : LStack :=
  match r with
  | Unsized => unsized (own_of m t)
  | Sized c => sized_of (own_of m t) c
  end.

Definition put_stk (t : Z) (r : sref) (k : LStack) (m : HeapMem) : HeapMem :=
  let o := own_of m t in
  put_owned t
    match r with
    | Unsized => mkOwned k (sized o)
    | Sized c => mkOwned (unsized o) (<[c := k]> (sized o))
    end m.

(** [size::Array] is indexed without a bounds check. *)
Definition sref_ok (r : sref) : bool :=
  match r with Unsized => true | Sized c => (0 <=? c) && (c <? COUNT) end.

Definition get_stack (t : Z) (r : sref) : M HS LStack :=
  if sref_ok r then gets (fun s => stk (hs_mem s) t r) else undef.
Definition put_stack (t : Z) (r : sref) (k : LStack) : M HS unit :=
  if sref_ok r then modify (on_mem (put_stk t r k)) else undef.

(** [stack::Local::is_valid]: [n] is [len - i]; one more element than that
    makes [i > len]. *)
Fixpoint valid_walk (m : HeapMem) (n : nat) (h : option Z) : bool :=
  match h with
  | None => (n =? 0)%nat
  | Some i => match n with O => false | S n => valid_walk m n (next (loc m i)) end
  end.
Definition stack_is_valid (m : HeapMem) (k : LStack) : bool :=
  valid_walk m (Z.to_nat (len k)) (head k).

(** [stack::Local::peek], [len] and [set]. *)
Definition stack_peek (t : Z) (r : sref) : M HS (option Z) :=
  k <- get_stack t r ;; ret (head k).
Definition stack_len (t : Z) (r : sref) : M HS Z :=
  k <- get_stack t r ;; ret (len k).
Definition stack_set (t : Z) (r : sref) (h : option Z) (n : Z) : M HS unit :=
  put_stack t r (mkLStack h n).

(** [usize] subtraction and addition. *)
Definition usize (x : Z) : M HS Z := lift (arith (debug_assertions cfg) 64 x).

(** [stack::Local::pop]. *)
Definition stack_pop (t : Z) (r : sref) : M HS (option Z) :=
  k <- get_stack t r ;;
  match head k with
  | None => ret None
  | Some i =>
      l <- get_local i ;;
      n <- usize (len k - 1) ;;
      put_stack t r (mkLStack (next l) n) ;;;
      ret (Some i)
  end.

(** [stack::Local::push]. *)
Definition stack_push (t : Z) (r : sref) (i : Z) : M HS unit :=
  k <- get_stack t r ;;
  set_local i (set_next (head k)) ;;;
  n <- usize (len k + 1) ;;
  put_stack t r (mkLStack (Some i) n).

(** [stack::Local::recover_len] and [stack::Local::recover_push]. *)
Definition recover_len (t : Z) (r : sref) : M HS unit :=
  k <- get_stack t r ;;
  l <- (m <- gets hs_mem ;; lift (trace m (head k))) ;;
  put_stack t r (mkLStack (head k) (Z.of_nat (length l))).

Definition recover_push (t : Z) (r : sref) (i : Z) : M HS unit :=
  k <- get_stack t r ;;
  (if decide (head k = Some i) then ret tt else stack_push t r i) ;;;
  recover_len t r.

(** ** The global stack *)

(** [stack::Global::push]: links [tail] to the old head inside the CAS loop. *)
Definition global_push (id hd tl : Z) : M HS unit :=
  r <- update cfg [] id free_cell (fun old version =>
         set_local tl (set_next old) ;;;
         ret (Some (Some hd, UnsizedToGlobal hd version))) ;;
  unwrap r ;;; ret tt.

(** [stack::Global::pop]. *)
Definition global_pop (id : Z) : M HS (option Z) :=
  r <- update cfg [] id free_cell (fun old version =>
         match old with
         | None => ret None
         | Some i =>
             l <- get_local i ;;
             ret (Some (next l, GlobalToUnsized i version))
         end) ;;
  ret (mjoin r).

(** [stack::Global::detect] and [stack::Global::is_empty]. *)
Definition global_detect (id version : Z) : M HS bool := detect id free_cell version.
Definition global_is_empty (id : Z) : M HS bool :=
  h <- load cfg id free_cell ;; ret (bool_decide (h = None)).

(** ** Lemmas: reading a written memory *)
Lemma loc_put_loc i l m j : loc (put_loc i l m) j = if decide (j = i) then l else loc m j.
Proof. unfold loc, put_loc. simpl. case_decide; simplify_map_eq; done. Qed.
Lemma loc_put_rem i d m j : loc (put_rem i d m) j = loc m j.
Proof. done. Qed.
Lemma loc_put_free d m j : loc (put_free d m) j = loc m j.
Proof. done. Qed.
Lemma loc_put_bump d m j : loc (put_bump d m) j = loc m j.
Proof. done. Qed.
Lemma loc_put_stk t r k m j : loc (put_stk t r k m) j = loc m j.
Proof. done. Qed.
Lemma rem_put_rem i d m j : rem (put_rem i d m) j = if decide (j = i) then d else rem m j.
Proof. unfold rem, put_rem. simpl. case_decide; simplify_map_eq; done. Qed.
Lemma rem_put_loc i l m j : rem (put_loc i l m) j = rem m j.
Proof. done. Qed.
Lemma rem_put_free d m j : rem (put_free d m) j = rem m j.
Proof. done. Qed.
Lemma rem_put_bump d m j : rem (put_bump d m) j = rem m j.
Proof. done. Qed.
Lemma rem_put_stk t r k m j : rem (put_stk t r k m) j = rem m j.
Proof. done. Qed.
Lemma stk_put_stk t r k m t' r' :
  stk (put_stk t r k m) t' r' = if decide (t' = t /\ r' = r) then k else stk m t' r'.
Proof.
  unfold stk, put_stk, own_of, put_owned, sized_of. simpl.
  destruct (decide (t' = t)) as [->|Ht].
  - rewrite lookup_insert_eq. simpl. destruct r as [|c], r' as [|c']; simpl.
    1: by rewrite decide_True. 1,2: by rewrite decide_False by naive_solver.
    destruct (decide (c' = c)) as [->|].
    + by rewrite lookup_insert_eq, decide_True by done.
    + by rewrite lookup_insert_ne, decide_False by naive_solver.
  - rewrite lookup_insert_ne, decide_False by naive_solver. done.
Qed.
Lemma stk_put_loc i l m t r : stk (put_loc i l m) t r = stk m t r.
Proof. done. Qed.
Lemma stk_put_rem i d m t r : stk (put_rem i d m) t r = stk m t r.
Proof. done. Qed.
Lemma stk_put_free d m t r : stk (put_free d m) t r = stk m t r.
Proof. done. Qed.
Lemma stk_put_bump d m t r : stk (put_bump d m) t r = stk m t r.
Proof. done. Qed.

(** ** Lemmas: chains

    [chain m h l]: following [next] from [h] visits exactly [l]. *)
Fixpoint chain (m : HeapMem) (h : option Z) (l : list Z) : Prop :=
  match l with
  | [] => h = None
  | i :: l => h = Some i /\ chain m (next (loc m i)) l
  end.

Lemma chain_frame m m' h l :
  chain m h l -> (forall i, i ∈ l -> next (loc m' i) = next (loc m i)) -> chain m' h l.
Proof.
  revert h. induction l as [|i l IH]; intros h; simpl; [done|].
  intros [-> Hl] Hf. split; [done|]. rewrite Hf by set_solver. apply IH; [done|set_solver].
Qed.

Lemma trace_take_chain m h l n :
  chain m h l -> (length l <= n)%nat -> trace_take m n h = l.
Proof.
  revert h n. induction l as [|i l IH]; intros h n; simpl.
  - intros -> _. by destruct n.
  - intros [-> Hl] Hn. destruct n as [|n]; [lia|]. simpl. f_equal. apply IH; [done|lia].
Qed.

Lemma trace_take_prefix m h l n :
  chain m h l -> trace_take m n h = take n l.
Proof.
  revert h n. induction l as [|i l IH]; intros h n; simpl.
  - intros ->. by destruct n.
  - intros [-> Hl]. destruct n as [|n]; simpl; [done|]. f_equal. by apply IH.
Qed.

Lemma valid_walk_chain m h l n :
  chain m h l -> valid_walk m n h = (n =? length l)%nat.
Proof.
  revert h n. induction l as [|i l IH]; intros h n; simpl.
  - by intros ->; destruct n.
  - intros [-> Hl]. destruct n as [|n]; simpl; [done|]. by apply IH.
Qed.

Lemma chain_app m h l k :
  chain m h (l ++ k) <->
  exists h', chain m h' k /\
    match l with [] => h = h' | i :: l' =>
      trace_take m (length l) h = l /\ next (loc m (List.last l 0)) = h' end.
Proof.
  revert h. induction l as [|i l IH]; intros h; simpl; [naive_solver|].
  rewrite IH. destruct l as [|j l]; simpl.
  - split.
    + intros (-> & h' & Hk & <-). eauto.
    + intros (h' & Hk & Ht & <-). destruct h; simplify_eq/=. eauto.
  - split.
    + intros (-> & h' & Hk & Ht & Hn). exists h'. split; [done|]. split; [|done].
      simpl in Ht. by rewrite Ht.
    + intros (h' & Hk & Ht & Hn). destruct h as [x|]; simplify_eq/=. split; [done|]. eauto.
Qed.

(** An acyclic trace fits in the fuel. *)
Lemma chain_length m h l : chain m h l -> NoDup l -> (length l < trace_fuel m)%nat.
Proof.
  intros Hc Hnd. unfold trace_fuel.
  assert (forall l h, chain m h l -> NoDup l -> (length l <= S (size (filter (fun p : Z * Local => p.1 ∈ l) (locals m))))%nat) as H.
  { clear. induction l as [|i l IH]; intros h Hc Hnd; simpl; [lia|]. destruct Hc as [-> Hc].
    apply NoDup_cons in Hnd as [Hi Hnd]. destruct l as [|j l]; [simpl; lia|].
    assert (is_Some (locals m !! i)) as [x Hx].
    { destruct (locals m !! i) eqn:E; [eauto|]. destruct Hc as [Hn _]. unfold loc in Hn. by rewrite E in Hn. }
    specialize (IH _ Hc Hnd). eapply Nat.le_trans; [apply le_n_S, IH|]. apply le_n_S.
    rewrite <- (map_size_insert_None i x (filter _ (locals m))).
    - apply map_subseteq_size. apply insert_subseteq_l.
      + apply map_lookup_filter_Some. split; [done|set_solver].
      + apply map_filter_subseteq_ext. intros k y Hk. set_solver.
    - apply map_lookup_filter_None. right. set_solver. }
  specialize (H l h Hc Hnd). eapply Nat.le_lt_trans; [exact H|]. apply le_n_S, le_n_S.
  apply map_subseteq_size, map_filter_subseteq.
Qed.

Lemma trace_chain m h l : chain m h l -> NoDup l -> trace m h = Done l.
Proof.
  intros Hc Hnd. pose proof (chain_length m h l Hc Hnd) as Hl. unfold trace.
  rewrite (trace_take_chain m h l) by (done || lia). cbv zeta.
  by rewrite (proj2 (Nat.ltb_lt _ _) Hl).
Qed.
End slab.

#[global] Arguments loc : simpl never.
#[global] Arguments rem : simpl never.
#[global] Arguments stk : simpl never.
#[global] Arguments put_loc : simpl never.
#[global] Arguments put_rem : simpl never.
#[global] Arguments put_stk : simpl never.
#[global] Arguments put_free : simpl never.
#[global] Arguments put_bump : simpl never.

#[export] Hint Rewrite @loc_put_loc @loc_put_rem @loc_put_free @loc_put_bump @loc_put_stk
  @rem_put_rem @rem_put_loc @rem_put_free @rem_put_bump @rem_put_stk
  @stk_put_stk @stk_put_loc @stk_put_rem @stk_put_free @stk_put_bump : mem.
