(* ===== verification/Heap.v ===== *)
(** * Heap: the operations of one size-bracket heap (cxlalloc/src/heap.rs)

    Every operation of [Heap<view::Focus, B>], [heap::Shared] and
    [heap::Owned], for the thread [id] of the context. Each runs as one atomic
    step of the machine; the compare-exchange loops inside meet no
    interference. *)

From Stdlib Require Import ZArith Lia.
From stdpp Require Import base numbers option list gmap.
From S2P Require Import Prelude Bitset Size Data Cas Slab.
Local Open Scope Z_scope.
Local Open Scope prog_scope.

Section heap.
Context (cfg : Cfg) `{B : Bracket} `{IS : IntoState}.

(** [stat::thread::Recorder::record]: a no-op unless a statistics feature is
    on; the recorders that consume the events are in Stat.v. *)
Definition record (id : Z) (e : Event) : M HS unit :=
  when_ (feature_stat cfg)
    (modify (fun s => mkHS (hs_ctx s) (hs_mem s) ((id, e) :: hs_stat s))).

(** ** [heap::Shared] *)

(** [Shared::len]: the bump index. *)
Definition shared_len (id : Z) : M HS (option Z) := load cfg id bump_cell.

(** [Shared::bump]: reserves [BATCH_BUMP_POP] fresh slabs. *)
Definition bump (id : Z) : M HS (Z * Z) :=
  let batch := wrap 32 (BATCH_BUMP_POP cfg) in
  r <- update cfg [] id bump_cell (fun old version =>
         new <- lift (index_add (default index_MIN old) batch) ;;
         ret (Some (Some new, BumpToUnsized old version))) ;;
  start <- unwrap r ;;
  let start := default index_MIN start in
  end_ <- lift (index_add start batch) ;;
  ret (start, end_).

Definition detect_bump (id version : Z) : M HS bool := detect id bump_cell version.

Definition shared_push (id hd tl : Z) : M HS unit := global_push cfg id hd tl.

Definition shared_pop (id : Z) : M HS (option Z) :=
  e <- global_is_empty cfg id ;;
  if (e : bool) then ret None else global_pop cfg id.

Definition detect_global (id version : Z) : M HS bool := global_detect id version.

(** ** [heap::Owned] *)

(** The [HashSet] of [Owned::is_valid], threaded through a stack's trace;
    [None] is the early [false]. *)
Fixpoint valid_members (ok : Z -> bool) (seen l : list Z) : option (list Z) :=
  match l with
  | [] => Some seen
  | i :: l =>
      if decide (i ∈ seen) then None
      else if ok i then valid_members ok (i :: seen) l else None
  end.

Fixpoint valid_sized (m : HeapMem) (id : Z) (seen classes : list Z) : bool :=
  match classes with
  | [] => true
  | c :: classes =>
      let k := stk m id (Sized c) in
      stack_is_valid m k &&
      match valid_members (fun i =>
              (0 <? Bitset.len (free (loc m i))) && (class (loc m i) =? c)
              && bool_decide (owner (loc m i) = Some id)) seen
              (trace_take m (Z.to_nat (Slab.len k)) (head k)) with
      | None => false
      | Some seen => valid_sized m id seen classes
      end
  end.

(** [Owned::is_valid]: a stack whose own check passed has a finite trace. *)
Definition owned_is_valid (id : Z) (m : HeapMem) : bool :=
  let k := stk m id Unsized in
  stack_is_valid m k &&
  match valid_members (fun i => bool_decide (owner (loc m i) = Some id)) []
          (trace_take m (Z.to_nat (Slab.len k)) (head k)) with
  | None => false
  | Some seen => valid_sized m id seen (seqZ 0 COUNT)
  end.

Definition validate_owned (id : Z) : M HS unit :=
  m <- gets hs_mem ;; validate_ cfg (owned_is_valid id m).

(** [Owned::unsized_to_sized]. *)
Definition unsized_to_sized (id c : Z) : M HS bool :=
  h <- stack_peek id Unsized ;;
  match h with
  | None => ret false
  | Some index =>
      l <- get_local index ;;
      let nxt := next l in
      log_ cfg id (UnsizedToSized nxt c) ;;;
      set_local index (set_class c) ;;;
      n <- lift (class_count c) ;;
      l <- get_local index ;;
      bits <- lift (fill (free l) n) ;;
      set_local index (set_bits bits) ;;;
      stack_push cfg id (Sized c) index ;;;
      store cfg id (remote_cell index) (wrap 16 n) ;;;
      k <- stack_len id Unsized ;;
      k' <- usize cfg (k - 1) ;;
      stack_set id Unsized nxt k' ;;;
      ret true
  end.

(** The [loop] of [Owned::sized_to_unsized]: the predecessor of [index] from
    [walk] on; [None] is the [panic!]. *)
Fixpoint find_prev (m : HeapMem) (n : nat) (walk index : Z) : outcome (option Z) :=
  match n with
  | O => Diverge
  | S n =>
      match next (loc m walk) with
      | None => Done None
      | Some j => if decide (j = index) then Done (Some walk) else find_prev m n j index
      end
  end.

(** [Owned::sized_to_unsized]. *)
Definition sized_to_unsized (id c index : Z) : M HS unit :=
  l <- get_local index ;;
  let nxt := next l in
  h <- stack_peek id (Sized c) ;;
  walk <- unwrap h ;;
  (if decide (walk = index) then
     n <- stack_len id (Sized c) ;;
     n' <- usize cfg (n - 1) ;;
     stack_set id (Sized c) nxt n'
   else
     m <- gets hs_mem ;;
     p <- lift (find_prev m (trace_fuel m) walk index) ;;
     prev <- unwrap p ;;
     set_local prev (set_next nxt)) ;;;
  stack_push cfg id Unsized index.

(** ** [Heap] *)

(** [Heap::class]. *)
Definition heap_class (o : Z) : M HS Z :=
  i <- lift (into_index o) ;;
  l <- get_local i ;;
  ret (class l).

(** [Heap::checked_pointer_to_offset]: [Reservation::SIZE] is one TiB. *)
Definition RESERVATION_SIZE : Z := Z.shiftl 1 40.

Definition checked_pointer_to_offset (base p : Z) : outcome (option Z) :=
  match pointer_to_offset base p with
  | None => Done None
  | Some o => obind (offset_to_u64 (debug_assertions cfg) o) (fun x =>
              Done (if x <? RESERVATION_SIZE then Some o else None))
  end.

(** [Heap::detach]. *)
Definition detach (id c index : Z) : M HS unit :=
  record id (EvDetach c) ;;;
  f <- load cfg id (remote_cell index) ;;
  n <- lift (class_count c) ;;
  if f <? n then
    record id (EvDisown c) ;;;
    disown cfg id index
  else ret tt.

(** [Heap::attach]. *)
Definition attach (id c index : Z) : M HS unit :=
  record id (EvAttach c) ;;;
  stack_push cfg id (Sized c) index.

(** [Heap::pop]: takes a block peeked before; [base] is [self.data.base]. *)
Definition pop (base id c index : Z) (block : Bit) : M HS Z :=
  record id (EvAllocate (class_size c)) ;;;
  l <- get_local index ;;
  bits <- lift (unset (validating cfg) (debug_assertions cfg) (free l) block) ;;
  set_local index (set_bits bits) ;;;
  (if is_empty bits then
     r <- stack_pop cfg id (Sized c) ;;
     i <- unwrap r ;;
     detach id c i
   else ret tt) ;;;
  o <- lift (from_block (debug_assertions cfg) c index block) ;;
  ret (offset_to_pointer base o).

(** [Heap::allocate]: finds a slab for the class. *)
Definition allocate (id c : Z) : M HS (option Z) :=
  if is_zero c then ret None
  else
    b <- unsized_to_sized id c ;;
    if (b : bool) then
      record id (EvUnsizedToSized c) ;;;
      validate_owned id ;;;
      stack_peek id (Sized c)
    else
      g <- shared_pop id ;;
      match g with
      | Some index =>
          record id EvGlobalToUnsized ;;;
          own cfg id index ;;;
          stack_push cfg id Unsized index
      | None =>
          range <- bump id ;;
          record id EvBump ;;;
          link cfg id (fst range) (Z.to_nat (snd range - fst range)) None ;;;
          stack_set id Unsized (Some (fst range)) (BATCH_BUMP_POP cfg)
      end ;;;
      unsized_to_sized id c ;;;
      record id (EvUnsizedToSized c) ;;;
      validate_owned id ;;;
      stack_peek id (Sized c).

(** [Heap::peek]. *)
Definition peek (id c : Z) : M HS (option (Z * Bit)) :=
  h <- stack_peek id (Sized c) ;;
  r <- match h with Some i => ret (Some i) | None => allocate id c end ;;
  match r with
  | None => ret None
  | Some index =>
      l <- get_local index ;;
      block <- lift (peek_unchecked (free l)) ;;
      ret (Some (index, block))
  end.

(** The [inspect] of [Heap::unsized_to_global]: under validation each slab of
    the batch is disowned as the iterator reaches it. *)
Fixpoint disown_all (id : Z) (l : list Z) : M HS unit :=
  match l with
  | [] => ret tt
  | i :: l => disown cfg id i ;;; disown_all id l
  end.

(** [Heap::unsized_to_global]. *)
Definition unsized_to_global (id : Z) : M HS unit :=
  count <- stack_len id Unsized ;;
  if count <=? COUNT_CACHE_SLAB cfg then ret tt
  else
    record id EvUnsizedToGlobal ;;;
    let batch := BATCH_GLOBAL_PUSH cfg in
    h <- stack_peek id Unsized ;;
    m <- gets hs_mem ;;
    let l := trace_take m (Z.to_nat batch) h in
    when_ (validating cfg) (disown_all id l) ;;;
    hd <- unwrap (hd_error l) ;;
    let tl := List.last l hd in
    tloc <- get_local tl ;;
    log_ cfg id (UnsizedToGlobalSave hd) ;;;
    n <- usize cfg (count - batch) ;;
    stack_set id Unsized (next tloc) n ;;;
    shared_push id hd tl.

(** [Heap::claim]. *)
Definition claim (id c index : Z) : M HS unit :=
  record id (EvClaim c) ;;;
  steal id index ;;;
  stack_push cfg id Unsized index ;;;
  validate_owned id ;;;
  unsized_to_global id.

(** [Heap::free_remote]. *)
Definition free_remote (id index : Z) : M HS unit :=
  l <- get_local index ;;
  let c := class l in
  record id (EvFree (class_size c)) ;;;
  r <- update cfg [] id (remote_cell index) (fun f version =>
         validate_ cfg (0 <? f) ;;;
         f' <- lift (arith (debug_assertions cfg) 16 (f - 1)) ;;
         ret (Some (f', Remote index version (f =? 1)))) ;;
  f <- unwrap r ;;
  if f =? 1 then claim id c index else ret tt.

(** [Heap::free]. *)
Definition heap_free (id o : Z) : M HS unit :=
  index <- lift (into_index o) ;;
  l <- get_local index ;;
  if decide (owner l = Some id) then
    let c := class l in
    block <- lift (into_block (debug_assertions cfg) o c) ;;
    record id (EvFree (class_size c)) ;;;
    log_ cfg id (ApplicationToSized index block) ;;;
    bits <- lift (set (validating cfg) (debug_assertions cfg) (free l) block) ;;
    set_local index (set_bits bits) ;;;
    let count := Bitset.len bits in
    (if count =? 1 then attach id c index else ret tt) ;;;
    n <- lift (class_count c) ;;
    if count <? n then ret tt
    else
      sized_to_unsized id c index ;;;
      validate_owned id ;;;
      record id (EvSizedToUnsized c) ;;;
      unsized_to_global id
  else free_remote id index.

(** An allocation as the allocator performs it: [peek], then [pop]. *)
Definition alloc_block (base id c : Z) : M HS (option Z) :=
  r <- peek id c ;;
  match r with
  | None => ret None
  | Some (index, block) => p <- pop base id c index block ;; ret (Some p)
  end.
End heap.
