(* ===== verification/HeapLists.v ===== *)
(** * HeapLists: where every slab is linked

    A slab of a heap is in the global free stack, in the unsized stack of a
    thread, in a sized stack of a thread, or in no stack. [LI] says that a
    ghost assignment of slabs to places describes the stacks found in memory;
    the lemmas below are the moves the heap operations make. *)

From Stdlib Require Import ZArith Lia.
From stdpp Require Import base numbers option gmap fin_maps functions list.
From S2P Require Import Prelude Bitset Size Data Cas Slab Heap.
Local Open Scope Z_scope.

Inductive place :=
| PGlobal
| PUn (t : Z)
| PSz (t c : Z)
| PDet.

#[export] Instance place_eq_dec : EqDecision place.
Proof. solve_decision. Defined.

Section lists.
Context `{B : Bracket}.
Implicit Types (m : HeapMem) (lst : place -> list Z) (pl : Z -> option place).

(** The head pointer of the stack at a place. *)
Definition hd_of m (p : place) : option Z :=
  match p with
  | PGlobal => d_inner (shared_free m)
  | PUn t => head (stk m t Unsized)
  | PSz t c => head (stk m t (Sized c))
  | PDet => None
  end.

Record LI lst pl m : Prop := {
  li_chain : forall p, p <> PDet -> chain m (hd_of m p) (lst p);
  li_nodup : forall p, p <> PDet -> NoDup (lst p);
  li_mem : forall p i, p <> PDet -> i ∈ lst p <-> pl i = Some p;
}.

Lemma li_head lst pl m p i :
  LI lst pl m -> p <> PDet -> hd_of m p = Some i -> exists l, lst p = i :: l.
Proof.
  intros HL Hp Hh. pose proof (li_chain _ _ _ HL p Hp) as Hc. rewrite Hh in Hc.
  destruct (lst p) as [|j l]; [done|]. destruct Hc as [[= ->] _]. eauto.
Qed.

Lemma li_empty lst pl m p : LI lst pl m -> p <> PDet -> hd_of m p = None -> lst p = [].
Proof.
  intros HL Hp Hh. pose proof (li_chain _ _ _ HL p Hp) as Hc. rewrite Hh in Hc.
  destruct (lst p); [done|]. by destruct Hc.
Qed.

Lemma li_frame lst pl m m' :
  LI lst pl m -> (forall p, hd_of m' p = hd_of m p) ->
  (forall j, next (loc m' j) = next (loc m j)) -> LI lst pl m'.
Proof.
  intros [Hc Hn Hm] Hh Hx. split; [|done|done]. intros p Hp. rewrite Hh.
  eapply chain_frame; [by apply Hc|done].
Qed.

(** The head of a stack is unlinked and is in no stack afterwards. *)
Lemma li_pop lst pl m m' p i l :
  LI lst pl m -> p <> PDet -> lst p = i :: l ->
  (forall q, q <> p -> hd_of m' q = hd_of m q) -> hd_of m' p = next (loc m i) ->
  (forall j, j <> i -> next (loc m' j) = next (loc m j)) ->
  LI (<[p := l]> lst) (<[i := Some PDet]> pl) m'.
Proof.
  intros HL Hp El Hh Hhp Hx. destruct HL as [Hc Hn Hm].
  assert (i ∉ l /\ NoDup l) as [Hil Hnl] by (specialize (Hn p Hp); rewrite El in Hn; by apply NoDup_cons in Hn).
  assert (forall q, q <> PDet -> q <> p -> i ∉ lst q) as Hiq.
  { intros q Hq Hqp Hin. apply Hm in Hin; [|done].
    assert (pl i = Some p) by (apply Hm; [done|rewrite El; set_solver]). congruence. }
  split.
  - intros q Hq. destruct (decide (q = p)) as [->|Hqp].
    + rewrite fn_lookup_insert, Hhp. specialize (Hc p Hp). rewrite El in Hc.
      eapply chain_frame; [apply Hc|]. intros j Hj. apply Hx. set_solver.
    + rewrite fn_lookup_insert_ne, Hh by done. eapply chain_frame; [by apply Hc|].
      intros j Hj. apply Hx. intros ->. by eapply Hiq.
  - intros q Hq. destruct (decide (q = p)) as [->|Hqp];
      [by rewrite fn_lookup_insert|rewrite fn_lookup_insert_ne by done; by apply Hn].
  - intros q j Hq. destruct (decide (j = i)) as [->|Hji].
    + rewrite fn_lookup_insert. split; [|congruence]. intros Hin. exfalso.
      destruct (decide (q = p)) as [->|Hqp];
        [by rewrite fn_lookup_insert in Hin|rewrite fn_lookup_insert_ne in Hin by done; by eapply Hiq].
    + rewrite (fn_lookup_insert_ne pl) by done. rewrite <- Hm by done.
      destruct (decide (q = p)) as [->|Hqp]; [|by rewrite fn_lookup_insert_ne].
      rewrite fn_lookup_insert, El. set_solver.
Qed.

(** A slab in no stack is pushed. *)
Lemma li_push lst pl m m' p i :
  LI lst pl m -> p <> PDet -> (forall q, q <> PDet -> pl i <> Some q) ->
  (forall q, q <> p -> hd_of m' q = hd_of m q) -> hd_of m' p = Some i ->
  next (loc m' i) = hd_of m p ->
  (forall j, j <> i -> next (loc m' j) = next (loc m j)) ->
  LI (<[p := i :: lst p]> lst) (<[i := Some p]> pl) m'.
Proof.
  intros HL Hp Hi Hh Hhp Hni Hx. destruct HL as [Hc Hn Hm].
  assert (forall q, q <> PDet -> i ∉ lst q) as Hiq by (intros q Hq Hin; apply Hm in Hin; [by eapply Hi|done]).
  assert (forall q, q <> PDet -> chain m' (hd_of m q) (lst q)) as Hc'.
  { intros q Hq. eapply chain_frame; [by apply Hc|]. intros j Hj. apply Hx. intros ->. by eapply Hiq. }
  split.
  - intros q Hq. destruct (decide (q = p)) as [->|Hqp].
    + rewrite fn_lookup_insert. simpl. split; [done|]. rewrite Hni. by apply Hc'.
    + rewrite fn_lookup_insert_ne, Hh by done. by apply Hc'.
  - intros q Hq. destruct (decide (q = p)) as [->|Hqp]; [|rewrite fn_lookup_insert_ne by done; by apply Hn].
    rewrite fn_lookup_insert. apply NoDup_cons. auto.
  - intros q j Hq. destruct (decide (q = p)) as [->|Hqp].
    + rewrite fn_lookup_insert, elem_of_cons. destruct (decide (j = i)) as [->|Hji].
      * rewrite fn_lookup_insert. naive_solver.
      * rewrite fn_lookup_insert_ne, <- Hm by done. naive_solver.
    + rewrite fn_lookup_insert_ne by done. destruct (decide (j = i)) as [->|Hji].
      * rewrite fn_lookup_insert. split; [intros Hin; by eapply Hiq in Hin|congruence].
      * rewrite fn_lookup_insert_ne by done. by apply Hm.
Qed.

(** A chain read at a split point. *)
Lemma chain_middle m h l1 i l2 :
  chain m h (l1 ++ i :: l2) -> chain m (Some i) (i :: l2).
Proof.
  revert h. induction l1 as [|j l1 IH]; intros h; simpl; [by intros [-> ?]|].
  intros [_ Hc]. by eapply IH.
Qed.

(** Skipping [i], whose predecessor is [j]. *)
Lemma chain_skip m m' h l1 j i l2 :
  chain m h (l1 ++ j :: i :: l2) -> NoDup (l1 ++ j :: i :: l2) ->
  next (loc m' j) = next (loc m i) ->
  (forall k, k <> i -> k <> j -> next (loc m' k) = next (loc m k)) ->
  chain m' h (l1 ++ j :: l2).
Proof.
  revert h. induction l1 as [|a l1 IH]; intros h Hc Hnd Hj Hx; simpl in *.
  - destruct Hc as (-> & _ & Hc). split; [done|]. rewrite Hj.
    eapply chain_frame; [exact Hc|]. intros k Hk. rewrite !NoDup_cons in Hnd.
    apply Hx; set_solver.
  - destruct Hc as [-> Hc]. apply NoDup_cons in Hnd as [Ha Hnd]. split; [done|].
    rewrite Hx by set_solver. by apply IH.
Qed.

(** An inner slab of a stack is unlinked. *)
Lemma li_remove lst pl m m' p i j l1 l2 :
  LI lst pl m -> p <> PDet -> lst p = l1 ++ j :: i :: l2 ->
  (forall q, hd_of m' q = hd_of m q) ->
  next (loc m' j) = next (loc m i) ->
  (forall k, k <> i -> k <> j -> next (loc m' k) = next (loc m k)) ->
  LI (<[p := l1 ++ j :: l2]> lst) (<[i := Some PDet]> pl) m'.
Proof.
  intros HL Hp El Hh Hj Hx. destruct HL as [Hc Hn Hm].
  pose proof (Hn p Hp) as Hnd. rewrite El in Hnd.
  assert (forall q, q <> PDet -> q <> p -> i ∉ lst q /\ j ∉ lst q) as Hiq.
  { intros q Hq Hqp. rewrite !Hm by done.
    assert (pl i = Some p) by (apply Hm; [done|rewrite El; set_solver]).
    assert (pl j = Some p) by (apply Hm; [done|rewrite El; set_solver]). split; congruence. }
  assert (NoDup (l1 ++ j :: l2) /\ i ∉ l1 ++ j :: l2) as [Hnd' Hi'].
  { apply NoDup_app in Hnd as (Hn1 & Hd & Hn2). rewrite !NoDup_cons in Hn2. rewrite NoDup_app, NoDup_cons.
    set_solver. }
  split.
  - intros q Hq. rewrite Hh. destruct (decide (q = p)) as [->|Hqp].
    + rewrite fn_lookup_insert. eapply chain_skip; [|exact Hnd|exact Hj|exact Hx]. rewrite <- El. by apply Hc.
    + rewrite fn_lookup_insert_ne by done. eapply chain_frame; [by apply Hc|].
      intros k Hk. destruct (Hiq q Hq Hqp). apply Hx; by intros ->.
  - intros q Hq. destruct (decide (q = p)) as [->|Hqp];
      [by rewrite fn_lookup_insert|rewrite fn_lookup_insert_ne by done; by apply Hn].
  - intros q k Hq. destruct (decide (k = i)) as [->|Hki].
    + rewrite fn_lookup_insert. split; [|congruence]. intros Hin. exfalso.
      destruct (decide (q = p)) as [->|Hqp];
        [by rewrite fn_lookup_insert in Hin|rewrite fn_lookup_insert_ne in Hin by done; by destruct (Hiq q Hq Hqp)].
    + rewrite (fn_lookup_insert_ne pl) by done. rewrite <- Hm by done.
      destruct (decide (q = p)) as [->|Hqp]; [|by rewrite fn_lookup_insert_ne].
      rewrite fn_lookup_insert, El. set_solver.
Qed.

Lemma last_default (j : Z) l d d' : List.last (j :: l) d = List.last (j :: l) d'.
Proof. revert j. induction l as [|a l IH]; intros j; [done|]. apply (IH a). Qed.

Lemma last_in (i : Z) l d : List.last (i :: l) d ∈ i :: l.
Proof.
  apply list_elem_of_In. rewrite (app_removelast_last (l := i :: l) d) at 2 by done.
  apply in_or_app. right. by left.
Qed.

(** The chain after a non-empty prefix starts at its last slab's successor. *)
Lemma chain_suffix m h i l1 l2 :
  chain m h ((i :: l1) ++ l2) -> chain m (next (loc m (List.last (i :: l1) i))) l2.
Proof.
  revert h i. induction l1 as [|j l1 IH]; intros h i [-> Hc]; [done|].
  specialize (IH _ j Hc). change (List.last (i :: j :: l1) i) with (List.last (j :: l1) i).
  by rewrite (last_default j l1 i j).
Qed.

(** A non-empty prefix is relinked in front of another chain. *)
Lemma chain_relink m m' h i l1 l2 h' k :
  chain m h ((i :: l1) ++ l2) -> NoDup (i :: l1) ->
  next (loc m' (List.last (i :: l1) i)) = h' -> chain m' h' k ->
  (forall j, j <> List.last (i :: l1) i -> next (loc m' j) = next (loc m j)) ->
  chain m' h ((i :: l1) ++ k).
Proof.
  revert h i. induction l1 as [|j l1 IH]; intros h i [-> Hc] Hnd Hn Hk Hx.
  - simpl in *. split; [done|]. by rewrite Hn.
  - change (List.last (i :: j :: l1) i) with (List.last (j :: l1) i) in *.
    rewrite (last_default j l1 i j) in Hn, Hx. apply NoDup_cons in Hnd as [Hi Hnd]. split; [done|].
    rewrite Hx; [by apply (IH _ j)|]. intros ->. apply Hi, last_in.
Qed.

(** A prefix of one stack moves, as a block, on top of another. *)
Lemma li_splice lst pl m m' p q i l1 l2 :
  LI lst pl m -> p <> PDet -> q <> PDet -> p <> q -> lst p = (i :: l1) ++ l2 ->
  (forall r, r <> p -> r <> q -> hd_of m' r = hd_of m r) ->
  hd_of m' p = next (loc m (List.last (i :: l1) i)) -> hd_of m' q = Some i ->
  next (loc m' (List.last (i :: l1) i)) = hd_of m q ->
  (forall j, j <> List.last (i :: l1) i -> next (loc m' j) = next (loc m j)) ->
  LI (<[q := (i :: l1) ++ lst q]> (<[p := l2]> lst))
     (fun j => if decide (j ∈ i :: l1) then Some q else pl j) m'.
Proof.
  intros HL Hp Hq Hpq El Hh Hhp Hhq Hn Hx. destruct HL as [Hc Hnd Hm].
  assert (List.last (i :: l1) i ∈ i :: l1) as Hlast by apply last_in.
  pose proof (Hnd p Hp) as Hndp. rewrite El in Hndp.
  apply NoDup_app in Hndp as (Hn1 & Hd12 & Hn2).
  assert (forall r, r <> PDet -> r <> p -> forall j, j ∈ i :: l1 -> j ∉ lst r) as Hother.
  { intros r Hr Hrp j Hj Hin. apply Hm in Hin; [|done].
    assert (pl j = Some p) by (apply Hm; [done|rewrite El; set_solver]). congruence. }
  assert (forall r, r <> PDet -> r <> p -> chain m' (hd_of m r) (lst r)) as Hcr.
  { intros r Hr Hrp. eapply chain_frame; [by apply Hc|]. intros j Hj. apply Hx. intros ->.
    by eapply (Hother r). }
  specialize (Hc p Hp) as Hcp. rewrite El in Hcp.
  split.
  - intros r Hr. destruct (decide (r = q)) as [->|Hrq].
    + rewrite fn_lookup_insert, Hhq. eapply chain_relink; [|exact Hn1|exact Hn|by apply Hcr|exact Hx].
      assert (hd_of m p = Some i) as <- by (by destruct Hcp). exact Hcp.
    + rewrite fn_lookup_insert_ne by done. destruct (decide (r = p)) as [->|Hrp].
      * rewrite fn_lookup_insert, Hhp. eapply chain_frame; [by eapply chain_suffix|].
        intros j Hj. apply Hx. intros ->. by eapply Hd12.
      * rewrite fn_lookup_insert_ne, Hh by done. by apply Hcr.
  - intros r Hr. destruct (decide (r = q)) as [->|Hrq].
    + rewrite fn_lookup_insert. apply NoDup_app. split_and!; [done| |by apply Hnd]. by apply Hother.
    + rewrite fn_lookup_insert_ne by done. destruct (decide (r = p)) as [->|Hrp];
        [by rewrite fn_lookup_insert|rewrite fn_lookup_insert_ne by done; by apply Hnd].
  - intros r j Hr. destruct (decide (r = q)) as [->|Hrq].
    + rewrite fn_lookup_insert, elem_of_app, Hm by done. case_decide; naive_solver.
    + rewrite fn_lookup_insert_ne by done. destruct (decide (r = p)) as [->|Hrp].
      * rewrite fn_lookup_insert. case_decide as Hj; [split; [intros Hj2; by apply Hd12 in Hj|congruence]|].
        rewrite <- Hm, El, elem_of_app by done. naive_solver.
      * rewrite fn_lookup_insert_ne by done. case_decide as Hj; [|by apply Hm].
        split; [intros Hin; by eapply (Hother r) in Hin|congruence].
Qed.

(** Slabs that were never linked become the contents of an empty stack. *)
Lemma li_fresh lst pl m m' p l :
  LI lst pl m -> p <> PDet -> lst p = [] -> NoDup l -> (forall j, j ∈ l -> pl j = None) ->
  (forall r, r <> p -> hd_of m' r = hd_of m r) -> chain m' (hd_of m' p) l ->
  (forall j, j ∉ l -> next (loc m' j) = next (loc m j)) ->
  LI (<[p := l]> lst) (fun j => if decide (j ∈ l) then Some p else pl j) m'.
Proof.
  intros HL Hp El Hl Hfresh Hh Hc' Hx. destruct HL as [Hc Hnd Hm].
  assert (forall r j, r <> PDet -> j ∈ l -> j ∉ lst r) as Hother.
  { intros r j Hr Hj Hin. apply Hm in Hin; [|done]. rewrite (Hfresh j Hj) in Hin. done. }
  split.
  - intros r Hr. destruct (decide (r = p)) as [->|Hrp]; [by rewrite fn_lookup_insert|].
    rewrite fn_lookup_insert_ne, Hh by done. eapply chain_frame; [by apply Hc|].
    intros j Hj. apply Hx. intros Hjl. by eapply (Hother r).
  - intros r Hr. destruct (decide (r = p)) as [->|Hrp];
      [by rewrite fn_lookup_insert|rewrite fn_lookup_insert_ne by done; by apply Hnd].
  - intros r j Hr. destruct (decide (r = p)) as [->|Hrp].
    + rewrite fn_lookup_insert. case_decide; [naive_solver|]. rewrite <- Hm, El by done. set_solver.
    + rewrite fn_lookup_insert_ne by done. case_decide as Hj; [|by apply Hm].
      split; [intros Hin; by eapply (Hother r) in Hin|congruence].
Qed.
End lists.
