(* ===== verification/HeapRules.v ===== *)
(** * HeapRules: running heap operations on the heap memory alone

    [mwp] is the total-correctness judgement of [Prelude.wp] restricted to the
    memory of a heap, with one rule per primitive of Slab.v and Heap.v; the
    [mgo] tactic applies them. *)

From Stdlib Require Import ZArith Lia.
From stdpp Require Import base numbers option gmap fin_maps functions list.
From S2P Require Import Prelude Bitset Size Data Cas Slab Heap HeapLists.
Local Open Scope Z_scope.
Local Open Scope prog_scope.

(** ** Programs as transformers of the heap memory

    The context and the recorded events do not influence the memory; [mwp]
    hides them. *)
Definition mwp {A} (p : M HS A) (Q : HeapMem -> A -> Prop) (m : HeapMem) : Prop :=
  forall s, hs_mem s = m -> wp p (fun s' a => Q (hs_mem s') a) s.

Section rules.
Context (cfg : Cfg) `{B : Bracket} `{IS : IntoState}.

Lemma mwp_ret {A} (a : A) Q m : Q m a -> mwp (ret a) Q m.
Proof. intros H s <-. by apply wp_ret. Qed.

Lemma mwp_bind {A C} (p : M HS A) (k : A -> M HS C) Q m :
  mwp p (fun m' a => mwp (k a) Q m') m -> mwp (bind p k) Q m.
Proof.
  intros H s Hs. apply wp_bind. eapply wp_conseq; [by apply H|]. intros s' a Hk. by apply Hk.
Qed.

Lemma mwp_conseq {A} (p : M HS A) (P Q : HeapMem -> A -> Prop) m :
  mwp p P m -> (forall m' a, P m' a -> Q m' a) -> mwp p Q m.
Proof. intros H HPQ s Hs. eapply wp_conseq; [by apply H|]. intros s' a. apply HPQ. Qed.

Lemma mwp_assoc {A C D} (p : M HS A) (q : A -> M HS C) (k : C -> M HS D) Q m :
  mwp (bind (bind p q) k) Q m -> mwp (bind p (fun a => bind (q a) k)) Q m.
Proof.
  intros H s Hs. specialize (H s Hs). unfold wp, bind in *. destruct (p s) as [[]| | |]; done.
Qed.

Lemma mwp_lift {A} (a : A) (o : outcome A) (Q : HeapMem -> A -> Prop) m :
  o = Done a -> Q m a -> mwp (lift o) Q m.
Proof. intros Ho HQ s <-. by eapply wp_lift. Qed.

Lemma mwp_unwrap {A} (a : A) (o : option A) (Q : HeapMem -> A -> Prop) m :
  o = Some a -> Q m a -> mwp (unwrap o) Q m.
Proof. intros Ho HQ s <-. by eapply wp_unwrap. Qed.

Lemma mwp_gets_mem (Q : HeapMem -> HeapMem -> Prop) m : Q m m -> mwp (gets hs_mem) Q m.
Proof. by intros H s <-. Qed.

Lemma mwp_record id e (Q : HeapMem -> unit -> Prop) m : Q m tt -> mwp (record cfg id e) Q m.
Proof. intros H s <-. unfold record. by apply wp_when. Qed.

Lemma mwp_log id h (Q : HeapMem -> unit -> Prop) m : Q m tt -> mwp (log_ cfg id h) Q m.
Proof. intros H s <-. apply wp_log; [apply _|]. intros x. exact H. Qed.

Lemma mwp_get_local i (Q : HeapMem -> Local -> Prop) m :
  Q m (loc m i) -> mwp (get_local i) Q m.
Proof. by intros H s <-. Qed.

Lemma mwp_set_local i f (Q : HeapMem -> unit -> Prop) m :
  Q (put_loc i (f (loc m i)) m) tt -> mwp (set_local i f) Q m.
Proof. by intros H s <-. Qed.

Lemma mwp_get_stack t r (Q : HeapMem -> LStack -> Prop) m :
  sref_ok r = true -> Q m (stk m t r) -> mwp (get_stack t r) Q m.
Proof. intros Hr H s <-. unfold get_stack. by rewrite Hr. Qed.

Lemma mwp_put_stack t r k (Q : HeapMem -> unit -> Prop) m :
  sref_ok r = true -> Q (put_stk t r k m) tt -> mwp (put_stack t r k) Q m.
Proof. intros Hr H s <-. unfold put_stack. by rewrite Hr. Qed.

Lemma mwp_usize x (Q : HeapMem -> Z -> Prop) m :
  in_range 64 x -> Q m x -> mwp (usize cfg x) Q m.
Proof. intros Hx HQ. eapply mwp_lift; [by apply arith_ok|done]. Qed.

Lemma mwp_load {T} id (c : cell HS T) g (Q : HeapMem -> T -> Prop) m :
  (forall s, cget c s = g (hs_mem s)) -> Q m (d_inner (g m)) -> mwp (load cfg id c) Q m.
Proof. intros Hg H s <-. apply wp_load; [apply _|]. intros x. by rewrite Hg. Qed.

Lemma mwp_store {T} id (c : cell HS T) p v (Q : HeapMem -> unit -> Prop) m :
  (forall d s, hs_mem (cput c d s) = p d (hs_mem s)) ->
  Q (p (mkD (Some id) 0 v) m) tt -> mwp (store cfg id c v) Q m.
Proof. intros Hp H s <-. apply wp_store; [apply _|]. intros x. by rewrite Hp. Qed.

Lemma mwp_update {T} `{EqDecision T} id (c : cell HS T) g p next (Q : HeapMem -> option T -> Prop) m :
  (forall s, cget c s = g (hs_mem s)) -> (forall d s, hs_mem (cput c d s) = p d (hs_mem s)) ->
  (forall v, mwp (next (d_inner (g m)) v) (fun m' r =>
     match r with
     | None => Q m' None
     | Some (new, _) => g m' = g m /\ Q (p (mkD (Some id) v new) m') (Some (d_inner (g m)))
     end) m) ->
  mwp (update cfg [] id c next) Q m.
Proof.
  intros Hg Hp H s <-. apply wp_update; [apply _|split; intros; by rewrite !Hg|].
  intros x v. rewrite !Hg. eapply wp_conseq; [by apply H|]. intros s' [[new log]|]; [|done].
  intros [Hs HQ]. rewrite Hg. split; [done|]. intros x'. by rewrite Hp.
Qed.
End rules.

(** One symbolic step at the level of the heap memory. *)
Ltac mstep :=
  lazymatch goal with
  | |- mwp (bind _ _) _ _ => apply mwp_bind
  | |- mwp (ret _) _ _ => apply mwp_ret
  | |- mwp (get_local _) _ _ => apply mwp_get_local
  | |- mwp (set_local _ _) _ _ => apply mwp_set_local
  | |- mwp (record _ _ _) _ _ => apply mwp_record
  | |- mwp (log_ _ _ _) _ _ => apply mwp_log
  | |- mwp (gets hs_mem) _ _ => apply mwp_gets_mem
  | |- mwp (get_stack _ _) _ _ => apply mwp_get_stack; [assumption || reflexivity|]
  | |- mwp (put_stack _ _ _) _ _ => apply mwp_put_stack; [assumption || reflexivity|]
  | |- mwp (stack_peek _ _) _ _ => unfold stack_peek
  | |- mwp (stack_len _ _) _ _ => unfold stack_len
  | |- mwp (stack_set _ _ _ _) _ _ => unfold stack_set
  end; cbn beta iota zeta.
Ltac mgo := repeat mstep.

Section stacks.
Context (cfg : Cfg) `{B : Bracket} `{IS : IntoState}.

(** [stack_push] and [stack_pop] as memory transformers. *)
Definition pushed (t : Z) (r : sref) (i : Z) (m : HeapMem) : HeapMem :=
  put_stk t r (mkLStack (Some i) (len (stk m t r) + 1))
    (put_loc i (set_next (head (stk m t r)) (loc m i)) m).

Lemma mwp_push t r i (Q : HeapMem -> unit -> Prop) m :
  sref_ok r = true -> in_range 64 (len (stk m t r) + 1) ->
  Q (pushed t r i m) tt -> mwp (stack_push cfg t r i) Q m.
Proof. intros Hr Hl HQ. unfold stack_push. mgo. apply mwp_usize; [done|]. by mgo. Qed.

Lemma mwp_pop t r i (Q : HeapMem -> option Z -> Prop) m :
  sref_ok r = true -> head (stk m t r) = Some i -> in_range 64 (len (stk m t r) - 1) ->
  Q (put_stk t r (mkLStack (next (loc m i)) (len (stk m t r) - 1)) m) (Some i) ->
  mwp (stack_pop cfg t r) Q m.
Proof. intros Hr Hh Hl HQ. unfold stack_pop. mgo. rewrite Hh. mgo. apply mwp_usize; [done|]. by mgo. Qed.

(** [validate!] is compiled out. *)
Context (Hval : validating cfg = false).

Lemma mwp_validate b (Q : HeapMem -> unit -> Prop) m : Q m tt -> mwp (validate_ cfg b) Q m.
Proof. intros H. unfold validate_. rewrite Hval. by apply mwp_ret. Qed.

Lemma mwp_own id i (Q : HeapMem -> unit -> Prop) m :
  Q (put_loc i (set_owner (Some id) (loc m i)) m) tt -> mwp (own cfg id i) Q m.
Proof. intros H. unfold own. mgo. apply mwp_validate. by mgo. Qed.

Lemma mwp_disown id i (Q : HeapMem -> unit -> Prop) m :
  Q (put_loc i (set_owner None (loc m i)) m) tt -> mwp (disown cfg id i) Q m.
Proof. intros H. unfold disown. mgo. apply mwp_validate. by mgo. Qed.

Lemma mwp_validate_owned id (Q : HeapMem -> unit -> Prop) m :
  Q m tt -> mwp (validate_owned cfg id) Q m.
Proof. intros H. unfold validate_owned. mgo. by apply mwp_validate. Qed.

(** [link] builds the chain [start, start + 1, ..] of slabs owned by [id] and
    changes nothing else. *)
Lemma mwp_link id start n hd (Q : HeapMem -> unit -> Prop) m :
  (forall m', (forall j, loc m' j = if decide (start <= j < start + Z.of_nat n)
                 then set_next (if decide (j = start + Z.of_nat n - 1) then hd else Some (j + 1))
                        (set_owner (Some id) (loc m j))
                 else loc m j) ->
     remotes m' = remotes m -> shared_free m' = shared_free m ->
     shared_bump m' = shared_bump m -> owned m' = owned m -> Q m' tt) ->
  mwp (link cfg id start n hd) Q m.
Proof.
  revert start m. induction n as [|n IH]; intros start m HQ; cbn [link].
  - apply mwp_ret, HQ; try done. intros j. rewrite decide_False by lia. done.
  - mgo. apply mwp_own. mgo. apply IH. intros m' Hl Hr Hf Hb Ho. apply HQ; try done.
    intros j. rewrite Hl. autorewrite with mem. clear -j.
    destruct (decide (j = start)) as [->|Hj].
    + rewrite (decide_False (P := _ <= _ < _)) by lia. rewrite (decide_True (P := start = start)) by done.
      rewrite (decide_True (P := _ <= _ < _)) by lia. destruct n as [|n].
      * rewrite decide_True by lia. done.
      * rewrite decide_False by lia. done.
    + destruct (decide (start + 1 <= j < start + 1 + Z.of_nat n)) as [Hin|Hout].
      * rewrite (decide_True (P := start <= j < _)) by lia.
        destruct (decide (j = start + 1 + Z.of_nat n - 1)); [rewrite decide_True by lia|rewrite decide_False by lia]; done.
      * rewrite (decide_False (P := start <= j < _)) by lia. done.
Qed.
End stacks.
