(* ===== verification/HeapInv.v ===== *)
(** * HeapInv: the global invariant of a heap and its preservation

    The invariant [Inv] relates the memory of a heap to a ghost description:
    where every slab is linked ([lst], [pl]), which blocks the application
    holds ([live]) and which were freed by a thread that does not own the slab
    ([rf]). Every block of a slab in use is in exactly one of: the slab's free
    bitset, [live], [rf]. Slabs that a thread has in hand, between two stacks,
    are in no list and have no live blocks; [Hands] tells which ones (none
    between operations). *)

From Stdlib Require Import ZArith Lia.
From stdpp Require Import base numbers option gmap fin_maps functions list.
From S2P Require Import Prelude Bitset Size Data Cas Slab Heap HeapLists HeapRules.
Local Open Scope Z_scope.
Local Open Scope prog_scope.

(** ** Slabs in hand *)
Class Hands := in_hands : Z -> Prop.
#[export] Instance no_hands : Hands | 100 := fun _ => False.

(** ** The contents of a slab in use *)
Section inv.
Context `{BL : BracketLaws} `{IS : IntoState} {HN : Hands}.

(** [bits]: the free bitset, [lv]: live blocks, [rf]: remotely freed blocks,
    [r]: the counter of the remote descriptor. *)
Record slab_part (c : Z) (lv rf : gset Z) (bits : BitSet) (r : Z) : Prop := {
  sp_class : class_wf c;
  sp_wf : wf bits;
  sp_all : abs bits ∪ lv ∪ rf = below (blocks c);
  sp_fl : abs bits ## lv;
  sp_fr : abs bits ## rf;
  sp_lr : lv ## rf;
  sp_rem : r = blocks c - Z.of_nat (size rf);
}.

(** What holds of a slab, by the place it is in. *)
Definition slab_inv (hand : Prop) (p : option place) (lv rf : gset Z) (l : Local) (r : Z) : Prop :=
  match p with
  | None | Some PGlobal => lv = ∅
  | Some (PUn t) => lv = ∅ /\ owner l = Some t
  | Some (PSz t c) =>
      owner l = Some t /\ class l = c /\ slab_part c lv rf (free l) r /\ abs (free l) <> ∅
  | Some PDet => hand /\ lv = ∅ \/ slab_part (class l) lv rf (free l) r /\ abs (free l) = ∅ /\ lv <> ∅
  end.

Record ghost := mkGhost {
  lst : place -> list Z;
  pl : Z -> option place;
  live : Z -> gset Z;
  rf : Z -> gset Z;
}.

(** The next fresh slab. *)
Definition bumpv (m : HeapMem) : Z := default index_MIN (d_inner (shared_bump m)).

(** [n] bounds the length counters of the sized stacks, which the code lets
    drift above the real length (see [sized_len_drift]). [x] is a slab whose
    contents are being changed, if any: nothing is said about them. *)
Record InvX (x : option Z) (n : Z) (g : ghost) (m : HeapMem) : Prop := {
  inv_li : LI (lst g) (pl g) m;
  inv_slab : forall i, x <> Some i ->
    slab_inv (in_hands i) (pl g i) (live g i) (rf g i) (loc m i) (d_inner (rem m i));
  inv_hands : forall i, x <> Some i -> in_hands i -> pl g i = Some PDet /\ live g i = ∅;
  inv_dense : forall i, length (dense (free (loc m i))) = ROWS;
  inv_un : forall t, len (stk m t Unsized) = Z.of_nat (length (lst g (PUn t)));
  inv_sz : forall t c, Z.of_nat (length (lst g (PSz t c))) <= len (stk m t (Sized c)) <= n;
  inv_fresh : forall i, is_Some (pl g i) <-> 1 <= i < bumpv m;
  inv_bump : 1 <= bumpv m < 2 ^ 32;
}.

Definition Inv : Z -> ghost -> HeapMem -> Prop := InvX None.

(** ** Counting *)
Lemma size_below n : 0 <= n -> Z.of_nat (size (below n)) = n.
Proof.
  intros Hn. unfold below. rewrite size_list_to_set by apply NoDup_seqZ.
  rewrite length_seqZ. lia.
Qed.

Lemma sp_size c lv rf bits r :
  slab_part c lv rf bits r ->
  Z.of_nat (size (abs bits)) + Z.of_nat (size lv) + Z.of_nat (size rf) = blocks c /\
  count bits = Z.of_nat (size (abs bits)).
Proof.
  intros [Hc Hwf Hall Hfl Hfr Hlr Hr]. split; [|by apply count_size].
  rewrite <- (size_below (blocks c)) by (pose proof (blocks_pos c Hc); lia).
  rewrite <- Hall, !size_union by set_solver. lia.
Qed.

Lemma size_add (b : Z) (X : gset Z) : b ∉ X -> Z.of_nat (size ({[b]} ∪ X)) = Z.of_nat (size X) + 1.
Proof. intros H. rewrite size_union by set_solver. rewrite size_singleton. lia. Qed.

Lemma size_zero (X : gset Z) : size X = 0%nat -> X = ∅.
Proof. intros H. apply leibniz_equiv. by apply size_empty_iff. Qed.

Lemma sp_block c lv rf bits r b :
  slab_part c lv rf bits r -> b ∈ lv \/ b ∈ abs bits -> block_wf c b.
Proof.
  intros H Hb. split; [apply H|]. apply elem_of_below. rewrite <- (sp_all _ _ _ _ _ H). set_solver.
Qed.

(** A stack is short: its slabs are distinct and below [bumpv]. *)
Lemma inv_length x n g m p :
  InvX x n g m -> p <> PDet -> 0 <= Z.of_nat (length (lst g p)) < 2 ^ 32.
Proof.
  intros HI Hp. pose proof (inv_bump _ _ _ _ HI) as Hb.
  assert (Z.of_nat (length (lst g p)) <= bumpv m - 1); [|lia].
  assert (lst g p ⊆+ seqZ 1 (bumpv m - 1)) as Hsub.
  { apply NoDup_submseteq; [by apply (li_nodup _ _ _ (inv_li _ _ _ _ HI))|].
    intros i Hi. apply (li_mem _ _ _ (inv_li _ _ _ _ HI)) in Hi; [|done].
    apply elem_of_seqZ. assert (1 <= i < bumpv m) by (apply (inv_fresh _ _ _ _ HI); eauto). lia. }
  apply submseteq_length in Hsub. rewrite length_seqZ in Hsub. lia.
Qed.

(** Memories that read the same everywhere, but for the writers' stamps. *)
Record mem_eq (m m' : HeapMem) : Prop := {
  meq_loc : forall i, loc m' i = loc m i;
  meq_rem : forall i, d_inner (rem m' i) = d_inner (rem m i);
  meq_stk : forall t r, stk m' t r = stk m t r;
  meq_free : d_inner (shared_free m') = d_inner (shared_free m);
  meq_bump : d_inner (shared_bump m') = d_inner (shared_bump m);
}.

#[export] Instance mem_eq_equiv : Equivalence mem_eq.
Proof.
  split; [done|by intros ?? []|]. intros x y z [A1 A2 A3 A4 A5] [B1 B2 B3 B4 B5].
  split; intros; by rewrite ?B1, ?B2, ?B3, ?B4, ?B5.
Qed.

#[export] Instance InvX_proper : Proper (eq ==> eq ==> eq ==> mem_eq ==> iff) InvX.
Proof.
  enough (forall x n g m m', mem_eq m m' -> InvX x n g m -> InvX x n g m') as H.
  { intros x ? <- n ? <- g ? <- m m' Hm. split; apply H; [done|by symmetry]. }
  intros x n g m m' [Hl Hr Hs Hf Hb] [HL HS HH HD HU HZ HF HB].
  assert (forall p, hd_of m' p = hd_of m p) as Hh.
  { intros []; cbn [hd_of]; by rewrite ?Hf, ?Hs. }
  split.
  - eapply li_frame; [done|done|]. intros j. by rewrite Hl.
  - intros i Hi. rewrite Hl, Hr. by apply HS.
  - done.
  - intros i. rewrite Hl. apply HD.
  - intros t. rewrite Hs. apply HU.
  - intros t c. rewrite Hs. apply HZ.
  - intros i. unfold bumpv. rewrite Hb. apply HF.
  - unfold bumpv. rewrite Hb. apply HB.
Qed.

Lemma inv_meq x n g m m' : InvX x n g m -> mem_eq m m' -> InvX x n g m'.
Proof. intros HI Hm. by eapply InvX_proper. Qed.

Lemma inv_mono x n n' g m : InvX x n g m -> n <= n' -> InvX x n' g m.
Proof. intros [HL HS HH HD HU HZ HF HB] Hn. split; try done. intros t c. specialize (HZ t c). lia. Qed.
End inv.

(** Evaluates reads of a written memory by cases on the slab and stack. *)
Ltac mem_done :=
  first [done | congruence
        | exfalso; match goal with H : ~ (_ /\ _) |- _ => apply H; split; congruence end].

Ltac mem_simp :=
  unfold pushed in *; repeat (autorewrite with mem; simpl);
  repeat (case_decide; destruct_and?; simplify_eq/=); try mem_done.

Ltac hd_solve :=
  intros; match goal with |- hd_of _ ?p = _ => destruct p end; simpl; mem_simp.

(** Two writes of the same contents in a different shape. *)
Ltac meq_solve := split; [intros ?; mem_simp..|intros ??; mem_simp|done|done].

(** The supported configurations: release build without the validation
    asserts; a batch pushed to the global stack is never longer than the
    unsized stack it comes from. *)
Record cfg_ok (cfg : Cfg) : Prop := {
  ok_release : validating cfg = false;
  ok_cache : 0 <= COUNT_CACHE_SLAB cfg;
  ok_push : 1 <= BATCH_GLOBAL_PUSH cfg <= COUNT_CACHE_SLAB cfg + 1;
  ok_bump : 1 <= BATCH_BUMP_POP cfg < 2 ^ 32;
}.

(** ** Elementary moves

    The heap operations are compositions of the moves below, each of which
    keeps [InvX (Some i)], where [i] is the slab being moved. *)
Definition place_of (t : Z) (r : sref) : place :=
  match r with Unsized => PUn t | Sized c => PSz t c end.

Lemma place_of_det t r : place_of t r <> PDet.
Proof. by destruct r. Qed.

Lemma place_of_inj t r t' r' : place_of t r = place_of t' r' -> t = t' /\ r = r'.
Proof. destruct r, r'; simpl; naive_solver. Qed.

Definition g_unlink (p : place) (i : Z) (l : list Z) (g : ghost) : ghost :=
  mkGhost (<[p := l]> (lst g)) (<[i := Some PDet]> (pl g)) (live g) (rf g).
Definition g_link (p : place) (i : Z) (g : ghost) : ghost :=
  mkGhost (<[p := i :: lst g p]> (lst g)) (<[i := Some p]> (pl g)) (live g) (rf g).
Definition g_set (i : Z) (lv rfi : gset Z) (g : ghost) : ghost :=
  mkGhost (lst g) (pl g) (<[i := lv]> (live g)) (<[i := rfi]> (rf g)).

Section moves.
Context `{BL : BracketLaws} `{IS : IntoState} {HN : Hands}.

Lemma sref_ok_class c : class_wf c -> sref_ok (Sized c) = true.
Proof. intros [Hc _]. simpl. rewrite (proj2 (Z.leb_le _ _)), (proj2 (Z.ltb_lt _ _)) by lia. done. Qed.

(** Filling a slab's bitset makes every block free. *)
Lemma fill_slab (bits : BitSet) c :
  length (dense bits) = ROWS -> class_wf c ->
  exists bits', fill bits (blocks c) = Done bits' /\ length (dense bits') = ROWS /\
    slab_part c ∅ ∅ bits' (wrap 16 (blocks c)) /\ abs bits' <> ∅.
Proof.
  intros Hl Hc. pose proof (blocks_pos c Hc). pose proof rows_bound.
  assert (length (dense bits) <= 64)%nat as Hs by lia.
  assert (0 <= blocks c <= capacity bits) as Hn by (unfold capacity; lia).
  destruct (fill_done bits (blocks c) Hs Hn) as (b' & Hf & _).
  destruct (fill_wf _ _ _ Hs Hn Hf) as (Hwf & Hlen & _ & Hm).
  assert (abs b' = below (blocks c)) as Habs.
  { apply abs_ext_mem. intros k. rewrite Hm, elem_of_below. apply bool_decide_eq_true. }
  exists b'. split_and!; [done|congruence| |].
  - split; [done|done|set_solver|set_solver|set_solver|set_solver|].
    unfold wrap. rewrite size_empty, Z.mod_small by (simpl; lia). lia.
  - rewrite Habs. intros E. assert (0 ∈ below (blocks c)) by (apply elem_of_below; lia). set_solver.
Qed.

Lemma hd_of_place m t r : hd_of m (place_of t r) = head (stk m t r).
Proof. by destruct r. Qed.

Lemma inv_open n g m i : InvX None n g m -> InvX (Some i) n g m.
Proof. intros [HL HS HH HD HU HZ HF HB]. split; try done; intros j _; [by apply HS|by apply HH]. Qed.

Lemma inv_close n g m i :
  InvX (Some i) n g m -> ~ in_hands i ->
  slab_inv (in_hands i) (pl g i) (live g i) (rf g i) (loc m i) (d_inner (rem m i)) -> InvX None n g m.
Proof.
  intros [HL HS HH HD HU HZ HF HB] Hh Hi. split; try done; intros j _;
    (destruct (decide (j = i)) as [->|Hj]; [done|]); [apply HS|apply HH]; congruence.
Qed.

(** Slabs that are linked or have live blocks are in no hand. *)
Lemma inv_no_hand x n g m i : InvX x n g m -> x <> Some i -> pl g i <> Some PDet \/ live g i <> ∅ -> ~ in_hands i.
Proof. intros HI Hx Hor Hi. destruct (inv_hands _ _ _ _ HI i Hx Hi). naive_solver. Qed.

(** The contents of the slab change, on either descriptor. *)
Lemma inv_edit n g m i l' lv rfi :
  InvX (Some i) n g m -> next l' = next (loc m i) -> length (dense (free l')) = ROWS ->
  InvX (Some i) n (g_set i lv rfi g) (put_loc i l' m).
Proof.
  intros [HL HS HH HD HU HZ HF HB] Hn Hd. split; simpl; try done.
  - eapply li_frame; [done|hd_solve|intros j; mem_simp].
  - intros j Hj. rewrite !fn_lookup_insert_ne by congruence. specialize (HS j Hj). mem_simp.
  - intros j Hj Hjh. rewrite ?fn_lookup_insert_ne by congruence. by apply HH.
  - intros j. specialize (HD j). mem_simp.
Qed.

Lemma inv_edit_rem n g m i d lv rfi :
  InvX (Some i) n g m -> InvX (Some i) n (g_set i lv rfi g) (put_rem i d m).
Proof.
  intros [HL HS HH HD HU HZ HF HB]. split; simpl; try done.
  - by eapply li_frame.
  - intros j Hj. rewrite !fn_lookup_insert_ne by congruence. specialize (HS j Hj). mem_simp.
  - intros j Hj Hjh. rewrite ?fn_lookup_insert_ne by congruence. by apply HH.
Qed.

(** The slab leaves the top of a thread's stack, or enters it. *)
Lemma inv_unlink n g m t r i l :
  InvX (Some i) n g m -> lst g (place_of t r) = i :: l ->
  InvX (Some i) n (g_unlink (place_of t r) i l g)
    (put_stk t r (mkLStack (next (loc m i)) (len (stk m t r) - 1)) m).
Proof.
  intros [HL HS HH HD HU HZ HF HB] El. pose proof (place_of_det t r) as Hp.
  assert (pl g i = Some (place_of t r)) as Hpl by (apply (li_mem _ _ _ HL); [done|rewrite El; set_solver]).
  split; simpl; try done.
  - eapply li_pop; [exact HL|done|exact El| |rewrite hd_of_place; mem_simp|done].
    intros q Hq. destruct q; simpl; mem_simp.
  - intros j Hj. rewrite fn_lookup_insert_ne by congruence. by apply HS.
  - intros j Hj Hjh. rewrite ?fn_lookup_insert_ne by congruence. by apply HH.
  - intros t'. destruct (decide (PUn t' = place_of t r)) as [E|E].
    + destruct r; simplify_eq/=. rewrite fn_lookup_insert. specialize (HU t). rewrite El in HU. simpl in HU. mem_simp. lia.
    + rewrite fn_lookup_insert_ne by done. specialize (HU t'). mem_simp.
  - intros t' c. destruct (decide (PSz t' c = place_of t r)) as [E|E].
    + destruct r; simplify_eq/=. rewrite fn_lookup_insert. specialize (HZ t c0). rewrite El in HZ. simpl in HZ. mem_simp. lia.
    + rewrite fn_lookup_insert_ne by done. specialize (HZ t' c). mem_simp.
  - intros j. change (bumpv (put_stk _ _ _ _)) with (bumpv m). rewrite <- HF.
    destruct (decide (j = i)) as [->|Hj]; [rewrite fn_lookup_insert, Hpl|by rewrite fn_lookup_insert_ne].
    naive_solver.
Qed.

Lemma inv_link n n' g m t r i :
  InvX (Some i) n g m -> pl g i = Some PDet -> n <= n' -> r = Unsized \/ n + 1 <= n' ->
  InvX (Some i) n' (g_link (place_of t r) i g) (pushed t r i m).
Proof.
  intros [HL HS HH HD HU HZ HF HB] Hpl Hn Hn'. pose proof (place_of_det t r) as Hp. split; simpl; try done.
  - eapply (li_push _ _ m); [exact HL|done|congruence| | | |].
    + intros q Hq. destruct q; simpl; mem_simp.
    + rewrite hd_of_place. mem_simp.
    + rewrite hd_of_place. mem_simp.
    + intros j Hj. mem_simp.
  - intros j Hj. rewrite fn_lookup_insert_ne by congruence. specialize (HS j Hj). mem_simp.
  - intros j Hj Hjh. rewrite ?fn_lookup_insert_ne by congruence. by apply HH.
  - intros j. specialize (HD j). mem_simp.
  - intros t'. destruct (decide (PUn t' = place_of t r)) as [E|E].
    + destruct r; simplify_eq/=. rewrite fn_lookup_insert. specialize (HU t). simpl. mem_simp. lia.
    + rewrite fn_lookup_insert_ne by done. specialize (HU t'). mem_simp.
  - intros t' c. destruct (decide (PSz t' c = place_of t r)) as [E|E].
    + destruct r; simplify_eq/=. rewrite fn_lookup_insert. specialize (HZ t c0).
      destruct Hn' as [|Hn']; [done|]. simpl. mem_simp. lia.
    + rewrite fn_lookup_insert_ne by done. specialize (HZ t' c). mem_simp; lia.
  - intros j. change (bumpv (pushed _ _ _ _)) with (bumpv m). rewrite <- HF.
    destruct (decide (j = i)) as [->|Hj]; [rewrite fn_lookup_insert, Hpl|by rewrite fn_lookup_insert_ne].
    naive_solver.
Qed.

(** The slab leaves the top of the global stack. *)
Lemma inv_gpop n g m i l d :
  InvX (Some i) n g m -> lst g PGlobal = i :: l -> d_inner d = next (loc m i) ->
  InvX (Some i) n (g_unlink PGlobal i l g) (put_free d m).
Proof.
  intros [HL HS HH HD HU HZ HF HB] El Hd.
  assert (pl g i = Some PGlobal) as Hpl by (apply (li_mem _ _ _ HL); [done|rewrite El; set_solver]).
  split; simpl; try done.
  - eapply li_pop; [exact HL|done|exact El|hd_solve|done|done].
  - intros j Hj. rewrite fn_lookup_insert_ne by congruence. by apply HS.
  - intros j Hj Hjh. rewrite ?fn_lookup_insert_ne by congruence. by apply HH.
  - intros j. change (bumpv (put_free _ _)) with (bumpv m). rewrite <- HF.
    destruct (decide (j = i)) as [->|Hj]; [rewrite fn_lookup_insert, Hpl|by rewrite fn_lookup_insert_ne].
    naive_solver.
Qed.

(** An inner slab of a sized stack is unlinked; the length counter stays. *)
Lemma inv_unlink_inner n g m t c i j l1 l2 :
  InvX (Some i) n g m -> lst g (PSz t c) = l1 ++ j :: i :: l2 ->
  InvX (Some i) n (g_unlink (PSz t c) i (l1 ++ j :: l2) g)
    (put_loc j (set_next (next (loc m i)) (loc m j)) m).
Proof.
  intros [HL HS HH HD HU HZ HF HB] El.
  assert (pl g i = Some (PSz t c)) as Hpl by (apply (li_mem _ _ _ HL); [done|rewrite El; set_solver]).
  split; simpl; try done.
  - eapply li_remove; [exact HL|done|exact El|hd_solve|mem_simp|intros k Hk Hk'; mem_simp].
  - intros k Hk. rewrite fn_lookup_insert_ne by congruence. specialize (HS k Hk). mem_simp.
  - intros k Hk Hkh. rewrite ?fn_lookup_insert_ne by congruence. by apply HH.
  - intros k. specialize (HD k). mem_simp.
  - intros t' c'. destruct (decide (PSz t' c' = PSz t c)) as [E|E].
    + simplify_eq. rewrite fn_lookup_insert. specialize (HZ t c). rewrite El in HZ.
      rewrite !length_app in *. simpl in *. mem_simp. lia.
    + rewrite fn_lookup_insert_ne by done. apply HZ.
  - intros k. change (bumpv (put_loc _ _ _)) with (bumpv m). rewrite <- HF.
    destruct (decide (k = i)) as [->|Hki]; [rewrite fn_lookup_insert, Hpl|by rewrite fn_lookup_insert_ne].
    naive_solver.
Qed.
End moves.
