(* ===== verification/HeapSafe.v ===== *)
(** * HeapSafe: every heap operation preserves the invariant

    Specifications of the operations of Heap.v in terms of [Inv]: allocation
    takes a block nobody holds, freeing gives a held block back, none of them
    panics, diverges or has undefined behaviour. *)

From Stdlib Require Import ZArith Lia.
From stdpp Require Import base numbers option gmap fin_maps functions list.
From S2P Require Import Prelude Bitset Size Data Cas Slab Heap HeapLists HeapRules HeapInv.
Local Open Scope Z_scope.
Local Open Scope prog_scope.

(** The application's blocks and the class of every slab that has some. *)
Definition keeps `{Bracket} (g : ghost) (m : HeapMem) (g' : ghost) (m' : HeapMem) : Prop :=
  forall j, live g' j = live g j /\ (live g j <> ∅ -> class (loc m' j) = class (loc m j)).

Lemma keeps_trans `{Bracket} g m g' m' g'' m'' :
  keeps g m g' m' -> keeps g' m' g'' m'' -> keeps g m g'' m''.
Proof.
  intros H1 H2 j. destruct (H1 j) as [E1 C1], (H2 j) as [E2 C2]. split; [congruence|].
  intros Hne. rewrite C2, C1 by congruence. done.
Qed.

(** What an operation on a thread's own structures leaves alone: the stacks of
    the others, the slabs outside [own] and the global stack. *)
Record private `{Bracket} (t : Z) (own : Z -> Prop) (m m' : HeapMem) : Prop := {
  pv_stk : forall t' r, t' <> t -> stk m' t' r = stk m t' r;
  pv_loc : forall j, ~ own j -> loc m' j = loc m j;
  pv_free : shared_free m' = shared_free m;
}.

Section alloc.
Context (cfg : Cfg) `{BL : BracketLaws} `{IS : IntoState} {HN : Hands} (Hcfg : cfg_ok cfg).

(** ** [unsized_to_sized] *)
Lemma uts_inv n g m id c i l bits r :
  Inv n g m -> class_wf c -> lst g (PUn id) = i :: l ->
  length (dense bits) = ROWS -> slab_part c ∅ ∅ bits (d_inner r) -> abs bits <> ∅ ->
  exists g', InvX None (n + 1) g'
    (put_stk id Unsized (mkLStack (next (loc m i)) (len (stk m id Unsized) - 1))
      (put_rem i r (pushed id (Sized c) i (put_loc i (set_bits bits (set_class c (loc m i))) m)))) /\
    (forall j, live g' j = live g j) /\ live g i = ∅.
Proof.
  intros HI Hc El Hlen Hsp Hne.
  assert (pl g i = Some (PUn id)) as Hpl
    by (apply (li_mem _ _ _ (inv_li _ _ _ _ HI)); [done|rewrite El; set_solver]).
  pose proof (inv_slab _ _ _ _ HI i ltac:(done)) as Hs. rewrite Hpl in Hs. destruct Hs as [Hlive Hown].
  pose proof (inv_unlink n g m id Unsized i l (inv_open _ _ _ i HI) El) as H1.
  eapply (inv_edit _ _ _ i (set_bits bits (set_class c (loc m i))) ∅ ∅) in H1; [|done|done].
  eapply (inv_edit_rem _ _ _ i r ∅ ∅) in H1.
  eapply (inv_link _ (n + 1) _ _ id (Sized c)) in H1; [|simpl; by rewrite fn_lookup_insert|lia|lia].
  eexists. split_and!; [| |done].
  - eapply inv_close.
    + eapply inv_meq; [exact H1|]. meq_solve.
    + apply (inv_no_hand _ _ _ _ i HI); [done|left; by rewrite Hpl].
    + simpl. rewrite !fn_lookup_insert. mem_simp.
  - intros j. simpl. destruct (decide (j = i)) as [->|Hj];
      [by rewrite !fn_lookup_insert|by rewrite !fn_lookup_insert_ne].
Qed.

Lemma uts_run n g m id c :
  Inv n g m -> class_wf c -> n + 1 < 2 ^ 64 ->
  mwp (unsized_to_sized cfg id c) (fun m' b =>
    match lst g (PUn id) with
    | [] => b = false /\ m' = m
    | i :: l => b = true /\ hd_of m' (PSz id c) = Some i /\ bumpv m' = bumpv m /\ private id (fun j => j = i) m m' /\
        exists g', Inv (n + 1) g' m' /\ keeps g m g' m'
    end) m.
Proof.
  intros HI Hc Hn. pose proof (inv_li _ _ _ _ HI) as HL.
  pose proof (li_chain _ _ _ HL (PUn id) ltac:(done)) as Hch. simpl in Hch.
  unfold unsized_to_sized. mgo. destruct (lst g (PUn id)) as [|i l] eqn:El.
  { rewrite Hch. by mgo. }
  destruct Hch as [Hh _]. rewrite Hh. mgo.
  destruct (fill_slab (free (loc m i)) c (inv_dense _ _ _ _ HI i) Hc) as (bits & Hf & Hlen' & Hsp & Hne).
  eapply mwp_lift; [by apply class_count_done|]. mgo.
  eapply (mwp_lift bits); [mem_simp|]. mgo.
  pose proof (sref_ok_class c Hc) as Hr.
  pose proof (inv_sz _ _ _ _ HI id c) as HZ. pose proof (inv_un _ _ _ _ HI id) as HU. rewrite El in HU.
  pose proof (inv_length _ _ _ _ (PUn id) HI ltac:(done)) as Hul. rewrite El in Hul.
  apply mwp_push; [done|mem_simp; unfold in_range; lia|]. mgo.
  eapply (mwp_store _ id _ (put_rem i)); [done|]. mgo.
  apply mwp_usize; [mem_simp; unfold in_range; simpl in *; lia|]. mgo.
  split_and!; [done|simpl; mem_simp|done|split; [intros t' r Ht; mem_simp|intros j Hj; mem_simp|done]|].
  destruct (uts_inv n g m id c i l bits (mkD (Some id) 0 (wrap 16 (blocks c))) HI Hc El Hlen' Hsp Hne)
    as (g' & HI' & Hlv & Hi0).
  exists g'. split; [eapply inv_meq; [exact HI'|]; meq_solve|].
  intros j. split; [done|]. intros Hj. mem_simp.
Qed.

Lemma uts_spec n g m id c :
  Inv n g m -> class_wf c -> n + 1 < 2 ^ 64 ->
  mwp (unsized_to_sized cfg id c) (fun m' b =>
    match lst g (PUn id) with
    | [] => b = false /\ m' = m
    | i :: l => b = true /\ hd_of m' (PSz id c) = Some i /\ bumpv m' = bumpv m /\
        exists g', Inv (n + 1) g' m' /\ keeps g m g' m'
    end) m.
Proof. intros HI Hc Hn. eapply mwp_conseq; [by eapply uts_run|]. intros m' b. destruct (lst g (PUn id)); naive_solver. Qed.

(** ** [allocate]: the unsized stack is refilled from the global stack or with
    fresh slabs *)
Lemma gtu_inv n g m id i l d :
  Inv n g m -> lst g (PUn id) = [] -> lst g PGlobal = i :: l -> d_inner d = next (loc m i) ->
  exists g', Inv n g' (pushed id Unsized i (put_loc i (set_owner (Some id) (loc m i)) (put_free d m))) /\
    lst g' (PUn id) = [i] /\ (forall j, live g' j = live g j).
Proof.
  intros HI Eu El Hd.
  assert (pl g i = Some PGlobal) as Hpl
    by (apply (li_mem _ _ _ (inv_li _ _ _ _ HI)); [done|rewrite El; set_solver]).
  pose proof (inv_slab _ _ _ _ HI i ltac:(done)) as Hlive. rewrite Hpl in Hlive. simpl in Hlive.
  pose proof (inv_gpop n g m i l d (inv_open _ _ _ i HI) El Hd) as H1.
  eapply (inv_edit _ _ _ i (set_owner (Some id) (loc m i)) ∅ ∅) in H1; [|done|apply (inv_dense _ _ _ _ HI)].
  eapply (inv_link _ n _ _ id Unsized) in H1; [|simpl; by rewrite fn_lookup_insert|lia|by left].
  eexists. split_and!.
  - eapply inv_close.
    + eapply inv_meq; [exact H1|]. meq_solve.
    + apply (inv_no_hand _ _ _ _ i HI); [done|left; by rewrite Hpl].
    + simpl. rewrite !fn_lookup_insert. mem_simp.
  - simpl. by rewrite fn_lookup_insert, fn_lookup_insert_ne, Eu.
  - intros j. simpl. destruct (decide (j = i)) as [->|Hj];
      [by rewrite !fn_lookup_insert|by rewrite !fn_lookup_insert_ne].
Qed.

Lemma chain_seq m a k :
  (forall j, a <= j < a + Z.of_nat (S k) ->
     next (loc m j) = if decide (j = a + Z.of_nat (S k) - 1) then None else Some (j + 1)) ->
  chain m (Some a) (seqZ a (Z.of_nat (S k))).
Proof.
  revert a. induction k as [|k IH]; intros a Hn; rewrite seqZ_cons by lia; split; [done| |done|].
  - rewrite (Hn a), decide_True by lia. done.
  - replace (Z.pred (Z.of_nat (S (S k)))) with (Z.of_nat (S k)) by lia.
    rewrite (Hn a), decide_False by lia. replace (Z.succ a) with (a + 1) by lia. apply IH.
    intros j Hj. rewrite Hn by lia. case_decide; case_decide; (done || lia).
Qed.

Lemma btu_inv n g m m' id start b :
  Inv n g m -> lst g (PUn id) = [] -> start = bumpv m -> 1 <= b -> start + b < 2 ^ 32 ->
  (forall j, loc m' j = if decide (start <= j < start + b)
     then set_next (if decide (j = start + b - 1) then None else Some (j + 1))
            (set_owner (Some id) (loc m j)) else loc m j) ->
  (forall j, rem m' j = rem m j) -> shared_free m' = shared_free m ->
  d_inner (shared_bump m') = Some (start + b) ->
  (forall t r, stk m' t r = if decide (t = id /\ r = Unsized) then mkLStack (Some start) b else stk m t r) ->
  Inv n
    (mkGhost (<[PUn id := seqZ start b]> (lst g))
       (fun j => if decide (j ∈ seqZ start b) then Some (PUn id) else pl g j) (live g) (rf g)) m'.
Proof.
  intros HI El -> Hb Hmax Hloc Hrem Hfree Hbump Hstk. destruct HI as [HL HS HH HD HU HZ HF HB].
  set (start := bumpv m) in *.
  assert (forall j, j ∈ seqZ start b -> pl g j = None) as Hfresh.
  { intros j Hj%elem_of_seqZ. destruct (pl g j) eqn:E; [|done].
    assert (1 <= j < start) by (apply HF; eauto). lia. }
  assert (bumpv m' = start + b) as Hb' by (unfold bumpv; by rewrite Hbump).
  split; simpl.
  - apply (li_fresh _ _ m); try done; [apply NoDup_seqZ|..].
    + intros [] Hr; cbn [hd_of]; rewrite ?Hstk, ?Hfree; mem_simp.
    + cbn [hd_of]. rewrite Hstk, decide_True by done. cbn [head].
      replace b with (Z.of_nat (S (Z.to_nat b - 1))) by lia. apply chain_seq. intros j Hj.
      rewrite Hloc, decide_True by lia. simpl. case_decide; case_decide; (done || lia).
    + intros j Hj. rewrite Hloc, decide_False; [done|]. rewrite elem_of_seqZ in Hj. lia.
  - intros j _. rewrite Hrem, Hloc. specialize (HS j ltac:(done)).
    destruct (decide (start <= j < start + b)) as [Hj|Hj].
    + rewrite decide_True by (apply elem_of_seqZ; lia). by rewrite (Hfresh j) in HS by (apply elem_of_seqZ; lia).
    + rewrite decide_False by (rewrite elem_of_seqZ; lia). done.
  - intros j _ Hj. destruct (HH j ltac:(done) Hj) as [Hp Hl]. rewrite decide_False; [done|]. intros Hin. by rewrite (Hfresh j Hin) in Hp.
  - intros j. specialize (HD j). rewrite Hloc. by case_decide.
  - intros t. rewrite Hstk. destruct (decide (t = id)) as [->|Ht].
    + rewrite decide_True, fn_lookup_insert, length_seqZ by done. simpl. lia.
    + rewrite decide_False, fn_lookup_insert_ne by naive_solver. apply HU.
  - intros t c. rewrite Hstk, decide_False, fn_lookup_insert_ne by naive_solver. apply HZ.
  - intros j. rewrite Hb'. destruct (decide (j ∈ seqZ start b)) as [Hj|Hj]; rewrite elem_of_seqZ in Hj.
    + split; [lia|eauto].
    + rewrite HF. fold start. lia.
  - rewrite Hb'. lia.
Qed.

Lemma shared_pop_spec n g m id :
  Inv n g m ->
  mwp (shared_pop cfg id) (fun m' r =>
    match lst g PGlobal with
    | [] => r = None /\ m' = m
    | i :: l => r = Some i /\ exists d, d_inner d = next (loc m i) /\ m' = put_free d m
    end) m.
Proof.
  intros HI. pose proof (li_chain _ _ _ (inv_li _ _ _ _ HI) PGlobal ltac:(done)) as Hch. simpl in Hch.
  unfold shared_pop, global_is_empty. mgo. eapply mwp_load; [done|]. mgo.
  destruct (lst g PGlobal) as [|i l].
  { rewrite Hch. by mgo. }
  destruct Hch as [Hh _]. rewrite Hh. simpl. unfold global_pop. mgo.
  apply (mwp_update _ _ _ shared_free put_free); [done|done|].
  intros v. rewrite Hh. mgo. split; [done|]. mgo.
  split; [done|]. by eexists (mkD _ _ _).
Qed.

Lemma bump_spec id m :
  bumpv m + BATCH_BUMP_POP cfg < 2 ^ 32 -> 1 <= bumpv m ->
  mwp (bump cfg id) (fun m' r =>
    r = (bumpv m, bumpv m + BATCH_BUMP_POP cfg) /\
    exists d, d_inner d = Some (bumpv m + BATCH_BUMP_POP cfg) /\ m' = put_bump d m) m.
Proof.
  intros Hmax Hmin. pose proof (ok_bump _ Hcfg) as Hb. unfold bump. unfold wrap.
  rewrite Z.mod_small by lia. mgo.
  assert (index_add (bumpv m) (BATCH_BUMP_POP cfg) = Done (bumpv m + BATCH_BUMP_POP cfg)) as Hadd.
  { unfold index_add, checked_add. by rewrite (proj2 (Z.ltb_lt _ _)) by lia. }
  apply (mwp_update _ _ _ shared_bump put_bump); [done|done|]. intros v. mgo.
  eapply mwp_lift; [exact Hadd|]. mgo. split; [done|]. mgo.
  eapply mwp_unwrap; [done|]. mgo. eapply mwp_lift; [exact Hadd|]. mgo.
  split; [done|]. by eexists (mkD _ _ _).
Qed.

(** The refill of [allocate]: one slab of the global stack, else a batch. *)
Definition refilled (n : Z) (g : ghost) (m : HeapMem) (id : Z) (m' : HeapMem) : Prop :=
  exists g' i l, Inv n g' m' /\ lst g' (PUn id) = i :: l /\
    keeps g m g' m' /\ bumpv m' <= bumpv m + BATCH_BUMP_POP cfg.

Lemma refill_spec n g m id :
  Inv n g m -> lst g (PUn id) = [] -> bumpv m + BATCH_BUMP_POP cfg < 2 ^ 32 ->
  mwp (g <- shared_pop cfg id ;;
       match g with
       | Some index =>
           record cfg id EvGlobalToUnsized ;;;
           own cfg id index ;;;
           stack_push cfg id Unsized index
       | None =>
           range <- bump cfg id ;;
           record cfg id EvBump ;;;
           link cfg id (fst range) (Z.to_nat (snd range - fst range)) None ;;;
           stack_set id Unsized (Some (fst range)) (BATCH_BUMP_POP cfg)
       end) (fun m' _ => refilled n g m id m') m.
Proof.
  intros HI El Hmax. pose proof (ok_release _ Hcfg) as Hval. pose proof (ok_bump _ Hcfg) as Hbp. mgo.
  eapply mwp_conseq; [exact (shared_pop_spec n g m id HI)|]. destruct (lst g PGlobal) as [|i l] eqn:Eg.
  - intros ? ? [-> ->]. mgo.
    eapply mwp_conseq; [apply bump_spec; [done|apply (inv_bump _ _ _ _ HI)]|].
    intros ? ? (-> & d & Hd & ->). mgo. apply mwp_link; [done|].
    intros m2 Hl Hre Hf Hb Ho. mgo. cbn [fst snd] in *.
    replace (bumpv m + BATCH_BUMP_POP cfg - bumpv m) with (BATCH_BUMP_POP cfg) in Hl by lia.
    rewrite Z2Nat.id in Hl by lia.
    eexists _, (bumpv m), (seqZ (Z.succ (bumpv m)) (Z.pred (BATCH_BUMP_POP cfg))). split_and!.
    + eapply (btu_inv n g m _ id (bumpv m) (BATCH_BUMP_POP cfg)); try done; try lia.
      * intros j. rewrite rem_put_stk. unfold rem. by rewrite Hre.
      * etrans; [|exact Hd]. change (d_inner (shared_bump m2) = d_inner d). by rewrite Hb.
      * intros t r. rewrite stk_put_stk. unfold stk, own_of. by rewrite Ho.
    + simpl. rewrite fn_lookup_insert. apply seqZ_cons. lia.
    + intros j. split; [done|]. intros _. rewrite loc_put_stk, Hl. by case_decide.
    + change (default index_MIN (d_inner (shared_bump m2)) <= bumpv m + BATCH_BUMP_POP cfg).
      rewrite Hb. simpl. by rewrite Hd.
  - intros ? ? (-> & d & Hd & ->). mgo. apply mwp_own; [done|]. mgo.
    pose proof (inv_un _ _ _ _ HI id) as HU. rewrite El in HU.
    apply mwp_push; [done|mem_simp; unfold in_range; simpl in *; lia|].
    destruct (gtu_inv n g m id i l d HI El Eg Hd) as (g' & HI' & El' & Hlv).
    exists g', i, []. split_and!; [exact HI'|done|intros j; split; [done|intros _; mem_simp]|]. change (bumpv (pushed _ _ _ _)) with (bumpv m). lia.
Qed.

(** [allocate] leaves a slab with a free block on top of the sized stack. *)
Lemma heap_allocate_spec n g m id c :
  Inv n g m -> class_wf c -> n + 1 < 2 ^ 64 -> bumpv m + BATCH_BUMP_POP cfg < 2 ^ 32 ->
  mwp (allocate cfg id c) (fun m' r =>
    exists i g', r = Some i /\ hd_of m' (PSz id c) = Some i /\ Inv (n + 1) g' m' /\
      keeps g m g' m' /\ bumpv m' <= bumpv m + BATCH_BUMP_POP cfg) m.
Proof.
  intros HI Hc Hn Hmax. pose proof (ok_release _ Hcfg) as Hval. pose proof (ok_bump _ Hcfg) as Hbp.
  pose proof (sref_ok_class c Hc) as Hr. unfold allocate. rewrite (proj2 Hc). apply mwp_bind.
  eapply mwp_conseq; [exact (uts_spec n g m id c HI Hc Hn)|].
  destruct (lst g (PUn id)) as [|i l] eqn:El; cbn beta.
  - intros ? ? [-> ->].
    apply mwp_assoc, mwp_bind. eapply mwp_conseq; [exact (refill_spec n g m id HI El Hmax)|].
    intros m1 [] (g1 & i & l & HI1 & El1 & Hlv1 & Hb1). cbn beta. mgo.
    eapply mwp_conseq; [exact (uts_spec n g1 m1 id c HI1 Hc Hn)|]. rewrite El1.
    intros m' b (-> & Hh & Hb & g' & HI' & Hlv). mgo. apply mwp_validate_owned; [done|]. mgo.
    exists i, g'. split_and!; [done|done|done|by eapply keeps_trans|lia].
  - intros m' b (-> & Hh & Hb & g' & HI' & Hlv). mgo. apply mwp_validate_owned; [done|]. mgo.
    exists i, g'. split_and!; [done|done|done|done|lia].
Qed.

(** ** [peek] and [pop] *)

(** A free block becomes live. *)
Lemma take_part c lv rfi bits bits' r b :
  slab_part c lv rfi bits r -> b ∈ abs bits -> wf bits' -> abs bits' = abs bits ∖ {[b]} ->
  slab_part c ({[b]} ∪ lv) rfi bits' r.
Proof.
  intros [Hc Hwf Hall Hfl Hfr Hlr Hr] Hb Hwf' Habs. split; rewrite ?Habs; [done|done| |set_solver..|done].
  rewrite <- Hall. apply set_eq. intros k. destruct (decide (k = b)); set_solver.
Qed.

(** The slab on top of a sized stack is linked there. *)
Lemma top_slab n g m id c i : Inv n g m -> hd_of m (PSz id c) = Some i ->
  exists l, lst g (PSz id c) = i :: l /\ pl g i = Some (PSz id c) /\ index_wf i /\
    slab_inv (in_hands i) (Some (PSz id c)) (live g i) (rf g i) (loc m i) (d_inner (rem m i)).
Proof.
  intros HI Hh. destruct (li_head _ _ _ (PSz id c) i (inv_li _ _ _ _ HI) ltac:(done) Hh) as [l El].
  assert (pl g i = Some (PSz id c)) as Hpl
    by (apply (li_mem _ _ _ (inv_li _ _ _ _ HI)); [done|rewrite El; set_solver]).
  exists l. split_and!; [done|done| |by rewrite <- Hpl; apply (inv_slab _ _ _ _ HI)].
  pose proof (inv_bump _ _ _ _ HI). assert (1 <= i < bumpv m) by (apply (inv_fresh _ _ _ _ HI); eauto). unfold index_wf. lia.
Qed.

(** What one allocation does to the set of live blocks. *)
Definition takes (g : ghost) (m : HeapMem) (i b : Z) (g' : ghost) (m' : HeapMem) : Prop :=
  forall j, live g' j = (if decide (j = i) then {[b]} ∪ live g i else live g j) /\
    (live g j <> ∅ -> class (loc m' j) = class (loc m j)).

Lemma g_set_live i lv rfi g j :
  live (g_set i lv rfi g) j = if decide (j = i) then lv else live g j.
Proof. simpl. case_decide; [subst; by rewrite fn_lookup_insert|by rewrite fn_lookup_insert_ne]. Qed.

Lemma pop_inv n g m id c i b bits :
  Inv n g m -> pl g i = Some (PSz id c) -> b ∈ abs (free (loc m i)) ->
  wf bits -> length (dense bits) = ROWS -> abs bits = abs (free (loc m i)) ∖ {[b]} -> abs bits <> ∅ ->
  Inv n (g_set i ({[b]} ∪ live g i) (rf g i) g) (put_loc i (set_bits bits (loc m i)) m).
Proof.
  intros HI Hpl Hb Hwf Hl Habs Hne.
  pose proof (inv_slab _ _ _ _ HI i ltac:(done)) as Hs. rewrite Hpl in Hs.
  destruct Hs as (Ho & Hc & Hsp & _).
  eapply inv_close; [by apply inv_edit; [apply inv_open| |]|apply (inv_no_hand _ _ _ _ i HI); [done|left; by rewrite Hpl]|].
  simpl. rewrite !fn_lookup_insert, Hpl. mem_simp. split_and!; [done|done|by eapply take_part|done].
Qed.

Lemma pop_detach_inv n g m id c i l b lo bits :
  Inv n g m -> lst g (PSz id c) = i :: l -> b ∈ abs (free (loc m i)) ->
  wf bits -> length (dense bits) = ROWS -> abs bits = abs (free (loc m i)) ∖ {[b]} -> abs bits = ∅ ->
  next lo = next (loc m i) -> class lo = class (loc m i) -> free lo = bits ->
  Inv n (g_set i ({[b]} ∪ live g i) (rf g i) (g_unlink (PSz id c) i l g))
    (put_loc i lo (put_stk id (Sized c) (mkLStack (next (loc m i)) (len (stk m id (Sized c)) - 1)) m)).
Proof.
  intros HI El Hb Hwf Hl Habs He Hn Hcl Hf.
  assert (pl g i = Some (PSz id c)) as Hpl
    by (apply (li_mem _ _ _ (inv_li _ _ _ _ HI)); [done|rewrite El; set_solver]).
  pose proof (inv_slab _ _ _ _ HI i ltac:(done)) as Hs. rewrite Hpl in Hs.
  destruct Hs as (Ho & Hc & Hsp & _).
  pose proof (inv_unlink n g m id (Sized c) i l (inv_open _ _ _ i HI) El) as H1.
  eapply inv_close; [eapply inv_edit; [exact H1|mem_simp|by rewrite Hf]|apply (inv_no_hand _ _ _ _ i HI); [done|left; by rewrite Hpl]|].
  simpl. rewrite !fn_lookup_insert. mem_simp. rewrite Hcl.
  right. split_and!; [by eapply take_part|done|set_solver].
Qed.

Lemma pop_spec base n g m id c i blk :
  Inv n g m -> class_wf c -> n < 2 ^ 64 -> hd_of m (PSz id c) = Some i ->
  peek_unchecked (free (loc m i)) = Done blk ->
  mwp (pop cfg base id c i blk) (fun m' r =>
    exists g', r = offset_to_pointer base (block_offset c i (bit_to_u64 blk)) /\
      Inv n g' m' /\ bumpv m' = bumpv m /\ index_wf i /\ block_wf c (bit_to_u64 blk) /\
      bit_to_u64 blk ∉ live g i /\ class (loc m' i) = c /\ takes g m i (bit_to_u64 blk) g' m') m.
Proof.
  intros HI Hc Hn Hh Hpk. pose proof (ok_release _ Hcfg) as Hval.
  destruct (top_slab n g m id c i HI Hh) as (l & El & Hpl & Hi & Ho & Hcl & Hsp & Hne).
  destruct (peek_unset_abs (validating cfg) (debug_assertions cfg) _ (sp_wf _ _ _ _ _ Hsp) Hne)
    as (blk' & bits & Hpk' & [Hrow Hcol] & Hb & _ & Hu & Hwf & Hlen & Habs & Hcnt).
  rewrite Hpk in Hpk'. injection Hpk' as <-. set (b := bit_to_u64 blk) in *.
  assert (block_wf c b) as Hbw by (eapply sp_block; eauto).
  assert (b ∉ live g i) as Hnl by (pose proof (sp_fl _ _ _ _ _ Hsp); set_solver).
  rewrite (inv_dense _ _ _ _ HI) in Hlen, Hrow.
  unfold pop. mgo. eapply mwp_lift; [exact Hu|]. mgo.
  assert (forall m' r, r = offset_to_pointer base (block_offset c i b) ->
    (exists g', Inv n g' m' /\ bumpv m' = bumpv m /\ class (loc m' i) = c /\ takes g m i b g' m') ->
    exists g', r = offset_to_pointer base (block_offset c i b) /\ Inv n g' m' /\ bumpv m' = bumpv m /\
      index_wf i /\ block_wf c b /\ b ∉ live g i /\ class (loc m' i) = c /\ takes g m i b g' m') as Hwrap
    by (intros m' r -> (g' & ? & ? & ? & ?); exists g'; done).
  assert (from_block (debug_assertions cfg) c i blk = Done (block_offset c i b)) as Hfb
    by (apply from_block_done; (done || lia)).
  unfold is_empty, Bitset.len. destruct (Z.eqb_spec (count bits) 0) as [E0|E0].
  - assert (abs bits = ∅) as He by (apply size_zero; rewrite (count_size bits) in E0 by done; lia).
    pose proof (inv_sz _ _ _ _ HI id c) as HZ. rewrite El in HZ. simpl in HZ.
    pose proof (sref_ok_class c Hc) as Hr. mgo.
    apply (mwp_pop _ _ _ i); [done|simpl; mem_simp|mem_simp; unfold in_range; lia|]. mgo.
    eapply mwp_unwrap; [done|]. unfold detach. mgo. apply (mwp_load _ _ _ (fun m => rem m i)); [done|]. mgo.
    eapply mwp_lift; [by apply class_count_done|].
    assert (forall lo, next lo = next (loc m i) -> class lo = class (loc m i) -> free lo = bits ->
      forall m', mem_eq (put_loc i lo (put_stk id (Sized c) (mkLStack (next (loc m i)) (len (stk m id (Sized c)) - 1)) m)) m' ->
      exists g', Inv n g' m' /\ bumpv m' = bumpv m /\ class (loc m' i) = c /\ takes g m i b g' m') as Hfin.
    { intros lo Hn1 Hc1 Hf1 m' Hm'. eexists. split_and!.
      - eapply inv_meq; [eapply (pop_detach_inv n g m id c i l b lo bits); done|exact Hm'].
      - unfold bumpv. by rewrite (meq_bump _ _ Hm').
      - rewrite (meq_loc _ _ Hm'). mem_simp.
      - intros j. rewrite g_set_live. split; [done|]. intros _. rewrite (meq_loc _ _ Hm'). mem_simp. }
    destruct (_ <? _); mgo.
    + apply mwp_disown; [done|]. mgo. eapply mwp_lift; [exact Hfb|]. mgo. apply Hwrap; [done|].
      eapply (Hfin (set_owner None (set_bits bits (loc m i)))); [done..|]. meq_solve.
    + eapply mwp_lift; [exact Hfb|]. mgo. apply Hwrap; [done|].
      eapply (Hfin (set_bits bits (loc m i))); [done..|]. meq_solve.
  - assert (abs bits <> ∅) as He.
    { intros He. apply E0. rewrite (count_size bits), He, size_empty by done. done. }
    mgo. eapply mwp_lift; [exact Hfb|]. mgo. apply Hwrap; [done|].
    eexists. split_and!; [by eapply pop_inv|done|mem_simp|].
    intros j. rewrite g_set_live. split; [done|]. intros _. mem_simp.
Qed.

Lemma keeps_refl g m : keeps g m g m.
Proof. done. Qed.

(** The slab on top of a sized stack has a first free block. *)
Lemma top_peek n g m id c i :
  Inv n g m -> hd_of m (PSz id c) = Some i ->
  exists blk, peek_unchecked (free (loc m i)) = Done blk.
Proof.
  intros HI Hh. destruct (top_slab n g m id c i HI Hh) as (l & _ & _ & _ & _ & _ & Hsp & Hne).
  destruct (peek_unset_abs true true _ (sp_wf _ _ _ _ _ Hsp) Hne) as (blk & _ & Hpk & _). eauto.
Qed.

Lemma peek_spec n g m id c :
  Inv n g m -> class_wf c -> n + 1 < 2 ^ 64 -> bumpv m + BATCH_BUMP_POP cfg < 2 ^ 32 ->
  mwp (peek cfg id c) (fun m' r =>
    exists g' i blk, r = Some (i, blk) /\ hd_of m' (PSz id c) = Some i /\
      peek_unchecked (free (loc m' i)) = Done blk /\ Inv (n + 1) g' m' /\ keeps g m g' m' /\
      bumpv m' <= bumpv m + BATCH_BUMP_POP cfg) m.
Proof.
  intros HI Hc Hn Hmax. pose proof (ok_bump _ Hcfg) as Hbp. pose proof (sref_ok_class c Hc) as Hr.
  unfold peek. mgo. destruct (head (stk m id (Sized c))) as [i|] eqn:Eh; mgo.
  - assert (Inv (n + 1) g m) as HI1 by (eapply inv_mono; [exact HI|lia]).
    destruct (top_peek _ g m id c i HI1 Eh) as [blk Hpk].
    eapply mwp_lift; [exact Hpk|]. mgo. exists g, i, blk. split_and!; (done || lia).
  - eapply mwp_conseq; [exact (heap_allocate_spec n g m id c HI Hc Hn Hmax)|].
    intros m' r (i & g' & -> & Hh & HI' & Hk & Hb). mgo.
    destruct (top_peek _ g' m' id c i HI' Hh) as [blk Hpk].
    eapply mwp_lift; [exact Hpk|]. mgo. exists g', i, blk. done.
Qed.

Lemma alloc_block_spec base n g m id c :
  Inv n g m -> class_wf c -> n + 1 < 2 ^ 64 -> bumpv m + BATCH_BUMP_POP cfg < 2 ^ 32 ->
  mwp (alloc_block cfg base id c) (fun m' r =>
    exists g' i b, r = Some (offset_to_pointer base (block_offset c i b)) /\ Inv (n + 1) g' m' /\
      bumpv m' <= bumpv m + BATCH_BUMP_POP cfg /\ index_wf i /\ block_wf c b /\ b ∉ live g i /\
      class (loc m' i) = c /\ takes g m i b g' m') m.
Proof.
  intros HI Hc Hn Hmax. unfold alloc_block. mgo.
  eapply mwp_conseq; [exact (peek_spec n g m id c HI Hc Hn Hmax)|].
  intros m1 r (g1 & i & blk & -> & Hh & Hpk & HI1 & Hk & Hb). mgo.
  eapply mwp_conseq; [exact (pop_spec base (n + 1) g1 m1 id c i blk HI1 Hc Hn Hh Hpk)|].
  intros m' r (g' & -> & HI' & Hb' & Hi & Hbw & Hnl & Hcl & Ht). mgo.
  exists g', i, (bit_to_u64 blk). destruct (Hk i) as [Ei _]. rewrite Ei in Hnl.
  split_and!; [done|done|lia|done|done|done|done|]. intros j. destruct (Ht j) as [E C], (Hk j) as [E1 C1].
  rewrite E, Ei, E1. split; [done|]. intros Hj. rewrite C, C1 by (done || congruence). done.
Qed.

(** ** [unsized_to_global] *)
Lemma utg_inv n g m id i l1 l2 d :
  Inv n g m -> lst g (PUn id) = (i :: l1) ++ l2 -> d_inner d = Some i ->
  exists g', let tl := List.last (i :: l1) i in
    Inv n g' (put_free d (put_loc tl (set_next (d_inner (shared_free m)) (loc m tl))
      (put_stk id Unsized (mkLStack (next (loc m tl))
         (len (stk m id Unsized) - Z.of_nat (length (i :: l1)))) m))) /\
    (forall j, live g' j = live g j).
Proof.
  intros HI El Hd. destruct HI as [HL HS HH HD HU HZ HF HB].
  exists (mkGhost (<[PGlobal := (i :: l1) ++ lst g PGlobal]> (<[PUn id := l2]> (lst g)))
     (fun j => if decide (j ∈ i :: l1) then Some PGlobal else pl g j) (live g) (rf g)).
  cbv zeta. set (tl := List.last (i :: l1) i). split; [|done].
  assert (forall j, j ∈ i :: l1 -> pl g j = Some (PUn id)) as Hin.
  { intros j Hj. apply (li_mem _ _ _ HL); [done|]. rewrite El. set_solver. }
  split; simpl.
  - eapply (li_splice _ _ m); [exact HL|done|done|done|exact El|..]; fold tl.
    + intros r H1 H2. destruct r; simpl; mem_simp.
    + simpl. mem_simp.
    + done.
    + simpl. mem_simp.
    + intros j Hj. mem_simp.
  - intros j _. specialize (HS j ltac:(done)). case_decide as Hj; [|mem_simp].
    rewrite (Hin j Hj) in HS. mem_simp; apply HS.
  - intros j _ Hj. destruct (HH j ltac:(done) Hj) as [Hpj Hlj]. rewrite decide_False; [done|]. intros Hij. by rewrite (Hin j Hij) in Hpj.
  - intros j. specialize (HD j). mem_simp.
  - intros t. specialize (HU t). rewrite fn_lookup_insert_ne by done.
    destruct (decide (t = id)) as [->|Ht].
    + rewrite fn_lookup_insert. rewrite El, length_app in HU. mem_simp. rewrite HU. simpl. lia.
    + rewrite fn_lookup_insert_ne by naive_solver. mem_simp.
  - intros t c. rewrite !fn_lookup_insert_ne by naive_solver. specialize (HZ t c). mem_simp.
  - intros j. change (bumpv (put_free _ _)) with (bumpv m). rewrite <- HF.
    case_decide as Hj; [rewrite (Hin j Hj)|]; naive_solver.
  - done.
Qed.

Lemma utg_spec n g m id :
  Inv n g m ->
  mwp (unsized_to_global cfg id) (fun m' _ =>
    exists g', Inv n g' m' /\ keeps g m g' m' /\ bumpv m' = bumpv m) m.
Proof.
  intros HI. pose proof (ok_release _ Hcfg) as Hval. pose proof (ok_push _ Hcfg) as Hp.
  pose proof (ok_cache _ Hcfg) as Hca. pose proof (inv_un _ _ _ _ HI id) as HU.
  pose proof (inv_length _ _ _ _ (PUn id) HI ltac:(done)) as Hlen.
  pose proof (li_chain _ _ _ (inv_li _ _ _ _ HI) (PUn id) ltac:(done)) as Hch.
  cbn [hd_of] in Hch. unfold unsized_to_global. mgo.
  destruct (Z.leb_spec (len (stk m id Unsized)) (COUNT_CACHE_SLAB cfg)) as [Hle|Hgt].
  { mgo. exists g. done. }
  mgo. rewrite Hval. cbn [when_]. mgo.
  rewrite (trace_take_prefix m _ _ (Z.to_nat (BATCH_GLOBAL_PUSH cfg)) Hch).
  set (k := Z.to_nat (BATCH_GLOBAL_PUSH cfg)).
  destruct (take k (lst g (PUn id))) as [|i l1] eqn:Et.
  { exfalso. assert (length (take k (lst g (PUn id))) = 0)%nat as E0 by (by rewrite Et).
    rewrite length_take in E0. lia. }
  assert (lst g (PUn id) = (i :: l1) ++ drop k (lst g (PUn id))) as El by (by rewrite <- Et, take_drop).
  assert (Z.of_nat (length (i :: l1)) = BATCH_GLOBAL_PUSH cfg) as Ek.
  { rewrite <- Et, length_take. lia. }
  eapply mwp_unwrap; [done|]. mgo. apply mwp_usize; [unfold in_range; lia|]. mgo.
  unfold shared_push, global_push. mgo.
  apply (mwp_update _ _ _ shared_free put_free); [done|done|]. intros v. mgo. split; [done|]. mgo.
  eapply mwp_unwrap; [done|]. mgo.
  destruct (utg_inv n g m id i l1 _ (mkD (Some id) v (Some i)) HI El eq_refl) as (g' & HI' & Hlv).
  exists g'. split_and!.
  - rewrite Ek in HI'. eapply inv_meq; [exact HI'|]. meq_solve.
  - intros j. split; [done|]. intros _. mem_simp.
  - done.
Qed.
End alloc.
