(* ===== verification/HeapFree.v ===== *)
(** * HeapFree: freeing blocks preserves the invariant

    Specifications of [Heap::free], [Heap::free_remote] and [Heap::claim],
    with the slab transfers they cause. *)

From Stdlib Require Import ZArith Lia.
From stdpp Require Import base numbers option gmap fin_maps functions list.
From S2P Require Import Prelude Bitset Size Data Cas Slab Heap HeapLists HeapRules HeapInv HeapSafe.
Local Open Scope Z_scope.
Local Open Scope prog_scope.

(** What freeing one block does to the set of live blocks. *)
Definition gives `{Bracket} (g : ghost) (m : HeapMem) (i b : Z) (g' : ghost) (m' : HeapMem) : Prop :=
  forall j, live g' j = (if decide (j = i) then live g i ∖ {[b]} else live g j) /\
    (live g' j <> ∅ -> class (loc m' j) = class (loc m j)).

Section contents.
Context `{BL : BracketLaws} `{IS : IntoState} {HN : Hands}.

Lemma gives_keeps g m i b g' m' g'' m'' :
  gives g m i b g' m' -> keeps g' m' g'' m'' -> gives g m i b g'' m''.
Proof.
  intros H1 H2 j. destruct (H1 j) as [E1 C1], (H2 j) as [E2 C2]. rewrite E2. split; [done|].
  intros Hne. rewrite C2, C1 by congruence. done.
Qed.

(** A live block goes back to the bitset, or to the remote counter. *)
Lemma give_part c lv rfi bits bits' r b :
  slab_part c lv rfi bits r -> b ∈ lv -> wf bits' -> abs bits' = {[b]} ∪ abs bits ->
  slab_part c (lv ∖ {[b]}) rfi bits' r.
Proof.
  intros [Hc Hwf Hall Hfl Hfr Hlr Hr] Hb Hwf' Habs. split; rewrite ?Habs; [done|done| |set_solver..|done].
  rewrite <- Hall. apply set_eq. intros k. destruct (decide (k = b)); set_solver.
Qed.

Lemma remote_part c lv rfi bits r b :
  slab_part c lv rfi bits r -> b ∈ lv -> slab_part c (lv ∖ {[b]}) ({[b]} ∪ rfi) bits (r - 1).
Proof.
  intros [Hc Hwf Hall Hfl Hfr Hlr Hr] Hb. split; [done|done| |set_solver..|].
  - rewrite <- Hall. apply set_eq. intros k. destruct (decide (k = b)); set_solver.
  - rewrite size_add by set_solver. lia.
Qed.

Lemma find_prev_spec m l w index n :
  chain m (Some w) (w :: l) -> index ∈ l -> (length l <= n)%nat ->
  exists l1 j l2, w :: l = l1 ++ j :: index :: l2 /\ find_prev m n w index = Done (Some j).
Proof.
  revert w n. induction l as [|a l IH]; intros w n Hc Hin Hn; [set_solver|].
  destruct n as [|n]; [simpl in Hn; lia|]. destruct Hc as (_ & Ha & Hc). simpl. rewrite Ha.
  destruct (decide (a = index)) as [->|Hne].
  - by exists [], w, l.
  - destruct (IH a n) as (l1 & j & l2 & E & Hf); [by split|set_solver|simpl in Hn; lia|].
    exists (w :: l1), j, l2. by rewrite E.
Qed.

(** A slab with a live block is in a sized stack or detached. *)
Lemma live_place n g m i b :
  Inv n g m -> b ∈ live g i ->
  slab_part (class (loc m i)) (live g i) (rf g i) (free (loc m i)) (d_inner (rem m i)) /\
  ((exists t, pl g i = Some (PSz t (class (loc m i))) /\ owner (loc m i) = Some t /\ abs (free (loc m i)) <> ∅) \/
   (pl g i = Some PDet /\ abs (free (loc m i)) = ∅)).
Proof.
  intros HI Hb. pose proof (inv_slab _ _ _ _ HI i ltac:(done)) as Hs.
  destruct (pl g i) as [[|t|t c|]|] eqn:Hpl; simpl in Hs; [set_solver|set_solver| | |set_solver].
  - destruct Hs as (Ho & <- & Hsp & Hne). split; [done|]. left. eauto.
  - destruct Hs as [[_ Hs]|(Hsp & He & _)]; [set_solver|eauto].
Qed.

Lemma live_index n g m i b : Inv n g m -> b ∈ live g i -> index_wf i.
Proof.
  intros HI Hb. pose proof (inv_bump _ _ _ _ HI).
  assert (1 <= i < bumpv m).
  { apply (inv_fresh _ _ _ _ HI). destruct (live_place _ _ _ _ _ HI Hb) as [_ [(t & -> & _)|[-> _]]]; eauto. }
  unfold index_wf. lia.
Qed.

Lemma size_pos (X : gset Z) b : b ∈ X -> (1 <= size X)%nat.
Proof. intros H. destruct (decide (size X = 0%nat)) as [E%size_zero|]; [set_solver|lia]. Qed.

Lemma size_remove (X : gset Z) b : b ∈ X -> Z.of_nat (size (X ∖ {[b]})) = Z.of_nat (size X) - 1.
Proof.
  intros H. pose proof (size_pos X b H). rewrite size_difference by set_solver.
  rewrite size_singleton. lia.
Qed.

(** The slab after its owner freed one of its blocks. *)
Lemma free_local_inv n g m id i b bits :
  Inv n g m -> b ∈ live g i -> owner (loc m i) = Some id ->
  wf bits -> length (dense bits) = ROWS -> abs bits = {[b]} ∪ abs (free (loc m i)) ->
  let c := class (loc m i) in
  let m1 := put_loc i (set_bits bits (loc m i)) m in
  let m2 := if Bitset.len bits =? 1 then pushed id (Sized c) i m1 else m1 in
  exists g', InvX (Some i) (n + 1) g' m2 /\ pl g' i = Some (PSz id c) /\ gives g m i b g' m2 /\
    live g' i = live g i ∖ {[b]} /\ slab_part c (live g' i) (rf g' i) bits (d_inner (rem m2 i)) /\
    owner (loc m2 i) = Some id /\ class (loc m2 i) = c /\ free (loc m2 i) = bits /\ abs bits <> ∅ /\
    forall j, j ∈ lst g' (PSz id c) -> j = i \/ j ∈ lst g (PSz id c).
Proof.
  intros HI Hb Hown Hwf Hl Habs. cbv zeta.
  destruct (live_place _ _ _ _ _ HI Hb) as [Hsp Hpl].
  pose proof (give_part _ _ _ _ bits _ b Hsp Hb Hwf Habs) as Hsp'.
  assert (Bitset.len bits = Z.of_nat (size (abs (free (loc m i)))) + 1) as Hcnt.
  { unfold Bitset.len. rewrite count_size, Habs by done. apply size_add.
    pose proof (sp_fl _ _ _ _ _ Hsp). set_solver. }
  pose proof (inv_edit n g m i (set_bits bits (loc m i)) (live g i ∖ {[b]}) (rf g i)
    (inv_open _ _ _ i HI) eq_refl Hl) as H1.
  assert (abs bits <> ∅) as Hne by set_solver.
  destruct Hpl as [(t & Ht & Ho & Hne')|[Hdet He]].
  - assert (t = id) as -> by congruence. rewrite (proj2 (Z.eqb_neq _ _)).
    2: { rewrite Hcnt. intros E. apply Hne', size_zero. lia. }
    eexists. split_and!; [eapply inv_mono; [exact H1|lia]|done|..]; simpl; rewrite ?fn_lookup_insert; mem_simp; [|by right].
    intros j. rewrite g_set_live. split; [done|]. intros _. mem_simp.
  - rewrite He, size_empty in Hcnt. rewrite Hcnt. simpl Z.eqb. cbv iota.
    eapply (inv_link _ (n + 1) _ _ id (Sized (class (loc m i)))) in H1; [|done|lia|right; lia].
    eexists. split_and!; [exact H1|simpl; by rewrite fn_lookup_insert|..]; simpl; rewrite ?fn_lookup_insert; mem_simp; [|set_solver].
    intros j. simpl. split.
    + destruct (decide (j = i)) as [->|Hj]; [by rewrite !fn_lookup_insert|by rewrite !fn_lookup_insert_ne].
    + intros _. mem_simp.
Qed.

End contents.

Section free.
Context (cfg : Cfg) `{BL : BracketLaws} `{IS : IntoState} {HN : Hands} (Hcfg : cfg_ok cfg).

(** ** [sized_to_unsized] *)
Lemma stu_run n g m id c i :
  InvX (Some i) n g m -> pl g i = Some (PSz id c) -> class_wf c -> n < 2 ^ 64 ->
  mwp (sized_to_unsized cfg id c i) (fun m' _ =>
    exists g', InvX (Some i) n g' m' /\ pl g' i = Some (PUn id) /\ live g' = live g /\ rf g' = rf g /\
      (forall j, exists nx, loc m' j = set_next nx (loc m j)) /\
      (forall j, rem m' j = rem m j) /\ bumpv m' = bumpv m /\
      private id (fun j => j = i \/ j ∈ lst g (PSz id c)) m m') m.
Proof.
  intros HI Hpl Hc Hn. pose proof (inv_li _ _ _ _ HI) as HL. pose proof (sref_ok_class c Hc) as Hr.
  assert (i ∈ lst g (PSz id c)) as Hin by (by apply (li_mem _ _ _ HL)).
  pose proof (li_chain _ _ _ HL (PSz id c) ltac:(done)) as Hch. cbn [hd_of] in Hch.
  pose proof (inv_sz _ _ _ _ HI id c) as HZ.
  pose proof (inv_un _ _ _ _ HI id) as HU.
  pose proof (inv_length _ _ _ _ (PUn id) HI ltac:(done)) as Hul.
  destruct (lst g (PSz id c)) as [|w l] eqn:El; [set_solver|].
  pose proof Hch as [Hh _]. unfold sized_to_unsized. mgo. rewrite Hh. eapply mwp_unwrap; [done|].
  destruct (decide (w = i)) as [->|Hwi].
  - mgo. apply mwp_usize; [simpl in HZ; unfold in_range; lia|]. mgo.
    apply mwp_push; [done|mem_simp; unfold in_range; lia|].
    pose proof (inv_unlink n g m id (Sized c) i l HI El) as H1.
    eapply (inv_link _ n _ _ id Unsized) in H1; [|simpl; by rewrite fn_lookup_insert|lia|by left].
    eexists. split_and!; [exact H1|simpl; by rewrite fn_lookup_insert|done|done| |done|done|split; [intros t' r Ht; mem_simp|intros j Hj; mem_simp; naive_solver|done]].
    intros j. unfold pushed. autorewrite with mem. case_decide; [subst; eauto|].
    exists (next (loc m j)). by destruct (loc m j).
  - mgo. pose proof (li_nodup _ _ _ HL (PSz id c) ltac:(done)) as Hnd. rewrite El in Hnd.
    pose proof (chain_length _ _ _ Hch Hnd) as Hfuel.
    destruct (find_prev_spec m l w i (trace_fuel m)) as (l1 & j & l2 & E & Hfp);
      [by rewrite <- Hh|set_solver|simpl in Hfuel; lia|].
    eapply mwp_lift; [exact Hfp|]. mgo. eapply mwp_unwrap; [done|]. mgo.
    apply mwp_push; [done|mem_simp; unfold in_range; lia|]. rewrite E in El.
    pose proof (inv_unlink_inner n g m id c i j l1 l2 HI El) as H1.
    eapply (inv_link _ n _ _ id Unsized) in H1; [|simpl; by rewrite fn_lookup_insert|lia|by left].
    eexists. split_and!; [exact H1|simpl; by rewrite fn_lookup_insert|done|done| |done|done|].
    2: { split; [intros t' r Ht; mem_simp|intros k Hk|done]. rewrite E in Hk. mem_simp; set_solver. }
    intros k. unfold pushed. autorewrite with mem. repeat case_decide; subst; eauto.
    all: try (eexists; reflexivity). exists (next (loc m k)). by destruct (loc m k).
Qed.

Lemma stu_spec n g m id c i :
  InvX (Some i) n g m -> pl g i = Some (PSz id c) -> class_wf c -> n < 2 ^ 64 ->
  mwp (sized_to_unsized cfg id c i) (fun m' _ =>
    exists g', InvX (Some i) n g' m' /\ pl g' i = Some (PUn id) /\ live g' = live g /\ rf g' = rf g /\
      (forall j, exists nx, loc m' j = set_next nx (loc m j)) /\
      (forall j, rem m' j = rem m j) /\ bumpv m' = bumpv m) m.
Proof. intros HI Hp Hc Hn. eapply mwp_conseq; [by eapply stu_run|]. naive_solver. Qed.

(** ** [free_remote] and [claim] *)
Lemma claim_spec n g m id i b d :
  Inv n g m -> b ∈ live g i -> d_inner (rem m i) = 1 -> d_inner d = 0 ->
  mwp (claim cfg id (class (loc m i)) i) (fun m' _ =>
    exists g', Inv n g' m' /\ gives g m i b g' m' /\ bumpv m' = bumpv m) (put_rem i d m).
Proof.
  intros HI Hb Hr Hd. pose proof (ok_release _ Hcfg) as Hval.
  destruct (live_place _ _ _ _ _ HI Hb) as [Hsp Hpl].
  destruct (sp_size _ _ _ _ _ Hsp) as [Hsz _]. pose proof (sp_rem _ _ _ _ _ Hsp) as Hrem.
  pose proof (size_pos _ b Hb) as Hb1. pose proof (size_remove _ b Hb) as Hb2.
  assert (live g i ∖ {[b]} = ∅) as Hl0 by (apply size_zero; lia).
  assert (pl g i = Some PDet) as Hdet.
  { destruct Hpl as [(t & _ & _ & Hne)|[? _]]; [|done]. destruct Hne. apply size_zero. lia. }
  pose proof (inv_un _ _ _ _ HI id) as HU.
  pose proof (inv_length _ _ _ _ (PUn id) HI ltac:(done)) as Hul.
  unfold claim, steal. mgo. apply mwp_push; [done|mem_simp; unfold in_range; lia|]. mgo.
  apply mwp_validate_owned; [done|]. mgo.
  pose proof (inv_edit_rem n g m i d ∅ ∅ (inv_open _ _ _ i HI)) as H1.
  eapply (inv_edit _ _ _ i (set_owner (Some id) (loc m i)) ∅ ∅) in H1; [|done|apply (inv_dense _ _ _ _ HI)].
  eapply (inv_link _ n _ _ id Unsized) in H1; [|done|lia|by left].
  eapply inv_close in H1; [|apply (inv_no_hand _ _ _ _ i HI); [done|right; set_solver]|simpl; rewrite !fn_lookup_insert; mem_simp].
  eapply mwp_conseq; [apply (utg_spec cfg Hcfg n); eapply inv_meq; [exact H1|meq_solve]|].
  intros m' [] (g' & HI' & Hk & Hbm). exists g'. split_and!; [done| |exact Hbm].
  eapply gives_keeps; [|exact Hk]. intros j. simpl. split.
  - destruct (decide (j = i)) as [->|Hj]; [by rewrite !fn_lookup_insert|by rewrite !fn_lookup_insert_ne].
  - intros _. mem_simp.
Qed.

Lemma free_remote_spec n g m id i b :
  Inv n g m -> b ∈ live g i ->
  mwp (free_remote cfg id i) (fun m' _ =>
    exists g', Inv n g' m' /\ gives g m i b g' m' /\ bumpv m' = bumpv m) m.
Proof.
  intros HI Hb. pose proof (ok_release _ Hcfg) as Hval.
  destruct (live_place _ _ _ _ _ HI Hb) as [Hsp Hpl].
  destruct (sp_size _ _ _ _ _ Hsp) as [Hsz _]. pose proof (sp_rem _ _ _ _ _ Hsp) as Hrem.
  pose proof (size_pos _ b Hb) as Hb1. pose proof (size_remove _ b Hb) as Hb2.
  pose proof (blocks_pos _ (sp_class _ _ _ _ _ Hsp)) as Hbl. pose proof rows_bound as Hrows.
  unfold free_remote. mgo.
  apply (mwp_update _ _ _ (fun m => rem m i) (put_rem i)); [done|done|]. intros v. mgo.
  apply mwp_validate; [done|]. mgo.
  eapply mwp_lift; [apply arith_ok; unfold in_range; simpl; lia|]. mgo. split; [done|]. mgo.
  eapply mwp_unwrap; [done|]. destruct (Z.eqb_spec (d_inner (rem m i)) 1) as [E1|E1].
  { apply claim_spec; [done|done|done|simpl; lia]. }
  mgo. pose proof (inv_edit_rem n g m i (mkD (Some id) v (d_inner (rem m i) - 1))
    (live g i ∖ {[b]}) ({[b]} ∪ rf g i) (inv_open _ _ _ i HI)) as H1.
  eexists. split_and!; [eapply inv_close; [exact H1|apply (inv_no_hand _ _ _ _ i HI); [done|right; set_solver]|]| |done].
  - simpl. rewrite !fn_lookup_insert. pose proof (remote_part _ _ _ _ _ b Hsp Hb) as Hsp'. mem_simp.
    destruct Hpl as [(t & -> & Ho & Hne)|[-> He]]; simpl; [done|]. right. split_and!; [done|done|].
    intros E0. rewrite E0, He, size_empty in *. lia.
  - intros j. rewrite g_set_live. split; [done|]. intros _. mem_simp.
Qed.

(** The end of [free]: a slab whose blocks are all free leaves its class. *)
Lemma free_full_spec n g m id i c :
  InvX (Some i) n g m -> ~ in_hands i -> pl g i = Some (PSz id c) -> class_wf c -> n < 2 ^ 64 ->
  live g i = ∅ -> owner (loc m i) = Some id ->
  mwp (sized_to_unsized cfg id c i ;;;
       validate_owned cfg id ;;;
       record cfg id (EvSizedToUnsized c) ;;;
       unsized_to_global cfg id) (fun m' _ =>
    exists g', Inv n g' m' /\ keeps g m g' m' /\ bumpv m' = bumpv m) m.
Proof.
  intros HI Hnh Hpl Hc Hn Hlv Hown. pose proof (ok_release _ Hcfg) as Hval. mgo.
  eapply mwp_conseq; [exact (stu_spec n g m id c i HI Hpl Hc Hn)|].
  intros m1 [] (g1 & HI1 & Hpl1 & El & Er & Hloc & Hrem & Hb). mgo.
  apply mwp_validate_owned; [done|]. mgo.
  destruct (Hloc i) as [nx Ei].
  assert (Inv n g1 m1) as HI2.
  { eapply inv_close; [exact HI1|done|]. rewrite Hpl1, El, Ei. simpl. done. }
  eapply mwp_conseq; [exact (utg_spec cfg Hcfg n g1 m1 id HI2)|].
  intros m' [] (g' & HI' & Hk & Hb'). exists g'. split_and!; [done| |by rewrite Hb'].
  eapply keeps_trans; [|exact Hk]. intros j. rewrite El. split; [done|]. intros _.
  destruct (Hloc j) as [nx' ->]. done.
Qed.

Lemma heap_free_spec n g m id i b :
  Inv n g m -> b ∈ live g i -> n + 1 < 2 ^ 64 ->
  mwp (heap_free cfg id (block_offset (class (loc m i)) i b)) (fun m' _ =>
    exists g', Inv (n + 1) g' m' /\ gives g m i b g' m' /\ bumpv m' = bumpv m) m.
Proof.
  intros HI Hb Hn. set (c := class (loc m i)).
  assert (~ in_hands i) as Hnh by (apply (inv_no_hand _ _ _ _ i HI); [done|right; set_solver]).
  destruct (live_place _ _ _ _ _ HI Hb) as [Hsp _].
  pose proof (sp_block _ _ _ _ _ b Hsp ltac:(by left)) as Hbw. fold c in Hbw, Hsp.
  pose proof (sp_class _ _ _ _ _ Hsp) as Hc. pose proof (live_index _ _ _ _ _ HI Hb) as Hi.
  unfold heap_free. mgo. eapply mwp_lift; [by apply into_index_done|]. mgo.
  destruct (decide (owner (loc m i) = Some id)) as [Hown|_].
  2: { eapply mwp_conseq; [exact (free_remote_spec n g m id i b HI Hb)|].
       intros m' [] (g' & HI' & Hg & Hbm). exists g'. split_and!; [|done|done].
       eapply inv_mono; [exact HI'|lia]. }
  fold c. mgo. eapply mwp_lift; [by apply into_block_done|]. mgo.
  pose proof (block_small c b Hbw) as Hbs. pose proof (blocks_pos c Hc) as Hbl.
  assert (bit_wf (free (loc m i)) (mkBit (b / 64) (b mod 64))) as Hbit.
  { destruct Hbw as [_ Hbw]. unfold bit_wf. rewrite (inv_dense _ _ _ _ HI). simpl.
    pose proof (Z.div_pos b 64). pose proof (Z.mod_pos_bound b 64).
    assert (b / 64 < Z.of_nat ROWS) by (apply Z.div_lt_upper_bound; lia). lia. }
  destruct (set_abs (validating cfg) (debug_assertions cfg) (free (loc m i))
    (mkBit (b / 64) (b mod 64)) (sp_wf _ _ _ _ _ Hsp) Hbit) as (bits & Hset & Hwf & Hlen & Habs & _).
  { rewrite bit_of_block by lia. pose proof (sp_fl _ _ _ _ _ Hsp). set_solver. }
  rewrite bit_of_block in Habs by lia. rewrite (inv_dense _ _ _ _ HI) in Hlen.
  eapply mwp_lift; [exact Hset|]. mgo.
  destruct (free_local_inv n g m id i b bits HI Hb Hown Hwf Hlen Habs)
    as (g1 & HI1 & Hpl1 & Hg1 & Hl1 & Hsp1 & Ho1 & Hc1 & Hf1 & Hne1 & _). fold c in HI1, Hpl1, Hg1, Hsp1, Ho1, Hc1, Hf1.
  set (m2 := if Bitset.len bits =? 1 then _ else _) in *.
  eapply (mwp_conseq _ (fun m' _ => m' = m2)).
  { pose proof (sref_ok_class c Hc) as Hr. pose proof (inv_sz _ _ _ _ HI id c) as HZ. unfold m2.
    destruct (Bitset.len bits =? 1); [|by mgo]. unfold attach. mgo.
    apply mwp_push; [done|mem_simp; unfold in_range; lia|done]. }
  intros m3 [] E3. rewrite E3. clear m3 E3. assert (bumpv m2 = bumpv m) as Hbm2 by (unfold m2; by destruct (_ =? _)).
  mgo. eapply mwp_lift; [by apply class_count_done|]. destruct (Z.ltb_spec (Bitset.len bits) (blocks c)) as [Hlt|Hge].
  - mgo. exists g1. split_and!; [|done|done]. eapply inv_close; [exact HI1|done|].
    rewrite Hpl1. simpl. rewrite Hf1. done.
  - destruct (sp_size _ _ _ _ _ Hsp1) as [Hsz Hcnt]. unfold Bitset.len in Hge.
    assert (live g1 i = ∅) as Hl0 by (apply size_zero; lia).
    eapply mwp_conseq; [exact (free_full_spec (n + 1) g1 m2 id i c HI1 Hnh Hpl1 Hc Hn Hl0 Ho1)|].
    intros m' [] (g' & HI' & Hk & Hbm). exists g'. split_and!; [done|by eapply gives_keeps|lia].
Qed.
End free.
