(* ===== verification/HeapSys.v ===== *)
(** * HeapSys: a heap shared by threads refines an abstract allocator

    A system of threads calls [alloc_block] and [free] on one heap, in any
    order. The abstract allocator keeps the map of allocated pointers; it
    hands out any pointer whose byte range overlaps no allocated one. *)

From Stdlib Require Import ZArith Lia.
From stdpp Require Import base numbers option gmap fin_maps functions list.
From S2P Require Import Prelude Bitset Size Data Cas Slab Heap HeapLists HeapRules HeapInv HeapSafe HeapFree.
Local Open Scope Z_scope.
Local Open Scope prog_scope.

(** A request of thread [t]. *)
Inductive hop :=
| HAlloc (t c : Z)
| HFree (t p : Z).

(** Allocated pointers with their class. *)
Abbreviation astate := (gmap Z Z).

Section sys.
Context (cfg : Cfg) `{BL : BracketLaws} `{IS : IntoState} (base : Z).

(** [Allocator::free] on the pointer of a block: [pointer_to_offset], [unwrap]
    and [Heap::free]. *)
Definition free_ptr (t p : Z) : M HS unit :=
  o <- unwrap (pointer_to_offset base p) ;; heap_free cfg t o.

Definition exec (o : hop) : M HS (option Z) :=
  match o with
  | HAlloc t c => alloc_block cfg base t c
  | HFree t p => free_ptr t p ;;; ret None
  end.

(** ** The abstract allocator *)

Definition apart (A : astate) (p c : Z) : Prop :=
  forall p' c', A !! p' = Some c' -> p + class_size c <= p' \/ p' + class_size c' <= p.

Inductive astep (A : astate) : hop -> option Z -> astate -> Prop :=
| astep_alloc t c p :
    A !! p = None -> apart A p c -> astep A (HAlloc t c) (Some p) (<[p := c]> A)
| astep_free t p c :
    A !! p = Some c -> astep A (HFree t p) None (delete p A).

(** What the application may ask for: a class of the bracket while slab
    indices last, or the release of a pointer it holds. *)
Definition legal (s : HS) (A : astate) (o : hop) : Prop :=
  match o with
  | HAlloc _ c => class_wf c /\ bumpv (hs_mem s) + BATCH_BUMP_POP cfg < 2 ^ 32
  | HFree _ p => is_Some (A !! p)
  end.

(** The application's view after a call that returned [r]. *)
Definition observe (o : hop) (r : option Z) (A : astate) : astate :=
  match o, r with
  | HAlloc _ c, Some p => <[p := c]> A
  | HAlloc _ _, None => A
  | HFree _ p, _ => delete p A
  end.

(** Reachable by [k] calls from zeroed memory. *)
Inductive reach : Z -> HS -> astate -> Prop :=
| reach_init s : hs_mem s = zero_mem -> reach 0 s ∅
| reach_step k s A o s' r :
    reach k s A -> legal s A o -> exec o s = Done (s', r) -> reach (k + 1) s' (observe o r A).

(** ** Simulation *)

(** The pointers the application holds are the live blocks of the ghost. *)
Definition rep (g : ghost) (m : HeapMem) (A : astate) : Prop :=
  forall p c, A !! p = Some c <->
    exists i b, b ∈ live g i /\ c = class (loc m i) /\ p = offset_to_pointer base (block_offset c i b).

Definition sim (k : Z) (s : HS) (A : astate) : Prop :=
  exists g, Inv k g (hs_mem s) /\ rep g (hs_mem s) A.

Lemma mwp_wp {A} (p : M HS A) Q s : mwp p Q (hs_mem s) -> wp p (fun s' a => Q (hs_mem s') a) s.
Proof. intros H. by apply H. Qed.

Lemma inv_init : Inv 0 (mkGhost (fun _ => []) (fun _ => None) (fun _ => ∅) (fun _ => ∅)) zero_mem.
Proof.
  split; simpl; try done.
  - split; [by intros []|intros; apply NoDup_nil_2|intros; set_solver].
  - intros i. change (loc zero_mem i) with zero_local. simpl. by rewrite length_replicate.
  - intros i. unfold bumpv. simpl. split; [by intros []|unfold index_MIN; lia].
Qed.

(** Blocks held by the application, from the ghost. *)
Lemma live_block n g m i b : Inv n g m -> b ∈ live g i -> block_wf (class (loc m i)) b.
Proof.
  intros HI Hb. destruct (live_place _ _ _ _ _ HI Hb) as [Hsp _]. eapply sp_block; [exact Hsp|by left].
Qed.

Lemma live_inj n g m i b i' b' :
  Inv n g m -> b ∈ live g i -> b' ∈ live g i' ->
  block_offset (class (loc m i)) i b = block_offset (class (loc m i')) i' b' -> i = i' /\ b = b'.
Proof.
  intros HI Hb Hb' E. pose proof (live_block _ _ _ _ _ HI Hb) as W. pose proof (live_block _ _ _ _ _ HI Hb') as W'.
  pose proof (class_size_pos _ (proj1 W)). pose proof (class_size_pos _ (proj1 W')).
  destruct (decide (i = i')) as [<-|Hi].
  - split; [done|]. destruct (decide (b = b')) as [|Hne]; [done|].
    pose proof (block_ranges _ _ i i b b' W W' ltac:(by right)). lia.
  - pose proof (block_ranges _ _ i i' b b' W W' ltac:(by left)). lia.
Qed.

Lemma rep_takes n g m A g' m' i b c :
  Inv n g m -> rep g m A -> takes g m i b g' m' -> class (loc m' i) = c -> block_wf c b ->
  b ∉ live g i ->
  let p := offset_to_pointer base (block_offset c i b) in
  rep g' m' (<[p := c]> A) /\ apart A p c /\ A !! p = None.
Proof.
  intros HI HR Ht Hc Hb Hnl. cbv zeta. set (p := offset_to_pointer base (block_offset c i b)).
  assert (apart A p c) as Hap.
  { intros p' c' (i' & b' & Hb' & -> & ->)%HR. unfold p, offset_to_pointer.
    pose proof (live_block _ _ _ _ _ HI Hb') as W'.
    assert (i <> i' \/ c = class (loc m i') /\ b <> b') as Hne.
    { destruct (decide (i = i')) as [<-|]; [right|by left]. split; [|set_solver].
      rewrite <- Hc. apply (Ht i). set_solver. }
    pose proof (block_ranges c _ i i' b b' Hb W' Hne). lia. }
  assert (A !! p = None) as Hfresh.
  { destruct (A !! p) as [c'|] eqn:E; [|done]. specialize (Hap p c' E) as Hd.
    apply HR in E as (i' & b' & Hb' & -> & _). pose proof (class_size_pos c (proj1 Hb)).
    pose proof (class_size_pos _ (proj1 (live_block _ _ _ _ _ HI Hb'))). lia. }
  split_and!; [|done|done]. intros p' c'. rewrite lookup_insert_Some, (HR p' c'). split.
  - intros [[<- <-]|(Hpp & i' & b' & Hb' & -> & ->)].
    + exists i, b. destruct (Ht i) as [-> _]. rewrite decide_True by done. split_and!; [set_solver|done|done].
    + exists i', b'. destruct (Ht i') as [E C]. split_and!; [|by rewrite C by set_solver|done].
      rewrite E. case_decide; [subst; set_solver|done].
  - intros (i' & b' & Hb' & -> & ->). destruct (Ht i') as [E C]. rewrite E in Hb'.
    destruct (decide (i' = i /\ b' = b)) as [[-> ->]|Hne].
    + left. by rewrite Hc.
    + assert (b' ∈ live g i') as Hl by (case_decide; [subst; set_solver|done]).
      right. rewrite C by set_solver. split; [|by exists i', b'].
      intros Ep. enough (A !! p = Some (class (loc m i'))) by congruence.
      rewrite Ep. apply HR. by exists i', b'.
Qed.

Lemma rep_gives n g m A g' m' i b p :
  Inv n g m -> rep g m A -> gives g m i b g' m' -> b ∈ live g i ->
  p = offset_to_pointer base (block_offset (class (loc m i)) i b) ->
  rep g' m' (delete p A).
Proof.
  intros HI HR Hg Hb -> p' c'. rewrite lookup_delete_Some, (HR p' c'). split.
  - intros (Hpp & i' & b' & Hb' & -> & ->). destruct (Hg i') as [E C].
    assert (b' ∈ live g' i') as Hl'.
    { rewrite E. case_decide; [subst i'|done].
      apply elem_of_difference. split; [done|]. rewrite elem_of_singleton. by intros ->. }
    rewrite <- C by set_solver. eauto.
  - intros (i' & b' & Hb' & -> & ->). destruct (Hg i') as [E C]. rewrite C by set_solver.
    rewrite E in Hb'. assert (b' ∈ live g i') as Hl by (case_decide; [subst; set_solver|done]).
    split; [|eauto 10]. unfold offset_to_pointer. intros Eo.
    destruct (live_inj n g m i b i' b' HI Hb Hl ltac:(lia)) as [<- <-]. rewrite decide_True in Hb' by done.
    set_solver.
Qed.

Lemma sim_step k s A o :
  cfg_ok cfg -> 0 <= base -> sim k s A -> legal s A o -> k + 1 < 2 ^ 64 ->
  wp (exec o) (fun s' r => astep A o r (observe o r A) /\ sim (k + 1) s' (observe o r A)) s.
Proof.
  intros Hcfg Hbase (g & HI & HR) Hl Hk. destruct o as [t c|t p]; simpl in *.
  - destruct Hl as [Hc Hmax].
    eapply wp_conseq; [apply mwp_wp; by apply (alloc_block_spec cfg Hcfg base k g)|].
    intros s' r (g' & i & b & -> & HI' & Hb & Hi & Hbw & Hnl & Hcl & Ht).
    destruct (rep_takes k g _ A g' _ i b c HI HR Ht Hcl Hbw Hnl) as (HR' & Hap & Hf).
    split; [by constructor|]. by exists g'.
  - destruct Hl as [c Hp]. pose proof Hp as (i & b & Hb & -> & Ep)%HR.
    apply wp_bind. unfold free_ptr. apply wp_bind. pose proof (live_index _ _ _ _ _ HI Hb) as Hi.
    pose proof (offset_range _ i b Hi (live_block _ _ _ _ _ HI Hb)) as Ho.
    eapply wp_unwrap; [rewrite Ep; apply pointer_roundtrip; lia|].
    eapply wp_conseq; [apply mwp_wp; by apply (heap_free_spec cfg Hcfg k g)|].
    intros s' [] (g' & HI' & Hg & Hb'). apply wp_ret. split; [by apply (astep_free _ _ _ (class (loc (hs_mem s) i)))|].
    exists g'. split; [done|]. by apply (rep_gives k g (hs_mem s) A g' _ i b).
Qed.

Lemma reach_sim k s A :
  cfg_ok cfg -> 0 <= base -> reach k s A -> k < 2 ^ 64 -> sim k s A.
Proof.
  intros Hcfg Hbase Hr. induction Hr as [s Hs|k s A o s' r Hr IH Hl He]; intros Hk.
  - eexists. rewrite Hs. split; [apply inv_init|]. intros p c. rewrite lookup_empty. split; [done|].
    intros (i & b & Hb & _). simpl in Hb. set_solver.
  - pose proof (sim_step k s A o Hcfg Hbase (IH ltac:(lia)) Hl Hk) as H. apply wp_done in H as (s2 & r2 & E & _ & H).
    rewrite He in E. by injection E as <- <-.
Qed.

(** ** Properties *)

(** C4: functional refinement. In every state reachable by fewer than [2^64]
    legal calls, by any threads in any order, a legal call returns (it does
    not panic, loop or run into undefined behaviour) and does what the
    abstract allocator does: an allocation yields a pointer whose byte range
    overlaps no allocated block, a free releases exactly that pointer. *)
Theorem heap_refines k s A o :
  cfg_ok cfg -> 0 <= base -> reach k s A -> k + 1 < 2 ^ 64 -> legal s A o ->
  exists s' r, exec o s = Done (s', r) /\ astep A o r (observe o r A).
Proof.
  intros Hcfg Hbase Hr Hk Hl. pose proof (reach_sim k s A Hcfg Hbase Hr ltac:(lia)) as Hs.
  pose proof (sim_step k s A o Hcfg Hbase Hs Hl Hk) as H. apply wp_done in H as (s' & r & E & H & _). eauto.
Qed.

(** The application holds block [b] of slab [i]. *)
Definition held (A : astate) (c i b : Z) : Prop :=
  0 <= b < blocks c /\ A !! offset_to_pointer base (block_offset c i b) = Some c.

Lemma held_live n g m A i b :
  Inv n g m -> rep g m A -> held A (class (loc m i)) i b <-> b ∈ live g i.
Proof.
  intros HI HR. split.
  - intros [Hb Hp]. apply HR in Hp as (i' & b' & Hl & Ec & Ep).
    pose proof (live_block _ _ _ _ _ HI Hl) as W'. unfold offset_to_pointer in Ep.
    assert (block_wf (class (loc m i)) b) as W by (split; [rewrite Ec; apply W'|done]).
    pose proof (class_size_pos _ (proj1 W)). pose proof (class_size_pos _ (proj1 W')).
    destruct (decide (i = i' /\ b = b')) as [[-> ->]|Hne]; [done|exfalso].
    assert (i <> i' \/ class (loc m i) = class (loc m i') /\ b <> b') as Hd.
    { destruct (decide (i = i')) as [E|]; [right|by left]. split; [done|]. intros ->. by destruct Hne. }
    pose proof (block_ranges _ _ i i' b b' W W' Hd). rewrite <- Ec in *. lia.
  - intros Hl. split; [apply (live_block _ _ _ _ _ HI Hl)|]. apply HR. by exists i, b.
Qed.

(** C5: the books of a slab in use balance. In every reachable state, for a
    slab that is on a sized stack or of which the application holds a block:
    no block that is held has its free bit set, every bit set is a block of the
    slab, and the number of free bits and of held blocks together is the
    remote counter of the slab, that is, the number of blocks less the ones
    freed by other threads. *)
Theorem blocks_accounted k s A i :
  cfg_ok cfg -> 0 <= base -> reach k s A -> k < 2 ^ 64 ->
  let m := hs_mem s in
  let c := class (loc m i) in
  (exists t l, trace m (head (stk m t (Sized c))) = Done l /\ i ∈ l) \/ (exists b, held A c i b) ->
  exists lv : gset Z, (forall b, b ∈ lv <-> held A c i b) /\
    abs (free (loc m i)) ## lv /\ abs (free (loc m i)) ⊆ below (blocks c) /\
    Z.of_nat (size (abs (free (loc m i)))) + Z.of_nat (size lv) = d_inner (rem m i) /\ d_inner (rem m i) <= blocks c.
Proof.
  intros Hcfg Hbase Hr Hk m c Huse. destruct (reach_sim k s A Hcfg Hbase Hr Hk) as (g & HI & HR). fold m in HI, HR.
  pose proof (inv_li _ _ _ _ HI) as HL.
  assert (slab_part c (live g i) (rf g i) (free (loc m i)) (d_inner (rem m i))) as Hsp.
  { destruct Huse as [(t & l & Hl & Hi)|[b Hb]].
    - pose proof (li_chain _ _ _ HL (PSz t c) ltac:(done)) as Hch.
      pose proof (li_nodup _ _ _ HL (PSz t c) ltac:(done)) as Hnd.
      pose proof (trace_chain _ _ _ Hch Hnd) as Htr. simpl in Htr. rewrite Hl in Htr. injection Htr as ->.
      apply (li_mem _ _ _ HL) in Hi; [|done].
      pose proof (inv_slab _ _ _ _ HI i ltac:(done)) as Hs. rewrite Hi in Hs. apply Hs.
    - apply (held_live k g) in Hb; [|done..]. by destruct (live_place _ _ _ _ _ HI Hb) as [Hsp _]. }
  destruct Hsp as [Hcw Hw Hall Hfl Hfr Hlr Hrem]. exists (live g i). split_and!.
  - intros b. symmetry. by apply (held_live k g).
  - done.
  - rewrite <- Hall. set_solver.
  - rewrite Hrem. assert (Z.of_nat (size (below (blocks c))) = blocks c) as Hn.
    { apply size_below. pose proof (blocks_pos c Hcw). lia. }
    rewrite <- Hall, size_union, size_union in Hn by set_solver. lia.
  - rewrite Hrem. lia.
Qed.


(** C15: the stack invariants the code documents ([Owned::is_valid]), except
    for the length of the sized stacks, hold of
    every thread in every reachable state: the unsized stack is acyclic, its
    counter is its length and the thread owns its slabs; every slab of a sized
    stack has the stack's class, this owner and a non-empty, consistent
    bitset; the counter of a sized stack is at least its length (it may be
    more, see [sized_len_drift]); and no slab is in two stacks. *)
Theorem stacks_valid k s A t c :
  cfg_ok cfg -> 0 <= base -> reach k s A -> k < 2 ^ 64 ->
  let m := hs_mem s in
  exists lu ls, trace m (head (stk m t Unsized)) = Done lu /\ trace m (head (stk m t (Sized c))) = Done ls /\
    stack_is_valid m (stk m t Unsized) = true /\
    (forall i, i ∈ lu -> owner (loc m i) = Some t) /\
    (forall i, i ∈ ls -> owner (loc m i) = Some t /\ class (loc m i) = c /\
       wf (free (loc m i)) /\ abs (free (loc m i)) <> ∅) /\
    Z.of_nat (length ls) <= Slab.len (stk m t (Sized c)) /\
    NoDup (lu ++ ls).
Proof.
  intros Hcfg Hbase Hr Hk m. destruct (reach_sim k s A Hcfg Hbase Hr Hk) as (g & HI & HR). fold m in HI, HR.
  pose proof (inv_li _ _ _ _ HI) as HL.
  pose proof (li_chain _ _ _ HL (PUn t) ltac:(done)) as HcU. pose proof (li_chain _ _ _ HL (PSz t c) ltac:(done)) as HcS.
  pose proof (li_nodup _ _ _ HL (PUn t) ltac:(done)) as HnU. pose proof (li_nodup _ _ _ HL (PSz t c) ltac:(done)) as HnS.
  exists (lst g (PUn t)), (lst g (PSz t c)). split_and!.
  - by apply trace_chain.
  - by apply trace_chain.
  - unfold stack_is_valid. rewrite (valid_walk_chain m _ _ _ HcU), (inv_un _ _ _ _ HI t), Nat2Z.id. apply Nat.eqb_refl.
  - intros i Hi. apply (li_mem _ _ _ HL) in Hi; [|done].
    pose proof (inv_slab _ _ _ _ HI i ltac:(done)) as Hs. rewrite Hi in Hs. apply Hs.
  - intros i Hi. apply (li_mem _ _ _ HL) in Hi; [|done].
    pose proof (inv_slab _ _ _ _ HI i ltac:(done)) as Hs. rewrite Hi in Hs.
    destruct Hs as (Ho & Hc & Hsp & Hne). split_and!; [done|done|apply Hsp|done].
  - apply (inv_sz _ _ _ _ HI).
  - apply NoDup_app. split_and!; [done| |done]. intros i HiU HiS.
    apply (li_mem _ _ _ HL) in HiU, HiS; [|done..]. congruence.
Qed.
End sys.

(** ** Concrete executions *)

Lemma default_cfg_ok : cfg_ok (default_cfg false).
Proof. by split. Qed.

Definition hs0 : HS := mkHS (mkCtx ∅ ∅) zero_mem [].

(** Runs a list of calls; the last state and the results. *)
Fixpoint exec_all (cfg : Cfg) `{Bracket} `{IntoState} (l : list hop) (s : HS) : outcome (HS * list (option Z)) :=
  match l with
  | [] => Done (s, [])
  | o :: l => obind (exec cfg 0 o s) (fun '(s, r) =>
              obind (exec_all cfg l s) (fun '(s, rs) => Done (s, r :: rs)))
  end.

Definition state_after `{Bracket} `{IntoState} (l : list hop) : HS :=
  match exec_all (default_cfg false) l hs0 with Done (s, _) => s | _ => hs0 end.

Lemma heap_refines_witness :
  let B := Small.bracket in let I := small_into in
  exists s' r, exec (default_cfg false) 0 (HAlloc 1 3) hs0 = Done (s', r) /\
    astep ∅ (HAlloc 1 3) r (observe (HAlloc 1 3) r ∅).
Proof.
  intros B I. apply (heap_refines (default_cfg false) 0 0); [apply default_cfg_ok|lia|by constructor|lia|].
  vm_compute. intuition discriminate.
Defined.

(** Thread 1 allocates two blocks, thread 2 frees the first one. *)
Definition demo : list hop := [HAlloc 1 3; HAlloc 1 3; HFree 2 32768].

Lemma demo_reach :
  let B := Small.bracket in let I := small_into in
  reach (default_cfg false) 0 2 (state_after (take 2 demo)) (<[32792 := 3]> (<[32768 := 3]> ∅)).
Proof.
  intros B I.
  apply (reach_step _ _ 1 (state_after (take 1 demo)) (<[32768 := 3]> ∅) (HAlloc 1 3) _ (Some 32792)).
  - apply (reach_step _ _ 0 hs0 ∅ (HAlloc 1 3) _ (Some 32768)); [by constructor|vm_compute; intuition discriminate|by vm_compute].
  - vm_compute; intuition discriminate.
  - by vm_compute.
Qed.

(** Of the slab of 24-byte blocks two are held. *)
Lemma blocks_accounted_witness :
  let B := Small.bracket in let I := small_into in
  let m := (state_after (take 2 demo)).(hs_mem) in
  exists lv : gset Z, 0 ∈ lv /\ 1 ∈ lv /\ abs (free (loc m 1)) ## lv /\
    Z.of_nat (size (abs (free (loc m 1)))) + Z.of_nat (size lv) = d_inner (rem m 1).
Proof.
  intros B I m.
  destruct (blocks_accounted (default_cfg false) 0 2 _ _ 1 default_cfg_ok ltac:(lia) demo_reach ltac:(lia))
    as (lv & H1 & H2 & _ & H3 & _).
  - left. exists 1, [1]. split; [by vm_compute|by left].
  - exists lv. split; [refine (proj2 (H1 0) _)|split; [refine (proj2 (H1 1) _)|split; [exact H2|exact H3]]].
    all: vm_compute; split; [split; [discriminate|reflexivity]|reflexivity].
Defined.


Lemma stacks_valid_witness :
  let B := Small.bracket in let I := small_into in
  exists lu ls, trace (state_after (take 2 demo)).(hs_mem) (head (stk (state_after (take 2 demo)).(hs_mem) 1 Unsized)) = Done lu /\
    trace (state_after (take 2 demo)).(hs_mem) (head (stk (state_after (take 2 demo)).(hs_mem) 1 (Sized 3))) = Done ls /\
    NoDup (lu ++ ls).
Proof.
  intros B I.
  destruct (stacks_valid (default_cfg false) 0 2 _ _ 1 3 default_cfg_ok ltac:(lia) demo_reach ltac:(lia))
    as (lu & ls & H1 & H2 & _ & _ & _ & _ & H3). exists lu, ls. split; [exact H1|]. split; [exact H2|exact H3].
Defined.

(** the length counter of a sized stack drifts. Removing a slab that is
    not on top of its sized stack ([sized_to_unsized], the [else] branch) does
    not decrement the counter: with two-block slabs, allocating three blocks
    and freeing the first and the third leaves one slab in the stack and a
    counter of two. The release build carries on; in a build with validation
    or debug assertions the next [is_valid] check panics. *)
Theorem sized_len_drift :
  let B := Large.bracket in let I := large_into in
  let calls := [HAlloc 1 8; HAlloc 1 8; HAlloc 1 8; HFree 1 524288; HFree 1 1048576] in
  let k := stk (state_after calls).(hs_mem) 1 (Sized 8) in
  trace (state_after calls).(hs_mem) (head k) = Done [1] /\ Slab.len k = 2 /\
  owned_is_valid 1 (state_after calls).(hs_mem) = false /\
  exec_all (default_cfg true) calls hs0 = Panic.
Proof. vm_compute. done. Qed.
