(* ===== verification/HeapFrame.v ===== *)
(** * HeapFrame: the bump pointer of a heap

    Only [Shared::bump] moves the bump pointer: releasing a block keeps it, an
    allocation moves it up by at most one batch. *)

From Stdlib Require Import ZArith Lia.
From stdpp Require Import base numbers option list gmap.
From S2P Require Import Prelude Bitset Size Data Cas Slab Heap HeapInv.
Local Open Scope Z_scope.
Local Open Scope prog_scope.

Section frame.
Context (cfg : Cfg) `{B : Bracket} `{IS : IntoState}.

Definition keeps {A} (m : M HS A) : Prop :=
  forall s s' a, m s = Done (s', a) -> shared_bump (hs_mem s') = shared_bump (hs_mem s).

Lemma keeps_ret {A} (a : A) : keeps (ret a).
Proof. by intros s s' b [= <- <-]. Qed.
Lemma keeps_gets {A} (f : HS -> A) : keeps (gets f).
Proof. by intros s s' b [= <- <-]. Qed.
Lemma keeps_lift {A} (o : outcome A) : keeps (lift o).
Proof. intros s s' b. unfold lift. destruct o; naive_solver. Qed.
Lemma keeps_panic {A} : keeps (panic (A := A)).
Proof. by intros s s' b. Qed.
Lemma keeps_diverge {A} : keeps (diverge (A := A)).
Proof. by intros s s' b. Qed.
Lemma keeps_undef {A} : keeps (undef (A := A)).
Proof. by intros s s' b. Qed.
Lemma keeps_bind {A C} (m : M HS A) (k : A -> M HS C) :
  keeps m -> (forall a, keeps (k a)) -> keeps (bind m k).
Proof.
  intros Hm Hk s s' b. unfold bind. destruct (m s) as [[s1 a]| | |] eqn:E; simpl; try done.
  intros E2. rewrite (Hk _ _ _ _ E2). by eapply Hm.
Qed.
Lemma keeps_modify (f : HS -> HS) :
  (forall s, shared_bump (hs_mem (f s)) = shared_bump (hs_mem s)) -> keeps (modify f).
Proof. intros Hf s s' b [= <- <-]. apply Hf. Qed.
Lemma keeps_unwrap {A} (o : option A) : keeps (unwrap o).
Proof. destruct o; [apply keeps_ret|apply keeps_panic]. Qed.
Lemma keeps_assert b : keeps (assert_ (S := HS) b).
Proof. destruct b; [apply keeps_ret|apply keeps_panic]. Qed.
Lemma keeps_when b m : keeps m -> keeps (when_ b m).
Proof. destruct b; [done|intros _; apply keeps_ret]. Qed.
Lemma keeps_with_ctx f : keeps (with_ctx (S := HS) f).
Proof. by apply keeps_modify. Qed.

Create HintDb keeps discriminated.
#[local] Hint Resolve keeps_ret keeps_gets keeps_lift keeps_panic keeps_diverge keeps_undef keeps_unwrap keeps_assert keeps_with_ctx : keeps.
#[local] Hint Extern 2 (keeps (modify _)) => apply keeps_modify; intros; reflexivity : keeps.

(** Walks through a program by its structure. *)
Ltac keeps_go := repeat first
  [ solve [eauto with keeps]
  | apply keeps_bind; [|intros ?]
  | apply keeps_when
  | match goal with
    | |- keeps (if ?b then _ else _) => destruct b
    | |- keeps (match ?x with _ => _ end) => destruct x
    end ].

Lemma keeps_help {T} id (st : DState T) : keeps (help (S := HS) cfg id st).
Proof. unfold help, help_store. keeps_go. Qed.
Lemma keeps_log id h : keeps (log_ (S := HS) cfg id h).
Proof. unfold log_, log_unsync. keeps_go. Qed.
Lemma keeps_log_unsync id h : keeps (log_unsync (S := HS) cfg id h).
Proof. unfold log_unsync. keeps_go. Qed.
Lemma keeps_set_local i f : keeps (set_local i f).
Proof. unfold set_local. keeps_go. Qed.
Lemma keeps_get_stack t r : keeps (get_stack t r).
Proof. unfold get_stack. keeps_go. Qed.
Lemma keeps_put_stack t r k : keeps (put_stack t r k).
Proof. unfold put_stack. keeps_go. Qed.
Lemma keeps_get_local i : keeps (get_local i).
Proof. unfold get_local. keeps_go. Qed.
Lemma keeps_record id e : keeps (record cfg id e).
Proof. unfold record. keeps_go. Qed.
#[local] Hint Resolve keeps_help keeps_log keeps_log_unsync keeps_set_local keeps_get_stack keeps_put_stack keeps_get_local keeps_record : keeps.

(** Cells other than the bump pointer. *)
Definition other {T} (c : cell HS T) : Prop :=
  forall d s, shared_bump (hs_mem (cput c d s)) = shared_bump (hs_mem s).

Lemma keeps_load {T} id (c : cell HS T) : keeps (load cfg id c).
Proof. unfold load. keeps_go. Qed.

Lemma keeps_store {T} id (c : cell HS T) v : other c -> keeps (store cfg id c v).
Proof. intros Hc. unfold store. keeps_go. apply keeps_modify. intros s. apply Hc. Qed.

Lemma keeps_update {T} `{EqDecision T} id (c : cell HS T) nx :
  other c -> (forall x v, keeps (nx x v)) -> keeps (update cfg [] id c nx).
Proof.
  intros Hc Hn. assert (forall d, keeps (modify (cput c d))) as Hm by (intros d; apply keeps_modify; intros s; apply Hc).
  unfold update, update_loop, help_store. keeps_go; eauto.
Qed.

Lemma other_remote i : other (remote_cell i).
Proof. done. Qed.
Lemma other_free : other free_cell.
Proof. done. Qed.
#[local] Hint Resolve keeps_load keeps_store keeps_update other_remote other_free : keeps.

Lemma keeps_stack_push t r i : keeps (stack_push cfg t r i).
Proof. unfold stack_push, usize. keeps_go. Qed.
Lemma keeps_stack_pop t r : keeps (stack_pop cfg t r).
Proof. unfold stack_pop, usize. keeps_go. Qed.
Lemma keeps_stack_peek t r : keeps (stack_peek t r).
Proof. unfold stack_peek. keeps_go. Qed.
Lemma keeps_stack_len t r : keeps (stack_len t r).
Proof. unfold stack_len. keeps_go. Qed.
Lemma keeps_disown id i : keeps (disown cfg id i).
Proof. unfold disown, validate_. keeps_go. Qed.
Lemma keeps_own id i : keeps (own cfg id i).
Proof. unfold own, validate_. keeps_go. Qed.
Lemma keeps_validate_owned id : keeps (validate_owned cfg id).
Proof. unfold validate_owned, validate_. keeps_go. Qed.
#[local] Hint Resolve keeps_stack_push keeps_stack_pop keeps_stack_peek keeps_stack_len keeps_disown keeps_own keeps_validate_owned : keeps.

Lemma keeps_link id start n h : keeps (link cfg id start n h).
Proof. revert start. induction n as [|n IH]; intros start; simpl; keeps_go. Qed.
Lemma keeps_disown_all id l : keeps (disown_all cfg id l).
Proof. induction l as [|i l IH]; simpl; keeps_go. Qed.
Lemma keeps_global_push id h t : keeps (global_push cfg id h t).
Proof. unfold global_push. keeps_go. Qed.
Lemma keeps_shared_pop id : keeps (shared_pop cfg id).
Proof.
  unfold shared_pop, global_is_empty, global_pop. keeps_go.
Qed.
#[local] Hint Resolve keeps_link keeps_disown_all keeps_global_push keeps_shared_pop : keeps.

Lemma keeps_pop base id c i b : keeps (pop cfg base id c i b).
Proof. unfold pop, detach. keeps_go. Qed.

Lemma keeps_unsized_to_sized id c : keeps (unsized_to_sized cfg id c).
Proof. unfold unsized_to_sized, usize, stack_set. keeps_go. Qed.

Lemma keeps_unsized_to_global id : keeps (unsized_to_global cfg id).
Proof. unfold unsized_to_global, usize, stack_set, shared_push. keeps_go. Qed.
#[local] Hint Resolve keeps_unsized_to_sized keeps_unsized_to_global : keeps.

Lemma keeps_heap_free id o : keeps (heap_free cfg id o).
Proof.
  unfold heap_free, free_remote, claim, steal, attach, sized_to_unsized, usize, stack_set. keeps_go.
Qed.

(** ** The bump pointer moves up by one batch *)
Definition grows {A} (m : M HS A) : Prop :=
  forall s s' a, m s = Done (s', a) ->
    bumpv (hs_mem s) <= bumpv (hs_mem s') <= bumpv (hs_mem s) + wrap 32 (BATCH_BUMP_POP cfg).

Lemma batch_nonneg : 0 <= wrap 32 (BATCH_BUMP_POP cfg).
Proof. unfold wrap. apply Z.mod_pos_bound. lia. Qed.

Lemma keeps_grows {A} (m : M HS A) : keeps m -> grows m.
Proof. intros Hm s s' a E. unfold bumpv. rewrite (Hm _ _ _ E). pose proof batch_nonneg. lia. Qed.

Lemma grows_bind_l {A C} (m : M HS A) (k : A -> M HS C) : keeps m -> (forall a, grows (k a)) -> grows (bind m k).
Proof.
  intros Hm Hk s s' b. unfold bind. destruct (m s) as [[s1 a]| | |] eqn:E; simpl; try done.
  intros E2. specialize (Hk _ _ _ _ E2). unfold bumpv in *. by rewrite (Hm _ _ _ E) in Hk.
Qed.

Lemma grows_bind_r {A C} (m : M HS A) (k : A -> M HS C) : grows m -> (forall a, keeps (k a)) -> grows (bind m k).
Proof.
  intros Hm Hk s s' b. unfold bind. destruct (m s) as [[s1 a]| | |] eqn:E; simpl; try done.
  intros E2. specialize (Hm _ _ _ E). unfold bumpv in *. by rewrite (Hk _ _ _ _ E2).
Qed.

Lemma grows_update id nx :
  (forall old v s s' r, nx old v s = Done (s', r) -> shared_bump (hs_mem s') = shared_bump (hs_mem s) /\
     forall new h, r = Some (new, h) ->
       default index_MIN old <= default index_MIN new <= default index_MIN old + wrap 32 (BATCH_BUMP_POP cfg)) ->
  grows (update cfg [] id bump_cell nx).
Proof.
  intros Hn. unfold update. apply grows_bind_l; [keeps_go|intros v]. apply grows_bind_l; [unfold help_store; keeps_go|intros _].
  intros s s' a. unfold bind at 1, gets at 1. simpl obind. cbn [update_loop]. intros H.
  unfold bind at 1 in H. destruct (help cfg id _ s) as [[s1 []]| | |] eqn:E1; simpl in H; try done.
  pose proof (keeps_help _ _ _ _ _ E1) as K1.
  unfold bind at 1 in H. destruct (nx _ v s1) as [[s2 r]| | |] eqn:E2; simpl in H; try done.
  destruct (Hn _ _ _ _ _ E2) as [K2 Hr]. destruct r as [[new lg]|].
  2: { injection H as <- <-. unfold bumpv. rewrite K2, K1. pose proof batch_nonneg. lia. }
  unfold bind at 1 in H. destruct (log_unsync cfg id lg s2) as [[s3 []]| | |] eqn:E3; simpl in H; try done.
  assert (shared_bump (hs_mem s3) = shared_bump (hs_mem s2)) as K3.
  { revert E3. unfold log_unsync. destruct (negb _); [by intros [= <-]|]. by intros [= <-]. }
  unfold bind at 1, gets at 1 in H. simpl in H. destruct (decide _) as [Ed|]; [|done].
  injection H as <- <-. unfold bumpv. simpl. specialize (Hr new lg eq_refl). simpl in Hr. lia.
Qed.

Lemma grows_bump id : grows (bump cfg id).
Proof.
  unfold bump. apply grows_bind_r; [|intros; keeps_go]. apply grows_update. intros old v s s' r.
  unfold bind, lift, index_add, checked_add. case_match eqn:E; simpl; [|done]. case_match eqn:E2; [|done].
  injection E as <-. intros [= <- <-]. split; [done|]. intros new h [= <- <-]. simpl. pose proof batch_nonneg. lia.
Qed.

Lemma grows_peek id c : grows (peek cfg id c).
Proof.
  unfold peek. apply grows_bind_l; [keeps_go|intros h]. apply grows_bind_r; [|intros; keeps_go].
  destruct h as [i|]; [apply keeps_grows; keeps_go|]. unfold allocate.
  destruct (is_zero c); [apply keeps_grows; keeps_go|]. apply grows_bind_l; [keeps_go|intros b].
  destruct b; [apply keeps_grows; keeps_go|]. apply grows_bind_l; [keeps_go|intros g].
  apply grows_bind_r; [|intros; keeps_go]. destruct g; [apply keeps_grows; keeps_go|].
  apply grows_bind_r; [apply grows_bump|intros]. unfold stack_set. keeps_go.
Qed.
End frame.
