(* ===== verification/CasProto.v ===== *)
(** * CasProto: the detectable-CAS protocol under interleaving

    Small steps of [Detectable::update], [Detectable::load] and
    [Detectable::store] (cxlalloc/src/cas.rs) on any number of cells that share
    one help array, made by any number of threads, and what
    [Detectable::detect] can conclude when a crashed thread recovers. *)

From Stdlib Require Import ZArith Lia.
From stdpp Require Import base numbers option gmap functions list.
From S2P Require Import Prelude Bitset Size Data Cas.
Local Open Scope Z_scope.
Local Open Scope prog_scope.

(** ** The step relation *)
Section proto.
Context {T : Type} `{EqDecision T}.

(** What a thread is doing with a cell; an update carries the version drawn. *)
Inductive call :=
| CLoad
| CStore (value : T)
| CUpdate (version : Z).

(** Where a thread is inside its call on cell [c]: an update has drawn its
    version; the state was loaded; the state was passed to [help]. *)
Inductive pc :=
| Idle
| Started (v c : Z)
| Loaded (k : call) (c : Z) (old : DState T)
| Helped (k : call) (c : Z) (old : DState T).

Record PS := mkPS {
  ps_ctx : Ctx;
  ps_cells : Z -> DState T;
  ps_pc : Z -> pc;
}.

#[export] Instance PS_ctx : HasCtx PS := {|
  get_ctx := ps_ctx;
  set_ctx x s := mkPS x (ps_cells s) (ps_pc s);
|}.

Definition the_cell (c : Z) : cell PS T :=
  mkCell (fun s => ps_cells s c) (fun d s => mkPS (ps_ctx s) (<[c := d]> (ps_cells s)) (ps_pc s)).

Definition goto (j : Z) (p : pc) (s : PS) : PS := mkPS (ps_ctx s) (ps_cells s) (<[j := p]> (ps_pc s)).

(** [help] on the recorded state, as the code performs it. *)
Definition help_step (j : Z) (st : DState T) (x : Ctx) : Ctx :=
  match d_id st with None => x | Some k => help_put j k (d_version st) x end.

(** Thread [j] writes [d] to cell [c] and its call ends. *)
Definition wrote (j c : Z) (d : DState T) (s : PS) : PS :=
  mkPS (ps_ctx s) (<[c := d]> (ps_cells s)) (<[j := Idle]> (ps_pc s)).

(** One step of thread [j]. A load ends after helping, and so does an update
    whose [next] refuses. *)
Inductive pstep (j : Z) : PS -> PS -> Prop :=
| p_begin s v c :
    ps_pc s j = Idle -> v = version_next (help_load (ps_ctx s) j j) ->
    pstep j s (mkPS (help_put j j v (ps_ctx s)) (ps_cells s) (<[j := Started v c]> (ps_pc s)))
| p_load_update s v c :
    ps_pc s j = Started v c -> pstep j s (goto j (Loaded (CUpdate v) c (ps_cells s c)) s)
| p_load s c :
    ps_pc s j = Idle -> pstep j s (goto j (Loaded CLoad c (ps_cells s c)) s)
| p_load_store s c x :
    ps_pc s j = Idle -> pstep j s (goto j (Loaded (CStore x) c (ps_cells s c)) s)
| p_help s k c old :
    ps_pc s j = Loaded k c old ->
    pstep j s (mkPS (help_step j old (ps_ctx s)) (ps_cells s) (<[j := Helped k c old]> (ps_pc s)))
| p_cas_ok s v c old new :
    ps_pc s j = Helped (CUpdate v) c old -> ps_cells s c = old ->
    pstep j s (wrote j c (mkD (Some j) v new) s)
| p_cas_fail s v c old :
    ps_pc s j = Helped (CUpdate v) c old -> ps_cells s c <> old ->
    pstep j s (goto j (Loaded (CUpdate v) c (ps_cells s c)) s)
| p_store s x c old :
    ps_pc s j = Helped (CStore x) c old ->
    pstep j s (wrote j c (mkD (Some j) 0 x) s)
| p_end s k c old :
    ps_pc s j = Helped k c old -> (forall x, k <> CStore x) -> pstep j s (goto j Idle s).

(** Steps of threads allowed by [P]. *)
Inductive psteps (P : Z -> Prop) : PS -> PS -> Prop :=
| psteps_refl s : psteps P s s
| psteps_step s s' s'' j : id_wf j -> P j -> pstep j s s' -> psteps P s' s'' -> psteps P s s''.

Definition ps_init (x : Z -> T) : PS := mkPS (mkCtx ∅ ∅) (fun c => mkD None 0 (x c)) (fun _ => Idle).

(** The version of the update a thread is in, before its compare-exchange. *)
Definition updating (p : pc) : option (Z * Z) :=
  match p with
  | Started v c | Loaded (CUpdate v) c _ | Helped (CUpdate v) c _ => Some (v, c)
  | _ => None
  end.

(** Thread [i] is not about to pass a state of its own to [help]. *)
Definition apart_from_self (i : Z) (s : PS) : Prop :=
  forall k c old, ps_pc s i = Loaded k c old -> d_id old <> Some i.

(** A step of thread [j] is the beginning of an update of thread [i]. *)
Definition drawn (i j : Z) (s' : PS) : Z :=
  if decide (j = i) then match ps_pc s' i with Started _ _ => 1 | _ => 0 end else 0.

(** States reached by any threads in which thread [i] began [n] updates and
    never loaded a state that it wrote itself. *)
Inductive reach (i : Z) (x : Z -> T) : Z -> PS -> Prop :=
| reach_init : reach i x 0 (ps_init x)
| reach_step n s s' j :
    reach i x n s -> id_wf j -> pstep j s s' -> apart_from_self i s' -> reach i x (n + drawn i j s') s'.

(** ** Reading the help array *)
Lemma help_load_put i j v x i' j' :
  help_load (help_put i j v x) i' j' = if decide (i' = i /\ j' = j) then v else help_load x i' j'.
Proof.
  unfold help_load, help_put. simpl. case_decide as Hd; [destruct Hd as [-> ->]; by simplify_map_eq|].
  rewrite lookup_insert_ne by naive_solver. done.
Qed.

Lemma help_load_step j st x i' j' :
  help_load (help_step j st x) i' j' =
  if decide (i' = j /\ d_id st = Some j') then d_version st else help_load x i' j'.
Proof.
  unfold help_step. destruct (d_id st) as [k|] eqn:E.
  - rewrite help_load_put. repeat case_decide; naive_solver.
  - rewrite decide_False by naive_solver. done.
Qed.

Lemma filter_two (p : Z -> bool) l a b :
  NoDup l -> a ∈ l -> b ∈ l -> a <> b -> p a = true -> p b = true ->
  (2 <= length (List.filter p l))%nat.
Proof.
  intros Hnd Ha Hb Hab Hpa Hpb.
  assert ([a; b] ⊆+ List.filter p l) as Hsub.
  { apply NoDup_submseteq.
    - apply NoDup_cons. split; [set_solver|apply NoDup_singleton].
    - intros k Hk. apply list_elem_of_In, List.filter_In. rewrite <- list_elem_of_In.
      apply elem_of_cons in Hk as [->|Hk]; [done|]. apply list_elem_of_singleton in Hk as ->. done. }
  apply submseteq_length in Hsub. done.
Qed.

Lemma elem_of_help_rows j : id_wf j -> j ∈ help_rows.
Proof. intros H. unfold help_rows, id_wf in *. apply elem_of_seqZ. lia. Qed.

(** ** A thread past its [help] call has published what it loaded *)
Definition helped_ok (s : PS) : Prop :=
  forall j k c old i, ps_pc s j = Helped k c old -> d_id old = Some i ->
    help_load (ps_ctx s) j i = d_version old.

Lemma goto_pc j p (f : Z -> pc) k : (<[j := p]> f) k = if decide (k = j) then p else f k.
Proof. case_decide; [subst; by rewrite fn_lookup_insert|by rewrite fn_lookup_insert_ne]. Qed.

Lemma put_cell c d (f : Z -> DState T) k : (<[c := d]> f) k = if decide (k = c) then d else f k.
Proof. case_decide; [subst; by rewrite fn_lookup_insert|by rewrite fn_lookup_insert_ne]. Qed.

Lemma helped_ok_step j s s' : pstep j s s' -> helped_ok s -> helped_ok s'.
Proof.
  intros Hs Hok i k c old t. inversion Hs; subst; simpl; rewrite goto_pc; intros Hpc Hid.
  all: try (case_decide; [done|by eapply Hok]).
  - case_decide; [done|]. rewrite help_load_put, decide_False by naive_solver. by eapply Hok.
  - rewrite help_load_step. case_decide; simplify_eq.
    + by rewrite decide_True.
    + rewrite decide_False by naive_solver. by eapply Hok.
Qed.

(** ** What is known of a thread's marks

    [bounded b i s]: every state of thread [i] that is in a cell, is held by
    another thread or was recorded by one has a version of at most [b], and
    none is held by [i] itself. *)
Record bounded (b i : Z) (s : PS) : Prop := {
  bd_cell : forall c, d_id (ps_cells s c) = Some i -> 0 <= d_version (ps_cells s c) <= b;
  bd_row : forall j, j <> i -> 0 <= help_load (ps_ctx s) j i <= b;
  bd_pc : forall j k c old, ps_pc s j = Loaded k c old \/ ps_pc s j = Helped k c old ->
    d_id old = Some i -> 0 <= d_version old <= b /\ j <> i;
}.

Lemma bounded_weaken b b' i s : b <= b' -> bounded b i s -> bounded b' i s.
Proof.
  intros Hb [Hc Hr Hp]. split.
  - intros c Hd. specialize (Hc c Hd). lia.
  - intros j Hj. specialize (Hr j Hj). lia.
  - intros j k c old H Hd. destruct (Hp j k c old H Hd). split; [lia|done].
Qed.

(** A load keeps the bound, unless the thread meets its own state. *)
Lemma bounded_goto_load b i j k c s :
  bounded b i s -> (j = i -> d_id (ps_cells s c) <> Some i) ->
  bounded b i (goto j (Loaded k c (ps_cells s c)) s).
Proof.
  intros [Hc Hr Hp] Hj. split; simpl; [done|done|]. intros j' k' c' old. rewrite goto_pc. case_decide; [|apply Hp].
  subst. intros [[= <- <- <-]|]; [|done]. intros Hd. split; [by apply Hc|]. intros ->. by apply Hj.
Qed.

Lemma bounded_goto_idle b i j x s :
  (forall j', j' <> i -> help_load x j' i = help_load (ps_ctx s) j' i) ->
  bounded b i s -> forall p, (p = Idle \/ exists v c, p = Started v c) ->
  bounded b i (mkPS x (ps_cells s) (<[j := p]> (ps_pc s))).
Proof.
  intros Hx [Hc Hr Hp] p Hip. split; simpl; [done| |].
  - intros j' Hj'. rewrite Hx by done. by apply Hr.
  - intros j' k' c' old. rewrite goto_pc. case_decide; [|apply Hp]. naive_solver.
Qed.

Lemma bounded_wrote b i j c d s :
  bounded b i s -> (d_id d = Some i -> 0 <= d_version d <= b) -> bounded b i (wrote j c d s).
Proof.
  intros [Hc Hr Hp] Hd. split; simpl; [|done|].
  - intros c'. rewrite put_cell. case_decide; [done|apply Hc].
  - intros j' k' c' old. rewrite goto_pc. case_decide; [naive_solver|apply Hp].
Qed.

Lemma bounded_help b i j k c old s :
  bounded b i s -> ps_pc s j = Loaded k c old ->
  bounded b i (mkPS (help_step j old (ps_ctx s)) (ps_cells s) (<[j := Helped k c old]> (ps_pc s))).
Proof.
  intros [Hc Hr Hp] Hpc. split; simpl; [done| |].
  - intros j' Hj'. rewrite help_load_step. case_decide as Hd; [|by apply Hr]. destruct Hd as [-> Hd].
    by eapply Hp; [left|].
  - intros j' k' c' old'. rewrite goto_pc. case_decide; [|apply Hp]. subst.
    intros [|[= <- <- <-]]; [done|]. eapply (Hp j). by left.
Qed.

(** Steps of the other threads keep the bound and the thread's own row. *)
Lemma bounded_step_other b i j s s' : 0 <= b -> j <> i -> pstep j s s' -> bounded b i s -> bounded b i s'.
Proof.
  intros Hb Hji Hs Hbd. inversion Hs; subst; simpl in *; try (by apply bounded_goto_load);
    try (by apply bounded_wrote; [|intros [= ->]]); [| by eapply bounded_help | ].
  - apply bounded_goto_idle; [|done|by eauto]. intros j' Hj'. rewrite help_load_put, decide_False by naive_solver. done.
  - apply bounded_goto_idle; [done|done|by left].
Qed.

Lemma bounded_steps b i s s' : 0 <= b -> psteps (fun j => j <> i) s s' -> bounded b i s -> bounded b i s'.
Proof. intros Hb. induction 1; [done|]. intros Hm. apply IHpsteps. by eapply bounded_step_other. Qed.

(** Only thread [i] writes its own row and its own place. *)
Lemma own_row_step i j s s' k :
  j <> i -> pstep j s s' -> help_load (ps_ctx s') i k = help_load (ps_ctx s) i k /\ ps_pc s' i = ps_pc s i.
Proof.
  intros Hji Hs. inversion Hs; subst; simpl; rewrite ?goto_pc, ?decide_False by congruence; try done.
  - rewrite help_load_put, decide_False by naive_solver. done.
  - rewrite help_load_step, decide_False by naive_solver. done.
Qed.

Lemma own_row_steps i s s' k :
  psteps (fun j => j <> i) s s' -> help_load (ps_ctx s') i k = help_load (ps_ctx s) i k.
Proof. induction 1; [done|]. rewrite IHpsteps. by eapply own_row_step. Qed.

(** ** Versions count up while the thread does not meet itself *)
Definition top (i n : Z) (s : PS) : Z := match updating (ps_pc s i) with Some _ => n - 1 | None => n end.

Record counted (i n : Z) (s : PS) : Prop := {
  ct_row : help_load (ps_ctx s) i i = n;
  ct_nonneg : 0 <= n;
  ct_bound : bounded (top i n s) i s;
  ct_now : forall v c, updating (ps_pc s i) = Some (v, c) -> v = n /\ 0 < n;
  ct_helped : helped_ok s;
}.

Lemma counted_init i x : counted i 0 (ps_init x).
Proof. split; try done. split; [done|done|]. naive_solver. Qed.

Lemma top_nonneg i n s : counted i n s -> 0 <= top i n s <= n.
Proof.
  intros [_ Hn _ Hnow _]. unfold top. destruct (updating _) as [[v c]|] eqn:E; [|lia].
  destruct (Hnow v c eq_refl). lia.
Qed.

(** A step of thread [i] itself; [u] is what it is updating afterwards. *)
Lemma counted_step_own i n s s' :
  n + drawn i i s' < 2 ^ 16 -> pstep i s s' -> apart_from_self i s' -> counted i n s ->
  counted i (n + drawn i i s') s'.
Proof.
  intros Hlt Hs Hself Hc. pose proof (top_nonneg _ _ _ Hc) as Htop.
  pose proof (helped_ok_step _ _ _ Hs (ct_helped _ _ _ Hc)) as Hh'. destruct Hc as [Hrow Hn Hb Hnow Hh].
  revert Hlt Hself Hh'. unfold drawn, top in *. rewrite decide_True by done.
  inversion Hs; subst s'; simpl; intros Hlt Hself Hh'; rewrite ?fn_lookup_insert in *; simpl;
    rewrite ?Z.add_0_r; repeat match goal with H : ps_pc s i = _ |- _ => rewrite H in * end; simpl in *.
  - assert (v = n + 1) as ->.
    { subst v. rewrite Hrow. unfold version_next, wrap. apply Z.mod_small. lia. }
    split; simpl; rewrite ?fn_lookup_insert; simpl; [|lia| |naive_solver lia|done].
    + by rewrite help_load_put, decide_True.
    + unfold top; simpl. rewrite fn_lookup_insert. simpl. replace (n + 1 - 1) with n by lia.
      apply bounded_goto_idle; [|done|by eauto]. intros j' Hj'. by rewrite help_load_put, decide_False by naive_solver.
  - split; simpl; unfold top; simpl; rewrite ?fn_lookup_insert; simpl; try done.
    apply bounded_goto_load; [done|]. intros _. eapply Hself. simpl. by rewrite fn_lookup_insert.
  - split; simpl; unfold top; simpl; rewrite ?fn_lookup_insert; simpl; try done.
    apply bounded_goto_load; [done|]. intros _. eapply Hself. simpl. by rewrite fn_lookup_insert.
  - split; simpl; unfold top; simpl; rewrite ?fn_lookup_insert; simpl; try done.
    apply bounded_goto_load; [done|]. intros _. eapply Hself. simpl. by rewrite fn_lookup_insert.
  - split; simpl; unfold top; simpl; rewrite ?fn_lookup_insert; simpl; try done.
    + rewrite help_load_step, decide_False; [done|]. intros [_ Hd].
      destruct (bd_pc _ _ _ Hb i k c old) as [_ Hne]; [by left|done|done].
    + by apply bounded_help.
  - destruct (Hnow v c eq_refl) as [-> _]. split; simpl; unfold top; simpl; rewrite ?fn_lookup_insert; simpl; try done.
    apply bounded_wrote; [|simpl; lia]. eapply bounded_weaken; [|done]. lia.
  - split; simpl; unfold top; simpl; rewrite ?fn_lookup_insert; simpl; try done.
    apply bounded_goto_load; [done|]. intros _. eapply Hself. simpl. by rewrite fn_lookup_insert.
  - split; simpl; unfold top; simpl; rewrite ?fn_lookup_insert; simpl; try done.
    apply bounded_wrote; [|simpl; lia]. done.
  - split; simpl; unfold top; simpl; rewrite ?fn_lookup_insert; simpl; try done.
    apply bounded_goto_idle; [done| |by left]. eapply bounded_weaken; [|done]. lia.
Qed.

Lemma counted_step_other i j n s s' : j <> i -> pstep j s s' -> counted i n s -> counted i n s'.
Proof.
  intros Hji Hs Hc. pose proof (top_nonneg _ _ _ Hc) as Htop. destruct Hc as [Hrow Hn Hb Hnow Hh].
  destruct (own_row_step i j s s' i Hji Hs) as [Er Ep]. split; unfold top in *; rewrite ?Er, ?Ep; try done.
  - eapply bounded_step_other; [lia|done|done|done].
  - by eapply helped_ok_step.
Qed.

Lemma drawn_nonneg i j s : 0 <= drawn i j s.
Proof. unfold drawn. case_decide; [|done]. by destruct (ps_pc s i). Qed.

Lemma counted_reach i x n s : reach i x n s -> n < 2 ^ 16 -> counted i n s.
Proof.
  induction 1 as [|n s s' j Hr IH Hj Hs Hself]; [intros _; apply counted_init|]. intros Hlt.
  pose proof (drawn_nonneg i j s') as Hd. specialize (IH ltac:(lia)).
  destruct (decide (j = i)) as [->|Hji]; [by eapply counted_step_own|].
  unfold drawn. rewrite decide_False by done. rewrite Z.add_0_r. by eapply counted_step_other.
Qed.

(** ** [detect] *)
Lemma detect_run i c v s :
  help_load (ps_ctx s) i i = v -> detect i (the_cell c) v s = Done (s, detected (ps_ctx s) (ps_cells s c) i v).
Proof. intros Hv. unfold detect, bind, gets, ret, obind, assert_. simpl. by rewrite Hv, Z.eqb_refl. Qed.

Lemma filter_one (p : Z -> bool) l a :
  NoDup l -> (forall k, k ∈ l -> k <> a -> p k = false) -> (length (List.filter p l) <= 1)%nat.
Proof.
  intros Hnd Hp. assert (List.filter p l ⊆+ [a]) as Hsub; [|by apply submseteq_length in Hsub].
  apply NoDup_submseteq.
  - apply NoDup_ListNoDup, List.NoDup_filter. by apply NoDup_ListNoDup.
  - intros k Hk. apply list_elem_of_In, List.filter_In in Hk as [Hk Hpk]. apply list_elem_of_In in Hk.
    apply list_elem_of_singleton. destruct (decide (k = a)) as [|Hne]; [done|]. rewrite (Hp k Hk Hne) in Hpk. done.
Qed.

Lemma bounded_detected b i c v s : bounded b i s -> b < v -> detected (ps_ctx s) (ps_cells s c) i v = false.
Proof.
  intros [Hc Hr _] Hv. unfold detected. apply orb_false_iff. split.
  - apply andb_false_iff. destruct (decide (d_id (ps_cells s c) = Some i)) as [E|E];
      [right; apply Z.eqb_neq; specialize (Hc c E); lia|left; by apply bool_decide_eq_false_2].
  - apply Z.ltb_ge. pose proof (filter_one (fun k => help_load (ps_ctx s) k i =? v) help_rows i (NoDup_seqZ _ _)).
    lapply H; [lia|]. intros k _ Hk. apply Z.eqb_neq. specialize (Hr k Hk). lia.
Qed.

(** ** The mark of a crashed thread survives *)

(** Nothing but cell [c] can still bring up a state of thread [i]: no other
    cell holds one, no thread is about to record one, and no thread is about
    to store into [c] blindly. *)
Record unseen (i c : Z) (s : PS) : Prop := {
  un_cell : forall c', c' <> c -> d_id (ps_cells s c') <> Some i;
  un_pc : forall j k c' old, ps_pc s j = Loaded k c' old -> d_id old <> Some i;
  un_store : forall j x old, ps_pc s j <> Loaded (CStore x) c old /\ ps_pc s j <> Helped (CStore x) c old;
}.

Section crashed.
Context (i v c : Z) (Hi : id_wf i).

(** Every thread about to store into the cell has loaded the state of [i]. *)
Definition stores_know (s : PS) : Prop :=
  forall j x old, ps_pc s j = Loaded (CStore x) c old \/ ps_pc s j = Helped (CStore x) c old ->
    d_id old = Some i /\ d_version old = v.

(** Thread [i] is down after its compare-exchange of cell [c] with version [v]:
    the cell still holds its state, or another thread has recorded it and
    meets no other state of [i]. *)
Record marked (s : PS) : Prop := {
  mk_ok : helped_ok s;
  mk_cell : forall c', d_id (ps_cells s c') = Some i -> d_version (ps_cells s c') = v;
  mk_pc : forall j k c' old, ps_pc s j = Loaded k c' old -> d_id old = Some i -> d_version old = v;
  mk_mark : d_id (ps_cells s c) = Some i /\ stores_know s \/
    exists j, id_wf j /\ j <> i /\ help_load (ps_ctx s) j i = v;
}.

(** A load shows the mark at most. *)
Lemma marked_goto j s p :
  helped_ok (goto j p s) -> marked s ->
  (p = Idle \/ exists k c', p = Loaded k c' (ps_cells s c')) -> marked (goto j p s).
Proof.
  intros Hh [Hok Hcell Hpc Hmark] Hp. split; [done|done| |]; simpl.
  - intros j' k' c' old. rewrite goto_pc. case_decide; [|apply Hpc].
    destruct Hp as [->|(k & c1 & ->)]; [done|]. intros [= <- <- <-]. apply Hcell.
  - destruct Hmark as [[Hd Hst]|Hm]; [left|by right]. split; [done|]. intros j' x old. simpl. rewrite goto_pc.
    case_decide; [|apply Hst]. destruct Hp as [->|(k & c1 & ->)]; [naive_solver|].
    intros [[= -> -> <-]|]; [|done]. split; [done|by apply Hcell].
Qed.

(** Overwriting cells leaves a record behind. *)
Lemma marked_wrote j d s k old :
  id_wf j -> j <> i -> d_id d = Some j -> marked s -> forall c', ps_pc s j = Helped k c' old ->
  (c' = c -> d_id (ps_cells s c) = Some i -> stores_know s -> d_id old = Some i /\ d_version old = v) ->
  helped_ok (wrote j c' d s) -> marked (wrote j c' d s).
Proof.
  intros Hj Hji Hd [Hok Hcell Hpc Hmark] c' Hp Hold Hh. split; [done| | |]; simpl.
  - intros c1. rewrite put_cell. case_decide; [congruence|apply Hcell].
  - intros j' k' c1 old'. rewrite goto_pc. case_decide; [done|apply Hpc].
  - destruct Hmark as [[Hid Hst]|Hm]; [|by right]. rewrite put_cell. destruct (decide (c = c')) as [<-|Hne].
    + right. exists j. split_and!; [done|done|]. destruct Hold as [Ho Hv]; [done..|]. rewrite <- Hv. by eapply Hok.
    + left. split; [done|]. intros j' x old'. simpl. rewrite goto_pc. case_decide; [naive_solver|apply Hst].
Qed.

Lemma marked_step j s s' : id_wf j -> j <> i -> pstep j s s' -> marked s -> marked s'.
Proof.
  intros Hj Hji Hs Hm. pose proof (helped_ok_step _ _ _ Hs (mk_ok _ Hm)) as Hok'.
  inversion Hs; subst; try (by apply marked_goto; eauto).
  - destruct Hm as [Hok Hcell Hpc Hmark]. split; simpl; [done|done| |].
    + intros j' k' c' old. rewrite goto_pc. case_decide; [done|apply Hpc].
    + destruct Hmark as [[Hd Hst]|(k & Hk & Hki & Hv)]; [left|right].
      * split; [done|]. intros j' x old. simpl. rewrite goto_pc. case_decide; [naive_solver|apply Hst].
      * exists k. split_and!; [done|done|]. by rewrite help_load_put, decide_False by naive_solver.
  - destruct Hm as [Hok Hcell Hpc Hmark]. split; simpl; [done|done| |].
    + intros j' k' c' old'. rewrite goto_pc. case_decide; [done|apply Hpc].
    + destruct Hmark as [[Hd Hst]|(t & Ht & Hti & Hv)]; [left|right].
      * split; [done|]. intros j' x old'. simpl. rewrite goto_pc. case_decide; [|apply Hst].
        intros [|[= -> -> <-]]; [done|]. eapply (Hst j). by left.
      * exists t. split_and!; [done|done|]. rewrite help_load_step. case_decide as Hd; [|done].
        destruct Hd as [-> Hd]. by eapply Hpc.
  - eapply marked_wrote; try done. intros -> Hid _. split; [done|by apply (mk_cell _ Hm)].
  - eapply marked_wrote; try done. intros -> Hid Hst. eapply Hst. by right.
Qed.

Lemma marked_steps s s' : psteps (fun j => j <> i) s s' -> marked s -> marked s'.
Proof. induction 1; [done|]. intros Hm. apply IHpsteps. by eapply marked_step. Qed.

Lemma marked_detected s :
  marked s -> help_load (ps_ctx s) i i = v -> detected (ps_ctx s) (ps_cells s c) i v = true.
Proof.
  intros [_ Hcell _ Hmark] Hv. unfold detected.
  destruct Hmark as [[Hid _]|(j & Hj & Hji & Hjv)].
  - by rewrite bool_decide_eq_true_2, (Hcell c Hid), Z.eqb_refl.
  - apply orb_true_iff. right. apply Z.ltb_lt.
    pose proof (filter_two (fun k => help_load (ps_ctx s) k i =? v) help_rows i j (NoDup_seqZ _ _)
      (elem_of_help_rows i Hi) (elem_of_help_rows j Hj) ltac:(congruence)
      ltac:(by apply Z.eqb_eq) ltac:(by apply Z.eqb_eq)). lia.
Qed.
End crashed.

(** ** Properties *)


(** C19: no false report. Under the same history of thread [i], an update that
    it has begun and not carried out is never reported: wherever [i] crashes
    before its compare-exchange, whatever the other threads do with any cells
    afterwards, [detect] returns false. *)
Theorem cas_not_detected x i n v c s s2 :
  reach i x n s -> n < 2 ^ 16 -> updating (ps_pc s i) = Some (v, c) ->
  psteps (fun j => j <> i) s s2 ->
  detect i (the_cell c) v s2 = Done (s2, false).
Proof.
  intros Hr Hn Hu Hs. destruct (counted_reach _ _ _ _ Hr Hn) as [Hrow _ Hb Hnow _].
  destruct (Hnow v c Hu) as [-> Hpos]. unfold top in Hb. rewrite Hu in Hb.
  rewrite detect_run by (by rewrite (own_row_steps i _ _ i Hs)). do 2 f_equal.
  eapply bounded_detected; [eapply bounded_steps; [|exact Hs|exact Hb]|]; lia.
Qed.

(** the protocol steps are those of the code: running
    [Detectable::update] without interference leaves the cells and the help
    array that the steps begin, load, help, compare-exchange leave. *)
Theorem update_is_psteps cfg `{IntoState} (f : T -> T) h j c s :
  recover_cas cfg = true -> recover_log cfg = false -> id_wf j -> ps_pc s j = Idle ->
  exists s1 s2,
    update cfg [] j (the_cell c) (fun x _ => ret (Some (f x, h))) s = Done (s1, Some (d_inner (ps_cells s c))) /\
    psteps (fun k => k = j) s s2 /\ ps_ctx s2 = ps_ctx s1 /\ ps_cells s2 = ps_cells s1 /\
    d_inner (ps_cells s1 c) = f (d_inner (ps_cells s c)).
Proof.
  intros Hc Hl Hj Hpc. set (v := version_next (help_load (ps_ctx s) j j)).
  exists (mkPS (help_step j (ps_cells s c) (help_put j j v (ps_ctx s)))
            (<[c := mkD (Some j) v (f (d_inner (ps_cells s c)))]> (ps_cells s)) (ps_pc s)).
  eexists. split_and!.
  - unfold update, update_loop, help, log_unsync, when_, help_store, with_ctx, help_step.
    unfold bind, gets, modify, ret, obind. simpl. rewrite Hc, Hl. simpl. fold v.
    destruct (d_id (ps_cells s c)); simpl; rewrite decide_True by done; done.
  - eapply psteps_step; [done|done|by eapply (p_begin _ _ _ c)|].
    eapply psteps_step; [done|done|apply p_load_update; simpl; by rewrite fn_lookup_insert|].
    eapply psteps_step; [done|done|apply p_help; simpl; by rewrite fn_lookup_insert|].
    eapply psteps_step; [done|done|eapply (p_cas_ok _ _ v); simpl; [by rewrite fn_lookup_insert|done]|].
    apply psteps_refl.
  - done.
  - done.
  - simpl. by rewrite put_cell, decide_True.
Qed.

(** So does [Detectable::store]. *)
Theorem store_is_psteps cfg j c x s :
  recover_cas cfg = true -> id_wf j -> ps_pc s j = Idle ->
  exists s1 s2,
    store cfg j (the_cell c) x s = Done (s1, tt) /\
    psteps (fun k => k = j) s s2 /\ ps_ctx s2 = ps_ctx s1 /\ ps_cells s2 = ps_cells s1.
Proof.
  intros Hc Hj Hpc.
  exists (mkPS (help_step j (ps_cells s c) (ps_ctx s)) (<[c := mkD (Some j) 0 x]> (ps_cells s)) (ps_pc s)).
  eexists. split_and!.
  - unfold store, help, help_store, with_ctx, help_step.
    unfold bind, gets, modify, ret, obind. simpl. rewrite Hc. simpl. by destruct (d_id (ps_cells s c)).
  - eapply psteps_step; [done|done|by apply (p_load_store _ _ c x)|].
    eapply psteps_step; [done|done|apply p_help; simpl; by rewrite fn_lookup_insert|].
    eapply psteps_step; [done|done|eapply p_store; simpl; by rewrite fn_lookup_insert|].
    apply psteps_refl.
  - done.
  - done.
Qed.

Lemma reach_next i x n m j s s' :
  reach i x n s -> id_wf j -> pstep j s s' -> apart_from_self i s' -> m = n + drawn i j s' -> reach i x m s'.
Proof. intros Hr Hj Hs Ha ->. by eapply reach_step. Qed.
End proto.

(** ** Concrete runs *)

(** Thread 1 is about to update cell 0, all cells being fresh. *)
Lemma update_reached : exists s : PS (T := Z), reach 1 (fun _ => 7) 1 s /\
  ps_ctx s = help_put 1 1 1 (mkCtx ∅ ∅) /\ (forall c, ps_cells s c = mkD None 0 7) /\
  ps_pc s 1 = Helped (CUpdate 1) 0 (mkD None 0 7) /\ (forall j, j <> 1 -> ps_pc s j = Idle).
Proof.
  eexists. split_and!.
  - eapply (reach_next _ _ 1 _ 1);
      [eapply (reach_next _ _ 1 _ 1);
        [eapply (reach_next _ _ 0 _ 1);
          [apply reach_init|by unfold id_wf|by eapply (p_begin _ _ _ 0)|by intros k c old|reflexivity]
        |by unfold id_wf|by apply p_load_update|by intros k c old [= <- <- <-]|reflexivity]
      |by unfold id_wf|by apply p_help|by intros k c old|reflexivity].
  - done.
  - done.
  - done.
  - intros j Hj. simpl. by rewrite !goto_pc, !decide_False by done.
Qed.


Lemma cas_not_detected_witness :
  exists s : PS (T := Z), updating (ps_pc s 1) = Some (1, 0) /\ detect 1 (the_cell 0) 1 s = Done (s, false).
Proof.
  destruct update_reached as (s & Hr & Ec & Ecell & Hpc & Hpc2).
  exists s. rewrite Hpc. split; [reflexivity|].
  apply (cas_not_detected (fun _ => 7) 1 1 1 0 s s Hr); [lia|by rewrite Hpc|apply psteps_refl].
Defined.

(** ** Where detection goes wrong *)

(** Two cells that share the help array, as every cell of a heap does. *)
Record PS2 := mkPS2 { p2_ctx : Ctx; p2_a : DState Z; p2_b : DState Z }.
#[export] Instance PS2_ctx : HasCtx PS2 := {|
  get_ctx := p2_ctx;
  set_ctx x s := mkPS2 x (p2_a s) (p2_b s);
|}.
Definition cell_a : cell PS2 Z := mkCell p2_a (fun d s => mkPS2 (p2_ctx s) d (p2_b s)).
Definition cell_b : cell PS2 Z := mkCell p2_b (fun d s => mkPS2 (p2_ctx s) (p2_a s) d).
Definition ps2_init : PS2 := mkPS2 (mkCtx ∅ ∅) (mkD None 0 0) (mkD None 0 0).

(** An update that adds one, as thread [id] with default features. *)
Definition incr (id : Z) (c : cell PS2 Z) : M PS2 (option Z) :=
  update (IS := small_into) (default_cfg false) [] id c
    (fun x v => ret (Some (x + 1, BumpToUnsized None v))).

(** [update] up to its first compare-exchange: the crash happens there. *)
Definition incr_crash (id : Z) (c : cell PS2 Z) : M PS2 Z :=
  version <- gets (fun s => version_next (help_load (get_ctx s) id id)) ;;
  help_store id id version ;;;
  old <- gets (cget c) ;;
  help (default_cfg false) id old ;;;
  log_unsync (IS := small_into) (default_cfg false) id (BumpToUnsized None version) ;;;
  ret version.

(** The state a run ends in. *)
Definition final {A} (m : M PS2 A) (s : PS2) : PS2 :=
  match m s with Done (s', _) => s' | _ => s end.

(** versions repeat. [help] also records the thread's own old state, so a
    second update of the same cell by the same thread sets [help[i][i]] back:
    the next update draws the same version again, and [detect] of the version
    just written fails its assertion. *)
Theorem own_help_repeats_version :
  exists s2 s3, (incr 1 cell_a ;;; incr 1 cell_a) ps2_init = Done (s2, Some 1) /\
    incr 1 cell_a s2 = Done (s3, Some 2) /\
    d_version (p2_a s2) = 2 /\ d_version (p2_a s3) = 2 /\ help_load (p2_ctx s2) 1 1 = 1 /\
    detect 1 cell_a 2 s2 = Panic.
Proof.
  exists (final (incr 1 cell_a ;;; incr 1 cell_a) ps2_init).
  exists (final (incr 1 cell_a ;;; incr 1 cell_a ;;; incr 1 cell_a) ps2_init).
  split_and!; vm_compute; reflexivity.
Qed.

(** C39: a false positive. A thread that updated the cell twice and crashes
    before the compare-exchange of its third update finds on recovery that
    [detect] reports the third update as done, although the cell is
    unchanged. *)
Theorem detect_false_positive :
  exists s s' v, (incr 1 cell_a ;;; incr 1 cell_a) ps2_init = Done (s, Some 1) /\
    incr_crash 1 cell_a s = Done (s', v) /\ p2_a s' = p2_a s /\ detect 1 cell_a v s' = Done (s', true).
Proof.
  exists (final (incr 1 cell_a ;;; incr 1 cell_a) ps2_init).
  exists (final (incr 1 cell_a ;;; incr 1 cell_a ;;; incr_crash 1 cell_a) ps2_init), 2.
  split_and!; vm_compute; reflexivity.
Qed.

(** a false negative. Thread 1 updates cell [b], then cell [a], and
    crashes. Thread 2 overwrites [a], having recorded the version, but then
    looks at [b]: its single help entry for thread 1 goes back to the older
    version and [detect] denies an update that happened. *)
Theorem detect_false_negative :
  exists s s', (incr 1 cell_b ;;; incr 1 cell_a) ps2_init = Done (s, Some 0) /\
    d_id (p2_a s) = Some 1 /\ d_version (p2_a s) = 2 /\
    (incr 2 cell_a ;;; load (default_cfg false) 2 cell_b) s = Done (s', 1) /\
    p2_a s' <> p2_a s /\ detect 1 cell_a 2 s' = Done (s', false).
Proof.
  exists (final (incr 1 cell_b ;;; incr 1 cell_a) ps2_init).
  exists (final (incr 1 cell_b ;;; incr 1 cell_a ;;; incr 2 cell_a ;;; load (default_cfg false) 2 cell_b) ps2_init).
  split_and!; [by vm_compute..|vm_compute; discriminate|by vm_compute].
Qed.
