(* ===== verification/Huge.v ===== *)
(** * Huge: allocations above the large bracket (cxlalloc/src/huge.rs)

    Virtual address space is claimed in 1 GiB slots ([Shared]); each thread
    carves allocations out of its slots ([Allocator]), describes them in a
    linked list of descriptors kept in the small heap ([Descriptor]) and
    publishes the mappings it holds as hazards ([Owned]).

    [IntervalSet] is a third-party crate: it is a parameter here, with the laws
    the code relies on, and [IntervalList] is an implementation that satisfies
    them. Mapping and unmapping memory is the operating system's: the calls
    are recorded and [map_ok] says which ones succeed. *)

From Stdlib Require Import ZArith Lia.
From stdpp Require Import base numbers option gmap functions list.
From S2P Require Import Prelude Bitset Size Data Cas.
Local Open Scope Z_scope.
Local Open Scope prog_scope.

(** ** The interval sets of the [intervallum] crate *)
Class IntervalSet := {
  iset : Type;
  i_empty : iset;
  (** [intersection(&(lo, hi)).size()] *)
  i_overlap : iset -> Z -> Z -> Z;
  (** [difference(&(lo, hi))] *)
  i_difference : iset -> Z -> Z -> iset;
  (** [extend((lo, hi))] *)
  i_extend : iset -> Z -> Z -> iset;
  (** [iter()], as bounds *)
  i_iter : iset -> list (Z * Z);
}.

(** The meaning of an interval set, and the laws. *)
Class IntervalLaws (I : IntervalSet) := {
  i_ok : iset -> Prop;
  i_mem : iset -> Z -> bool;
  empty_ok : i_ok i_empty;
  empty_mem : forall k, i_mem i_empty k = false;
  difference_ok : forall s lo hi, i_ok s -> lo <= hi -> i_ok (i_difference s lo hi);
  difference_mem : forall s lo hi k, i_ok s -> lo <= hi ->
    i_mem (i_difference s lo hi) k = i_mem s k && negb ((lo <=? k) && (k <=? hi));
  extend_ok : forall s lo hi, i_ok s -> lo <= hi -> i_ok (i_extend s lo hi);
  extend_mem : forall s lo hi k, i_ok s -> lo <= hi ->
    i_mem (i_extend s lo hi) k = i_mem s k || ((lo <=? k) && (k <=? hi));
  overlap_full : forall s lo hi, i_ok s -> lo <= hi ->
    i_overlap s lo hi = hi - lo + 1 <-> (forall k, lo <= k <= hi -> i_mem s k = true);
  iter_mem : forall s a b k, i_ok s -> (a, b) ∈ i_iter s -> a <= k <= b -> i_mem s k = true;
  iter_nonempty : forall s a b, i_ok s -> (a, b) ∈ i_iter s -> a <= b;
  iter_extend : forall s lo hi, i_ok s -> lo <= hi ->
    exists a b, (a, b) ∈ i_iter (i_extend s lo hi) /\ a <= lo /\ hi <= b;
}.

(** ** Data *)

(** [Claim]. *)
Record Claim := mkClaim { claim_id : Z; claim_count : Z }.

(** [State] of a descriptor. *)
Inductive DescState := Live | Free | Safe.

(** [Descriptor]; [d_next] is the delta stored in the self-relative box. *)
Record Descriptor := mkDesc {
  dd_index : Z;
  dd_offset : Z;
  dd_size : Z;
  dd_next : option Z;
  dd_state : DescState;
}.

(** Byte offset of the [next] field ([#[repr(C)]]: three words before it). *)
Definition NEXT_FIELD : Z := 24.

(** [Owned]: head of the descriptor list (an offset in the small region), and
    the hazards, an array of 1024 of which the first [hz_len] are in use. *)
Record HOwned := mkHOwned {
  hz_head : option Z;
  hz_len : Z;
  hazards : list (option Z);
}.

Definition COUNT_SLOT : Z := 1024.
Definition zero_howned : HOwned := mkHOwned None 0 (replicate 1024 None).

(** Calls that change the mapping of the huge region. *)
Inductive mapcall := MapCall (offset size : Z) | UnmapCall (offset size : Z).

Section huge.
Context (cfg : Cfg) `{IV : IntervalSet}.

(** [Allocator]: the free address space of one thread. *)
Record HAllocator := mkHAllocator { ha_free : iset; ha_index : Z }.

(** Shared slots and hint, [Owned] and [Allocator] of every thread, the
    descriptors by address, and the mapping calls, newest first. *)
Record HugeS := mkHugeS {
  slots : gmap Z Claim;
  hint : Z;
  howned : gmap Z HOwned;
  hallocs : gmap Z HAllocator;
  descs : gmap Z Descriptor;
  maps : list mapcall;
}.

Definition zero_huge : HugeS := mkHugeS ∅ 0 ∅ ∅ ∅ [].

Definition howned_of (s : HugeS) (t : Z) : HOwned := default zero_howned (howned s !! t).

(** [Allocator::default]. *)
Definition halloc_default : HAllocator := mkHAllocator i_empty 0.
Definition halloc_of (s : HugeS) (t : Z) : HAllocator := default halloc_default (hallocs s !! t).

Definition put_howned (t : Z) (o : HOwned) (s : HugeS) : HugeS :=
  mkHugeS (slots s) (hint s) (<[t := o]> (howned s)) (hallocs s) (descs s) (maps s).
Definition put_halloc (t : Z) (a : HAllocator) (s : HugeS) : HugeS :=
  mkHugeS (slots s) (hint s) (howned s) (<[t := a]> (hallocs s)) (descs s) (maps s).
Definition put_desc (p : Z) (d : Descriptor) (s : HugeS) : HugeS :=
  mkHugeS (slots s) (hint s) (howned s) (hallocs s) (<[p := d]> (descs s)) (maps s).
Definition put_slots (sl : gmap Z Claim) (h : Z) (s : HugeS) : HugeS :=
  mkHugeS sl h (howned s) (hallocs s) (descs s) (maps s).
Definition put_map (c : mapcall) (s : HugeS) : HugeS :=
  mkHugeS (slots s) (hint s) (howned s) (hallocs s) (descs s) (c :: maps s).

Abbreviation dbg := (debug_assertions cfg).
Abbreviation SLOT := Size.Huge.SIZE_SLAB.

(** ** [Shared] *)

(** The [while] loop of [Shared::claim]: slots are tried from [i] on. A claim
    of at least one slot moves the loop on, so that it ends within
    [COUNT_SLOT + 1] rounds; a claim of none does not (see
    [oversized_claim_hangs]). *)
Fixpoint claim_loop (n : nat) (sl : gmap Z Claim) (c : Claim) (i : Z)
    : outcome (gmap Z Claim * Z) :=
  match n with
  | O => Diverge
  | S n =>
      if i + claim_count c <=? COUNT_SLOT then
        if i <? COUNT_SLOT then
          match sl !! i with
          | None => Done (<[i := c]> sl, i)
          | Some other => claim_loop n sl c (i + claim_count other)
          end
        else Panic
      else Panic
  end.

(** [Shared::claim]. *)
Definition shared_claim (id size : Z) : M HugeS (Z * Z) :=
  s <- gets (fun s => s) ;;
  rounded <- lift (next_multiple_of_uw dbg 64 size SLOT) ;;
  let slot_count := rounded / SLOT in
  n <- lift (un_new 48 slot_count) ;;
  r <- lift (claim_loop (Z.to_nat COUNT_SLOT + 1) (slots s) (mkClaim id n) (hint s)) ;;
  modify (put_slots (fst r) (snd r + slot_count)) ;;;
  index <- lift (new_huge (snd r)) ;;
  ret (index, slot_count).

(** [Shared::find]: the claim at or below the slot of the offset. *)
Fixpoint find_loop (sl : gmap Z Claim) (n : nat) : option Z :=
  match sl !! Z.of_nat n with
  | Some c => Some (claim_id c)
  | None => match n with O => None | S n => find_loop sl n end
  end.

Definition shared_find (s : HugeS) (o : Z) : outcome (option Z) :=
  obind (into_index (H := Size.Huge.bracket) o) (fun i =>
  let slot := index_to_u32 i in
  Done (if slot <? COUNT_SLOT then find_loop (slots s) (Z.to_nat slot) else None)).

(** ** [Owned]: the hazards of a thread *)

Definition hz_list (o : HOwned) : list (option Z) := take (Z.to_nat (hz_len o)) (hazards o).

(** [Owned::contains]. *)
Definition hz_contains (o : HOwned) (x : Z) : bool :=
  existsb (fun h => bool_decide (h = Some x)) (hz_list o).

(** [Owned::validate]: every hazard in use is set ([unwrap]) and no two are
    equal. *)
Definition hz_validate (o : HOwned) : outcome unit :=
  if validating cfg then
    if forallb (fun h => bool_decide (h <> None)) (hz_list o)
       && (hz_len o =? Z.of_nat (length (remove_dups (hz_list o)))) then Done tt else Panic
  else Done tt.

(** [Owned::insert]. *)
Definition hz_insert (o : HOwned) (x : Z) : outcome HOwned :=
  if validating cfg && hz_contains o x then Panic
  else
    match hazards o !! Z.to_nat (hz_len o) with
    | None => Panic
    | Some _ =>
        let o' := mkHOwned (hz_head o) (hz_len o + 1)
                    (<[Z.to_nat (hz_len o) := Some x]> (hazards o)) in
        obind (hz_validate o') (fun _ => Done o')
    end.

(** [position] of the hazard among the first [len]. *)
Fixpoint position (x : Z) (l : list (option Z)) : option nat :=
  match l with
  | [] => None
  | h :: l => if decide (h = Some x) then Some O else S <$> position x l
  end.

(** [Owned::swap_remove]. *)
Definition hz_swap_remove (o : HOwned) (x : Z) : outcome (HOwned * bool) :=
  match position x (hz_list o) with
  | None => Done (o, false)
  | Some index =>
      let n := Z.to_nat (hz_len o - 1) in
      match hazards o !! n with
      | None => Panic
      | Some last =>
          let o' := mkHOwned (hz_head o) (hz_len o - 1)
                      (<[n := None]> (<[index := last]> (hazards o))) in
          obind (hz_validate o') (fun _ => Done (o', true))
      end
  end.

(** ** [Allocator] *)

(** [offset + size - 1] on [usize]. *)
Definition range_end (offset size : Z) : outcome Z :=
  obind (arith dbg 64 (offset + size)) (fun x => arith dbg 64 (x - 1)).

(** [Allocator::cover]: the range must be free. *)
Definition cover (a : HAllocator) (offset size : Z) : outcome HAllocator :=
  obind (range_end offset size) (fun hi =>
  if i_overlap (ha_free a) offset hi =? hi - offset + 1 then
    Done (mkHAllocator (i_difference (ha_free a) offset hi) (ha_index a))
  else Panic).

(** [Allocator::uncover]. *)
Definition uncover (a : HAllocator) (offset size : Z) : outcome HAllocator :=
  obind (range_end offset size) (fun hi =>
  Done (mkHAllocator (i_extend (ha_free a) offset hi) (ha_index a))).

(** [Allocator::claim]. *)
Definition halloc_claim (a : HAllocator) (slot slot_count : Z) : outcome HAllocator :=
  obind (arith dbg 64 (index_to_u32 slot * SLOT)) (fun lo =>
  obind (arith dbg 64 (slot_count * SLOT)) (fun n =>
  uncover a lo n)).

(** [Allocator::allocate]: first fit. *)
Definition halloc_allocate (a : HAllocator) (size : Z) : outcome (HAllocator * option Descriptor) :=
  match List.find (fun '(lo, hi) => size <=? hi - lo + 1) (i_iter (ha_free a)) with
  | None => Done (a, None)
  | Some (lo, _) =>
      obind (cover a lo size) (fun a =>
      obind (arith dbg 64 (ha_index a + 1)) (fun idx =>
      obind (offset_to_offset (H := Size.Huge.bracket) dbg lo) (fun o =>
      Done (mkHAllocator (ha_free a) idx, Some (mkDesc idx o size None Live)))))
  end.

(** ** [Descriptor] *)

(** [Descriptor::contains]. *)
Definition desc_contains (d : Descriptor) (o : Z) : outcome bool :=
  if dd_offset d <=? o then
    obind (offset_plus (dd_offset d) (dd_size d)) (fun e => Done (o <? e))
  else Done false.

(** [mem::size_of::<Descriptor>()] and [Descriptor::CLASS]. *)
Definition DESC_SIZE : Z := 64.
Definition DESC_CLASS : outcome Z := obind (Size.Small.new DESC_SIZE) (fun c => match c with Some c => Done c | None => Panic end).

(** ** [Huge] *)
Section handle.
(** [sbase]: base of the small data region, where descriptors live; [hbase]:
    base of the huge data; [lo, hi): the reserved huge region. *)
Context (sbase hbase lo hi : Z) (map_ok : Z -> Z -> bool).

(** Reading a descriptor that was never written is undefined. *)
Definition get_desc (p : Z) : M HugeS Descriptor :=
  d <- gets (fun s => descs s !! p) ;;
  match d with Some d => ret d | None => undef end.

(** [Huge::peek]: the head of a thread's list, as a pointer. *)
Definition huge_peek (s : HugeS) (id : Z) : option Z :=
  offset_to_pointer sbase <$> hz_head (howned_of s id).

(** [Huge::trace]: the pointers of a list. Each descriptor is visited once
    unless the list is cyclic. *)
Fixpoint trace_desc (ds : gmap Z Descriptor) (n : nat) (walk : option Z) : outcome (list Z) :=
  match walk with
  | None => Done []
  | Some p =>
      match n with
      | O => Diverge
      | S n =>
          match ds !! p with
          | None => Undef
          | Some d =>
              obind (match dd_next d with
                     | None => Done None
                     | Some delta => obind (box_deref (p + NEXT_FIELD) delta) (fun q => Done (Some q))
                     end) (fun next =>
              obind (trace_desc ds n next) (fun l => Done (p :: l)))
          end
      end
  end.

Definition trace_all (s : HugeS) (walk : option Z) : outcome (list Z) :=
  trace_desc (descs s) (S (size (descs s))) walk.

(** [Huge::set]. *)
Definition huge_set (id p : Z) : M HugeS unit :=
  modify (fun s => let o := howned_of s id in
    put_howned id (mkHOwned (pointer_to_offset sbase p) (hz_len o) (hazards o)) s).

(** [Huge::claim]. *)
Definition huge_claim (id size : Z) : M HugeS unit :=
  r <- shared_claim id size ;;
  a <- gets (fun s => halloc_of s id) ;;
  a <- lift (halloc_claim a (fst r) (snd r)) ;;
  modify (put_halloc id a).

(** [Huge::find]. *)
Fixpoint find_desc (ds : gmap Z Descriptor) (o : Z) (l : list Z) : outcome (option Z) :=
  match l with
  | [] => Done None
  | p :: l =>
      match ds !! p with
      | None => Undef
      | Some d => obind (desc_contains d o) (fun b => if (b : bool) then Done (Some p) else find_desc ds o l)
      end
  end.

Definition huge_find (o : Z) : M HugeS (option Z) :=
  s <- gets (fun s => s) ;;
  id <- lift (shared_find s o) ;;
  match id with
  | None => ret None
  | Some id =>
      l <- lift (trace_all s (huge_peek s id)) ;;
      lift (find_desc (descs s) o l)
  end.

(** [Huge::map_descriptor] and [Huge::unmap_descriptor]. *)
Definition map_descriptor (d : Descriptor) : M HugeS bool :=
  o <- lift (offset_to_u64 (H := Size.Huge.bracket) dbg (dd_offset d)) ;;
  if map_ok o (dd_size d) then modify (put_map (MapCall o (dd_size d))) ;;; ret true
  else ret false.

Definition unmap_descriptor (d : Descriptor) : M HugeS unit :=
  o <- lift (offset_to_u64 (H := Size.Huge.bracket) dbg (dd_offset d)) ;;
  modify (put_map (UnmapCall o (dd_size d))).

(** [Huge::refresh]: for every descriptor of every thread that was freed, the
    calling thread gives up its hazard and its mapping. *)
Fixpoint refresh_list (id : Z) (l : list Z) : M HugeS unit :=
  match l with
  | [] => ret tt
  | p :: l =>
      d <- get_desc p ;;
      match dd_state d with
      | Free =>
          o <- gets (fun s => howned_of s id) ;;
          r <- lift (hz_swap_remove o (dd_offset d)) ;;
          modify (put_howned id (fst r)) ;;;
          (if (snd r : bool) then unmap_descriptor d else ret tt)
      | _ => ret tt
      end ;;;
      refresh_list id l
  end.

Fixpoint refresh_threads (id : Z) (ts : list Z) : M HugeS unit :=
  match ts with
  | [] => ret tt
  | t :: ts =>
      s <- gets (fun s => s) ;;
      l <- lift (trace_all s (huge_peek s t)) ;;
      refresh_list id l ;;;
      refresh_threads id ts
  end.

Definition refresh (id : Z) : M HugeS unit := refresh_threads id help_rows.

(** [Huge::focus]: rebuilds the allocator of a thread from its claims and its
    live descriptors. *)
Fixpoint focus_claims (id : Z) (cs : list Z) : M HugeS unit :=
  match cs with
  | [] => ret tt
  | slot :: cs =>
      s <- gets (fun s => s) ;;
      match slots s !! slot with
      | Some c =>
          if claim_id c =? id then
            i <- lift (new_huge slot) ;;
            a <- lift (halloc_claim (halloc_of s id) i (claim_count c)) ;;
            modify (put_halloc id a)
          else ret tt
      | None => ret tt
      end ;;;
      focus_claims id cs
  end.

Fixpoint focus_descs (id : Z) (l : list Z) (index : Z) : M HugeS Z :=
  match l with
  | [] => ret index
  | p :: l =>
      d <- get_desc p ;;
      match dd_state d with
      | Live =>
          o <- lift (offset_to_u64 (H := Size.Huge.bracket) dbg (dd_offset d)) ;;
          a <- gets (fun s => halloc_of s id) ;;
          a <- lift (cover a o (dd_size d)) ;;
          modify (put_halloc id a)
      | _ => ret tt
      end ;;;
      focus_descs id l (Z.max index (dd_index d))
  end.

Definition focus (id : Z) : M HugeS unit :=
  focus_claims id (seqZ 0 COUNT_SLOT) ;;;
  s <- gets (fun s => s) ;;
  l <- lift (trace_all s (huge_peek s id)) ;;
  index <- focus_descs id l 0 ;;
  modify (fun s => put_halloc id (mkHAllocator (ha_free (halloc_of s id)) index) s).

(** The allocation loop of [Huge::allocate]: a failed search claims slots. *)
Fixpoint allocate_loop (n : nat) (id size : Z) : M HugeS Descriptor :=
  match n with
  | O => diverge
  | S n =>
      a <- gets (fun s => halloc_of s id) ;;
      r <- lift (halloc_allocate a size) ;;
      modify (put_halloc id (fst r)) ;;;
      match snd r with
      | Some d => ret d
      | None => huge_claim id size ;;; allocate_loop n id size
      end
  end.

(** [Huge::allocate] into the descriptor at [out]; two rounds of the loop are
    enough (see [huge_allocate_terminates]). *)
Definition huge_allocate (id size out : Z) (reuse : bool) : M HugeS Z :=
  refresh id ;;;
  d <- allocate_loop 2 id size ;;
  (if reuse then
     old <- get_desc out ;;
     modify (put_desc out (mkDesc (dd_index d) (dd_offset d) (dd_size d) (dd_next old) Live))
   else
     s <- gets (fun s => s) ;;
     delta <- lift (box_link (out + NEXT_FIELD) (huge_peek s id)) ;;
     modify (put_desc out (mkDesc (dd_index d) (dd_offset d) (dd_size d) delta Live)) ;;;
     huge_set id out) ;;;
  o <- gets (fun s => howned_of s id) ;;
  o <- lift (hz_insert o (dd_offset d)) ;;
  modify (put_howned id o) ;;;
  b <- map_descriptor d ;;
  assert_ b ;;;
  ret (offset_to_pointer hbase (dd_offset d)).

(** [Huge::free]. *)
Definition huge_free (id o : Z) : M HugeS unit :=
  refresh id ;;;
  r <- huge_find o ;;
  p <- unwrap r ;;
  d <- get_desc p ;;
  unmap_descriptor d ;;;
  ow <- gets (fun s => howned_of s id) ;;
  r <- lift (hz_swap_remove ow (dd_offset d)) ;;
  modify (put_howned id (fst r)) ;;;
  modify (put_desc p (mkDesc (dd_index d) (dd_offset d) (dd_size d) (dd_next d) Free)).

(** [Huge::class]. *)
Definition huge_class (o : Z) : M HugeS Z :=
  r <- huge_find o ;;
  p <- unwrap r ;;
  d <- get_desc p ;;
  ret (dd_size d).

(** [Huge::checked_pointer_to_offset]. *)
Definition huge_pointer_to_offset (p : Z) : option Z :=
  if (lo <=? p) && (p <? hi) then pointer_to_offset hbase p else None.

(** [Huge::try_map]; [None] is [Error::OutOfBounds]. *)
Definition huge_try_map (id p : Z) : M HugeS (option bool) :=
  match huge_pointer_to_offset p with
  | None => ret None
  | Some o =>
      r <- huge_find o ;;
      match r with
      | None => ret None
      | Some p =>
          d <- get_desc p ;;
          ow <- gets (fun s => howned_of s id) ;;
          ow <- lift (hz_insert ow (dd_offset d)) ;;
          modify (put_howned id ow) ;;;
          b <- map_descriptor d ;;
          ret (Some b)
      end
  end.

(** [Huge::reuse]: freed descriptors nobody has mapped become safe and their
    address space is free again; the first safe one is returned. *)
Definition protected (s : HugeS) (x : Z) : bool :=
  existsb (fun t => hz_contains (howned_of s t) x) help_rows.

Fixpoint reuse_list (id : Z) (l : list Z) (safe : option Z) : M HugeS (option Z) :=
  match l with
  | [] => ret safe
  | p :: l =>
      d <- get_desc p ;;
      s <- gets (fun s => s) ;;
      match dd_state d with
      | Live => reuse_list id l safe
      | Safe => reuse_list id l (Some (default p safe))
      | Free =>
          if protected s (dd_offset d) then reuse_list id l safe
          else
            o <- lift (offset_to_u64 (H := Size.Huge.bracket) dbg (dd_offset d)) ;;
            a <- lift (uncover (halloc_of s id) o (dd_size d)) ;;
            modify (put_halloc id a) ;;;
            modify (put_desc p (mkDesc (dd_index d) (dd_offset d) (dd_size d) (dd_next d) Safe)) ;;;
            reuse_list id l (Some (default p safe))
      end
  end.

Definition reuse (id : Z) : M HugeS (option Z) :=
  s <- gets (fun s => s) ;;
  l <- lift (trace_all s (huge_peek s id)) ;;
  safe <- reuse_list id l None ;;
  ret (safe ≫= pointer_to_offset sbase).
End handle.
End huge.

(** ** An implementation of interval sets: disjoint intervals, any order *)
Module IntervalList.
Definition inside (k : Z) (p : Z * Z) : bool := (fst p <=? k) && (k <=? snd p).
Definition mem (l : list (Z * Z)) (k : Z) : bool := existsb (inside k) l.

Fixpoint ok (l : list (Z * Z)) : Prop :=
  match l with
  | [] => True
  | p :: l => fst p <= snd p /\ (forall k, inside k p = true -> mem l k = false) /\ ok l
  end.

Definition cut (lo hi : Z) (p : Z * Z) : list (Z * Z) :=
  (if fst p <=? Z.min (snd p) (lo - 1) then [(fst p, Z.min (snd p) (lo - 1))] else []) ++
  (if Z.max (fst p) (hi + 1) <=? snd p then [(Z.max (fst p) (hi + 1), snd p)] else []).

Definition difference (l : list (Z * Z)) (lo hi : Z) : list (Z * Z) := flat_map (cut lo hi) l.
Definition extend (l : list (Z * Z)) (lo hi : Z) : list (Z * Z) := (lo, hi) :: difference l lo hi.
Definition overlap (l : list (Z * Z)) (lo hi : Z) : Z :=
  zsum (fun p => Z.max 0 (Z.min (snd p) hi - Z.max (fst p) lo + 1)) l.

#[export] Instance intervals : IntervalSet :=
  {| iset := list (Z * Z); i_empty := []; i_overlap := overlap; i_difference := difference;
     i_extend := extend; i_iter l := l |}.

Lemma inside_iff k p : inside k p = true <-> fst p <= k <= snd p.
Proof. unfold inside. rewrite andb_true_iff, !Z.leb_le. done. Qed.

Lemma mem_app l l' k : mem (l ++ l') k = mem l k || mem l' k.
Proof. apply existsb_app. Qed.

Lemma cut_mem lo hi p k : lo <= hi ->
  mem (cut lo hi p) k = inside k p && negb ((lo <=? k) && (k <=? hi)).
Proof.
  intros Hlh. apply eq_bool_prop_intro. rewrite !Is_true_true. unfold cut. rewrite mem_app.
  rewrite orb_true_iff, andb_true_iff, negb_true_iff, andb_false_iff, !Z.leb_gt, inside_iff.
  destruct (Z.leb_spec (fst p) (Z.min (snd p) (lo - 1))), (Z.leb_spec (Z.max (fst p) (hi + 1)) (snd p));
    unfold mem; simpl; rewrite ?orb_false_r, ?inside_iff; simpl; intuition (congruence || lia).
Qed.

Lemma difference_mem l lo hi k : lo <= hi ->
  mem (difference l lo hi) k = mem l k && negb ((lo <=? k) && (k <=? hi)).
Proof.
  intros Hlh. induction l as [|p l IH]; [done|]. simpl. fold (difference l lo hi). rewrite mem_app, IH, cut_mem by done.
  unfold mem. simpl. by destruct (inside k p), (existsb (inside k) l), (negb _).
Qed.

Lemma ok_app l l' :
  ok l -> ok l' -> (forall k, mem l k = true -> mem l' k = false) -> ok (l ++ l').
Proof.
  induction l as [|p l IH]; simpl; [done|]. intros (Hp & Hd & Hl) Hl' H. split_and!; [done| |].
  - intros k Hk. rewrite mem_app, (Hd k Hk). simpl. apply H. unfold mem. simpl. by rewrite Hk.
  - apply IH; [done|done|]. intros k Hk. apply H. unfold mem in *. simpl. by rewrite Hk, orb_true_r.
Qed.

Lemma cut_ok lo hi p : lo <= hi -> ok (cut lo hi p).
Proof.
  intros Hlh. unfold cut. apply ok_app.
  - case_match eqn:E; [|done]. apply Z.leb_le in E. simpl. split_and!; [lia|done|done].
  - case_match eqn:E; [|done]. apply Z.leb_le in E. simpl. split_and!; [lia|done|done].
  - intros k. case_match; case_match; unfold mem; simpl; rewrite ?orb_false_r; try done.
    rewrite inside_iff. simpl. intros Hk. apply not_true_is_false. rewrite inside_iff. simpl. lia.
Qed.

Lemma difference_ok l lo hi : lo <= hi -> ok l -> ok (difference l lo hi).
Proof.
  intros Hlh. induction l as [|p l IH]; [done|]. intros (Hp & Hd & Hl).
  change (ok (cut lo hi p ++ difference l lo hi)). apply ok_app; [by apply cut_ok|by apply IH|].
  intros k. rewrite cut_mem, difference_mem by done. rewrite andb_true_iff. intros [Hk _]. by rewrite (Hd k Hk).
Qed.

(** The overlap of one interval counts its members in the range. *)
Lemma overlap_one a b lo n :
  a <= b -> zsum (fun k => Z.b2z (inside k (a, b))) (seqZ lo (Z.of_nat n)) =
  Z.max 0 (Z.min b (lo + Z.of_nat n - 1) - Z.max a lo + 1).
Proof.
  intros Hab. revert lo. induction n as [|n IH]; intros lo; [simpl; lia|].
  rewrite seqZ_cons by lia. replace (Z.pred (Z.of_nat (S n))) with (Z.of_nat n) by lia.
  cbn [zsum]. rewrite IH. unfold inside. simpl fst. simpl snd.
  destruct (Z.leb_spec a lo), (Z.leb_spec lo b); simpl; lia.
Qed.

Lemma zsum_plus {A} (f g : A -> Z) l : zsum (fun k => f k + g k) l = zsum f l + zsum g l.
Proof. induction l; simpl; lia. Qed.

Lemma overlap_count l lo n :
  ok l -> overlap l lo (lo + Z.of_nat n - 1) = zsum (fun k => Z.b2z (mem l k)) (seqZ lo (Z.of_nat n)).
Proof.
  induction l as [|[a b] l IH]; intros Hok.
  - simpl. symmetry. by apply zsum_const0.
  - destruct Hok as (Hp & Hd & Hl). unfold overlap in *. cbn [zsum]. rewrite IH, <- (overlap_one a b) by done.
    rewrite <- zsum_plus. apply zsum_ext. intros k _. unfold mem in *. simpl existsb.
    destruct (inside k (a, b)) eqn:E; [by rewrite (Hd k E)|done].
Qed.

Lemma zsum_ones (p : Z -> bool) l :
  zsum (fun k => Z.b2z (p k)) l = Z.of_nat (length l) <-> (forall k, k ∈ l -> p k = true).
Proof.
  assert (forall l, zsum (fun k => Z.b2z (p k)) l <= Z.of_nat (length l)) as Hle.
  { clear l. induction l as [|a l IH]; simpl; [lia|]. destruct (p a); simpl; lia. }
  induction l as [|a l IH]; [simpl; set_solver|].
  change (zsum (fun k => Z.b2z (p k)) (a :: l)) with (Z.b2z (p a) + zsum (fun k => Z.b2z (p k)) l).
  rewrite length_cons. specialize (Hle l). destruct (p a) eqn:E; simpl Z.b2z.
  - split; [intros H k Hk|intros H].
    + apply elem_of_cons in Hk as [->|Hk]; [done|]. apply IH; [lia|done].
    + enough (zsum (fun k => Z.b2z (p k)) l = Z.of_nat (length l)) by lia. apply IH. intros k Hk. apply H. set_solver.
  - split; [lia|]. intros H. specialize (H a). rewrite E in H. discriminate H. set_solver.
Qed.

Lemma overlap_full_iff l lo hi : ok l -> lo <= hi ->
  overlap l lo hi = hi - lo + 1 <-> (forall k, lo <= k <= hi -> mem l k = true).
Proof.
  intros Hok Hlh. replace hi with (lo + Z.of_nat (Z.to_nat (hi - lo + 1)) - 1) by lia.
  set (n := Z.to_nat (hi - lo + 1)). rewrite overlap_count by done.
  replace (lo + Z.of_nat n - 1 - lo + 1) with (Z.of_nat (length (seqZ lo (Z.of_nat n)))) by (rewrite length_seqZ; lia).
  rewrite zsum_ones. split; intros H k Hk; apply H; [apply elem_of_seqZ|apply elem_of_seqZ in Hk]; lia.
Qed.

#[export] Instance intervals_laws : IntervalLaws intervals.
Proof.
  refine {| i_ok := ok : @iset intervals -> Prop; i_mem := mem : @iset intervals -> Z -> bool |}.
  - done.
  - done.
  - intros. by apply difference_ok.
  - intros. by apply difference_mem.
  - intros s lo hi Hs Hlh. split_and!; [done| |by apply difference_ok].
    intros k Hk. etrans; [by apply difference_mem|]. unfold inside in Hk. simpl in Hk. by rewrite Hk, andb_false_r.
  - intros s lo hi k Hs Hlh. transitivity (inside k (lo, hi) || mem (difference s lo hi) k); [done|].
    rewrite difference_mem by done. unfold inside. simpl. by destruct ((lo <=? k) && (k <=? hi)), (mem s k).
  - intros. by apply overlap_full_iff.
  - intros s a b k Hs Hin Hk. apply existsb_exists. exists (a, b). split; [by apply list_elem_of_In|by apply inside_iff].
  - intros s a b Hs. simpl. induction s as [|p s IH]; simpl; [set_solver|]. destruct Hs as (Hp & _ & Hs).
    intros [<-|Hin]%elem_of_cons; [done|by apply IH].
  - intros s lo hi Hs Hlh. exists lo, hi. split; [by left|lia].
Qed.
End IntervalList.
