(* ===== verification/HugeSafe.v ===== *)
(** * HugeSafe: properties of the huge allocator (Huge.v)

    Slot claims tile the address space, hazards are a set, the allocator hands
    out disjoint ranges, its loop ends, and a descriptor is reused only when no
    thread has it mapped. *)

From Stdlib Require Import ZArith Lia.
From stdpp Require Import base numbers option gmap functions list.
From S2P Require Import Prelude Bitset Size Data Cas Huge.
Local Open Scope Z_scope.
Local Open Scope prog_scope.

(** ** Slot claims *)

(** The claims tile [0, n): each starts where the previous one ends. *)
Inductive tiled : gmap Z Claim -> Z -> Prop :=
| tiled_nil : tiled ∅ 0
| tiled_snoc sl n c :
    tiled sl n -> 1 <= claim_count c -> n + claim_count c <= COUNT_SLOT ->
    tiled (<[n := c]> sl) (n + claim_count c).

(** Start of a claim, or the first free slot. *)
Definition boundary (sl : gmap Z Claim) (n i : Z) : Prop := i = n \/ is_Some (sl !! i).

Lemma tiled_bounds sl n : tiled sl n -> 0 <= n <= COUNT_SLOT.
Proof. unfold COUNT_SLOT. induction 1; unfold COUNT_SLOT in *; lia. Qed.

Lemma tiled_lookup sl n i c :
  tiled sl n -> sl !! i = Some c -> 0 <= i /\ 1 <= claim_count c /\ i + claim_count c <= n.
Proof.
  intros Ht. revert i c. induction Ht as [|sl n c' Ht IH Hc Hn]; intros i c; [by rewrite lookup_empty|].
  pose proof (tiled_bounds _ _ Ht). destruct (decide (i = n)) as [->|Hne].
  - rewrite lookup_insert_eq. intros [= <-]. lia.
  - rewrite lookup_insert_ne by done. intros H'. apply IH in H'. lia.
Qed.

Lemma tiled_fresh sl n i : tiled sl n -> n <= i -> sl !! i = None.
Proof.
  intros Ht Hi. destruct (sl !! i) as [c|] eqn:E; [|done].
  pose proof (tiled_lookup _ _ _ _ Ht E). lia.
Qed.

Lemma boundary_next sl n i c :
  tiled sl n -> sl !! i = Some c -> boundary sl n (i + claim_count c).
Proof.
  intros Ht. revert i c. induction Ht as [|sl n c' Ht IH Hc Hn]; intros i c; [by rewrite lookup_empty|].
  destruct (decide (i = n)) as [->|Hne].
  - rewrite lookup_insert_eq. intros [= <-]. by left.
  - rewrite lookup_insert_ne by done. intros E. destruct (IH i c E) as [Eq|Hs]; right.
    + rewrite Eq, lookup_insert_eq. eauto.
    + rewrite lookup_insert_ne; [done|]. intros Eq. rewrite <- Eq in Hs.
      rewrite (tiled_fresh sl n) in Hs by (done || lia). by destruct Hs.
Qed.

(** Two claims do not overlap. *)
Lemma tiled_disjoint sl n i c j c' :
  tiled sl n -> sl !! i = Some c -> sl !! j = Some c' -> i < j -> i + claim_count c <= j.
Proof.
  intros Ht. revert i c j c'. induction Ht as [|sl n d Ht IH Hd Hn]; intros i c j c'; [by rewrite lookup_empty|].
  intros Hi Hj Hij. destruct (decide (j = n)) as [->|Hj'].
  - rewrite lookup_insert_ne in Hi by lia. pose proof (tiled_lookup _ _ _ _ Ht Hi). lia.
  - rewrite lookup_insert_ne in Hj by done. destruct (decide (i = n)) as [->|Hi'].
    + pose proof (tiled_lookup _ _ _ _ Ht Hj). lia.
    + rewrite lookup_insert_ne in Hi by done. by eapply IH.
Qed.

(** The loop skips claimed slots and stops at the first free one. *)
Lemma claim_loop_spec sl n c i fuel :
  tiled sl n -> 0 <= claim_count c -> boundary sl n i -> 0 <= i <= n -> (n - i < Z.of_nat fuel) ->
  claim_loop fuel sl c i =
    if (n + claim_count c <=? COUNT_SLOT) && (n <? COUNT_SLOT) then Done (<[n := c]> sl, n) else Panic.
Proof.
  intros Ht Hc. revert i. induction fuel as [|fuel IH]; intros i Hb Hi Hf; [lia|]. simpl.
  destruct Hb as [->|[c' Hs]].
  - rewrite (tiled_fresh sl n n) by (done || lia). by destruct (_ <=? _), (_ <? _).
  - pose proof (tiled_lookup _ _ _ _ Ht Hs) as Hl. rewrite Hs. pose proof (tiled_bounds _ _ Ht).
    rewrite (proj2 (Z.ltb_lt i COUNT_SLOT)) by lia.
    destruct (Z.leb_spec (i + claim_count c) COUNT_SLOT) as [Hle|Hgt].
    + apply IH; [by eapply boundary_next|lia|lia].
    + rewrite (proj2 (Z.leb_gt _ _)) by lia. done.
Qed.

(** A claim of no slots where the search starts stops every later search. *)
Lemma claim_loop_stuck sl c d i fuel :
  sl !! i = Some d -> claim_count d = 0 -> i + claim_count c <= COUNT_SLOT -> i < COUNT_SLOT ->
  claim_loop fuel sl c i = Diverge.
Proof.
  intros Hd H0 Hle Hlt. induction fuel as [|fuel IH]; [done|]. simpl.
  by rewrite (proj2 (Z.leb_le _ _)), (proj2 (Z.ltb_lt _ _)), Hd, H0, Z.add_0_r by lia.
Qed.

Lemma claim_loop_over sl c i fuel : COUNT_SLOT < i + claim_count c -> claim_loop (S fuel) sl c i = Panic.
Proof. intros H. simpl. by rewrite (proj2 (Z.leb_gt _ _)). Qed.

(** The claim that covers a slot is found from any slot inside it. *)
Lemma find_loop_spec sl n k c d :
  tiled sl n -> sl !! Z.of_nat k = Some c -> Z.of_nat d < claim_count c ->
  find_loop sl (k + d) = Some (claim_id c).
Proof.
  intros Ht Hk Hd. induction d as [|d IH].
  - rewrite Nat.add_0_r. destruct k; simpl in *; by rewrite Hk.
  - replace (k + S d)%nat with (S (k + d)) by lia. cbn [find_loop].
    destruct (sl !! Z.of_nat (S (k + d))) as [c'|] eqn:E; [|apply IH; lia].
    pose proof (tiled_disjoint sl n _ c _ c' Ht Hk E ltac:(lia)). lia.
Qed.

(** ** Hazards *)

(** The hazards in use, as a list of offsets. *)
Record hz_wf (o : HOwned) (l : list Z) : Prop := {
  hw_len : hz_len o = Z.of_nat (length l);
  hw_cap : length (hazards o) = 1024%nat;
  hw_fit : (length l <= 1024)%nat;
  hw_list : hz_list o = Some <$> l;
  hw_nodup : NoDup l;
}.

Lemma hz_contains_spec o l x : hz_wf o l -> hz_contains o x = bool_decide (x ∈ l).
Proof.
  intros Hw. unfold hz_contains. rewrite (hw_list _ _ Hw). apply eq_bool_prop_intro.
  rewrite !Is_true_true, existsb_exists, bool_decide_eq_true. split.
  - intros (h & Hin & Hh). apply bool_decide_eq_true in Hh as ->. apply list_elem_of_In in Hin.
    apply list_elem_of_fmap in Hin as (y & [= ->] & Hy). done.
  - intros Hx. exists (Some x). split; [|by apply bool_decide_eq_true].
    apply list_elem_of_In, list_elem_of_fmap. eauto.
Qed.

Lemma remove_dups_id {A} `{EqDecision A} (l : list A) : NoDup l -> remove_dups l = l.
Proof.
  induction 1 as [|x l Hx Hl IH]; [done|]. simpl. case_match; [done|by rewrite IH].
Qed.

Lemma hz_validate_ok cfg o l : hz_wf o l -> hz_validate cfg o = Done tt.
Proof.
  intros Hw. unfold hz_validate. destruct (validating cfg); [|done]. rewrite (hw_list _ _ Hw).
  assert (NoDup (Some <$> l)) as Hnd by (apply NoDup_fmap; [apply _|apply Hw]).
  rewrite remove_dups_id by done. rewrite length_fmap, (hw_len _ _ Hw), Z.eqb_refl, andb_true_r.
  assert (forallb (fun h : option Z => bool_decide (h <> None)) (Some <$> l) = true) as ->; [|done].
  apply forallb_forall. intros h Hh. apply list_elem_of_In, list_elem_of_fmap in Hh as (y & -> & _).
  by apply bool_decide_eq_true.
Qed.

Lemma hz_insert_spec cfg o l x :
  hz_wf o l -> x ∉ l -> (length l < 1024)%nat ->
  exists o', hz_insert cfg o x = Done o' /\ hz_wf o' (l ++ [x]) /\ hz_head o' = hz_head o.
Proof.
  intros Hw Hx Hlen. unfold hz_insert.
  rewrite (hz_contains_spec _ _ _ Hw), bool_decide_eq_false_2, andb_false_r by done.
  rewrite (hw_len _ _ Hw), Nat2Z.id.
  destruct (lookup_lt_is_Some_2 (hazards o) (length l)) as [h Hh]; [rewrite (hw_cap _ _ Hw); lia|]. rewrite Hh.
  set (o' := mkHOwned _ _ _). assert (hz_wf o' (l ++ [x])) as Hw'.
  { split; simpl.
    - rewrite length_app. simpl. lia.
    - by rewrite length_insert, (hw_cap _ _ Hw).
    - rewrite length_app. simpl. lia.
    - unfold hz_list. simpl. replace (Z.to_nat (Z.of_nat (length l) + 1)) with (S (length l)) by lia.
      rewrite (take_S_r _ _ (Some x)) by (rewrite list_lookup_insert_eq; [done|rewrite (hw_cap _ _ Hw); lia]).
      rewrite take_insert_ge by lia. rewrite fmap_app. f_equal.
      rewrite <- (hw_list _ _ Hw). unfold hz_list. by rewrite (hw_len _ _ Hw), Nat2Z.id.
    - apply NoDup_app. split_and!; [apply Hw|set_solver|apply NoDup_singleton]. }
  exists o'. rewrite (hz_validate_ok _ _ _ Hw'). done.
Qed.

Lemma hz_insert_full cfg o l x :
  hz_wf o l -> x ∉ l -> length l = 1024%nat -> hz_insert cfg o x = Panic.
Proof.
  intros Hw Hx Hlen. unfold hz_insert.
  rewrite (hz_contains_spec _ _ _ Hw), bool_decide_eq_false_2, andb_false_r by done.
  rewrite (hw_len _ _ Hw), Nat2Z.id, lookup_ge_None_2; [done|]. rewrite (hw_cap _ _ Hw). lia.
Qed.

Lemma position_spec x l i : position x (Some <$> l) = Some i <-> l !! i = Some x /\ x ∉ take i l.
Proof.
  revert i. induction l as [|y l IH]; intros i; simpl; [naive_solver|].
  destruct (decide (Some y = Some x)) as [E|E].
  - injection E as ->. split; [intros [= <-]; simpl; set_solver|].
    destruct i as [|i]; [done|]. simpl. set_solver.
  - destruct i as [|i]; simpl.
    + rewrite fmap_Some. naive_solver.
    + rewrite fmap_Some. setoid_rewrite IH. set_unfold. naive_solver.
Qed.

Lemma position_None x l : position x (Some <$> l) = None <-> x ∉ l.
Proof.
  induction l as [|y l IH]; simpl; [set_solver|]. destruct (decide (Some y = Some x)) as [E|E].
  - injection E as ->. split; [done|set_solver].
  - rewrite fmap_None, IH. set_unfold. naive_solver.
Qed.

(** Removing by swapping in the last element. *)
Lemma swap_remove_perm (l1 l2 : list Z) x y :
  List.last (x :: l2) x = y ->
  x :: take (length (l1 ++ x :: l2) - 1) (l1 ++ y :: l2) ≡ₚ l1 ++ x :: l2.
Proof.
  intros Hy. destruct l2 as [|z l2' _] using rev_ind.
  - simpl in Hy. subst y. rewrite length_app. simpl. replace (length l1 + 1 - 1)%nat with (length l1) by lia.
    rewrite take_app_length. rewrite Permutation_app_comm. done.
  - assert (y = z) as ->.
    { rewrite <- Hy. change (x :: l2' ++ [z]) with ((x :: l2') ++ [z]). apply last_last. }
    rewrite !length_app. simpl. rewrite length_app. simpl.
    replace (length l1 + S (length l2' + 1) - 1)%nat with (length l1 + S (length l2'))%nat by lia.
    rewrite take_app_add. simpl. rewrite take_app_length.
    rewrite <- (Permutation_middle l1 (l2' ++ [z]) x). constructor. apply Permutation_app_head.
    rewrite (Permutation_app_comm l2'). done.
Qed.

Lemma last_lookup (l2 : list Z) x : (x :: l2) !! length l2 = Some (List.last (x :: l2) x).
Proof.
  destruct l2 as [|z l2 _] using rev_ind; [done|].
  change (x :: l2 ++ [z]) with ((x :: l2) ++ [z]). rewrite last_last.
  rewrite length_app. simpl length. rewrite lookup_app_r; simpl; [|lia].
  replace (length l2 + 1 - S (length l2))%nat with O by lia. done.
Qed.

Lemma hz_swap_remove_spec cfg o l x :
  hz_wf o l ->
  exists o', hz_swap_remove cfg o x = Done (o', bool_decide (x ∈ l)) /\ hz_head o' = hz_head o /\
    exists l', hz_wf o' l' /\ forall z, z ∈ l' <-> z ∈ l /\ z <> x.
Proof.
  intros Hw. unfold hz_swap_remove. rewrite (hw_list _ _ Hw).
  destruct (position x (Some <$> l)) as [i|] eqn:Ep.
  2: { apply position_None in Ep. rewrite bool_decide_eq_false_2 by done.
       exists o. split_and!; [done|done|]. exists l. split; [done|]. intros z. split; [|naive_solver].
       intros Hz. split; [done|]. by intros ->. }
  apply position_spec in Ep as [Hi _]. rewrite bool_decide_eq_true_2 by (by eapply list_elem_of_lookup_2).
  apply list_elem_of_split_length in Hi as (l1 & l2 & -> & ->).
  set (n := length (l1 ++ x :: l2)). set (y := List.last (x :: l2) x).
  assert (n = length l1 + 1 + length l2)%nat as Hlen by (unfold n; rewrite length_app; simpl; lia).
  assert (take n (hazards o) = Some <$> l1 ++ x :: l2) as Hl.
  { rewrite <- (hw_list _ _ Hw). unfold hz_list. by rewrite (hw_len _ _ Hw), Nat2Z.id. }
  rewrite (hw_len _ _ Hw). fold n. replace (Z.to_nat (Z.of_nat n - 1)) with (n - 1)%nat by lia.
  assert (hazards o !! (n - 1)%nat = Some (Some y)) as ->.
  { rewrite <- (lookup_take_lt (hazards o) n) by lia. rewrite Hl, list_lookup_fmap.
    rewrite lookup_app_r by lia. replace (n - 1 - length l1)%nat with (length l2) by lia.
    by rewrite last_lookup. }
  set (o' := mkHOwned _ _ _). set (l' := take (n - 1) (l1 ++ y :: l2)).
  assert (x :: l' ≡ₚ l1 ++ x :: l2) as Hperm by (by apply swap_remove_perm).
  assert (NoDup (x :: l')) as Hnd by (rewrite Hperm; apply Hw). apply NoDup_cons in Hnd as [Hx Hnd].
  assert (length l' = n - 1)%nat as Hlen'.
  { apply Permutation_length in Hperm. simpl in Hperm. fold n in Hperm. lia. }
  assert (hz_wf o' l') as Hw'.
  { pose proof (hw_fit _ _ Hw). fold n in H. split; simpl; [lia|by rewrite !length_insert, (hw_cap _ _ Hw)|lia| |done].
    unfold hz_list. simpl. replace (Z.to_nat (Z.of_nat n - 1)) with (n - 1)%nat by lia.
    rewrite take_insert_ge by lia. unfold l'. rewrite fmap_take.
    assert (Some <$> l1 ++ y :: l2 = take n (<[length l1 := Some y]> (hazards o))) as ->.
    { rewrite take_insert_lt by lia. rewrite Hl, <- list_fmap_insert. f_equal.
      rewrite insert_app_r_alt, Nat.sub_diag by lia. done. }
    rewrite take_take. f_equal. lia. }
  exists o'. rewrite (hz_validate_ok _ _ _ Hw'). split_and!; [done|done|]. exists l'. split; [done|].
  intros z. rewrite <- Hperm. set_unfold. naive_solver.
Qed.

(** ** Claims of the shared slots *)

(** Number of slots of a request. *)
Definition slots_of (size : Z) : Z := next_multiple_of size Size.Huge.SIZE_SLAB / Size.Huge.SIZE_SLAB.

Lemma slots_of_cover size : 1 <= size ->
  1 <= slots_of size /\ size <= slots_of size * 2 ^ 30 /\ (slots_of size - 1) * 2 ^ 30 < size.
Proof.
  intros Hs. unfold slots_of, next_multiple_of. change Size.Huge.SIZE_SLAB with (2 ^ 30).
  pose proof (Z.div_mod size (2 ^ 30) ltac:(lia)). pose proof (Z.mod_pos_bound size (2 ^ 30) ltac:(lia)).
  destruct (Z.eqb_spec (size mod 2 ^ 30) 0) as [E|E]; [lia|].
  replace (size + (2 ^ 30 - size mod 2 ^ 30)) with ((size / 2 ^ 30 + 1) * 2 ^ 30) by lia.
  rewrite Z.div_mul by lia. lia.
Qed.

(** The sizes whose rounding to slots fits a [usize]. *)
Definition claimable (size : Z) : Prop := 1 <= size <= 2 ^ 64 - Size.Huge.SIZE_SLAB.

Lemma claimable_rounds dbg size : claimable size ->
  next_multiple_of_uw dbg 64 size Size.Huge.SIZE_SLAB = Done (next_multiple_of size Size.Huge.SIZE_SLAB).
Proof.
  intros [H1 H2]. apply next_multiple_of_uw_exact.
  pose proof (next_multiple_of_spec size Size.Huge.SIZE_SLAB ltac:(lia) eq_refl).
  pose proof (next_multiple_of_le size Size.Huge.SIZE_SLAB (2 ^ 64 - Size.Huge.SIZE_SLAB) eq_refl eq_refl H2).
  change Size.Huge.SIZE_SLAB with (2 ^ 30) in *. lia.
Qed.

#[local] Arguments claim_loop : simpl never.

Section proofs.
Context (cfg : Cfg) {IV : IntervalSet} {IL : IntervalLaws IV}.

(** The shared slots: tiled up to [n], and the hint is a boundary. *)
Record slots_wf (s : HugeS) (n : Z) : Prop := {
  sw_tiled : tiled (slots s) n;
  sw_hint : boundary (slots s) n (hint s);
  sw_bound : 0 <= hint s <= n;
}.

Lemma zero_slots_wf : slots_wf zero_huge 0.
Proof. split; [constructor|by left|simpl; lia]. Qed.

Lemma shared_claim_spec id size s n :
  slots_wf s n -> claimable size ->
  shared_claim cfg id size s =
    if n + slots_of size <=? COUNT_SLOT then
      Done (put_slots (<[n := mkClaim id (slots_of size)]> (slots s)) (n + slots_of size) s,
            (n + 1, slots_of size))
    else Panic.
Proof.
  intros [Ht Hb Hh] Hs. pose proof (slots_of_cover size (proj1 Hs)) as (Hk & _).
  pose proof (tiled_bounds _ _ Ht) as Hn. unfold COUNT_SLOT in Hn.
  unfold shared_claim, bind, gets, lift. rewrite (claimable_rounds _ _ Hs). cbn [obind fst snd]. fold (slots_of size).
  unfold un_new. destruct (Z.ltb_spec (slots_of size) (2 ^ 48)) as [Hlt|Hge].
  2: { rewrite andb_false_r. cbn [obind]. rewrite (proj2 (Z.leb_gt _ _)); [done|unfold COUNT_SLOT; lia]. }
  rewrite (proj2 (Z.leb_le 0 _)) by lia. cbn [andb obind fst snd].
  rewrite (claim_loop_spec _ n) by (done || (unfold COUNT_SLOT; cbn [claim_count]; lia)). cbn [claim_count].
  destruct (Z.leb_spec (n + slots_of size) COUNT_SLOT) as [Hle|]; [|done].
  unfold COUNT_SLOT in Hle. rewrite (proj2 (Z.ltb_lt n COUNT_SLOT)) by (unfold COUNT_SLOT; lia). cbn [andb obind fst snd]. unfold modify, new_huge, index_add, index_MIN, checked_add, wrap. simpl.
  rewrite Z.mod_small by lia. rewrite (proj2 (Z.ltb_lt _ _)) by lia. simpl.
  by rewrite (Z.add_comm 1 n).
Qed.

Lemma slots_wf_claim id k s n :
  slots_wf s n -> 1 <= k -> n + k <= COUNT_SLOT ->
  slots_wf (put_slots (<[n := mkClaim id k]> (slots s)) (n + k) s) (n + k).
Proof.
  intros [Ht Hb Hh] Hk Hle. split; simpl.
  - by apply (tiled_snoc (slots s) n (mkClaim id k)).
  - by left.
  - pose proof (tiled_bounds _ _ Ht). lia.
Qed.

(** The slot of an offset, and the owner the map gives for it. *)
Lemma shared_find_spec s n i c o :
  slots_wf s n -> slots s !! i = Some c ->
  (i + 1) * 2 ^ 30 <= o < (i + 1 + claim_count c) * 2 ^ 30 ->
  shared_find s o = Done (Some (claim_id c)).
Proof.
  intros [Ht _ _] Hi Ho. pose proof (tiled_bounds _ _ Ht) as Hn. unfold COUNT_SLOT in Hn.
  pose proof (tiled_lookup _ _ _ _ Ht Hi) as (Hi0 & Hc & Hic).
  assert (i + 1 <= o / 2 ^ 30 < i + 1 + claim_count c) as Hq.
  { split; [apply Z.div_le_lower_bound; lia|apply Z.div_lt_upper_bound; lia]. }
  unfold shared_find, into_index, index_from_offset. change (SIZE_SLAB (Bracket := Size.Huge.bracket)) with (2 ^ 30).
  unfold wrap. rewrite Z.mod_small by lia. rewrite (proj2 (Z.eqb_neq _ _)) by lia. simpl obind.
  unfold index_to_u32, COUNT_SLOT. rewrite (proj2 (Z.ltb_lt _ _)) by lia. f_equal.
  replace (Z.to_nat (o / 2 ^ 30 - 1)) with (Z.to_nat i + Z.to_nat (o / 2 ^ 30 - 1 - i))%nat by lia.
  eapply find_loop_spec; [done|by rewrite Z2Nat.id|lia].
Qed.

(** [Shared::claim] on a well-formed map takes the first slots that were
    never claimed, exactly as many as the size needs, keeps the map well
    formed, and [Shared::find] answers the claiming thread for every offset
    inside them; when fewer slots are left it panics. No two claims of the map
    share a slot. *)
Theorem claim_then_find id size s n :
  slots_wf s n -> claimable size ->
  (if n + slots_of size <=? COUNT_SLOT then
     exists s', shared_claim cfg id size s = Done (s', (n + 1, slots_of size)) /\
       slots_wf s' (n + slots_of size) /\
       (forall o, (n + 1) * 2 ^ 30 <= o < (n + 1 + slots_of size) * 2 ^ 30 ->
          shared_find s' o = Done (Some id)) /\
       (forall i j c c', slots s' !! i = Some c -> slots s' !! j = Some c' -> i < j ->
          i + claim_count c <= j)
   else shared_claim cfg id size s = Panic).
Proof.
  intros Hw Hs. pose proof (slots_of_cover size (proj1 Hs)) as (Hk & _). rewrite (shared_claim_spec _ _ _ n) by done.
  destruct (Z.leb_spec (n + slots_of size) COUNT_SLOT) as [Hle|]; [|done].
  pose proof (slots_wf_claim id _ _ _ Hw Hk Hle) as Hw'. eexists. split_and!; [done|done| |].
  - intros o Ho. eapply (shared_find_spec _ _ n (mkClaim id (slots_of size))); [done| |done].
    apply lookup_insert_eq.
  - intros i j c c' Hi Hj Hij. eapply tiled_disjoint; [apply Hw'|..]; eauto.
Qed.

(** ** Requests that do not round to a [usize] *)

(** A release build rounds sizes above 2^64 - 2^30 to zero. *)
Lemma oversized_rounds size : 2 ^ 64 - Size.Huge.SIZE_SLAB < size < 2 ^ 64 ->
  next_multiple_of_uw false 64 size Size.Huge.SIZE_SLAB = Done 0.
Proof.
  change Size.Huge.SIZE_SLAB with (2 ^ 30). intros Hs. unfold next_multiple_of_uw, arith, wrap.
  assert (size mod 2 ^ 30 = size - (2 ^ 64 - 2 ^ 30)) as ->.
  { symmetry. apply (Z.mod_unique_pos _ _ (2 ^ 34 - 1)); lia. }
  rewrite (proj2 (Z.eqb_neq _ _)) by lia.
  replace (size + (2 ^ 30 - (size - (2 ^ 64 - 2 ^ 30)))) with (2 ^ 64) by lia. done.
Qed.

(** C38: a request above 2^64 - 2^30 bytes hangs the heap. In a release build
    its size rounds to zero slots: [Shared::claim] publishes a claim of none at
    the hint and returns, and from then on every claim of every thread that
    would fit goes round that slot for ever, whatever the fuel; one that would
    not fit panics. *)
Theorem oversized_claim_hangs id size s n :
  debug_assertions cfg = false -> slots_wf s n -> n < COUNT_SLOT ->
  2 ^ 64 - Size.Huge.SIZE_SLAB < size < 2 ^ 64 ->
  exists s', shared_claim cfg id size s = Done (s', (n + 1, 0)) /\
    slots s' !! n = Some (mkClaim id 0) /\ hint s' = n /\
    forall id' size', claimable size' ->
      shared_claim cfg id' size' s' = if n + slots_of size' <=? COUNT_SLOT then Diverge else Panic.
Proof.
  intros Hdbg [Ht Hb Hh] Hn Hs. pose proof (tiled_bounds _ _ Ht) as Htb. unfold COUNT_SLOT in Htb.
  exists (put_slots (<[n := mkClaim id 0]> (slots s)) n s). split_and!; [|apply lookup_insert_eq|done|].
  - unfold shared_claim, bind, gets, lift. rewrite Hdbg, (oversized_rounds _ Hs). cbn [obind fst snd].
    change (un_new 48 (0 / Size.Huge.SIZE_SLAB)) with (Done 0). cbn [obind fst snd].
    rewrite (claim_loop_spec _ n) by (done || (unfold COUNT_SLOT; cbn [claim_count]; lia)). cbn [claim_count].
    rewrite (proj2 (Z.leb_le _ _)), (proj2 (Z.ltb_lt _ _)) by lia. cbn [andb obind fst snd].
    change (0 / Size.Huge.SIZE_SLAB) with 0. rewrite Z.add_0_r. unfold COUNT_SLOT in Hn.
    unfold modify, new_huge, index_add, index_MIN, checked_add, wrap. simpl.
    rewrite Z.mod_small by lia. rewrite (proj2 (Z.ltb_lt _ _)) by lia. simpl. by rewrite (Z.add_comm 1 n).
  - intros id' size' Hs'. pose proof (slots_of_cover size' (proj1 Hs')) as (Hk & _ & Hk').
    unfold shared_claim, bind, gets, lift. rewrite (claimable_rounds _ _ Hs'). cbn [obind fst snd]. fold (slots_of size').
    unfold un_new. destruct Hs' as [_ Hs']. change Size.Huge.SIZE_SLAB with (2 ^ 30) in Hs'.
    rewrite (proj2 (Z.leb_le 0 _)), (proj2 (Z.ltb_lt _ _)) by lia. cbn [andb obind fst snd].
    cbn [put_slots slots hint]. destruct (Z.leb_spec (n + slots_of size') COUNT_SLOT) as [Hle|Hgt].
    + by rewrite (claim_loop_stuck _ _ (mkClaim id 0)) by (apply lookup_insert_eq || done).
    + change (Z.to_nat COUNT_SLOT + 1)%nat with (S 1024). by rewrite claim_loop_over.
Qed.

(** ** The hazards as a set *)

(** The hazards of a thread are the set [X]. *)
Definition hz_abs (o : HOwned) (X : gset Z) : Prop := exists l, hz_wf o l /\ X = list_to_set l.

Lemma zero_hz_abs : hz_abs zero_howned ∅.
Proof. exists []. split; [|done]. split; try done; [simpl; lia|constructor]. Qed.

Lemma hz_wf_fun o l l' : hz_wf o l -> hz_wf o l' -> l = l'.
Proof.
  intros H H'. pose proof (hw_list _ _ H) as E. rewrite (hw_list _ _ H') in E.
  symmetry. by apply (inj (fmap Some)).
Qed.

Lemma hz_abs_fun o X Y : hz_abs o X -> hz_abs o Y -> X = Y.
Proof. intros (l & Hl & ->) (l' & Hl' & ->). by rewrite (hz_wf_fun _ _ _ Hl Hl'). Qed.

Lemma hz_contains_abs o X x : hz_abs o X -> hz_contains o x = bool_decide (x ∈ X).
Proof.
  intros (l & Hw & ->). rewrite (hz_contains_spec _ _ _ Hw). apply bool_decide_ext.
  symmetry. apply elem_of_list_to_set.
Qed.

Lemma hz_insert_abs o X x :
  hz_abs o X -> x ∉ X ->
  if bool_decide (Z.of_nat (size X) < 1024) then
    exists o', hz_insert cfg o x = Done o' /\ hz_abs o' ({[x]} ∪ X) /\ hz_head o' = hz_head o
  else hz_insert cfg o x = Panic.
Proof.
  intros (l & Hw & ->). rewrite elem_of_list_to_set, size_list_to_set by apply Hw. intros Hx.
  pose proof (hw_fit _ _ Hw). case_bool_decide as Hlen.
  - destruct (hz_insert_spec cfg o l x Hw Hx) as (o' & Ho & Hw' & Hh); [lia|].
    exists o'. split_and!; [done| |done]. exists (l ++ [x]). split; [done|]. set_solver.
  - apply (hz_insert_full _ _ l); [done|done|lia].
Qed.

Lemma hz_swap_remove_abs o X x :
  hz_abs o X ->
  exists o', hz_swap_remove cfg o x = Done (o', bool_decide (x ∈ X)) /\
    hz_abs o' (X ∖ {[x]}) /\ hz_head o' = hz_head o.
Proof.
  intros (l & Hw & ->). destruct (hz_swap_remove_spec cfg o l x Hw) as (o' & Ho & Hh & l' & Hw' & Hl').
  exists o'. split_and!; [|exists l'; split; [done|set_solver]|done].
  rewrite Ho. do 2 f_equal. apply bool_decide_ext. symmetry. apply elem_of_list_to_set.
Qed.

(** C22: the hazard array behaves as a set: [contains] is membership; [insert]
    of a new offset adds it and panics when all 1024 entries are used;
    inserting an offset twice is caught by validation; [swap_remove] removes
    the offset and answers whether it was there. *)
Theorem hazards_refine_set o X x :
  hz_abs o X ->
  hz_contains o x = bool_decide (x ∈ X) /\
  (x ∉ X -> Z.of_nat (size X) < 1024 ->
     exists o', hz_insert cfg o x = Done o' /\ hz_abs o' ({[x]} ∪ X) /\ hz_head o' = hz_head o) /\
  (x ∉ X -> Z.of_nat (size X) = 1024 -> hz_insert cfg o x = Panic) /\
  (x ∈ X -> validating cfg = true -> hz_insert cfg o x = Panic) /\
  (exists o', hz_swap_remove cfg o x = Done (o', bool_decide (x ∈ X)) /\
     hz_abs o' (X ∖ {[x]}) /\ hz_head o' = hz_head o).
Proof.
  intros HX. split_and!.
  - by apply hz_contains_abs.
  - intros Hx Hlen. pose proof (hz_insert_abs o X x HX Hx) as H. by rewrite bool_decide_eq_true_2 in H.
  - intros Hx Hlen. pose proof (hz_insert_abs o X x HX Hx) as H. rewrite bool_decide_eq_false_2 in H by lia. done.
  - intros Hx Hv. unfold hz_insert. by rewrite Hv, (hz_contains_abs _ X), bool_decide_eq_true_2.
  - by apply hz_swap_remove_abs.
Qed.

(** ** The allocator of a thread *)

(** The free set is well formed and inside the 1 TiB of huge address space. *)
Record halloc_wf (a : HAllocator) : Prop := {
  aw_ok : i_ok (ha_free a);
  aw_bound : forall k, i_mem (ha_free a) k = true -> 0 <= k < 2 ^ 40;
  aw_index : 0 <= ha_index a < 2 ^ 63;
}.

Lemma halloc_default_wf : halloc_wf halloc_default.
Proof. split; simpl; [apply empty_ok|intros k; by rewrite empty_mem|lia]. Qed.

Lemma range_end_ok off size :
  0 <= off <= 2 ^ 41 -> 1 <= size <= 2 ^ 41 -> range_end cfg off size = Done (off + size - 1).
Proof.
  intros Ho Hs. unfold range_end. rewrite arith_ok by (unfold in_range; lia). simpl.
  apply arith_ok. unfold in_range. lia.
Qed.

(** Taking a range out of the free set, and putting one in. *)
Lemma cover_ok a off size :
  halloc_wf a -> 1 <= size -> (forall k, off <= k < off + size -> i_mem (ha_free a) k = true) ->
  exists a', cover cfg a off size = Done a' /\ halloc_wf a' /\ ha_index a' = ha_index a /\
    forall k, i_mem (ha_free a') k = i_mem (ha_free a) k && negb ((off <=? k) && (k <? off + size)).
Proof.
  intros Hw Hs Hfree. pose proof (aw_bound _ Hw _ (Hfree off ltac:(lia))) as Ho.
  pose proof (aw_bound _ Hw _ (Hfree (off + size - 1) ltac:(lia))) as Hhi.
  unfold cover. rewrite range_end_ok by lia. cbn [obind].
  rewrite (proj2 (overlap_full (ha_free a) off (off + size - 1) (aw_ok _ Hw) ltac:(lia)))
    by (intros k Hk; apply Hfree; lia).
  rewrite Z.eqb_refl. eexists. split; [done|].
  assert (forall k, i_mem (i_difference (ha_free a) off (off + size - 1)) k =
            i_mem (ha_free a) k && negb ((off <=? k) && (k <? off + size))) as Hmem.
  { intros k. rewrite difference_mem by (apply Hw || lia). do 3 f_equal.
    destruct (Z.leb_spec k (off + size - 1)), (Z.ltb_spec k (off + size)); done || lia. }
  split_and!; [|done|exact Hmem]. split; simpl; [apply difference_ok; [apply Hw|lia]| |apply Hw].
  intros k. rewrite Hmem. intros [Hk _]%andb_true_iff. by apply (aw_bound _ Hw).
Qed.

Lemma uncover_ok a off size :
  halloc_wf a -> 1 <= size -> 0 <= off -> off + size <= 2 ^ 40 ->
  exists a', uncover cfg a off size = Done a' /\ halloc_wf a' /\ ha_index a' = ha_index a /\
    (forall k, i_mem (ha_free a') k = i_mem (ha_free a) k || ((off <=? k) && (k <? off + size))) /\
    (exists lo hi, (lo, hi) ∈ i_iter (ha_free a') /\ size <= hi - lo + 1).
Proof.
  intros Hw Hs Ho Hhi. unfold uncover. rewrite range_end_ok by lia. cbn [obind]. eexists. split; [done|].
  assert (forall k, i_mem (i_extend (ha_free a) off (off + size - 1)) k =
            i_mem (ha_free a) k || ((off <=? k) && (k <? off + size))) as Hmem.
  { intros k. rewrite extend_mem by (apply Hw || lia). do 2 f_equal.
    destruct (Z.leb_spec k (off + size - 1)), (Z.ltb_spec k (off + size)); done || lia. }
  split_and!; [|done|exact Hmem|].
  - split; simpl; [apply extend_ok; [apply Hw|lia]| |apply Hw].
    intros k. rewrite Hmem. intros [Hk|Hk]%orb_true_iff; [by apply (aw_bound _ Hw)|].
    apply andb_true_iff in Hk as [H1 H2]. apply Z.leb_le in H1. apply Z.ltb_lt in H2. lia.
  - destruct (iter_extend (ha_free a) off (off + size - 1) (aw_ok _ Hw) ltac:(lia)) as (lo & hi & Hin & H1 & H2).
    exists lo, hi. split; [done|lia].
Qed.

(** [d] describes a range that was free in [a], and [a'] is [a] without it. *)
Record taken (a a' : HAllocator) (size : Z) (d : Descriptor) : Prop := {
  tk_wf : halloc_wf a -> ha_index a + 1 < 2 ^ 63 -> halloc_wf a';
  tk_size : dd_size d = size;
  tk_state : dd_state d = Live;
  tk_index : dd_index d = ha_index a + 1 /\ ha_index a' = ha_index a + 1;
  tk_free : forall k, dd_offset d <= k + 2 ^ 30 < dd_offset d + size -> i_mem (ha_free a) k = true;
  tk_rest : forall k, i_mem (ha_free a') k =
    i_mem (ha_free a) k && negb ((dd_offset d <=? k + 2 ^ 30) && (k + 2 ^ 30 <? dd_offset d + size));
}.

(** No free interval is large enough. *)
Definition no_fit (a : HAllocator) (size : Z) : Prop :=
  forall lo hi, (lo, hi) ∈ i_iter (ha_free a) -> hi - lo + 1 < size.

(** First fit. *)
Lemma halloc_allocate_spec a size :
  halloc_wf a -> 1 <= size ->
  (no_fit a size /\ halloc_allocate cfg a size = Done (a, None)) \/
  (~ no_fit a size /\ exists a' d, halloc_allocate cfg a size = Done (a', Some d) /\ taken a a' size d).
Proof.
  intros Hw Hs. unfold halloc_allocate.
  destruct (List.find _ _) as [[lo hi]|] eqn:Ef.
  - right. apply List.find_some in Ef as [Hin Hsz]. apply list_elem_of_In in Hin. apply Z.leb_le in Hsz.
    split; [intros Hno; specialize (Hno _ _ Hin); lia|].
    assert (forall k, lo <= k < lo + size -> i_mem (ha_free a) k = true) as Hfree.
    { intros k Hk. eapply iter_mem; [apply Hw|done|lia]. }
    destruct (cover_ok a lo size Hw Hs Hfree) as (a' & -> & Hw' & Hi & Hmem). cbn [obind].
    pose proof (aw_bound _ Hw _ (Hfree lo ltac:(lia))) as Hlo. pose proof (aw_index _ Hw) as Hix.
    rewrite arith_ok by (unfold in_range; lia). cbn [obind]. unfold offset_to_offset.
    change (SIZE_SLAB (Bracket := Size.Huge.bracket)) with (2 ^ 30).
    rewrite arith_ok by (unfold in_range; lia). cbn [obind]. unfold nonzero. rewrite (proj2 (Z.eqb_neq _ _)) by lia.
    exists (mkHAllocator (ha_free a') (ha_index a' + 1)). eexists. cbn [obind].
    split; [reflexivity|]. split; cbn [dd_size dd_state dd_index ha_index ha_free dd_offset]; try done.
    + intros _ Hlt. split; simpl; [apply Hw'|apply Hw'|lia].
    + lia.
    + intros k Hk. apply Hfree. lia.
    + intros k. rewrite Hmem. do 2 f_equal.
      destruct (Z.leb_spec lo k), (Z.ltb_spec k (lo + size)), (Z.leb_spec (lo + 2 ^ 30) (k + 2 ^ 30)),
        (Z.ltb_spec (k + 2 ^ 30) (lo + 2 ^ 30 + size)); done || lia.
  - left. split; [|done]. intros lo hi Hin%list_elem_of_In. apply (List.find_none _ _ Ef) in Hin.
    apply Z.leb_gt in Hin. lia.
Qed.

Lemma halloc_put a t s : halloc_of (put_halloc t a s) t = a.
Proof. unfold halloc_of. simpl. by rewrite lookup_insert_eq. Qed.

(** The slots [n, n + k) are added to the free space. *)
Record grown (a a' : HAllocator) (n k : Z) : Prop := {
  gr_wf : halloc_wf a';
  gr_index : ha_index a' = ha_index a;
  gr_mem : forall x, i_mem (ha_free a') x = i_mem (ha_free a) x || ((n * 2 ^ 30 <=? x) && (x <? (n + k) * 2 ^ 30));
  gr_fit : forall size, size <= k * 2 ^ 30 -> ~ no_fit a' size;
}.

Lemma halloc_claim_spec a n k :
  halloc_wf a -> 0 <= n -> 1 <= k -> n + k <= 1024 ->
  exists a', halloc_claim cfg a (n + 1) k = Done a' /\ grown a a' n k.
Proof.
  intros Hw Hn Hk Hle. unfold halloc_claim, index_to_u32. change Size.Huge.SIZE_SLAB with (2 ^ 30).
  rewrite arith_ok by (unfold in_range; lia). cbn [obind]. rewrite arith_ok by (unfold in_range; lia). cbn [obind].
  replace ((n + 1 - 1) * 2 ^ 30) with (n * 2 ^ 30) by lia.
  destruct (uncover_ok a (n * 2 ^ 30) (k * 2 ^ 30) Hw) as (a' & -> & Hw' & Hi & Hmem & lo & hi & Hin & Hsz); [lia..|].
  exists a'. split; [done|]. split; [done|done| |].
  - intros x. rewrite Hmem. do 2 f_equal. f_equal. lia.
  - intros size Hsize Hno. specialize (Hno _ _ Hin). lia.
Qed.

(** [Huge::claim]. *)
Lemma huge_claim_spec id size s n :
  slots_wf s n -> halloc_wf (halloc_of s id) -> claimable size ->
  if n + slots_of size <=? COUNT_SLOT then
    exists a, huge_claim cfg id size s =
      Done (put_halloc id a (put_slots (<[n := mkClaim id (slots_of size)]> (slots s)) (n + slots_of size) s), tt) /\
      grown (halloc_of s id) a n (slots_of size)
  else huge_claim cfg id size s = Panic.
Proof.
  intros Hw Ha Hs. pose proof (slots_of_cover size (proj1 Hs)) as (Hk & _). pose proof (tiled_bounds _ _ (sw_tiled _ _ Hw)).
  unfold huge_claim, bind. rewrite (shared_claim_spec _ _ _ n) by done.
  destruct (Z.leb_spec (n + slots_of size) COUNT_SLOT) as [Hle|]; [|done]. cbn [obind].
  unfold gets, lift. cbn [obind fst snd].
  change (halloc_of (put_slots _ _ s) id) with (halloc_of s id).
  destruct (halloc_claim_spec (halloc_of s id) n (slots_of size) Ha) as (a & -> & Hg); [lia|lia|unfold COUNT_SLOT in Hle; lia|].
  cbn [obind]. exists a. done.
Qed.

Lemma put_halloc_twice t a a' (s : HugeS) : put_halloc t a' (put_halloc t a s) = put_halloc t a' s.
Proof. unfold put_halloc. simpl. by rewrite insert_insert_eq. Qed.

Lemma allocate_loop_spec id size s n :
  slots_wf s n -> halloc_wf (halloc_of s id) -> claimable size ->
  let a := halloc_of s id in
  (~ no_fit a size /\ exists a' d,
     allocate_loop cfg 2 id size s = Done (put_halloc id a' s, d) /\ taken a a' size d) \/
  (no_fit a size /\ n + slots_of size <= COUNT_SLOT /\ exists a1 a' d,
     allocate_loop cfg 2 id size s =
       Done (put_halloc id a' (put_slots (<[n := mkClaim id (slots_of size)]> (slots s)) (n + slots_of size) s), d) /\
     grown a a1 n (slots_of size) /\ taken a1 a' size d) \/
  (no_fit a size /\ COUNT_SLOT < n + slots_of size /\ allocate_loop cfg 2 id size s = Panic).
Proof.
  intros Hw Ha Hs a. pose proof (slots_of_cover size (proj1 Hs)) as (_ & Hcov & _). unfold allocate_loop, bind, gets, lift, modify, ret. cbn [obind fst snd]. fold a.
  destruct (halloc_allocate_spec a size Ha (proj1 Hs)) as [[Hno ->]|[Hfit (a' & d & -> & Htk)]]; cbn [obind fst snd].
  2: { left. eauto. }
  right. set (s1 := put_halloc id a s). assert (halloc_of s1 id = a) as Ea by apply halloc_put.
  assert (slots_wf s1 n) as Hw1 by (destruct Hw; by split).
  pose proof (huge_claim_spec id size s1 n Hw1) as Hc. rewrite Ea in Hc. specialize (Hc Ha Hs).
  destruct (Z.leb_spec (n + slots_of size) COUNT_SLOT) as [Hle|Hgt]; [left|right; by rewrite Hc].
  destruct Hc as (a1 & -> & Hg). cbn [obind fst snd]. rewrite halloc_put. split_and!; [done|done|].
  destruct (halloc_allocate_spec a1 size (gr_wf _ _ _ _ Hg) (proj1 Hs)) as [[Hno' _]|[_ (a' & d & -> & Htk)]].
  { exfalso. by eapply (gr_fit _ _ _ _ Hg size). }
  exists a1, a', d. cbn [obind fst snd]. rewrite put_halloc_twice. split_and!; [|done|done].
  do 2 f_equal. unfold s1, put_halloc, put_slots. simpl. by rewrite insert_insert_eq.
Qed.

(** More rounds do not change a result. *)
Lemma allocate_loop_more fuel id size s :
  allocate_loop cfg fuel id size s <> Diverge ->
  allocate_loop cfg (S fuel) id size s = allocate_loop cfg fuel id size s.
Proof.
  revert s. induction fuel as [|fuel IH]; intros s; [done|].
  remember (S fuel) as fuel' eqn:Ef. rewrite Ef at 1 3. cbn [allocate_loop]. subst fuel'.
  unfold bind, gets, lift, modify. cbn [obind fst snd].
  destruct (halloc_allocate _ _ _) as [[a [d|]]| | |]; cbn [obind fst snd]; try done.
  destruct (huge_claim _ _ _ _) as [[s' ?]| | |]; cbn [obind fst snd]; try done. apply IH.
Qed.

(** C21: for a request of at most 2^64 - 2^30 bytes the allocation loop of
    [Huge::allocate] ends within two rounds
    (more rounds never change the result). Either a free interval of the
    thread fits, or the next unclaimed slots are claimed and then one fits:
    the returned descriptor describes a range that was free in the allocator
    (after the claim), which is exactly what leaves its free space. Only when
    nothing fits and fewer slots than needed are left does the loop panic. *)
Theorem huge_allocate_terminates id size s n :
  slots_wf s n -> halloc_wf (halloc_of s id) -> claimable size ->
  (forall fuel, allocate_loop cfg (fuel + 2) id size s = allocate_loop cfg 2 id size s) /\
  ((exists a a' d s', allocate_loop cfg 2 id size s = Done (s', d) /\
      (a = halloc_of s id \/ no_fit (halloc_of s id) size /\ grown (halloc_of s id) a n (slots_of size)) /\
      taken a a' size d /\ halloc_of s' id = a' /\ howned s' = howned s /\ descs s' = descs s) \/
   (no_fit (halloc_of s id) size /\ COUNT_SLOT < n + slots_of size /\
    allocate_loop cfg 2 id size s = Panic)).
Proof.
  intros Hw Ha Hs. pose proof (allocate_loop_spec id size s n Hw Ha Hs) as H. cbv zeta in H. split.
  - assert (allocate_loop cfg 2 id size s <> Diverge) as Hd by (by destruct H as [(_ & a' & d & -> & _)|[(_ & _ & a1 & a' & d & -> & _)|(_ & _ & ->)]]).
    induction fuel as [|fuel IH]; [done|]. rewrite Nat.add_succ_l, allocate_loop_more; [done|by rewrite IH].
  - destruct H as [(Hfit & a' & d & -> & Ht)|[(Hno & Hle & a1 & a' & d & -> & Hg & Ht)|H]]; [| |by right].
    + left. exists (halloc_of s id), a', d. eexists. split_and!; try done; [by left|apply halloc_put].
    + left. exists a1, a', d. eexists. split_and!; try done; [by right|apply halloc_put].
Qed.
End proofs.

#[local] Existing Instance IntervalList.intervals_laws.

Lemma claim_then_find_witness :
  exists s', shared_claim (IV := IntervalList.intervals) (default_cfg false) 3 (2 ^ 31) zero_huge = Done (s', (1, 2)) /\
    shared_find s' (2 ^ 31 + 5) = Done (Some 3).
Proof.
  destruct (claim_then_find (IV := IntervalList.intervals) (default_cfg false) 3 (2 ^ 31) zero_huge 0 zero_slots_wf ltac:(done))
    as (s' & H1 & _ & H2 & _).
  exists s'. split; [exact H1|]. apply H2. change (slots_of (2 ^ 31)) with 2. lia.
Defined.

Lemma oversized_claim_hangs_witness :
  exists s', shared_claim (IV := IntervalList.intervals) (default_cfg false) 3 (2 ^ 64 - 8192) zero_huge = Done (s', (1, 0)) /\
    shared_claim (default_cfg false) 4 4096 s' = Diverge.
Proof.
  destruct (oversized_claim_hangs (IV := IntervalList.intervals) (default_cfg false) 3 (2 ^ 64 - 8192) zero_huge 0
    eq_refl zero_slots_wf ltac:(done) ltac:(done)) as (s' & H1 & _ & _ & H2).
  exists s'. split; [exact H1|]. rewrite H2; [reflexivity|done].
Defined.

Lemma hazards_refine_set_witness :
  exists o', hz_insert (default_cfg true) zero_howned 7 = Done o' /\ hz_abs o' ({[7]} ∪ ∅) /\ hz_head o' = None.
Proof.
  destruct (hazards_refine_set (default_cfg true) zero_howned ∅ 7 zero_hz_abs) as (_ & H & _).
  apply H; [set_solver|rewrite size_empty; lia].
Defined.

Lemma huge_allocate_terminates_witness :
  allocate_loop (IV := IntervalList.intervals) (default_cfg true) 5 3 4096 zero_huge =
  allocate_loop (default_cfg true) 2 3 4096 zero_huge.
Proof.
  destruct (huge_allocate_terminates (IV := IntervalList.intervals) (default_cfg true) 3 4096 zero_huge 0
    zero_slots_wf halloc_default_wf ltac:(done)) as [H _].
  apply (H 3%nat).
Defined.
