(* ===== verification/HugeSys.v ===== *)
(** * HugeSys: the huge allocator as a system (Huge.v)

    Threads allocate, free and map huge ranges in any order. The invariant
    relates the claimed slots, the descriptor lists of all threads, their free
    address space and their hazards; every operation keeps it. Hence ranges in
    use never overlap, [Huge::find] returns the descriptor in use, and a
    descriptor is recycled only when no thread has it mapped. *)

From Stdlib Require Import ZArith Lia.
From stdpp Require Import base numbers option gmap functions list.
From S2P Require Import Prelude Bitset Size Data Cas Huge HugeSafe.
Local Open Scope Z_scope.
Local Open Scope prog_scope.

(** ** Descriptor lists *)

(** [k] is a byte of the range of [d] (offsets are stored one slab up). *)
Definition in_desc (d : Descriptor) (k : Z) : Prop := dd_offset d <= k + 2 ^ 30 < dd_offset d + dd_size d.

Section dlist.
Context (sbase : Z).

Definition addr_ok (p : Z) : Prop := sbase < p < 2 ^ 64.

(** The list from [walk] visits exactly the pointers [l]. *)
Fixpoint dlist (ds : gmap Z Descriptor) (walk : option Z) (l : list Z) : Prop :=
  match l with
  | [] => walk = None
  | p :: l => walk = Some p /\ addr_ok p /\
      exists d next, ds !! p = Some d /\ dd_next d = (fun q => q - (p + NEXT_FIELD)) <$> next /\ dlist ds next l
  end.

Lemma dlist_lookup ds w l p : dlist ds w l -> p ∈ l -> exists d, ds !! p = Some d.
Proof.
  revert w. induction l as [|q l IH]; intros w; [set_solver|]. intros (-> & _ & d & nx & Hd & _ & Hl).
  intros [->|Hp]%elem_of_cons; [eauto|by eapply IH].
Qed.

Lemma dlist_addr ds w l p : dlist ds w l -> p ∈ l -> addr_ok p.
Proof.
  revert w. induction l as [|q l IH]; intros w; [set_solver|]. intros (-> & Ha & d & nx & _ & _ & Hl).
  intros [->|Hp]%elem_of_cons; [done|by eapply IH].
Qed.

(** Only the [next] fields matter. *)
Lemma dlist_ext ds ds' w l :
  (forall p d, p ∈ l -> ds !! p = Some d -> exists d', ds' !! p = Some d' /\ dd_next d' = dd_next d) ->
  dlist ds w l -> dlist ds' w l.
Proof.
  revert w. induction l as [|q l IH]; intros w Hext; [done|]. intros (-> & Ha & d & nx & Hd & Hn & Hl).
  destruct (Hext q d) as (d' & Hd' & Hn'); [by left|done|]. split_and!; [done|done|]. exists d', nx.
  split_and!; [done|by rewrite Hn'|]. apply IH; [|done]. intros p e Hp. apply Hext. by right.
Qed.

Lemma dlist_head ds w l p : dlist ds w (p :: l) -> w = Some p.
Proof. by intros [-> _]. Qed.

Lemma trace_desc_spec ds n w l : 0 < sbase ->
  dlist ds w l -> (length l <= n)%nat -> trace_desc ds n w = Done l.
Proof.
  intros Hs. revert w n. induction l as [|p l IH]; intros w n; [by intros ->; destruct n|].
  intros (-> & Ha & d & nx & Hd & Hn & Hl) Hlen. destruct n as [|n]; [simpl in Hlen; lia|]. simpl. rewrite Hd, Hn.
  assert (trace_desc ds n nx = Done l) as Ht by (apply IH; [done|simpl in Hlen; lia]).
  destruct nx as [q|]; simpl; [|by rewrite Ht].
  assert (addr_ok q) as Hq.
  { destruct l as [|q' l]; [done|]. destruct Hl as ([= ->] & Hq & _). done. }
  unfold box_deref. replace (p + NEXT_FIELD + (q - (p + NEXT_FIELD))) with q by lia.
  unfold wrap, addr_ok in *. rewrite Z.mod_small by lia. unfold nonzero.
  rewrite (proj2 (Z.eqb_neq _ _)) by lia. simpl. by rewrite Ht.
Qed.

Lemma dlist_length ds w l : NoDup l -> dlist ds w l -> (length l <= size ds)%nat.
Proof.
  intros Hnd Hl. rewrite <- size_dom, <- (size_list_to_set (C := gset Z) l Hnd).
  apply subseteq_size. intros p Hp%elem_of_list_to_set. apply elem_of_dom.
  by destruct (dlist_lookup _ _ _ _ Hl Hp) as [d ->].
Qed.
End dlist.

(** In a list without duplicates an element has one position. *)
Lemma app_inj_pivot (l : list Z) p l1 l2 la lb :
  NoDup l -> l = l1 ++ p :: l2 -> l = la ++ p :: lb -> l1 = la.
Proof.
  intros Hnd E1 E2. assert (l !! length l1 = Some p) as H1 by (rewrite E1; apply list_lookup_middle; done).
  assert (l !! length la = Some p) as H2 by (rewrite E2; apply list_lookup_middle; done).
  assert (length l1 = length la) as El by (by eapply NoDup_lookup).
  rewrite E1 in E2. by apply app_inj_1 in E2 as [-> _].
Qed.

Section sys.
Context (cfg : Cfg) {IV : IntervalSet} {IL : IntervalLaws IV}.
Context (sbase hbase lo hi : Z) (map_ok : Z -> Z -> bool) (Hsbase : 0 < sbase).

(** ** The invariant *)

(** Byte [k] of the huge address space belongs to a slot claimed by [t]. *)
Definition owned_by (s : HugeS) (t k : Z) : Prop :=
  exists i c, slots s !! i = Some c /\ claim_id c = t /\ i * 2 ^ 30 <= k < (i + claim_count c) * 2 ^ 30.

Definition is_free (s : HugeS) (t k : Z) : Prop := i_mem (ha_free (halloc_of s t)) k = true.

(** A descriptor in use (allocated, or freed and not yet recycled). *)
Definition in_use (s : HugeS) (p : Z) (d : Descriptor) : Prop :=
  descs s !! p = Some d /\ dd_state d <> Safe.

Record hinv (n : Z) (L : Z -> list Z) (s : HugeS) : Prop := {
  hi_slots : slots_wf s n;
  hi_list : forall t, dlist sbase (descs s) (huge_peek sbase s t) (L t);
  hi_nodup : forall t, NoDup (L t);
  hi_sep : forall t t' p, p ∈ L t -> p ∈ L t' -> t = t';
  hi_alloc : forall t, halloc_wf (halloc_of s t);
  hi_own : forall t k, is_free s t k -> owned_by s t k;
  hi_range : forall t p d, p ∈ L t -> descs s !! p = Some d ->
    2 ^ 30 <= dd_offset d /\ 1 <= dd_size d /\ dd_offset d + dd_size d <= 2 ^ 41;
  hi_used : forall t p d k, p ∈ L t -> in_use s p d -> in_desc d k -> owned_by s t k /\ ~ is_free s t k;
  hi_order : forall t l1 p l2 q d e k, L t = l1 ++ p :: l2 -> q ∈ l1 ->
    in_use s p d -> descs s !! q = Some e -> in_desc d k -> ~ in_desc e k;
  hi_hz : forall t, exists X, hz_abs (howned_of s t) X /\ (forall x, x ∈ X -> id_wf t /\
    exists t' p d, p ∈ L t' /\ in_use s p d /\ dd_offset d = x);
}.

Lemma zero_hinv : hinv 0 (fun _ => []) zero_huge.
Proof.
  split.
  - apply zero_slots_wf.
  - done.
  - intros t. apply NoDup_nil_2.
  - by intros t t' p Hp%elem_of_nil.
  - intros t. apply halloc_default_wf.
  - intros t k. unfold is_free, halloc_of. simpl. rewrite lookup_empty. simpl. by rewrite empty_mem.
  - by intros t p d Hp%elem_of_nil.
  - by intros t p d k Hp%elem_of_nil.
  - intros t l1 p l2. by destruct l1.
  - intros t. exists ∅. split; [|set_solver]. apply zero_hz_abs.
Qed.

Lemma hinv_trace n L s t : hinv n L s -> trace_all s (huge_peek sbase s t) = Done (L t).
Proof.
  intros Hi. apply (trace_desc_spec sbase); [done|apply (hi_list _ _ _ Hi)|].
  pose proof (dlist_length _ _ _ _ (hi_nodup _ _ _ Hi t) (hi_list _ _ _ Hi t)). lia.
Qed.

Lemma hinv_lookup n L s t p : hinv n L s -> p ∈ L t -> exists d, descs s !! p = Some d.
Proof. intros Hi Hp. eapply dlist_lookup; [apply (hi_list _ _ _ Hi)|done]. Qed.

(** Slots belong to one thread. *)
Lemma owned_by_unique n s t t' k : slots_wf s n -> owned_by s t k -> owned_by s t' k -> t = t'.
Proof.
  intros [Ht _ _] (i & c & Hi & <- & Hk) (j & c' & Hj & <- & Hk').
  destruct (Z.lt_trichotomy i j) as [Hlt|[->|Hlt]].
  - pose proof (tiled_disjoint _ _ _ _ _ _ Ht Hi Hj Hlt). lia.
  - congruence.
  - pose proof (tiled_disjoint _ _ _ _ _ _ Ht Hj Hi Hlt). lia.
Qed.

Lemma owned_by_bound n s t k : slots_wf s n -> owned_by s t k -> 0 <= k < n * 2 ^ 30.
Proof. intros [Ht _ _] (i & c & Hi & _ & Hk). pose proof (tiled_lookup _ _ _ _ Ht Hi). lia. Qed.

(** Ranges in use do not overlap. *)
Lemma hinv_disjoint n L s t t' p p' d d' k :
  hinv n L s -> p ∈ L t -> p' ∈ L t' -> in_use s p d -> in_use s p' d' ->
  in_desc d k -> in_desc d' k -> p = p'.
Proof.
  intros Hi Hp Hp' Hd Hd' Hk Hk'.
  assert (t = t') as <-.
  { eapply owned_by_unique; [apply (hi_slots _ _ _ Hi)|..]; by eapply (hi_used _ _ _ Hi). }
  destruct (decide (p = p')) as [|Hne]; [done|exfalso].
  apply list_elem_of_split in Hp as (l1 & l2 & El). rewrite El in Hp'.
  apply elem_of_app in Hp' as [Hp'|Hp'].
  - by eapply (hi_order _ _ _ Hi t l1 p l2 p' d d' k); eauto; apply Hd'.
  - apply elem_of_cons in Hp' as [->|Hp']; [done|]. apply list_elem_of_split in Hp' as (l3 & l4 & ->).
    eapply (hi_order _ _ _ Hi t (l1 ++ p :: l3) p' l4 p d' d k); eauto; [by rewrite El, <- app_assoc|set_solver|apply Hd].
Qed.

Lemma desc_contains_not e o :
  dd_offset e + dd_size e < 2 ^ 64 -> ~ (dd_offset e <= o < dd_offset e + dd_size e) -> desc_contains e o = Done false.
Proof.
  intros Hb Ho. unfold desc_contains. destruct (Z.leb_spec (dd_offset e) o); [|done]. unfold offset_plus, checked_add.
  rewrite (proj2 (Z.ltb_lt _ _)) by lia. simpl. f_equal. apply Z.ltb_ge. lia.
Qed.

Lemma find_desc_none ds o l :
  (forall q, q ∈ l -> exists e, ds !! q = Some e /\ dd_offset e + dd_size e < 2 ^ 64 /\
     ~ (dd_offset e <= o < dd_offset e + dd_size e)) ->
  find_desc ds o l = Done None.
Proof.
  induction l as [|q l IH]; intros Hl; [done|]. simpl. destruct (Hl q) as (e & -> & H1 & H2); [by left|].
  rewrite desc_contains_not by done. simpl. apply IH. intros q' Hq'. apply Hl. by right.
Qed.

(** [Huge::find] on a byte in use: the descriptor in use, whatever stale
    descriptors the list also has. *)
Lemma find_desc_spec ds o l1 p l2 d :
  (forall q, q ∈ l1 -> exists e, ds !! q = Some e /\ dd_offset e + dd_size e < 2 ^ 64 /\
     ~ (dd_offset e <= o < dd_offset e + dd_size e)) ->
  ds !! p = Some d -> dd_offset d <= o < dd_offset d + dd_size d -> dd_offset d + dd_size d < 2 ^ 64 ->
  find_desc ds o (l1 ++ p :: l2) = Done (Some p).
Proof.
  intros Hl1 Hp Ho Hb. induction l1 as [|q l1 IH]; simpl.
  - rewrite Hp. unfold desc_contains. rewrite (proj2 (Z.leb_le _ _)) by lia. unfold offset_plus, checked_add.
    rewrite (proj2 (Z.ltb_lt _ _)) by lia. simpl. by rewrite (proj2 (Z.ltb_lt _ _)) by lia.
  - destruct (Hl1 q) as (e & -> & H3 & H4); [by left|].
    rewrite desc_contains_not by done. simpl. apply IH. intros q' Hq'. apply Hl1. by right.
Qed.
Lemma huge_find_spec n L s t p d o :
  hinv n L s -> p ∈ L t -> in_use s p d -> in_desc d (o - 2 ^ 30) ->
  huge_find sbase o s = Done (s, Some p).
Proof.
  intros Hi Hp Hd Ho. destruct (hi_used _ _ _ Hi t p d _ Hp Hd Ho) as [(i & c & Hc & <- & Hk) _].
  unfold huge_find, bind, gets, lift. cbn [obind fst snd].
  rewrite (shared_find_spec s n i c) by (apply (hi_slots _ _ _ Hi) || done || lia). cbn [obind fst snd].
  rewrite (hinv_trace n L) by done. cbn [obind fst snd].
  pose proof Hp as Hp'. apply list_elem_of_split in Hp' as (l1 & l2 & El). rewrite El, (find_desc_spec _ _ _ _ _ d).
  - done.
  - intros q Hq. assert (q ∈ L (claim_id c)) as Hq' by (rewrite El; set_solver).
    destruct (hinv_lookup _ _ _ _ _ Hi Hq') as [e He]. exists e.
    pose proof (hi_range _ _ _ Hi _ _ _ Hq' He) as Hr. split_and!; [done|lia|].
    pose proof (hi_order _ _ _ Hi _ l1 p l2 q d e _ El Hq Hd He Ho). unfold in_desc in *. lia.
  - apply Hd.
  - unfold in_desc in Ho. lia.
  - pose proof (hi_range _ _ _ Hi _ _ _ Hp (proj1 Hd)). lia.
Qed.

(** And on a byte that no descriptor covers. *)
Lemma huge_find_absent n L s o :
  hinv n L s -> 2 ^ 30 <= o < 2 ^ 62 -> (forall t p d, p ∈ L t -> descs s !! p = Some d -> ~ in_desc d (o - 2 ^ 30)) ->
  huge_find sbase o s = Done (s, None).
Proof.
  intros Hi Ho Hno. unfold huge_find, bind, gets, lift. cbn [obind fst snd]. unfold shared_find, into_index, index_from_offset.
  change (SIZE_SLAB (Bracket := Size.Huge.bracket)) with (2 ^ 30).
  assert (1 <= o / 2 ^ 30 < 2 ^ 32) as Hq by (split; [apply Z.div_le_lower_bound; lia|apply Z.div_lt_upper_bound; lia]).
  unfold wrap. rewrite Z.mod_small, (proj2 (Z.eqb_neq _ _)) by lia. cbn [obind fst snd].
  destruct (if _ <? COUNT_SLOT then _ else _) as [id|]; [|done].
  rewrite (hinv_trace n L) by done. cbn [obind fst snd]. rewrite find_desc_none; [done|].
  intros q Hq'. destruct (hinv_lookup _ _ _ _ _ Hi Hq') as [e He]. exists e.
  pose proof (hi_range _ _ _ Hi _ _ _ Hq' He) as Hr. split_and!; [done|lia|].
  pose proof (Hno id q e Hq' He) as Hn. unfold in_desc in Hn. lia.
Qed.

(** ** Operations that only give up hazards *)

Record hz_shrink (s s' : HugeS) : Prop := {
  hs_slots : slots s' = slots s;
  hs_hint : hint s' = hint s;
  hs_hallocs : hallocs s' = hallocs s;
  hs_descs : descs s' = descs s;
  hs_head : forall t, hz_head (howned_of s' t) = hz_head (howned_of s t);
  hs_hz : forall t X, hz_abs (howned_of s t) X -> exists X', hz_abs (howned_of s' t) X' /\ X' ⊆ X;
}.

#[local] Instance hz_shrink_preorder : PreOrder hz_shrink.
Proof.
  split.
  - intros s. split; try done. intros t X HX. exists X. done.
  - intros s1 s2 s3 [A1 A2 A3 A4 A5 A6] [B1 B2 B3 B4 B5 B6]. split; try congruence.
    intros t X HX. destruct (A6 t X HX) as (X' & HX' & ?). destruct (B6 t X' HX') as (X'' & HX'' & ?).
    exists X''. split; [done|set_solver].
Qed.

Lemma hinv_hz_shrink n L s s' : hz_shrink s s' -> hinv n L s -> hinv n L s'.
Proof.
  intros [E1 E2 E3 E4 Hh Hz] []. destruct s as [sl h ow ha ds mp], s' as [sl' h' ow' ha' ds' mp']. simpl in *. subst.
  assert (forall t, huge_peek sbase (mkHugeS sl h ow ha ds mp) t = huge_peek sbase (mkHugeS sl h ow' ha ds mp') t) as Ep.
  { intros t. unfold huge_peek. by rewrite Hh. }
  split; try done.
  - destruct hi_slots0. by split.
  - intros t. rewrite <- Ep. done.
  - intros t. destruct (hi_hz0 t) as (X & HX & Hx). destruct (Hz t X HX) as (X' & HX' & Hsub).
    exists X'. split; [done|]. intros x Hx'. apply Hx. set_solver.
Qed.

Lemma howned_put s t o : howned_of (put_howned t o s) t = o.
Proof. unfold howned_of. simpl. by rewrite lookup_insert_eq. Qed.

Lemma howned_put_ne s t t' o : t <> t' -> howned_of (put_howned t o s) t' = howned_of s t'.
Proof. intros Hne. unfold howned_of. simpl. by rewrite lookup_insert_ne. Qed.

(** [swap_remove] on the hazards of a thread. *)
Lemma swap_remove_shrink s id x X :
  hz_abs (howned_of s id) X ->
  exists o' b, hz_swap_remove cfg (howned_of s id) x = Done (o', b) /\ hz_shrink s (put_howned id o' s) /\
    hz_abs o' (X ∖ {[x]}).
Proof.
  intros HX. destruct (hz_swap_remove_abs cfg _ X x HX) as (o' & -> & HX' & Hh).
  exists o'. eexists. split_and!; [done| |done]. split; try done.
  - intros t. destruct (decide (id = t)) as [->|Hne]; [by rewrite howned_put|by rewrite howned_put_ne].
  - intros t Y HY. destruct (decide (id = t)) as [<-|Hne].
    + rewrite howned_put. exists (X ∖ {[x]}). split; [done|]. rewrite (hz_abs_fun _ _ _ HX HY). set_solver.
    + rewrite howned_put_ne by done. exists Y. done.
Qed.

Lemma hz_shrink_map s c : hz_shrink s (put_map c s).
Proof. split; try done. intros t X HX. exists X. done. Qed.

Lemma unmap_shrink d s (Q : HugeS -> unit -> Prop) :
  (forall s', hz_shrink s s' -> howned s' = howned s -> Q s' tt) -> pwp (unmap_descriptor cfg d) Q s.
Proof.
  intros HQ. unfold unmap_descriptor. apply pwp_bind, pwp_lift. unfold offset_to_u64.
  destruct (arith_cases (debug_assertions cfg) 64 (dd_offset d - SIZE_SLAB (Bracket := Size.Huge.bracket))) as [->|[y ->]]; [done|].
  pwp_go. apply HQ; [apply hz_shrink_map|done].
Qed.

(** [Huge::refresh]. *)
Lemma refresh_list_spec n L id l s :
  hinv n L s -> (forall p, p ∈ l -> exists t, p ∈ L t) ->
  pwp (refresh_list cfg id l) (fun s' _ => hz_shrink s s') s.
Proof.
  revert s. induction l as [|p l IH]; intros s Hi Hl; [unfold pwp; simpl; reflexivity|].
  assert (forall s', hz_shrink s s' -> pwp (refresh_list cfg id l) (fun s' _ => hz_shrink s s') s') as Hrest.
  { intros s' Hs'. eapply pwp_conseq; [apply IH; [by eapply hinv_hz_shrink|]|].
    - intros q Hq. apply Hl. by right.
    - intros s'' [] Hs''. by transitivity s'. }
  destruct (Hl p) as [t Hp]; [by left|]. destruct (hinv_lookup _ _ _ _ _ Hi Hp) as [d Hd].
  simpl. apply pwp_bind. unfold get_desc. pwp_go. rewrite Hd. pwp_go.
  destruct (dd_state d); [pwp_go; by apply Hrest| |pwp_go; by apply Hrest].
  pwp_go. destruct (hi_hz _ _ _ Hi id) as (X & HX & _).
  destruct (swap_remove_shrink s id (dd_offset d) X HX) as (o' & b & Eo & Hsh & _).
  apply pwp_lift. rewrite Eo. pwp_go. destruct b; simpl.
  - apply unmap_shrink. intros s' Hs' _. apply Hrest. by transitivity (put_howned id o' s).
  - pwp_go. by apply Hrest.
Qed.

Lemma refresh_spec n L id s :
  hinv n L s -> pwp (refresh cfg sbase id) (fun s' _ => hz_shrink s s') s.
Proof.
  unfold refresh. generalize help_rows as ts. intros ts. revert s.
  induction ts as [|t ts IH]; intros s Hi; [unfold pwp; simpl; reflexivity|]. simpl. pwp_go. apply pwp_lift.
  rewrite (hinv_trace n L) by done. pwp_go. eapply pwp_conseq; [eapply refresh_list_spec; eauto|].
  intros s' [] Hs'. eapply pwp_conseq; [apply IH; by eapply hinv_hz_shrink|]. intros s'' [] Hs''. by transitivity s'.
Qed.

(** ** Changes of descriptors and of free space *)

Definition with_state (st : DescState) (d : Descriptor) : Descriptor :=
  mkDesc (dd_index d) (dd_offset d) (dd_size d) (dd_next d) st.

(** No thread has a hazard on [x]. *)
Definition unhazarded (s : HugeS) (x : Z) : Prop := forall t X, hz_abs (howned_of s t) X -> x ∉ X.

Lemma protected_spec n L s x : hinv n L s -> protected s x = false -> unhazarded s x.
Proof.
  intros Hi Hp t X HX Hx. destruct (hi_hz _ _ _ Hi t) as (Y & HY & Hy).
  rewrite (hz_abs_fun _ _ _ HX HY) in Hx. destruct (Hy x Hx) as [[Ht1 Ht2] _].
  assert (existsb (fun t => hz_contains (howned_of s t) x) help_rows = true) as Hc; [|unfold protected in Hp; congruence].
  apply existsb_exists. exists t. split; [apply list_elem_of_In, elem_of_seqZ; lia|].
  by rewrite (hz_contains_abs _ Y) by done; apply bool_decide_eq_true.
Qed.

Lemma mark_lookup s p st d q e :
  descs s !! p = Some d -> descs (put_desc p (with_state st d) s) !! q = Some e ->
  exists e0, descs s !! q = Some e0 /\ dd_offset e = dd_offset e0 /\ dd_size e = dd_size e0 /\
    dd_next e = dd_next e0 /\ (q <> p -> e = e0) /\ (q = p -> e = with_state st d /\ e0 = d).
Proof.
  intros Hd. simpl. destruct (decide (q = p)) as [->|Hne].
  - rewrite lookup_insert_eq. intros [= <-]. exists d. done.
  - rewrite lookup_insert_ne by done. intros He. exists e. done.
Qed.

Lemma mark_in_use s p st d q e :
  in_use s p d -> in_use (put_desc p (with_state st d) s) q e ->
  exists e0, in_use s q e0 /\ forall k, in_desc e k <-> in_desc e0 k.
Proof.
  intros [Hd Hs] [He Hse]. destruct (mark_lookup _ _ _ _ _ _ Hd He) as (e0 & He0 & Eo & Es & _ & Hne & Heq).
  exists e0. split; [split; [done|]|].
  - destruct (decide (q = p)) as [E|E]; [|by rewrite <- (Hne E)]. by destruct (Heq E) as [_ ->].
  - intros k. unfold in_desc. by rewrite Eo, Es.
Qed.

(** The state of a descriptor in use changes; it may become safe only when no
    thread has a hazard on it. *)
Lemma hinv_mark n L s t p d st :
  hinv n L s -> p ∈ L t -> in_use s p d -> (st = Safe -> unhazarded s (dd_offset d)) ->
  hinv n L (put_desc p (with_state st d) s).
Proof.
  intros Hi Hp Hd Hst. pose proof (fun q e => mark_lookup s p st d q e (proj1 Hd)) as Hlk.
  pose proof (fun q e => mark_in_use s p st d q e Hd) as Huse. destruct Hi. split; try done.
  - destruct hi_slots0. by split.
  - intros u. apply (dlist_ext sbase (descs s)); [|apply hi_list0]. intros q e Hq He. simpl.
    destruct (decide (q = p)) as [->|Hne]; [rewrite lookup_insert_eq|rewrite lookup_insert_ne by done]; eauto.
    exists (with_state st d). split; [done|]. simpl. destruct Hd as [Hd _]. congruence.
  - intros u q e Hq He. destruct (Hlk q e He) as (e0 & He0 & -> & -> & _). by eapply hi_range0.
  - intros u q e k Hq He Hk. destruct (Huse q e He) as (e0 & He0 & Hiff). apply Hiff in Hk. by eapply hi_used0.
  - intros u l1 q l2 r e f k El Hr He Hf Hk Hkf. destruct (Huse q e He) as (e0 & He0 & Hiff). apply Hiff in Hk.
    destruct (Hlk r f Hf) as (f0 & Hf0 & Eo & Es & _). eapply (hi_order0 u l1 q l2 r e0 f0 k); eauto.
    unfold in_desc in *. by rewrite <- Eo, <- Es.
  - intros u. destruct (hi_hz0 u) as (X & HX & Hx). exists X. split; [done|]. intros x Hin.
    destruct (Hx x Hin) as [Hid (t' & q & e & Hq & [He Hes] & <-)]. split; [done|].
    destruct (decide (q = p)) as [->|Hne].
    + assert (e = d) as -> by (destruct Hd; congruence). exists t', p, (with_state st d).
      split_and!; [done| |done]. split; [simpl; by rewrite lookup_insert_eq|]. simpl. intros ->.
      by apply (Hst eq_refl u X).
    + exists t', q, e. split_and!; [done| |done]. split; [simpl; by rewrite lookup_insert_ne|done].
Qed.

(** A new allocator for [t] whose free space is owned and not in use. *)
Lemma hinv_halloc n L s t a :
  hinv n L s -> halloc_wf a ->
  (forall k, i_mem (ha_free a) k = true ->
     owned_by s t k /\ forall p e, p ∈ L t -> in_use s p e -> ~ in_desc e k) ->
  hinv n L (put_halloc t a s).
Proof.
  intros Hi Ha Hfree. assert (forall u, halloc_of (put_halloc t a s) u = if decide (t = u) then a else halloc_of s u) as Eh.
  { intros u. unfold halloc_of. simpl. destruct (decide (t = u)) as [->|Hne];
      [by rewrite lookup_insert_eq|by rewrite lookup_insert_ne]. }
  destruct Hi. split; try done.
  - destruct hi_slots0. by split.
  - intros u. rewrite Eh. by destruct (decide (t = u)).
  - intros u k. unfold is_free. rewrite Eh. destruct (decide (t = u)) as [<-|]; [intros Hk; by apply Hfree|apply hi_own0].
  - intros u p d k Hp Hd Hk. destruct (hi_used0 u p d k Hp Hd Hk) as [Ho Hn]. split; [done|].
    unfold is_free. rewrite Eh. destruct (decide (t = u)) as [<-|]; [|done]. intros Hk'.
    destruct (Hfree k Hk') as [_ Hno]. by eapply Hno.
Qed.

(** More slots are claimed. *)
Lemma owned_by_claim s n c k t h :
  slots s !! n = None -> owned_by s t k -> owned_by (put_slots (<[n := c]> (slots s)) h s) t k.
Proof.
  intros Hn (i & c' & Hi & Ht & Hk). exists i, c'. split_and!; [|done|lia|lia]. simpl.
  rewrite lookup_insert_ne; [done|congruence].
Qed.

Lemma hinv_claim n L s id k :
  hinv n L s -> 1 <= k -> n + k <= COUNT_SLOT ->
  hinv (n + k) L (put_slots (<[n := mkClaim id k]> (slots s)) (n + k) s).
Proof.
  intros Hi Hk Hle. assert (slots s !! n = None) as Hn.
  { eapply tiled_fresh; [apply (sw_tiled _ _ (hi_slots _ _ _ Hi))|lia]. }
  pose proof (fun x t => owned_by_claim s n (mkClaim id k) x t (n + k) Hn) as Hown. destruct Hi. split; try done.
  - by apply slots_wf_claim.
  - intros t x Hx. by apply Hown, hi_own0.
  - intros t p d x Hp Hd Hx. destruct (hi_used0 t p d x Hp Hd Hx). split; [by apply Hown|done].
Qed.

(** ** Recycling descriptors *)

(** What [Huge::reuse] changes: freed descriptors nobody has mapped become
    safe; hazards, slots and other threads' free space do not change. *)
Record recycled (id : Z) (s s' : HugeS) : Prop := {
  rc_slots : slots s' = slots s /\ hint s' = hint s;
  rc_howned : howned s' = howned s;
  rc_halloc : forall t, t <> id -> halloc_of s' t = halloc_of s t;
  rc_index : ha_index (halloc_of s' id) = ha_index (halloc_of s id);
  rc_dom : forall p, descs s !! p = None -> descs s' !! p = None;
  rc_descs : forall p e, descs s !! p = Some e -> exists e', descs s' !! p = Some e' /\
    (e' = e \/ dd_state e = Free /\ e' = with_state Safe e /\ unhazarded s (dd_offset e));
}.

Lemma unhazarded_same s s' x : howned s' = howned s -> unhazarded s' x -> unhazarded s x.
Proof. intros E H t X. specialize (H t X). unfold howned_of in *. by rewrite E in H. Qed.

#[local] Instance recycled_preorder id : PreOrder (recycled id).
Proof.
  split.
  - intros s. split; try done. intros p e He. exists e. eauto.
  - intros s1 s2 s3 [[A1 A1'] A2 A3 A4 A0 A5] [[B1 B1'] B2 B3 B4 B0 B5].
    split; [split; congruence|congruence| |congruence|by eauto|].
    + intros t Ht. by rewrite B3, A3.
    + intros p e He. destruct (A5 p e He) as (e' & He' & HA). destruct (B5 p e' He') as (e'' & He'' & HB).
      exists e''. split; [done|]. destruct HA as [->|(Hf & -> & Hu)].
      * destruct HB as [->|(Hf & -> & Hu)]; [by left|]. right. split_and!; [done|done|by eapply unhazarded_same].
      * destruct HB as [->|(Hf' & _)]; [by right|done].
Qed.

(** [r] is the first safe descriptor of [l]. *)
Definition first_safe (s : HugeS) (l : list Z) (r : option Z) : Prop :=
  match r with
  | None => forall q e, q ∈ l -> descs s !! q = Some e -> dd_state e <> Safe
  | Some p => exists la lb e, l = la ++ p :: lb /\ descs s !! p = Some e /\ dd_state e = Safe /\
      forall q f, q ∈ la -> descs s !! q = Some f -> dd_state f <> Safe
  end.

Lemma first_safe_skip s l r p e :
  first_safe s l r -> descs s !! p = Some e -> dd_state e <> Safe -> first_safe s (l ++ [p]) r.
Proof.
  intros Hr He Hs. destruct r as [p'|]; simpl in *.
  - destruct Hr as (la & lb & f & -> & Hf). exists la, (lb ++ [p]), f. by rewrite <- app_assoc.
  - intros q f [Hq| ->%list_elem_of_singleton]%elem_of_app Hf; [by eapply Hr|congruence].
Qed.

Lemma first_safe_hit s l r p e :
  first_safe s l r -> descs s !! p = Some e -> dd_state e = Safe -> first_safe s (l ++ [p]) (Some (default p r)).
Proof.
  intros Hr He Hs. destruct r as [p'|]; simpl in *.
  - destruct Hr as (la & lb & f & -> & Hf). exists la, (lb ++ [p]), f. by rewrite <- app_assoc.
  - exists l, [], e. done.
Qed.

Lemma first_safe_ext s s' l r :
  (forall q, q ∈ l -> descs s' !! q = descs s !! q) -> first_safe s l r -> first_safe s' l r.
Proof.
  intros Hext Hr. destruct r as [p|]; simpl in *.
  - destruct Hr as (la & lb & e & -> & He & Hs & Hla). exists la, lb, e. split_and!; [done|rewrite Hext; set_solver|done|].
    intros q f Hq. rewrite Hext by set_solver. by apply Hla.
  - intros q e Hq. rewrite Hext by done. by apply Hr.
Qed.

(** Giving the range of a freed descriptor back. *)
Lemma recycle_spec n L s id p d :
  hinv n L s -> p ∈ L id -> in_use s p d -> dd_state d = Free -> unhazarded s (dd_offset d) ->
  exists a, offset_to_u64 (H := Size.Huge.bracket) (debug_assertions cfg) (dd_offset d) = Done (dd_offset d - 2 ^ 30) /\
    uncover cfg (halloc_of s id) (dd_offset d - 2 ^ 30) (dd_size d) = Done a /\
    let s' := put_desc p (with_state Safe d) (put_halloc id a s) in
    hinv n L s' /\ recycled id s s'.
Proof.
  intros Hi Hp Hd Hf Hu. pose proof (hi_range _ _ _ Hi _ _ _ Hp (proj1 Hd)) as Hr.
  pose proof (tiled_bounds _ _ (sw_tiled _ _ (hi_slots _ _ _ Hi))) as Hn. unfold COUNT_SLOT in Hn.
  assert (owned_by s id (dd_offset d + dd_size d - 2 ^ 30 - 1)) as Ho.
  { eapply (hi_used _ _ _ Hi); [done|done|]. unfold in_desc. lia. }
  apply (owned_by_bound n) in Ho; [|apply (hi_slots _ _ _ Hi)].
  destruct (uncover_ok cfg (halloc_of s id) (dd_offset d - 2 ^ 30) (dd_size d)) as (a & Ea & Hwa & Hix & Hmem & _);
    [apply (hi_alloc _ _ _ Hi)|lia..|].
  exists a. split_and!; [|done|].
  { unfold offset_to_u64. change (SIZE_SLAB (Bracket := Size.Huge.bracket)) with (2 ^ 30).
    apply arith_ok. unfold in_range. lia. }
  intros s'. split.
  - change s' with (put_halloc id a (put_desc p (with_state Safe d) s)). apply hinv_halloc; [by eapply hinv_mark|done|].
    intros k. rewrite Hmem. intros Hk. assert (owned_by s id k /\ forall q e, q ∈ L id -> q <> p -> in_use s q e -> ~ in_desc e k) as [Hok Hno].
    { apply orb_true_iff in Hk as [Hk|Hk].
      - split; [by apply (hi_own _ _ _ Hi)|]. intros q e Hq _ He Hke. by apply (hi_used _ _ _ Hi id q e k).
      - apply andb_true_iff in Hk as [H1%Z.leb_le H2%Z.ltb_lt]. assert (in_desc d k) by (unfold in_desc; lia).
        split; [by eapply (hi_used _ _ _ Hi)|]. intros q e Hq Hne He Hke.
        apply Hne. by eapply (hinv_disjoint n L s id id q p e d k). }
    split; [done|]. intros q e Hq He Hke. destruct (decide (q = p)) as [->|Hne].
    + destruct He as [He Hse]. simpl in He. rewrite lookup_insert_eq in He. injection He as <-. done.
    + apply (Hno q e Hq Hne); [|done]. destruct He as [He Hse]. split; [|done]. simpl in He. by rewrite lookup_insert_ne in He.
  - split; try done.
    + intros t Ht. unfold s', halloc_of. simpl. by rewrite lookup_insert_ne.
    + unfold s', halloc_of at 1. simpl. rewrite lookup_insert_eq. done.
    + intros q Hq. unfold s'. simpl. rewrite lookup_insert_ne; [done|]. intros <-. destruct Hd. congruence.
    + intros q e He. unfold s'. simpl. destruct (decide (q = p)) as [->|Hne].
      * rewrite lookup_insert_eq. eexists. split; [done|]. right. destruct Hd as [Hd _].
        assert (e = d) as -> by congruence. done.
      * rewrite lookup_insert_ne by done. eauto.
Qed.

Lemma reuse_list_spec n L id l0 l safe s :
  hinv n L s -> L id = l0 ++ l -> first_safe s l0 safe ->
  pwp (reuse_list cfg id l safe) (fun s' r => hinv n L s' /\ recycled id s s' /\ first_safe s' (L id) r) s.
Proof.
  revert l0 safe s. induction l as [|p l IH]; intros l0 safe s Hi El Hsafe.
  { simpl. apply pwp_ret. rewrite El, app_nil_r. split_and!; [done|reflexivity|done]. }
  assert (p ∈ L id) as Hp by (rewrite El; set_solver). destruct (hinv_lookup _ _ _ _ _ Hi Hp) as [d Hd].
  assert (L id = (l0 ++ [p]) ++ l) as El' by (by rewrite <- app_assoc).
  simpl. apply pwp_bind. unfold get_desc. pwp_go. rewrite Hd. pwp_go.
  destruct (dd_state d) eqn:Hst.
  - apply (IH (l0 ++ [p])); [done|done|]. apply (first_safe_skip _ _ _ _ d); [done|done|congruence].
  - destruct (protected s (dd_offset d)) eqn:Hprot.
    { apply (IH (l0 ++ [p])); [done|done|]. apply (first_safe_skip _ _ _ _ d); [done|done|congruence]. }
    destruct (recycle_spec n L s id p d Hi Hp) as (a & Eo & Ea & Hi' & Hrec);
      [split; congruence|done|by eapply protected_spec|].
    pwp_go. apply pwp_lift. rewrite Eo. pwp_go. apply pwp_lift. rewrite Ea. pwp_go. fold (with_state Safe d).
    assert (NoDup (L id)) as Hnd by apply (hi_nodup _ _ _ Hi). rewrite El in Hnd. apply NoDup_app in Hnd as (_ & Hnd & _).
    eapply pwp_conseq; [apply (IH (l0 ++ [p])); [exact Hi'|done|]|].
    + apply (first_safe_hit _ _ _ _ (with_state Safe d)); [|simpl; by rewrite lookup_insert_eq|done].
      apply (first_safe_ext s); [|done]. intros q Hq. simpl. rewrite lookup_insert_ne; [done|].
      intros <-. apply (Hnd p); set_solver.
    + intros s' r (H1 & H2 & H3). split_and!; [done|by etrans|done].
  - apply (IH (l0 ++ [p])); [done|done|]. by apply (first_safe_hit _ _ _ _ d).
Qed.

(** [Huge::reuse] *)
Lemma reuse_spec n L id s :
  hinv n L s ->
  pwp (reuse cfg sbase id) (fun s' r => hinv n L s' /\ recycled id s s' /\
    exists p, first_safe s' (L id) p /\ r = (fun p => p - sbase) <$> p) s.
Proof.
  intros Hi. unfold reuse. pwp_go. apply pwp_lift. rewrite (hinv_trace n L) by done. pwp_go.
  eapply pwp_conseq; [apply (reuse_list_spec n L id []); [done|done|by intros q e Hq%elem_of_nil]|]. intros s' r (Hi' & Hrec & Hsafe). apply pwp_ret.
  split_and!; [done|done|]. exists r. split; [done|]. destruct r as [p|]; [|done]. simpl.
  destruct Hsafe as (la & lb & e & El & _). assert (p ∈ L id) as Hp by (rewrite El; set_solver).
  pose proof (dlist_addr _ _ _ _ _ (hi_list _ _ _ Hi' id) Hp) as Ha. unfold addr_ok in Ha.
  unfold pointer_to_offset, checked_sub. rewrite (proj2 (Z.leb_le _ _)) by lia. by rewrite (proj2 (Z.eqb_neq _ _)) by lia.
Qed.

(** ** Allocation *)

(** [d] describes space of [t] that is neither free nor in use. *)
Record pending (s : HugeS) (L : Z -> list Z) (t : Z) (d : Descriptor) : Prop := {
  pd_range : 2 ^ 30 <= dd_offset d /\ 1 <= dd_size d /\ dd_offset d + dd_size d <= 2 ^ 41;
  pd_space : forall k, in_desc d k -> owned_by s t k /\ ~ is_free s t k /\
    forall p e, p ∈ L t -> in_use s p e -> ~ in_desc e k;
}.

Lemma taken_pending n L s id a size d :
  hinv n L s -> 1 <= size -> ha_index (halloc_of s id) + 1 < 2 ^ 63 ->
  taken (halloc_of s id) a size d ->
  hinv n L (put_halloc id a s) /\ pending (put_halloc id a s) L id d.
Proof.
  intros Hi Hs Hix Ht. pose proof (hi_alloc _ _ _ Hi id) as Ha.
  assert (forall k, i_mem (ha_free (halloc_of s id)) k = true ->
    owned_by s id k /\ forall p e, p ∈ L id -> in_use s p e -> ~ in_desc e k) as Hfree.
  { intros k Hk. split; [by apply (hi_own _ _ _ Hi)|]. intros p e Hp He Hke. by apply (hi_used _ _ _ Hi id p e k). }
  split.
  - apply hinv_halloc; [done|by apply (tk_wf _ _ _ _ Ht)|]. intros k. rewrite (tk_rest _ _ _ _ Ht).
    intros [Hk _]%andb_true_iff. by apply Hfree.
  - pose proof (tk_size _ _ _ _ Ht) as Es. split.
    + pose proof (aw_bound _ Ha _ (tk_free _ _ _ _ Ht (dd_offset d - 2 ^ 30) ltac:(lia))).
      pose proof (aw_bound _ Ha _ (tk_free _ _ _ _ Ht (dd_offset d + size - 1 - 2 ^ 30) ltac:(lia))). lia.
    + intros k Hk. unfold in_desc in Hk. rewrite Es in Hk. pose proof (tk_free _ _ _ _ Ht k Hk) as Hm.
      split_and!; [by apply Hfree| |by apply Hfree]. unfold is_free. rewrite halloc_put, (tk_rest _ _ _ _ Ht).
      rewrite (proj2 (Z.leb_le _ _)), (proj2 (Z.ltb_lt _ _)) by lia. by rewrite andb_false_r.
Qed.

Lemma grown_inv n L s id a k :
  hinv n L s -> 1 <= k -> n + k <= COUNT_SLOT -> grown (halloc_of s id) a n k ->
  hinv (n + k) L (put_halloc id a (put_slots (<[n := mkClaim id k]> (slots s)) (n + k) s)).
Proof.
  intros Hi Hk Hle Hg. assert (slots s !! n = None) as Hn.
  { eapply tiled_fresh; [apply (sw_tiled _ _ (hi_slots _ _ _ Hi))|lia]. }
  apply hinv_halloc; [by apply hinv_claim|apply (gr_wf _ _ _ _ Hg)|]. intros x. rewrite (gr_mem _ _ _ _ Hg).
  intros [Hx|Hx]%orb_true_iff.
  - split; [by apply owned_by_claim, (hi_own _ _ _ Hi)|]. intros p e Hp He Hke. by apply (hi_used _ _ _ Hi id p e x).
  - apply andb_true_iff in Hx as [H1%Z.leb_le H2%Z.ltb_lt]. split.
    + exists n, (mkClaim id k). simpl. rewrite lookup_insert_eq. done.
    + intros p e Hp He Hke. destruct (hi_used _ _ _ Hi id p e x Hp He Hke) as [Ho _].
      apply (owned_by_bound n) in Ho; [lia|apply (hi_slots _ _ _ Hi)].
Qed.

Lemma allocate_loop_inv n L id size s :
  hinv n L s -> claimable size -> ha_index (halloc_of s id) + 1 < 2 ^ 63 ->
  pwp (allocate_loop cfg 2 id size) (fun s' d => exists n', hinv n' L s' /\ pending s' L id d /\
    dd_state d = Live /\ dd_size d = size /\ howned s' = howned s /\ descs s' = descs s) s.
Proof.
  intros Hi Hs Hix. pose proof (slots_of_cover size (proj1 Hs)) as (Hk & _).
  pose proof (allocate_loop_spec cfg id size s n (hi_slots _ _ _ Hi) (hi_alloc _ _ _ Hi id) Hs) as H. cbv zeta in H.
  destruct H as [(_ & a & d & E & Ht)|[(_ & Hle & a1 & a & d & E & Hg & Ht)|(_ & _ & E)]]; unfold pwp; rewrite E; [| |done].
  - exists n. destruct (taken_pending n L s id a size d Hi (proj1 Hs) Hix Ht). split_and!; try done; apply Ht.
  - exists (n + slots_of size). pose proof (grown_inv n L s id a1 _ Hi Hk Hle Hg) as Hi1.
    destruct (taken_pending _ L _ id a size d Hi1 (proj1 Hs)) as [Hi2 Hp2]; rewrite ?halloc_put; [by rewrite (gr_index _ _ _ _ Hg)|done|].
    rewrite put_halloc_twice in Hi2, Hp2. split_and!; try done; apply Ht.
Qed.

(** A pending range has no hazard. *)
Lemma pending_unhazarded n L s id d : hinv n L s -> pending s L id d -> unhazarded s (dd_offset d).
Proof.
  intros Hi Hp t X HX Hx. destruct (hi_hz _ _ _ Hi t) as (Y & HY & Hy).
  rewrite (hz_abs_fun _ _ _ HX HY) in Hx. destruct (Hy _ Hx) as [_ (t' & p & e & Hpl & He & Eo)].
  pose proof (hi_range _ _ _ Hi _ _ _ Hpl (proj1 He)) as Hr. pose proof (pd_range _ _ _ _ Hp) as Hrd.
  assert (in_desc d (dd_offset d - 2 ^ 30)) as Hd by (unfold in_desc; lia).
  assert (in_desc e (dd_offset d - 2 ^ 30)) as Hke by (unfold in_desc; lia).
  destruct (pd_space _ _ _ _ Hp _ Hd) as (Ho & _ & Hno). destruct (hi_used _ _ _ Hi _ _ _ _ Hpl He Hke) as [Ho' _].
  assert (t' = id) as -> by (eapply owned_by_unique; [apply (hi_slots _ _ _ Hi)|done|done]).
  by apply (Hno p e Hpl He).
Qed.

(** The first safe descriptor takes a pending range. *)
Lemma hinv_reinstall n L s id la p lb e d :
  hinv n L s -> L id = la ++ p :: lb -> descs s !! p = Some e -> dd_state e = Safe ->
  (forall q f, q ∈ la -> descs s !! q = Some f -> dd_state f <> Safe) ->
  pending s L id d -> dd_next d = dd_next e ->
  hinv n L (put_desc p d s).
Proof.
  intros Hi El He Hse Hla Hpd Hnx. assert (p ∈ L id) as Hp by (rewrite El; set_solver).
  assert (forall t, p ∈ L t -> t = id) as Honly by (intros t Ht; by eapply (hi_sep _ _ _ Hi)).
  assert (forall q f, descs (put_desc p d s) !! q = Some f -> q = p /\ f = d \/ q <> p /\ descs s !! q = Some f) as Hlk.
  { intros q f. simpl. destruct (decide (q = p)) as [->|Hne]; [rewrite lookup_insert_eq|rewrite lookup_insert_ne by done]; naive_solver. }
  destruct Hi. split; try done.
  - destruct hi_slots0. by split.
  - intros u. apply (dlist_ext sbase (descs s)); [|apply hi_list0]. intros q f Hq Hf. simpl.
    destruct (decide (q = p)) as [->|Hne]; [rewrite lookup_insert_eq|rewrite lookup_insert_ne by done]; [|eauto].
    exists d. split; [done|congruence].
  - intros u q f Hq Hf. destruct (Hlk q f Hf) as [[-> ->]|[Hne Hf']]; [apply Hpd|by eapply hi_range0].
  - intros u q f k Hq [Hf Hsf] Hk. destruct (Hlk q f Hf) as [[-> ->]|[Hne Hf']].
    + rewrite (Honly u Hq). by destruct (pd_space _ _ _ _ Hpd k Hk) as (? & ? & _).
    + by eapply hi_used0.
  - intros u l1 q l2 r f g k Eu Hr [Hf Hsf] Hg Hk Hkg. assert (q ∈ L u /\ r ∈ L u) as [Hq Hru] by (rewrite Eu; set_solver).
    destruct (Hlk q f Hf) as [[-> ->]|[Hne Hf']], (Hlk r g Hg) as [[-> ->]|[Hne' Hg']].
    + pose proof (hi_nodup0 u) as Hnd. rewrite Eu in Hnd. apply NoDup_app in Hnd as (_ & Hnd & _). apply (Hnd p); set_solver.
    + assert (u = id) as -> by auto. destruct (pd_space _ _ _ _ Hpd k Hk) as (_ & _ & Hno).
      apply (Hno r g); [done| |done]. split; [done|]. apply (Hla r); [|done].
      enough (l1 = la) by congruence. eapply (app_inj_pivot _ p); [apply hi_nodup0|exact Eu|exact El].
    + assert (u = id) as -> by auto. destruct (pd_space _ _ _ _ Hpd k Hkg) as (_ & _ & Hno).
      by apply (Hno q f).
    + by eapply (hi_order0 u l1 q l2 r f g k).
  - intros u. destruct (hi_hz0 u) as (X & HX & Hx). exists X. split; [done|]. intros x Hin.
    destruct (Hx x Hin) as [Hid (t' & q & f & Hq & [Hf Hsf] & <-)]. split; [done|]. exists t', q, f.
    split_and!; [done| |done]. split; [|done]. simpl. rewrite lookup_insert_ne; [done|]. intros <-. congruence.
Qed.

(** The head of a list moves to a new descriptor. *)
Definition with_head (o : HOwned) (h : option Z) : HOwned := mkHOwned h (hz_len o) (hazards o).

Lemma hz_abs_head o h X : hz_abs o X -> hz_abs (with_head o h) X.
Proof. intros (l & [] & ->). exists l. split; [by split|done]. Qed.

Definition push_list (L : Z -> list Z) (id p : Z) : Z -> list Z :=
  fun t => if decide (t = id) then p :: L id else L t.

Lemma elem_push L id p t q : q ∈ push_list L id p t <-> (t = id /\ q = p) \/ q ∈ L t.
Proof. unfold push_list. destruct (decide (t = id)) as [->|]; set_solver. Qed.

Definition pushed (s : HugeS) (id p : Z) (d : Descriptor) : HugeS :=
  put_howned id (with_head (howned_of s id) (Some (p - sbase))) (put_desc p d s).

Lemma pushed_howned s id p d t :
  exists h, howned_of (pushed s id p d) t = with_head (howned_of s t) h /\
    h = if decide (t = id) then Some (p - sbase) else hz_head (howned_of s t).
Proof.
  unfold pushed. destruct (decide (t = id)) as [->|Hne].
  - rewrite howned_put. eauto.
  - rewrite howned_put_ne by done. exists (hz_head (howned_of s t)). split; [|done].
    change (howned_of (put_desc p d s) t) with (howned_of s t). by destruct (howned_of s t).
Qed.

Lemma hinv_push n L s id p d :
  hinv n L s -> descs s !! p = None -> addr_ok sbase p -> pending s L id d ->
  dd_next d = (fun q => q - (p + NEXT_FIELD)) <$> huge_peek sbase s id ->
  hinv n (push_list L id p) (pushed s id p d).
Proof.
  intros Hi Hp Ha Hpd Hnx.
  assert (forall t q, q ∈ L t -> q <> p) as Hfresh.
  { intros t q Hq ->. destruct (hinv_lookup _ _ _ _ _ Hi Hq). congruence. }
  assert (forall q f, descs (pushed s id p d) !! q = Some f -> q = p /\ f = d \/ q <> p /\ descs s !! q = Some f) as Hlk.
  { intros q f. simpl. destruct (decide (q = p)) as [->|Hne]; [rewrite lookup_insert_eq|rewrite lookup_insert_ne by done]; naive_solver. }
  assert (forall t, dlist sbase (descs (pushed s id p d)) (huge_peek sbase s t) (L t)) as Hold.
  { intros t. apply (dlist_ext sbase (descs s)); [|apply (hi_list _ _ _ Hi)]. intros q f Hq Hf.
    exists f. split; [|done]. simpl. rewrite lookup_insert_ne; [done|]. apply not_eq_sym. by eapply Hfresh. }
  destruct Hi. split; try done.
  - destruct hi_slots0. by split.
  - intros t. unfold huge_peek. destruct (pushed_howned s id p d t) as (h & -> & ->). simpl. unfold push_list.
    destruct (decide (t = id)) as [->|]; [|apply Hold]. simpl. split_and!; [f_equal; unfold offset_to_pointer; lia|done|].
    exists d, (huge_peek sbase s id). split_and!; [by rewrite lookup_insert_eq|done|apply Hold].
  - intros t. unfold push_list. destruct (decide (t = id)); [|done]. apply NoDup_cons. split; [|done]. intros Hq. by apply Hfresh in Hq.
  - intros t t' q Hq%elem_push Hq'%elem_push. destruct Hq as [[-> ->]|Hq], Hq' as [[-> ?]|Hq']; try done.
    + by apply Hfresh in Hq'.
    + by apply Hfresh in Hq.
    + by eapply hi_sep0.
  - intros t q f Hq%elem_push Hf. destruct (Hlk q f Hf) as [[-> ->]|[Hne Hf']]; [apply Hpd|].
    destruct Hq as [[_ ->]|Hq]; [done|by eapply hi_range0].
  - intros t q f k Hq%elem_push [Hf Hsf] Hk. destruct (Hlk q f Hf) as [[-> ->]|[Hne Hf']].
    + destruct Hq as [[-> _]|Hq]; [by destruct (pd_space _ _ _ _ Hpd k Hk) as (? & ? & _)|by apply Hfresh in Hq].
    + destruct Hq as [[_ ->]|Hq]; [done|]. by eapply (hi_used0 t q f k).
  - intros t l1 q l2 r f g k Eu Hr [Hf Hsf] Hg Hk Hkg. unfold push_list in Eu. destruct (decide (t = id)) as [->|Hne].
    + destruct l1 as [|x l1]; [set_solver|]. simpl in Eu. injection Eu as <- Eu.
      assert (q ∈ L id) as Hq by (rewrite Eu; set_solver).
      destruct (Hlk q f Hf) as [[-> ->]|[Hne Hf']]; [by apply Hfresh in Hq|].
      apply elem_of_cons in Hr as [->|Hr].
      * destruct (Hlk p g Hg) as [[_ ->]|[? _]]; [|done]. destruct (pd_space _ _ _ _ Hpd k Hkg) as (_ & _ & Hno).
        by apply (Hno q f).
      * assert (r ∈ L id) as Hrl by (rewrite Eu; set_solver).
        destruct (Hlk r g Hg) as [[-> ->]|[_ Hg']]; [by apply Hfresh in Hrl|]. by eapply (hi_order0 id l1 q l2 r f g k).
    + assert (q ∈ L t /\ r ∈ L t) as [Hq Hrl] by (rewrite Eu; set_solver).
      destruct (Hlk q f Hf) as [[-> ->]|[_ Hf']]; [by apply Hfresh in Hq|].
      destruct (Hlk r g Hg) as [[-> ->]|[_ Hg']]; [by apply Hfresh in Hrl|]. by eapply (hi_order0 t l1 q l2 r f g k).
  - intros t. destruct (hi_hz0 t) as (X & HX & Hx). exists X.
    destruct (pushed_howned s id p d t) as (h & -> & _). split; [by apply hz_abs_head|]. intros x Hin.
    destruct (Hx x Hin) as [Hid (t' & q & f & Hq & [Hf Hsf] & <-)]. split; [done|]. exists t', q, f.
    split_and!; [apply elem_push; by right| |done]. split; [|done]. simpl. rewrite lookup_insert_ne; [done|].
    apply not_eq_sym. by eapply Hfresh.
Qed.

(** A hazard on a descriptor in use. *)
Lemma hinv_hazard n L s id o X t p d :
  hinv n L s -> id_wf id -> hz_abs (howned_of s id) X -> hz_abs o ({[dd_offset d]} ∪ X) ->
  hz_head o = hz_head (howned_of s id) -> p ∈ L t -> in_use s p d ->
  hinv n L (put_howned id o s).
Proof.
  intros Hi Hid HX Ho Hh Hp Hd. destruct Hi. split; try done.
  - destruct hi_slots0. by split.
  - intros u. unfold huge_peek. destruct (decide (id = u)) as [<-|Hne]; [rewrite howned_put, Hh|rewrite howned_put_ne by done]; apply hi_list0.
  - intros u. destruct (hi_hz0 u) as (Y & HY & Hy). destruct (decide (id = u)) as [<-|Hne].
    + rewrite howned_put. exists ({[dd_offset d]} ∪ X). split; [done|].
      intros x [->%elem_of_singleton|Hx]%elem_of_union; [eauto 8|]. rewrite (hz_abs_fun _ _ _ HX HY) in Hx. by apply Hy.
    + rewrite howned_put_ne by done. exists Y. done.
Qed.

Lemma hinv_map n L s c : hinv n L s -> hinv n L (put_map c s).
Proof. apply hinv_hz_shrink, hz_shrink_map. Qed.

(** The end of [Huge::allocate] and [Huge::try_map]: hazard, then mapping. *)
Lemma hazard_map_spec {A} n L s id t p d (k : bool -> M HugeS A) (Q : HugeS -> A -> Prop) :
  hinv n L s -> id_wf id -> p ∈ L t -> in_use s p d ->
  (forall X, hz_abs (howned_of s id) X -> dd_offset d ∉ X) ->
  (forall s' b, hinv n L s' -> descs s' = descs s -> hallocs s' = hallocs s -> slots s' = slots s -> pwp (k b) Q s') ->
  pwp (o <- gets (fun s => howned_of s id) ;; o <- lift (hz_insert cfg o (dd_offset d)) ;;
       modify (put_howned id o) ;;; b <- map_descriptor cfg map_ok d ;; k b) Q s.
Proof.
  intros Hi Hid Hp Hd Hx HQ. pwp_go. destruct (hi_hz _ _ _ Hi id) as (X & HX & _). apply pwp_lift.
  pose proof (hz_insert_abs cfg _ X (dd_offset d) HX (Hx X HX)) as Hins. case_bool_decide; [|by rewrite Hins].
  destruct Hins as (o & -> & Ho & Hh). pwp_go.
  pose proof (hinv_hazard n L s id o X t p d Hi Hid HX Ho Hh Hp Hd) as Hi'.
  unfold map_descriptor. apply pwp_bind, pwp_lift. unfold offset_to_u64.
  destruct (arith_cases (debug_assertions cfg) 64 (dd_offset d - SIZE_SLAB (Bracket := Size.Huge.bracket))) as [->|[y ->]]; [done|].
  destruct (map_ok y (dd_size d)); pwp_go; apply HQ; try done. by apply hinv_map.
Qed.

(** ** The operations of the system *)

(** ** Rebuilding the allocator of a restarted thread *)

Lemma put_halloc_again t a a' s : put_halloc t a' (put_halloc t a s) = put_halloc t a' s.
Proof. unfold put_halloc. simpl. by rewrite insert_insert_eq. Qed.

(** The bytes of the claims of [id] among the slots [cs]. *)
Definition claimed (s : HugeS) (id : Z) (cs : list Z) (k : Z) : Prop :=
  exists i c, i ∈ cs /\ slots s !! i = Some c /\ claim_id c = id /\ i * 2 ^ 30 <= k < (i + claim_count c) * 2 ^ 30.

Lemma focus_claims_spec n id cs s a :
  slots_wf s n -> halloc_wf a ->
  wp (focus_claims cfg id cs) (fun s' _ => exists a', s' = put_halloc id a' s /\ halloc_wf a' /\
    forall k, i_mem (ha_free a') k = true <-> i_mem (ha_free a) k = true \/ claimed s id cs k) (put_halloc id a s).
Proof.
  intros Hs. revert a. induction cs as [|i cs IH]; intros a Ha; simpl focus_claims.
  { apply wp_ret. exists a. split_and!; [done|done|]. intros k. split; [by left|].
    intros [|(i & c & Hi%elem_of_nil & _)]; done. }
  wp_go. cbn [slots put_halloc]. destruct (slots s !! i) as [c|] eqn:Ei; [destruct (Z.eqb_spec (claim_id c) id) as [Eid|Hne]|].
  - pose proof (tiled_lookup _ _ _ _ (sw_tiled _ _ Hs) Ei) as (Hi0 & Hc & Hin).
    pose proof (tiled_bounds _ _ (sw_tiled _ _ Hs)) as Hn. unfold COUNT_SLOT in Hn.
    assert (new_huge i = Done (i + 1)) as En.
    { unfold new_huge, index_add, index_MIN, wrap, checked_add. rewrite Z.mod_small by lia.
      destruct (1 + i <? 2 ^ 32) eqn:E; [|lia]. simpl. f_equal. lia. }
    wp_go. eapply wp_lift; [exact En|]. wp_go. rewrite halloc_put.
    destruct (halloc_claim_spec cfg a i (claim_count c) Ha) as (a' & Ea & Hg); [lia..|].
    eapply wp_lift; [exact Ea|]. wp_go. rewrite put_halloc_again. eapply wp_conseq; [apply (IH a'); apply Hg|].
    intros s' _ (b & -> & Hb & Hmem). exists b. split_and!; [done|done|]. intros k.
    rewrite Hmem, (gr_mem _ _ _ _ Hg k), orb_true_iff, andb_true_iff, Z.leb_le, Z.ltb_lt. unfold claimed. split.
    + intros [[H|H]|(j & c' & Hj & H)]; [by left|right; exists i, c; split_and!; [by left|done|done|lia|lia]|].
      right. exists j, c'. split; [by right|done].
    + intros [H|(j & c' & [->|Hj]%elem_of_cons & Hc' & H1 & H2)]; [by left; left| |].
      * assert (c' = c) as -> by congruence. left. right. lia.
      * right. by exists j, c'.
  - wp_go. eapply wp_conseq; [by apply IH|]. intros s' _ (b & -> & Hb & Hmem). exists b. split_and!; [done|done|].
    intros k. rewrite Hmem. apply or_iff_compat_l. unfold claimed. split.
    + intros (j & c' & Hj & H). exists j, c'. split; [by right|done].
    + intros (j & c' & [->|Hj]%elem_of_cons & Hc' & H1 & H2); [congruence|]. by exists j, c'.
  - wp_go. eapply wp_conseq; [by apply IH|]. intros s' _ (b & -> & Hb & Hmem). exists b. split_and!; [done|done|].
    intros k. rewrite Hmem. apply or_iff_compat_l. unfold claimed. split.
    + intros (j & c' & Hj & H). exists j, c'. split; [by right|done].
    + intros (j & c' & [->|Hj]%elem_of_cons & Hc' & H1 & H2); [congruence|]. by exists j, c'.
Qed.

(** Byte [k] is in a live allocation of the list. *)
Definition live_byte (s : HugeS) (l : list Z) (k : Z) : Prop :=
  exists p d, p ∈ l /\ descs s !! p = Some d /\ dd_state d = Live /\ in_desc d k.

Lemma live_byte_cons s p l k :
  live_byte s (p :: l) k <-> (exists d, descs s !! p = Some d /\ dd_state d = Live /\ in_desc d k) \/ live_byte s l k.
Proof.
  unfold live_byte. split.
  - intros (q & d & [->|Hq]%elem_of_cons & H); [left; by exists d|right; by exists q, d].
  - intros [(d & H)|(q & d & Hq & H)]; [exists p, d; split; [by left|done]|exists q, d; split; [by right|done]].
Qed.

Lemma focus_descs_spec n L id l index s a :
  hinv n L s -> l ⊆ L id -> NoDup l -> halloc_wf a ->
  (forall k, live_byte s l k -> i_mem (ha_free a) k = true) ->
  wp (focus_descs cfg id l index) (fun s' r => exists a', s' = put_halloc id a' s /\ halloc_wf a' /\
    (forall p d, p ∈ l -> descs s !! p = Some d -> dd_index d <= r) /\ index <= r /\
    (forall b, index <= b -> (forall p d, p ∈ l -> descs s !! p = Some d -> dd_index d <= b) -> r <= b) /\
    forall k, i_mem (ha_free a') k = true <-> i_mem (ha_free a) k = true /\ ~ live_byte s l k) (put_halloc id a s).
Proof.
  intros Hi. revert index a. induction l as [|p l IH]; intros index a Hl Hnd Ha Hlive; simpl focus_descs.
  { apply wp_ret. exists a. split_and!; [done|done|by intros p d Hp%elem_of_nil|lia|done|].
    intros k. split; [|tauto]. intros Hk. split; [done|]. by intros (p & d & Hp%elem_of_nil & _). }
  apply NoDup_cons in Hnd as [Hp Hnd]. assert (p ∈ L id) as HpL by (apply Hl; by left).
  assert (l ⊆ L id) as Hl' by (intros q Hq; apply Hl; by right).
  destruct (hinv_lookup _ _ _ _ _ Hi HpL) as [d Hd]. pose proof (hi_range _ _ _ Hi _ _ _ HpL Hd) as Hr.
  assert (forall b r, Z.max index (dd_index d) <= b /\ r <= b <-> index <= b /\ dd_index d <= b /\ r <= b) as Hmax by lia.
  unfold get_desc. wp_go. cbn [descs put_halloc]. rewrite Hd. wp_go.
  assert (forall a', halloc_wf a' -> (forall k, i_mem (ha_free a') k = true <->
             i_mem (ha_free a) k = true /\ ~ (dd_state d = Live /\ in_desc d k)) ->
           wp (focus_descs cfg id l (Z.max index (dd_index d))) (fun s' r => exists a', s' = put_halloc id a' s /\ halloc_wf a' /\
             (forall q e, q ∈ p :: l -> descs s !! q = Some e -> dd_index e <= r) /\ index <= r /\
             (forall b, index <= b -> (forall q e, q ∈ p :: l -> descs s !! q = Some e -> dd_index e <= b) -> r <= b) /\
             forall k, i_mem (ha_free a') k = true <-> i_mem (ha_free a) k = true /\ ~ live_byte s (p :: l) k)
             (put_halloc id a' s)) as Hrest.
  { intros a' Ha' Hmem'. eapply wp_conseq; [apply IH; try done|].
    - intros k Hk. apply Hmem'. split; [apply Hlive, live_byte_cons; by right|]. intros [Hlv Hin].
      destruct Hk as (q & e & Hq & He & Hle & Hke). assert (p = q) as ->; [|done].
      apply (hinv_disjoint n L s id id p q d e k); try done; [by apply Hl'|split; [done|congruence]..].
    - intros s' r (b & -> & Hb & H1 & H2 & H3 & H4). exists b. split_and!; [done|done| |lia| |].
      + intros q e [->|Hq]%elem_of_cons He; [assert (e = d) as -> by congruence; lia|eauto].
      + intros m Hm Hall. apply H3; [|intros q e Hq; apply Hall; by right].
        pose proof (Hall p d ltac:(by left) Hd). lia.
      + intros k. rewrite H4, Hmem', live_byte_cons. split.
        * intros [[Hk Hn] Hn']. split; [done|]. intros [(e & He & H)|H]; [|done]. assert (e = d) as -> by congruence. tauto.
        * intros [Hk Hn]. split_and!; [done|intros H; apply Hn; left; by exists d|tauto]. }
  destruct (dd_state d) eqn:Est; cycle 1.
  { apply wp_ret, Hrest; [done|]. intros k. split; [intros; split; [done|by intros []]|tauto]. }
  { apply wp_ret, Hrest; [done|]. intros k. split; [intros; split; [done|by intros []]|tauto]. }
  wp_go. unfold offset_to_u64. change (SIZE_SLAB (Bracket := Size.Huge.bracket)) with (2 ^ 30).
  eapply wp_lift; [apply arith_ok; unfold in_range; lia|]. wp_go. rewrite halloc_put.
  destruct (cover_ok cfg a (dd_offset d - 2 ^ 30) (dd_size d) Ha) as (a' & Ea & Ha' & _ & Hmem); [lia| |].
  { intros k Hk. apply Hlive. exists p, d. split_and!; [by left|done|done|unfold in_desc; lia]. }
  eapply wp_lift; [exact Ea|]. wp_go. rewrite put_halloc_again. apply Hrest; [done|]. intros k.
  rewrite Hmem, andb_true_iff, negb_true_iff, andb_false_iff, Z.leb_gt, Z.ltb_ge. unfold in_desc. intuition lia.
Qed.

(** [Huge::focus] returns; the rebuilt free space is what the thread claimed
    without its live allocations, and nothing else changes. *)
Lemma focus_spec n L id s :
  hinv n L s ->
  wp (focus cfg sbase id) (fun s' _ => exists a, s' = put_halloc id a s /\ i_ok (ha_free a) /\
    (forall k, i_mem (ha_free a) k = true <-> owned_by s id k /\ ~ live_byte s (L id) k) /\
    (forall b, 0 <= b -> (forall p d, p ∈ L id -> descs s !! p = Some d -> dd_index d <= b) -> 0 <= ha_index a <= b))
    (put_halloc id halloc_default s).
Proof.
  intros Hi. pose proof (hi_slots _ _ _ Hi) as Hs. unfold focus. apply wp_bind.
  eapply wp_conseq; [by apply (focus_claims_spec n); [|apply halloc_default_wf]|].
  intros s1 _ (a & -> & Ha & Hmem). wp_go.
  assert (forall k, i_mem (ha_free a) k = true <-> owned_by s id k) as Hown.
  { intros k. rewrite Hmem. simpl. rewrite empty_mem. unfold claimed, owned_by. split.
    - intros [|(i & c & _ & H)]; [done|]. by exists i, c.
    - intros (i & c & H & H'). right. exists i, c. split; [|done]. apply elem_of_seqZ.
      pose proof (tiled_lookup _ _ _ _ (sw_tiled _ _ Hs) H). pose proof (tiled_bounds _ _ (sw_tiled _ _ Hs)). lia. }
  assert (trace_all (put_halloc id a s) (huge_peek sbase (put_halloc id a s) id) = Done (L id)) as Et.
  { exact (hinv_trace n L s id Hi). }
  eapply wp_lift; [exact Et|]. wp_go.
  eapply wp_conseq; [apply (focus_descs_spec n L id (L id) 0 s a Hi); try done; [apply (hi_nodup _ _ _ Hi)|]|].
  { intros k (p & d & Hp & Hd & Hlv & Hk). apply Hown. eapply (hi_used _ _ _ Hi id p d k); [done|split; [done|congruence]|done]. }
  intros s2 r (b & -> & Hb & H1 & H2 & H3 & H4). wp_go. rewrite halloc_put, put_halloc_again. eexists. split_and!; [done|apply Hb| |].
  - intros k. cbn [ha_free]. by rewrite H4, Hown.
  - intros m Hm Hall. cbn [ha_index]. split; [lia|]. by apply H3.
Qed.

(** When the thread has no freed descriptor that was not recycled, the rebuilt
    state is as good as one that never crashed. *)
Lemma hinv_focus n L id s :
  hinv n L s ->
  (forall p d, p ∈ L id -> descs s !! p = Some d -> dd_state d <> Free /\ dd_index d < 2 ^ 63) ->
  wp (focus cfg sbase id) (fun s' _ => hinv n L s') (put_halloc id halloc_default s).
Proof.
  intros Hi Hfree. eapply wp_conseq; [by apply (focus_spec n L)|].
  intros s' _ (a & -> & Ha & Hmem & Hidx). apply hinv_halloc; [done| |].
  - split; [done| |].
    + intros k [Hk _]%Hmem. pose proof (owned_by_bound _ _ _ _ (hi_slots _ _ _ Hi) Hk).
      pose proof (tiled_bounds _ _ (sw_tiled _ _ (hi_slots _ _ _ Hi))) as Hn. unfold COUNT_SLOT in Hn. lia.
    + destruct (Hidx (2 ^ 63 - 1)) as [? ?]; [lia| |lia]. intros p d Hp Hd. pose proof (Hfree p d Hp Hd). lia.
  - intros k [Hk Hn]%Hmem. split; [done|]. intros p e Hp [He Hsafe] Hin. apply Hn. exists p, e. split_and!; try done.
    destruct (Hfree p e Hp He) as [Hf _]. by destruct (dd_state e).
Qed.

(** A huge allocation as [Allocator::allocate_huge] makes it: a recycled
    descriptor if there is one, else the block [out] of the small heap. *)
Definition huge_alloc (id size out : Z) : M HugeS Z :=
  r <- reuse cfg sbase id ;;
  match r with
  | Some o => huge_allocate cfg sbase hbase map_ok id size (offset_to_pointer sbase o) true
  | None => huge_allocate cfg sbase hbase map_ok id size out false
  end.

Inductive hugeop :=
| HAlloc (size out : Z)
| HFree (o : Z)
| HMap (address : Z)
| HRefresh
| HRestart.

Definition hexec (id : Z) (op : hugeop) : M HugeS (option Z) :=
  match op with
  | HAlloc size out => p <- huge_alloc id size out ;; ret (Some p)
  | HFree o => huge_free cfg sbase id o ;;; ret None
  | HMap address => huge_try_map cfg sbase hbase lo hi map_ok id address ;;; ret None
  | HRefresh => refresh cfg sbase id ;;; ret None
  | HRestart => modify (put_halloc id halloc_default) ;;; focus cfg sbase id ;;; ret None
  end.

(** The descriptor at [p] is on the list of [t]. *)
Definition listed (s : HugeS) (t p : Z) : Prop :=
  exists l, trace_all s (huge_peek sbase s t) = Done l /\ p ∈ l.

(** Offset [o] is in the live allocation described at [p]. *)
Definition live_at (s : HugeS) (t p : Z) (d : Descriptor) (o : Z) : Prop :=
  listed s t p /\ descs s !! p = Some d /\ dd_state d = Live /\ in_desc d (o - 2 ^ 30).

(** What callers guarantee: sizes round to slots within a [usize], descriptors come from blocks that are not in use,
    only live allocations are freed or touched, a thread faults only on memory
    it has not mapped, and restarts when all its freed descriptors were
    recycled. *)
Definition hguard (s : HugeS) (id : Z) (op : hugeop) : Prop :=
  match op with
  | HAlloc size out => claimable size /\ descs s !! out = None /\ addr_ok sbase out /\
      ha_index (halloc_of s id) + 1 < 2 ^ 63
  | HFree o => exists t p d, live_at s t p d o
  | HMap address => lo <= address < hi /\ hbase < address /\
      exists t p d, live_at s t p d (address - hbase) /\ hz_contains (howned_of s id) (dd_offset d) = false
  | HRefresh => True
  | HRestart => forall p d, listed s id p -> descs s !! p = Some d -> dd_state d <> Free /\ dd_index d < 2 ^ 63
  end.

Inductive hreach : HugeS -> Prop :=
| hreach_zero : hreach zero_huge
| hreach_step s id op s' r :
    hreach s -> id_wf id -> hguard s id op -> hexec id op s = Done (s', r) -> hreach s'.

Lemma listed_inv n L s t p : hinv n L s -> listed s t p <-> p ∈ L t.
Proof.
  intros Hi. unfold listed. rewrite (hinv_trace n L) by done. split; [by intros (l & [= <-] & H)|]. eauto.
Qed.

(** The live ranges: offset and size. *)
Definition live_in (L : Z -> list Z) (s : HugeS) (x z : Z) : Prop :=
  exists t p d, p ∈ L t /\ descs s !! p = Some d /\ dd_state d = Live /\ dd_offset d = x /\ dd_size d = z.

Definition live_range (s : HugeS) (x z : Z) : Prop :=
  exists t p d, listed s t p /\ descs s !! p = Some d /\ dd_state d = Live /\ dd_offset d = x /\ dd_size d = z.

Lemma live_range_inv n L s x z : hinv n L s -> live_range s x z <-> live_in L s x z.
Proof.
  intros Hi. split; intros (t & p & d & Hp & H); exists t, p, d; (split; [|done]); by apply (listed_inv n L s t p Hi).
Qed.

(** The answer of an allocation describes a new live range. *)
Definition allocated (s : HugeS) (id size r : Z) : Prop :=
  exists p d, listed s id p /\ descs s !! p = Some d /\ dd_state d = Live /\ dd_size d = size /\
    r = hbase + dd_offset d.

(** The tail of [Huge::allocate] once the descriptor is written. *)
Lemma installed_spec n L s id p d :
  hinv n L s -> id_wf id -> p ∈ L id -> descs s !! p = Some d -> dd_state d = Live ->
  unhazarded s (dd_offset d) ->
  pwp (o <- gets (fun s => howned_of s id) ;; o <- lift (hz_insert cfg o (dd_offset d)) ;;
       modify (put_howned id o) ;;; b <- map_descriptor cfg map_ok d ;;
       (assert_ b ;;; ret (offset_to_pointer hbase (dd_offset d))))
    (fun s' r => hinv n L s' /\ descs s' = descs s /\ r = hbase + dd_offset d) s.
Proof.
  intros Hi Hid Hp Hd Hl Hu. apply (hazard_map_spec n L s id id p d); try done; [split; congruence|by intros X HX; eapply Hu|].
  intros s' b Hi' Ed _ _. apply pwp_bind, pwp_assert. intros _. apply pwp_ret. done.
Qed.

(** Recycling keeps the live ranges; installing a descriptor adds one. *)
Lemma live_recycled L id s s' x z :
  (forall t q, q ∈ L t -> is_Some (descs s !! q)) -> recycled id s s' -> live_in L s' x z <-> live_in L s x z.
Proof.
  intros Hdom Hr. split; intros (t & p & d & Hp & Hd & Hl & Ex & Ez); exists t, p.
  - destruct (Hdom t p Hp) as [e He]. destruct (rc_descs _ _ _ Hr p e He) as (e' & He' & [->|(_ & -> & _)]).
    + exists e. split_and!; congruence.
    + by simplify_eq.
  - destruct (rc_descs _ _ _ Hr p d Hd) as (e' & He' & [->|(Hf & _)]); [|congruence]. by exists d.
Qed.

Lemma live_reinstall L s id p e d x z :
  p ∈ L id -> descs s !! p = Some e -> dd_state e = Safe -> dd_state d = Live ->
  live_in L (put_desc p d s) x z <-> live_in L s x z \/ (x = dd_offset d /\ z = dd_size d).
Proof.
  intros Hp He Hse Hl. split.
  - intros (t & q & f & Hq & Hf & Hlf & <- & <-). simpl in Hf. destruct (decide (q = p)) as [->|Hne].
    + rewrite lookup_insert_eq in Hf. injection Hf as <-. by right.
    + rewrite lookup_insert_ne in Hf by done. left. by exists t, q, f.
  - intros [(t & q & f & Hq & Hf & Hlf & <- & <-)|[-> ->]].
    + exists t, q, f. split_and!; try done. simpl. rewrite lookup_insert_ne; [done|]. intros <-. congruence.
    + exists id, p, d. split_and!; try done. simpl. by rewrite lookup_insert_eq.
Qed.

Lemma live_push n L s id p d x z :
  hinv n L s -> descs s !! p = None -> dd_state d = Live ->
  live_in (push_list L id p) (pushed s id p d) x z <-> live_in L s x z \/ (x = dd_offset d /\ z = dd_size d).
Proof.
  intros Hi Hp Hl. split.
  - intros (t & q & f & Hq%elem_push & Hf & Hlf & <- & <-). simpl in Hf. destruct (decide (q = p)) as [->|Hne].
    + rewrite lookup_insert_eq in Hf. injection Hf as <-. by right.
    + rewrite lookup_insert_ne in Hf by done. left. exists t, q, f. split_and!; try done. by destruct Hq as [[_ ->]|].
  - intros [(t & q & f & Hq & Hf & Hlf & <- & <-)|[-> ->]].
    + exists t, q, f. split_and!; try done; [apply elem_push; by right|]. simpl. rewrite lookup_insert_ne; [done|]. intros <-. congruence.
    + exists id, p, d. split_and!; try done; [apply elem_push; by left|]. simpl. by rewrite lookup_insert_eq.
Qed.

(** A pending range is apart from the live ones and inside the region. *)
Definition apart_live (L : Z -> list Z) (s : HugeS) (off size : Z) : Prop :=
  2 ^ 30 <= off /\ off + size <= 2 ^ 40 + 2 ^ 30 /\
  forall x z, live_in L s x z -> x + z <= off \/ off + size <= x.

Lemma pending_apart n L s id d : hinv n L s -> pending s L id d -> apart_live L s (dd_offset d) (dd_size d).
Proof.
  intros Hi Hp. pose proof (pd_range _ _ _ _ Hp) as Hr. split_and!; [lia| |].
  - destruct (pd_space _ _ _ _ Hp (dd_offset d + dd_size d - 1 - 2 ^ 30)) as (Ho & _); [unfold in_desc; lia|].
    pose proof (tiled_bounds _ _ (sw_tiled _ _ (hi_slots _ _ _ Hi))) as Hn. unfold COUNT_SLOT in Hn.
    apply (owned_by_bound n) in Ho; [lia|apply (hi_slots _ _ _ Hi)].
  - intros x z (t & q & f & Hq & Hf & Hlf & <- & <-).
    pose proof (hi_range _ _ _ Hi _ _ _ Hq Hf) as Hrf. assert (in_use s q f) as Huse by (split; congruence).
    destruct (decide (dd_offset f + dd_size f <= dd_offset d)); [by left|].
    destruct (decide (dd_offset d + dd_size d <= dd_offset f)); [by right|]. exfalso.
    set (k := Z.max (dd_offset d) (dd_offset f) - 2 ^ 30).
    assert (in_desc d k /\ in_desc f k) as [Hkd Hkf] by (unfold in_desc, k; lia).
    destruct (pd_space _ _ _ _ Hp k Hkd) as (Ho & _ & Hno). destruct (hi_used _ _ _ Hi _ _ _ _ Hq Huse Hkf) as [Ho' _].
    assert (t = id) as -> by (eapply owned_by_unique; [apply (hi_slots _ _ _ Hi)|done|done]). by apply (Hno q f).
Qed.

Lemma unhazarded_heads s s' x :
  (forall t, exists h, howned_of s' t = with_head (howned_of s t) h) -> unhazarded s x -> unhazarded s' x.
Proof.
  intros Hw Hu t X HX. destruct (Hw t) as [h Eh]. rewrite Eh in HX. apply (Hu t).
  apply (hz_abs_head _ (hz_head (howned_of s t))) in HX. by destruct (howned_of s t).
Qed.

(** What an allocation does to descriptors and live ranges. *)
Record alloc_post (L : Z -> list Z) (s : HugeS) (id size out : Z) (s' : HugeS) (r : Z) : Prop := {
  ap_inv : exists n' L', hinv n' L' s' /\
    (forall x z, live_in L' s' x z <-> live_in L s x z \/ (x = r - hbase /\ z = size)) /\
    exists p d, p ∈ L' id /\ descs s' !! p = Some d /\ dd_state d = Live /\ dd_size d = size /\ r = hbase + dd_offset d;
  ap_apart : apart_live L s (r - hbase) size;
  ap_descs : forall q, is_Some (descs s' !! q) -> is_Some (descs s !! q) \/ q = out;
  ap_keep : forall q, is_Some (descs s !! q) -> is_Some (descs s' !! q);
}.

Lemma insert_keep (ds : gmap Z Descriptor) out d q : is_Some (ds !! q) -> is_Some (<[out := d]> ds !! q).
Proof. rewrite lookup_insert_is_Some. destruct (decide (out = q)); naive_solver. Qed.

Lemma alloc_post_push n L s s3 id size out d s5 r :
  hinv n L s3 -> descs s3 = descs s -> descs s !! out = None -> dd_state d = Live -> dd_size d = size ->
  apart_live L s (dd_offset d) size ->
  hinv n (push_list L id out) s5 -> descs s5 = descs (pushed s3 id out d) -> r = hbase + dd_offset d ->
  alloc_post L s id size out s5 r.
Proof.
  intros Hi3 Eds Hout Hl Esz Hap Hi5 Ed5 ->. assert (hbase + dd_offset d - hbase = dd_offset d) as Er by lia.
  split; rewrite ?Er; [|done| |intros q; rewrite Ed5; simpl; rewrite Eds; apply insert_keep].
  - exists n, (push_list L id out). split_and!; [done| |].
    + intros x z. rewrite <- Esz. assert (live_in L s x z <-> live_in L s3 x z) as -> by (unfold live_in; by rewrite Eds).
      etrans; [|apply (live_push n L s3 id out d x z); (done || by rewrite Eds)]. unfold live_in. by rewrite Ed5.
    + exists out, d. split_and!; [apply elem_push; by left| |done..]. rewrite Ed5. simpl. by rewrite lookup_insert_eq.
  - intros q. rewrite Ed5. simpl. rewrite Eds. rewrite lookup_insert_is_Some. naive_solver.
Qed.

(** [Huge::allocate] into the first safe descriptor, or into a new one. *)
Lemma huge_allocate_spec n L s id size out (b : bool) :
  hinv n L s -> id_wf id -> claimable size -> ha_index (halloc_of s id) + 1 < 2 ^ 63 ->
  (if b then first_safe s (L id) (Some out) else descs s !! out = None /\ addr_ok sbase out) ->
  pwp (huge_allocate cfg sbase hbase map_ok id size out b)
    (fun s' r => alloc_post L s id size out s' r /\ is_Some (descs s' !! out)) s.
Proof.
  intros Hi Hid Hs Hix Hout. unfold huge_allocate. apply pwp_bind. eapply pwp_conseq; [by apply (refresh_spec n L)|].
  intros s2 [] Hsh. pose proof (hinv_hz_shrink _ _ _ _ Hsh Hi) as Hi2. apply pwp_bind.
  assert (halloc_of s2 id = halloc_of s id) as Eh by (unfold halloc_of; by rewrite (hs_hallocs _ _ Hsh)).
  eapply pwp_conseq; [apply (allocate_loop_inv n L id size s2 Hi2 Hs); by rewrite Eh|].
  intros s3 d (n3 & Hi3 & Hpd & Hl & Esz & Eow & Eds). simpl.
  pose proof (pending_unhazarded n3 L s3 id d Hi3 Hpd) as Hu. pose proof (pending_apart n3 L s3 id d Hi3 Hpd) as Hap.
  rewrite (hs_descs _ _ Hsh) in Eds.
  assert (forall x z, live_in L s3 x z <-> live_in L s x z) as Elive by (intros x z; unfold live_in; by rewrite Eds).
  assert (apart_live L s (dd_offset d) size) as Hap'.
  { destruct Hap as (H1 & H2 & H3). rewrite Esz in *. split_and!; [done|done|]. intros x z Hx. by apply H3, Elive. }
  assert (forall nx, pending s3 L id (mkDesc (dd_index d) (dd_offset d) (dd_size d) nx Live)) as Hpd'
    by (intros nx; by destruct Hpd). apply pwp_bind.
  destruct b.
  - destruct Hout as (la & lb & e & El & He & Hse & Hla). unfold get_desc. pwp_go. rewrite Eds, He. do 2 pwp_step.
    set (d' := mkDesc _ _ _ _ _). assert (out ∈ L id) as Hin by (rewrite El; set_solver).
    assert (hinv n3 L (put_desc out d' s3)) as Hi4.
    { eapply (hinv_reinstall n3 L s3 id la out lb e d'); try done; [by rewrite Eds|intros q f Hq; rewrite Eds; by apply Hla|apply Hpd']. }
    eapply pwp_conseq; [apply (installed_spec n3 L _ id out d'); try done; simpl; by rewrite lookup_insert_eq|].
    intros s5 r (Hi5 & Ed5 & ->). simpl in Ed5. replace (hbase + dd_offset d') with (hbase + dd_offset d) by done.
    assert (hbase + dd_offset d - hbase = dd_offset d) as Er by lia.
    split; [|rewrite Ed5, lookup_insert_eq; done].
    split; rewrite ?Er; [|done| |intros q; rewrite Ed5, Eds; apply insert_keep].
    + exists n3, L. split_and!; [done| |].
      * intros x z. rewrite <- Elive, <- Esz. etrans; [|apply (live_reinstall L s3 id out e d' x z); (done || by rewrite Eds)].
        unfold live_in. by rewrite Ed5.
      * exists out, d'. rewrite Ed5, lookup_insert_eq. done.
    + intros q. rewrite Ed5, Eds. rewrite lookup_insert_is_Some. naive_solver.
  - destruct Hout as [Hout Haddr]. assert (descs s3 !! out = None) as Hout3 by (by rewrite Eds).
    pwp_go. apply pwp_lift. unfold box_link.
    destruct (huge_peek sbase s3 id) as [h|] eqn:Eh3; [destruct (Z.eqb_spec (h - (out + NEXT_FIELD)) 0); [done|]|].
    all: do 2 pwp_step; unfold huge_set; pwp_step; set (d' := mkDesc _ _ _ _ _).
    all: assert (pointer_to_offset sbase out = Some (out - sbase)) as ->
      by (unfold addr_ok, pointer_to_offset, checked_sub in *; rewrite (proj2 (Z.leb_le _ _)) by lia;
          by rewrite (proj2 (Z.eqb_neq _ _)) by lia).
    all: assert (hinv n3 (push_list L id out) (pushed s3 id out d')) as Hi4
      by (apply hinv_push; try done; [apply Hpd'|by rewrite Eh3]).
    all: eapply pwp_conseq; [apply (installed_spec n3 (push_list L id out) (pushed s3 id out d') id out d'); try done;
      [apply elem_push; by left|simpl; by rewrite lookup_insert_eq|];
      apply (unhazarded_heads s3); [|done]; intros t; destruct (pushed_howned s3 id out d' t) as (h' & E & _); eauto|].
    all: intros s5 r (Hi5 & Ed5 & ->); split; [by eapply (alloc_post_push n3 L s s3 id size out d')|].
    all: rewrite Ed5; simpl; rewrite lookup_insert_eq; done.
Qed.

(** Recycling first does not matter. *)
Lemma alloc_post_recycled n L s s1 id size out s' r :
  hinv n L s -> recycled id s s1 -> alloc_post L s1 id size out s' r -> alloc_post L s id size out s' r.
Proof.
  intros Hi Hrec [(n' & L' & Hi' & Hlive & Hd) (H1 & H2 & H3) Hds Hk].
  assert (forall t q, q ∈ L t -> is_Some (descs s !! q)) as Hdom.
  { intros t q Hq. destruct (hinv_lookup _ _ _ _ _ Hi Hq) as [e ->]. done. }
  split.
  - exists n', L'. split_and!; [done| |done]. intros x z. by rewrite Hlive, (live_recycled L id s s1).
  - split_and!; [done|done|]. intros x z Hx. by apply H3, (live_recycled L id s s1).
  - intros q Hq. destruct (Hds q Hq) as [[e He]|Hq']; [left|by right].
    destruct (descs s !! q) eqn:E; [done|]. rewrite (rc_dom _ _ _ Hrec q E) in He. done.
  - intros q [e He]. apply Hk. destruct (rc_descs _ _ _ Hrec q e He) as (e' & -> & _). done.
Qed.

Lemma first_safe_desc (L : Z -> list Z) s id p : first_safe s (L id) (Some p) -> p ∈ L id.
Proof. intros (la & lb & e & -> & _). set_solver. Qed.

Lemma huge_alloc_spec n L s id size out :
  hinv n L s -> id_wf id -> hguard s id (HAlloc size out) ->
  pwp (huge_alloc id size out) (alloc_post L s id size out) s.
Proof.
  intros Hi Hid (Hs & Hout & Haddr & Hix). unfold huge_alloc. apply pwp_bind.
  eapply pwp_conseq; [by apply reuse_spec|]. intros s1 r (Hi1 & Hrec & fs & Hfs & ->). simpl.
  destruct fs as [p|]; simpl.
  - unfold offset_to_pointer. replace (sbase + (p - sbase)) with p by lia.
    eapply pwp_conseq; [apply (huge_allocate_spec n L s1 id size p true); try done; by rewrite (rc_index _ _ _ Hrec)|].
    intros s' r [Hpost _]. destruct (alloc_post_recycled n L s s1 id size p s' r Hi Hrec Hpost) as [H1 H2 H3 H4].
    split; [done|done| |done]. intros q Hq. destruct (H3 q Hq) as [|Eq]; [by left|left]. rewrite Eq.
    destruct (hinv_lookup _ _ _ _ _ Hi (first_safe_desc L s1 id p Hfs)) as [e ->]. done.
  - eapply pwp_conseq; [apply (huge_allocate_spec n L s1 id size out false); try done|]; [by rewrite (rc_index _ _ _ Hrec)| |].
    + split; [by apply (rc_dom _ _ _ Hrec)|done].
    + intros s' r [Hpost _]. by eapply alloc_post_recycled.
Qed.

Lemma live_same_offset n L s t t' p p' d d' :
  hinv n L s -> p ∈ L t -> p' ∈ L t' -> in_use s p d -> in_use s p' d' -> dd_offset d = dd_offset d' -> p = p'.
Proof.
  intros Hi Hp Hp' Hd Hd' E. pose proof (hi_range _ _ _ Hi _ _ _ Hp (proj1 Hd)). pose proof (hi_range _ _ _ Hi _ _ _ Hp' (proj1 Hd')).
  eapply (hinv_disjoint n L s t t' p p' d d' (dd_offset d - 2 ^ 30)); try done; unfold in_desc; lia.
Qed.

(** Two live ranges with different offsets are apart. *)
Lemma live_apart n L s x z x' z' :
  hinv n L s -> live_in L s x z -> live_in L s x' z' -> x <> x' -> x + z <= x' \/ x' + z' <= x.
Proof.
  intros Hi (t & p & d & Hp & Hd & Hl & <- & <-) (t' & p' & d' & Hp' & Hd' & Hl' & <- & <-) Hne.
  pose proof (hi_range _ _ _ Hi _ _ _ Hp Hd). pose proof (hi_range _ _ _ Hi _ _ _ Hp' Hd').
  destruct (decide (dd_offset d + dd_size d <= dd_offset d')); [by left|].
  destruct (decide (dd_offset d' + dd_size d' <= dd_offset d)); [by right|]. exfalso. apply Hne.
  set (k := Z.max (dd_offset d) (dd_offset d') - 2 ^ 30).
  assert (p = p') as <-; [|congruence].
  eapply (hinv_disjoint n L s t t' p p' d d' k); try done; unfold in_use, in_desc, k; (lia || (split; congruence)).
Qed.

Lemma live_freed n L s t p d x z :
  hinv n L s -> p ∈ L t -> descs s !! p = Some d -> dd_state d = Live ->
  live_in L (put_desc p (with_state Free d) s) x z <-> live_in L s x z /\ x <> dd_offset d.
Proof.
  intros Hi Hp Hd Hl. split.
  - intros (u & q & f & Hq & Hf & Hlf & <- & <-). simpl in Hf. destruct (decide (q = p)) as [->|Hne].
    { rewrite lookup_insert_eq in Hf. injection Hf as <-. done. }
    rewrite lookup_insert_ne in Hf by done. split; [by exists u, q, f|]. intros E. apply Hne.
    eapply (live_same_offset n L s u t q p f d); try done; split; congruence.
  - intros [(u & q & f & Hq & Hf & Hlf & <- & <-) Hne]. exists u, q, f. split_and!; try done. simpl.
    rewrite lookup_insert_ne; [done|]. intros <-. congruence.
Qed.

Lemma huge_free_spec n L s id o :
  hinv n L s -> id_wf id -> hguard s id (HFree o) ->
  pwp (huge_free cfg sbase id o) (fun s' _ => hinv n L s' /\
    (forall q, is_Some (descs s' !! q) <-> is_Some (descs s !! q)) /\
    forall t p d, live_at s t p d o -> forall x z, live_in L s' x z <-> live_in L s x z /\ x <> dd_offset d) s.
Proof.
  intros Hi Hid (t & p & d & Hp & Hd & Hl & Ho). rewrite (listed_inv n L) in Hp by done.
  unfold huge_free. apply pwp_bind. eapply pwp_conseq; [by apply (refresh_spec n L)|]. intros s1 [] Hsh.
  pose proof (hinv_hz_shrink _ _ _ _ Hsh Hi) as Hi1.
  assert (in_use s1 p d) as Hd1 by (split; [by rewrite (hs_descs _ _ Hsh)|congruence]).
  apply pwp_bind. eapply pwp_done; [by eapply (huge_find_spec n L s1 t p d o)|]. simpl. do 2 pwp_step.
  unfold get_desc. pwp_go. rewrite (proj1 Hd1). pwp_go. apply unmap_shrink. intros s2 Hsh2 Eow. pwp_go.
  pose proof (hinv_hz_shrink _ _ _ _ Hsh2 Hi1) as Hi2.
  destruct (hi_hz _ _ _ Hi2 id) as (X & HX & _). destruct (swap_remove_shrink s2 id (dd_offset d) X HX) as (o' & b & Er & Hsh3 & _).
  apply pwp_lift. rewrite Er. pwp_go. cbn [fst].
  set (s3 := put_howned id o' s2) in *. pose proof (hinv_hz_shrink _ _ _ _ Hsh3 Hi2) as Hi3.
  assert (descs s3 = descs s) as Ed3 by (by rewrite (hs_descs _ _ Hsh3), (hs_descs _ _ Hsh2), (hs_descs _ _ Hsh)).
  fold (with_state Free d). split_and!.
  - apply (hinv_mark n L _ t p d Free); [done|done| |done]. split; [by rewrite Ed3|congruence].
  - intros q. change (is_Some (<[p := with_state Free d]> (descs s3) !! q) <-> is_Some (descs s !! q)).
    rewrite Ed3. split; [|apply insert_keep]. rewrite lookup_insert_is_Some. intros [<-|[_ Hq]]; [by rewrite Hd|done].
  - intros t' p' d' (Hp' & Hd' & Hl' & Ho') x z. rewrite (listed_inv n L) in Hp' by done.
    assert (p' = p) as -> by (eapply (hinv_disjoint n L s t' t p' p d' d); try done; split; congruence).
    assert (d' = d) as -> by congruence. rewrite (live_freed n L s3 t p d) by (done || by rewrite Ed3).
    unfold live_in. by rewrite Ed3.
Qed.

Lemma huge_try_map_spec n L s id address :
  hinv n L s -> id_wf id -> hguard s id (HMap address) ->
  pwp (huge_try_map cfg sbase hbase lo hi map_ok id address) (fun s' _ => hinv n L s') s.
Proof.
  intros Hi Hid (Hin & Hb & t & p & d & (Hp & Hd & Hl & Ho) & Hz). rewrite (listed_inv n L) in Hp by done.
  unfold huge_try_map, huge_pointer_to_offset. rewrite (proj2 (Z.leb_le _ _)), (proj2 (Z.ltb_lt _ _)) by lia. simpl.
  unfold pointer_to_offset, checked_sub. rewrite (proj2 (Z.leb_le _ _)), (proj2 (Z.eqb_neq _ _)) by lia.
  assert (in_use s p d) as Hd1 by (split; [done|congruence]).
  apply pwp_bind. eapply pwp_done; [by eapply (huge_find_spec n L s t p d)|]. cbn beta iota. pwp_step.
  unfold get_desc. pwp_go. rewrite Hd. pwp_step. apply (hazard_map_spec n L s id t p d); try done.
  intros X HX Hx. rewrite (hz_contains_abs _ X) in Hz by done. by apply bool_decide_eq_false in Hz.
Qed.

Lemma hexec_spec n L s id op :
  hinv n L s -> id_wf id -> hguard s id op ->
  pwp (hexec id op) (fun s' r => (exists n' L', hinv n' L' s') /\
    match op with HAlloc size _ => exists p, r = Some p /\ allocated s' id size p | _ => True end) s.
Proof.
  intros Hi Hid Hg. destruct op as [size out|o|address| |]; simpl hexec; apply pwp_bind.
  - eapply pwp_conseq; [by apply (huge_alloc_spec n L)|]. intros s' p [(n' & L' & Hi' & _ & q & d & Hq & Hd) _ _ _]. apply pwp_ret.
    split; [by exists n', L'|]. exists p. split; [done|]. exists q, d. by rewrite (listed_inv n' L').
  - eapply pwp_conseq; [by apply (huge_free_spec n L)|]. intros s' [] [Hi' _]. apply pwp_ret. split; [by exists n, L|done].
  - eapply pwp_conseq; [by apply (huge_try_map_spec n L)|]. intros s' b Hi'. apply pwp_ret. split; [by exists n, L|done].
  - eapply pwp_conseq; [by apply (refresh_spec n L)|]. intros s' [] Hsh. apply pwp_ret. split; [|done].
    exists n, L. by eapply hinv_hz_shrink.
  - pwp_go. eapply wp_pwp, wp_conseq; [apply (hinv_focus n L); [done|]|].
    + intros p d Hp. apply Hg. by apply (listed_inv n L).
    + intros s' [] Hi'. apply pwp_ret. split; [by exists n, L|done].
Qed.

Lemma hreach_inv s : hreach s -> exists n L, hinv n L s.
Proof.
  induction 1 as [|s id op s' r Hr (n & L & Hi) Hid Hg He]; [eexists _, _; apply zero_hinv|].
  pose proof (hexec_spec n L s id op Hi Hid Hg) as H. unfold pwp in H. rewrite He in H. apply H.
Qed.

(** ** Properties *)

(** C16: however threads allocate, free, map, refresh and restart, provided
    that a thread restarts only when no descriptor it freed awaits recycling
    ([hguard]; [focus_double_allocation] shows what happens otherwise), two descriptors in
    use (live, or freed and still possibly mapped somewhere) never describe
    overlapping ranges, also across threads, and no thread's free space
    overlaps a range in use. *)
Theorem huge_in_use_disjoint s t t' p p' d d' k :
  hreach s -> listed s t p -> listed s t' p' -> in_use s p d -> in_use s p' d' ->
  in_desc d k -> (in_desc d' k -> p = p') /\ ~ is_free s t' k.
Proof.
  intros Hr Hp Hp' Hd Hd' Hk. destruct (hreach_inv s Hr) as (n & L & Hi).
  rewrite (listed_inv n L) in Hp, Hp' by done. split.
  - intros Hk'. by eapply (hinv_disjoint n L s t t' p p' d d' k).
  - intros Hf. pose proof (hi_own _ _ _ Hi _ _ Hf) as Ho. destruct (hi_used _ _ _ Hi t p d k Hp Hd Hk) as [Ho' Hn].
    assert (t' = t) as -> by (eapply owned_by_unique; [apply (hi_slots _ _ _ Hi)|done|done]). done.
Qed.

(** [Huge::find] on any offset inside a range in use returns the
    descriptor of that range, although the lists also hold recycled
    descriptors with stale ranges, which [find] does not skip. *)
Theorem huge_find_in_use s t p d o :
  hreach s -> listed s t p -> in_use s p d -> in_desc d (o - 2 ^ 30) ->
  huge_find sbase o s = Done (s, Some p).
Proof.
  intros Hr Hp Hd Ho. destruct (hreach_inv s Hr) as (n & L & Hi). rewrite (listed_inv n L) in Hp by done.
  by eapply (huge_find_spec n L s t p d o).
Qed.

(** C17: from every reachable state every operation that its caller may make
    ([hguard]: in particular an allocation of at most 2^64 - 2^30 bytes) either returns in a
    reachable state or panics (no address space, no hazard entry, mapping
    refused); it never dereferences a dead descriptor and never loops. An
    allocation returns a listed live descriptor of the requested size. *)
Theorem huge_ops_safe s id op :
  hreach s -> id_wf id -> hguard s id op ->
  pwp (hexec id op) (fun s' r => hreach s' /\
    match op with HAlloc size _ => exists p, r = Some p /\ allocated s' id size p | _ => True end) s.
Proof.
  intros Hr Hid Hg. destruct (hreach_inv s Hr) as (n & L & Hi). pose proof (hexec_spec n L s id op Hi Hid Hg) as H.
  unfold pwp in *. destruct (hexec id op s) as [[s' r]| | |] eqn:E; [|done..]. split; [by econstructor|apply H].
Qed.

(** C13: from every reachable state [Huge::focus], run by a thread that
    restarts with an empty allocator, returns, and the rebuilt free space is
    exactly what the thread has claimed less its live allocations: no live byte
    is free, and all that was free before is free again. Nothing else changes.
    When no freed descriptor of the thread awaits recycling, the system goes on
    from a reachable state; otherwise its range counts as free again (see
    [focus_double_allocation]). *)
Theorem restart_rebuilds s id :
  hreach s -> id_wf id ->
  wp (hexec id HRestart) (fun s' _ =>
    slots s' = slots s /\ hint s' = hint s /\ howned s' = howned s /\ descs s' = descs s /\ maps s' = maps s /\
    (forall t k, t <> id -> is_free s' t k <-> is_free s t k) /\
    (forall k, is_free s' id k <-> owned_by s id k /\
       ~ exists p d, listed s id p /\ descs s !! p = Some d /\ dd_state d = Live /\ in_desc d k) /\
    (forall k, is_free s id k -> is_free s' id k) /\
    (hguard s id HRestart -> hreach s')) s.
Proof.
  intros Hr Hid. destruct (hreach_inv s Hr) as (n & L & Hi).
  destruct (hexec id HRestart s) as [[s' r]| | |] eqn:E.
  2-4: pose proof (focus_spec n L id s Hi) as H; unfold wp in H; simpl in E; unfold bind, modify in E; simpl in E;
       by destruct (focus cfg sbase id _) as [[? []]| | |].
  assert (hguard s id HRestart -> hreach s') as Hr' by (intros Hg; by econstructor). unfold wp. rewrite E.
  pose proof (focus_spec n L id s Hi) as H. unfold wp in H. simpl in E. unfold bind, modify in E. simpl in E.
  destruct (focus cfg sbase id _) as [[s2 []]| | |]; try done. simpl in E. injection E as <- _.
  destruct H as (a & -> & _ & Hmem & _).
  assert (forall k, is_free (put_halloc id a s) id k <-> owned_by s id k /\
    ~ exists p d, listed s id p /\ descs s !! p = Some d /\ dd_state d = Live /\ in_desc d k) as Hfree.
  { intros k. unfold is_free. rewrite halloc_put, Hmem. apply and_iff_compat_l, not_iff_compat. unfold live_byte.
    split; intros (p & d & Hp & H); exists p, d; (split; [by apply (listed_inv n L s id p Hi)|done]). }
  split_and!; try done.
  - intros t k Hne. unfold is_free, halloc_of. simpl. by rewrite lookup_insert_ne.
  - intros k Hk. apply Hfree. split; [by apply (hi_own _ _ _ Hi)|]. intros (p & d & Hp & Hd & Hl & Hkd).
    apply (listed_inv n L) in Hp; [|done].
    destruct (hi_used _ _ _ Hi id p d k Hp) as [_ Hn]; [split; congruence|done|done].
Qed.

(** [Huge::reuse] recycles a descriptor only if it was freed and no
    thread holds a hazard on it; everything else, in particular every live
    descriptor and every hazard, is as before. The descriptor it offers is
    safe. *)
Theorem reuse_respects_hazards s id :
  hreach s ->
  pwp (reuse cfg sbase id) (fun s' r => howned s' = howned s /\ slots s' = slots s /\
    (forall p e, descs s !! p = Some e -> exists e', descs s' !! p = Some e' /\
      (e' = e \/ dd_state e = Free /\ e' = with_state Safe e /\
         forall t, hz_contains (howned_of s t) (dd_offset e) = false)) /\
    (forall o, r = Some o -> exists e, descs s' !! (offset_to_pointer sbase o) = Some e /\ dd_state e = Safe)) s.
Proof.
  intros Hr. destruct (hreach_inv s Hr) as (n & L & Hi). eapply pwp_conseq; [by apply (reuse_spec n L)|].
  intros s' r (Hi' & [[Es _] Eo _ _ _ Hd] & fs & Hfs & ->). split_and!; [done|done| |].
  - intros p e He. destruct (Hd p e He) as (e' & He' & Hc). exists e'. split; [done|].
    destruct Hc as [->|(Hf & -> & Hu)]; [by left|right]. split_and!; [done|done|]. intros t.
    destruct (hi_hz _ _ _ Hi t) as (X & HX & _). rewrite (hz_contains_abs _ X) by done.
    apply bool_decide_eq_false. by apply (Hu t).
  - intros o Ho. destruct fs as [p|]; [|done]. injection Ho as <-. destruct Hfs as (la & lb & e & _ & He & Hs & _).
    exists e. unfold offset_to_pointer. by replace (sbase + (p - sbase)) with p by lia.
Qed.
End sys.

(** ** Concrete runs *)
Module Runs.
#[local] Existing Instance IntervalList.intervals.
#[local] Existing Instance IntervalList.intervals_laws.
Definition cfg : Cfg := default_cfg true.
Definition sbase : Z := 2 ^ 40.
Definition lo : Z := 2 ^ 45.
Definition hi : Z := 2 ^ 45 + 2 ^ 40.
Definition hbase : Z := data_new (H := Size.Huge.bracket) lo.
Definition mapped (_ _ : Z) : bool := true.

Abbreviation exec := (hexec (IV := IntervalList.intervals) cfg sbase hbase lo hi mapped).
Abbreviation reached := (hreach (IV := IntervalList.intervals) cfg sbase hbase lo hi mapped).

Definition final {A} (m : M HugeS A) (s : HugeS) : HugeS :=
  match m s with Done (s', _) => s' | _ => s end.

(** Thread 1 allocates two pages; thread 2 maps the second; thread 1 frees the
    first, allocates 1 GiB (with the recycled descriptor) and frees the second. *)
Definition A : Z := sbase + 64.
Definition B : Z := sbase + 128.
Definition C : Z := sbase + 192.
Definition s1 : HugeS := final (exec 1 (HAlloc 4096 A)) zero_huge.
Definition s2 : HugeS := final (exec 1 (HAlloc 4096 B)) s1.
Definition s3 : HugeS := final (exec 2 (HMap (lo + 4096))) s2.
Definition s4 : HugeS := final (exec 1 (HFree (2 ^ 30))) s3.
Definition s4' : HugeS := final (exec 1 (HAlloc (2 ^ 30) C)) s4.
Definition s5 : HugeS := final (exec 1 (HFree (2 ^ 30 + 4096))) s4'.

(** Thread 1 is recovered: its allocator is rebuilt from scratch. It allocates
    two pages, thread 2 refreshes, thread 1 allocates one more page. *)
Definition restart : M HugeS unit :=
  modify (put_halloc 1 halloc_default) ;;; focus cfg sbase 1.
Definition s6 : HugeS := final restart s5.
Definition s7 : HugeS := final (exec 1 (HAlloc 8192 C)) s6.
Definition s8 : HugeS := final (exec 2 HRefresh) s7.
Definition s9 : HugeS := final (exec 1 (HAlloc 4096 (sbase + 256))) s8.

Lemma one_wf : id_wf 1.
Proof. unfold id_wf, COUNT_THREAD. lia. Qed.

Lemma huge_s1_reached : reached s1.
Proof.
  eapply (hreach_step _ _ _ _ _ _ zero_huge 1 (HAlloc 4096 A) s1 (Some lo)); [constructor|apply one_wf| |by vm_compute].
  split_and!; [done|done|unfold addr_ok, A, sbase; lia|vm_compute; done].
Qed.

Definition d1 : Descriptor := mkDesc 1 (2 ^ 30) 4096 None Live.

Lemma s1_listed : listed (IV := IntervalList.intervals) sbase s1 1 A.
Proof. exists [A]. split; [by vm_compute|by left]. Qed.

Lemma s1_desc : descs s1 !! A = Some d1.
Proof. by vm_compute. Qed.

Lemma s1_in_use : in_use s1 A d1.
Proof. split; [apply s1_desc|done]. Qed.

Lemma huge_in_use_disjoint_witness : ~ is_free s1 1 100.
Proof.
  eapply (huge_in_use_disjoint cfg sbase hbase lo hi mapped eq_refl s1 1 1 A A d1 d1 100 huge_s1_reached s1_listed s1_listed s1_in_use s1_in_use).
  unfold in_desc. simpl. lia.
Defined.

Lemma huge_find_in_use_witness : huge_find sbase (2 ^ 30 + 100) s1 = Done (s1, Some A).
Proof.
  apply (huge_find_in_use cfg sbase hbase lo hi mapped eq_refl s1 1 A d1 (2 ^ 30 + 100) huge_s1_reached s1_listed s1_in_use).
  unfold in_desc. simpl. lia.
Defined.

Lemma huge_ops_safe_witness : pwp (exec 1 (HFree (2 ^ 30))) (fun s' r => reached s' /\ True) s1.
Proof.
  apply (huge_ops_safe cfg sbase hbase lo hi mapped eq_refl s1 1 (HFree (2 ^ 30)) huge_s1_reached).
  - apply one_wf.
  - exists 1, A, d1. split_and!; [apply s1_listed|apply s1_desc|done|unfold in_desc; simpl; lia].
Defined.

Lemma restart_rebuilds_witness :
  wp (exec 1 HRestart) (fun s' _ => descs s' = descs s1 /\ (is_free s1 1 4096 -> is_free s' 1 4096)) s1.
Proof.
  eapply wp_conseq; [apply (restart_rebuilds cfg sbase hbase lo hi mapped eq_refl s1 1 huge_s1_reached one_wf)|].
  intros s' _ (_ & _ & _ & H1 & _ & _ & _ & H2 & _). exact (conj H1 (H2 4096)).
Defined.

Lemma reuse_respects_hazards_witness :
  pwp (reuse cfg sbase 1) (fun s' r => howned s' = howned s1 /\ slots s' = slots s1) s1.
Proof.
  eapply pwp_conseq; [apply (reuse_respects_hazards cfg sbase hbase lo hi mapped eq_refl s1 1 huge_s1_reached)|].
  intros s' r (H1 & H2 & _). exact (conj H1 H2).
Defined.

Lemma reached_step s id op p d s' r :
  reached s -> id_wf id -> live_at (IV := IntervalList.intervals) sbase s 1 p d
    (match op with HFree o => o | HMap a => a - hbase | _ => 0 end) ->
  match op with
  | HFree _ => True
  | HMap a => lo <= a < hi /\ hz_contains (howned_of s id) (dd_offset d) = false
  | _ => False
  end ->
  exec id op s = Done (s', r) -> reached s'.
Proof.
  intros Hr Hid Hl Hop He. eapply hreach_step; [exact Hr|exact Hid| |exact He]. clear He Hr.
  destruct op; try done; cbn [hguard].
  - by exists 1, p, d.
  - destruct Hop as [Ha Hz]. split; [exact Ha|]. split; [|by exists 1, p, d].
    destruct Ha as [Ha _]. revert Ha. clear. unfold hbase, data_new, lo.
    change (SIZE_SLAB (Bracket := Size.Huge.bracket)) with (2 ^ 30). lia.
Qed.

Definition d2 : Descriptor := mkDesc 2 (2 ^ 30 + 4096) 4096 (Some (A - (B + NEXT_FIELD))) Live.

Lemma s5_reached : reached s5.
Proof.
  assert (reached s2) as H2.
  { eapply (hreach_step _ _ _ _ _ _ s1 1 (HAlloc 4096 B) s2 (Some (lo + 4096))); [apply huge_s1_reached|apply one_wf| |by vm_compute].
    split_and!; [done|by vm_compute|unfold addr_ok, B, sbase; lia|vm_compute; done]. }
  assert (reached s3) as H3.
  { eapply (reached_step s2 2 (HMap (lo + 4096)) B d2 s3 None H2); [unfold id_wf, COUNT_THREAD; lia| | |by vm_compute].
    - split_and!; [exists [B; A]; split; [by vm_compute|by left]|by vm_compute|done|].
      unfold in_desc. change hbase with (lo - 2 ^ 30). simpl. lia.
    - split; [unfold lo, hi; lia|by vm_compute]. }
  assert (reached s4) as H4.
  { eapply (reached_step s3 1 (HFree (2 ^ 30)) A d1 s4 None H3); [apply one_wf| |done|by vm_compute].
    split_and!; [exists [B; A]; split; [by vm_compute|by right; left]|by vm_compute|done|unfold in_desc; simpl; lia]. }
  assert (reached s4') as H5.
  { eapply (hreach_step _ _ _ _ _ _ s4 1 (HAlloc (2 ^ 30) C) s4' (Some (lo + 2 ^ 30))); [done|apply one_wf| |by vm_compute].
    split_and!; [done|by vm_compute|unfold addr_ok, C, sbase; lia|vm_compute; done]. }
  eapply (reached_step s4' 1 (HFree (2 ^ 30 + 4096)) B d2 s5 None H5); [apply one_wf| |done|by vm_compute].
  split_and!; [exists [B; A]; split; [by vm_compute|by left]|by vm_compute|done|unfold in_desc; simpl; lia].
Qed.

(** C35: after [focus] rebuilds the allocator of a recovered thread, the
    invariant is lost: from a reachable state in which a freed range is still
    mapped by another thread, [focus] counts that range as free, and three
    ordinary operations later two live allocations overlap. *)
Theorem focus_double_allocation :
  reached s5 /\ restart s5 = Done (s6, tt) /\
  exec 1 (HAlloc 8192 C) s6 = Done (s7, Some lo) /\
  exec 2 HRefresh s7 = Done (s8, None) /\
  exec 1 (HAlloc 4096 (sbase + 256)) s8 = Done (s9, Some (lo + 4096)) /\
  live_at sbase s9 1 C (mkDesc 4 (2 ^ 30) 8192 (Some (B - (C + NEXT_FIELD))) Live) (2 ^ 30 + 4096) /\
  live_at sbase s9 1 B (mkDesc 5 (2 ^ 30 + 4096) 4096 (Some (A - (B + NEXT_FIELD))) Live) (2 ^ 30 + 4096).
Proof.
  split; [apply s5_reached|].
  split_and!; [by vm_compute..| |].
  - split_and!; [exists [C; B; A]; split; [by vm_compute|by left]|by vm_compute|done|unfold in_desc; simpl; lia].
  - split_and!; [exists [C; B; A]; split; [by vm_compute|by right; left]|by vm_compute|done|unfold in_desc; simpl; lia].
Qed.
End Runs.
