(* ===== verification/Allocator.v ===== *)
(** * Allocator: the allocator a thread uses (cxlalloc/src/allocator.rs)

    [Allocator<view::Focus, S, O>]: the small and the large heap and the huge
    allocator behind one interface, the roots, and the log of the thread. The
    small and large heaps share the context (help array and logs); huge
    descriptors live in blocks of the small heap. User memory is a map from
    addresses to bytes, read and written only by [realloc_untyped]. *)

From Stdlib Require Import ZArith Lia.
From stdpp Require Import base numbers option gmap functions list.
From S2P Require Import Prelude Bitset Size Data Cas Slab Heap Huge.
Local Open Scope Z_scope.
Local Open Scope prog_scope.

Section alloc.
Context (cfg : Cfg) `{IV : IntervalSet}.

(** Shared and thread-owned state of all threads: [Shared] (the roots, the
    help array in the context), [Owned] (root; the log in the context), the
    three allocators, and user memory. *)
Record AllocS := mkAllocS {
  al_ctx : Ctx;
  al_small : HeapMem;
  al_large : HeapMem;
  al_huge : HugeS;
  al_stat : list (Z * Event);
  al_root : option Z;
  al_roots : list (option Z);
  al_owned_root : gmap Z Z;
  al_bytes : gmap Z Z;
}.

Definition COUNT_ROOT : Z := 1024.
Definition zero_alloc : AllocS :=
  mkAllocS (mkCtx ∅ ∅) zero_mem zero_mem zero_huge [] None (replicate 1024 None) ∅ ∅.

(** ** The parts of the state *)

Definition small_of (s : AllocS) : HS := mkHS (al_ctx s) (al_small s) (al_stat s).
Definition large_of (s : AllocS) : HS := mkHS (al_ctx s) (al_large s) (al_stat s).

Definition put_small (h : HS) (s : AllocS) : AllocS :=
  mkAllocS (hs_ctx h) (hs_mem h) (al_large s) (al_huge s) (hs_stat h) (al_root s) (al_roots s) (al_owned_root s) (al_bytes s).
Definition put_large (h : HS) (s : AllocS) : AllocS :=
  mkAllocS (hs_ctx h) (al_small s) (hs_mem h) (al_huge s) (hs_stat h) (al_root s) (al_roots s) (al_owned_root s) (al_bytes s).
Definition put_huge (h : HugeS) (s : AllocS) : AllocS :=
  mkAllocS (al_ctx s) (al_small s) (al_large s) h (al_stat s) (al_root s) (al_roots s) (al_owned_root s) (al_bytes s).
Definition put_ctx (x : Ctx) (s : AllocS) : AllocS :=
  mkAllocS x (al_small s) (al_large s) (al_huge s) (al_stat s) (al_root s) (al_roots s) (al_owned_root s) (al_bytes s).
Definition put_bytes (b : gmap Z Z) (s : AllocS) : AllocS :=
  mkAllocS (al_ctx s) (al_small s) (al_large s) (al_huge s) (al_stat s) (al_root s) (al_roots s) (al_owned_root s) b.
Definition put_root (r : option Z) (s : AllocS) : AllocS :=
  mkAllocS (al_ctx s) (al_small s) (al_large s) (al_huge s) (al_stat s) r (al_roots s) (al_owned_root s) (al_bytes s).
Definition put_roots (r : list (option Z)) (s : AllocS) : AllocS :=
  mkAllocS (al_ctx s) (al_small s) (al_large s) (al_huge s) (al_stat s) (al_root s) r (al_owned_root s) (al_bytes s).

(** Running an operation of a part on the whole state. *)
Definition zoom {T A} (get : AllocS -> T) (put : T -> AllocS -> AllocS) (m : M T A) : M AllocS A :=
  fun s => obind (m (get s)) (fun p => Done (put (fst p) s, snd p)).

Definition zoom_small {A} : M HS A -> M AllocS A := zoom small_of put_small.
Definition zoom_large {A} : M HS A -> M AllocS A := zoom large_of put_large.
Definition zoom_huge {A} : M HugeS A -> M AllocS A := zoom al_huge put_huge.

(** [self.owned.state.store(None)]. *)
Definition clear_log (id : Z) : M AllocS unit :=
  modify (fun s => put_ctx (mkCtx (help_array (al_ctx s)) (delete id (logs (al_ctx s)))) s).


(** [sreg], [lreg], [hreg]: where the three data regions are mapped. *)
Context (sreg lreg hreg : Z) (map_ok : Z -> Z -> bool).

Definition sbase : Z := data_new (H := Size.Small.bracket) sreg.
Definition lbase : Z := data_new (H := Size.Large.bracket) lreg.
Definition hbase : Z := data_new (H := Size.Huge.bracket) hreg.
Definition hend : Z := hreg + RESERVATION_SIZE.

Abbreviation dbg := (debug_assertions cfg).

(** The heaps at their brackets. *)
Definition small_peek (id c : Z) : M HS (option (Z * Bit)) := peek cfg (B := Size.Small.bracket) (IS := small_into) id c.
Definition small_pop (id c index : Z) (block : Bit) : M HS Z :=
  pop cfg (B := Size.Small.bracket) sbase id c index block.
Definition small_free (id o : Z) : M HS unit := heap_free cfg (B := Size.Small.bracket) (IS := small_into) id o.
Definition large_peek (id c : Z) : M HS (option (Z * Bit)) := peek cfg (B := Size.Large.bracket) (IS := large_into) id c.
Definition large_pop (id c index : Z) (block : Bit) : M HS Z :=
  pop cfg (B := Size.Large.bracket) lbase id c index block.
Definition large_free (id o : Z) : M HS unit := heap_free cfg (B := Size.Large.bracket) (IS := large_into) id o.

Definition small_offset (p : Z) : outcome (option Z) := checked_pointer_to_offset cfg (B := Size.Small.bracket) sbase p.
Definition large_offset (p : Z) : outcome (option Z) := checked_pointer_to_offset cfg (B := Size.Large.bracket) lbase p.
Definition huge_offset (p : Z) : option Z := huge_pointer_to_offset hbase hreg hend p.

(** ** Roots *)

(** [root_shared] and [set_root_shared]. *)
Definition root_shared : M AllocS (option Z) :=
  gets (fun s => offset_to_pointer sbase <$> al_root s).

Definition set_root_shared (p : Z) : M AllocS unit :=
  o <- unwrap (pointer_to_offset sbase p) ;;
  modify (put_root (Some o)).

(** [root_owned]: always [Some]; [offset_to_offset] of the stored word. *)
Definition root_owned (id : Z) : M AllocS (option Z) :=
  w <- gets (fun s => default 0 (al_owned_root s !! id)) ;;
  o <- lift (offset_to_offset (H := Size.Small.bracket) dbg w) ;;
  ret (Some (offset_to_pointer sbase o)).

(** [root_untyped] and [set_root_untyped]: an index out of range panics;
    [None] is the null pointer. *)
Definition root_untyped (index : Z) : M AllocS (option Z) :=
  r <- gets (fun s => al_roots s !! Z.to_nat index) ;;
  o <- unwrap r ;;
  ret (offset_to_pointer sbase <$> o).

Definition set_root_untyped (index : Z) (p : option Z) : M AllocS unit :=
  let o := p ≫= pointer_to_offset sbase in
  r <- gets (fun s => al_roots s !! Z.to_nat index) ;;
  _ <- unwrap r ;;
  modify (fun s => put_roots (<[Z.to_nat index := o]> (al_roots s)) s).

(** [pointer_to_offset] and [offset_to_pointer] of the typed interface. *)
Definition api_pointer_to_offset (p : Z) : outcome Z := arith dbg 64 (p - sbase).
Definition api_offset_to_pointer (o : Z) : Z := offset_to_pointer sbase o.

(** ** Allocation *)

(** [allocate_huge]; [next_multiple_of] and [NonZeroUsize::new] refuse a size
    whose rounding does not fit a [usize]. *)
Definition allocate_huge (id size : Z) : M AllocS (option Z) :=
  let rounded := next_multiple_of size SIZE_PAGE in
  assert_ ((0 <? rounded) && (rounded <? 2 ^ 64)) ;;;
  r <- zoom_huge (reuse cfg sbase id) ;;
  match r with
  | Some o =>
      p <- zoom_huge (huge_allocate cfg sbase hbase map_ok id rounded (offset_to_pointer sbase o) true) ;;
      ret (Some p)
  | None =>
      c <- lift DESC_CLASS ;;
      r <- zoom_small (small_peek id c) ;;
      ib <- unwrap r ;;
      o <- lift (from_block (H := Size.Small.bracket) dbg c (fst ib) (snd ib)) ;;
      p <- zoom_huge (huge_allocate cfg sbase hbase map_ok id rounded (offset_to_pointer sbase o) false) ;;
      zoom_small (small_pop id c (fst ib) (snd ib)) ;;;
      ret (Some p)
  end.

(** [allocate_large]. *)
Definition allocate_large (id size : Z) : M AllocS (option Z) :=
  c <- lift (Size.Large.new size) ;;
  match c with
  | None => allocate_huge id size
  | Some c =>
      r <- zoom_large (large_peek id c) ;;
      match r with
      | None => ret None
      | Some (index, block) =>
          p <- zoom_large (large_pop id c index block) ;; ret (Some p)
      end
  end.

(** [allocate_untyped]; [None] is the null pointer. *)
Definition allocate_untyped (id size : Z) : M AllocS (option Z) :=
  c <- lift (Size.Small.new size) ;;
  match c with
  | None => allocate_large id size
  | Some c =>
      r <- zoom_small (small_peek id c) ;;
      match r with
      | None => ret None
      | Some (index, block) =>
          p <- zoom_small (small_pop id c index block) ;;
          clear_log id ;;;
          ret (Some p)
      end
  end.

(** ** Release *)

(** [free_huge_untyped]: a pointer outside every region is ignored. *)
Definition free_huge_untyped (id p : Z) : M AllocS unit :=
  match huge_offset p with
  | Some o => zoom_huge (huge_free cfg sbase id o)
  | None => ret tt
  end.

Definition free_large_untyped (id p : Z) : M AllocS unit :=
  o <- lift (large_offset p) ;;
  match o with
  | None => free_huge_untyped id p
  | Some o => zoom_large (large_free id o)
  end.

Definition free_untyped (id p : Z) : M AllocS unit :=
  o <- lift (small_offset p) ;;
  match o with
  | None => free_large_untyped id p
  | Some o => zoom_small (small_free id o) ;;; clear_log id
  end.

(** [class_untyped]. *)
Definition class_untyped (p : Z) : M AllocS Z :=
  o <- lift (small_offset p) ;;
  match o with
  | Some o => c <- zoom_small (heap_class (B := Size.Small.bracket) o) ;; ret (Size.Small.size c)
  | None =>
      o <- lift (large_offset p) ;;
      match o with
      | Some o => c <- zoom_large (heap_class (B := Size.Large.bracket) o) ;; ret (Size.Large.size c)
      | None =>
          match huge_offset p with
          | Some o => zoom_huge (huge_class sbase o)
          | None => panic
          end
      end
  end.

(** [ptr::copy_nonoverlapping::<u8>]: overlapping ranges and a null
    destination are undefined. *)
Fixpoint copy_bytes (src dst : Z) (n : nat) (b : gmap Z Z) : gmap Z Z :=
  match n with
  | O => b
  | S n =>
      let b := copy_bytes src dst n b in
      match b !! (src + Z.of_nat n) with
      | Some x => <[dst + Z.of_nat n := x]> b
      | None => delete (dst + Z.of_nat n) b
      end
  end.

Definition copy_nonoverlapping (src : Z) (dst : option Z) (n : Z) : M AllocS unit :=
  match dst with
  | None => undef
  | Some dst =>
      if (src + n <=? dst) || (dst + n <=? src) then
        modify (fun s => put_bytes (copy_bytes src dst (Z.to_nat n) (al_bytes s)) s)
      else undef
  end.

(** [realloc_untyped]. *)
Definition realloc_untyped (id old_pointer new_size : Z) : M AllocS (option Z) :=
  old_size <- class_untyped old_pointer ;;
  if new_size <=? old_size then ret (Some old_pointer)
  else
    new_pointer <- allocate_untyped id new_size ;;
    copy_nonoverlapping old_pointer new_pointer old_size ;;;
    free_untyped id old_pointer ;;;
    ret new_pointer.

(** ** The typed interface: [size] is [size_of::<T>()] *)

Definition reserve_heap {B : Bracket} {IS : IntoState} (base id c : Z) : M HS Z :=
  r <- peek cfg id c ;;
  ib <- unwrap r ;;
  o <- lift (from_block dbg c (fst ib) (snd ib)) ;;
  ret (offset_to_pointer base o).

Definition reserve_large (id size : Z) : M AllocS Z :=
  c <- lift (Size.Large.new size) ;;
  match c with
  | None => panic
  | Some c => zoom_large (reserve_heap (B := Size.Large.bracket) (IS := large_into) lbase id c)
  end.

Definition reserve (id size : Z) : M AllocS Z :=
  c <- lift (Size.Small.new size) ;;
  match c with
  | None => reserve_large id size
  | Some c => zoom_small (reserve_heap (B := Size.Small.bracket) (IS := small_into) sbase id c)
  end.

Definition free_large (id size p : Z) : M AllocS unit :=
  c <- lift (Size.Large.new size) ;;
  match c with
  | None => panic
  | Some _ => o <- unwrap (pointer_to_offset lbase p) ;; zoom_large (large_free id o)
  end.

Definition free (id size p : Z) : M AllocS unit :=
  c <- lift (Size.Small.new size) ;;
  match c with
  | None => free_large id size p
  | Some _ => o <- unwrap (pointer_to_offset sbase p) ;; zoom_small (small_free id o)
  end.

(** [Allocator::focus] without recovery: the huge allocator's state in DRAM is
    rebuilt; [recover] is in Recover.v. *)
Definition focus_unrecovered (id : Z) : M AllocS unit := zoom_huge (focus cfg sbase id).
End alloc.
