(* ===== verification/AllocSys.v ===== *)
(** * AllocSys: the whole allocator refines an abstract allocator (Allocator.v)

    Small blocks, large blocks and huge ranges, allocated and freed by any
    threads through [allocate_untyped] and [free_untyped], against one abstract
    state: the pointers the application holds with their usable sizes. The
    blocks of the small heap that hold huge descriptors are internal. *)

From Stdlib Require Import ZArith Lia.
From stdpp Require Import base numbers option gmap fin_maps functions list.
From S2P Require Import Prelude Bitset Size Data Cas Slab Heap HeapLists HeapRules HeapInv HeapSafe HeapFree HeapSys HeapFrame.
From S2P Require Import Huge HugeSafe HugeSys Allocator.
Local Open Scope Z_scope.
Local Open Scope prog_scope.

(** ** Running a part on the whole *)
Section zoom.
Context {IV : IntervalSet}.

Lemma zoom_wp {T A} get put (m : M T A) Q (s : AllocS) :
  wp m (fun h a => Q (put h s) a) (get s) -> wp (zoom get put m) Q s.
Proof. unfold wp, zoom. by destruct (m (get s)) as [[h a]| | |]. Qed.

Lemma zoom_pwp {T A} get put (m : M T A) Q (s : AllocS) :
  pwp m (fun h a => Q (put h s) a) (get s) -> pwp (zoom get put m) Q s.
Proof. unfold pwp, zoom. by destruct (m (get s)) as [[h a]| | |]. Qed.

Lemma small_put h (s : AllocS) : small_of (put_small h s) = h.
Proof. by destruct h. Qed.
Lemma large_put h (s : AllocS) : large_of (put_large h s) = h.
Proof. by destruct h. Qed.
End zoom.

Lemma wp_exact {S A} (m : M S A) (Q : S -> A -> Prop) s s' a : m s = Done (s', a) -> Q s' a -> wp m Q s.
Proof. unfold wp. by intros ->. Qed.

(** The pointer [pop] answers is that of the block it took. *)
Lemma pop_pointer cfg {B : Bracket} base id c i b h h' p :
  pop cfg base id c i b h = Done (h', p) ->
  exists o, from_block (debug_assertions cfg) c i b = Done o /\ p = offset_to_pointer base o.
Proof.
  unfold pop. intros (? & ? & _ & H)%bind_done. apply bind_done in H as (? & ? & _ & H).
  apply bind_done in H as (? & ? & _ & H). apply bind_done in H as (? & ? & _ & H).
  apply bind_done in H as (? & ? & _ & H). apply bind_done in H as (? & o & Ho & H).
  unfold lift in Ho. destruct (from_block _ _ _ _) as [o'| | |] eqn:E; simpl in Ho; try done.
  injection Ho as <- <-. injection H as _ <-. eauto.
Qed.

Lemma pointer_offset_sub base p o : pointer_to_offset base p = Some o -> o = p - base.
Proof.
  unfold pointer_to_offset, checked_sub. destruct (base <=? p); [|done]. by destruct (_ =? 0); intros [= <-].
Qed.

(** ** Size classes *)
Lemma small_class s : 1 <= s <= Small.SIZE_MAX ->
  exists c, Size.Small.new s = Done (Some c) /\ class_wf (H := Small.bracket) c /\ s <= Small.size c.
Proof.
  intros Hs. eexists. split; [apply small_new_done; lia|].
  pose proof (next_multiple_of_spec s 8 ltac:(lia) ltac:(lia)) as [Hm H0].
  assert (next_multiple_of s 8 = 8 * (next_multiple_of s 8 / 8)) as E by (apply Z.div_exact; lia).
  pose proof (next_multiple_of_le s 8 Small.SIZE_MAX ltac:(lia) eq_refl ltac:(lia)).
  unfold class_wf, Small.size, Small.SIZE_MAX in *. simpl. unfold Small.is_zero, Small.COUNT.
  split_and!; [lia|lia| |lia]. apply Z.eqb_neq. lia.
Qed.

Lemma large_class s : Small.SIZE_MAX < s <= Large.SIZE_MAX ->
  exists c, Size.Large.new s = Done (Some c) /\ class_wf (H := Large.bracket) c /\ s <= Large.size c.
Proof.
  intros Hs. unfold Small.SIZE_MAX in Hs. destruct (large_new_done s ltac:(simpl; lia)) as [E Hl]. eexists. split; [done|].
  assert (Large.size (Z.log2_up s - 10) = 2 ^ Z.log2_up s) as ->.
  { unfold Large.size, Large.SIZE_MIN, Large.SIZE_MIN_LOG2. rewrite !Z.shiftl_mul_pow2 by lia.
    replace (Z.log2_up s) with (10 + (Z.log2_up s - 10)) at 2 by lia. rewrite Z.pow_add_r by lia. lia. }
  unfold class_wf. simpl. unfold Large.COUNT, Large.SIZE_MIN_LOG2, Large.SIZE_MAX_LOG2.
  split_and!; [lia|lia|done|]. apply Z.log2_up_spec. lia.
Qed.

(** ** Blocks inside the region *)
Section blocks.
Context `{BL : BracketLaws}.

Lemma sim_range base k s A p c :
  sim base k s A -> A !! p = Some c ->
  class_wf c /\ base + SIZE_SLAB <= p /\ p + class_size c <= base + SIZE_SLAB * bumpv (hs_mem s).
Proof.
  intros (g & HI & HR) (i & b & Hb & -> & ->)%HR. pose proof (live_block _ _ _ _ _ HI Hb) as Hw.
  assert (1 <= i < bumpv (hs_mem s)) as Hi.
  { apply (inv_fresh _ _ _ _ HI). destruct (live_place _ _ _ _ _ HI Hb) as [_ [(t & -> & _)|[-> _]]]; eauto. }
  pose proof (block_in_slab _ _ Hw) as [H1 H2]. pose proof slab_pos. split; [apply Hw|].
  unfold offset_to_pointer, block_offset. nia.
Qed.

Lemma sim_apart base k s A p c p' c' :
  sim base k s A -> A !! p = Some c -> A !! p' = Some c' -> p <> p' ->
  p + class_size c <= p' \/ p' + class_size c' <= p.
Proof.
  intros (g & HI & HR) (i & b & Hb & -> & Ep)%HR (i' & b' & Hb' & -> & Ep')%HR Hne.
  assert (i <> i' \/ class (loc (hs_mem s) i) = class (loc (hs_mem s) i') /\ b <> b') as Hd.
  { destruct (decide (i = i')) as [<-|]; [right|by left]. split; [done|]. intros <-. congruence. }
  pose proof (block_ranges _ _ i i' b b' (live_block _ _ _ _ _ HI Hb) (live_block _ _ _ _ _ HI Hb') Hd).
  unfold offset_to_pointer in *. lia.
Qed.

Lemma sim_bump base k s A : sim base k s A -> 1 <= bumpv (hs_mem s) < 2 ^ 32.
Proof. intros (g & HI & _). apply (inv_bump _ _ _ _ HI). Qed.

Lemma sim_class base k h A p c :
  sim base k h A -> A !! p = Some c -> heap_class (p - base) h = Done (h, c).
Proof.
  intros (g & HI & HR) (i & b & Hb & -> & ->)%HR. pose proof (live_block _ _ _ _ _ HI Hb) as Hw.
  pose proof (live_index _ _ _ _ _ HI Hb) as Hi. unfold offset_to_pointer.
  replace (base + _ - base) with (block_offset (class (loc (hs_mem h) i)) i b) by lia.
  unfold heap_class, bind, lift. rewrite into_index_done by done. done.
Qed.

(** [sim] looks at the memory of the heap only. *)
Lemma sim_mem base k s s' A : hs_mem s' = hs_mem s -> sim base k s A -> sim base k s' A.
Proof. unfold sim. by intros ->. Qed.
End blocks.

(** ** One heap step, split the way the allocator calls it *)
Section split.
Context (cfg : Cfg) `{BL : BracketLaws} `{IS : IntoState} (Hcfg : cfg_ok cfg) (base : Z) (Hbase : 0 <= base).

Lemma sim_alloc k h A id c :
  sim base k h A -> class_wf c -> bumpv (hs_mem h) + BATCH_BUMP_POP cfg < 2 ^ 32 -> k + 1 < 2 ^ 64 ->
  exists h1 i b h2 p, peek cfg id c h = Done (h1, Some (i, b)) /\ pop cfg base id c i b h1 = Done (h2, p) /\
    A !! p = None /\ sim base (k + 1) h2 (<[p := c]> A).
Proof.
  intros Hs Hc Hb Hk. pose proof (sim_step cfg base k h A (HeapSys.HAlloc id c) Hcfg Hbase Hs (conj Hc Hb) Hk) as H.
  apply wp_done in H as (h2 & r & E & Ha & Hs'). simpl in E. unfold alloc_block in E.
  apply bind_done in E as (h1 & r1 & Ep & E). destruct r1 as [[i b]|].
  - apply bind_done in E as (h2' & p & Epop & E). injection E as <- <-. inversion Ha; subst. simpl in Hs'.
    exists h1, i, b, h2', p. done.
  - injection E as <- <-. by inversion Ha.
Qed.

Lemma sim_free k h A id p :
  sim base k h A -> is_Some (A !! p) -> k + 1 < 2 ^ 64 ->
  exists o h2, pointer_to_offset base p = Some o /\ heap_free cfg id o h = Done (h2, tt) /\
    sim base (k + 1) h2 (delete p A).
Proof.
  intros Hs Hp Hk. pose proof (sim_step cfg base k h A (HeapSys.HFree id p) Hcfg Hbase Hs Hp Hk) as H.
  apply wp_done in H as (h2 & r & E & Ha & Hs'). simpl in E. apply bind_done in E as (h2' & [] & E & Er).
  injection Er as <- <-. unfold free_ptr in E. apply bind_done in E as (h' & o & Eo & E).
  destruct (pointer_to_offset base p) as [o'|]; [|done]. injection Eo as <- <-. exists o', h2'. done.
Qed.
End split.

Section sys.
Context (cfg : Cfg) {IV : IntervalSet} {IL : IntervalLaws IV} (sreg lreg hreg : Z) (map_ok : Z -> Z -> bool).

(** The three data regions are 1 TiB reservations that do not overlap. *)
Record layout_ok : Prop := {
  lo_min : 2 ^ 32 <= sreg /\ 2 ^ 32 <= lreg /\ 2 ^ 32 <= hreg;
  lo_max : sreg + 2 ^ 40 <= 2 ^ 63 /\ lreg + 2 ^ 40 <= 2 ^ 63 /\ hreg + 2 ^ 40 <= 2 ^ 63;
  lo_sl : sreg + 2 ^ 40 <= lreg \/ lreg + 2 ^ 40 <= sreg;
  lo_sh : sreg + 2 ^ 40 <= hreg \/ hreg + 2 ^ 40 <= sreg;
  lo_lh : lreg + 2 ^ 40 <= hreg \/ hreg + 2 ^ 40 <= lreg;
}.

Context (Hcfg : cfg_ok cfg) (Hlay : layout_ok).

Lemma sb_pos : 0 < sbase sreg.
Proof. change (sbase sreg) with (sreg - 2 ^ 15). pose proof (lo_min Hlay). lia. Qed.

Lemma lb_pos : 0 <= lbase lreg.
Proof. change (lbase lreg) with (lreg - 2 ^ 19). pose proof (lo_min Hlay). lia. Qed.

(** ** Which region a pointer is in (release build) *)
Definition inside (r p : Z) : bool := (r <=? p) && (p <? r + 2 ^ 40).

Lemma inside_true r p : r <= p < r + 2 ^ 40 -> inside r p = true.
Proof. intros Hr. unfold inside. by rewrite (proj2 (Z.leb_le _ _)), (proj2 (Z.ltb_lt _ _)) by lia. Qed.
Lemma inside_false r p : p < r \/ r + 2 ^ 40 <= p -> inside r p = false.
Proof. intros Hr. unfold inside. destruct (Z.leb_spec r p), (Z.ltb_spec p (r + 2 ^ 40)); done || lia. Qed.

Lemma checked_offset_spec (B : Bracket) reg p :
  0 < SIZE_SLAB < 2 ^ 32 -> 2 ^ 32 <= reg <= 2 ^ 63 -> 0 <= p < 2 ^ 63 + 2 ^ 40 ->
  checked_pointer_to_offset cfg (data_new reg) p = Done (if inside reg p then Some (p - data_new reg) else None).
Proof.
  intros Hs Hr Hp. unfold checked_pointer_to_offset, pointer_to_offset, checked_sub, inside, data_new.
  assert (debug_assertions cfg = false) as Hd.
  { pose proof (ok_release _ Hcfg) as H. unfold validating in H. by apply orb_false_iff in H as [_ ?]. }
  destruct (Z.leb_spec (reg - SIZE_SLAB) p); [|by rewrite (proj2 (Z.leb_gt reg p)) by lia].
  destruct (Z.eqb_spec (p - (reg - SIZE_SLAB)) 0); [by rewrite (proj2 (Z.leb_gt reg p)) by lia|].
  unfold offset_to_u64, arith. rewrite Hd. replace (p - (reg - SIZE_SLAB) - SIZE_SLAB) with (p - reg) by lia.
  change RESERVATION_SIZE with (2 ^ 40). destruct (Z.leb_spec reg p).
  - rewrite (proj2 (Z.leb_le 0 (p - reg))), (proj2 (Z.ltb_lt (p - reg) (2 ^ 64))) by lia. simpl obind. f_equal.
    destruct (Z.ltb_spec (p - reg) (2 ^ 40)), (Z.ltb_spec p (reg + 2 ^ 40)); done || lia.
  - rewrite (proj2 (Z.leb_gt 0 (p - reg))) by lia. simpl obind. unfold wrap.
    rewrite <- (Z.mod_add (p - reg) 1 (2 ^ 64)), Z.mod_small by lia.
    by rewrite (proj2 (Z.ltb_ge _ _)) by lia.
Qed.

Lemma small_offset_spec p : 0 <= p < 2 ^ 63 + 2 ^ 40 ->
  small_offset cfg sreg p = Done (if inside sreg p then Some (p - sbase sreg) else None).
Proof.
  intros Hp. destruct (lo_min Hlay) as (? & _), (lo_max Hlay) as (? & _).
  apply (checked_offset_spec Small.bracket); [by vm_compute|lia|done].
Qed.

Lemma large_offset_spec p : 0 <= p < 2 ^ 63 + 2 ^ 40 ->
  large_offset cfg lreg p = Done (if inside lreg p then Some (p - lbase lreg) else None).
Proof.
  intros Hp. destruct (lo_min Hlay) as (_ & ? & _), (lo_max Hlay) as (_ & ? & _).
  apply (checked_offset_spec Large.bracket); [by vm_compute|lia|done].
Qed.

Lemma huge_offset_spec p : 0 <= p ->
  huge_offset hreg p = if inside hreg p then Some (p - hbase hreg) else None.
Proof.
  intros Hp. unfold huge_offset, huge_pointer_to_offset, inside, hend. change RESERVATION_SIZE with (2 ^ 40).
  destruct (Z.leb_spec hreg p), (Z.ltb_spec p (hreg + 2 ^ 40)); simpl; try done.
  unfold pointer_to_offset, checked_sub. change (hbase hreg) with (hreg - 2 ^ 30).
  rewrite (proj2 (Z.leb_le _ _)), (proj2 (Z.eqb_neq _ _)) by lia. done.
Qed.

(** ** The invariant *)

Abbreviation simS := (sim (B := Small.bracket) (sbase sreg)).
Abbreviation simL := (sim (B := Large.bracket) (lbase lreg)).

(** The heaps have not outgrown their reservations. *)
Definition in_bounds (s : AllocS) : Prop := bumpv (al_small s) <= 2 ^ 25 /\ bumpv (al_large s) <= 2 ^ 21.

(** Pointers the application holds, with their usable sizes. *)
Definition app_view (L : Z -> list Z) (As Al : gmap Z Z) (h : HugeS) (p z : Z) : Prop :=
  (exists c, As !! p = Some c /\ descs h !! p = None /\ z = Small.size c) \/
  (exists c, Al !! p = Some c /\ z = Large.size c) \/
  (exists x, live_in L h x z /\ p = hbase hreg + x).

Record ainv (ks kl n : Z) (L : Z -> list Z) (As Al A : gmap Z Z) (s : AllocS) : Prop := {
  ai_small : simS ks (small_of s) As;
  ai_large : simL kl (large_of s) Al;
  ai_huge : hinv (sbase sreg) n L (al_huge s);
  ai_desc : forall q, is_Some (descs (al_huge s) !! q) -> is_Some (As !! q);
  ai_bounds : in_bounds s;
  ai_app : forall p z, A !! p = Some z <-> app_view L As Al (al_huge s) p z;
}.

Lemma small_region ks s As p c :
  simS ks (small_of s) As -> in_bounds s -> As !! p = Some c ->
  sreg <= p /\ p + Small.size c <= sreg + 2 ^ 40 /\ 0 < Small.size c.
Proof.
  intros Hs [Hb _] Hp. pose proof (sim_range (BL := Small_laws) _ _ _ _ _ _ Hs Hp) as (Hc & H1 & H2).
  change (sbase sreg + SIZE_SLAB (Bracket := Small.bracket)) with (sreg - 2 ^ 15 + 2 ^ 15) in H1.
  change (SIZE_SLAB (Bracket := Small.bracket)) with (2 ^ 15) in H2. change (sbase sreg) with (sreg - 2 ^ 15) in H2.
  change (class_size (Bracket := Small.bracket) c) with (Small.size c) in H2. simpl hs_mem in H2.
  pose proof (class_size_pos (B := Small.bracket) c Hc) as Hz. change (class_size (Bracket := Small.bracket) c) with (Small.size c) in Hz. lia.
Qed.

Lemma large_region kl s Al p c :
  simL kl (large_of s) Al -> in_bounds s -> Al !! p = Some c ->
  lreg <= p /\ p + Large.size c <= lreg + 2 ^ 40 /\ 0 < Large.size c.
Proof.
  intros Hs [_ Hb] Hp. pose proof (sim_range (BL := Large_laws) _ _ _ _ _ _ Hs Hp) as (Hc & H1 & H2).
  change (lbase lreg + SIZE_SLAB (Bracket := Large.bracket)) with (lreg - 2 ^ 19 + 2 ^ 19) in H1.
  change (SIZE_SLAB (Bracket := Large.bracket)) with (2 ^ 19) in H2. change (lbase lreg) with (lreg - 2 ^ 19) in H2.
  change (class_size (Bracket := Large.bracket) c) with (Large.size c) in H2. simpl hs_mem in H2.
  pose proof (class_size_pos (B := Large.bracket) c Hc) as Hz. change (class_size (Bracket := Large.bracket) c) with (Large.size c) in Hz. lia.
Qed.

Lemma huge_region n L h x z :
  hinv (sbase sreg) n L h -> live_in L h x z ->
  hreg <= hbase hreg + x /\ hbase hreg + x + z <= hreg + 2 ^ 40 /\ 0 < z.
Proof.
  intros Hi (t & p & d & Hp & Hd & Hl & <- & <-). change (hbase hreg) with (hreg - 2 ^ 30).
  pose proof (hi_range _ _ _ _ Hi _ _ _ Hp Hd) as Hr.
  destruct (hi_used _ _ _ _ Hi t p d (dd_offset d + dd_size d - 1 - 2 ^ 30) Hp) as [Ho _];
    [split; congruence|unfold in_desc; lia|].
  pose proof (tiled_bounds _ _ (sw_tiled _ _ (hi_slots _ _ _ _ Hi))) as Hn. unfold COUNT_SLOT in Hn.
  apply (owned_by_bound n) in Ho; [lia|apply (hi_slots _ _ _ _ Hi)].
Qed.

(** Everything the application holds is apart from everything else it holds. *)
Lemma app_apart ks kl n L As Al A s p z p' z' :
  ainv ks kl n L As Al A s -> A !! p = Some z -> A !! p' = Some z' -> p <> p' ->
  p + z <= p' \/ p' + z' <= p.
Proof.
  intros HI Hp%(ai_app _ _ _ _ _ _ _ _ HI) Hp'%(ai_app _ _ _ _ _ _ _ _ HI) Hne.
  pose proof (lo_sl Hlay). pose proof (lo_sh Hlay). pose proof (lo_lh Hlay).
  pose proof (fun p c => small_region ks s As p c (ai_small _ _ _ _ _ _ _ _ HI) (ai_bounds _ _ _ _ _ _ _ _ HI)) as HS.
  pose proof (fun p c => large_region kl s Al p c (ai_large _ _ _ _ _ _ _ _ HI) (ai_bounds _ _ _ _ _ _ _ _ HI)) as HL.
  pose proof (fun x z => huge_region n L (al_huge s) x z (ai_huge _ _ _ _ _ _ _ _ HI)) as HH.
  destruct Hp as [(c & Hc & _ & ->)|[(c & Hc & ->)|(x & Hx & ->)]], Hp' as [(c' & Hc' & _ & ->)|[(c' & Hc' & ->)|(x' & Hx' & ->)]].
  - by apply (sim_apart (BL := Small_laws) _ _ _ _ _ _ _ _ (ai_small _ _ _ _ _ _ _ _ HI) Hc Hc').
  - specialize (HS p c Hc). specialize (HL p' c' Hc'). lia.
  - specialize (HS p c Hc). specialize (HH x' z' Hx'). lia.
  - specialize (HL p c Hc). specialize (HS p' c' Hc'). lia.
  - by apply (sim_apart (BL := Large_laws) _ _ _ _ _ _ _ _ (ai_large _ _ _ _ _ _ _ _ HI) Hc Hc').
  - specialize (HL p c Hc). specialize (HH x' z' Hx'). lia.
  - specialize (HS p' c' Hc'). specialize (HH x z Hx). lia.
  - specialize (HL p' c' Hc'). specialize (HH x z Hx). lia.
  - assert (x + z <= x' \/ x' + z' <= x); [|lia]. apply (live_apart (sbase sreg) map_ok sb_pos n L (al_huge s)); [apply (ai_huge _ _ _ _ _ _ _ _ HI)|done|done|]. congruence.
Qed.

(** ** Small and large operations *)

Lemma ainv_small_alloc ks ks' kl n L As Al A s h p c x :
  ainv ks kl n L As Al A s -> simS ks' h (<[p := c]> As) -> As !! p = None ->
  in_bounds (put_small h s) ->
  let s' := put_ctx x (put_small h s) in
  A !! p = None /\ ainv ks' kl n L (<[p := c]> As) Al (<[p := Small.size c]> A) s'.
Proof.
  intros HI Hs Hp Hb s'. pose proof (ai_app _ _ _ _ _ _ _ _ HI) as Happ.
  assert (descs (al_huge s) !! p = None) as Hd.
  { apply eq_None_not_Some. intros H%(ai_desc _ _ _ _ _ _ _ _ HI). rewrite Hp in H. by destruct H. }
  pose proof (small_region ks' (put_small h s) (<[p := c]> As) p c) as Hr.
  destruct Hr as (Hr1 & Hr2 & Hr3); [by eapply (sim_mem (B := Small.bracket)); [|exact Hs]|done|by rewrite lookup_insert_eq|].
  assert (A !! p = None) as HA.
  { destruct (A !! p) as [z|] eqn:E; [|done]. exfalso. apply Happ in E as [(c' & Hc & _)|[(c' & Hc & ->)|(y & Hy & Ey)]].
    - congruence.
    - pose proof (large_region kl s Al p c' (ai_large _ _ _ _ _ _ _ _ HI) (ai_bounds _ _ _ _ _ _ _ _ HI) Hc). pose proof (lo_sl Hlay). lia.
    - pose proof (huge_region n L (al_huge s) y z (ai_huge _ _ _ _ _ _ _ _ HI) Hy). pose proof (lo_sh Hlay). lia. }
  split; [done|]. split.
  - by eapply (sim_mem (B := Small.bracket)); [|exact Hs].
  - eapply (sim_mem (B := Large.bracket)); [|apply (ai_large _ _ _ _ _ _ _ _ HI)]. done.
  - apply (ai_huge _ _ _ _ _ _ _ _ HI).
  - intros q Hq. apply (ai_desc _ _ _ _ _ _ _ _ HI) in Hq. rewrite lookup_insert_is_Some. destruct (decide (p = q)); [by left|by right].
  - exact Hb.
  - intros q z. unfold app_view. simpl al_huge. destruct (decide (q = p)) as [->|Hne].
    + rewrite lookup_insert_eq. split.
      * intros [= <-]. left. exists c. rewrite lookup_insert_eq. done.
      * rewrite lookup_insert_eq. intros Hv. f_equal. destruct Hv as [(c' & [= <-] & _ & ->)|Hv]; [done|].
        assert (app_view L As Al (al_huge s) p z) as Hv' by (right; exact Hv). apply Happ in Hv'. congruence.
    + rewrite !lookup_insert_ne by done. apply Happ.
Qed.

Lemma ainv_large_alloc ks kl kl' n L As Al A s h p c :
  ainv ks kl n L As Al A s -> simL kl' h (<[p := c]> Al) -> Al !! p = None ->
  in_bounds (put_large h s) ->
  A !! p = None /\ ainv ks kl' n L As (<[p := c]> Al) (<[p := Large.size c]> A) (put_large h s).
Proof.
  intros HI Hs Hp Hb. pose proof (ai_app _ _ _ _ _ _ _ _ HI) as Happ.
  pose proof (large_region kl' (put_large h s) (<[p := c]> Al) p c) as Hr.
  destruct Hr as (Hr1 & Hr2 & Hr3); [by eapply (sim_mem (B := Large.bracket)); [|exact Hs]|done|by rewrite lookup_insert_eq|].
  assert (A !! p = None) as HA.
  { destruct (A !! p) as [z|] eqn:E; [|done]. exfalso. apply Happ in E as [(c' & Hc & _ & ->)|[(c' & Hc & ->)|(y & Hy & Ey)]].
    - pose proof (small_region ks s As p c' (ai_small _ _ _ _ _ _ _ _ HI) (ai_bounds _ _ _ _ _ _ _ _ HI) Hc). pose proof (lo_sl Hlay). lia.
    - congruence.
    - pose proof (huge_region n L (al_huge s) y z (ai_huge _ _ _ _ _ _ _ _ HI) Hy). pose proof (lo_lh Hlay). lia. }
  split; [done|]. split.
  - eapply (sim_mem (B := Small.bracket)); [|apply (ai_small _ _ _ _ _ _ _ _ HI)]. done.
  - by eapply (sim_mem (B := Large.bracket)); [|exact Hs].
  - apply (ai_huge _ _ _ _ _ _ _ _ HI).
  - apply (ai_desc _ _ _ _ _ _ _ _ HI).
  - exact Hb.
  - intros q z. unfold app_view. simpl al_huge. destruct (decide (q = p)) as [->|Hne].
    + rewrite lookup_insert_eq. split.
      * intros [= <-]. right; left. exists c. rewrite lookup_insert_eq. done.
      * rewrite lookup_insert_eq. intros Hv. f_equal.
        destruct Hv as [Hv|[(c' & [= <-] & ->)|Hv]]; [|done|].
        -- assert (app_view L As Al (al_huge s) p z) as Hv' by (left; exact Hv). apply Happ in Hv'. congruence.
        -- assert (app_view L As Al (al_huge s) p z) as Hv' by (right; right; exact Hv). apply Happ in Hv'. congruence.
    + rewrite !lookup_insert_ne by done. apply Happ.
Qed.

(** A pointer is in one region only. *)
Lemma one_region ks kl n L As Al A s p :
  ainv ks kl n L As Al A s ->
  (is_Some (As !! p) -> Al !! p = None /\ forall x z, live_in L (al_huge s) x z -> p <> hbase hreg + x) /\
  (is_Some (Al !! p) -> As !! p = None /\ forall x z, live_in L (al_huge s) x z -> p <> hbase hreg + x).
Proof.
  intros HI. pose proof (lo_sl Hlay). pose proof (lo_sh Hlay). pose proof (lo_lh Hlay).
  pose proof (fun p c => small_region ks s As p c (ai_small _ _ _ _ _ _ _ _ HI) (ai_bounds _ _ _ _ _ _ _ _ HI)) as HS.
  pose proof (fun p c => large_region kl s Al p c (ai_large _ _ _ _ _ _ _ _ HI) (ai_bounds _ _ _ _ _ _ _ _ HI)) as HL.
  pose proof (fun x z => huge_region n L (al_huge s) x z (ai_huge _ _ _ _ _ _ _ _ HI)) as HH.
  split; intros [c Hc]; split.
  - destruct (Al !! p) as [c'|] eqn:E; [|done]. specialize (HS p c Hc). specialize (HL p c' E). lia.
  - intros x z Hx ->. specialize (HS _ c Hc). specialize (HH x z Hx). lia.
  - destruct (As !! p) as [c'|] eqn:E; [|done]. specialize (HL p c Hc). specialize (HS p c' E). lia.
  - intros x z Hx ->. specialize (HL _ c Hc). specialize (HH x z Hx). lia.
Qed.

Lemma ainv_small_free ks ks' kl n L As Al A s h p c x :
  ainv ks kl n L As Al A s -> As !! p = Some c -> descs (al_huge s) !! p = None ->
  simS ks' h (delete p As) -> in_bounds (put_small h s) ->
  ainv ks' kl n L (delete p As) Al (delete p A) (put_ctx x (put_small h s)).
Proof.
  intros HI Hp Hd Hs Hb. pose proof (ai_app _ _ _ _ _ _ _ _ HI) as Happ.
  destruct (one_region _ _ _ _ _ _ _ _ p HI) as [Hone _]. destruct (Hone ltac:(eauto)) as [HAl HH]. split.
  - by eapply (sim_mem (B := Small.bracket)); [|exact Hs].
  - eapply (sim_mem (B := Large.bracket)); [|apply (ai_large _ _ _ _ _ _ _ _ HI)]. done.
  - apply (ai_huge _ _ _ _ _ _ _ _ HI).
  - intros q Hq. rewrite lookup_delete_ne; [by apply (ai_desc _ _ _ _ _ _ _ _ HI)|]. intros <-. simpl in Hq. rewrite Hd in Hq. by destruct Hq.
  - exact Hb.
  - intros q z. unfold app_view. simpl al_huge. destruct (decide (q = p)) as [->|Hne].
    + rewrite !lookup_delete_eq, HAl. split; [done|]. intros [(? & ? & _)|[(? & ? & _)|(y & Hy & Ey)]]; [done|done|].
      exfalso. by apply (HH y z).
    + rewrite !lookup_delete_ne by done. apply Happ.
Qed.

Lemma ainv_large_free ks kl kl' n L As Al A s h p c :
  ainv ks kl n L As Al A s -> Al !! p = Some c ->
  simL kl' h (delete p Al) -> in_bounds (put_large h s) ->
  ainv ks kl' n L As (delete p Al) (delete p A) (put_large h s).
Proof.
  intros HI Hp Hs Hb. pose proof (ai_app _ _ _ _ _ _ _ _ HI) as Happ.
  destruct (one_region _ _ _ _ _ _ _ _ p HI) as [_ Hone]. destruct (Hone ltac:(eauto)) as [HAs HH]. split.
  - eapply (sim_mem (B := Small.bracket)); [|apply (ai_small _ _ _ _ _ _ _ _ HI)]. done.
  - by eapply (sim_mem (B := Large.bracket)); [|exact Hs].
  - apply (ai_huge _ _ _ _ _ _ _ _ HI).
  - apply (ai_desc _ _ _ _ _ _ _ _ HI).
  - exact Hb.
  - intros q z. unfold app_view. simpl al_huge. destruct (decide (q = p)) as [->|Hne].
    + rewrite !lookup_delete_eq, HAs. split; [done|]. intros [(? & ? & _)|[(? & ? & _)|(y & Hy & Ey)]]; [done|done|].
      exfalso. by apply (HH y z).
    + rewrite !lookup_delete_ne by done. apply Happ.
Qed.

(** ** Huge operations *)

(** A pointer the application holds is that of a huge range or not. *)
Lemma app_huge_or_not ks kl n L As Al A s p z :
  ainv ks kl n L As Al A s -> A !! p = Some z ->
  (exists x, live_in L (al_huge s) x z /\ p = hbase hreg + x) \/
  ~ (exists x, live_in L (al_huge s) x z /\ p = hbase hreg + x).
Proof.
  intros HI Hv%(ai_app _ _ _ _ _ _ _ _ HI). destruct (one_region _ _ _ _ _ _ _ _ p HI) as [H1 H2].
  destruct Hv as [(c & Hc & _)|[(c & Hc & _)|Hv]]; [right..|by left]; intros (x & Hx & E).
  - destruct (H1 ltac:(eauto)) as [_ Hn]. by apply (Hn x z).
  - destruct (H2 ltac:(eauto)) as [_ Hn]. by apply (Hn x z).
Qed.

(** The small heap grew by the block of a new descriptor, or not at all. *)
Definition grew (As As' : gmap Z Z) (h h' : HugeS) (out : Z) : Prop :=
  (As' = As /\ forall q, is_Some (descs h' !! q) <-> is_Some (descs h !! q)) \/
  (exists c, As !! out = None /\ As' = <[out := c]> As /\
     forall q, is_Some (descs h' !! q) <-> is_Some (descs h !! q) \/ q = out).

Lemma grew_small As As' h h' out q c :
  grew As As' h h' out ->
  As' !! q = Some c /\ descs h' !! q = None <-> As !! q = Some c /\ descs h !! q = None.
Proof.
  rewrite !eq_None_not_Some. intros [[-> Hd]|(c' & Hn & -> & Hd)]; rewrite Hd; [done|].
  destruct (decide (q = out)) as [->|Hne].
  - rewrite lookup_insert_eq, Hn. naive_solver.
  - rewrite lookup_insert_ne by done. naive_solver.
Qed.

Lemma grew_desc As As' h h' out q :
  grew As As' h h' out -> (forall q, is_Some (descs h !! q) -> is_Some (As !! q)) ->
  is_Some (descs h' !! q) -> is_Some (As' !! q).
Proof.
  intros [[-> Hd]|(c & Hn & -> & Hd)] Hold; rewrite Hd; [apply Hold|]. rewrite lookup_insert_is_Some.
  intros [Hq| ->]; [|by left]. destruct (decide (out = q)); [by left|right; eauto].
Qed.

(** Replacing the huge part: the application's view changes as the live
    ranges do. *)
Lemma ainv_huge ks ks' kl n n' L L' As As' Al A A' s s' out :
  ainv ks kl n L As Al A s -> hinv (sbase sreg) n' L' (al_huge s') -> simS ks' (small_of s') As' ->
  al_large s' = al_large s -> in_bounds s' -> grew As As' (al_huge s) (al_huge s') out ->
  (forall p z, A' !! p = Some z <->
     (A !! p = Some z /\ ~ (exists x, live_in L (al_huge s) x z /\ p = hbase hreg + x)) \/
     (exists x, live_in L' (al_huge s') x z /\ p = hbase hreg + x)) ->
  ainv ks' kl n' L' As' Al A' s'.
Proof.
  intros HI Hi' Hs El Hb Hg HA'. split; [done| |done| |done|].
  - eapply (sim_mem (B := Large.bracket)); [|apply (ai_large _ _ _ _ _ _ _ _ HI)]. done.
  - intros q. apply (grew_desc _ _ _ _ _ _ Hg). apply (ai_desc _ _ _ _ _ _ _ _ HI).
  - intros p z. rewrite HA', (ai_app _ _ _ _ _ _ _ _ HI). unfold app_view.
    destruct (one_region _ _ _ _ _ _ _ _ p HI) as [H1 H2].
    assert ((exists c, As' !! p = Some c /\ descs (al_huge s') !! p = None /\ z = Small.size c) <->
            (exists c, As !! p = Some c /\ descs (al_huge s) !! p = None /\ z = Small.size c)) as ->.
    { pose proof (fun c => grew_small _ _ _ _ _ p c Hg). naive_solver. }
    split.
    + intros [[[Hc|[Hc|Hc]] Hno]|Hl]; [by left|by right; left|done|by right; right].
    + intros [Hc|[Hc|Hc]]; [left; split; [by left|]|left; split; [by right; left|]|by right].
      * destruct Hc as (c & Hc & _). destruct (H1 ltac:(eauto)) as [_ Hn]. intros (x & Hx & E). by apply (Hn x z).
      * destruct Hc as (c & Hc & _). destruct (H2 ltac:(eauto)) as [_ Hn]. intros (x & Hx & E). by apply (Hn x z).
Qed.

Lemma ainv_huge_alloc ks ks' kl n L As As' Al A s s' id size out r :
  ainv ks kl n L As Al A s -> 1 <= size ->
  alloc_post (sbase sreg) (hbase hreg) L (al_huge s) id size out (al_huge s') r ->
  grew As As' (al_huge s) (al_huge s') out ->
  simS ks' (small_of s') As' -> al_large s' = al_large s -> in_bounds s' ->
  A !! r = None /\ exists n' L', ainv ks' kl n' L' As' Al (<[r := size]> A) s'.
Proof.
  intros HI Hsz [(n' & L' & Hi' & Hlive & _) (Ha1 & Ha2 & Ha3) _ _] Hg Hs El Hb.
  pose proof (ai_app _ _ _ _ _ _ _ _ HI) as Happ. pose proof (lo_sh Hlay). pose proof (lo_lh Hlay).
  assert (hbase hreg = hreg - 2 ^ 30) as Eb by done.
  assert (A !! r = None) as HA.
  { destruct (A !! r) as [z|] eqn:E; [|done]. exfalso. apply Happ in E as [(c & Hc & _)|[(c & Hc & _)|(x & Hx & E)]].
    - pose proof (small_region ks s As r c (ai_small _ _ _ _ _ _ _ _ HI) (ai_bounds _ _ _ _ _ _ _ _ HI) Hc). lia.
    - pose proof (large_region kl s Al r c (ai_large _ _ _ _ _ _ _ _ HI) (ai_bounds _ _ _ _ _ _ _ _ HI) Hc). lia.
    - pose proof (huge_region n L (al_huge s) x z (ai_huge _ _ _ _ _ _ _ _ HI) Hx) as Hr.
      destruct (Ha3 x z Hx); lia. }
  split; [done|]. exists n', L'. eapply (ainv_huge ks ks' kl n n' L L' As As' Al A _ s s' out); try done.
  intros p z. setoid_rewrite Hlive. destruct (decide (p = r)) as [->|Hne].
  - rewrite lookup_insert_eq. split.
    + intros [= <-]. right. exists (r - hbase hreg). split; [by right|lia].
    + intros [[? _]|(x & [Hx|[-> ->]] & E)]; [congruence| |done].
      exfalso. assert (app_view L As Al (al_huge s) r z) as Hv by (right; right; eauto). apply Happ in Hv. congruence.
  - rewrite lookup_insert_ne by done. split.
    + intros Hp. destruct (app_huge_or_not _ _ _ _ _ _ _ _ p z HI Hp) as [(x & Hx & E)|Hno]; [right|by left].
      exists x. split; [by left|done].
    + intros [[Hp _]|(x & [Hx|[-> ->]] & E)]; [done| |lia]. apply Happ. right; right. eauto.
Qed.

Lemma ainv_huge_free ks kl n L As Al A s s' p z :
  ainv ks kl n L As Al A s -> A !! p = Some z -> inside hreg p = true ->
  hinv (sbase sreg) n L (al_huge s') ->
  (forall q, is_Some (descs (al_huge s') !! q) <-> is_Some (descs (al_huge s) !! q)) ->
  (forall x y, live_in L (al_huge s') x y <-> live_in L (al_huge s) x y /\ x <> p - hbase hreg) ->
  small_of s' = small_of s -> al_large s' = al_large s -> in_bounds s' ->
  ainv ks kl n L As Al (delete p A) s'.
Proof.
  intros HI Hp Hin Hi' Hd Hlive Esm El Hb.
  eapply (ainv_huge ks ks kl n n L L As As Al A _ s s' 0); try done.
  { rewrite Esm. apply (ai_small _ _ _ _ _ _ _ _ HI). }
  { left. done. }
  intros q y. pose proof (ai_app _ _ _ _ _ _ _ _ HI) as Happ. rewrite lookup_delete_Some. setoid_rewrite Hlive. split.
  - intros [Hne Hq]. destruct (app_huge_or_not _ _ _ _ _ _ _ _ q y HI Hq) as [(x & Hx & E)|Hno]; [right|by left].
    exists x. split; [split; [done|lia]|done].
  - intros [[Hq Hno]|(x & [Hx Hne] & ->)].
    + split; [|done]. intros <-. apply Happ in Hq as [(c & Hc & _)|[(c & Hc & _)|Hq]]; [| |done].
      * pose proof (small_region ks s As p c (ai_small _ _ _ _ _ _ _ _ HI) (ai_bounds _ _ _ _ _ _ _ _ HI) Hc).
        unfold inside in Hin. apply andb_true_iff in Hin as [H1%Z.leb_le H2%Z.ltb_lt]. pose proof (lo_sh Hlay). lia.
      * pose proof (large_region kl s Al p c (ai_large _ _ _ _ _ _ _ _ HI) (ai_bounds _ _ _ _ _ _ _ _ HI) Hc).
        unfold inside in Hin. apply andb_true_iff in Hin as [H1%Z.leb_le H2%Z.ltb_lt]. pose proof (lo_lh Hlay). lia.
    + split; [lia|]. apply Happ. right; right. eauto.
Qed.

(** ** Calls of the application *)

Definition halloc_room (s : AllocS) (id : Z) : Prop := ha_index (halloc_of (al_huge s) id) + 1 < 2 ^ 63.

(** Some counters and heaps, whichever, fit [A]. *)
Definition asim (k : Z) (s : AllocS) (A : gmap Z Z) : Prop :=
  exists ks kl n L As Al, ks <= k /\ kl <= k /\ ainv ks kl n L As Al A s.

(** A new pointer [p] with [z >= size] usable bytes. *)
Definition alloc_answer (k : Z) (A : gmap Z Z) (size : Z) (s' : AllocS) (r : option Z) : Prop :=
  exists p z, r = Some p /\ size <= z /\ A !! p = None /\ asim k s' (<[p := z]> A).

Context (Hbatch : BATCH_BUMP_POP cfg <= 2 ^ 31).

Lemma bump_room_small s : in_bounds s -> bumpv (hs_mem (small_of s)) + BATCH_BUMP_POP cfg < 2 ^ 32.
Proof. intros [H _]. simpl. lia. Qed.
Lemma bump_room_large s : in_bounds s -> bumpv (hs_mem (large_of s)) + BATCH_BUMP_POP cfg < 2 ^ 32.
Proof. intros [_ H]. simpl. lia. Qed.

Abbreviation simS_alloc := (sim_alloc (BL := Small_laws) (IS := small_into) cfg Hcfg (sbase sreg) (Z.lt_le_incl _ _ sb_pos)).
Abbreviation simS_free := (sim_free (BL := Small_laws) (IS := small_into) cfg Hcfg (sbase sreg) (Z.lt_le_incl _ _ sb_pos)).
Abbreviation simL_alloc := (sim_alloc (BL := Large_laws) (IS := large_into) cfg Hcfg (lbase lreg) lb_pos).
Abbreviation simL_free := (sim_free (BL := Large_laws) (IS := large_into) cfg Hcfg (lbase lreg) lb_pos).

Lemma allocate_small_spec k s A id size c :
  asim k s A -> k + 1 < 2 ^ 64 -> Size.Small.new size = Done (Some c) -> class_wf (H := Small.bracket) c -> size <= Small.size c ->
  wp (allocate_untyped cfg sreg lreg hreg map_ok id size) (fun s' r => in_bounds s' -> alloc_answer (k + 1) A size s' r) s.
Proof.
  intros (ks & kl & n & L & As & Al & Hks & Hkl & HI) Hk Ec Hc Hsz.
  destruct (simS_alloc ks (small_of s) As id c (ai_small _ _ _ _ _ _ _ _ HI) Hc (bump_room_small _ (ai_bounds _ _ _ _ _ _ _ _ HI)) ltac:(lia))
    as (h1 & i & b & h2 & p & Epk & Epop & Hp & Hs2).
  unfold allocate_untyped. apply wp_bind. eapply wp_lift; [exact Ec|]. apply wp_bind, zoom_wp.
  eapply wp_exact; [exact Epk|]. apply wp_bind, zoom_wp.
  eapply wp_exact; [rewrite small_put; exact Epop|]. unfold clear_log. wp_go. intros Hb.
  destruct (ainv_small_alloc ks (ks + 1) kl n L As Al A s h2 p c
    (mkCtx (help_array (hs_ctx h2)) (delete id (logs (hs_ctx h2)))) HI Hs2 Hp Hb) as [HA HI'].
  exists p, (Small.size c). split_and!; [done|done|done|]. exists (ks + 1), kl, n, L, (<[p := c]> As), Al. split_and!; [lia|lia|exact HI'].
Qed.

Lemma allocate_large_spec k s A id size c :
  asim k s A -> k + 1 < 2 ^ 64 -> Size.Large.new size = Done (Some c) -> class_wf (H := Large.bracket) c -> size <= Large.size c ->
  wp (allocate_large cfg sreg lreg hreg map_ok id size) (fun s' r => in_bounds s' -> alloc_answer (k + 1) A size s' r) s.
Proof.
  intros (ks & kl & n & L & As & Al & Hks & Hkl & HI) Hk Ec Hc Hsz.
  destruct (simL_alloc kl (large_of s) Al id c (ai_large _ _ _ _ _ _ _ _ HI) Hc (bump_room_large _ (ai_bounds _ _ _ _ _ _ _ _ HI)) ltac:(lia))
    as (h1 & i & b & h2 & p & Epk & Epop & Hp & Hs2).
  unfold allocate_large. apply wp_bind. eapply wp_lift; [exact Ec|]. apply wp_bind, zoom_wp.
  eapply wp_exact; [exact Epk|]. apply wp_bind, zoom_wp.
  eapply wp_exact; [rewrite large_put; exact Epop|]. apply wp_ret. intros Hb.
  destruct (ainv_large_alloc ks kl (kl + 1) n L As Al A s h2 p c HI Hs2 Hp Hb) as [HA HI'].
  exists p, (Large.size c). split_and!; [done|done|done|]. exists ks, (kl + 1), n, L, As, (<[p := c]> Al). split_and!; [lia|lia|exact HI'].
Qed.

Lemma rounded_spec size : 1 <= size <= 2 ^ 40 ->
  let z := next_multiple_of size SIZE_PAGE in size <= z < 2 ^ 41.
Proof.
  intros Hs z. unfold z, next_multiple_of, SIZE_PAGE. pose proof (Z.mod_pos_bound size 4096 ltac:(lia)).
  destruct (_ =? _); lia.
Qed.

(** The huge part of the state while the small heap changes. *)
Lemma huge_put_small h (s : AllocS) : al_huge (put_small h s) = al_huge s.
Proof. done. Qed.

Lemma small_put_huge h (s : AllocS) : small_of (put_huge h s) = small_of s.
Proof. done. Qed.

Lemma huge_reused_spec k s A id z ks kl n L As Al h1 p :
  ainv ks kl n L As Al A s -> ks <= k -> kl <= k -> id_wf id -> halloc_room s id -> claimable z ->
  hinv (sbase sreg) n L h1 -> recycled id (al_huge s) h1 -> first_safe h1 (L id) (Some p) ->
  pwp (p <- zoom_huge (huge_allocate cfg (sbase sreg) (hbase hreg) map_ok id z p true) ;; ret (Some p))
    (fun s' r => in_bounds s' -> alloc_answer (k + 1) A z s' r) (put_huge h1 s).
Proof.
  intros HI Hks Hkl Hid Hroom Hz Hi1 Hrec Hfs. pose proof (proj1 Hz) as Hz1. apply pwp_bind, zoom_pwp. simpl al_huge.
  eapply pwp_conseq; [apply (huge_allocate_spec cfg (sbase sreg) (hbase hreg) map_ok sb_pos n L h1 id z p true); try done;
    rewrite (rc_index _ _ _ Hrec); exact Hroom|].
  intros h2 r [Hpost _]. apply pwp_ret. intros Hb.
  pose proof (alloc_post_recycled (sbase sreg) (hbase hreg) n L (al_huge s) h1 id z p h2 r (ai_huge _ _ _ _ _ _ _ _ HI) Hrec Hpost) as Hpost'.
  destruct (ainv_huge_alloc ks ks kl n L As As Al A s (put_huge h2 (put_huge h1 s)) id z p r) as [HA (n' & L' & HI')]; try done.
  - left. split; [done|]. intros q. split; [|apply (ap_keep _ _ _ _ _ _ _ _ _ Hpost')].
    intros Hq. destruct (ap_descs _ _ _ _ _ _ _ _ _ Hpost' q Hq) as [|Eq]; [done|rewrite Eq].
    destruct (hinv_lookup _ _ _ _ _ _ (ai_huge _ _ _ _ _ _ _ _ HI) (first_safe_desc (sbase sreg) map_ok sb_pos L h1 id p Hfs)) as [e ->]. done.
  - apply (ai_small _ _ _ _ _ _ _ _ HI).
  - exists r, z. split_and!; [done|lia|done|]. exists ks, kl, n', L', As, Al. split_and!; [lia|lia|done].
Qed.

Lemma huge_fresh_spec k s A id z ks kl n L As Al h1 c :
  ainv ks kl n L As Al A s -> ks <= k -> kl <= k -> k + 1 < 2 ^ 64 -> id_wf id -> halloc_room s id -> claimable z ->
  hinv (sbase sreg) n L h1 -> recycled id (al_huge s) h1 -> class_wf (H := Small.bracket) c ->
  pwp (r <- zoom_small (small_peek cfg id c) ;; ib <- unwrap r ;;
       o <- lift (from_block (H := Size.Small.bracket) (debug_assertions cfg) c (fst ib) (snd ib)) ;;
       p <- zoom_huge (huge_allocate cfg (sbase sreg) (hbase hreg) map_ok id z (offset_to_pointer (sbase sreg) o) false) ;;
       (zoom_small (small_pop cfg sreg id c (fst ib) (snd ib)) ;;; ret (Some p)))
    (fun s' r => in_bounds s' -> alloc_answer (k + 1) A z s' r) (put_huge h1 s).
Proof.
  intros HI Hks Hkl Hk Hid Hroom Hz Hi1 Hrec Hc. pose proof (proj1 Hz) as Hz1.
  destruct (simS_alloc ks (small_of s) As id c (ai_small _ _ _ _ _ _ _ _ HI) Hc (bump_room_small _ (ai_bounds _ _ _ _ _ _ _ _ HI)) ltac:(lia))
    as (hs1 & i & b & hs2 & out & Epk & Epop & Hp & Hs2).
  destruct (pop_pointer _ _ _ _ _ _ _ _ _ Epop) as (o & Eo & Eout).
  apply pwp_bind, zoom_pwp. rewrite small_put_huge. eapply pwp_done; [exact Epk|]. cbn beta.
  apply pwp_bind, pwp_unwrap. intros ib [= <-]. cbn [fst snd].
  apply pwp_bind, pwp_lift. rewrite Eo. apply pwp_bind, zoom_pwp. rewrite <- Eout. simpl al_huge.
  assert (descs (al_huge s) !! out = None) as Hd.
  { apply eq_None_not_Some. intros H%(ai_desc _ _ _ _ _ _ _ _ HI). rewrite Hp in H. by destruct H. }
  assert (addr_ok (sbase sreg) out) as Haddr.
  { pose proof (sim_range (BL := Small_laws) _ _ _ _ out c Hs2 ltac:(by rewrite lookup_insert_eq)) as (_ & H1 & H2).
    pose proof (sim_bump (B := Small.bracket) _ _ _ _ Hs2) as H3. pose proof (class_size_pos (B := Small.bracket) c Hc) as H4.
    change (SIZE_SLAB (Bracket := Small.bracket)) with (2 ^ 15) in *. change (sbase sreg) with (sreg - 2 ^ 15) in *.
    unfold addr_ok. pose proof (lo_max Hlay). lia. }
  eapply pwp_conseq; [apply (huge_allocate_spec cfg (sbase sreg) (hbase hreg) map_ok sb_pos n L h1 id z out false); try done|].
  { rewrite (rc_index _ _ _ Hrec). exact Hroom. }
  { split; [by apply (rc_dom _ _ _ Hrec)|done]. }
  intros h2 r [Hpost Hnew]. apply pwp_bind, zoom_pwp. rewrite small_put_huge, small_put.
  eapply pwp_done; [exact Epop|]. apply pwp_ret. intros Hb.
  pose proof (alloc_post_recycled (sbase sreg) (hbase hreg) n L (al_huge s) h1 id z out h2 r (ai_huge _ _ _ _ _ _ _ _ HI) Hrec Hpost) as Hpost'.
  set (s' := put_small hs2 _) in *.
  destruct (ainv_huge_alloc ks (ks + 1) kl n L As (<[out := c]> As) Al A s s' id z out r) as [HA (n' & L' & HI')]; try done.
  - right. exists c. split_and!; [done|done|]. intros q. split; [apply (ap_descs _ _ _ _ _ _ _ _ _ Hpost')|].
    intros [Hq| ->]; [by apply (ap_keep _ _ _ _ _ _ _ _ _ Hpost')|done].
  - exists r, z. split_and!; [done|lia|done|]. exists (ks + 1), kl, n', L', (<[out := c]> As), Al. split_and!; [lia|lia|done].
Qed.

Lemma allocate_huge_spec k s A id size :
  asim k s A -> k + 1 < 2 ^ 64 -> id_wf id -> halloc_room s id -> 1 <= size <= 2 ^ 40 ->
  pwp (allocate_huge cfg sreg hreg map_ok id size) (fun s' r => in_bounds s' -> alloc_answer (k + 1) A size s' r) s.
Proof.
  intros (ks & kl & n & L & As & Al & Hks & Hkl & HI) Hk Hid Hroom Hsz. pose proof (rounded_spec size Hsz) as Hr. cbv zeta in Hr.
  unfold allocate_huge. set (z := next_multiple_of size SIZE_PAGE) in *. apply pwp_bind, pwp_assert. intros _.
  assert (claimable z) as Hcl by (split; [lia|change Size.Huge.SIZE_SLAB with (2 ^ 30); lia]).
  apply pwp_bind, zoom_pwp. eapply pwp_conseq; [apply (reuse_spec cfg (sbase sreg) map_ok sb_pos n L id); apply (ai_huge _ _ _ _ _ _ _ _ HI)|].
  intros h1 r (Hi1 & Hrec & fs & Hfs & ->).
  assert (forall m : M AllocS (option Z), pwp m (fun s' r => in_bounds s' -> alloc_answer (k + 1) A z s' r) (put_huge h1 s) ->
    pwp m (fun s' r => in_bounds s' -> alloc_answer (k + 1) A size s' r) (put_huge h1 s)) as Hweak.
  { intros m Hm. eapply pwp_conseq; [exact Hm|]. intros s' r Ha Hb. destruct (Ha Hb) as (p & y & -> & Hy & Hrest).
    exists p, y. split_and!; [done|lia|apply Hrest..]. }
  destruct fs as [p|]; simpl; apply Hweak.
  - unfold offset_to_pointer. replace (sbase sreg + (p - sbase sreg)) with p by lia.
    by eapply (huge_reused_spec k s A id z ks kl n L As Al h1 p); try lia.
  - apply pwp_bind, pwp_lift. change DESC_CLASS with (@Done Z 8).
    by eapply (huge_fresh_spec k s A id z ks kl n L As Al h1 8); try lia.
Qed.

(** ** The bump pointers and user memory *)

(** Each heap's bump pointer moves up by at most [d] small and [e] large
    slabs; user memory is not touched. *)
Definition moves {A} (d e : Z) (m : M AllocS A) : Prop :=
  forall s s' a, m s = Done (s', a) ->
    bumpv (al_small s) <= bumpv (al_small s') <= bumpv (al_small s) + d /\
    bumpv (al_large s) <= bumpv (al_large s') <= bumpv (al_large s) + e /\ al_bytes s' = al_bytes s.

Abbreviation batch := (wrap 32 (BATCH_BUMP_POP cfg)).

Lemma moves_weaken {A} d e d' e' (m : M AllocS A) : moves d e m -> d <= d' -> e <= e' -> moves d' e' m.
Proof. intros Hm Hd He s s' a E. destruct (Hm _ _ _ E) as (H1 & H2 & H3). split_and!; [lia..|done]. Qed.

Lemma moves_bind {A C} d e d' e' (m : M AllocS A) (k : A -> M AllocS C) :
  moves d e m -> (forall a, moves d' e' (k a)) -> moves (d + d') (e + e') (bind m k).
Proof.
  intros Hm Hk s s' b (s1 & a & E1 & E2)%bind_done. destruct (Hm _ _ _ E1) as (H1 & H2 & H3).
  destruct (Hk _ _ _ _ E2) as (H4 & H5 & H6). split_and!; [lia..|congruence].
Qed.

Lemma moves_bind0 {A C} d e (m : M AllocS A) (k : A -> M AllocS C) :
  moves 0 0 m -> (forall a, moves d e (k a)) -> moves d e (bind m k).
Proof. intros Hm Hk. eapply moves_weaken; [by eapply (moves_bind 0 0 d e)|lia|lia]. Qed.

Lemma moves_bind1 {A C} d e (m : M AllocS A) (k : A -> M AllocS C) :
  moves d e m -> (forall a, moves 0 0 (k a)) -> moves d e (bind m k).
Proof. intros Hm Hk. eapply moves_weaken; [by eapply (moves_bind d e 0 0)|lia|lia]. Qed.

Lemma moves_pure {A} (m : M AllocS A) :
  (forall s s' a, m s = Done (s', a) -> al_small s' = al_small s /\ al_large s' = al_large s /\ al_bytes s' = al_bytes s) ->
  moves 0 0 m.
Proof. intros Hm s s' a E. destruct (Hm _ _ _ E) as (-> & -> & ->). split_and!; lia || done. Qed.

Lemma moves_zoom_small {A} (m : M HS A) : grows cfg m -> moves batch 0 (zoom_small m).
Proof.
  intros Hm s s' a. unfold zoom_small, zoom. destruct (m (small_of s)) as [[h b]| | |] eqn:E; simpl; try done.
  intros [= <- <-]. pose proof (Hm _ _ _ E). simpl in *. split_and!; lia || done.
Qed.
Lemma moves_zoom_small0 {A} (m : M HS A) : keeps m -> moves 0 0 (zoom_small m).
Proof.
  intros Hm s s' a. unfold zoom_small, zoom. destruct (m (small_of s)) as [[h b]| | |] eqn:E; simpl; try done.
  intros [= <- <-]. pose proof (Hm _ _ _ E) as Hb. simpl in *. unfold bumpv. rewrite Hb. split_and!; lia || done.
Qed.
Lemma moves_zoom_large {A} (m : M HS A) : grows cfg m -> moves 0 batch (zoom_large m).
Proof.
  intros Hm s s' a. unfold zoom_large, zoom. destruct (m (large_of s)) as [[h b]| | |] eqn:E; simpl; try done.
  intros [= <- <-]. pose proof (Hm _ _ _ E). simpl in *. split_and!; lia || done.
Qed.
Lemma moves_zoom_large0 {A} (m : M HS A) : keeps m -> moves 0 0 (zoom_large m).
Proof.
  intros Hm s s' a. unfold zoom_large, zoom. destruct (m (large_of s)) as [[h b]| | |] eqn:E; simpl; try done.
  intros [= <- <-]. pose proof (Hm _ _ _ E) as Hb. simpl in *. unfold bumpv. rewrite Hb. split_and!; lia || done.
Qed.
Lemma moves_zoom_huge {A} (m : M HugeS A) : moves 0 0 (zoom_huge m).
Proof.
  apply moves_pure. intros s s' a. unfold zoom_huge, zoom. destruct (m (al_huge s)) as [[h b]| | |]; simpl; try done. by intros [= <- <-].
Qed.
Lemma moves_ret {A} (a : A) : moves 0 0 (ret a).
Proof. apply moves_pure. by intros s s' b [= <- <-]. Qed.
Lemma moves_lift {A} (o : outcome A) : moves 0 0 (lift o).
Proof. apply moves_pure. intros s s' b. unfold lift. destruct o; naive_solver. Qed.
Lemma moves_unwrap {A} (o : option A) : moves 0 0 (unwrap o).
Proof. apply moves_pure. intros s s' b. destruct o; unfold unwrap, ret, panic; naive_solver. Qed.
Lemma moves_assert b : moves 0 0 (assert_ b).
Proof. apply moves_pure. intros s s' r. destruct b; unfold assert_, ret, panic; naive_solver. Qed.
Lemma moves_clear id : moves 0 0 (clear_log id).
Proof. apply moves_pure. by intros s s' r [= <- <-]. Qed.

#[local] Hint Resolve moves_ret moves_lift moves_unwrap moves_assert moves_clear moves_zoom_huge : core.

Lemma moves_allocate_huge id size : moves batch 0 (allocate_huge cfg sreg hreg map_ok id size).
Proof.
  pose proof (batch_nonneg cfg) as Hn. unfold allocate_huge.
  apply moves_bind0; [done|intros _]. apply moves_bind0; [done|intros r]. destruct r as [o|].
  - eapply (moves_weaken 0 0); [|lia|lia]. apply moves_bind0; done.
  - apply moves_bind0; [done|intros c]. apply moves_bind1; [apply moves_zoom_small, grows_peek|intros r'].
    apply moves_bind0; [done|intros ib]. apply moves_bind0; [done|intros o]. apply moves_bind0; [done|intros p].
    apply moves_bind0; [apply moves_zoom_small0, keeps_pop|done].
Qed.

Lemma moves_allocate id size : moves batch batch (allocate_untyped cfg sreg lreg hreg map_ok id size).
Proof.
  pose proof (batch_nonneg cfg) as Hn. unfold allocate_untyped, allocate_large. apply moves_bind0; [done|intros c]. destruct c as [c|].
  - eapply (moves_weaken batch 0); [|lia|lia]. apply moves_bind1; [apply moves_zoom_small, grows_peek|intros [[i b]|]]; [|done].
    apply moves_bind0; [apply moves_zoom_small0, keeps_pop|intros p]. apply moves_bind0; done.
  - apply moves_bind0; [done|intros c]. destruct c as [c|].
    + eapply (moves_weaken 0 batch); [|lia|lia]. apply moves_bind1; [apply moves_zoom_large, grows_peek|intros [[i b]|]]; [|done].
      apply moves_bind0; [apply moves_zoom_large0, keeps_pop|done].
    + eapply moves_weaken; [apply moves_allocate_huge|lia|lia].
Qed.

Lemma moves_free id p : moves 0 0 (free_untyped cfg sreg lreg hreg id p).
Proof.
  unfold free_untyped, free_large_untyped, free_huge_untyped. apply moves_bind0; [done|intros [o|]].
  - apply moves_bind0; [apply moves_zoom_small0, keeps_heap_free|done].
  - apply moves_bind0; [done|intros [o|]]; [apply moves_zoom_large0, keeps_heap_free|]. destruct (huge_offset hreg p); done.
Qed.

(** Room for one more batch in each heap. *)
Definition room (s : AllocS) : Prop :=
  bumpv (al_small s) + BATCH_BUMP_POP cfg <= 2 ^ 25 /\ bumpv (al_large s) + BATCH_BUMP_POP cfg <= 2 ^ 21.

Lemma batch_eq : batch = BATCH_BUMP_POP cfg.
Proof. unfold wrap. apply Z.mod_small. pose proof (ok_bump _ Hcfg). lia. Qed.

Lemma pwp_and {S A} (m : M S A) (P Q : S -> A -> Prop) s :
  pwp m P s -> (forall s' a, m s = Done (s', a) -> Q s' a) -> pwp m (fun s' a => P s' a /\ Q s' a) s.
Proof. unfold pwp. destruct (m s) as [[s' a]| | |]; naive_solver. Qed.

Lemma allocate_spec k s A id size :
  asim k s A -> room s -> k + 1 < 2 ^ 64 -> id_wf id -> halloc_room s id -> 1 <= size <= 2 ^ 40 ->
  pwp (allocate_untyped cfg sreg lreg hreg map_ok id size)
    (fun s' r => alloc_answer (k + 1) A size s' r /\ al_bytes s' = al_bytes s) s.
Proof.
  intros Hs Hroom Hk Hid Hha Hsz.
  assert (pwp (allocate_untyped cfg sreg lreg hreg map_ok id size) (fun s' r => in_bounds s' -> alloc_answer (k + 1) A size s' r) s) as H.
  { destruct (decide (size <= Small.SIZE_MAX)) as [H1|H1].
    - destruct (small_class size) as (c & Ec & Hc & Hle); [lia|]. apply wp_pwp. by eapply allocate_small_spec.
    - unfold allocate_untyped. apply pwp_bind, pwp_lift.
      assert (Size.Small.new size = Done None) as -> by (unfold Size.Small.new; by rewrite (proj2 (Z.leb_gt _ _)) by lia).
      destruct (decide (size <= Large.SIZE_MAX)) as [H2|H2].
      + destruct (large_class size) as (c & Ec & Hc & Hle); [lia|]. apply wp_pwp. by eapply allocate_large_spec.
      + unfold allocate_large. apply pwp_bind, pwp_lift.
        assert (Size.Large.new size = Done None) as -> by (unfold Size.Large.new; by rewrite (proj2 (Z.leb_gt _ _)) by lia).
        by apply allocate_huge_spec. }
  eapply pwp_conseq; [apply (pwp_and _ _ (fun s' _ => in_bounds s' /\ al_bytes s' = al_bytes s) _ H)|].
  - intros s' a E. destruct (moves_allocate id size _ _ _ E) as (H1 & H2 & H3). rewrite batch_eq in *.
    unfold room, in_bounds in *. split; [lia|done].
  - intros s' r (H1 & H2 & H3). eauto.
Qed.

(** No slab is on the stack of the class of size zero. *)
Lemma zero_stack_empty base k (h : HS) A t : sim (B := Small.bracket) base k h A -> Slab.head (stk (hs_mem h) t (Sized 0)) = None.
Proof.
  intros (g & HI & _). pose proof (inv_li _ _ _ _ HI) as HL. pose proof (li_chain _ _ _ HL (PSz t 0) ltac:(done)) as Hch. simpl in Hch.
  destruct (lst g (PSz t 0)) as [|i l] eqn:El; [done|exfalso].
  assert (pl g i = Some (PSz t 0)) as Hp by (apply (li_mem _ _ _ HL); [done|rewrite El; by left]).
  pose proof (inv_slab _ _ _ _ HI i ltac:(done)) as Hs. rewrite Hp in Hs. destruct Hs as (_ & _ & Hsp & _).
  by destruct (sp_class _ _ _ _ _ Hsp) as [_ Hc].
Qed.

(** A call for no bytes. *)
Lemma allocate_zero k s A id : asim k s A -> allocate_untyped cfg sreg lreg hreg map_ok id 0 s = Done (s, None).
Proof.
  intros (ks & kl & n & L & As & Al & _ & _ & HI). pose proof (zero_stack_empty _ _ _ _ id (ai_small _ _ _ _ _ _ _ _ HI)) as Hz.
  assert (small_peek cfg id 0 (small_of s) = Done (small_of s, None)) as Hp.
  { unfold small_peek, peek, stack_peek, get_stack, bind, gets. change (sref_ok (B := Small.bracket) (Sized 0)) with true.
    cbn [obind ret fst snd]. unfold ret. cbn [obind fst snd]. by rewrite Hz. }
  unfold allocate_untyped, zoom_small, zoom, bind, lift. change (Size.Small.new 0) with (Done (Some 0)). cbn [obind fst snd].
  rewrite Hp. by destruct s.
Qed.

(** A call for at most 512 KiB returns a block of the small or the large heap. *)
Lemma allocate_total k s A id size :
  asim k s A -> room s -> k + 1 < 2 ^ 64 -> 1 <= size <= Large.SIZE_MAX ->
  wp (allocate_untyped cfg sreg lreg hreg map_ok id size)
    (fun s' r => alloc_answer (k + 1) A size s' r /\ al_bytes s' = al_bytes s) s.
Proof.
  intros Hs Hroom Hk Hsz.
  assert (wp (allocate_untyped cfg sreg lreg hreg map_ok id size) (fun s' r => in_bounds s' -> alloc_answer (k + 1) A size s' r) s) as H.
  { destruct (decide (size <= Small.SIZE_MAX)) as [H1|H1].
    - destruct (small_class size) as (c & Ec & Hc & Hle); [lia|]. by eapply allocate_small_spec.
    - destruct (large_class size) as (c & Ec & Hc & Hle); [lia|]. unfold allocate_untyped. eapply wp_bind, wp_lift.
      { unfold Size.Small.new. by rewrite (proj2 (Z.leb_gt _ _)) by lia. }
      by eapply allocate_large_spec. }
  apply wp_done in H as (s' & r & E & H). apply wp_done. exists s', r. split; [done|].
  destruct (moves_allocate id size _ _ _ E) as (H1 & H2 & H3). rewrite batch_eq in *. unfold room, in_bounds in *.
  split; [apply H; lia|done].
Qed.

Lemma free_spec k s A id p z :
  asim k s A -> A !! p = Some z -> k + 1 < 2 ^ 64 -> id_wf id ->
  pwp (free_untyped cfg sreg lreg hreg id p) (fun s' _ => asim (k + 1) s' (delete p A) /\ al_bytes s' = al_bytes s) s.
Proof.
  intros (ks & kl & n & L & As & Al & Hks & Hkl & HI) Hp Hk Hid.
  enough (pwp (free_untyped cfg sreg lreg hreg id p) (fun s' _ => in_bounds s' -> asim (k + 1) s' (delete p A)) s) as H.
  { eapply pwp_conseq; [apply (pwp_and _ _ (fun s' _ => in_bounds s' /\ al_bytes s' = al_bytes s) _ H)|].
    - intros s' a E. destruct (moves_free id p _ _ _ E) as (H1 & H2 & H3). pose proof (ai_bounds _ _ _ _ _ _ _ _ HI).
      unfold in_bounds in *. split; [lia|done].
    - intros s' r (H1 & H2 & H3). eauto. }
  pose proof (lo_min Hlay). pose proof (lo_max Hlay). pose proof (lo_sl Hlay). pose proof (lo_sh Hlay). pose proof (lo_lh Hlay).
  pose proof Hp as [(c & Hc & Hd & ->)|[(c & Hc & ->)|(x & Hx & Ep)]]%(ai_app _ _ _ _ _ _ _ _ HI).
  - pose proof (small_region ks s As p c (ai_small _ _ _ _ _ _ _ _ HI) (ai_bounds _ _ _ _ _ _ _ _ HI) Hc) as Hr.
    destruct (simS_free ks (small_of s) As id p (ai_small _ _ _ _ _ _ _ _ HI) ltac:(eauto) ltac:(lia)) as (o & h2 & Eo & Ef & Hs2).
    unfold free_untyped. apply pwp_bind, pwp_lift. rewrite small_offset_spec, inside_true by lia.
    apply pointer_offset_sub in Eo as ->.
    apply pwp_bind, zoom_pwp. eapply pwp_done; [exact Ef|]. unfold clear_log. pwp_go. intros Hb.
    exists (ks + 1), kl, n, L, (delete p As), Al. split_and!; [lia|lia|]. by eapply ainv_small_free.
  - pose proof (large_region kl s Al p c (ai_large _ _ _ _ _ _ _ _ HI) (ai_bounds _ _ _ _ _ _ _ _ HI) Hc) as Hr.
    destruct (simL_free kl (large_of s) Al id p (ai_large _ _ _ _ _ _ _ _ HI) ltac:(eauto) ltac:(lia)) as (o & h2 & Eo & Ef & Hs2).
    unfold free_untyped. apply pwp_bind, pwp_lift. rewrite small_offset_spec, inside_false by lia.
    unfold free_large_untyped. apply pwp_bind, pwp_lift. rewrite large_offset_spec, inside_true by lia.
    apply pointer_offset_sub in Eo as ->.
    apply zoom_pwp. eapply pwp_done; [exact Ef|]. intros Hb.
    exists ks, (kl + 1), n, L, As, (delete p Al). split_and!; [lia|lia|]. by eapply ainv_large_free.
  - pose proof (huge_region n L (al_huge s) x z (ai_huge _ _ _ _ _ _ _ _ HI) Hx) as Hr. rewrite <- Ep in Hr.
    unfold free_untyped. apply pwp_bind, pwp_lift. rewrite small_offset_spec, inside_false by lia.
    unfold free_large_untyped. apply pwp_bind, pwp_lift. rewrite large_offset_spec, inside_false by lia.
    unfold free_huge_untyped. rewrite huge_offset_spec, inside_true by lia. apply zoom_pwp.
    assert (p - hbase hreg = x) as Ex by lia. rewrite Ex. destruct Hx as (t & q & d & Hq & Hd & Hl & Ed & Ez).
    assert (live_at (sbase sreg) (al_huge s) t q d x) as Hlive.
    { pose proof (hi_range _ _ _ _ (ai_huge _ _ _ _ _ _ _ _ HI) _ _ _ Hq Hd). split_and!; [|done|done|unfold in_desc; lia].
      by apply (listed_inv (sbase sreg) sb_pos n L (al_huge s) t q (ai_huge _ _ _ _ _ _ _ _ HI)). }
    eapply pwp_conseq; [apply (huge_free_spec cfg (sbase sreg) (hbase hreg) 0 0 map_ok sb_pos n L (al_huge s) id x);
      [apply (ai_huge _ _ _ _ _ _ _ _ HI)|done|by exists t, q, d]|].
    intros h2 [] (Hi2 & Hd2 & Hlive2) Hb. exists ks, kl, n, L, As, Al. split_and!; [lia|lia|].
    eapply (ainv_huge_free ks kl n L As Al A s (put_huge h2 s) p z); try done; [apply inside_true; lia|].
    intros y w. rewrite Ex. specialize (Hlive2 t q d Hlive y w). by rewrite Ed in Hlive2.
Qed.

(** ** [class_untyped] and [realloc_untyped] *)

Lemma put_small_same (s : AllocS) : put_small (small_of s) s = s.
Proof. by destruct s. Qed.
Lemma put_large_same (s : AllocS) : put_large (large_of s) s = s.
Proof. by destruct s. Qed.
Lemma put_huge_same (s : AllocS) : put_huge (al_huge s) s = s.
Proof. by destruct s. Qed.

Lemma class_spec k s A p z :
  asim k s A -> A !! p = Some z -> class_untyped cfg sreg lreg hreg p s = Done (s, z).
Proof.
  intros (ks & kl & n & L & As & Al & _ & _ & HI) Hp.
  pose proof (lo_min Hlay). pose proof (lo_max Hlay). pose proof (lo_sl Hlay). pose proof (lo_sh Hlay). pose proof (lo_lh Hlay).
  apply (ai_app _ _ _ _ _ _ _ _ HI) in Hp as [(c & Hc & Hd & ->)|[(c & Hc & ->)|(x & Hx & Ep)]]; unfold class_untyped, bind, lift.
  - pose proof (small_region ks s As p c (ai_small _ _ _ _ _ _ _ _ HI) (ai_bounds _ _ _ _ _ _ _ _ HI) Hc) as Hr.
    rewrite small_offset_spec, inside_true by lia. cbn [obind fst snd].
    unfold zoom_small, zoom. rewrite (sim_class (BL := Small_laws) _ _ _ _ _ _ (ai_small _ _ _ _ _ _ _ _ HI) Hc). cbn [obind fst snd].
    by rewrite put_small_same.
  - pose proof (large_region kl s Al p c (ai_large _ _ _ _ _ _ _ _ HI) (ai_bounds _ _ _ _ _ _ _ _ HI) Hc) as Hr.
    rewrite small_offset_spec, inside_false by lia. cbn [obind fst snd].
    rewrite large_offset_spec, inside_true by lia. cbn [obind fst snd].
    unfold zoom_large, zoom. rewrite (sim_class (BL := Large_laws) _ _ _ _ _ _ (ai_large _ _ _ _ _ _ _ _ HI) Hc). cbn [obind fst snd].
    by rewrite put_large_same.
  - pose proof (huge_region n L (al_huge s) x z (ai_huge _ _ _ _ _ _ _ _ HI) Hx) as Hr. rewrite <- Ep in Hr.
    rewrite small_offset_spec, inside_false by lia. cbn [obind fst snd].
    rewrite large_offset_spec, inside_false by lia. cbn [obind fst snd].
    rewrite huge_offset_spec, inside_true by lia. replace (p - hbase hreg) with x by lia.
    destruct Hx as (t & q & d & Hq & Hd & Hl & Ed & <-).
    pose proof (hi_range _ _ _ _ (ai_huge _ _ _ _ _ _ _ _ HI) _ _ _ Hq Hd).
    unfold zoom_huge, zoom, huge_class, bind.
    rewrite (huge_find_spec (sbase sreg) map_ok sb_pos n L (al_huge s) t q d x (ai_huge _ _ _ _ _ _ _ _ HI) Hq);
      [|split; congruence|unfold in_desc; lia].
    unfold get_desc, bind, gets. simpl. rewrite Hd. simpl. by rewrite put_huge_same.
Qed.

Lemma copy_bytes_lookup src dst n b a :
  src + Z.of_nat n <= dst \/ dst + Z.of_nat n <= src ->
  copy_bytes src dst n b !! a =
    if (dst <=? a) && (a <? dst + Z.of_nat n) then b !! (a - dst + src) else b !! a.
Proof.
  revert a. induction n as [|n IH]; intros a Hn.
  { simpl. destruct (Z.leb_spec dst a), (Z.ltb_spec a (dst + Z.of_nat 0)) as [Hx|Hx]; simpl; try done; simpl in Hx; lia. }
  assert (copy_bytes src dst (S n) b !! a =
    if decide (a = dst + Z.of_nat n) then copy_bytes src dst n b !! (src + Z.of_nat n) else copy_bytes src dst n b !! a) as ->.
  { simpl. destruct (copy_bytes src dst n b !! (src + Z.of_nat n)) as [x|] eqn:E; case_decide as Ea.
    - by rewrite Ea, lookup_insert_eq.
    - by rewrite lookup_insert_ne.
    - by rewrite Ea, lookup_delete_eq.
    - by rewrite lookup_delete_ne. }
  case_decide as Ea; rewrite IH by lia.
  - rewrite Ea. destruct (Z.leb_spec dst (src + Z.of_nat n)), (Z.ltb_spec (src + Z.of_nat n) (dst + Z.of_nat n)),
      (Z.leb_spec dst (dst + Z.of_nat n)), (Z.ltb_spec (dst + Z.of_nat n) (dst + Z.of_nat (S n))); simpl; try lia; f_equal; lia.
  - destruct (Z.leb_spec dst a), (Z.ltb_spec a (dst + Z.of_nat n)), (Z.ltb_spec a (dst + Z.of_nat (S n))); simpl; done || lia.
Qed.

(** What [realloc_untyped] promises. *)
Definition realloc_answer (k : Z) (A : gmap Z Z) (s : AllocS) (old z size : Z) (s' : AllocS) (r : option Z) : Prop :=
  if size <=? z then r = Some old /\ s' = s
  else exists p y, r = Some p /\ size <= y /\ A !! p = None /\ asim k s' (delete old (<[p := y]> A)) /\
    (forall q w, A !! q = Some w -> p + y <= q \/ q + w <= p) /\
    (forall i, 0 <= i < z -> al_bytes s' !! (p + i) = al_bytes s !! (old + i)) /\
    (forall a, ~ (p <= a < p + z) -> al_bytes s' !! a = al_bytes s !! a).

Lemma asim_apart k s A p z p' z' :
  asim k s A -> A !! p = Some z -> A !! p' = Some z' -> p <> p' -> p + z <= p' \/ p' + z' <= p.
Proof. intros (ks & kl & n & L & As & Al & _ & _ & HI). by eapply app_apart. Qed.

Lemma new_apart k s A p z : asim k s (<[p := z]> A) -> A !! p = None ->
  forall p' z', A !! p' = Some z' -> p + z <= p' \/ p' + z' <= p.
Proof.
  intros Hs Hp p' z' Hp'. assert (p <> p') as Hne by congruence.
  by apply (asim_apart k s (<[p := z]> A)); [|rewrite lookup_insert_eq|rewrite lookup_insert_ne|].
Qed.

Lemma asim_pos k s A p z : asim k s A -> A !! p = Some z -> 0 < z.
Proof.
  intros (ks & kl & n & L & As & Al & _ & _ & HI) [(c & Hc & Hd & ->)|[(c & Hc & ->)|(x & Hx & Ep)]]%(ai_app _ _ _ _ _ _ _ _ HI).
  - apply (small_region ks s As p c (ai_small _ _ _ _ _ _ _ _ HI) (ai_bounds _ _ _ _ _ _ _ _ HI) Hc).
  - apply (large_region kl s Al p c (ai_large _ _ _ _ _ _ _ _ HI) (ai_bounds _ _ _ _ _ _ _ _ HI) Hc).
  - apply (huge_region n L (al_huge s) x z (ai_huge _ _ _ _ _ _ _ _ HI) Hx).
Qed.

Lemma asim_put_bytes k s A b : asim k s A -> asim k (put_bytes b s) A.
Proof.
  intros (ks & kl & n & L & As & Al & H1 & H2 & [H3 H4 H5 H6 H7 H8]). exists ks, kl, n, L, As, Al. split_and!; [done|done|]. by split.
Qed.

Lemma realloc_spec k s A id old z size :
  asim k s A -> room s -> A !! old = Some z -> k + 2 < 2 ^ 64 -> id_wf id -> halloc_room s id -> 1 <= size <= 2 ^ 40 ->
  pwp (realloc_untyped cfg sreg lreg hreg map_ok id old size) (realloc_answer (k + 2) A s old z size) s.
Proof.
  intros Hs Hroom Ho Hk Hid Hha Hsz. unfold realloc_untyped. apply pwp_bind.
  eapply pwp_done; [by eapply class_spec|]. unfold realloc_answer. cbn beta. destruct (Z.leb_spec size z); [by apply pwp_ret|].
  apply pwp_bind. eapply pwp_conseq; [apply (allocate_spec k s A id size); try done; lia|].
  intros s1 r [(p & y & -> & Hy & Hp & Hs1) Eb]. apply pwp_bind. unfold copy_nonoverlapping.
  assert (p <> old) as Hne by congruence.
  pose proof (asim_apart _ _ _ p y old z Hs1 ltac:(by rewrite lookup_insert_eq) ltac:(by rewrite lookup_insert_ne) Hne) as Hap.
  pose proof (asim_pos _ _ _ _ _ Hs Ho) as Hz.
  assert ((old + z <=? p) || (p + z <=? old) = true) as ->.
  { apply orb_true_iff. rewrite !Z.leb_le. lia. }
  pwp_go. pose proof (asim_put_bytes _ _ _ (copy_bytes old p (Z.to_nat z) (al_bytes s1)) Hs1) as Hs2.
  eapply pwp_conseq; [apply (free_spec (k + 1) _ _ id old z Hs2); [by rewrite lookup_insert_ne|lia|done]|].
  intros s' [] [Hs' Eb']. apply pwp_ret. exists p, y. simpl in Eb'. rewrite Eb', Eb. replace (k + 1 + 1) with (k + 2) in Hs' by lia.
  split_and!; try done.
  - by apply (new_apart _ _ _ _ _ Hs1).
  - intros i Hi. rewrite copy_bytes_lookup by lia. rewrite (proj2 (Z.leb_le _ _)), (proj2 (Z.ltb_lt _ _)) by lia. simpl. f_equal. lia.
  - intros a Ha. rewrite copy_bytes_lookup by lia.
    destruct (Z.leb_spec p a), (Z.ltb_spec a (p + Z.of_nat (Z.to_nat z))); simpl; done || lia.
Qed.

(** ** The system *)

Inductive acall :=
| AAlloc (id size : Z)
| AFree (id p : Z)
| ARealloc (id p size : Z).

Definition aexec (o : acall) : M AllocS (option Z) :=
  match o with
  | AAlloc id size => allocate_untyped cfg sreg lreg hreg map_ok id size
  | AFree id p => free_untyped cfg sreg lreg hreg id p ;;; ret None
  | ARealloc id p size => realloc_untyped cfg sreg lreg hreg map_ok id p size
  end.

(** What callers guarantee, and that the reservations are not exhausted. *)
Definition alegal (s : AllocS) (A : gmap Z Z) (o : acall) : Prop :=
  match o with
  | AAlloc id size => id_wf id /\ 1 <= size <= 2 ^ 40 /\ room s /\ halloc_room s id
  | AFree id p => id_wf id /\ is_Some (A !! p)
  | ARealloc id p size => id_wf id /\ 1 <= size <= 2 ^ 40 /\ is_Some (A !! p) /\ room s /\ halloc_room s id
  end.

(** The abstract allocator: a call from holdings [A] may answer [r] and leave
    holdings [A']. *)
Inductive aspec (A : gmap Z Z) : acall -> option Z -> gmap Z Z -> Prop :=
| aspec_alloc id size p z :
    size <= z -> A !! p = None -> (forall p' z', A !! p' = Some z' -> p + z <= p' \/ p' + z' <= p) ->
    aspec A (AAlloc id size) (Some p) (<[p := z]> A)
| aspec_free id p z : A !! p = Some z -> aspec A (AFree id p) None (delete p A)
| aspec_realloc_same id p z size : A !! p = Some z -> size <= z -> aspec A (ARealloc id p size) (Some p) A
| aspec_realloc_move id p z size p' z' :
    A !! p = Some z -> z < size <= z' -> A !! p' = None ->
    (forall q y, A !! q = Some y -> p' + z' <= q \/ q + y <= p') ->
    aspec A (ARealloc id p size) (Some p') (delete p (<[p' := z']> A)).

(** The size the allocator itself reports for a pointer. *)
Definition usable (s : AllocS) (p : Z) : Z :=
  match class_untyped cfg sreg lreg hreg p s with Done (_, z) => z | _ => 0 end.

(** The application's holdings after a call that answered [r] in state [s']. *)
Definition aobserve (s' : AllocS) (o : acall) (r : option Z) (A : gmap Z Z) : gmap Z Z :=
  match o, r with
  | AAlloc _ _, Some p => <[p := usable s' p]> A
  | AFree _ p, _ => delete p A
  | ARealloc _ p _, Some p' => if decide (p' = p) then A else delete p (<[p' := usable s' p']> A)
  | _, None => A
  end.

(** Reachable by [k] calls, with the holdings of the application. *)
Inductive areach : Z -> AllocS -> gmap Z Z -> Prop :=
| areach_init : areach 0 zero_alloc ∅
| areach_step k s A o s' r :
    areach k s A -> alegal s A o -> aexec o s = Done (s', r) -> areach (k + 1) s' (aobserve s' o r A).

Lemma asim_mono k k' s A : asim k s A -> k <= k' -> asim k' s A.
Proof. intros (ks & kl & n & L & As & Al & H1 & H2 & HI) Hk. exists ks, kl, n, L, As, Al. split_and!; [lia|lia|done]. Qed.

Lemma usable_spec k s A p z : asim k s A -> A !! p = Some z -> usable s p = z.
Proof. intros Hs Hp. unfold usable. by rewrite (class_spec k s A p z Hs Hp). Qed.

Lemma aexec_spec k s A o :
  asim k s A -> k + 2 < 2 ^ 64 -> alegal s A o ->
  pwp (aexec o) (fun s' r => aspec A o r (aobserve s' o r A) /\ asim (k + 2) s' (aobserve s' o r A)) s.
Proof.
  intros Hs Hk Hl. destruct o as [id size|id p|id p size]; simpl in *.
  - destruct Hl as (Hid & Hsz & Hr & Hh).
    eapply pwp_conseq; [apply (allocate_spec k s A id size); try done; lia|].
    intros s' r [(p & z & -> & Hz & Hp & Hs') _]. simpl.
    rewrite (usable_spec _ _ _ p z Hs') by (by rewrite lookup_insert_eq). split; [|eapply asim_mono; [done|lia]].
    constructor; [done|done|]. by apply (new_apart _ _ _ _ _ Hs').
  - destruct Hl as (Hid & z & Hp). apply pwp_bind. eapply pwp_conseq; [apply (free_spec k s A id p z); try done; lia|].
    intros s' [] [Hs' _]. apply pwp_ret. simpl. split; [by econstructor|eapply asim_mono; [done|lia]].
  - destruct Hl as (Hid & Hsz & [z Hp] & Hr & Hh). eapply pwp_conseq; [apply (realloc_spec k s A id p z size); try done; lia|].
    intros s' r. unfold realloc_answer. destruct (Z.leb_spec size z).
    + intros [-> ->]. simpl. rewrite decide_True by done. split; [by econstructor|eapply asim_mono; [done|lia]].
    + intros (p' & y & -> & Hy & Hp' & Hs' & Hap & _). assert (p' <> p) as Hne by congruence. simpl.
      rewrite decide_False by done.
      rewrite (usable_spec _ _ _ p' y Hs') by (rewrite lookup_delete_ne, lookup_insert_eq; done).
      split; [|done]. by eapply aspec_realloc_move.
Qed.

Lemma zero_asim : asim 0 zero_alloc ∅.
Proof.
  exists 0, 0, 0, (fun _ => []), ∅, ∅. split_and!; [lia|lia|]. split; simpl.
  - eexists. split; [apply (inv_init (B := Small.bracket))|]. intros p c. rewrite lookup_empty. split; [done|].
    intros (i & b & Hb & _). simpl in Hb. set_solver.
  - eexists. split; [apply (inv_init (B := Large.bracket))|]. intros p c. rewrite lookup_empty. split; [done|].
    intros (i & b & Hb & _). simpl in Hb. set_solver.
  - apply zero_hinv; (exact map_ok || exact sb_pos).
  - intros q. rewrite lookup_empty. by intros [].
  - split; unfold bumpv, index_MIN; simpl; lia.
  - intros p z. rewrite lookup_empty. split; [done|]. unfold app_view. setoid_rewrite lookup_empty.
    intros [(c & ? & _)|[(c & ? & _)|(x & (t & q & d & Hq & _) & _)]]; [done|done|]. by apply elem_of_nil in Hq.
Qed.

Lemma areach_asim k s A : areach k s A -> 2 * k < 2 ^ 64 -> 0 <= k /\ asim (2 * k) s A.
Proof.
  induction 1 as [|k s A o s' r Hr IH Hl He]; intros Hk; [split; [lia|apply zero_asim]|].
  destruct (decide (2 * k < 2 ^ 64)) as [Hk'|]; [|lia]. destruct (IH Hk') as [H0 Hs]. split; [lia|].
  pose proof (aexec_spec (2 * k) s A o Hs ltac:(lia) Hl) as H. unfold pwp in H. rewrite He in H.
  replace (2 * (k + 1)) with (2 * k + 2) by lia. apply H.
Qed.

(** ** Properties *)


(** C11: a call for at most 512 KiB never panics, in a build without
    validation: as long as the reservations of the small and the large heap are
    not exhausted it returns a block of at least the size asked for that
    overlaps nothing the application holds; a call for no bytes returns null
    and changes nothing. *)
Theorem small_large_total k s A id size :
  areach k s A -> 2 * k + 2 < 2 ^ 64 -> 0 <= size <= Large.SIZE_MAX -> room s ->
  if size =? 0 then allocate_untyped cfg sreg lreg hreg map_ok id size s = Done (s, None)
  else exists s' p, allocate_untyped cfg sreg lreg hreg map_ok id size s = Done (s', Some p) /\
    aspec A (AAlloc id size) (Some p) (<[p := usable s' p]> A).
Proof.
  intros Hr Hk Hsz Hroom. destruct (areach_asim k s A Hr ltac:(lia)) as [_ Hs].
  destruct (Z.eqb_spec size 0) as [->|Hne]; [by eapply allocate_zero|].
  pose proof (allocate_total (2 * k) s A id size Hs Hroom ltac:(lia) ltac:(lia)) as (s' & r & E & (p & z & -> & Hz & Hp & Hs') & _)%wp_done.
  exists s', p. split; [done|]. rewrite (usable_spec _ _ _ p z Hs') by (by rewrite lookup_insert_eq).
  constructor; [done|done|]. by apply (new_apart _ _ _ _ _ Hs').
Qed.

(** C10: [realloc_untyped] on a pointer the application holds returns a pointer
    with room for the new size and with the old contents; when the block was
    already large enough nothing changes at all, otherwise the copy does not
    overlap its source, and no byte outside the new block changes. *)
Theorem realloc_preserves_contents k s A id old z size :
  areach k s A -> 2 * k + 2 < 2 ^ 64 -> A !! old = Some z ->
  id_wf id -> 1 <= size <= 2 ^ 40 -> room s -> halloc_room s id ->
  pwp (realloc_untyped cfg sreg lreg hreg map_ok id old size) (fun s' r => exists p, r = Some p /\
    size <= usable s' p /\ (size <= z -> p = old /\ s' = s) /\
    (forall i, 0 <= i < Z.min z size -> al_bytes s' !! (p + i) = al_bytes s !! (old + i)) /\
    (forall a, ~ (p <= a < p + z) -> al_bytes s' !! a = al_bytes s !! a)) s.
Proof.
  intros Hr Hk Ho Hid Hsz Hroom Hh. destruct (areach_asim k s A Hr ltac:(lia)) as [_ Hs].
  eapply pwp_conseq; [by apply (realloc_spec (2 * k) s A id old z size)|]. intros s' r. unfold realloc_answer.
  destruct (Z.leb_spec size z).
  - intros [-> ->]. exists old. rewrite (usable_spec _ _ _ _ _ Hs Ho). split_and!; done.
  - intros (p & y & -> & Hy & Hp & Hs' & Hap & Hcopy & Hrest). exists p.
    assert (p <> old) as Hne by congruence.
    rewrite (usable_spec _ _ _ p y Hs') by (rewrite lookup_delete_ne, lookup_insert_eq; done).
    split_and!; [done|done|lia| |done]. intros i Hi. apply Hcopy. lia.
Qed.

(** a root set through [set_root_untyped] is read back by [root_untyped],
    other roots do not change, clearing works, an index past the 1024 roots
    panics, and a pointer at or below the base of the small heap (it may
    belong to another region) is stored as null. *)
Theorem root_roundtrip s index p :
  length (al_roots s) = 1024%nat -> 0 <= index ->
  (index < COUNT_ROOT ->
     exists s', set_root_untyped sreg index p s = Done (s', tt) /\
       root_untyped sreg index s' = Done (s', match p with Some p => if sbase sreg <? p then Some p else None | None => None end) /\
       forall j, 0 <= j < COUNT_ROOT -> j <> index -> al_roots s' !! Z.to_nat j = al_roots s !! Z.to_nat j) /\
  (COUNT_ROOT <= index -> set_root_untyped sreg index p s = Panic /\ root_untyped sreg index s = Panic).
Proof.
  intros Hlen H0. unfold COUNT_ROOT. split; intros Hi.
  - destruct (lookup_lt_is_Some_2 (al_roots s) (Z.to_nat index)) as [o Ho]; [lia|].
    unfold set_root_untyped, bind, gets, unwrap. rewrite Ho. simpl. eexists. split; [done|]. split.
    + unfold root_untyped, bind, gets, unwrap. simpl. rewrite list_lookup_insert_eq by lia. unfold ret. simpl. do 2 f_equal.
      generalize (sbase sreg) as b. intros b.
      destruct p as [p|]; [|done]. simpl. unfold pointer_to_offset, checked_sub, offset_to_pointer.
      destruct (Z.ltb_spec b p) as [Hlt|Hge].
      * rewrite (proj2 (Z.leb_le _ _)), (proj2 (Z.eqb_neq _ _)) by lia. simpl. f_equal. lia.
      * destruct (Z.leb_spec b p); [|done]. by rewrite (proj2 (Z.eqb_eq _ _)) by lia.
    + intros j Hj Hne. simpl. rewrite list_lookup_insert_ne by lia. done.
  - unfold set_root_untyped, root_untyped, bind, gets, unwrap. by rewrite lookup_ge_None_2 by lia.
Qed.
End sys.

(** [checked_pointer_to_offset] computes [offset - SIZE_SLAB] before it
    compares. For a pointer less than one slab below a region, which may well
    belong to another region, the subtraction underflows: a release build
    wraps around and rejects the pointer as intended, a debug build panics. *)
Theorem checked_offset_underflow (B : Bracket) `{!BracketLaws B} cfg reg p :
  2 ^ 32 <= reg <= 2 ^ 63 -> reg - SIZE_SLAB < p < reg ->
  checked_pointer_to_offset cfg (data_new reg) p = if debug_assertions cfg then Panic else Done None.
Proof.
  intros Hr Hp. pose proof slab_pos. unfold checked_pointer_to_offset, pointer_to_offset, checked_sub, data_new.
  rewrite (proj2 (Z.leb_le _ _)), (proj2 (Z.eqb_neq _ _)) by lia.
  unfold offset_to_u64, arith. replace (p - (reg - SIZE_SLAB) - SIZE_SLAB) with (p - reg) by lia.
  rewrite (proj2 (Z.leb_gt 0 (p - reg))) by lia. simpl. destruct (debug_assertions cfg); [done|]. simpl. unfold wrap.
  rewrite <- (Z.mod_add (p - reg) 1 (2 ^ 64)), Z.mod_small by lia. change RESERVATION_SIZE with (2 ^ 40).
  by rewrite (proj2 (Z.ltb_ge _ _)) by lia.
Qed.

(** ** Concrete executions *)
Module ARuns.
#[local] Existing Instance IntervalList.intervals.
#[local] Existing Instance IntervalList.intervals_laws.
Definition cfg : Cfg := default_cfg false.
Definition sreg : Z := 2 ^ 41.
Definition lreg : Z := 2 ^ 42.
Definition hreg : Z := 2 ^ 43.
Definition mapped (_ _ : Z) : bool := true.

Lemma layout : layout_ok sreg lreg hreg.
Proof. unfold sreg, lreg, hreg. split; lia. Qed.

Abbreviation reached := (areach cfg sreg lreg hreg mapped).
Abbreviation call := (aexec cfg sreg lreg hreg mapped).

Lemma one_ok : id_wf 1.
Proof. unfold id_wf, COUNT_THREAD. lia. Qed.

Lemma room_zero : room cfg zero_alloc /\ halloc_room zero_alloc 1.
Proof. vm_compute. intuition discriminate. Qed.

Definition after {A} (m : M AllocS A) (s : AllocS) : AllocS :=
  match m s with Done (s', _) => s' | _ => s end.

(** One 24-byte block. *)
Definition s1 : AllocS := after (call (AAlloc 1 24)) zero_alloc.

Lemma s1_reached : reached 1 s1 (<[sreg := 24]> ∅).
Proof.
  change (<[sreg := 24]> (∅ : gmap Z Z)) with (aobserve cfg sreg lreg hreg s1 (AAlloc 1 24) (Some sreg) ∅).
  apply (areach_step cfg sreg lreg hreg mapped 0 zero_alloc ∅ (AAlloc 1 24) s1 (Some sreg)); [constructor| |by vm_compute].
  split_and!; [apply one_ok..|lia|lia|apply room_zero|apply room_zero].
Qed.


Lemma small_large_total_witness :
  exists s' p, allocate_untyped cfg sreg lreg hreg mapped 1 2000 zero_alloc = Done (s', Some p) /\
    aspec ∅ (AAlloc 1 2000) (Some p) (<[p := usable cfg sreg lreg hreg s' p]> ∅).
Proof.
  refine (small_large_total cfg sreg lreg hreg mapped default_cfg_ok layout ltac:(vm_compute; discriminate) 0 zero_alloc ∅ 1 2000 _ _ _ _);
    [constructor|lia|vm_compute; intuition discriminate|apply room_zero].
Defined.

Lemma realloc_preserves_contents_witness :
  pwp (realloc_untyped cfg sreg lreg hreg mapped 1 sreg 100) (fun s' r => exists p, r = Some p /\ 100 <= usable cfg sreg lreg hreg s' p) s1.
Proof.
  eapply pwp_conseq; [apply (realloc_preserves_contents cfg sreg lreg hreg mapped default_cfg_ok layout ltac:(vm_compute; discriminate)
    1 s1 (<[sreg := 24]> ∅) 1 sreg 24 100 s1_reached)|]; [lia|reflexivity|apply one_ok|lia|vm_compute; intuition discriminate|by vm_compute|].
  intros s' r (p & H1 & H2 & _). exists p. exact (conj H1 H2).
Defined.

Lemma root_roundtrip_witness :
  exists s', set_root_untyped sreg 5 (Some (2 ^ 41)) zero_alloc = Done (s', tt) /\
    root_untyped sreg 5 s' = Done (s', Some (2 ^ 41)).
Proof.
  destruct (root_roundtrip sreg zero_alloc 5 (Some (2 ^ 41)) ltac:(reflexivity) ltac:(lia)) as [H _].
  destruct (H ltac:(unfold COUNT_ROOT; lia)) as (s' & H1 & H2 & _). exists s'. split; [exact H1|exact H2].
Defined.

Lemma checked_offset_underflow_witness :
  checked_pointer_to_offset (B := Small.bracket) (default_cfg true) (data_new (H := Small.bracket) sreg) (2 ^ 41 - 8) = Panic.
Proof.
  apply (checked_offset_underflow Small.bracket (default_cfg true) sreg (2 ^ 41 - 8)); [unfold sreg; lia|].
  change (SIZE_SLAB (Bracket := Small.bracket)) with 32768. unfold sreg. lia.
Defined.
End ARuns.
