(* ===== verification/Recover.v ===== *)
(** * Recover: recovery of a crashed thread (cxlalloc/src/recover.rs)

    A crash stops a thread between two steps; the shared memory keeps what the
    thread had written. [recover] reads the thread's log and completes, retries
    or undoes the logged operation. The crashed prefixes below are the code of
    the interrupted operation up to the crash; the one of [unsized_to_sized] is
    proved to lie on the runs of the whole operations. *)

From Stdlib Require Import ZArith Lia.
From stdpp Require Import base numbers option gmap functions list.
From S2P Require Import Prelude Bitset Size Data Cas Slab Heap HeapInv HeapSys Huge Allocator.
Local Open Scope Z_scope.
Local Open Scope prog_scope.

Section recover.
Context (cfg : Cfg) `{B : Bracket} `{IS : IntoState}.

(** [Allocator::recover_heap]. *)
Definition recover_heap (id : Z) (state : HeapState) : M HS unit :=
  match state with
  | UnsizedToSized index c =>
      h <- stack_peek id Unsized ;;
      if decide (h <> index) then
        m <- gets hs_mem ;;
        l <- lift (trace m h) ;;
        stack_set id Unsized h (Z.of_nat (length l))
      else
        unsized_to_sized cfg id c ;;; ret tt
  | GlobalToUnsized index version =>
      d <- detect_global id version ;;
      if (d : bool) then recover_push cfg id Unsized index else ret tt
  | BumpToUnsized start version =>
      let start := default index_MIN start in
      d <- detect_bump id version ;;
      if (d : bool) then
        let batch := BATCH_BUMP_POP cfg in
        end_ <- lift (index_add start (wrap 32 batch)) ;;
        link cfg id start (Z.to_nat (end_ - start)) None ;;;
        stack_set id Unsized (Some start) batch
      else ret tt
  | UnsizedToGlobalSave index =>
      h <- stack_peek id Unsized ;;
      if decide (h = Some index) then recover_len id Unsized
      else
        stack_set id Unsized (Some index) 0 ;;;
        recover_len id Unsized
  | UnsizedToGlobal index version =>
      d <- detect_global id version ;;
      if (d : bool) then ret tt
      else
        stack_set id Unsized (Some index) 0 ;;;
        recover_len id Unsized
  | SizedToApplication _ _ => panic
  | ApplicationToSized _ _ => panic
  | Remote index version last =>
      d <- detect id (remote_cell index) version ;;
      if (d : bool) then
        if last then
          recover_push cfg id Unsized index ;;;
          unsized_to_global cfg id
        else ret tt
      else free_remote cfg id index
  | Detach index version =>
      l <- get_local index ;;
      d <- detect id (remote_cell index) version ;;
      if (d : bool) then ret tt else detach cfg id (class l) index
  end.

(** ** Interrupted operations *)

(** [Detectable::update] up to its first compare-exchange. *)
Definition update_crash {T} (id : Z) (c : cell HS T) (next : T -> Z -> M HS (option (T * HeapState))) : M HS unit :=
  version <- gets (fun s => version_next (help_load (get_ctx s) id id)) ;;
  when_ (recover_cas cfg) (help_store id id version) ;;;
  old <- gets (cget c) ;;
  help cfg id old ;;;
  r <- next (d_inner old) version ;;
  match r with
  | None => ret tt
  | Some (_, log) => log_unsync cfg id log
  end.

(** [Owned::unsized_to_sized] up to the last write, which takes the slab off
    the unsized stack; [None] when there is no slab, else the slab's successor.
    [unsized_to_sized_cut] shows that the operation is this prefix and
    [unsized_to_sized_rest]. *)
Definition unsized_to_sized_crash (id c : Z) : M HS (option (option Z)) :=
  h <- stack_peek id Unsized ;;
  match h with
  | None => ret None
  | Some index =>
      l <- get_local index ;;
      let nxt := next l in
      log_ cfg id (UnsizedToSized nxt c) ;;;
      set_local index (set_class c) ;;;
      n <- lift (class_count c) ;;
      l <- get_local index ;;
      bits <- lift (fill (Slab.free l) n) ;;
      set_local index (set_bits bits) ;;;
      stack_push cfg id (Sized c) index ;;;
      store cfg id (remote_cell index) (wrap 16 n) ;;;
      ret (Some nxt)
  end.

Definition unsized_to_sized_rest (id : Z) (r : option (option Z)) : M HS bool :=
  match r with
  | None => ret false
  | Some nxt =>
      k <- stack_len id Unsized ;;
      k' <- usize cfg (k - 1) ;;
      stack_set id Unsized nxt k' ;;;
      ret true
  end.

(** [Heap::unsized_to_global] up to the compare-exchange that
    publishes the batch. *)
Definition unsized_to_global_crash (id : Z) : M HS unit :=
  count <- stack_len id Unsized ;;
  if count <=? COUNT_CACHE_SLAB cfg then ret tt
  else
    record cfg id EvUnsizedToGlobal ;;;
    let batch := BATCH_GLOBAL_PUSH cfg in
    h <- stack_peek id Unsized ;;
    m <- gets hs_mem ;;
    let l := trace_take m (Z.to_nat batch) h in
    when_ (validating cfg) (disown_all cfg id l) ;;;
    hd <- unwrap (hd_error l) ;;
    let tl := List.last l hd in
    tloc <- get_local tl ;;
    log_ cfg id (UnsizedToGlobalSave hd) ;;;
    n <- usize cfg (count - batch) ;;
    stack_set id Unsized (next tloc) n ;;;
    update_crash id free_cell (fun old version =>
      set_local tl (set_next old) ;;;
      ret (Some (Some hd, UnsizedToGlobal hd version))).

(** [Heap::free_remote] up to and with its compare-exchange. *)
Definition free_remote_crash (id index : Z) : M HS unit :=
  l <- get_local index ;;
  record cfg id (EvFree (class_size (class l))) ;;;
  update cfg [] id (remote_cell index) (fun f version =>
    validate_ cfg (0 <? f) ;;;
    f' <- lift (arith (debug_assertions cfg) 16 (f - 1)) ;;
    ret (Some (f', Remote index version (f =? 1)))) ;;; ret tt.

(** [Heap::free] with the crash inside the transfer to the
    global stack, or right after the remote counter was decremented. *)
Definition heap_free_crash (id o : Z) : M HS unit :=
  index <- lift (into_index o) ;;
  l <- get_local index ;;
  if decide (owner l = Some id) then
    let c := class l in
    block <- lift (into_block (debug_assertions cfg) o c) ;;
    record cfg id (EvFree (class_size c)) ;;;
    log_ cfg id (ApplicationToSized index block) ;;;
    bits <- lift (set (validating cfg) (debug_assertions cfg) (Slab.free l) block) ;;
    set_local index (set_bits bits) ;;;
    let count := Bitset.len bits in
    (if count =? 1 then attach cfg id c index else ret tt) ;;;
    n <- lift (class_count c) ;;
    if count <? n then ret tt
    else
      sized_to_unsized cfg id c index ;;;
      validate_owned cfg id ;;;
      record cfg id (EvSizedToUnsized c) ;;;
      unsized_to_global_crash id
  else free_remote_crash id index.

(** The rest of an allocation that finds its sized stack empty: [obtain] is the
    part of [Heap::allocate] that takes a slab from the global stack or fresh
    ones, [finish] what follows a successful [unsized_to_sized]. *)
Definition obtain (id : Z) : M HS unit :=
  g <- shared_pop cfg id ;;
  match g with
  | Some index =>
      record cfg id EvGlobalToUnsized ;;;
      own cfg id index ;;;
      stack_push cfg id Unsized index
  | None =>
      range <- bump cfg id ;;
      record cfg id EvBump ;;;
      link cfg id (fst range) (Z.to_nat (snd range - fst range)) None ;;;
      stack_set id Unsized (Some (fst range)) (BATCH_BUMP_POP cfg)
  end.

Definition finish (base id c : Z) : M HS (option Z) :=
  record cfg id (EvUnsizedToSized c) ;;;
  validate_owned cfg id ;;;
  found <- stack_peek id (Sized c) ;;
  match found with
  | None => ret None
  | Some index =>
      l <- get_local index ;;
      block <- lift (peek_unchecked (Slab.free l)) ;;
      p <- pop cfg base id c index block ;;
      ret (Some p)
  end.

Definition alloc_rest (base id c : Z) (b : bool) : M HS (option Z) :=
  if b then finish base id c else obtain id ;;; unsized_to_sized cfg id c ;;; finish base id c.

(** The log of a thread is replayed. *)
Definition recover_log_of (id : Z) : M HS unit :=
  st <- gets (fun s => logs (hs_ctx s) !! id) ;;
  match st with
  | None => ret tt
  | Some (StateSmall h) => recover_heap id h
  | Some (StateLarge h) => recover_heap id h
  end.
End recover.

(** [Allocator::recover]. *)
Definition recover (cfg : Cfg) `{IV : IntervalSet} (id : Z) : M AllocS unit :=
  st <- gets (fun s => logs (al_ctx s) !! id) ;;
  match st with
  | None => ret tt
  | Some (StateSmall h) => zoom_small (recover_heap cfg (B := Size.Small.bracket) (IS := small_into) id h)
  | Some (StateLarge h) => zoom_large (recover_heap cfg (B := Size.Large.bracket) (IS := large_into) id h)
  end.

(** [Allocator::focus]. *)
Definition alloc_focus (cfg : Cfg) `{IV : IntervalSet} (sreg id : Z) (rec : bool) : M AllocS unit :=
  focus_unrecovered cfg sreg id ;;;
  if rec then recover cfg id else ret tt.

(** ** Properties *)

Section proofs.
Context (cfg : Cfg) `{B : Bracket} `{IS : IntoState}.

Lemma recover_len_spec id h n l s :
  chain (hs_mem s) h l -> NoDup l -> stk (hs_mem s) id Unsized = mkLStack h n ->
  recover_len id Unsized s =
    Done (on_mem (put_stk id Unsized (mkLStack h (Z.of_nat (length l)))) s, tt).
Proof.
  intros Hc Hnd Hk. unfold recover_len, get_stack, put_stack, bind, gets, lift, modify. simpl.
  rewrite Hk. simpl. by rewrite (trace_chain _ _ _ Hc Hnd).
Qed.

#[local] Arguments recover_len : simpl never.

(** undoing an interrupted transfer to the global stack. Whatever the
    crash left in the head and the counter of the unsized stack (before or
    after the batch was popped, also with the two writes reordered), recovery
    from the [UnsizedToGlobalSave] record restores the logged head with the
    whole list behind it and the exact length, and writes nothing else. *)
Theorem recover_undoes_batch id index l s :
  chain (hs_mem s) (Some index) l -> NoDup l ->
  exists s', recover_heap cfg id (UnsizedToGlobalSave index) s = Done (s', tt) /\
    stk (hs_mem s') id Unsized = mkLStack (Some index) (Z.of_nat (length l)) /\
    chain (hs_mem s') (Some index) l /\ hs_ctx s' = hs_ctx s /\
    locals (hs_mem s') = locals (hs_mem s) /\ remotes (hs_mem s') = remotes (hs_mem s) /\
    shared_free (hs_mem s') = shared_free (hs_mem s) /\ shared_bump (hs_mem s') = shared_bump (hs_mem s).
Proof.
  intros Hc Hnd. unfold recover_heap, stack_peek, get_stack, bind, gets. simpl.
  destruct (stk (hs_mem s) id Unsized) as [h n] eqn:Ek. simpl. destruct (decide (h = Some index)) as [->|Hne].
  - rewrite (recover_len_spec id (Some index) n l s Hc Hnd Ek). eexists. split; [done|].
    split_and!; [|by eapply chain_frame|done..]. unfold stk, own_of. simpl. by rewrite lookup_insert_eq.
  - set (s1 := on_mem (put_stk id Unsized (mkLStack (Some index) 0)) s).
    assert (recover_len id Unsized s1 = Done (on_mem (put_stk id Unsized (mkLStack (Some index) (Z.of_nat (length l)))) s1, tt)) as E.
    { apply (recover_len_spec id (Some index) 0); [by eapply chain_frame|done|]. unfold s1, stk, own_of. simpl. by rewrite lookup_insert_eq. }
    fold s1. rewrite E. eexists. split; [done|].
    split_and!; [|by eapply chain_frame|done..]. unfold stk, own_of. simpl. by rewrite lookup_insert_eq.
Qed.

(** The state after a bump, spelled out. *)
Lemma bump_spelled id s s1 a b :
  recover_cas cfg = true -> recover_log cfg = true -> bump cfg id s = Done (s1, (a, b)) ->
  let old := shared_bump (hs_mem s) in
  let v := version_next (help_load (hs_ctx s) id id) in
  a = default index_MIN (d_inner old) /\ index_add a (wrap 32 (BATCH_BUMP_POP cfg)) = Done b /\
  shared_bump (hs_mem s1) = mkD (Some id) v (Some b) /\
  logs (hs_ctx s1) !! id = Some (into_state (BumpToUnsized (d_inner old) v)) /\
  help_array (hs_ctx s1) = match d_id old with
    | None => <[(id, id) := v]> (help_array (hs_ctx s))
    | Some j => <[(id, j) := d_version old]> (<[(id, id) := v]> (help_array (hs_ctx s)))
    end.
Proof.
  intros Hc Hl. destruct s as [[ha lg] [ls rs fr [bi bv bx] ow] st].
  unfold bump, update, update_loop, help, help_store, with_ctx, log_unsync, bind, gets, modify, lift, ret, when_.
  rewrite Hc, Hl. destruct bi as [j|]; cbn -[index_add version_next wrap help_load decide index_MIN].
  all: destruct (index_add (default index_MIN bx) _) as [new| | |] eqn:En; cbn -[index_add version_next wrap help_load decide index_MIN]; try done.
  all: destruct (decide _) as [_|Hx]; [|done]; cbn -[index_add version_next wrap help_load decide index_MIN].
  all: rewrite En; cbn -[index_add version_next wrap help_load decide index_MIN]; intros [= <- <- <-].
  all: split_and!; try done; simpl; by rewrite lookup_insert_eq.
Qed.

(** A thread whose last write is still in the cell is detected. *)
Lemma detect_current {T} id (c : cell HS T) v s :
  help_load (hs_ctx s) id id = v -> d_id (cget c s) = Some id -> d_version (cget c s) = v ->
  detect id c v s = Done (s, true).
Proof.
  intros Hh Hi Hv. unfold detect, bind, gets, assert_, ret, detected. cbn [obind]. change (get_ctx s) with (hs_ctx s).
  rewrite Hh, Z.eqb_refl. cbn [obind fst snd]. rewrite Hi, Hv, Z.eqb_refl, bool_decide_eq_true_2 by done. done.
Qed.

(** a thread that crashes right after reserving fresh slabs gets them.
    If another thread (or none) wrote the bump pointer before, the record the
    crash left makes recovery run exactly the steps that [Heap::allocate] had
    still to do: link the reserved slabs and put them on the unsized stack. *)
Theorem recover_redoes_bump id s s1 a b :
  recover_cas cfg = true -> recover_log cfg = true -> d_id (shared_bump (hs_mem s)) <> Some id ->
  bump cfg id s = Done (s1, (a, b)) ->
  exists h, logs (hs_ctx s1) !! id = Some (into_state h) /\
    recover_heap cfg id h s1 =
      (link cfg id a (Z.to_nat (b - a)) None ;;; stack_set id Unsized (Some a) (BATCH_BUMP_POP cfg)) s1.
Proof.
  intros Hc Hl Hne Hb. destruct (bump_spelled id s s1 a b Hc Hl Hb) as (-> & Ei & Eb & El & Eh).
  eexists. split; [exact El|]. unfold recover_heap, detect_bump, bind at 1.
  rewrite (detect_current id bump_cell _ s1).
  - cbn [obind fst snd]. unfold lift, bind at 1. by rewrite Ei.
  - unfold help_load at 1. rewrite Eh. destruct (d_id _) as [j|]; [rewrite lookup_insert_ne by congruence|];
      by rewrite lookup_insert_eq.
  - cbn. by rewrite Eb.
  - cbn. by rewrite Eb.
Qed.

Lemma bind_cong {A B'} (m m' : M HS A) (k : A -> M HS B') s : m s = m' s -> bind m k s = bind m' k s.
Proof. intros E. unfold bind. by rewrite E. Qed.

(** The crash state of [unsized_to_sized] lies on its run, and on the run of an
    allocation that finds its sized stack empty. *)
Lemma unsized_to_sized_cut id c s :
  unsized_to_sized cfg id c s = (r <- unsized_to_sized_crash cfg id c ;; unsized_to_sized_rest cfg id r) s.
Proof.
  unfold unsized_to_sized, unsized_to_sized_crash. rewrite !bind_assoc. apply bind_ext. intros [index|] s1; [|done].
  repeat (first [rewrite bind_assoc|apply bind_ext; intros ? ?]). done.
Qed.

Lemma alloc_block_cut base id c s : is_zero c = false -> sref_ok (Sized c) = true ->
  head (stk (hs_mem s) id (Sized c)) = None ->
  alloc_block cfg base id c s = (b <- unsized_to_sized cfg id c ;; alloc_rest cfg base id c b) s.
Proof.
  intros Hz Hc Hh. transitivity (bind (allocate cfg id c) (fun r => match r with
    | None => ret None
    | Some index => l <- get_local index ;; block <- lift (peek_unchecked (Slab.free l)) ;;
        p <- pop cfg base id c index block ;; ret (Some p) end) s).
  - unfold alloc_block, peek. rewrite !bind_assoc. unfold bind at 1, stack_peek at 1, get_stack at 1. rewrite Hc.
    unfold bind at 1, gets at 1. cbn [obind fst snd ret]. rewrite Hh, !bind_assoc. apply bind_ext. intros [index|] s1; [|done].
    rewrite !bind_assoc. apply bind_ext. intros l s2. by rewrite !bind_assoc.
  - unfold allocate, alloc_rest, finish, obtain. rewrite Hz, bind_assoc. apply bind_ext. intros [] s1.
    + rewrite bind_assoc. apply bind_ext. intros [] s2. by rewrite bind_assoc.
    + rewrite !bind_assoc. apply bind_ext. intros g s2. rewrite bind_assoc. apply bind_ext. intros [] s3.
      rewrite bind_assoc. apply bind_ext. intros b s4. rewrite bind_assoc. apply bind_ext. intros [] s5. by rewrite bind_assoc.
Qed.

(** The two places at which an allocation runs [unsized_to_sized]. *)
Lemma alloc_first base id c s s1 r : is_zero c = false -> sref_ok (Sized c) = true ->
  head (stk (hs_mem s) id (Sized c)) = None -> unsized_to_sized_crash cfg id c s = Done (s1, r) ->
  alloc_block cfg base id c s = (b <- unsized_to_sized_rest cfg id r ;; alloc_rest cfg base id c b) s1.
Proof.
  intros Hz Hc Hh Hr. rewrite alloc_block_cut by done.
  rewrite (bind_cong _ _ _ s (unsized_to_sized_cut id c s)), bind_assoc. unfold bind at 1. by rewrite Hr.
Qed.

Lemma alloc_second base id c s0 s s1 r : is_zero c = false -> sref_ok (Sized c) = true ->
  head (stk (hs_mem s0) id (Sized c)) = None -> head (stk (hs_mem s0) id Unsized) = None ->
  obtain cfg id s0 = Done (s, tt) -> unsized_to_sized_crash cfg id c s = Done (s1, r) ->
  alloc_block cfg base id c s0 = (unsized_to_sized_rest cfg id r ;;; finish cfg base id c) s1.
Proof.
  intros Hz Hc Hh Hu Ho Hr. rewrite alloc_block_cut by done.
  assert (unsized_to_sized cfg id c s0 = Done (s0, false)) as E.
  { unfold unsized_to_sized, bind at 1, stack_peek, get_stack, bind, gets. cbn. by rewrite Hu. }
  unfold bind at 1. rewrite E. cbn [obind fst snd alloc_rest]. unfold bind at 1. rewrite Ho. cbn [obind fst snd].
  rewrite (bind_cong _ _ _ s (unsized_to_sized_cut id c s)), bind_assoc. unfold bind at 1. by rewrite Hr.
Qed.

Lemma help_keeps {T} id (d : DState T) s s' :
  help cfg id d s = Done (s', tt) -> hs_mem s' = hs_mem s /\ logs (hs_ctx s') = logs (hs_ctx s).
Proof.
  unfold help, help_store, with_ctx, modify, ret. destruct (negb _); [by intros [= <-]|].
  destruct (d_id d); by intros [= <-].
Qed.

(** The state that prefix leaves. *)
Lemma crash_state id c index s s1 r : recover_log cfg = true ->
  head (stk (hs_mem s) id Unsized) = Some index ->
  unsized_to_sized_crash cfg id c s = Done (s1, r) ->
  let nxt := next (loc (hs_mem s) index) in
  r = Some nxt /\ logs (hs_ctx s1) !! id = Some (into_state (UnsizedToSized nxt c)) /\
  next (loc (hs_mem s1) index) = head (stk (hs_mem s) id (Sized c)) /\
  (forall i, i <> index -> loc (hs_mem s1) i = loc (hs_mem s) i) /\
  stk (hs_mem s1) id Unsized = stk (hs_mem s) id Unsized /\
  head (stk (hs_mem s1) id (Sized c)) = Some index.
Proof.
  intros Hl Hh H. unfold unsized_to_sized_crash in H.
  apply bind_done in H as (s2 & h & E & H). injection E as <- <-. cbn in H. rewrite Hh in H.
  apply bind_done in H as (s2 & l & E & H). injection E as <- <-.
  apply bind_done in H as (s2 & [] & E & H). unfold log_, log_unsync in E. rewrite Hl in E. injection E as <-.
  apply bind_done in H as (s2 & [] & E & H). injection E as <-.
  apply bind_done in H as (s2 & n & E & H). unfold lift in E. destruct (class_count c) as [n'| | |]; try done. injection E as <- <-.
  apply bind_done in H as (s2 & l & E & H). injection E as <- <-.
  apply bind_done in H as (s2 & bits & E & H). unfold lift in E. destruct (fill _ _) as [b'| | |]; try done. injection E as <- <-.
  apply bind_done in H as (s2 & [] & E & H). injection E as <-.
  apply bind_done in H as (s2 & [] & E & H).
  apply bind_done in E as (s3 & k & E & E'). unfold get_stack in E. destruct (sref_ok (Sized c)); [|done]. injection E as <- <-.
  apply bind_done in E' as (s3 & [] & E & E'). injection E as <-.
  apply bind_done in E' as (s3 & m & E & E'). unfold usize, lift in E. destruct (arith _ _ _) as [m'| | |]; try done. injection E as <- <-.
  unfold put_stack in E'. destruct (sref_ok (Sized c)); [|done]. injection E' as <-.
  apply bind_done in H as (s3 & [] & E & H). injection H as <- <-.
  unfold store in E. apply bind_done in E as (s2 & o & E & E'). injection E as <- <-.
  apply bind_done in E' as (s2 & [] & E & E'). injection E' as <-.
  apply help_keeps in E as [Em El].
  cbv zeta. unfold on_mem. cbn [hs_mem hs_ctx]. rewrite Em, El. cbn [hs_mem hs_ctx logs on_mem]. autorewrite with mem.
  rewrite lookup_insert_eq. split_and!; try done.
  all: intros; autorewrite with mem; repeat case_decide; naive_solver.
Qed.

(** C40: recovery of an interrupted [Owned::unsized_to_sized] leaves the slab in
    two stacks. Let a thread's unsized stack be [index] followed by [l] and its
    stack of class [c] hold [k], and let the thread stop between the push on the
    sized stack and the pop from the unsized one. The record holds the
    *successor* of the slab, so the test of recover.rs line 45 takes the branch
    for a completed transfer although it is not: recovery ends with both stacks
    equal to [index] followed by [k], and the slabs of [l] are in neither. The
    stop lies on the run of [unsized_to_sized], and on the run of an allocation
    that reaches it, at the first call of [Heap::allocate] or, after a slab was
    obtained from [s0], at the second. *)
Theorem recover_duplicates_slab base id c index l k s s1 r : recover_log cfg = true ->
  chain (hs_mem s) (head (stk (hs_mem s) id Unsized)) (index :: l) ->
  chain (hs_mem s) (head (stk (hs_mem s) id (Sized c))) k ->
  NoDup (index :: l) -> NoDup (index :: k) ->
  unsized_to_sized_crash cfg id c s = Done (s1, r) ->
  unsized_to_sized cfg id c s = unsized_to_sized_rest cfg id r s1 /\
  (is_zero c = false -> sref_ok (Sized c) = true ->
    (k = [] -> alloc_block cfg base id c s = (b <- unsized_to_sized_rest cfg id r ;; alloc_rest cfg base id c b) s1) /\
    forall s0, head (stk (hs_mem s0) id (Sized c)) = None -> head (stk (hs_mem s0) id Unsized) = None ->
      obtain cfg id s0 = Done (s, tt) ->
      alloc_block cfg base id c s0 = (unsized_to_sized_rest cfg id r ;;; finish cfg base id c) s1) /\
  exists h s2, logs (hs_ctx s1) !! id = Some (into_state h) /\ recover_heap cfg id h s1 = Done (s2, tt) /\
    chain (hs_mem s2) (head (stk (hs_mem s2) id Unsized)) (index :: k) /\
    chain (hs_mem s2) (head (stk (hs_mem s2) id (Sized c))) (index :: k).
Proof.
  intros Hl [Hh Hu] Hk Hnl Hnk Hr. destruct (crash_state id c index s s1 r Hl Hh Hr) as (Er & Elog & Enext & Eloc & Eu & Es).
  split; [by rewrite unsized_to_sized_cut; unfold bind; rewrite Hr|].
  split.
  { intros Hz Hc. split; [intros ->; by apply alloc_first|intros s0 H1 H2 H3; by apply (alloc_second _ _ _ _ s)]. }
  assert (chain (hs_mem s1) (Some index) (index :: k)) as Hck.
  { split; [done|]. rewrite Enext. apply (chain_frame (hs_mem s)); [done|]. intros i Hi. rewrite Eloc; [done|].
    intros ->. apply NoDup_cons in Hnk as [Hn _]. done. }
  eexists _, (on_mem (put_stk id Unsized (mkLStack (Some index) (Z.of_nat (length (index :: k))))) s1).
  split; [exact Elog|]. split.
  - unfold recover_heap. unfold bind at 1, stack_peek, get_stack, bind, gets. cbn [sref_ok obind fst snd ret]. rewrite Eu, Hh.
    rewrite decide_True.
    + rewrite (trace_chain _ _ _ Hck Hnk). done.
    + intros E. apply NoDup_cons in Hnl as [Hn _]. destruct l as [|j l]; simpl in Hu; [congruence|].
      destruct Hu as [Hu _]. apply Hn. rewrite Hu in E. injection E as ->. left.
  - unfold on_mem. cbn [hs_mem]. autorewrite with mem. rewrite decide_True by done. rewrite decide_False by naive_solver. rewrite Es.
    split; (apply (chain_frame (hs_mem s1)); [exact Hck|]; intros; by autorewrite with mem).
Qed.
End proofs.

(** ** Concrete crashes

    Thread 1 or 2 stops, recovers with the code above and goes on. *)
Module Runs.
Definition cfg : Cfg := default_cfg false.

(** The value a run returns. *)
Definition result {A} (o : outcome (HS * A)) : outcome A := obind o (fun p => Done p.2).

Section small.
#[local] Existing Instance Small.bracket.
#[local] Existing Instance small_into.

Lemma recover_undoes_batch_witness :
  let s := on_mem (put_stk 1 Unsized (mkLStack (Some 7) 5)) hs0 in
  chain (hs_mem s) (Some 7) [7] /\
    exists s', recover_heap cfg 1 (UnsizedToGlobalSave 7) s = Done (s', tt) /\
    stk (hs_mem s') 1 Unsized = mkLStack (Some 7) 1.
Proof.
  set (s := on_mem (put_stk 1 Unsized (mkLStack (Some 7) 5)) hs0). intros s0.
  assert (chain (hs_mem s) (Some 7) [7]) as Hc by by vm_compute.
  split; [exact Hc|].
  destruct (recover_undoes_batch cfg 1 7 [7] s Hc ltac:(apply NoDup_singleton)) as (s' & H1 & H2 & _).
  exists s'. split; [exact H1|exact H2].
Defined.

Lemma recover_redoes_bump_witness :
  exists s1 h, bump cfg 1 hs0 = Done (s1, (1, 2)) /\
    recover_heap cfg 1 h s1 = (link cfg 1 1 1 None ;;; stack_set 1 Unsized (Some 1) 1) s1.
Proof.
  destruct (bump cfg 1 hs0) as [[s1 [a b]]| | |] eqn:E; [|vm_compute in E; discriminate..].
  assert (a = 1 /\ b = 2) as [-> ->] by (vm_compute in E; by injection E as _ <- <-).
  destruct (recover_redoes_bump cfg 1 hs0 s1 1 2 eq_refl eq_refl ltac:(discriminate) E) as (h & _ & H).
  exists s1, h. split; [reflexivity|exact H].
Defined.

(** The consequence, from the empty heap: the thread stops inside its first
    allocation, of class 3. After recovery two allocations of different classes
    return the same block. *)
Lemma same_block_twice :
  result ((obtain cfg 1 ;;; unsized_to_sized_crash cfg 1 3 ;;; recover_log_of cfg 1 ;;;
           a <- alloc_block cfg 0 1 3 ;; b <- alloc_block cfg 0 1 4 ;; ret (a, b)) hs0)
  = Done (Some 32768, Some 32768).
Proof. by vm_compute. Qed.

Definition s_before : HS := match obtain cfg 1 hs0 with Done (s, _) => s | _ => hs0 end.
Definition s_crashed : HS := match unsized_to_sized_crash cfg 1 3 s_before with Done (s, _) => s | _ => hs0 end.

Lemma recover_duplicates_slab_witness :
  alloc_block cfg 0 1 3 hs0 = (unsized_to_sized_rest cfg 1 (Some None) ;;; finish cfg 0 1 3) s_crashed /\
  exists h s2, logs (hs_ctx s_crashed) !! 1 = Some (into_state h) /\ recover_heap cfg 1 h s_crashed = Done (s2, tt) /\
    chain (hs_mem s2) (head (stk (hs_mem s2) 1 Unsized)) [1] /\ chain (hs_mem s2) (head (stk (hs_mem s2) 1 (Sized 3))) [1].
Proof.
  edestruct (recover_duplicates_slab cfg 0 1 3 1 [] [] s_before s_crashed (Some None)) as (_ & Hrun & Hrec).
  - reflexivity.
  - vm_compute. split; reflexivity.
  - vm_compute. reflexivity.
  - apply NoDup_singleton.
  - apply NoDup_singleton.
  - vm_compute. reflexivity.
  - split; [|exact Hrec]. apply Hrun; vm_compute; reflexivity.
Defined.

(** A crash in the compare-exchange loop of [Global::push], after the tail of
    the batch was linked to the global head: undoing the transfer makes the
    unsized list of the thread run into the global stack. Thread 1 and thread
    2 then allocate the same slab. *)
Theorem recover_undo_shares_global :
  result ((alloc_block cfg 0 2 3 ;;; alloc_block cfg 0 1 4 ;;; heap_free cfg 2 32768 ;;;
           heap_free_crash cfg 1 65536 ;;; recover_log_of cfg 1 ;;;
           alloc_block cfg 0 1 4 ;;; a <- alloc_block cfg 0 1 3 ;; b <- alloc_block cfg 0 2 5 ;; ret (a, b)) hs0)
  = Done (Some 32768, Some 32768).
Proof. by vm_compute. Qed.

(** A thread that reserves slabs twice in a row helps itself: the second
    update overwrites [help[id][id]] with the version of the first, and the
    assertion of [detect] fails when the thread recovers. *)
Theorem recover_panics_after_own_help :
  result ((bump cfg 1 ;;; bump cfg 1 ;;; recover_log_of cfg 1) hs0) = Panic.
Proof. by vm_compute. Qed.

(** A thread that has freed a block of its own slab cannot recover: the record
    of a completed [free] stays in the log and its case is [todo!()]. *)
Theorem recover_after_free_panics :
  result ((alloc_block cfg 0 1 3 ;;; alloc_block cfg 0 1 3 ;;; heap_free cfg 1 32768 ;;; recover_log_of cfg 1) hs0)
  = Panic.
Proof. by vm_compute. Qed.
End small.

Section large.
#[local] Existing Instance Large.bracket.
#[local] Existing Instance large_into.

(** Recovery of an interrupted pop from the global stack pushes the slab
    without owning it. Thread 2 allocates from the slab, thread 1, still its
    recorded owner, frees the block as a local one and panics because the slab
    is not in its stacks. *)
Theorem recover_keeps_old_owner :
  let crashed := alloc_block cfg 0 1 8 ;;; heap_free cfg 1 524288 ;;; shared_pop cfg 2 ;;; recover_log_of cfg 2 in
  result ((crashed ;;; p <- alloc_block cfg 0 2 8 ;; l <- get_local 1 ;; ret (p, owner l)) hs0)
    = Done (Some 524288, Some 1) /\
    result ((crashed ;;; alloc_block cfg 0 2 8 ;;; heap_free cfg 1 524288) hs0) = Panic.
Proof. by vm_compute. Qed.
End large.
End Runs.
