(* ===== verification/Text.v ===== *)
(** * Text: the string functions of the Rust standard library the code uses

    Strings are lists of code points or of bytes: UTF-8 decoding and encoding,
    [trim], [parse::<usize>], and [Display] of integers in decimal and
    hexadecimal notation. *)

From Stdlib Require Import ZArith Lia Bool Ascii String.
From stdpp Require Import base numbers option functions strings list.
From S2P Require Import Prelude.
Local Open Scope Z_scope.

(** The bytes of a literal. *)
Definition bytes (s : string) : list Z :=
  (fun c => Z.of_nat (Ascii.nat_of_ascii c)) <$> String.list_ascii_of_string s.

(** ** Decoding and parsing *)

Definition is_cont (b : Z) : bool := (128 <=? b) && (b <? 192).

(** [core::str::from_utf8], to code points. *)
Fixpoint from_utf8 (l : list Z) : option (list Z) :=
  match l with
  | [] => Some []
  | b :: l =>
      if b <? 128 then cons b <$> from_utf8 l
      else match l with
      | [] => None
      | b1 :: l1 =>
          if (194 <=? b) && (b <=? 223) && is_cont b1
          then cons ((b - 192) * 64 + (b1 - 128)) <$> from_utf8 l1
          else match l1 with
          | [] => None
          | b2 :: l2 =>
              let v := (b - 224) * 4096 + (b1 - 128) * 64 + (b2 - 128) in
              if (224 <=? b) && (b <=? 239) && is_cont b1 && is_cont b2
                 && (2048 <=? v) && negb ((55296 <=? v) && (v <=? 57343))
              then cons v <$> from_utf8 l2
              else match l2 with
              | [] => None
              | b3 :: l3 =>
                  let v := (b - 240) * 262144 + (b1 - 128) * 4096 + (b2 - 128) * 64 + (b3 - 128) in
                  if (240 <=? b) && (b <=? 244) && is_cont b1 && is_cont b2 && is_cont b3
                     && (65536 <=? v) && (v <=? 1114111)
                  then cons v <$> from_utf8 l3
                  else None
              end
          end
      end
  end.

(** [char::is_whitespace]. *)
Definition is_whitespace (c : Z) : bool :=
  ((9 <=? c) && (c <=? 13)) || (c =? 32) || (c =? 133) || (c =? 160) || (c =? 5760)
  || ((8192 <=? c) && (c <=? 8202)) || (c =? 8232) || (c =? 8233) || (c =? 8239)
  || (c =? 8287) || (c =? 12288).

Fixpoint trim_start (l : list Z) : list Z :=
  match l with
  | [] => []
  | c :: l' => if is_whitespace c then trim_start l' else l
  end.

Definition trim (l : list Z) : list Z := rev (trim_start (rev (trim_start l))).

(** [str::parse::<usize>]. *)
Fixpoint parse_digits (acc : Z) (l : list Z) : option Z :=
  match l with
  | [] => Some acc
  | c :: l =>
      if (48 <=? c) && (c <=? 57) then
        m ← checked_mul 64 acc 10; acc ← checked_add 64 m (c - 48); parse_digits acc l
      else None
  end.

Definition parse_usize (l : list Z) : option Z :=
  match l with
  | [] => None
  | c :: l' =>
      if c =? 43 then match l' with [] => None | _ => parse_digits 0 l' end
      else parse_digits 0 l
  end.

(** The bytes of a code point. *)
Definition encode_utf8 (c : Z) : list Z :=
  if c <? 128 then [c]
  else if c <? 2048 then [192 + c / 64; 128 + c mod 64]
  else if c <? 65536 then [224 + c / 4096; 128 + c / 64 mod 64; 128 + c mod 64]
  else [240 + c / 262144; 128 + c / 4096 mod 64; 128 + c / 64 mod 64; 128 + c mod 64].

(** ** Searching *)

Fixpoint strip_prefix (pre l : list Z) : option (list Z) :=
  match pre, l with
  | [], _ => Some l
  | c :: pre, d :: l => if c =? d then strip_prefix pre l else None
  | _ :: _, [] => None
  end.

(** [str::trim_start_matches]: as often as the prefix is there; every round
    removes at least a byte. *)
Fixpoint trim_matches (f : nat) (pre l : list Z) : list Z :=
  match f with
  | O => l
  | S f => match strip_prefix pre l with Some l' => trim_matches f pre l' | None => l end
  end.

Definition trim_start_matches (pre l : list Z) : list Z := trim_matches (length l) pre l.

(** [str::split] by a character. *)
Fixpoint split (sep : Z) (l : list Z) : list (list Z) :=
  match l with
  | [] => [[]]
  | c :: l =>
      if c =? sep then [] :: split sep l
      else match split sep l with [] => [[c]] | w :: ws => (c :: w) :: ws end
  end.

(** [Path::file_name]: the last component, if it is a normal one. *)
Definition file_name (path : list Z) : option (list Z) :=
  match rev (List.filter (fun w => negb (bool_decide (w = []) || bool_decide (w = [46]))) (split 47 path)) with
  | [] => None
  | w :: _ => if bool_decide (w = [46; 46]) then None else Some w
  end.

Lemma strip_prefix_app pre l l' : strip_prefix pre l = Some l' <-> l = pre ++ l'.
Proof.
  revert l. induction pre as [|c pre IH]; intros l; simpl; [split; congruence|]. destruct l as [|d l]; [done|].
  destruct (Z.eqb_spec c d) as [->|Hne]; [rewrite IH; split; congruence|]. split; [done|]. intros [= ->]. done.
Qed.

(** All leading copies of the prefix go, and nothing else. *)
Lemma trim_start_matches_spec pre l :
  pre <> [] -> exists n, l = concat (replicate n pre) ++ trim_start_matches pre l /\ strip_prefix pre (trim_start_matches pre l) = None.
Proof.
  intros Hne. unfold trim_start_matches. assert (forall f l, (length l <= f)%nat ->
    exists n, l = concat (replicate n pre) ++ trim_matches f pre l /\ strip_prefix pre (trim_matches f pre l) = None) as H; [|by apply H].
  induction f as [|f IH]; intros l' Hf.
  - destruct l'; [|simpl in Hf; lia]. exists O. split; [done|]. by destruct pre.
  - simpl. destruct (strip_prefix pre l') as [l''|] eqn:E; [|by exists O].
    apply strip_prefix_app in E as ->. rewrite length_app in Hf.
    assert (0 < length pre)%nat by (destruct pre; simpl; [done|lia]).
    destruct (IH l'') as (n & E & Hn); [lia|]. exists (S n). split; [|done]. simpl. rewrite <- app_assoc. by f_equal.
Qed.

(** ** Printing *)

(** [Display] of an unsigned integer; twenty digits are enough for 64 bits. *)
Fixpoint digits (f : nat) (n : Z) : list Z :=
  match f with
  | O => []
  | S f => (if n <? 10 then [] else digits f (n / 10)) ++ [48 + n mod 10]
  end.

Definition is_digit (c : Z) : Prop := 48 <= c <= 57.

Lemma digits_ascii f n : Forall is_digit (digits f n).
Proof.
  revert n. induction f as [|f IH]; intros n; simpl; [done|]. apply Forall_app. split.
  - destruct (n <? 10); [done|apply IH].
  - constructor; [|done]. unfold is_digit. pose proof (Z.mod_pos_bound n 10 ltac:(lia)). lia.
Qed.

Lemma parse_digits_app acc l k : parse_digits acc (l ++ k) = parse_digits acc l ≫= fun a => parse_digits a k.
Proof.
  revert acc. induction l as [|c l IH]; intros acc; simpl; [done|]. destruct (_ && _); [|done].
  destruct (checked_mul 64 acc 10) as [m|]; [|done]. simpl. destruct (checked_add 64 m (c - 48)); [apply IH|done].
Qed.

Lemma parse_digits_digits f n :
  0 <= n < 10 ^ Z.of_nat f -> n < 2 ^ 64 -> parse_digits 0 (digits f n) = Some n.
Proof.
  revert n. induction f as [|f IH]; intros n Hn Hm; [simpl in *; f_equal; lia|]. simpl digits. rewrite parse_digits_app.
  pose proof (Z.mod_pos_bound n 10 ltac:(lia)) as Hmod. pose proof (Z.div_mod n 10 ltac:(lia)) as Hdm.
  assert (parse_digits 0 (if n <? 10 then [] else digits f (n / 10)) = Some (n / 10)) as ->.
  { destruct (n <? 10) eqn:E; [simpl; f_equal; symmetry; apply Z.div_small; lia|]. apply IH; [|lia].
    split; [lia|]. apply Z.div_lt_upper_bound; [lia|]. rewrite Nat2Z.inj_succ, Z.pow_succ_r in Hn; lia. }
  cbn [mbind option_bind parse_digits]. destruct (_ && _) eqn:E1; [|lia].
  unfold checked_mul, checked_add. destruct (n / 10 * 10 <? _) eqn:E2; [|lia]. cbn [mbind option_bind].
  destruct (n / 10 * 10 + _ <? _) eqn:E3; [|lia]. cbn [mbind option_bind]. f_equal. lia.
Qed.

Lemma from_utf8_ascii l : Forall (fun c => 0 <= c < 128) l -> from_utf8 l = Some l.
Proof.
  induction 1 as [|c l Hc Hl IH]; [done|]. cbn [from_utf8]. destruct (c <? 128) eqn:E; [|lia]. by rewrite IH.
Qed.

Lemma trim_start_digits l : Forall is_digit l -> trim_start l = l.
Proof.
  intros Hl. destruct Hl as [|c l Hc Hl]; [done|]. simpl. unfold is_digit in Hc. assert (is_whitespace c = false) as ->; [|done].
  unfold is_whitespace. repeat (apply orb_false_iff; split); lia.
Qed.

Lemma trim_line l : Forall is_digit l -> l <> [] -> trim (l ++ [10]) = l.
Proof.
  intros Hl Hne. unfold trim. assert (trim_start (l ++ [10]) = l ++ [10]) as ->.
  { destruct l as [|c l]; [done|]. apply Forall_cons in Hl as [Hc _]. simpl.
    pose proof (trim_start_digits [c] ltac:(by constructor)) as H. simpl in H. by destruct (is_whitespace c). }
  rewrite rev_app_distr. simpl. rewrite trim_start_digits by (by apply Forall_rev). apply rev_involutive.
Qed.

Lemma length_digits f n : (length (digits f n) <= f)%nat.
Proof.
  revert n. induction f as [|f IH]; intros n; [done|]. cbn [digits]. rewrite length_app. simpl.
  destruct (n <? 10); [simpl; lia|]. specialize (IH (n / 10)). lia.
Qed.

Lemma digits_inj n m :
  0 <= n < 2 ^ 64 -> 0 <= m < 2 ^ 64 -> digits 20 n = digits 20 m -> n = m.
Proof.
  intros Hn Hm E. pose proof (parse_digits_digits 20 n ltac:(simpl; lia) ltac:(lia)) as H1.
  pose proof (parse_digits_digits 20 m ltac:(simpl; lia) ltac:(lia)) as H2. congruence.
Qed.

(** [{:#x}]: lower-case hexadecimal with its prefix. *)
Definition hex_char (d : Z) : Z := if d <? 10 then 48 + d else 87 + d.

Fixpoint hex_digits (f : nat) (n : Z) : list Z :=
  match f with
  | O => []
  | S f => (if n <? 16 then [] else hex_digits f (n / 16)) ++ [hex_char (n mod 16)]
  end.

Definition hex (n : Z) : list Z := bytes "0x" ++ hex_digits 16 n.

(** Reads hexadecimal digits back. *)
Definition hex_value (l : list Z) : Z :=
  fold_left (fun acc c => acc * 16 + if c <? 58 then c - 48 else c - 87) l 0.

Lemma hex_value_digits f n : 0 <= n < 16 ^ Z.of_nat f -> hex_value (hex_digits f n) = n.
Proof.
  unfold hex_value. revert n. induction f as [|f IH]; intros n Hn; [simpl in *; lia|].
  cbn [hex_digits]. rewrite fold_left_app. cbn [fold_left]. pose proof (Z.mod_pos_bound n 16 ltac:(lia)) as Hm.
  pose proof (Z.div_mod n 16 ltac:(lia)) as Hd.
  assert (fold_left (fun acc c => acc * 16 + (if c <? 58 then c - 48 else c - 87)) (if n <? 16 then [] else hex_digits f (n / 16)) 0 = n / 16) as ->.
  { destruct (n <? 16) eqn:E; [simpl; symmetry; apply Z.div_small; lia|]. apply IH. split; [lia|].
    apply Z.div_lt_upper_bound; [lia|]. rewrite Nat2Z.inj_succ, Z.pow_succ_r in Hn; lia. }
  unfold hex_char. destruct (n mod 16 <? 10) eqn:E1; [destruct (48 + _ <? 58) eqn:E2|destruct (87 + _ <? 58) eqn:E2]; lia.
Qed.

Lemma hex_inj n m : 0 <= n < 2 ^ 64 -> 0 <= m < 2 ^ 64 -> hex n = hex m -> n = m.
Proof.
  intros Hn Hm E. unfold hex in E. apply app_inv_head in E.
  rewrite <- (hex_value_digits 16 n), <- (hex_value_digits 16 m) by (simpl; lia). by rewrite E.
Qed.

Lemma hex_ascii n : Forall (fun c => 0 < c < 128) (hex n) /\ (length (hex n) <= 18)%nat.
Proof.
  assert (forall f m, Forall (fun c => 0 < c < 128) (hex_digits f m) /\ (length (hex_digits f m) <= f)%nat) as H.
  { induction f as [|f IH]; intros m; cbn [hex_digits]; [split; [constructor|simpl; lia]|].
    pose proof (Z.mod_pos_bound m 16 ltac:(lia)) as Hm.
    assert (0 < hex_char (m mod 16) < 128) as Hc by (unfold hex_char; destruct (_ <? _); lia).
    split.
    - apply Forall_app. split; [destruct (m <? 16); [constructor|apply IH]|by constructor].
    - rewrite length_app. simpl. destruct (m <? 16); [simpl; lia|]. pose proof (proj2 (IH (m / 16))). lia. }
  unfold hex. destruct (H 16%nat n) as [H1 H2]. split.
  - apply Forall_app. split; [vm_compute; repeat constructor|done].
  - rewrite length_app. simpl length at 1. lia.
Qed.

#[global] Arguments digits : simpl never.
#[global] Arguments hex : simpl never.
