(* ===== verification/DaxArena.v ===== *)
(** * DaxArena: the extent allocator of the preload library
    (cxlalloc-preload/src/dax_arena.rs)

    Large mappings are served first-fit from one device mapping; at most
    [MAX_EXTENTS] extents are live. The state lives in shared memory behind a
    robust process-shared mutex: each operation is one atomic step, given the
    return codes of [pthread_mutex_lock] and [pthread_mutex_consistent]. *)

From Stdlib Require Import ZArith Lia Bool Ascii String.
From stdpp Require Import base numbers option gmap functions strings list.
From S2P Require Import Prelude Text.
Local Open Scope Z_scope.
Local Open Scope prog_scope.
Local Open Scope res_scope.

Definition MAX_EXTENTS : nat := 128.

Inductive ArenaError :=
| InvalidAlignment
| InvalidDevice
| InvalidPointer
| OutOfMemory
| Overflow
| System (code : Z).

#[global] Instance ArenaError_eq_dec : EqDecision ArenaError.
Proof. solve_decision. Defined.

Record Extent := mkExtent {
  offset : Z;
  rounded_len : Z;
  requested_len : Z;
  active : bool;
}.

Definition EMPTY : Extent := mkExtent 0 0 0 false.

(** [DaxArena], with the [extents] of its [SharedState]. *)
Record DaxArena := mkArena {
  mapping : Z;
  mapping_len : Z;
  base : Z;
  size : Z;
  alignment : Z;
  extents : list Extent;
}.

Definition set_extents (l : list Extent) (a : DaxArena) : DaxArena :=
  mkArena (mapping a) (mapping_len a) (base a) (size a) (alignment a) l.

(** [Result<_, ArenaError>] on top of the state-passing programs. *)
Abbreviation Res St A := (M St (ArenaError + A)).

(** ** Alignment *)

(** [v & !(alignment - 1)] is [Z.ldiff]. *)
Definition align_up (value al : Z) : option Z :=
  m ← checked_sub al 1; v ← checked_add 64 value m; Some (Z.ldiff v (al - 1)).

Definition aligned_offset (bs off al : Z) : option Z :=
  absolute ← checked_add 64 bs off; up ← align_up absolute al; checked_sub up bs.

(** ** The mutex *)

(** [libc::EOWNERDEAD] on Linux. *)
Definition EOWNERDEAD : Z := 130.

(** [DaxArena::lock], for the return codes of [pthread_mutex_lock] and
    [pthread_mutex_consistent]. *)
Definition lock (codes : Z * Z) : Res DaxArena unit :=
  if codes.1 =? EOWNERDEAD then
    if codes.2 =? 0 then ok tt else err (System codes.2)
  else if codes.1 =? 0 then ok tt else err (System codes.1).

(** ** Operations *)

(** [Iterator::position]. *)
Fixpoint position {A} (f : A -> bool) (l : list A) : option nat :=
  match l with
  | [] => None
  | x :: l => if f x then Some O else S <$> position f l
  end.

(** [Iterator::min_by_key] on the offset: the first of the least elements. *)
Fixpoint min_by_offset (l : list Extent) : option Extent :=
  match l with
  | [] => None
  | e :: l =>
      match min_by_offset l with
      | None => Some e
      | Some e' => if offset e <=? offset e' then Some e else Some e'
      end
  end.

(** The first active extent at or after [candidate]. *)
Definition next_extent (l : list Extent) (candidate : Z) : option Extent :=
  min_by_offset (List.filter (fun e => active e && (candidate <=? offset e)) l).

(** The [loop] of [DaxArena::allocate]; [dbg] is for overflow checks. *)
Fixpoint search (dbg : bool) (n : nat) (a : DaxArena) (rlen al candidate : Z) : outcome (ArenaError + Z) :=
  match n with
  | O => Diverge
  | S n =>
      match aligned_offset (base a) candidate al with
      | None => Done (inl Overflow)
      | Some candidate =>
          match next_extent (extents a) candidate with
          | None => Done (inr candidate)
          | Some e =>
              obind (arith dbg 64 (candidate + rlen)) (fun end_ =>
              if end_ <=? offset e then Done (inr candidate)
              else match checked_add 64 (offset e) (rounded_len e) with
                   | None => Done (inl Overflow)
                   | Some c => search dbg n a rlen al c
                   end)
          end
      end
  end.

(** Each round moves past one more active extent, so one round more than there
    are slots is enough (proved below). *)
Definition search_fuel : nat := S (S MAX_EXTENTS).

Definition allocate (dbg : bool) (codes : Z * Z) (sz al : Z) : Res DaxArena Z :=
  if negb (is_power_of_two al) then err InvalidAlignment
  else
    a <- gets (fun a => a) ;;
    let rq := Z.max sz 1 in
    rlen <?- ok_or (align_up rq (alignment a)) Overflow ;;
    let allocation_alignment := Z.max al (alignment a) in
    _ <?- lock codes ;;
    slot <?- ok_or (position (fun e => negb (active e)) (extents a)) OutOfMemory ;;
    candidate <?- lift (search dbg search_fuel a rlen allocation_alignment 0) ;;
    match checked_add 64 candidate rlen with
    | Some end_ =>
        if end_ <=? size a then
          modify (fun a => set_extents (<[slot := mkExtent candidate rlen rq true]> (extents a)) a) ;;;
          assert_ (negb (base a + candidate =? 0)) ;;;
          ok (base a + candidate)
        else err OutOfMemory
    | None => err OutOfMemory
    end.

Definition pointer_offset (a : DaxArena) (p : Z) : option Z :=
  off ← checked_sub p (base a); if off <? size a then Some off else None.

Definition owns (a : DaxArena) (p : Z) : bool :=
  match pointer_offset a p with Some _ => true | None => false end.

(** The closure of the two [find]s. *)
Definition at_offset (off : Z) (e : Extent) : bool := active e && (offset e =? off).

Definition deallocate (codes : Z * Z) (p : Z) : Res DaxArena unit :=
  a <- gets (fun a => a) ;;
  off <?- ok_or (pointer_offset a p) InvalidPointer ;;
  _ <?- lock codes ;;
  slot <?- ok_or (position (at_offset off) (extents a)) InvalidPointer ;;
  modify (fun a => set_extents (<[slot := EMPTY]> (extents a)) a) ;;;
  ok tt.

Definition allocation_size (codes : Z * Z) (p : Z) : M DaxArena (option Z) :=
  a <- gets (fun a => a) ;;
  match pointer_offset a p with
  | None => ret None
  | Some off =>
      r <- lock codes ;;
      match r with
      | inl _ => ret None
      | inr _ => ret (requested_len <$> List.find (at_offset off) (extents a))
      end
  end.

(** ** Reading the device's parameters *)

Definition parse_sysfs_usize (contents : list Z) : ArenaError + Z :=
  match from_utf8 contents with
  | None => inl InvalidDevice
  | Some text =>
      match parse_usize (trim text) with
      | None => inl InvalidDevice
      | Some value => if value =? 0 then inl InvalidDevice else inr value
      end
  end.

(** [Iterator::rposition] of ['/'], and the part after it. *)
Definition slash : Z := 47.

Fixpoint after_last_slash (l acc : list Z) : list Z :=
  match l with
  | [] => rev acc
  | c :: l => if c =? slash then after_last_slash l [] else after_last_slash l (c :: acc)
  end.

(** A [CStr] is its bytes without the terminating nul. *)
Definition device_name (path : list Z) : ArenaError + list Z :=
  match after_last_slash path [] with
  | [] => inl InvalidDevice
  | name => inr name
  end.

(** ** Opening an arena *)

(** What the system calls answer. [open], [flock], [mmap] and [fs::read] give
    an error number on failure, the [pthread] calls a return code; [mmap]
    depends on the length asked for, a read on the path. *)
Record Os := mkOs {
  os_open : Z + Z;
  os_flock : option Z;
  os_read : list Z -> Z + list Z;
  os_mmap : Z -> Z + Z;
  os_mutexattr_init : Z;
  os_setpshared : Z;
  os_setrobust : Z;
  os_mutex_init : Z;
  os_sysconf_page : Z;
}.

Section open.
Context (os : Os).

(** The mappings of the process, with their lengths. *)
Abbreviation Maps := (list (Z * Z)).

Definition page_size : Z :=
  if (0 <=? os_sysconf_page os) && negb (os_sysconf_page os =? 0) then os_sysconf_page os else 4096.

Definition mmap (len : Z) : Res Maps Z :=
  match os_mmap os len with
  | inl e => err (System e)
  | inr p =>
      modify (cons (p, len)) ;;;
      assert_ (negb (p =? 0)) ;;;
      ok p
  end.

Definition munmap (p len : Z) : M Maps unit :=
  modify (List.filter (fun x => negb ((x.1 =? p) && (x.2 =? len)))).

(** [mem::size_of::<SharedState>()]: the mutex has 40 bytes, an extent 32. *)
Definition SIZE_STATE : Z := 40 + Z.of_nat MAX_EXTENTS * 32.

(** [create_shared_state]: the zeroed page is an array of [EMPTY] extents. *)
Definition create_shared_state : Res Maps (list Extent) :=
  p <?- mmap SIZE_STATE ;;
  let result := os_mutexattr_init os in
  let result := if result =? 0 then os_setpshared os else result in
  let result := if result =? 0 then os_setrobust os else result in
  let result := if result =? 0 then os_mutex_init os else result in
  if negb (result =? 0) then
    munmap p SIZE_STATE ;;; err (System result)
  else ok (replicate MAX_EXTENTS EMPTY).

(** The [match create_shared_state()] of the two constructors. *)
Definition state_or_unmap (p len : Z) : Res Maps (list Extent) :=
  r <- create_shared_state ;;
  match r with
  | inr st => ok st
  | inl e => munmap p len ;;; err e
  end.

Definition new_anonymous (sz al : Z) : Res Maps DaxArena :=
  if (sz =? 0) || negb (is_power_of_two al) then err InvalidAlignment
  else
    len <?- ok_or (checked_add 64 sz (al - 1)) Overflow ;;
    p <?- mmap len ;;
    aligned <?- ok_or (align_up p al) Overflow ;;
    st <?- state_or_unmap p len ;;
    assert_ (negb (aligned =? 0)) ;;;
    ok (mkArena p len aligned sz al st).

Definition read_sysfs_usize (path : list Z) : ArenaError + Z :=
  match os_read os path with
  | inl e => inl (System e)
  | inr contents => parse_sysfs_usize contents
  end.

Definition open (path : list Z) : Res Maps DaxArena :=
  match os_open os with
  | inl e => err (System e)
  | inr _ =>
      match os_flock os with
      | Some e => err (System e)
      | None =>
          name <?- ret (device_name path) ;;
          _ <?- ok_or (from_utf8 name) InvalidDevice ;;
          sz <?- ret (read_sysfs_usize (bytes "/sys/bus/dax/devices/" ++ name ++ bytes "/size")) ;;
          al <?- ret (read_sysfs_usize (bytes "/sys/bus/dax/devices/" ++ name ++ bytes "/align")) ;;
          if negb (is_power_of_two al) || (al <? page_size) || (sz <? al) then err InvalidAlignment
          else
            p <?- mmap sz ;;
            aligned <?- ok_or (align_up p al) Overflow ;;
            let prefix := aligned - p in
            usable <?- ok_or (checked_sub sz prefix) OutOfMemory ;;
            st <?- state_or_unmap p sz ;;
            assert_ (negb (aligned =? 0)) ;;;
            ok (mkArena p sz aligned usable al st)
      end
  end.
End open.

(** ** Examples: the tests of the source file *)
Example test_device_name : device_name (bytes "/dev/dax0.0") = inr (bytes "dax0.0").
Proof. reflexivity. Qed.

Example test_parse :
  parse_sysfs_usize (bytes "262144000" ++ [10]) = inr 262144000 /\
  parse_sysfs_usize (bytes "not-a-size" ++ [10]) = inl InvalidDevice.
Proof. split; reflexivity. Qed.

(** ** The invariant *)

(** The extent [[o, o + n)] does not meet [e]. *)
Definition clear_of (o n : Z) (e : Extent) : Prop :=
  o + n <= offset e \/ offset e + rounded_len e <= o.

(** A free place for [n] bytes at offset [o]. *)
Definition fits (a : DaxArena) (n o : Z) : Prop :=
  0 <= o /\ (alignment a | o) /\ o + n <= size a /\
  forall e, e ∈ extents a -> active e = true -> clear_of o n e.

Definition extent_ok (a : DaxArena) (e : Extent) : Prop :=
  0 <= offset e /\ (alignment a | offset e) /\ 0 < requested_len e <= rounded_len e /\
  (alignment a | rounded_len e) /\ offset e + rounded_len e <= size a.

Record arena_ok (a : DaxArena) : Prop := {
  ok_slots : length (extents a) = MAX_EXTENTS;
  ok_align : exists k, 0 <= k /\ alignment a = 2 ^ k;
  ok_base : 0 < base a /\ (alignment a | base a);
  ok_size : 0 <= size a /\ base a + size a + alignment a <= 2 ^ 64;
  ok_extent : forall i e, extents a !! i = Some e -> active e = true -> extent_ok a e;
  ok_empty : forall i e, extents a !! i = Some e -> active e = false -> e = EMPTY;
  ok_disjoint : forall i j e e', i <> j -> extents a !! i = Some e -> extents a !! j = Some e' ->
    active e = true -> active e' = true -> clear_of (offset e) (rounded_len e) e';
}.

(** ** Alignment lemmas *)

Lemma align_up_pow2 k v :
  0 <= k -> 0 <= v -> v + 2 ^ k - 1 < 2 ^ 64 ->
  align_up v (2 ^ k) = Some (2 ^ k * ((v + 2 ^ k - 1) / 2 ^ k)).
Proof.
  intros Hk Hv Hb. pose proof (Z.pow_pos_nonneg 2 k ltac:(lia) Hk) as Hp.
  unfold align_up, checked_sub. destruct (1 <=? 2 ^ k) eqn:E; [|lia]. cbn [mbind option_bind].
  unfold checked_add. destruct (v + (2 ^ k - 1) <? 2 ^ 64) eqn:E2; [|lia]. cbn [mbind option_bind].
  replace (2 ^ k - 1) with (Z.ones k) by (rewrite Z.ones_equiv; lia).
  rewrite Z.ldiff_ones_r, Z.shiftl_mul_pow2, Z.shiftr_div_pow2 by lia. rewrite Z.ones_equiv. f_equal.
  rewrite Z.mul_comm. do 2 f_equal. lia.
Qed.

(** The least multiple of the alignment not below [v]. *)
Lemma align_up_spec k v :
  0 <= k -> 0 <= v -> v + 2 ^ k - 1 < 2 ^ 64 ->
  exists u, align_up v (2 ^ k) = Some u /\ (2 ^ k | u) /\ v <= u < v + 2 ^ k.
Proof.
  intros Hk Hv Hb. pose proof (Z.pow_pos_nonneg 2 k ltac:(lia) Hk) as Hp. eexists.
  split; [by apply align_up_pow2|]. split; [apply Z.divide_factor_l|].
  pose proof (Z.div_mod (v + 2 ^ k - 1) (2 ^ k) ltac:(lia)). pose proof (Z.mod_pos_bound (v + 2 ^ k - 1) (2 ^ k) Hp). lia.
Qed.

Lemma align_up_fix k v :
  0 <= k -> 0 <= v -> v + 2 ^ k - 1 < 2 ^ 64 -> (2 ^ k | v) -> align_up v (2 ^ k) = Some v.
Proof.
  intros Hk Hv Hb [q ->]. pose proof (Z.pow_pos_nonneg 2 k ltac:(lia) Hk) as Hp.
  rewrite align_up_pow2 by lia. f_equal. rewrite (Z.mul_comm q).
  replace (2 ^ k * q + 2 ^ k - 1) with (q * 2 ^ k + (2 ^ k - 1)) by lia.
  rewrite Z.div_add_l, Z.div_small by lia. lia.
Qed.

(** Multiples of the alignment that are less than one unit apart. *)
Lemma mult_gap al x y : 0 < al -> (al | x) -> (al | y) -> x < y -> x + al <= y.
Proof. intros Ha [q ->] [r ->] H. apply Z.mul_lt_mono_pos_r in H; [|done]. assert ((q + 1) * al <= r * al) by (apply Z.mul_le_mono_nonneg_r; lia). lia. Qed.

(** ** The search *)
Lemma min_by_offset_spec l :
  match min_by_offset l with
  | None => l = []
  | Some e => e ∈ l /\ forall e', e' ∈ l -> offset e <= offset e'
  end.
Proof.
  induction l as [|e l IH]; [done|]. simpl. destruct (min_by_offset l) as [m|].
  - destruct IH as [Hin Hmin]. destruct (offset e <=? offset m) eqn:E; (split; [set_solver by lia|]).
    + intros e' [->|He]%elem_of_cons; [lia|]. specialize (Hmin _ He). lia.
    + intros e' [->|He]%elem_of_cons; [lia|auto].
  - subst. split; [set_solver|]. intros e' ->%list_elem_of_singleton. lia.
Qed.

Lemma next_extent_spec l c :
  match next_extent l c with
  | None => forall e, e ∈ l -> active e = true -> offset e < c
  | Some e => (e ∈ l /\ active e = true /\ c <= offset e) /\
      forall e', e' ∈ l -> active e' = true -> c <= offset e' -> offset e <= offset e'
  end.
Proof.
  unfold next_extent. pose proof (min_by_offset_spec (List.filter (fun e => active e && (c <=? offset e)) l)) as H.
  assert (forall e, e ∈ List.filter (fun e => active e && (c <=? offset e)) l <-> e ∈ l /\ active e = true /\ c <= offset e) as Hf.
  { intros e. rewrite !list_elem_of_In, List.filter_In, andb_true_iff, Z.leb_le. done. }
  destruct (min_by_offset _) as [m|].
  - destruct H as [Hin Hmin]. split; [by apply Hf|]. intros e' H1 H2 H3. apply Hmin, Hf. auto.
  - intros e He Ha. destruct (Z.lt_ge_cases (offset e) c) as [|Hge]; [done|].
    assert (e ∈ ([] : list Extent)) as []%not_elem_of_nil. rewrite <- H. by apply Hf.
Qed.

(** The active extents still ahead of the search. *)
Definition ahead (l : list Extent) (c : Z) : nat :=
  length (List.filter (fun e => active e && (c <=? offset e)) l).

Lemma ahead_le l c : (ahead l c <= length l)%nat.
Proof. apply List.filter_length_le. Qed.

Lemma filter_length_mono {A} (f g : A -> bool) l :
  (forall x, g x = true -> f x = true) -> (length (List.filter g l) <= length (List.filter f l))%nat.
Proof.
  intros H. induction l as [|x l IH]; [done|]. simpl. destruct (g x) eqn:Eg; [rewrite (H x Eg); simpl; lia|].
  destruct (f x); simpl; lia.
Qed.

Lemma filter_length_lt {A} (f g : A -> bool) l x :
  (forall x, g x = true -> f x = true) -> x ∈ l -> f x = true -> g x = false ->
  (length (List.filter g l) < length (List.filter f l))%nat.
Proof.
  intros H Hin Hf Hg. induction l as [|y l IH]; [by apply elem_of_nil in Hin|]. simpl.
  apply elem_of_cons in Hin as [<-|Hin].
  - rewrite Hf, Hg. simpl. pose proof (filter_length_mono f g l H). lia.
  - specialize (IH Hin). destruct (g y) eqn:Eg; [rewrite (H y Eg); simpl; lia|]. destruct (f y); simpl; lia.
Qed.

Lemma ahead_lt l e c c' :
  e ∈ l -> active e = true -> c <= offset e < c' -> (ahead l c' < ahead l c)%nat.
Proof.
  intros He Ha Hc. apply (filter_length_lt _ _ _ e); [|done|rewrite Ha; apply Z.leb_le; lia|rewrite Ha; apply Z.leb_gt; lia].
  intros x. rewrite !andb_true_iff, !Z.leb_le. intros [? ?]. split; [done|lia].
Qed.

Section search.
Context (a : DaxArena) (HA : arena_ok a) (rlen : Z) (Hr : 0 < rlen) (Hsum : rlen + size a < 2 ^ 64).

Lemma extent_of e : e ∈ extents a -> active e = true -> extent_ok a e.
Proof. intros [i Hi]%list_elem_of_lookup. by apply (ok_extent _ HA i). Qed.

Lemma aligned_offset_fix c :
  0 <= c <= size a -> (alignment a | c) -> aligned_offset (base a) c (alignment a) = Some c.
Proof.
  intros Hc Hd. destruct (ok_align _ HA) as (k & Hk & Ek). pose proof (ok_base _ HA) as [Hb Hbd].
  pose proof (ok_size _ HA) as [Hs Hbs]. rewrite Ek in *. unfold aligned_offset, checked_add.
  pose proof (Z.pow_pos_nonneg 2 k ltac:(lia) Hk).
  destruct (base a + c <? 2 ^ 64) eqn:E; [|lia]. cbn [mbind option_bind].
  rewrite (align_up_fix k) by (try lia; by apply Z.divide_add_r). cbn [mbind option_bind].
  apply checked_sub_Some. lia.
Qed.

(** Extents end at or before the candidate, or start at or after it. *)
Definition split_at (c : Z) : Prop :=
  forall e, e ∈ extents a -> active e = true -> offset e + rounded_len e <= c \/ c <= offset e.

Lemma split_after e : e ∈ extents a -> active e = true -> split_at (offset e + rounded_len e).
Proof.
  intros He Ha e' He' Ha'. apply list_elem_of_lookup in He as [i Hi], He' as [j Hj].
  destruct (decide (i = j)) as [<-|Hne]; [left; by simplify_eq|].
  destruct (ok_disjoint _ HA i j e e' Hne Hi Hj Ha Ha') as [H|H]; [by right|left].
  pose proof (ok_extent _ HA i e Hi Ha) as (_ & _ & ? & _). lia.
Qed.

Lemma search_spec dbg n c :
  (ahead (extents a) c < n)%nat -> 0 <= c <= size a -> (alignment a | c) -> split_at c ->
  (forall o, fits a rlen o -> c <= o) ->
  exists r, search dbg n a rlen (alignment a) c = Done (inr r) /\ 0 <= r <= size a /\ (alignment a | r) /\
    (forall e, e ∈ extents a -> active e = true -> clear_of r rlen e) /\ (forall o, fits a rlen o -> r <= o).
Proof.
  revert c. induction n as [|n IH]; intros c Hn Hc Hd Hsp Hmin; [lia|]. simpl. rewrite aligned_offset_fix by done.
  pose proof (next_extent_spec (extents a) c) as HN. destruct (next_extent (extents a) c) as [e|].
  - destruct HN as [(He & Hae & Hce) Hleast]. pose proof (extent_of e He Hae) as (Ho & Hod & Hq & Hrd & Hend).
    pose proof (ok_size _ HA) as [_ Hbs]. pose proof (ok_base _ HA) as [Hb _].
    rewrite arith_ok by (unfold in_range; lia). cbn [obind]. destruct (c + rlen <=? offset e) eqn:E.
    + exists c. split_and!; [done|lia|lia|done| |done]. intros e' He' Ha'. destruct (Hsp e' He' Ha') as [?|?]; [by right|left].
      specialize (Hleast e' He' Ha'). lia.
    + unfold checked_add. destruct (_ <? _) eqn:E2; [|lia]. apply IH.
      * pose proof (ahead_lt (extents a) e c (offset e + rounded_len e) He Hae). lia.
      * lia.
      * by apply Z.divide_add_r.
      * by apply split_after.
      * intros o Hf. specialize (Hmin o Hf). destruct Hf as (_ & _ & _ & Hcl). destruct (Hcl e He Hae); lia.
  - exists c. split_and!; [done|lia|lia|done| |done]. intros e He Ha. specialize (HN e He Ha).
    right. destruct (Hsp e He Ha); lia.
Qed.
End search.

Lemma first_index_spec {A} (f : A -> bool) l :
  match position f l with
  | Some i => exists x, l !! i = Some x /\ f x = true
  | None => forall x, x ∈ l -> f x = false
  end.
Proof.
  induction l as [|x l IH]; [intros x Hx; by apply elem_of_nil in Hx|]. simpl. destruct (f x) eqn:E; [by exists x|].
  destruct (position f l) as [i|]; simpl; [done|]. intros y [->|Hy]%elem_of_cons; auto.
Qed.

Definition lock_ok (codes : Z * Z) : Prop := codes.1 = 0 \/ codes = (EOWNERDEAD, 0).

Lemma lock_ok_eq codes a : lock_ok codes -> lock codes a = Done (a, inr tt).
Proof. destruct codes as [x y]. unfold lock_ok, lock. simpl. intros [->|[= -> ->]]; reflexivity. Qed.

(** Storing a fitting extent keeps the invariant. *)
Lemma arena_ok_insert a i e rlen rq o :
  arena_ok a -> extents a !! i = Some e -> active e = false -> fits a rlen o ->
  0 < rq <= rlen -> (alignment a | rlen) ->
  arena_ok (set_extents (<[i := mkExtent o rlen rq true]> (extents a)) a).
Proof.
  intros HA Hi He (Ho & Hod & Hend & Hcl) Hrq Hrd. split; simpl; try apply HA.
  - rewrite length_insert. apply HA.
  - intros j e' Hj Ha. apply list_lookup_insert_Some in Hj as [(<- & <- & _)|[_ Hj]];
      [unfold extent_ok; simpl; split_and!; first [done|lia]|].
    by apply (ok_extent _ HA j).
  - intros j e' Hj Ha. apply list_lookup_insert_Some in Hj as [(<- & <- & _)|[_ Hj]]; [done|by apply (ok_empty _ HA j)].
  - intros j k e1 e2 Hne Hj Hk H1 H2.
    apply list_lookup_insert_Some in Hj as [(<- & <- & _)|[_ Hj]], Hk as [(<- & <- & _)|[_ Hk]].
    + done.
    + simpl. apply Hcl; [by eapply list_elem_of_lookup_2|done].
    + destruct (Hcl e1 (list_elem_of_lookup_2 _ _ _ Hj) H1) as [H|H]; [by right|by left].
    + by apply (ok_disjoint _ HA j k).
Qed.

Lemma arena_ok_clear a i :
  arena_ok a -> arena_ok (set_extents (<[i := EMPTY]> (extents a)) a).
Proof.
  intros HA. split; simpl; try apply HA.
  - rewrite length_insert. apply HA.
  - intros j e' Hj Ha. apply list_lookup_insert_Some in Hj as [(<- & <- & _)|[_ Hj]]; [done|by apply (ok_extent _ HA j)].
  - intros j e' Hj Ha. apply list_lookup_insert_Some in Hj as [(<- & <- & _)|[_ Hj]]; [done|by apply (ok_empty _ HA j)].
  - intros j k e1 e2 Hne Hj Hk H1 H2.
    apply list_lookup_insert_Some in Hj as [(<- & <- & _)|[_ Hj]]; [done|].
    apply list_lookup_insert_Some in Hk as [(<- & <- & _)|[_ Hk]]; [done|].
    by apply (ok_disjoint _ HA j k).
Qed.

(** The rounded length of a request. *)
Definition rounded (a : DaxArena) (sz : Z) : Z := alignment a * ((Z.max sz 1 + alignment a - 1) / alignment a).

Lemma arena_rounded_spec a sz :
  arena_ok a -> 0 <= sz -> sz + size a + alignment a < 2 ^ 64 ->
  align_up (Z.max sz 1) (alignment a) = Some (rounded a sz) /\ (alignment a | rounded a sz) /\
  Z.max sz 1 <= rounded a sz < sz + 1 + alignment a.
Proof.
  intros HA Hsz Hb. destruct (ok_align _ HA) as (k & Hk & Ek). pose proof (ok_size _ HA) as [? _].
  pose proof (Z.pow_pos_nonneg 2 k ltac:(lia) Hk) as Hp. unfold rounded. rewrite Ek in *.
  destruct (align_up_spec k (Z.max sz 1) Hk ltac:(lia) ltac:(lia)) as (u & E & Hd & Hu).
  rewrite align_up_pow2 in E by lia. injection E as <-. rewrite align_up_pow2 by lia. split_and!; [done|done|lia|lia].
Qed.

(** [allocate] once the guards have passed. *)
Lemma allocate_unfold a dbg codes sz al rlen :
  lock_ok codes -> is_power_of_two al = true -> al <= alignment a ->
  align_up (Z.max sz 1) (alignment a) = Some rlen ->
  allocate dbg codes sz al a =
    match position (fun e => negb (active e)) (extents a) with
    | None => Done (a, inl OutOfMemory)
    | Some slot =>
        obind (search dbg search_fuel a rlen (alignment a) 0) (fun r =>
        match r with
        | inl e => Done (a, inl e)
        | inr o =>
            match checked_add 64 o rlen with
            | Some end_ =>
                if end_ <=? size a then
                  obind (assert_ (negb (base a + o =? 0)) (set_extents (<[slot := mkExtent o rlen (Z.max sz 1) true]> (extents a)) a))
                    (fun p => Done (p.1, inr (base a + o)))
                else Done (a, inl OutOfMemory)
            | None => Done (a, inl OutOfMemory)
            end
        end)
    end.
Proof.
  intros HL Hp Hle Er. unfold allocate. rewrite Hp. cbn [negb].
  unfold ebind, ok_or, gets, lift, modify, bind, ok, ret. cbn [obind fst snd]. rewrite Er. cbn [obind fst snd].
  rewrite lock_ok_eq by done. cbn [obind fst snd]. rewrite (Z.max_r al) by done.
  destruct (position _ (extents a)) as [i|]; [|done]. cbn [obind fst snd].
  destruct (search _ _ _ _ _ _) as [[e|o]| | |]; try done. cbn [obind fst snd].
  destruct (checked_add 64 o rlen); [|done]. by destruct (_ <=? _).
Qed.

(** [allocate] on a request that needs no more than the arena's alignment. *)
Lemma allocate_run a dbg codes sz al :
  arena_ok a -> lock_ok codes -> is_power_of_two al = true -> al <= alignment a ->
  0 <= sz -> sz + 1 + size a + alignment a < 2 ^ 64 ->
  (exists i e o, extents a !! i = Some e /\ active e = false /\ fits a (rounded a sz) o /\
     (forall o', fits a (rounded a sz) o' -> o <= o') /\
     allocate dbg codes sz al a =
       Done (set_extents (<[i := mkExtent o (rounded a sz) (Z.max sz 1) true]> (extents a)) a, inr (base a + o)))
  \/ (allocate dbg codes sz al a = Done (a, inl OutOfMemory) /\
       ((forall e, e ∈ extents a -> active e = true) \/ forall o, ~ fits a (rounded a sz) o)).
Proof.
  intros HA HL Hp Hle Hsz Hb. destruct (arena_rounded_spec a sz HA Hsz ltac:(lia)) as (Er & Hrd & Hrb).
  rewrite (allocate_unfold a dbg codes sz al _ HL Hp Hle Er).
  pose proof (first_index_spec (fun e => negb (active e)) (extents a)) as HP.
  destruct (position _ (extents a)) as [i|].
  2: { right. split; [done|]. left. intros e He. specialize (HP e He). by apply negb_false_iff. }
  destruct HP as (e & Hi & He). apply negb_true_iff in He. pose proof (ok_size _ HA) as [Hs Hbs].
  destruct (search_spec a HA (rounded a sz) ltac:(lia) ltac:(lia) dbg search_fuel 0) as (o & Eo & Ho & Hod & Hcl & Hmin).
  { pose proof (ahead_le (extents a) 0). rewrite (ok_slots _ HA) in *. unfold search_fuel. lia. }
  { lia. }
  { apply Z.divide_0_r. }
  { intros e' He' Ha'. right. by apply (extent_of a HA). }
  { by intros o [? _]. }
  rewrite Eo. cbn [obind]. unfold checked_add.
  destruct (o + rounded a sz <? 2 ^ 64) eqn:E1; [|lia]. destruct (o + rounded a sz <=? size a) eqn:E2.
  - left. exists i, e, o. split_and!; [done|done|unfold fits; split_and!; first [done|lia]|done|].
    pose proof (ok_base _ HA) as [? _]. destruct (base a + o =? 0) eqn:E3; [lia|]. done.
  - right. split; [done|]. right. intros o' Hf. pose proof (Hmin o' Hf). destruct Hf as (_ & _ & ? & _). lia.
Qed.

(** ** Lookup by pointer *)
Section lookup.
Context (a : DaxArena) (HA : arena_ok a) (i : nat) (e : Extent)
  (Hi : extents a !! i = Some e) (He : active e = true).

Lemma at_offset_unique j e' : extents a !! j = Some e' -> at_offset (offset e) e' = true -> j = i.
Proof.
  intros Hj [Ha Ho]%andb_true_iff. apply Z.eqb_eq in Ho. destruct (decide (j = i)) as [->|Hne]; [done|].
  pose proof (ok_disjoint _ HA j i e' e Hne Hj Hi Ha He) as [H|H].
  - pose proof (ok_extent _ HA j e' Hj Ha) as (_ & _ & ? & _). lia.
  - pose proof (ok_extent _ HA i e Hi He) as (_ & _ & ? & _). lia.
Qed.

Lemma at_offset_self : at_offset (offset e) e = true.
Proof. unfold at_offset. by rewrite He, Z.eqb_refl. Qed.

Lemma position_at : position (at_offset (offset e)) (extents a) = Some i.
Proof.
  pose proof (first_index_spec (at_offset (offset e)) (extents a)) as HP. destruct (position _ _) as [j|].
  - destruct HP as (e' & Hj & Ho). f_equal. by eapply at_offset_unique.
  - pose proof (HP e (list_elem_of_lookup_2 _ _ _ Hi)) as H. by rewrite at_offset_self in H.
Qed.

Lemma find_at : List.find (at_offset (offset e)) (extents a) = Some e.
Proof.
  destruct (List.find _ _) as [e'|] eqn:E.
  - apply List.find_some in E as [Hin Ho]. apply list_elem_of_In, list_elem_of_lookup in Hin as [j Hj].
    assert (j = i) as -> by by eapply at_offset_unique. congruence.
  - pose proof (List.find_none _ _ E e) as H. rewrite at_offset_self in H.
    discriminate H. apply list_elem_of_In. by eapply list_elem_of_lookup_2.
Qed.

Lemma pointer_offset_at : pointer_offset a (base a + offset e) = Some (offset e).
Proof.
  pose proof (ok_extent _ HA i e Hi He) as (? & _ & ? & _ & ?). unfold pointer_offset, checked_sub.
  destruct (base a <=? base a + offset e) eqn:E; [|lia]. cbn [mbind option_bind].
  replace (base a + offset e - base a) with (offset e) by lia. destruct (_ <? _) eqn:E2; [done|lia].
Qed.

Lemma allocation_size_at codes : lock_ok codes ->
  allocation_size codes (base a + offset e) a = Done (a, Some (requested_len e)).
Proof.
  intros HL. unfold allocation_size, bind, gets, ret. cbn [obind fst snd]. rewrite pointer_offset_at.
  cbn [obind fst snd]. rewrite lock_ok_eq by done. cbn [obind fst snd]. by rewrite find_at.
Qed.

Lemma deallocate_at codes : lock_ok codes ->
  deallocate codes (base a + offset e) a = Done (set_extents (<[i := EMPTY]> (extents a)) a, inr tt).
Proof.
  intros HL. unfold deallocate, ebind, bind, gets, ok_or, modify, ok, ret. cbn [obind fst snd]. rewrite pointer_offset_at.
  cbn [obind fst snd]. rewrite lock_ok_eq by done. cbn [obind fst snd]. by rewrite position_at.
Qed.
End lookup.

(** ** Reachable arenas *)
Inductive aop :=
| Alloc (sz al : Z)
| Dealloc (p : Z).

Definition arena_exec (dbg : bool) (codes : Z * Z) (o : aop) : Res DaxArena Z :=
  match o with
  | Alloc sz al => allocate dbg codes sz al
  | Dealloc p => _ <?- deallocate codes p ;; ok p
  end.

(** Requests that need no more than the arena's own alignment and do not
    overflow the address space. *)
Definition aop_fits (a : DaxArena) (o : aop) : Prop :=
  match o with
  | Alloc sz al => al <= alignment a /\ 0 <= sz /\ sz + 1 + size a + alignment a < 2 ^ 64
  | Dealloc _ => True
  end.

(** [mmap] gives user-space addresses: page zero is never mapped and the
    mapping ends below [2^47]. *)
Definition mmap_sane (os : Os) : Prop :=
  forall len p, os_mmap os len = inr p -> 0 < p /\ p + len <= 2 ^ 47.

(** Arenas of the system: created, then used by requests that need no more
    than the arena's alignment. *)
Inductive arena_reach (dbg : bool) : DaxArena -> Prop :=
| reach_anonymous os sz al m m' a :
    mmap_sane os -> 0 <= sz -> new_anonymous os sz al m = Done (m', inr a) -> arena_reach dbg a
| reach_open os path m m' a :
    mmap_sane os -> open os path m = Done (m', inr a) -> arena_reach dbg a
| reach_op codes o a a' r :
    arena_reach dbg a -> aop_fits a o -> arena_exec dbg codes o a = Done (a', r) -> arena_reach dbg a'.

Lemma replicate_inactive i e : replicate MAX_EXTENTS EMPTY !! i = Some e -> e = EMPTY.
Proof. by intros [-> _]%lookup_replicate. Qed.

Lemma arena_ok_new p len bs sz k :
  0 < bs -> 0 <= k -> (2 ^ k | bs) -> 0 <= sz -> bs + sz + 2 ^ k <= 2 ^ 64 ->
  arena_ok (mkArena p len bs sz (2 ^ k) (replicate MAX_EXTENTS EMPTY)).
Proof.
  intros. split; cbn [extents alignment base size]; eauto.
  - by intros i e ->%replicate_inactive.
  - by intros i e Hi%replicate_inactive.
  - by intros i j e e' _ ->%replicate_inactive.
Qed.

Lemma mmap_inv os len m m' p : mmap os len m = Done (m', inr p) -> os_mmap os len = inr p.
Proof.
  unfold mmap, err, ok, ret, bind, modify, assert_. destruct (os_mmap os len) as [e|q]; [done|]. cbn [obind fst snd].
  destruct (negb _); cbn [obind fst snd]; [by intros [= _ ->]|done].
Qed.

#[local] Ltac einv H :=
  let s := fresh "s" in let y := fresh "y" in let H1 := fresh "E" in
  apply ebind_inv in H as (s & y & H1 & H);
  first [apply ok_or_inv in H1 as [-> H1]|apply mmap_inv in H1|idtac].

Lemma state_or_unmap_ok os p len m m' st :
  state_or_unmap os p len m = Done (m', inr st) -> st = replicate MAX_EXTENTS EMPTY.
Proof.
  unfold state_or_unmap, create_shared_state, mmap, ebind, bind, err, ok, ret, modify, munmap, assert_.
  destruct (os_mmap os SIZE_STATE) as [e|q]; cbn [obind fst snd]; [done|].
  destruct (negb (q =? 0)); [|done]. cbn [obind fst snd]. destruct (negb _); [done|]. cbn [obind fst snd]. by intros [= _ <-].
Qed.

Lemma last_inv (m m' : list (Z * Z)) (b : bool) (x a : DaxArena) :
  (assert_ b ;;; ok (E := ArenaError) x) m = Done (m', inr a) -> a = x.
Proof. unfold assert_, bind, ok, ret. destruct b; cbn [obind fst snd]; [by intros [= _ ->]|done]. Qed.

Lemma new_anonymous_ok os sz al m m' a :
  mmap_sane os -> 0 <= sz -> new_anonymous os sz al m = Done (m', inr a) -> arena_ok a.
Proof.
  intros HS Hsz H. unfold new_anonymous in H. destruct (_ || _) eqn:E0; [done|].
  apply orb_false_iff in E0 as [E0 Ep%negb_false_iff]. apply is_power_of_two_spec in Ep as (k & Hk & ->).
  einv H. einv H. einv H. einv H. apply state_or_unmap_ok in E3. apply last_inv in H. subst.
  apply checked_add_Some in E as [? ->]. destruct (HS _ _ E1) as [Hp Hl].
  pose proof (Z.pow_pos_nonneg 2 k ltac:(lia) Hk). destruct (align_up_spec k y0 Hk ltac:(lia) ltac:(lia)) as (u & Eu & Hd & Hu).
  assert (u = y1) as <- by congruence. apply arena_ok_new; try done; lia.
Qed.

Lemma open_ok os path m m' a :
  mmap_sane os -> open os path m = Done (m', inr a) -> arena_ok a.
Proof.
  intros HS H. unfold open in H. destruct (os_open os); [done|]. destruct (os_flock os); [done|].
  einv H. einv H. einv H. einv H. destruct (_ || _) eqn:E4; [done|].
  apply orb_false_iff in E4 as [[Ep%negb_false_iff _]%orb_false_iff E4]. apply is_power_of_two_spec in Ep as (k & Hk & ->).
  einv H. einv H. einv H. einv H. apply state_or_unmap_ok in E7. apply last_inv in H. subst.
  destruct (HS _ _ E3) as [Hp Hl]. apply checked_sub_Some in E6 as [? ->].
  pose proof (Z.pow_pos_nonneg 2 k ltac:(lia) Hk). destruct (align_up_spec k y2 Hk ltac:(lia) ltac:(lia)) as (u & Eu & Hd & Hu).
  assert (u = y3) as <- by congruence. apply arena_ok_new; try done; lia.
Qed.

Lemma lock_cases codes : lock_ok codes \/ exists e, forall a, lock codes a = Done (a, inl e).
Proof.
  destruct codes as [x y]. unfold lock_ok, lock. simpl. destruct (x =? EOWNERDEAD) eqn:E1.
  - destruct (y =? 0) eqn:E2; [left; right; f_equal; lia|right; by eexists].
  - destruct (x =? 0) eqn:E2; [left; left; lia|right; by eexists].
Qed.

Lemma deallocate_ok codes p a a' r : arena_ok a -> deallocate codes p a = Done (a', r) -> arena_ok a'.
Proof.
  intros HA. unfold deallocate, ebind, bind, gets, ok_or, modify, ok, ret. cbn [obind fst snd].
  destruct (pointer_offset a p) as [off|]; [|by intros [= <- _]]. cbn [obind fst snd].
  destruct (lock_cases codes) as [HL|[e HL]]; [rewrite lock_ok_eq by done|rewrite HL; by intros [= <- _]].
  cbn [obind fst snd]. destruct (position _ _) as [i|]; [|by intros [= <- _]]. cbn [obind fst snd].
  intros [= <- _]. by apply arena_ok_clear.
Qed.

(** A request that fails before the search leaves the arena alone. *)
Lemma allocate_guard dbg codes sz al a a' r :
  allocate dbg codes sz al a = Done (a', r) ->
  (is_power_of_two al = true /\ lock_ok codes) \/ a' = a.
Proof.
  unfold allocate. destruct (is_power_of_two al); cbn [negb]; [|intros [= <- _]; by right].
  destruct (lock_cases codes) as [HL|[e HL]]; [by left|]. unfold ebind, bind, gets, ok_or, ok, ret. cbn [obind fst snd].
  destruct (align_up _ _); cbn [obind fst snd]; [|intros [= <- _]; by right].
  rewrite HL. cbn [obind fst snd]. intros [= <- _]. by right.
Qed.

Lemma allocate_ok dbg codes sz al a a' r :
  arena_ok a -> aop_fits a (Alloc sz al) -> allocate dbg codes sz al a = Done (a', r) -> arena_ok a'.
Proof.
  intros HA (Hle & Hsz & Hb) H. destruct (allocate_guard _ _ _ _ _ _ _ H) as [[Hp HL]| ->]; [|done].
  destruct (arena_rounded_spec a sz HA Hsz ltac:(lia)) as (_ & Hrd & Hrb).
  destruct (allocate_run a dbg codes sz al HA HL Hp Hle Hsz Hb) as [(i & e & o & Hi & He & Hf & _ & E)|[E _]];
    rewrite E in H; injection H as <- _; [|done].
  apply (arena_ok_insert a i e); try done. lia.
Qed.

Lemma arena_reach_ok dbg a : arena_reach dbg a -> arena_ok a.
Proof.
  induction 1 as [os sz al m m' a HS Hsz H|os path m m' a HS H|codes o a a' r _ IH Hf He].
  - by eapply new_anonymous_ok.
  - by eapply open_ok.
  - destruct o as [sz al|p]; [exact (allocate_ok dbg codes sz al a a' r IH Hf He)|]. unfold arena_exec, ebind, bind in He.
    destruct (deallocate codes p a) as [[a1 r1]| | |] eqn:E; try done. cbn [obind fst snd] in He.
    apply deallocate_ok in E; [|done]. destruct r1; by injection He as <- _.
Qed.

(** A free place is no allocation. *)
Lemma deallocate_absent codes a n o :
  arena_ok a -> lock_ok codes -> 0 < n -> fits a n o ->
  deallocate codes (base a + o) a = Done (a, inl InvalidPointer).
Proof.
  intros HA HL Hn (Ho & _ & Hs & Hcl). unfold deallocate, ebind, bind, gets, ok_or, ok, err, ret. cbn [obind fst snd].
  assert (pointer_offset a (base a + o) = Some o) as ->.
  { unfold pointer_offset, checked_sub. destruct (_ <=? _) eqn:E; [|lia]. cbn [mbind option_bind].
    replace (base a + o - base a) with o by lia. destruct (o <? size a) eqn:E2; [done|lia]. }
  cbn [obind fst snd]. rewrite lock_ok_eq by done. cbn [obind fst snd].
  pose proof (first_index_spec (at_offset o) (extents a)) as HP. destruct (position _ _) as [i|]; [|done].
  destruct HP as (e & Hi & [Ha Hoe]%andb_true_iff). exfalso.
  pose proof (ok_extent _ HA i e Hi Ha) as (_ & _ & ? & _).
  destruct (Hcl e (list_elem_of_lookup_2 _ _ _ Hi) Ha); lia.
Qed.

(** C24: the arena is a correct first-fit allocator for requests that need no
    more than the arena's own alignment and whose size does not overflow the
    offsets. From every reachable arena a request
    returns. Either it gets the lowest free place: aligned, inside the arena,
    clear of every live extent; its size is then on record, and freeing it
    brings back exactly the arena before the request, where the pointer is
    unknown. Or it fails with [OutOfMemory], the arena unchanged, and then
    every slot is taken or no free place is large enough. *)
Theorem arena_first_fit dbg codes a sz al :
  arena_reach dbg a -> lock_ok codes -> is_power_of_two al = true -> al <= alignment a ->
  0 <= sz -> sz + 1 + size a + alignment a < 2 ^ 64 ->
  (exists a' o, allocate dbg codes sz al a = Done (a', inr (base a + o)) /\
     fits a (rounded a sz) o /\ sz <= rounded a sz /\ (forall o', fits a (rounded a sz) o' -> o <= o') /\
     (alignment a | base a + o) /\
     owns a' (base a + o) = true /\ allocation_size codes (base a + o) a' = Done (a', Some (Z.max sz 1)) /\
     deallocate codes (base a + o) a' = Done (a, inr tt) /\
     deallocate codes (base a + o) a = Done (a, inl InvalidPointer))
  \/ (allocate dbg codes sz al a = Done (a, inl OutOfMemory) /\
       ((forall e, e ∈ extents a -> active e = true) \/ forall o, ~ fits a (rounded a sz) o)).
Proof.
  intros HR HL Hp Hle Hsz Hb. pose proof (arena_reach_ok _ _ HR) as HA.
  destruct (arena_rounded_spec a sz HA Hsz ltac:(lia)) as (_ & Hrd & Hrb).
  destruct (allocate_run a dbg codes sz al HA HL Hp Hle Hsz Hb) as [(i & e & o & Hi & He & Hf & Hmin & E)|H]; [left|by right].
  set (e1 := mkExtent o (rounded a sz) (Z.max sz 1) true) in *. set (a1 := set_extents (<[i := e1]> (extents a)) a) in *.
  assert (arena_ok a1) as HA1 by (apply (arena_ok_insert a i e); try done; lia).
  assert (extents a1 !! i = Some e1) as Hi1 by (apply list_lookup_insert_eq; by eapply lookup_lt_Some).
  exists a1, o. split_and!; try done; try lia.
  - apply Z.divide_add_r; [apply HA|apply Hf].
  - unfold owns. by rewrite (pointer_offset_at a1 HA1 i e1 Hi1 eq_refl : pointer_offset a1 (base a + o) = _).
  - apply (allocation_size_at a1 HA1 i e1 Hi1 eq_refl codes HL).
  - etransitivity; [apply (deallocate_at a1 HA1 i e1 Hi1 eq_refl codes HL)|]. do 2 f_equal. unfold a1, set_extents. simpl.
    rewrite list_insert_insert_eq, list_insert_id by (by rewrite Hi, (ok_empty _ HA i e Hi He)). by destruct a.
  - apply (deallocate_absent codes a (rounded a sz)); [done|done|lia|done].
Qed.

(** ** The sysfs numbers *)

(** Parsing is the inverse of printing: every size the kernel reports as a
    decimal line is read back. *)
Theorem sysfs_roundtrip n :
  0 < n < 2 ^ 64 -> parse_sysfs_usize (digits 20 n ++ [10]) = inr n.
Proof.
  intros Hn. pose proof (digits_ascii 20 n) as Hd. unfold parse_sysfs_usize. rewrite from_utf8_ascii.
  2: { apply Forall_app. split; [|by repeat constructor]. eapply Forall_impl; [exact Hd|]. unfold is_digit. lia. }
  assert (digits 20 n <> []) as Hne by (by intros [_ ?]%app_eq_nil).
  rewrite trim_line by done. pose proof (parse_digits_digits 20 n ltac:(simpl; lia) ltac:(lia)) as Hp.
  assert (parse_usize (digits 20 n) = parse_digits 0 (digits 20 n)) as ->.
  { destruct (digits 20 n) as [|c l]; [done|]. apply Forall_cons in Hd as [Hc _]. unfold is_digit in Hc.
    unfold parse_usize. by destruct (c =? 43) eqn:E; [lia|]. }
  rewrite Hp. destruct (n =? 0) eqn:E; [lia|done].
Qed.

(** ** Concrete arenas *)
Module Runs.
(** A process with at most 1 GiB per mapping; the arena's mapping starts
    between 1 and 2 MiB. *)
Definition os : Os :=
  mkOs (inr 3) None (fun _ => inl 2)
    (fun len => if len =? SIZE_STATE then inr 4096 else if len <=? 2 ^ 30 then inr 1052672 else inl 12) 0 0 0 0 4096.

Lemma os_sane : mmap_sane os.
Proof.
  intros len p. cbn [os os_mmap]. change SIZE_STATE with 4136. destruct (len =? 4136) eqn:E; [intros [= <-]; lia|].
  destruct (len <=? 2 ^ 30) eqn:E2; [intros [= <-]; lia|done].
Qed.

Definition arena : DaxArena :=
  match new_anonymous os (16 * 2 ^ 20) (2 * 2 ^ 20) [] with Done (_, inr a) => a | _ => mkArena 0 0 0 0 0 [] end.

Definition free_lock : Z * Z := (0, 0).

Lemma arena_reachable : arena_reach true arena.
Proof.
  apply (reach_anonymous true os (16 * 2 ^ 20) (2 * 2 ^ 20) [] [(4096, 4136); (1052672, 18874367)]);
    [exact os_sane|lia|by vm_compute].
Qed.

Lemma arena_first_fit_witness :
  exists a', allocate true free_lock (3 * 2 ^ 20) 4096 arena = Done (a', inr 2097152) /\
    allocation_size free_lock 2097152 a' = Done (a', Some (3 * 2 ^ 20)).
Proof.
  assert (obind (allocate true free_lock (3 * 2 ^ 20) 4096 arena) (fun p => Done p.2) = Done (inr 2097152)) as HV
    by (vm_compute; reflexivity).
  destruct (arena_first_fit true free_lock arena (3 * 2 ^ 20) 4096 arena_reachable) as [(a' & o & E & H)|[E _]];
    [left; reflexivity|reflexivity|vm_compute; discriminate|lia|vm_compute; reflexivity| |];
    rewrite E in HV; cbn [obind snd] in HV; [|discriminate HV].
  assert (base arena = 2097152) as Hb by (vm_compute; reflexivity). rewrite Hb in HV, E, H.
  injection HV as HV. rewrite HV in E, H. exists a'. split; [exact E|apply H].
Defined.

Fixpoint arena_run (dbg : bool) (l : list aop) (a : DaxArena) : outcome (list (ArenaError + Z)) :=
  match l with
  | [] => Done []
  | o :: l => obind (arena_exec dbg free_lock o a) (fun '(a, r) => obind (arena_run dbg l a) (fun rs => Done (r :: rs)))
  end.

(** The scenario of the source's first test. *)
Example test_reuse :
  arena_run true [Alloc (3 * 2 ^ 20) 4096; Alloc (2 * 2 ^ 20) 4096; Dealloc 2097152; Alloc (3 * 2 ^ 20) 4096] arena
  = Done [inr 2097152; inr 6291456; inr 2097152; inr 2097152].
Proof. by vm_compute. Qed.

(** a request with a larger alignment than the arena's can overlap a live
    extent: rounding the candidate up jumps into the middle of an extent, and
    the search only looks at extents that start at or after the candidate.
    Here 4 MiB are live at 2 MiB, and the next 2 MiB aligned to 4 MiB are put
    at 4 MiB. *)
Theorem arena_overaligned_overlap :
  exists p q, arena_run true [Alloc (4 * 2 ^ 20) 4096; Alloc (2 * 2 ^ 20) (4 * 2 ^ 20)] arena = Done [inr p; inr q] /\
    p < q /\ q + 2 * 2 ^ 20 <= p + 4 * 2 ^ 20.
Proof. exists 2097152, 4194304. split; [by vm_compute|lia]. Qed.

(** A request near the size of the address space makes the unchecked sum of
    line 198 overflow: a build with overflow checks panics, a release build
    answers [OutOfMemory]. *)
Theorem arena_sum_overflows :
  let l := [Alloc (4 * 2 ^ 20) 4096; Alloc (4 * 2 ^ 20) 4096; Alloc (2 ^ 64 - 2 * 2 ^ 20 - 4096) 1] in
  arena_run true l arena = Panic /\ arena_run false l arena = Done [inr 2097152; inr 6291456; inl OutOfMemory].
Proof. by vm_compute. Qed.
End Runs.
