(* ===== verification/Preload.v ===== *)
(** * Preload: the LD_PRELOAD allocator (cxlalloc-preload/src/lib.rs)

    Large requests go to a [DaxArena], small ones to the C library found by
    [dlsym]; before initialisation a static bump buffer serves everything. The
    C library is not part of the repository: it is the class [Libc], with the
    documented behaviour the routing relies on in [LibcLaws]. *)

From Stdlib Require Import ZArith Lia Bool Ascii String.
From stdpp Require Import base numbers option gmap functions strings list.
From S2P Require Import Prelude Text DaxArena.
Local Open Scope Z_scope.
Local Open Scope prog_scope.
Local Open Scope res_scope.

(** ** Memory, errno and the C library *)

(** Bytes by address. *)
Abbreviation Bytes := (Z -> Z).

(** Contents of memory, [errno], and the private state of the C library. *)
Record World (L : Type) := mkWorld {
  w_libc : L;
  w_mem : Bytes;
  w_errno : Z;
}.
Arguments mkWorld {L}.
Arguments w_libc {L}.
Arguments w_mem {L}.
Arguments w_errno {L}.

Definition set_mem {L} (m : Bytes) (w : World L) : World L := mkWorld (w_libc w) m (w_errno w).

(** [RealAlloc]: the symbols of the next object; a null pointer is 0. *)
Class Libc := {
  LState : Type;
  real_malloc : Z -> World LState -> World LState * Z;
  real_calloc : Z -> Z -> World LState -> World LState * Z;
  real_realloc : Z -> Z -> World LState -> World LState * Z;
  real_free : Z -> World LState -> World LState;
  real_memalign : Z -> Z -> World LState -> World LState * Z;
  real_malloc_usable_size : World LState -> Z -> Z;
}.

Definition ENOMEM : Z := 12.
Definition EINVAL : Z := 22.

(** ** Byte loops *)

(** [scalar_fill]. *)
Fixpoint scalar_fill (dst value : Z) (n : nat) (m : Bytes) : Bytes :=
  match n with
  | O => m
  | S n => <[dst + Z.of_nat n := value]> (scalar_fill dst value n m)
  end.

(** [scalar_copy], and [rep movsb] with the direction flag clear: ascending. *)
Fixpoint scalar_copy (dst src : Z) (n : nat) (m : Bytes) : Bytes :=
  match n with
  | O => m
  | S n =>
      let m := scalar_copy dst src n m in
      <[dst + Z.of_nat n := m (src + Z.of_nat n)]> m
  end.

(** [std; rep movsb]: descending, from the last byte. *)
Fixpoint copy_descending (dst src : Z) (n : nat) (m : Bytes) : Bytes :=
  match n with
  | O => m
  | S n => copy_descending dst src n (<[dst + Z.of_nat n := m (src + Z.of_nat n)]> m)
  end.

(** [memset]: [al] is the low byte of the value. *)
Definition memset (dst value n : Z) (m : Bytes) : Bytes := scalar_fill dst (wrap 8 value) (Z.to_nat n) m.

Definition memcpy (dst src n : Z) (m : Bytes) : Bytes := scalar_copy dst src (Z.to_nat n) m.

Definition memmove (dst src n : Z) (m : Bytes) : Bytes :=
  if (n =? 0) || (dst <=? src) then memcpy dst src n m
  else copy_descending dst src (Z.to_nat n) m.

(** ** Configuration *)

Definition DEFAULT_MIN_SIZE : Z := Z.shiftl 2 20.

Inductive BackendMode := Dax | DaxMmap | Mmap.

Definition backend_parse (value : option string) : option BackendMode :=
  let v := default "dax-mmap"%string value in
  if decide (v = "dax"%string) then Some Dax
  else if decide (v = "dax-mmap"%string) then Some DaxMmap
  else if decide (v = "mmap"%string) then Some Mmap
  else None.

(** The environment variables the library reads, as strings of code points
    (backend names as Rocq strings). *)
Record Env := mkEnv {
  env_backend : option string;
  env_min_size : option (list Z);
  env_devices : option (list Z);
  env_heap_size : option (list Z);
}.

(** [PlacementPolicy::from_env]. *)
Definition policy_from_env (e : Env) : Z :=
  default DEFAULT_MIN_SIZE (env_min_size e ≫= parse_usize).

Definition uses_cxl (min_size size : Z) : bool := min_size <=? size.

(** The part before the first [','] of the list of devices. *)
Fixpoint first_field (l : list Z) : list Z :=
  match l with
  | [] => []
  | c :: l => if c =? 44 then [] else c :: first_field l
  end.

(** ** The early bump allocator *)

Definition EARLY_SIZE : Z := Z.shiftl 8 20.

(** [early_malloc], on the offset [EARLY_OFFSET]; [fetch_update] is one atomic
    step. *)
Definition early_malloc (early_base size : Z) (off : Z) : Z * Z :=
  let al := 16 in
  match checked_add 64 (Z.max size al) (al - 1) with
  | None => (off, 0)
  | Some v =>
      let sz := Z.ldiff v (al - 1) in
      match checked_add 64 off sz with
      | Some end_ => if end_ <=? EARLY_SIZE then (end_, early_base + off) else (off, 0)
      | None => (off, 0)
      end
  end.

Definition is_early_pointer (early_base p : Z) : bool :=
  (early_base <=? p) && (p <? early_base + EARLY_SIZE).

(** ** The routed calls *)

Section preload.
Context `{LC : Libc} (dbg : bool) (codes : Z * Z) (early_base page : Z).

(** [State] with the world it acts on. *)
Record Rt := mkRt {
  min_size : Z;
  arena : option DaxArena;
  world : World LState;
}.

Definition put_arena (a : DaxArena) (s : Rt) : Rt := mkRt (min_size s) (Some a) (world s).
Definition put_world (w : World LState) (s : Rt) : Rt := mkRt (min_size s) (arena s) w.

Definition set_errno (e : Z) : M Rt unit :=
  modify (fun s => put_world (mkWorld (w_libc (world s)) (w_mem (world s)) e) s).

(** A call of the C library. *)
Definition libc {A} (f : World LState -> World LState * A) : M Rt A :=
  fun s => let '(w, x) := f (world s) in Done (put_world w s, x).

Definition edit (f : Bytes -> Bytes) : M Rt unit :=
  modify (fun s => put_world (set_mem (f (w_mem (world s))) (world s)) s).

(** An operation of the arena [a] held by the state. *)
Definition on_arena {A} (a : DaxArena) (f : M DaxArena A) : M Rt A :=
  fun s => obind (f a) (fun '(a, x) => Done (put_arena a s, x)).

Definition null_with (e : Z) : M Rt Z := set_errno e ;;; ret 0.

Definition arena_owns (s : Rt) (p : Z) : bool :=
  match arena s with Some a => owns a p | None => false end.

Definition routed_malloc (size : Z) : M Rt Z :=
  s <- gets (fun s => s) ;;
  if negb (uses_cxl (min_size s) size) then libc (real_malloc size)
  else match arena s with
  | None => null_with ENOMEM
  | Some a =>
      r <- on_arena a (allocate dbg codes size 16) ;;
      match r with
      | inr p => ret p
      | inl _ => null_with ENOMEM
      end
  end.

Definition routed_aligned_alloc (al size : Z) : M Rt Z :=
  if negb (is_power_of_two al) then null_with EINVAL
  else
    s <- gets (fun s => s) ;;
    if negb (uses_cxl (min_size s) size) then libc (real_memalign al size)
    else match arena s with
    | None => null_with ENOMEM
    | Some a =>
        r <- on_arena a (allocate dbg codes size al) ;;
        match r with
        | inr p => ret p
        | inl InvalidAlignment => null_with EINVAL
        | inl _ => null_with ENOMEM
        end
    end.

Definition routed_valloc (size : Z) : M Rt Z := routed_aligned_alloc page size.

Definition routed_free (p : Z) : M Rt unit :=
  if (p =? 0) || is_early_pointer early_base p then ret tt
  else
    s <- gets (fun s => s) ;;
    if arena_owns s p then
      a <- unwrap (arena s) ;;
      r <- on_arena a (deallocate codes p) ;;
      match r with
      | inl _ => set_errno EINVAL
      | inr _ => ret tt
      end
    else libc (fun w => (real_free p w, tt)).

Definition routed_calloc (count size : Z) : M Rt Z :=
  match checked_mul 64 count size with
  | None => null_with ENOMEM
  | Some total =>
      s <- gets (fun s => s) ;;
      if negb (uses_cxl (min_size s) total) then libc (real_calloc count size)
      else
        p <- routed_malloc total ;;
        (if negb (p =? 0) then edit (scalar_fill p 0 (Z.to_nat total)) else ret tt) ;;;
        ret p
  end.

(** The size of the allocation [p] of the arena, 0 if there is none. *)
Definition arena_size (p : Z) : M Rt Z :=
  s <- gets (fun s => s) ;;
  match arena s with
  | None => ret 0
  | Some a => r <- on_arena a (allocation_size codes p) ;; ret (default 0 r)
  end.

(** The last part of [routed_realloc]: a new block, the copy, the free. *)
Definition realloc_move (p old_size size : Z) : M Rt Z :=
  q <- routed_malloc size ;;
  if q =? 0 then ret 0
  else
    edit (scalar_copy q p (Z.to_nat (Z.min old_size size))) ;;;
    routed_free p ;;;
    ret q.

Definition routed_realloc (p size : Z) : M Rt Z :=
  if p =? 0 then routed_malloc size
  else if size =? 0 then routed_free p ;;; ret 0
  else if is_early_pointer early_base p then
    q <- routed_malloc size ;;
    (if negb (q =? 0) then
       edit (scalar_copy q p (Z.to_nat (Z.min size (Z.max 0 (EARLY_SIZE - (p - early_base))))))
     else ret tt) ;;;
    ret q
  else
    s <- gets (fun s => s) ;;
    if arena_owns s p then
      old_size <- arena_size p ;;
      realloc_move p old_size size
    else if negb (uses_cxl (min_size s) size) then libc (real_realloc p size)
    else realloc_move p (real_malloc_usable_size (world s) p) size.

(** ** The interposed API *)

(** [STATE] and [INITIALIZED] as one flag, and [EARLY_OFFSET]. *)
Record Proc := mkProc {
  initialized : bool;
  rt : Rt;
  early_offset : Z;
}.

Definition routed {A} (f : M Rt A) : M Proc A :=
  fun s => obind (f (rt s)) (fun '(r, x) => Done (mkProc (initialized s) r (early_offset s), x)).

Definition early (size : Z) : M Proc Z :=
  fun s => let '(off, p) := early_malloc early_base size (early_offset s) in
           Done (mkProc (initialized s) (rt s) off, p).

(** [state().map(f).unwrap_or_else(g)]. *)
Definition with_state {A} (f : M Rt A) (g : M Proc A) : M Proc A :=
  b <- gets initialized ;; if (b : bool) then routed f else g.

Definition malloc (size : Z) : M Proc Z := with_state (routed_malloc size) (early size).

Definition free (p : Z) : M Proc unit := with_state (routed_free p) (ret tt).

Definition calloc (count size : Z) : M Proc Z :=
  with_state (routed_calloc count size)
    (let total := default (2 ^ 64 - 1) (checked_mul 64 count size) in
     p <- early total ;;
     (if negb (p =? 0) then routed (edit (scalar_fill p 0 (Z.to_nat total))) else ret tt) ;;;
     ret p).

Definition realloc (p size : Z) : M Proc Z := with_state (routed_realloc p size) (ret 0).

Definition memalign (al size : Z) : M Proc Z := with_state (routed_aligned_alloc al size) (early size).

(** [posix_memalign]: the return code, and what is stored in [*output]. *)
Definition posix_memalign (output al size : Z) : M Proc (Z * option Z) :=
  if (output =? 0) || (al <? 8) || negb (is_power_of_two al) then ret (EINVAL, None)
  else
    p <- memalign al size ;;
    if p =? 0 then ret (ENOMEM, None) else ret (0, Some p).

Definition aligned_alloc (al size : Z) : M Proc Z :=
  if (al =? 0) || negb (size mod al =? 0) then routed (null_with EINVAL)
  else memalign al size.

Definition valloc (size : Z) : M Proc Z := with_state (routed_valloc size) (early size).

Definition pvalloc (size : Z) : M Proc Z :=
  match checked_add 64 size (page - 1) with
  | None => routed (null_with ENOMEM)
  | Some v => valloc (Z.ldiff v (page - 1))
  end.

Definition malloc_usable_size (p : Z) : M Proc Z :=
  if (p =? 0) || is_early_pointer early_base p then ret 0
  else
    with_state
      (s <- gets (fun s => s) ;;
       if arena_owns s p then arena_size p
       else ret (real_malloc_usable_size (world s) p))
      (ret 0).

(** [State::from_env] and [init]; [resolved] says that [dlsym] found every
    symbol. The arena is created with the process's mappings. *)
Definition from_env (os : Os) (env : Env) (resolved : bool) (maps : list (Z * Z)) :
    outcome (option (Z * option DaxArena)) :=
  if negb resolved then Done None
  else match backend_parse (env_backend env) with
  | None => Done None
  | Some b =>
      let r :=
        match b with
        | Dax | DaxMmap =>
            let devices := default (bytes "/dev/dax0.0") (env_devices env) in
            open os (mjoin (encode_utf8 <$> trim (first_field devices))) maps
        | Mmap =>
            let sz := default (Z.shiftl 256 20) (env_heap_size env ≫= parse_usize) in
            new_anonymous os sz DEFAULT_MIN_SIZE maps
        end in
      obind r (fun '(_, r) =>
        Done (Some (policy_from_env env, match r with inr a => Some a | inl _ => None end)))
  end.

Definition init (os : Os) (env : Env) (resolved : bool) (maps : list (Z * Z)) (s : Proc) : outcome Proc :=
  obind (from_env os env resolved maps) (fun r =>
    Done match r with
    | None => s
    | Some (ms, a) => mkProc true (mkRt ms a (world (rt s))) (early_offset s)
    end).
End preload.

Arguments mkRt {LC}.
Arguments min_size {LC}.
Arguments arena {LC}.
Arguments world {LC}.

(** ** What the routing relies on

    [own] is the memory the C library manages, [live] its allocated blocks with
    their usable sizes. *)
Class LibcLaws (LC : Libc) := {
  live : World LState -> gmap Z Z;
  own : Z -> Prop;
  libc_inv : World LState -> Prop;
  (** the state of the C library does not depend on [errno] nor on bytes it
      does not manage or has given away *)
  libc_frame : forall w m e, libc_inv w -> (forall a, own a -> (forall p k, live w !! p = Some k -> ~ (p <= a < p + k)) -> m a = w_mem w a) ->
    libc_inv (mkWorld (w_libc w) m e) /\ live (mkWorld (w_libc w) m e) = live w;
  live_own : forall w p k, libc_inv w -> live w !! p = Some k -> 0 < p /\ 0 < k /\ forall a, p <= a < p + k -> own a;
  live_apart : forall w p k q j, libc_inv w -> live w !! p = Some k -> live w !! q = Some j -> p <> q -> p + k <= q \/ q + j <= p;
  malloc_law : forall n w, libc_inv w -> let '(w', p) := real_malloc n w in
    libc_inv w' /\
    (forall a, ~ own a \/ (exists q j, live w !! q = Some j /\ q <= a < q + j) -> w_mem w' a = w_mem w a) /\
    ((p = 0 /\ live w' = live w) \/
     (exists k, live w !! p = None /\ n <= k /\ live w' = <[p := k]> (live w)));
  free_law : forall p k w, libc_inv w -> live w !! p = Some k ->
    libc_inv (real_free p w) /\ live (real_free p w) = delete p (live w) /\
    (forall a, ~ own a \/ (exists q j, live (real_free p w) !! q = Some j /\ q <= a < q + j) ->
       w_mem (real_free p w) a = w_mem w a);
  realloc_law : forall p k n w, libc_inv w -> live w !! p = Some k -> 0 < n ->
    let '(w', q) := real_realloc p n w in
    libc_inv w' /\
    (forall a, ~ own a \/ (exists r j, r <> p /\ live w !! r = Some j /\ r <= a < r + j) -> w_mem w' a = w_mem w a) /\
    ((q = 0 /\ live w' = live w /\ forall i, 0 <= i < k -> w_mem w' (p + i) = w_mem w (p + i)) \/
     (exists j, delete p (live w) !! q = None /\ n <= j /\ live w' = <[q := j]> (delete p (live w)) /\
        forall i, 0 <= i < Z.min k n -> w_mem w' (q + i) = w_mem w (p + i)));
  usable_law : forall w p k, libc_inv w -> live w !! p = Some k -> real_malloc_usable_size w p = k;
}.

(** ** Byte loops *)
Lemma scalar_fill_spec dst v n m a :
  scalar_fill dst v n m a = if decide (dst <= a < dst + Z.of_nat n) then v else m a.
Proof.
  induction n as [|n IH]; simpl; [by rewrite decide_False by lia|]. destruct (decide (a = dst + Z.of_nat n)) as [->|Hne].
  - rewrite fn_lookup_insert, decide_True by lia. done.
  - rewrite fn_lookup_insert_ne by done. rewrite IH. by destruct (decide _), (decide _); try lia.
Qed.

(** An ascending copy is right unless the destination starts inside the
    source after its first byte. *)
Lemma scalar_copy_spec dst src n m a :
  dst <= src \/ src + Z.of_nat n <= dst ->
  scalar_copy dst src n m a = if decide (dst <= a < dst + Z.of_nat n) then m (src + (a - dst)) else m a.
Proof.
  intros Hd. revert a. induction n as [|n IH]; intros a; simpl; [by rewrite decide_False by lia|].
  destruct (decide (a = dst + Z.of_nat n)) as [->|Hne].
  - rewrite fn_lookup_insert, (IH ltac:(lia)), decide_False, decide_True by lia. f_equal. lia.
  - rewrite fn_lookup_insert_ne by done. rewrite (IH ltac:(lia)). by destruct (decide _), (decide _); try lia.
Qed.

Lemma copy_descending_spec dst src n m a :
  src <= dst ->
  copy_descending dst src n m a = if decide (dst <= a < dst + Z.of_nat n) then m (src + (a - dst)) else m a.
Proof.
  intros Hd. revert m a. induction n as [|n IH]; intros m a; simpl; [by rewrite decide_False by lia|].
  rewrite IH. destruct (decide (a = dst + Z.of_nat n)) as [->|Hne].
  - rewrite fn_lookup_insert, decide_False, decide_True by lia. f_equal. lia.
  - destruct (decide (dst <= a < dst + Z.of_nat n)).
    + rewrite fn_lookup_insert_ne by lia. by rewrite decide_True by lia.
    + rewrite fn_lookup_insert_ne by done. by rewrite decide_False by lia.
Qed.

(** [memmove] copies the source as it was before the call, for every
    overlap of source and destination, and writes nothing else. *)
Theorem memmove_copies dst src n m a :
  memmove dst src n m a = if decide (dst <= a < dst + n) then m (src + (a - dst)) else m a.
Proof.
  unfold memmove, memcpy. destruct (Z.le_gt_cases n 0) as [Hn|Hn].
  - replace (Z.to_nat n) with O by lia. rewrite decide_False by lia. by destruct (_ || _).
  - destruct (n =? 0) eqn:E; [lia|]. destruct (dst <=? src) eqn:E2; simpl.
    + rewrite scalar_copy_spec by lia. by rewrite Z2Nat.id by lia.
    + rewrite copy_descending_spec by lia. by rewrite Z2Nat.id by lia.
Qed.

(** ** The blocks the application holds *)
Section routing.
Context {LC : Libc} {LL : LibcLaws LC} (dbg : bool) (codes : Z * Z) (Hlock : lock_ok codes) (early_base page : Z).

Abbreviation mem s := (w_mem (world s)).

(** An extent of the arena or a block of the C library, with the size the
    application may use. *)
Definition in_arena (s : Rt) (p k : Z) : Prop :=
  exists a i e, arena s = Some a /\ extents a !! i = Some e /\ active e = true /\
    p = base a + offset e /\ k = requested_len e.

Definition holds (s : Rt) (p k : Z) : Prop := in_arena s p k \/ live (world s) !! p = Some k.

(** The three regions are apart, and each allocator is in a good state. *)
Record rt_ok (s : Rt) : Prop := {
  rt_libc : libc_inv (world s);
  rt_arena : forall a, arena s = Some a ->
    arena_ok a /\ 16 <= alignment a /\
    forall x, base a <= x < base a + size a -> ~ own x /\ is_early_pointer early_base x = false;
  rt_early : forall x, is_early_pointer early_base x = true -> ~ own x;
}.

(** A request the arena can express. *)
Definition req_ok (s : Rt) (n : Z) : Prop :=
  0 <= n /\ forall a, arena s = Some a -> n + 1 + size a + alignment a < 2 ^ 64.

Lemma in_arena_range s p k :
  rt_ok s -> in_arena s p k -> 0 < p /\ 0 < k /\
    forall x, p <= x < p + k -> ~ own x /\ is_early_pointer early_base x = false /\ (p = x -> arena_owns s x = true).
Proof.
  intros HS (a & i & e & Ea & Hi & He & -> & ->). destruct (rt_arena _ HS a Ea) as (HA & _ & Hx).
  pose proof (ok_extent _ HA i e Hi He) as (Ho & _ & Hq & _ & Hend). pose proof (ok_base _ HA) as [Hb _].
  split_and!; [lia|lia|]. intros x Hxr. destruct (Hx x ltac:(lia)) as [H1 H2]. split_and!; [done|done|]. intros <-.
  unfold arena_owns, owns. by rewrite Ea, (pointer_offset_at a HA i e Hi He).
Qed.

Lemma live_range s p k :
  rt_ok s -> live (world s) !! p = Some k -> 0 < p /\ 0 < k /\
    is_early_pointer early_base p = false /\ arena_owns s p = false /\ forall x, p <= x < p + k -> own x.
Proof.
  intros HS Hl. destruct (live_own _ _ _ (rt_libc _ HS) Hl) as (Hp & Hk & Ho). split_and!; [done|done| | |done].
  - destruct (is_early_pointer early_base p) eqn:E; [|done]. by destruct (rt_early _ HS p E (Ho p ltac:(lia))).
  - unfold arena_owns. destruct (arena s) as [a|] eqn:Ea; [|done]. unfold owns, pointer_offset, checked_sub.
    destruct (base a <=? p) eqn:E1; [|done]. cbn [mbind option_bind]. destruct (p - base a <? size a) eqn:E2; [|done].
    destruct (rt_arena _ HS a Ea) as (_ & _ & Hx). destruct (Hx p ltac:(lia)) as [[] _]. apply Ho. lia.
Qed.

Lemma holds_apart s p k q j : rt_ok s -> holds s p k -> holds s q j -> p <> q -> p + k <= q \/ q + j <= p.
Proof.
  intros HS Hp Hq Hne.
  assert (forall p k q j, in_arena s p k -> live (world s) !! q = Some j -> p + k <= q \/ q + j <= p) as Hmix.
  { intros p' k' q' j' H1 H2. destruct (in_arena_range s p' k' HS H1) as (_ & ? & Hx).
    destruct (live_range s q' j' HS H2) as (_ & ? & _ & _ & Ho). destruct (decide (p' + k' <= q' \/ q' + j' <= p')); [done|].
    exfalso. apply (Hx (Z.max p' q')); [lia|]. apply Ho. lia. }
  destruct Hp as [Hp|Hp], Hq as [Hq|Hq].
  - destruct Hp as (a & i & e & Ea & Hi & He & -> & ->), Hq as (a' & i' & e' & Ea' & Hi' & He' & -> & ->).
    simplify_eq. destruct (rt_arena _ HS a Ea) as (HA & _). assert (i <> i') as Hii by (intros ->; congruence).
    pose proof (ok_extent _ HA i e Hi He) as (_ & _ & ? & _). pose proof (ok_extent _ HA i' e' Hi' He') as (_ & _ & ? & _).
    destruct (ok_disjoint _ HA i i' e e' Hii Hi Hi' He He') as [?|?]; lia.
  - by eapply Hmix.
  - destruct (Hmix q j p k Hq Hp); auto.
  - by eapply live_apart; [apply HS|..].
Qed.

Lemma holds_fun s p k j : rt_ok s -> holds s p k -> holds s p j -> k = j.
Proof.
  intros HS [H1|H1] [H2|H2]; [| | |congruence].
  - destruct H1 as (a & i & e & Ea & Hi & He & -> & ->), H2 as (a' & i' & e' & Ea' & Hi' & He' & Ep & ->). simplify_eq.
    destruct (rt_arena _ HS a Ea) as (HA & _). assert (i' = i) as ->; [|congruence].
    apply (at_offset_unique a HA i e Hi He i' e' Hi'). unfold at_offset. rewrite He'. apply Z.eqb_eq. lia.
  - destruct (in_arena_range _ _ _ HS H1) as (_ & ? & Hx), (live_range _ _ _ HS H2) as (_ & ? & _ & _ & Ho).
    by destruct (proj1 (Hx p ltac:(lia)) (Ho p ltac:(lia))).
  - destruct (in_arena_range _ _ _ HS H2) as (_ & ? & Hx), (live_range _ _ _ HS H1) as (_ & ? & _ & _ & Ho).
    by destruct (proj1 (Hx p ltac:(lia)) (Ho p ltac:(lia))).
Qed.

Definition same_blocks (s s' : Rt) : Prop := forall q j, holds s' q j <-> holds s q j.

(** The bytes of the blocks in [P] keep their contents. *)
Definition kept (P : Z -> Z -> Prop) (s s' : Rt) : Prop :=
  forall q j x, P q j -> q <= x < q + j -> mem s' x = mem s x.

Lemma holds_eq s s' : arena s' = arena s -> live (world s') = live (world s) -> same_blocks s s'.
Proof. intros Ha Hl q j. unfold holds, in_arena. by rewrite Ha, Hl. Qed.

Lemma holds_pos s p k : rt_ok s -> holds s p k -> 0 < p /\ 0 < k /\ is_early_pointer early_base p = false.
Proof.
  intros HS [H|H].
  - destruct (in_arena_range _ _ _ HS H) as (? & ? & Hx). split_and!; [done|done|]. apply (Hx p). lia.
  - destruct (live_range _ _ _ HS H) as (? & ? & ? & _). done.
Qed.

(** Bytes of a block are the C library's only if it is the C library's. *)
Lemma holds_byte s p k x : rt_ok s -> holds s p k -> p <= x < p + k ->
  ~ own x \/ exists q j, live (world s) !! q = Some j /\ q <= x < q + j.
Proof.
  intros HS [H|H] Hx; [left; by apply (in_arena_range _ _ _ HS H)|right; eauto].
Qed.

(** Writing [errno] or bytes outside the C library's private memory. *)
Lemma rt_ok_frame s m e :
  rt_ok s -> (forall a, own a -> (forall p k, live (world s) !! p = Some k -> ~ (p <= a < p + k)) -> m a = mem s a) ->
  let s' := put_world (mkWorld (w_libc (world s)) m e) s in rt_ok s' /\ same_blocks s s'.
Proof.
  intros HS Hm s'. destruct (libc_frame (world s) m e (rt_libc _ HS) Hm) as [Hi Hl]. split; [|by apply holds_eq].
  split; [done|apply HS|apply HS].
Qed.

Lemma wp_set_errno e (Q : Rt -> unit -> Prop) s :
  rt_ok s ->
  (forall s', rt_ok s' -> same_blocks s s' -> arena s' = arena s -> min_size s' = min_size s -> mem s' = mem s ->
     w_libc (world s') = w_libc (world s) -> w_errno (world s') = e -> Q s' tt) ->
  wp (set_errno e) Q s.
Proof. intros HS HQ. apply wp_modify. destruct (rt_ok_frame s (mem s) e HS) as [H1 H2]; [done|]. by apply HQ. Qed.

(** What an allocation of [n] bytes guarantees. *)
Definition malloc_post (s : Rt) (n : Z) (s' : Rt) (p : Z) : Prop :=
  rt_ok s' /\ min_size s' = min_size s /\ (forall n', req_ok s n' -> req_ok s' n') /\ kept (holds s) s s' /\
  ((p = 0 /\ same_blocks s s') \/
   (exists k, n <= k /\ (forall j, ~ holds s p j) /\
      forall q j, holds s' q j <-> (q = p /\ j = k) \/ holds s q j)).

(** A selected allocation stays on the device: the C library is not touched,
    and a failure is [ENOMEM]. *)
Definition no_spill (s s' : Rt) (p : Z) : Prop :=
  w_libc (world s') = w_libc (world s) /\ mem s' = mem s /\
  (if p =? 0 then w_errno (world s') = ENOMEM else arena_owns s' p = true).

Lemma malloc_libc_spec n s :
  rt_ok s -> wp (libc (real_malloc n)) (malloc_post s n) s.
Proof.
  intros HS. unfold wp, libc. pose proof (malloc_law n (world s) (rt_libc _ HS)) as HL.
  destruct (real_malloc n (world s)) as [w p]. destruct HL as (Hi & Hk & HL).
  split_and!; [split; [done|apply HS|apply HS]|done|done| |].
  - intros q j x Hq Hx. apply Hk. by eapply holds_byte.
  - destruct HL as [[-> Hl]|(k & Hn & Hle & Hl)]; [left; split; [done|by apply holds_eq]|right].
    exists k. split_and!; [done| |].
    + intros j [H|H]; [|congruence].
      assert (live w !! p = Some k) as Hlw by (rewrite Hl; apply lookup_insert_eq).
      destruct (live_own _ _ _ Hi Hlw) as (_ & Hk0 & Ho), (in_arena_range _ _ _ HS H) as (_ & ? & Hx).
      apply (Hx p); [lia|]. apply Ho. lia.
    + intros q j. unfold holds, in_arena. simpl. rewrite Hl, lookup_insert_Some. split; [intros [?|[[-> ->]|[_ ?]]]; auto|].
      intros [[-> ->]|[?|H]]; [auto|auto|right; right; split; [congruence|done]].
Qed.

Lemma req_ok_arena s s' n : (forall a', arena s' = Some a' -> exists a, arena s = Some a /\ size a' = size a /\ alignment a' = alignment a) ->
  req_ok s n -> req_ok s' n.
Proof. intros H [Hn Hr]. split; [done|]. intros a' Ha'. destruct (H a' Ha') as (a & Ha & -> & ->). by apply Hr. Qed.

(** A new extent is a new block. *)
Lemma arena_insert_blocks s a i e o rl rq :
  arena s = Some a -> extents a !! i = Some e -> active e = false ->
  forall q j, holds (put_arena (set_extents (<[i := mkExtent o rl rq true]> (extents a)) a) s) q j <->
    (q = base a + o /\ j = rq) \/ holds s q j.
Proof.
  intros Ea Hi He q j. unfold holds. simpl. split.
  - intros [(a' & i' & e' & [= <-] & Hi' & He' & -> & ->)|H]; [|auto]. simpl in *.
    apply list_lookup_insert_Some in Hi' as [(<- & <- & _)|[_ Hi']]; [by left|]. right. left. by exists a, i', e'.
  - intros [[-> ->]|[(a' & i' & e' & Ea' & Hi' & He' & -> & ->)|H]]; [left|left|by right]; simplify_eq.
    + eexists _, i, _. split_and!; [done|apply list_lookup_insert_eq; by eapply lookup_lt_Some|done..].
    + eexists _, i', e'. split_and!; [done|simpl; rewrite list_lookup_insert_ne by congruence; done|done..].
Qed.

Lemma rt_ok_arena s a a' :
  rt_ok s -> arena s = Some a -> arena_ok a' -> base a' = base a -> size a' = size a -> alignment a' = alignment a ->
  rt_ok (put_arena a' s).
Proof.
  intros HS Ea HA' Hb Hs Hal. destruct (rt_arena _ HS a Ea) as (_ & H16 & Hx).
  split; [apply HS| |apply HS]. simpl. intros ? [= <-]. rewrite Hb, Hs, Hal. done.
Qed.

Lemma malloc_arena_spec s a al n :
  rt_ok s -> arena s = Some a -> req_ok s n -> is_power_of_two al = true -> al <= alignment a ->
  wp (on_arena a (allocate dbg codes n al)) (fun s' r =>
    world s' = world s /\
    match r with
    | inr p => malloc_post s n s' p /\ 0 < p /\ arena_owns s' p = true
    | inl e => e = OutOfMemory /\ s' = put_arena a s
    end) s.
Proof.
  intros HS Ea [Hn Hr] Hp Hle. destruct (rt_arena _ HS a Ea) as (HA & H16 & Hx). unfold wp, on_arena.
  destruct (allocate_run a dbg codes n al HA Hlock Hp Hle Hn (Hr a Ea)) as [(i & e & o & Hi & He & Hf & _ & ->)|[-> _]]; [|done].
  cbn [obind]. split; [done|]. destruct (arena_rounded_spec a n HA Hn ltac:(specialize (Hr a Ea); lia)) as (_ & Hrd & Hrb).
  pose proof (arena_insert_blocks s a i e o (rounded a n) (Z.max n 1) Ea Hi He) as Hblocks.
  set (s' := put_arena _ s) in *. assert (rt_ok s') as HS'.
  { apply (rt_ok_arena s a); try done. apply (arena_ok_insert a i e); try done. lia. }
  assert (holds s' (base a + o) (Z.max n 1)) as Hnew by (apply Hblocks; auto).
  assert (in_arena s' (base a + o) (Z.max n 1)) as Hin.
  { destruct Hnew as [?|Hl]; [done|]. destruct (live_range _ _ _ HS' Hl) as (_ & Hpos & _ & _ & Ho).
    destruct (Hx (base a + o)) as [[] _]; [destruct Hf as (? & _ & ? & _); lia|]. apply Ho. lia. }
  destruct (in_arena_range _ _ _ HS' Hin) as (Hpos & _ & Hown). split_and!; [|done|by apply Hown; lia].
  split_and!; [done|done| |by intros q j x _ _|].
  - intros n'. apply req_ok_arena. simpl. intros ? [= <-]. eauto.
  - right. exists (Z.max n 1). split_and!; [lia| |done]. intros j Hj.
    assert (holds s' (base a + o) j) as Hj' by (apply Hblocks; auto). pose proof (holds_fun _ _ _ _ HS' Hnew Hj') as <-.
    destruct Hj as [(a' & i' & e' & Ea' & Hi' & He' & Eo & _)|Hl].
    + simplify_eq. destruct Hf as (_ & _ & _ & Hcl). pose proof (ok_extent _ HA i' e' Hi' He') as (_ & _ & ? & _).
      destruct (Hcl e' (list_elem_of_lookup_2 _ _ _ Hi') He'); lia.
    + destruct (live_range _ _ _ HS Hl) as (_ & Hp1 & _ & _ & Ho).
      destruct (Hx (base a + o)) as [[] _]; [destruct Hf as (? & _ & ? & _); lia|]. apply Ho. lia.
Qed.

Lemma put_arena_id s a : arena s = Some a -> put_arena a s = s.
Proof. destruct s. simpl. by intros ->. Qed.

(** Failing with [errno] set is an allocation that returned null. *)
Lemma null_spec e n s :
  rt_ok s -> wp (null_with e) (fun s' p => malloc_post s n s' p /\ p = 0 /\
    w_libc (world s') = w_libc (world s) /\ mem s' = mem s /\ w_errno (world s') = e) s.
Proof.
  intros HS. apply wp_bind, wp_set_errno; [done|]. intros s' HS' Hb Ha Hm Hmem Hl He. apply wp_ret.
  split; [|done]. split_and!; [done|done| | |].
  - intros n'. apply req_ok_arena. intros a'. rewrite Ha. eauto.
  - intros q j x _ _. by rewrite Hmem.
  - left. by split.
Qed.

Lemma routed_malloc_spec n s :
  rt_ok s -> req_ok s n ->
  wp (routed_malloc dbg codes n) (fun s' p => malloc_post s n s' p /\ (uses_cxl (min_size s) n = true -> no_spill s s' p)) s.
Proof.
  intros HS Hr. unfold routed_malloc. wp_go. destruct (uses_cxl (min_size s) n); cbn [negb].
  2: { eapply wp_conseq; [by apply malloc_libc_spec|]. by intros s' p H. }
  assert (forall s1, s1 = s -> wp (null_with ENOMEM) (fun s' p => malloc_post s n s' p /\ (true = true -> no_spill s s' p)) s1) as Hnull.
  { intros ? ->. eapply wp_conseq; [by apply (null_spec ENOMEM n)|]. intros s' p (H & -> & Hl & Hm & He). by split. }
  destruct (arena s) as [a|] eqn:Ea; [|by apply Hnull].
  apply wp_bind. destruct (rt_arena _ HS a Ea) as (_ & H16 & _).
  eapply wp_conseq; [by apply (malloc_arena_spec s a 16 n)|]. intros s' [e|p] [Hw H].
  - destruct H as [_ ->]. apply Hnull. by apply put_arena_id.
  - destruct H as (Hpost & Hpos & Hown). apply wp_ret. split; [done|]. intros _. unfold no_spill. rewrite Hw.
    split_and!; [done..|]. by destruct (p =? 0) eqn:E; [lia|].
Qed.

Definition free_post (s : Rt) (p : Z) (s' : Rt) : Prop :=
  rt_ok s' /\ min_size s' = min_size s /\ (forall q j, holds s' q j <-> q <> p /\ holds s q j) /\ kept (holds s') s s'.

Lemma free_arena_spec s a i e :
  rt_ok s -> arena s = Some a -> extents a !! i = Some e -> active e = true ->
  wp (on_arena a (deallocate codes (base a + offset e))) (fun s' r => r = inr tt /\ free_post s (base a + offset e) s') s.
Proof.
  intros HS Ea Hi He. destruct (rt_arena _ HS a Ea) as (HA & _ & Hx). unfold wp, on_arena.
  rewrite (deallocate_at a HA i e Hi He codes Hlock). cbn [obind]. split; [done|].
  split_and!; [|done| |by intros q j x _ _].
  - apply (rt_ok_arena s a); try done. by apply arena_ok_clear.
  - intros q j. unfold holds. simpl. split.
    + intros [(a' & i' & e' & [= <-] & Hi' & He' & -> & ->)|Hl].
      * simpl in *. apply list_lookup_insert_Some in Hi' as [(<- & <- & _)|[Hne Hi']]; [done|]. split.
        -- intros Eo. apply Hne. symmetry. apply (at_offset_unique a HA i e Hi He i' e' Hi'). unfold at_offset. rewrite He'. apply Z.eqb_eq. lia.
        -- left. by exists a, i', e'.
      * split; [|auto]. intros ->. destruct (live_range _ _ _ HS Hl) as (_ & ? & _ & _ & Ho).
        pose proof (ok_extent _ HA i e Hi He) as (? & _ & ? & _ & ?). destruct (Hx (base a + offset e)) as [[] _]; [lia|]. apply Ho. lia.
    + intros [Hne [(a' & i' & e' & Ea' & Hi' & He' & -> & ->)|Hl]]; [left|by right]. simplify_eq.
      eexists _, i', e'. split_and!; [done|simpl; rewrite list_lookup_insert_ne by congruence; done|done..].
Qed.

Lemma routed_free_spec s p k :
  rt_ok s -> holds s p k -> wp (routed_free codes early_base p) (fun s' _ => free_post s p s') s.
Proof.
  intros HS Hp. destruct (holds_pos _ _ _ HS Hp) as (Hpos & Hk & He). unfold routed_free. rewrite He.
  destruct (p =? 0) eqn:E; [lia|]. cbn [orb]. wp_go. destruct Hp as [Hp|Hp].
  - destruct (in_arena_range _ _ _ HS Hp) as (_ & _ & Hx). rewrite (proj2 (proj2 (Hx p ltac:(lia))) eq_refl).
    destruct Hp as (a & i & e & Ea & Hi & Hae & -> & ->). rewrite Ea. wp_go. apply wp_bind.
    eapply wp_conseq; [by apply (free_arena_spec s a i e)|]. intros s' r [-> H]. by apply wp_ret.
  - destruct (live_range _ _ _ HS Hp) as (_ & _ & _ & Hno & Hown). rewrite Hno. unfold wp, libc.
    destruct (free_law p k (world s) (rt_libc _ HS) Hp) as (Hi & Hl & Hm). simpl.
    assert (forall q j, holds (put_world (real_free p (world s)) s) q j <-> q <> p /\ holds s q j) as Hb.
    { intros q j. unfold holds, in_arena. simpl. rewrite Hl, lookup_delete_Some. split.
      - intros [H|[? ?]]; [|split; [done|by right]]. split; [|by left]. intros ->.
        destruct (in_arena_range s p j HS H) as (_ & ? & Hx). apply (Hx p); [lia|]. apply Hown. lia.
      - intros [? [H|H]]; [by left|by right]. }
    assert (rt_ok (put_world (real_free p (world s)) s)) as HS' by (split; [done|apply HS|apply HS]).
    split_and!; [done|done|done|]. intros q j x Hq Hx. apply Hm. by apply (holds_byte _ q j x HS').
Qed.

(** What [realloc(p, n)] guarantees for a block of [k] bytes. *)
Definition realloc_post (s : Rt) (p k n : Z) (s' : Rt) (q : Z) : Prop :=
  rt_ok s' /\
  ((q = 0 /\ same_blocks s s' /\ kept (holds s) s s') \/
   (exists j, n <= j /\ (forall r l, holds s' r l <-> (r = q /\ l = j) \/ (r <> p /\ holds s r l)) /\
      (forall i, 0 <= i < Z.min k n -> mem s' (q + i) = mem s (p + i)) /\
      kept (fun r l => r <> p /\ holds s r l) s s')).

(** Writing inside a held block. *)
Lemma wp_edit f q j (Q : Rt -> unit -> Prop) s :
  rt_ok s -> holds s q j -> (forall m x, ~ (q <= x < q + j) -> f m x = m x) ->
  (forall s', rt_ok s' -> same_blocks s s' -> mem s' = f (mem s) -> Q s' tt) ->
  wp (edit f) Q s.
Proof.
  intros HS Hq Hf HQ. apply wp_modify. destruct (rt_ok_frame s (f (mem s)) (w_errno (world s)) HS) as [H1 H2]; [|by apply HQ].
  intros a Ha Hno. apply Hf. intros Hx. destruct (holds_byte s q j a HS Hq Hx) as [?|(r & l & Hl & Hr)]; [done|]. by eapply Hno.
Qed.

Lemma realloc_move_spec s p k n :
  rt_ok s -> req_ok s n -> holds s p k ->
  wp (realloc_move dbg codes early_base p k n) (realloc_post s p k n) s.
Proof.
  intros HS Hr Hp. unfold realloc_move. apply wp_bind. eapply wp_conseq; [by apply routed_malloc_spec|].
  intros s1 q [(HS1 & _ & _ & Hkept & Hcases) _]. destruct (q =? 0) eqn:Eq.
  { apply wp_ret. assert (q = 0) as -> by lia. split; [done|]. destruct Hcases as [[_ Hb]|(j & _ & _ & Hb)]; [left; done|].
    destruct (holds_pos s1 0 j HS1 ltac:(apply Hb; auto)); lia. }
  destruct Hcases as [[-> _]|(j & Hnj & Hfresh & Hb)]; [done|].
  assert (holds s1 q j) as Hq by (apply Hb; auto). assert (holds s1 p k) as Hp1 by (apply Hb; auto).
  assert (q <> p) as Hne by (intros ->; by apply (Hfresh k)).
  assert (forall r l, holds s r l -> q + j <= r \/ r + l <= q) as Hap.
  { intros r l Hrl. apply (holds_apart s1); [done|done|apply Hb; auto|]. intros ->. by apply (Hfresh l). }
  pose proof (Hap p k Hp) as Happ. destruct (holds_pos s p k HS Hp) as (_ & Hk & _). destruct Hr as [Hn _].
  assert (forall m x, scalar_copy q p (Z.to_nat (Z.min k n)) m x =
    if decide (q <= x < q + Z.min k n) then m (p + (x - q)) else m x) as Hcopy.
  { intros m x. rewrite scalar_copy_spec by lia. by rewrite Z2Nat.id by lia. }
  apply wp_bind, (wp_edit _ q j); [done|done|intros m x Hx; by rewrite Hcopy, decide_False by lia|].
  intros s2 HS2 Hb2 Hm2. apply wp_bind. eapply wp_conseq; [apply (routed_free_spec s2 p k HS2); by apply Hb2|].
  intros s3 _ (HS3 & _ & Hb3 & Hk3). apply wp_ret. split; [done|]. right. exists j.
  assert (forall r l, holds s3 r l <-> (r = q /\ l = j) \/ (r <> p /\ holds s r l)) as HB.
  { intros r l. rewrite (Hb3 r l), (Hb2 r l), (Hb r l). split; [intros [? [?|?]]; auto|intros [[-> ->]|[? ?]]; auto]. }
  split_and!; [done|done| |].
  - intros i Hi. rewrite (Hk3 q j) by (first [apply HB; auto|lia]). rewrite Hm2, Hcopy, decide_True by lia.
    replace (p + (q + i - q)) with (p + i) by lia. apply (Hkept p k); [done|lia].
  - intros r l x [Hrp Hrl] Hx. rewrite (Hk3 r l) by (first [apply HB; auto|lia]).
    rewrite Hm2, Hcopy, decide_False by (destruct (Hap r l Hrl); lia). by apply (Hkept r l).
Qed.

Lemma realloc_libc_spec s p k n :
  rt_ok s -> live (world s) !! p = Some k -> 0 < n ->
  wp (libc (real_realloc p n)) (realloc_post s p k n) s.
Proof.
  intros HS Hp Hn. unfold wp, libc. pose proof (realloc_law p k n (world s) (rt_libc _ HS) Hp Hn) as HL.
  destruct (real_realloc p n (world s)) as [w q]. destruct HL as (Hi & Hk & HL).
  assert (rt_ok (put_world w s)) as HS' by (split; [done|apply HS|apply HS]).
  assert (kept (fun r l => r <> p /\ holds s r l) s (put_world w s)) as Hkept.
  { intros r l x [Hne Hrl] Hx. apply Hk. destruct Hrl as [H|H]; [left; by apply (in_arena_range _ _ _ HS H)|right; eauto]. }
  destruct (live_range _ _ _ HS Hp) as (_ & Hk0 & _ & _ & Hown). split; [done|].
  assert (forall l, ~ in_arena s p l) as Hnot.
  { intros l H. destruct (in_arena_range _ _ _ HS H) as (_ & ? & Hx). apply (Hx p); [lia|]. apply Hown. lia. }
  destruct HL as [(-> & Hl & Hsame)|(j & Hq & Hnj & Hl & Hcont)]; [left|right].
  - split_and!; [done|by apply holds_eq|]. intros r l x Hrl Hx. destruct (decide (r = p)) as [->|Hne]; [|by eapply Hkept].
    assert (l = k) as ->.
    { apply (holds_fun s p l k HS Hrl). by right. }
    replace x with (p + (x - p)) by lia. apply Hsame. lia.
  - exists j. split_and!; [done| |done|done]. intros r l. unfold holds. simpl.
    change (in_arena (put_world w s) r l) with (in_arena s r l).
    rewrite Hl, lookup_insert_Some, lookup_delete_Some. split.
    + intros [H|[[-> ->]|(? & ? & ?)]]; [|auto|auto]. right. split; [intros ->; by apply (Hnot l)|auto].
    + intros [[-> ->]|[Hne [H|H]]]; [auto|auto|]. destruct (decide (q = r)) as [->|]; [|auto 6].
      apply lookup_delete_None in Hq as [?|?]; [by subst|congruence].
Qed.

(** C27: [realloc] of a held block. It returns. Either it returns null and every
    block, the old one included, is still held with its contents; or it returns
    a block of at least the new size that starts with the old contents, the old
    block is released, and every other block is held with its contents. This
    holds for moves between device and DRAM in both directions. *)
Theorem preload_realloc_preserves s p k n :
  rt_ok s -> req_ok s n -> 0 < n -> holds s p k ->
  wp (routed_realloc dbg codes early_base p n) (realloc_post s p k n) s.
Proof.
  intros HS Hr Hn Hp. destruct (holds_pos s p k HS Hp) as (Hpos & _ & He). unfold routed_realloc.
  destruct (p =? 0) eqn:E1; [lia|]. destruct (n =? 0) eqn:E2; [lia|]. rewrite He. wp_go. destruct Hp as [Hp|Hp].
  - destruct (in_arena_range s p k HS Hp) as (_ & Hk & Hx). rewrite (proj2 (proj2 (Hx p ltac:(lia))) eq_refl).
    apply wp_bind. unfold arena_size. wp_go. pose proof Hp as (a & i & e & Ea & Hi & Hae & -> & ->). rewrite Ea. apply wp_bind.
    destruct (rt_arena _ HS a Ea) as (HA & _). unfold wp at 1, on_arena.
    rewrite (allocation_size_at a HA i e Hi Hae codes Hlock). cbn [obind]. rewrite put_arena_id by done. apply wp_ret.
    apply realloc_move_spec; [done|done|by left].
  - destruct (live_range s p k HS Hp) as (_ & _ & _ & Hno & _). rewrite Hno. destruct (negb _).
    + by apply realloc_libc_spec.
    + rewrite (usable_law (world s) p k (rt_libc _ HS) Hp). apply realloc_move_spec; [done|done|by right].
Qed.

(** C28: a selected allocation never spills into DRAM. A [malloc] or an aligned
    allocation (up to the arena's own alignment) of at least the policy's
    minimum size returns memory of the device arena, or null with [ENOMEM];
    the C library is not called and no byte of memory changes. *)
Theorem preload_no_spill s n al :
  rt_ok s -> req_ok s n -> uses_cxl (min_size s) n = true ->
  is_power_of_two al = true -> (forall a, arena s = Some a -> al <= alignment a) ->
  wp (routed_malloc dbg codes n) (no_spill s) s /\ wp (routed_aligned_alloc dbg codes al n) (no_spill s) s.
Proof.
  intros HS Hr Hc Hp Hal. split.
  { eapply wp_conseq; [by apply routed_malloc_spec|]. intros s' p [_ H]. by apply H. }
  unfold routed_aligned_alloc. rewrite Hp. cbn [negb]. wp_go. rewrite Hc. cbn [negb].
  assert (forall s1, s1 = s -> wp (null_with ENOMEM) (no_spill s) s1) as Hnull.
  { intros ? ->. eapply wp_conseq; [by apply (null_spec ENOMEM n)|]. intros s' p (_ & -> & Hl & Hm & He). by split. }
  destruct (arena s) as [a|] eqn:Ea; [|by apply Hnull]. apply wp_bind.
  eapply wp_conseq; [apply (malloc_arena_spec s a al n); try done; by apply Hal|]. intros s' [e|p] [Hw H].
  - destruct H as [-> ->]. apply Hnull. by apply put_arena_id.
  - destruct H as (_ & Hpos & Hown). apply wp_ret. unfold no_spill. rewrite Hw.
    split_and!; [done..|]. by destruct (p =? 0) eqn:E; [lia|].
Qed.
End routing.

(** ** A concrete C library

    A bump allocator above [2^44] that never reuses memory: it shows that the
    laws can hold. *)
Module Tiny.
Definition low : Z := 2 ^ 44.

Definition TState : Type := Z * gmap Z Z.

Definition t_malloc (n : Z) (w : World TState) : World TState * Z :=
  let '(nxt, l) := w_libc w in
  let k := Z.max n 1 in
  (mkWorld (nxt + k, <[nxt := k]> l) (w_mem w) (w_errno w), nxt).

Definition t_free (p : Z) (w : World TState) : World TState :=
  mkWorld ((w_libc w).1, delete p (w_libc w).2) (w_mem w) (w_errno w).

Definition t_usable (w : World TState) (p : Z) : Z := default 0 ((w_libc w).2 !! p).

Definition t_realloc (p n : Z) (w : World TState) : World TState * Z :=
  let old := t_usable w p in
  let '(w', q) := t_malloc n w in
  (t_free p (set_mem (scalar_copy q p (Z.to_nat (Z.min old n)) (w_mem w')) w'), q).

Definition t_calloc (c n : Z) (w : World TState) : World TState * Z :=
  let '(w', p) := t_malloc (c * n) w in
  (set_mem (scalar_fill p 0 (Z.to_nat (c * n)) (w_mem w')) w', p).

#[export] Instance libc : Libc := {|
  LState := TState;
  real_malloc := t_malloc;
  real_calloc := t_calloc;
  real_realloc := t_realloc;
  real_free := t_free;
  real_memalign := fun _ n => t_malloc n;
  real_malloc_usable_size := t_usable;
|}.

Definition t_live (w : World TState) : gmap Z Z := (w_libc w).2.

Definition t_own (a : Z) : Prop := low <= a.

Record t_inv (w : World TState) : Prop := {
  ti_next : low <= (w_libc w).1;
  ti_block : forall p k, t_live w !! p = Some k -> low <= p /\ 0 < k /\ p + k <= (w_libc w).1;
  ti_apart : forall p k q j, t_live w !! p = Some k -> t_live w !! q = Some j -> p <> q -> p + k <= q \/ q + j <= p;
}.

Lemma t_fresh w : t_inv w -> t_live w !! (w_libc w).1 = None.
Proof.
  intros HI. destruct (t_live w !! (w_libc w).1) as [k|] eqn:E; [|done]. apply (ti_block _ HI) in E. lia.
Qed.

Lemma t_inv_malloc n w : t_inv w -> t_inv (t_malloc n w).1.
Proof.
  destruct w as [[nxt l] m e]. intros [Hn Hb Ha]. simpl in *. split; simpl; unfold t_live in *; simpl in *; [lia| |].
  - intros p k [[<- <-]|[_ H]]%lookup_insert_Some; [lia|]. specialize (Hb p k H). lia.
  - intros p k q j [[<- <-]|[_ H1]]%lookup_insert_Some [[<- <-]|[_ H2]]%lookup_insert_Some Hne; [done| | |by eapply Ha].
    + specialize (Hb q j H2). lia.
    + specialize (Hb p k H1). lia.
Qed.

Lemma t_inv_shrink w m e l :
  t_inv w -> (forall p k, l !! p = Some k -> t_live w !! p = Some k) -> t_inv (mkWorld ((w_libc w).1, l) m e).
Proof. intros [Hn Hb Ha] Hs. split; unfold t_live in *; simpl in *; [done|eauto|eauto]. Qed.

Lemma t_realloc_law p k n w : t_inv w -> t_live w !! p = Some k -> 0 < n ->
  let '(w', q) := t_realloc p n w in
  t_inv w' /\
  (forall a, ~ t_own a \/ (exists r j, r <> p /\ t_live w !! r = Some j /\ r <= a < r + j) -> w_mem w' a = w_mem w a) /\
  ((q = 0 /\ t_live w' = t_live w /\ forall i, 0 <= i < k -> w_mem w' (p + i) = w_mem w (p + i)) \/
   (exists j, delete p (t_live w) !! q = None /\ n <= j /\ t_live w' = <[q := j]> (delete p (t_live w)) /\
      forall i, 0 <= i < Z.min k n -> w_mem w' (q + i) = w_mem w (p + i))).
Proof.
  intros HI Hp Hn. pose proof (t_inv_malloc n w HI) as HI1. pose proof (t_fresh w HI) as Hf.
  pose proof (ti_block _ HI p k Hp) as Hpk. pose proof (ti_next _ HI) as Hlow.
  unfold t_realloc, t_usable. fold (t_live w). rewrite Hp. simpl default.
  destruct w as [[nxt l] m e]. unfold t_live in *. simpl in *.
  assert (forall x, scalar_copy nxt p (Z.to_nat (Z.min k n)) m x =
    if decide (nxt <= x < nxt + Z.min k n) then m (p + (x - nxt)) else m x) as Hc.
  { intros x. rewrite scalar_copy_spec by lia. by rewrite Z2Nat.id by lia. }
  split_and!.
  - apply (t_inv_shrink _ _ e _ HI1). by intros r j [_ H]%lookup_delete_Some.
  - intros a Ha. rewrite Hc, decide_False; [done|]. intros Hx. destruct Ha as [Ha|(r & j & _ & Hr & Hra)].
    + apply Ha. unfold t_own. lia.
    + pose proof (ti_block _ HI r j Hr). simpl in *. lia.
  - right. exists (Z.max n 1). split_and!; [by rewrite lookup_delete_None; right|lia| |].
    + rewrite delete_insert_ne; [done|]. intros ->. congruence.
    + intros i Hi. rewrite Hc, decide_True by lia. f_equal. lia.
Qed.

#[export] Instance laws : LibcLaws libc.
Proof.
  refine {| live := t_live; own := t_own; libc_inv := t_inv |}.
  - intros [[nxt l] m0 e0] m e HI _. split; [|done]. by apply (t_inv_shrink _ m e _ HI).
  - intros w p k HI Hl. pose proof (ti_block _ HI p k Hl). unfold t_own, low in *. split_and!; [lia|lia|lia].
  - intros w p k q j HI. by apply ti_apart.
  - intros n w HI. pose proof (t_inv_malloc n w HI) as HI1. pose proof (t_fresh w HI) as Hf.
    destruct w as [[nxt l] m e]. simpl in *. split_and!; [done|done|]. right. exists (Z.max n 1). split_and!; [done|lia|done].
  - intros p k w HI Hl. split_and!; [|done|done]. apply (t_inv_shrink _ _ _ _ HI). by intros r j [_ H]%lookup_delete_Some.
  - apply t_realloc_law.
  - intros w p k _ Hl. unfold real_malloc_usable_size. simpl. unfold t_usable. unfold t_live in Hl. by rewrite Hl.
Defined.
End Tiny.

(** ** Concrete executions *)
Module Runs.
Export Tiny.

Definition early_base : Z := 2 ^ 30.
Definition codes : Z * Z := (0, 0).

(** A 16 MiB arena, and a C library with one block of 100 bytes. *)
Definition rt0 : Rt := mkRt DEFAULT_MIN_SIZE (Some DaxArena.Runs.arena) (mkWorld (low, ∅) (fun _ => 7) 0).
Definition rt1 : Rt := put_world (t_malloc 100 (world rt0)).1 rt0.

Lemma rt0_inv : t_inv (world rt0).
Proof. split; unfold t_live; simpl; [lia|by intros p k ?%lookup_empty_Some|by intros p k q j ?%lookup_empty_Some]. Qed.

Lemma rt_ok_world w : t_inv w -> rt_ok early_base (put_world w rt0).
Proof.
  intros HI. split; [done| |].
  - intros a [= <-]. split_and!; [by eapply arena_reach_ok, DaxArena.Runs.arena_reachable|by vm_compute|].
    assert (base DaxArena.Runs.arena = 2097152 /\ size DaxArena.Runs.arena = 16777216) as [-> ->] by by vm_compute.
    intros x Hx. unfold is_early_pointer, own, laws, t_own, low, early_base. split; [lia|].
    apply andb_false_iff. left. lia.
  - intros x. unfold is_early_pointer, own, laws, t_own, low, early_base, EARLY_SIZE. change (Z.shiftl 8 20) with 8388608.
    intros [? ?]%andb_true_iff. lia.
Qed.

Lemma rt0_req n : 0 <= n <= 2 ^ 40 -> req_ok rt1 n /\ req_ok rt0 n.
Proof.
  intros Hn. assert (size DaxArena.Runs.arena = 16777216 /\ alignment DaxArena.Runs.arena = 2097152) as [E1 E2] by by vm_compute.
  split; (split; [lia|]); intros a [= <-]; rewrite E1, E2; lia.
Qed.

Lemma preload_no_spill_witness :
  wp (routed_malloc true codes (3 * 2 ^ 20)) (no_spill rt0) rt0 /\
  wp (routed_aligned_alloc true codes 4096 (3 * 2 ^ 20)) (no_spill rt0) rt0.
Proof.
  apply (preload_no_spill true codes (or_introl eq_refl) early_base rt0 (3 * 2 ^ 20) 4096).
  - exact (rt_ok_world (world rt0) rt0_inv).
  - apply (rt0_req (3 * 2 ^ 20)). lia.
  - vm_compute. reflexivity.
  - vm_compute. reflexivity.
  - intros a E. injection E as <-. vm_compute. discriminate.
Defined.

(** The block of 100 bytes grows to 3 MiB and moves to the device. *)
Lemma preload_realloc_preserves_witness :
  wp (routed_realloc true codes early_base low (3 * 2 ^ 20)) (realloc_post early_base rt1 low 100 (3 * 2 ^ 20)) rt1.
Proof.
  apply (preload_realloc_preserves true codes (or_introl eq_refl) early_base rt1 low 100 (3 * 2 ^ 20)).
  - exact (rt_ok_world _ (t_inv_malloc 100 (world rt0) rt0_inv)).
  - apply (rt0_req (3 * 2 ^ 20)). lia.
  - lia.
  - right. vm_compute. reflexivity.
Defined.

(** The tests of the source file. *)
Example test_routing :
  wp (a <- routed_malloc true codes 4096 ;; b <- routed_malloc true codes (8 * 2 ^ 20) ;; s <- gets (fun s => s) ;;
      ret (arena_owns s a, arena_owns s b)) (fun _ r => r = (false, true)) rt0.
Proof. by vm_compute. Qed.

Example test_oom :
  wp (routed_malloc true codes (32 * 2 ^ 20)) (fun s p => p = 0 /\ w_errno (world s) = ENOMEM) rt0.
Proof. by vm_compute. Qed.

Definition unready : Proc := mkProc false rt0 0.

(** Before initialisation the alignment of a request is ignored: a page-aligned
    request after a small one is only 16-byte aligned. *)
Theorem early_memalign_misaligned :
  wp (malloc true codes early_base 1 ;;; posix_memalign true codes early_base 8 4096 4096)
    (fun _ r => exists p, r = (0, Some p) /\ p mod 4096 = 16) unready.
Proof. vm_compute. by eexists. Qed.

(** Before initialisation [realloc] of the null pointer, which the C standard
    defines as [malloc], returns null. *)
Theorem early_realloc_null :
  wp (realloc true codes early_base 0 64) (fun _ p => p = 0) unready.
Proof. by vm_compute. Qed.
End Runs.
