(* ===== verification/Stat.v ===== *)
(** * Stat: the statistics recorders (cxlalloc/src/stat.rs)

    The heap operations record events; with the statistics features on, an
    [EventRecorder] counts them and a [MemoryRecorder] keeps, per thread,
    sloppy gauges of where the slabs are. A gauge prints its value and restarts
    from zero when it reaches the threshold. *)

From Stdlib Require Import ZArith Lia Bool String.
From stdpp Require Import base numbers option gmap functions strings list.
From S2P Require Import Prelude Bitset Size Data Cas Slab Heap HeapSys.
Local Open Scope Z_scope.
Local Open Scope prog_scope.

(** ** Process-wide fault counters *)
Module Process.
Inductive event := FaultSmall | FaultLarge | FaultHuge.

Record recorder := mkRecorder { fault_small : Z; fault_large : Z; fault_huge : Z }.

(** [Recorder::record]: [fetch_add] wraps around. *)
Definition record (e : event) (r : recorder) : recorder :=
  let incr x := wrap 64 (x + 1) in
  match e with
  | FaultSmall => mkRecorder (incr (fault_small r)) (fault_large r) (fault_huge r)
  | FaultLarge => mkRecorder (fault_small r) (incr (fault_large r)) (fault_huge r)
  | FaultHuge => mkRecorder (fault_small r) (fault_large r) (incr (fault_huge r))
  end.
End Process.

Record Report := mkReport {
  rp_heap : string;
  rp_event : string;
  rp_class : option Z;
  rp_count : Z;
}.

Definition process_report (r : Process.recorder) : list Report :=
  [mkReport "small" "fault" None (Process.fault_small r);
   mkReport "large" "fault" None (Process.fault_large r);
   mkReport "huge" "fault" None (Process.fault_huge r)].

(** ** Event counters *)

(** The counters of [EventRecorder]; those of an array have the class. *)
Inductive counter :=
| CBump | CGlobalToUnsized | CUnsizedToGlobal
| CAllocate (c : Z) | CUnsizedToSized (c : Z) | CFree (c : Z) | CSizedToUnsized (c : Z)
| CDetach (c : Z) | CDisown (c : Z) | CAttach (c : Z) | CClaim (c : Z).

#[global] Instance counter_eq_dec : EqDecision counter.
Proof. solve_decision. Defined.

(** ** Memory gauges *)
Inductive gauge :=
| GData | GSlabLocal | GSlabRemote | GGlobalUnsized | GLocalUnsized
| GApplication (c : Z) | GLocalSized (c : Z) | GDetached (c : Z) | GDisowned (c : Z).

#[global] Instance gauge_eq_dec : EqDecision gauge.
Proof. solve_decision. Defined.

(** [MemoryRecorder] with what it printed: gauge, size and value. *)
Record MemoryRecorder := mkMemory {
  gauges : gauge -> Z;
  printed : list (gauge * option Z * Z);
}.

Definition THRESHOLD : Z := Z.shiftl 1 12.

(** [Sloppy::apply] on one cell: the new content and the value to print. *)
Definition sloppy_apply (prev delta : Z) : Z * option Z :=
  let next := prev + delta in
  if Z.abs next <? THRESHOLD then (next, None) else (0, Some next).

Section recorders.
Context (cfg : Cfg) `{B : Bracket} (size_local size_remote : Z) (name : string).

(** [B::new(size).unwrap()]. *)
Definition class_of (size : Z) : outcome Z :=
  obind (class_new size) (fun o => match o with Some c => Done c | None => Panic end).

Definition counter_of (e : Event) : outcome counter :=
  match e with
  | EvBump => Done CBump
  | EvGlobalToUnsized => Done CGlobalToUnsized
  | EvAllocate size => obind (class_of size) (fun c => Done (CAllocate c))
  | EvUnsizedToSized c => Done (CUnsizedToSized c)
  | EvFree size => obind (class_of size) (fun c => Done (CFree c))
  | EvSizedToUnsized c => Done (CSizedToUnsized c)
  | EvUnsizedToGlobal => Done CUnsizedToGlobal
  | EvDetach c => Done (CDetach c)
  | EvDisown c => Done (CDisown c)
  | EvAttach c => Done (CAttach c)
  | EvClaim c => Done (CClaim c)
  end.

(** [EventRecorder::record]. *)
Definition event_record (e : Event) : M (counter -> Z) unit :=
  k <- lift (counter_of e) ;;
  prev <- gets (fun r => r k) ;;
  next <- lift (arith (debug_assertions cfg) 64 (prev + 1)) ;;
  modify (fun r => <[k := next]> r).

(** [EventRecorder::report_array] and [report]. *)
Definition report_array (r : counter -> Z) (event : string) (k : Z -> counter) : list Report :=
  (fun c => mkReport name event
     (if class_size c =? 2 ^ 64 - 1 then None else Some (class_size c)) (r (k c)))
  <$> List.filter (fun c => negb (is_zero c)) (seqZ 0 COUNT).

Definition report_counter (r : counter -> Z) (event : string) (k : counter) : Report :=
  mkReport name event None (r k).

Definition event_report (r : counter -> Z) : list Report :=
  report_array r "allocate" CAllocate ++ report_array r "unsized_to_sized" CUnsizedToSized ++
  report_array r "free" CFree ++ report_array r "sized_to_unsized" CSizedToUnsized ++
  report_array r "detach" CDetach ++ report_array r "disown" CDisown ++
  report_array r "attach" CAttach ++ report_array r "claim" CClaim ++
  [report_counter r "bump" CBump; report_counter r "global_to_unsized" CGlobalToUnsized;
   report_counter r "unsized_to_global" CUnsizedToGlobal].

(** [update(&self.g, delta)], and the [apply] of its value. *)
Definition upd (g : gauge) (size : option Z) (delta : Z) : M MemoryRecorder unit :=
  modify (fun r =>
    let '(v, out) := sloppy_apply (gauges r g) delta in
    mkMemory (<[g := v]> (gauges r))
      match out with Some x => (g, size, x) :: printed r | None => printed r end).

(** [MemoryRecorder::record]. *)
Definition memory_record (e : Event) : M MemoryRecorder unit :=
  let slab := SIZE_SLAB in
  match e with
  | EvAllocate size =>
      c <- lift (class_of size) ;;
      upd (GApplication c) (Some size) size
  | EvBump =>
      let batch := BATCH_BUMP_POP cfg in
      let size := slab * batch in
      upd GLocalUnsized None size ;;;
      upd GData None size ;;;
      upd GSlabLocal None (size_local * batch) ;;;
      upd GSlabRemote None (size_remote * batch)
  | EvGlobalToUnsized =>
      upd GGlobalUnsized None (- slab) ;;;
      upd GLocalUnsized None slab
  | EvUnsizedToSized c =>
      upd GLocalUnsized None (- slab) ;;;
      upd (GLocalSized c) (Some (class_size c)) slab
  | EvFree size =>
      c <- lift (class_of size) ;;
      upd (GApplication c) (Some size) (- size)
  | EvSizedToUnsized c =>
      upd (GLocalSized c) (Some (class_size c)) (- slab) ;;;
      upd GLocalUnsized None slab
  | EvUnsizedToGlobal =>
      let batch := BATCH_GLOBAL_PUSH cfg in
      upd GLocalUnsized None (- slab * batch) ;;;
      upd GGlobalUnsized None (slab * batch)
  | EvDetach c =>
      upd (GLocalSized c) (Some (class_size c)) (- slab) ;;;
      upd (GDetached c) (Some (class_size c)) slab
  | EvDisown c =>
      upd (GDetached c) (Some (class_size c)) (- slab) ;;;
      upd (GDisowned c) (Some (class_size c)) slab
  | EvAttach c =>
      upd (GDetached c) (Some (class_size c)) (- slab) ;;;
      upd (GLocalSized c) (Some (class_size c)) slab
  | EvClaim c =>
      upd (GDisowned c) (Some (class_size c)) (- slab) ;;;
      upd GLocalUnsized None slab
  end.

Fixpoint memory_records (l : list Event) : M MemoryRecorder unit :=
  match l with
  | [] => ret tt
  | e :: l => memory_record e ;;; memory_records l
  end.

Fixpoint event_records (l : list Event) : M (counter -> Z) unit :=
  match l with
  | [] => ret tt
  | e :: l => event_record e ;;; event_records l
  end.

(** ** The gauges are exact *)

(** The value of a gauge: what it printed so far and its residue. *)
Definition printed_of (g : gauge) (x : gauge * option Z * Z) : Z := if decide (x.1.1 = g) then x.2 else 0.

Definition total (r : MemoryRecorder) (g : gauge) : Z := gauges r g + zsum (printed_of g) (printed r).

Lemma upd_total g size delta r :
  exists r', upd g size delta r = Done (r', tt) /\
    (forall g', total r' g' = total r g' + if decide (g = g') then delta else 0) /\
    ((forall g', Z.abs (gauges r g') < THRESHOLD) -> forall g', Z.abs (gauges r' g') < THRESHOLD).
Proof.
  unfold upd, modify, sloppy_apply. destruct (Z.abs (gauges r g + delta) <? THRESHOLD) eqn:E; eexists; (split; [done|split]).
  - intros g'. unfold total. simpl. destruct (decide (g = g')) as [<-|Hne]; [rewrite fn_lookup_insert; lia|].
    rewrite fn_lookup_insert_ne by done. lia.
  - intros H g'. simpl. destruct (decide (g = g')) as [<-|Hne]; [rewrite fn_lookup_insert; lia|]. by rewrite fn_lookup_insert_ne.
  - intros g'. unfold total. simpl. unfold printed_of at 1. simpl. destruct (decide (g = g')) as [<-|Hne]; [rewrite fn_lookup_insert; lia|].
    rewrite fn_lookup_insert_ne by done. lia.
  - intros H g'. simpl. destruct (decide (g = g')) as [<-|Hne]; [by rewrite fn_lookup_insert|]. by rewrite fn_lookup_insert_ne.
Qed.

(** Slabs in the gauges of the lists, over all classes. *)
Definition placed (r : MemoryRecorder) : Z :=
  total r GGlobalUnsized + total r GLocalUnsized +
  zsum (fun c => total r (GLocalSized c) + total r (GDetached c) + total r (GDisowned c)) (seqZ 0 COUNT).

(** What a gauge contributes to [placed] minus the data gauge. *)
Definition weight (g : gauge) : Z :=
  match g with
  | GData => -1
  | GGlobalUnsized | GLocalUnsized => 1
  | GLocalSized c | GDetached c | GDisowned c => if (0 <=? c) && (c <? COUNT) then 1 else 0
  | _ => 0
  end.

Definition residues_small (r : MemoryRecorder) : Prop := forall g, Z.abs (gauges r g) < THRESHOLD.

Definition class_of_gauge (g : gauge) : option Z :=
  match g with GLocalSized c | GDetached c | GDisowned c => Some c | _ => None end.

Lemma zsum_add {A} (f g : A -> Z) l : zsum (fun x => f x + g x) l = zsum f l + zsum g l.
Proof. induction l as [|x l IH]; simpl; lia. Qed.

Lemma zsum_at (c d : Z) (l : list Z) :
  NoDup l -> zsum (fun x => if decide (x = c) then d else 0) l = if decide (c ∈ l) then d else 0.
Proof.
  induction 1 as [|x l Hx Hl IH]; [reflexivity|]. cbn [zsum]. rewrite IH.
  destruct (decide (x = c)) as [->|Hne].
  - rewrite (decide_False (P := c ∈ l)), decide_True by set_solver. lia.
  - destruct (decide (c ∈ l)); [rewrite decide_True by set_solver|rewrite decide_False by set_solver]; lia.
Qed.

Lemma wp_upd g size delta (Q : MemoryRecorder -> unit -> Prop) r :
  residues_small r ->
  (forall r', residues_small r' ->
     placed r' - total r' GData = placed r - total r GData + weight g * delta -> Q r' tt) ->
  wp (upd g size delta) Q r.
Proof.
  intros Hr HQ. destruct (upd_total g size delta r) as (r' & E & Ht & Hs). unfold wp. rewrite E. apply HQ; [exact (Hs Hr)|].
  unfold placed. rewrite !Ht.
  assert (zsum (fun c => total r' (GLocalSized c) + total r' (GDetached c) + total r' (GDisowned c)) (seqZ 0 COUNT) =
    zsum (fun c => total r (GLocalSized c) + total r (GDetached c) + total r (GDisowned c)) (seqZ 0 COUNT) +
    match class_of_gauge g with Some c => if decide (c ∈ seqZ 0 COUNT) then delta else 0 | None => 0 end) as ->.
  { destruct (class_of_gauge g) as [c|] eqn:Ec.
    - rewrite <- (zsum_at c delta) by apply NoDup_seqZ. rewrite <- zsum_add. apply zsum_ext. intros x _. rewrite !Ht.
      destruct g; simplify_eq/=; repeat case_decide; simplify_eq/=; lia.
    - rewrite Z.add_0_r. apply zsum_ext. intros x _. rewrite !Ht. destruct g; simplify_eq/=; repeat case_decide; simplify_eq/=; lia. }
  destruct g; simpl; repeat case_decide; simplify_eq/=; try lia.
  all: rename select (_ ∈ _) into Hc || rename select (_ ∉ _) into Hc; rewrite elem_of_seqZ in Hc;
    destruct (_ && _) eqn:E'; lia.
Qed.

(** Classes named by the events of a heap are classes of the bracket. *)
Definition event_ok (e : Event) : Prop :=
  match e with
  | EvUnsizedToSized c | EvSizedToUnsized c | EvDetach c | EvDisown c | EvAttach c | EvClaim c => 0 <= c < COUNT
  | EvAllocate size | EvFree size => exists c, class_of size = Done c
  | _ => True
  end.

Lemma memory_record_balance e r :
  event_ok e -> residues_small r ->
  wp (memory_record e) (fun r' _ => residues_small r' /\ placed r' - total r' GData = placed r - total r GData) r.
Proof.
  assert (forall c, 0 <= c < COUNT -> (0 <=? c) && (c <? COUNT) = true) as Hw by (intros; lia).
  intros He Hr. destruct e; simpl in He |- *;
    try (destruct He; eapply wp_bind, wp_lift; [eassumption|]); repeat first
    [ lazymatch goal with |- wp (bind _ _) _ _ => apply wp_bind end
    | apply wp_upd; [assumption|intros ? ? ?]
    | split; [done|]; simpl in *; rewrite ?Hw in * by done; lia ].
Qed.

Definition memory_default : MemoryRecorder := mkMemory (fun _ => 0) [].

(** slab accounting is conserved. For every sequence of heap events, what
    the gauges printed plus their residues adds up: the data gauge equals the
    slabs accounted to the global stack, the unsized stacks, and the sized,
    detached and disowned slabs of every class; and what a gauge still holds
    back is below the printing threshold. *)
Theorem memory_gauges_balance l :
  Forall event_ok l ->
  wp (memory_records l) (fun r _ => residues_small r /\ total r GData = placed r) memory_default.
Proof.
  intros Hl. assert (forall r, residues_small r -> wp (memory_records l)
    (fun r' _ => residues_small r' /\ placed r' - total r' GData = placed r - total r GData) r) as H.
  { induction Hl as [|e l He Hl IH]; intros r Hr; [done|]. simpl. apply wp_bind.
    eapply wp_conseq; [by apply memory_record_balance|]. intros r1 _ [Hr1 E1].
    eapply wp_conseq; [by apply IH|]. intros r2 _ [Hr2 E2]. split; [done|lia]. }
  eapply wp_conseq; [apply H; intros g; by vm_compute|]. intros r _ [Hr E]. split; [done|].
  assert (placed memory_default = 0) as E0.
  { unfold placed. rewrite zsum_const0; [done|]. by intros c _. }
  rewrite E0 in E. change (total memory_default GData) with 0 in E. lia.
Qed.

(** An event that increments the counter [k]. *)
Definition counts (k : counter) (e : Event) : bool :=
  match counter_of e with Done k' => bool_decide (k' = k) | _ => false end.

(** Every counter of the event recorder is the number of its events. *)
Theorem event_counters_count l :
  Forall event_ok l -> Z.of_nat (length l) < 2 ^ 64 ->
  wp (event_records l) (fun r _ => forall k, r k = Z.of_nat (length (List.filter (counts k) l))) (fun _ => 0).
Proof.
  intros Hl Hn.
  assert (forall r, (forall k, 0 <= r k) -> (forall k, r k + Z.of_nat (length l) < 2 ^ 64) -> wp (event_records l)
    (fun r' _ => forall k, r' k = r k + Z.of_nat (length (List.filter (counts k) l))) r) as H.
  { clear Hn. induction Hl as [|e l He Hl IH]; intros r Hr Hb; [intros k; simpl; lia|]. simpl. apply wp_bind.
    assert (exists k0, counter_of e = Done k0) as [k0 E].
    { destruct e; simpl in He |- *; try by eexists. all: destruct He as [c ->]; by eexists. }
    unfold event_record. eapply wp_bind, wp_lift; [exact E|]. wp_go. eapply wp_lift.
    { apply arith_ok. specialize (Hr k0). specialize (Hb k0). simpl in Hb. unfold in_range. lia. }
    wp_go. eapply wp_conseq; [apply IH|].
    - intros k. destruct (decide (k0 = k)) as [<-|Hne]; [rewrite fn_lookup_insert; specialize (Hr k0); lia|by rewrite fn_lookup_insert_ne].
    - intros k. specialize (Hb k). simpl in Hb.
      destruct (decide (k0 = k)) as [<-|Hne]; [rewrite fn_lookup_insert; lia|rewrite fn_lookup_insert_ne by done; lia].
    - intros r' u Hr' k. rewrite Hr'. unfold counts at 2. rewrite E. destruct (decide (k0 = k)) as [<-|Hne].
      + rewrite fn_lookup_insert, bool_decide_eq_true_2 by done. simpl. lia.
      + by rewrite fn_lookup_insert_ne, bool_decide_eq_false_2 by done. }
  eapply wp_conseq; [apply H; [done|lia]|]. intros r u Hr k. rewrite Hr. lia.
Qed.
End recorders.

(** ** Concrete executions *)
Module Runs.
#[local] Existing Instance Large.bracket.
#[local] Existing Instance large_into.

(** The default build with statistics. *)
Definition cfg : Cfg := mkCfg false false true true true 0 1 1.

Definition events_of (l : list hop) : list Event :=
  match exec_all cfg l hs0 with Done (s, _) => rev (snd <$> hs_stat s) | _ => [] end.

Definition memory_of (l : list Event) : MemoryRecorder :=
  match memory_records cfg 64 2 l memory_default with Done (r, _) => r | _ => memory_default end.

Lemma memory_gauges_balance_witness :
  wp (memory_records cfg 64 2 (events_of [HAlloc 1 9; HFree 2 524288]))
    (fun r _ => residues_small r /\ total r GData = placed r) memory_default.
Proof.
  apply (memory_gauges_balance cfg 64 2 (events_of [HAlloc 1 9; HFree 2 524288])).
  assert (events_of [HAlloc 1 9; HFree 2 524288] =
    [EvBump; EvUnsizedToSized 9; EvAllocate 524288; EvDetach 9; EvFree 524288; EvClaim 9; EvUnsizedToGlobal]) as ->
    by (vm_compute; reflexivity).
  assert (class_of 524288 = Done 9) as E by (vm_compute; reflexivity).
  assert (0 <= 9 < COUNT) as E9 by (split; vm_compute; [discriminate|reflexivity]).
  repeat (apply Forall_cons; split); [exact I|exact E9|exists 9; exact E|exact E9|exists 9; exact E|exact E9|exact I|apply Forall_nil; exact I].
Defined.

(** Claiming a slab that was detached but never disowned is booked as taking it
    from the disowned slabs. A block of a one-block slab is allocated by thread
    1 and freed by thread 2: afterwards no slab is detached or disowned, but
    the gauges stay at one slab detached and minus one slab disowned. *)
Theorem claim_misbooks_detached :
  let r := memory_of (events_of [HAlloc 1 9; HFree 2 524288]) in
  total r (GDetached 9) = SIZE_SLAB /\ total r (GDisowned 9) = - SIZE_SLAB.
Proof. by vm_compute. Qed.
End Runs.
