(* ===== verification/Shm.v ===== *)
(** * Shm: the backing stores of the heap (extern/shm)

    A backend opens a [File] for an id; mapping the file puts it into the
    address space, at a fixed address with [MAP_FIXED]. The address space is
    the list of mappings, newest first: a byte belongs to the newest mapping
    over it. The kernel's answers are the record [Os], indexed by the number of
    system calls made so far. *)

From Stdlib Require Import ZArith Lia Bool String.
From stdpp Require Import base numbers option gmap functions strings list.
From S2P Require Import Prelude Text.
Local Open Scope Z_scope.
Local Open Scope prog_scope.
Local Open Scope res_scope.

(** [Page::SIZE]. *)
Definition PAGE : Z := 4096.

(** ** Errors *)
Inductive Error :=
| ShmName
| ShmError (path : list Z) (name : string) (source : Z)
| Libc (name : string) (source : Z).

Definition EEXIST : Z := 17.
Definition ENOENT : Z := 2.

(** [Error::with_path]; [None] is the [unreachable!]. *)
Definition with_path_err (path : list Z) (e : Error) : option Error :=
  match e with
  | ShmName | ShmError _ _ _ => None
  | Libc name source => Some (ShmError path name source)
  end.

Definition is_already_exists (e : Error) : bool :=
  match e with Libc _ source => source =? EEXIST | _ => false end.

Definition is_not_found (e : Error) : bool :=
  match e with ShmError _ _ source | Libc _ source => source =? ENOENT | ShmName => false end.

(** ** Files and the address space *)

Inductive Fd :=
| FdShm (path : list Z)
| FdDax (device : nat)
| FdIvshmem.

#[global] Instance Fd_eq_dec : EqDecision Fd.
Proof. solve_decision. Defined.

Record File := mkFile {
  fd : option Fd;
  fsize : Z;
  foffset : Z;
  create : bool;
  extra_flags : Z;
  override_flags : option Z;
}.

(** What holds the bytes of a mapping: an open file, or the anonymous memory of
    one [mmap] call. *)
Inductive Backing :=
| Anonymous (call : nat)
| Opened (f : Fd).

#[global] Instance Backing_eq_dec : EqDecision Backing.
Proof. solve_decision. Defined.

Record Mapping := mkMapping { m_addr : Z; m_size : Z; m_backing : Backing; m_offset : Z }.

(** A DAX device: [offset] is its bump pointer. *)
Record Device := mkDevice { d_size : Z; d_align : Z; d_offset : Z }.

Inductive BackendKind := KMmap | KShm | KDax | KDaxMmap | KIvshmem.

(** The process and the backend object, with the shared-memory objects of the
    machine (their sizes). *)
Record Vm := mkVm {
  kind : BackendKind;
  maps : list Mapping;
  calls : nat;
  objects : gmap (list Z) Z;
  devices : list Device;
  dax_next : Z;
  hybrid_next : Z;
}.

Definition set_maps (l : list Mapping) (s : Vm) : Vm :=
  mkVm (kind s) l (calls s) (objects s) (devices s) (dax_next s) (hybrid_next s).
Definition tick (s : Vm) : Vm :=
  mkVm (kind s) (maps s) (S (calls s)) (objects s) (devices s) (dax_next s) (hybrid_next s).
Definition set_objects (o : gmap (list Z) Z) (s : Vm) : Vm :=
  mkVm (kind s) (maps s) (calls s) o (devices s) (dax_next s) (hybrid_next s).
Definition set_devices (l : list Device) (n : Z) (s : Vm) : Vm :=
  mkVm (kind s) (maps s) (calls s) (objects s) l n (hybrid_next s).
Definition set_hybrid (n : Z) (s : Vm) : Vm :=
  mkVm (kind s) (maps s) (calls s) (objects s) (devices s) (dax_next s) n.

(** Where the byte at [a] lives. *)
Definition covers (a : Z) (m : Mapping) : bool := (m_addr m <=? a) && (a <? m_addr m + m_size m).

Definition resolve (s : Vm) (a : Z) : option (Backing * Z) :=
  match List.find (covers a) (maps s) with
  | Some m => Some (m_backing m, m_offset m + (a - m_addr m))
  | None => None
  end.

(** The kernel's answers: an error number or the result. *)
Record Os := mkOs {
  os_mmap : nat -> option Z -> Z -> Z + Z;
  os_munmap : nat -> option Z;
  os_shm_open : nat -> list Z -> option Z;
  os_ftruncate : nat -> option Z;
  os_shm_unlink : nat -> option Z;
  os_mbind : nat -> option Z;
  os_madvise : nat -> option Z;
  os_ioctl : nat -> list Z -> Z -> Z + (Z * bool);
}.

(** ** NUMA policies *)
Inductive Numa :=
| NumaBind (node : Z)
| NumaInterleave (nodes : list Z).

Definition MPOL_BIND : Z := 2.
Definition MPOL_INTERLEAVE : Z := 3.
Definition MPOL_F_STATIC_NODES : Z := 32768.

(** [Numa::to_mode_mask]: [1u64 << node] panics on overflow with checks and
    masks the amount without. *)
Definition node_bit (dbg : bool) (node : Z) : outcome Z :=
  if (0 <=? node) && (node <? 64) then Done (Z.shiftl 1 node)
  else if dbg then Panic else Done (Z.shiftl 1 (node mod 64)).

Fixpoint nodes_mask (dbg : bool) (nodes : list Z) (acc : Z) : outcome Z :=
  match nodes with
  | [] => Done acc
  | n :: nodes => obind (node_bit dbg n) (fun b => nodes_mask dbg nodes (Z.lor acc b))
  end.

Definition to_mode_mask (dbg : bool) (n : Numa) : outcome (Z * Z) :=
  match n with
  | NumaBind node => obind (node_bit dbg node) (fun b => Done (Z.lor MPOL_BIND MPOL_F_STATIC_NODES, b))
  | NumaInterleave nodes =>
      obind (nodes_mask dbg nodes 0) (fun m => Done (Z.lor MPOL_INTERLEAVE MPOL_F_STATIC_NODES, m))
  end.

Inductive Populate := PageTable | Physical.

Definition MAP_SHARED : Z := 1.
Definition MAP_PRIVATE : Z := 2.
Definition MAP_SHARED_VALIDATE : Z := 3.
Definition MAP_ANONYMOUS : Z := 32.

(** [File::flags]. *)
Definition file_flags (f : File) : Z :=
  let base :=
    match override_flags f with
    | Some flags => flags
    | None => match fd f with Some _ => MAP_SHARED_VALIDATE | None => Z.lor MAP_ANONYMOUS MAP_PRIVATE end
    end in
  Z.lor base (extra_flags f).

Section shm.
Context (os : Os) (dbg : bool).

Abbreviation R A := (M Vm (Error + A)).

(** A system call: [try_libc!] of a call that only succeeds or fails. *)
Definition syscall (name : string) (answer : nat -> option Z) : R unit :=
  n <- gets calls ;;
  modify tick ;;;
  match answer n with None => ok tt | Some e => err (Libc name e) end.

(** [mmap64], with the new mapping in front of the older ones. *)
Definition mmap64 (addr : option Z) (size : Z) (b : nat -> Backing) (off : Z) : R Z :=
  n <- gets calls ;;
  modify tick ;;;
  match os_mmap os n addr size with
  | inl e => err (Libc "mmap64" e)
  | inr p =>
      modify (fun s => set_maps (mkMapping p size (b n) off :: maps s) s) ;;;
      assert_ (negb (p =? 0)) ;;;
      ok p
  end.

Definition mbind (n : Numa) : R unit :=
  lift (to_mode_mask dbg n) ;;;
  syscall "mbind_syscall" (os_mbind os).

Definition backing_of (f : File) (call : nat) : Backing :=
  match fd f with Some d => Opened d | None => Anonymous call end.

(** [File::map]. *)
Definition file_map (f : File) (addr : option Z) (numa : option Numa) (pop : option Populate) : R Z :=
  actual <?- mmap64 addr (fsize f) (backing_of f) (foffset f) ;;
  match addr with Some expected => assert_ (expected =? actual) | None => ret tt end ;;;
  _ <?- match numa with Some n => mbind n | None => ok tt end ;;
  _ <?- match pop with Some Physical => syscall "madvise" (os_madvise os) | _ => ok tt end ;;
  ok actual.

(** ** The backends *)

(** [Mmap::open]. *)
Definition mmap_open (size : Z) : R File :=
  ok (mkFile None (next_multiple_of size PAGE) 0 true 0 None).

(** [CStr::from_bytes_until_nul]: the bytes before the first nul, if any. *)
Fixpoint until_nul (l : list Z) : option (list Z) :=
  match l with
  | [] => None
  | c :: l => if c =? 0 then Some [] else cons c <$> until_nul l
  end.

(** [Shm::with_path]: 63 bytes, so an id of the maximal length leaves no room
    for the terminating nul and the [unwrap] panics. *)
Definition MAX_LEN : Z := 62.

Definition with_path {A} (id : list Z) (apply : list Z -> R A) : R A :=
  if MAX_LEN <? Z.of_nat (length id) then err ShmName
  else
    let path := 47 :: id ++ replicate (Z.to_nat MAX_LEN - length id) 0 in
    cstr <- unwrap (until_nul path) ;;
    r <- apply cstr ;;
    match r with
    | inr x => ok x
    | inl e => e' <- unwrap (with_path_err path e) ;; err e'
    end.

(** [shm_open] with and without [O_CREAT | O_EXCL]. *)
Definition shm_open (excl : bool) (path : list Z) : R Fd :=
  n <- gets calls ;;
  modify tick ;;;
  o <- gets objects ;;
  match os_shm_open os n path with
  | Some e => err (Libc "shm_open" e)
  | None =>
      match o !! path with
      | Some _ => if excl then err (Libc "shm_open" EEXIST) else ok (FdShm path)
      | None =>
          if excl then modify (fun s => set_objects (<[path := 0]> (objects s)) s) ;;; ok (FdShm path)
          else err (Libc "shm_open" ENOENT)
      end
  end.

Definition ftruncate (path : list Z) (size : Z) : R unit :=
  _ <?- syscall "ftruncate64" (os_ftruncate os) ;;
  modify (fun s => set_objects (<[path := size]> (objects s)) s) ;;;
  ok tt.

(** [Shm::open]. *)
Definition shm_backend_open (id : list Z) (size : Z) : R File :=
  let size := next_multiple_of size PAGE in
  cf <?- with_path id (fun path =>
    r <- shm_open true path ;;
    cf <?- match r with
           | inl e =>
               if is_already_exists e then f <?- shm_open false path ;; ok (false, f)
               else err e
           | inr f => ok (true, f)
           end ;;
    _ <?- (if fst cf : bool then ftruncate path size else ok tt) ;;
    ok cf) ;;
  ok (mkFile (Some (snd cf)) size 0 (fst cf) 0 None).

(** [Dax::open]: round robin over the devices, a bump pointer in each; the
    atomics wrap around. *)
Definition dax_open (size : Z) : R File :=
  s <- gets (fun s => s) ;;
  assert_ (negb (Z.of_nat (length (devices s)) =? 0)) ;;;
  let index := Z.to_nat (dax_next s mod Z.of_nat (length (devices s))) in
  d <- unwrap (devices s !! index) ;;
  let aligned := next_multiple_of size (d_align d) in
  let off := d_offset d in
  modify (set_devices (<[index := mkDevice (d_size d) (d_align d) (wrap 64 (off + aligned))]> (devices s))
            (wrap 64 (dax_next s + 1))) ;;;
  end_ <- lift (arith dbg 64 (off + aligned)) ;;
  assert_ (end_ <=? d_size d) ;;;
  ok (mkFile (Some (FdDax index)) aligned off true 0 (Some MAP_SHARED)).

(** [Dax::new]: the devices are opened, their sizes and alignments read from
    sysfs. [fs_open] tells whether a path opens for reading and writing,
    [fs_read] is [read_to_string]. *)
Record Fs := mkFs { fs_open : list Z -> bool; fs_read : list Z -> option (list Z) }.

Definition sysfs_path (name : list Z) (what : string) : list Z :=
  bytes "/sys/bus/dax/devices/" ++ name ++ bytes what.

Definition device_size (fs : Fs) (path : list Z) : option Z :=
  match file_name path with
  | None => None
  | Some name =>
      match fs_read fs (sysfs_path name "/size") with
      | None => None
      | Some contents => parse_usize (trim contents)
      end
  end.

Definition device_align (fs : Fs) (path : list Z) : option Z :=
  match file_name path with
  | None => None
  | Some name =>
      match fs_read fs (sysfs_path name "/align") with
      | None => Some 4096
      | Some contents => parse_usize (trim contents)
      end
  end.

Fixpoint open_devices (fs : Fs) (paths : list (list Z)) : option (list Device) :=
  match paths with
  | [] => Some []
  | path :: paths =>
      if fs_open fs path then
        size ← device_size fs path;
        align ← device_align fs path;
        l ← open_devices fs paths;
        Some (mkDevice size align 0 :: l)
      else None
  end.

Definition dax_new (fs : Fs) (paths : list (list Z)) : outcome (option (list Device)) :=
  match paths with [] => Panic | _ => Done (open_devices fs paths) end.

(** [Dax::align]. *)
Definition dax_align (l : list Device) : Z :=
  match l with [] => 4096 | d :: l => fold_left (fun a d => Z.max a (d_align d)) l (d_align d) end.

(** [DaxMmap::open]: even calls use the devices, odd ones anonymous memory. *)
Definition dax_mmap_open (size : Z) : R File :=
  s <- gets (fun s => s) ;;
  let index := hybrid_next s in
  modify (set_hybrid (wrap 64 (index + 1))) ;;;
  if index mod 2 =? 0 then dax_open size
  else
    let aligned := next_multiple_of size (dax_align (devices s)) in
    ok (mkFile None (next_multiple_of aligned PAGE) 0 true 0 None).

(** [Ivshmem::open]: the driver answers with an offset, and whether the region
    existed. *)
Definition ivshmem_open (id : list Z) (size : Z) : R File :=
  n <- gets calls ;;
  modify tick ;;;
  assert_ (Z.of_nat (length id) <? 28) ;;;
  match os_ioctl os n id size with
  | inl _ => panic
  | inr (off, existing) => ok (mkFile (Some FdIvshmem) size off (negb existing) 0 None)
  end.

(** [Backend::open] and [Backend::unlink]. *)
Definition backend_open (id : list Z) (size : Z) : R File :=
  k <- gets kind ;;
  match k with
  | KMmap => mmap_open size
  | KShm => shm_backend_open id size
  | KDax => dax_open size
  | KDaxMmap => dax_mmap_open size
  | KIvshmem => ivshmem_open id size
  end.

Definition shm_unlink (path : list Z) : R unit :=
  n <- gets calls ;;
  modify tick ;;;
  o <- gets objects ;;
  match os_shm_unlink os n with
  | Some e => err (Libc "shm_unlink" e)
  | None =>
      match o !! path with
      | Some _ => modify (fun s => set_objects (delete path (objects s)) s) ;;; ok tt
      | None => err (Libc "shm_unlink" ENOENT)
      end
  end.

Definition backend_unlink (id : list Z) : R unit :=
  k <- gets kind ;;
  match k with
  | KShm => with_path id shm_unlink
  | _ => ok tt
  end.

(** ** Reservations *)

(** Inaccessible address space, to be mapped over. *)
Definition reserve (size : Z) : R Z :=
  n <- gets calls ;;
  modify tick ;;;
  match os_mmap os n None size with
  | inl e => err (Libc "mmap64" e)
  | inr p => assert_ (negb (p =? 0)) ;;; ok p
  end.

(** [Reservation::new_contiguous]. *)
Definition reserve_contiguous (size : Z) (count : nat) : R (list Z) :=
  a <?- reserve (size * Z.of_nat count) ;;
  ok ((fun i => a + size * Z.of_nat i) <$> seq 0 count).

(** What is left of a mapping when the bytes [lo, hi) are unmapped. *)
Definition cut (lo hi : Z) (m : Mapping) : list Mapping :=
  let e := m_addr m + m_size m in
  let left_ := mkMapping (m_addr m) (Z.min e lo - m_addr m) (m_backing m) (m_offset m) in
  let right_ := mkMapping (Z.max (m_addr m) hi) (e - Z.max (m_addr m) hi) (m_backing m)
                  (m_offset m + (Z.max (m_addr m) hi - m_addr m)) in
  List.filter (fun m => 0 <? m_size m) [left_; right_].

(** [munmap]: whole pages; older mappings under the range are gone as well. *)
Definition unmap_range (a size : Z) : R unit :=
  _ <?- syscall "munmap" (os_munmap os) ;;
  modify (fun s => set_maps (maps s ≫= cut a (a + next_multiple_of size PAGE)) s) ;;;
  ok tt.
End shm.

(** ** Properties *)

Lemma until_nul_app l n : (forall c, c ∈ l -> c <> 0) -> until_nul (l ++ replicate (S n) 0) = Some l.
Proof.
  induction l as [|c l IH]; intros H; [done|]. cbn [until_nul app]. destruct (c =? 0) eqn:E; [exfalso; apply (H c); [set_solver|lia]|].
  by rewrite IH by (intros; apply H; set_solver).
Qed.

(** The kernel honours [MAP_FIXED] and no call fails. *)
Record os_fine (os : Os) : Prop := {
  fine_mmap : forall n a size, os_mmap os n (Some a) size = inr a;
  fine_shm_open : forall n path, os_shm_open os n path = None;
  fine_ftruncate : forall n, os_ftruncate os n = None;
  fine_mbind : forall n, os_mbind os n = None;
  fine_madvise : forall n, os_madvise os n = None;
}.

Definition numa_fine (dbg : bool) (numa : option Numa) : Prop :=
  match numa with Some n => exists x, to_mode_mask dbg n = Done x | None => True end.

Section props.
Context (os : Os) (Hos : os_fine os) (dbg : bool).

(** A program that leaves the address space and the backend's kind alone, and
    makes at most [n] system calls. *)
Definition same_space (n : nat) (s s' : Vm) : Prop :=
  maps s' = maps s /\ kind s' = kind s /\ (calls s <= calls s' <= calls s + n)%nat.

Lemma wp_syscall name answer Q s :
  (forall n, answer n = None) -> Q (tick s) (inr tt) -> wp (syscall name answer) Q s.
Proof. intros Ha HQ. unfold syscall. wp_go. by rewrite Ha. Qed.

Lemma shm_open_absent path s :
  objects s !! path = None ->
  wp (shm_open os true path) (fun s' r => r = inr (FdShm path) /\ same_space 1 s s' /\ objects s' = <[path := 0]> (objects s)) s.
Proof.
  intros Ho. unfold shm_open. wp_go. rewrite (fine_shm_open _ Hos). simpl. rewrite Ho. wp_go.
  unfold same_space. split_and!; simpl; done || lia.
Qed.

Lemma shm_open_present excl path size s :
  objects s !! path = Some size ->
  wp (shm_open os excl path) (fun s' r => r = (if excl then inl (Libc "shm_open" EEXIST) else inr (FdShm path)) /\
    same_space 1 s s' /\ objects s' = objects s) s.
Proof.
  intros Ho. unfold shm_open. wp_go. rewrite (fine_shm_open _ Hos). simpl. rewrite Ho.
  unfold same_space. destruct excl; (split_and!; simpl; done || lia).
Qed.

(** Opening a shared-memory object creates it or finds it. *)
Lemma shm_backend_open_spec id size s :
  (forall c, c ∈ id -> c <> 0) -> (length id < 62)%nat ->
  wp (shm_backend_open os id size) (fun s' r => exists f, r = inr f /\ same_space 2 s s' /\
    f = mkFile (Some (FdShm (47 :: id))) (next_multiple_of size PAGE) 0 (create f) 0 None /\
    (create f = true <-> objects s !! (47 :: id) = None) /\
    (objects s !! (47 :: id) = None -> objects s' !! (47 :: id) = Some (next_multiple_of size PAGE))) s.
Proof.
  intros Hid Hlen. unfold shm_backend_open, with_path, MAX_LEN. destruct (62 <? Z.of_nat (length id)) eqn:E; [lia|].
  assert (exists n, (Z.to_nat 62 - length id = S n)%nat) as [n En] by (exists (61 - length id)%nat; lia). rewrite En.
  change (47 :: id ++ replicate (S n) 0) with ((47 :: id) ++ replicate (S n) 0).
  rewrite until_nul_app by (intros c [->|Hc]%elem_of_cons; [lia|by apply Hid]).
  apply (wp_ebind_ok _ _ (fun s' cf => (same_space 2 s s' /\ (objects s !! (47 :: id) = None -> objects s' !! (47 :: id) = Some (next_multiple_of size PAGE))) /\
    cf = (bool_decide (objects s !! (47 :: id) = None), FdShm (47 :: id)))).
  2: { intros s' cf [[Hs Ho] ->]. apply wp_ret. eexists. split; [done|]. simpl. split_and!; [done|done| |exact Ho]. by rewrite bool_decide_eq_true. }
  apply wp_bind. wp_go. apply wp_bind. destruct (objects s !! (47 :: id)) as [sz|] eqn:Eo.
  - apply wp_bind. eapply wp_conseq; [by eapply (shm_open_present true)|]. intros s1 r (-> & H1 & Ho1). cbn [is_already_exists].
    change (EEXIST =? EEXIST) with true. cbn iota. apply wp_ebind, wp_ebind.
    eapply wp_conseq; [eapply (shm_open_present false); by rewrite Ho1|]. intros s2 r (-> & H2 & _). wp_go.
    unfold ok, wp, ebind, bind, ret. simpl. destruct H1 as (? & ? & ?), H2 as (? & ? & ?). eexists. split; [done|].
    unfold same_space. split_and!; simpl; done || lia || congruence.
  - apply wp_bind. eapply wp_conseq; [by apply shm_open_absent|]. intros s1 r (-> & H1 & _). apply wp_ebind. unfold ok at 1. wp_go.
    cbn [fst]. apply wp_ebind. unfold ftruncate. apply wp_ebind, wp_syscall; [apply Hos|]. unfold ok. wp_go.
    destruct H1 as (? & ? & ?). eexists. split; [done|]. unfold same_space. split_and!; simpl; try (done || lia || congruence).
    intros _. apply lookup_insert_eq.
Qed.

(** A file maps at the address the kernel answers, which is the one asked for
    if there is one. *)
Lemma file_map_spec f addr a numa pop s :
  os_mmap os (calls s) addr (fsize f) = inr a -> 0 < a -> (forall e, addr = Some e -> e = a) -> numa_fine dbg numa ->
  wp (file_map os dbg f addr numa pop) (fun s' r => r = inr a /\ kind s' = kind s /\
    (calls s < calls s' <= calls s + 3)%nat /\ objects s' = objects s /\
    maps s' = mkMapping a (fsize f) (backing_of f (calls s)) (foffset f) :: maps s) s.
Proof.
  intros Hos_a Ha Haddr Hn. unfold file_map, mmap64. apply wp_ebind. wp_go. rewrite Hos_a. wp_go.
  destruct (a =? 0) eqn:E; [lia|]. apply wp_assert; [done|]. unfold ok at 1. wp_go. set (s1 := set_maps _ _).
  assert (forall Q, Q s1 tt -> wp (match addr with Some expected => assert_ (expected =? a) | None => ret tt end) Q s1) as Hassert.
  { intros Q HQ. destruct addr as [e|]; [|by apply wp_ret]. apply wp_assert; [|done]. rewrite (Haddr e eq_refl). apply Z.eqb_refl. }
  apply Hassert. clear Hassert.
  apply (wp_ebind_ok _ _ (fun s' _ => maps s' = maps s1 /\ kind s' = kind s1 /\ objects s' = objects s1 /\ (calls s1 <= calls s' <= calls s1 + 1)%nat)).
  { destruct numa as [nm|]; [|unfold ok; apply wp_ret; eexists; split_and!; done || lia]. destruct Hn as [x Hx]. unfold mbind.
    eapply wp_bind, wp_lift; [exact Hx|]. apply wp_syscall; [apply Hos|]. eexists. split_and!; simpl; done || lia. }
  intros s2 _ (Hm & Hk & Ho & Hc).
  apply (wp_ebind_ok _ _ (fun s' _ => maps s' = maps s1 /\ kind s' = kind s1 /\ objects s' = objects s1 /\ (calls s2 <= calls s' <= calls s2 + 1)%nat)).
  { destruct pop as [[]|]; [unfold ok; apply wp_ret; eexists; split_and!; done || lia| |unfold ok; apply wp_ret; eexists; split_and!; done || lia].
    apply wp_syscall; [apply Hos|]. eexists. split_and!; simpl; done || lia. }
  intros s3 _ (Hm3 & Hk3 & Ho3 & Hc3). unfold ok. apply wp_ret. unfold s1 in Hc. simpl in Hc.
  split_and!; [done|by rewrite Hk3|lia|lia|by rewrite Ho3|by rewrite Hm3].
Qed.
End props.

(** ** Unmapping *)

Lemma find_app_split {A} (f : A -> bool) l l' :
  List.find f (l ++ l') = match List.find f l with Some x => Some x | None => List.find f l' end.
Proof. induction l as [|x l IH]; simpl; [done|]. by destruct (f x). Qed.

(** A byte outside the range keeps its place, one inside is in no piece. *)
Lemma cut_find lo hi m x :
  lo <= hi ->
  match List.find (covers x) (cut lo hi m) with
  | Some p => covers x m = true /\ ~ (lo <= x < hi) /\ m_backing p = m_backing m /\
              m_offset p + (x - m_addr p) = m_offset m + (x - m_addr m)
  | None => covers x m = true -> lo <= x < hi
  end.
Proof.
  intros Hle. unfold cut. cbn [List.filter]. unfold covers at 1 2 3. cbn [m_size].
  destruct (0 <? Z.min _ lo - _) eqn:E1; destruct (0 <? m_addr m + _ - _) eqn:E2; cbn [List.find m_addr m_size].
  all: repeat match goal with |- context [if ?b then _ else _] => destruct b eqn:? end.
  all: cbn [m_backing m_offset m_addr]; rewrite ?andb_true_iff, ?andb_false_iff in *; intuition (done || lia).
Qed.

Lemma resolve_cut lo hi s x :
  lo <= hi ->
  resolve (set_maps (maps s ≫= cut lo hi) s) x = if (lo <=? x) && (x <? hi) then None else resolve s x.
Proof.
  intros Hle. unfold resolve. cbn [maps set_maps]. induction (maps s) as [|m l IH].
  - cbn. by destruct (_ && _).
  - rewrite bind_cons, find_app_split. cbn [List.find]. pose proof (cut_find lo hi m x Hle) as Hc.
    destruct (List.find (covers x) (cut lo hi m)) as [p|].
    + destruct Hc as (-> & Hout & -> & ->). destruct ((lo <=? x) && (x <? hi)) eqn:E; [|done]. apply andb_true_iff in E. lia.
    + destruct (covers x m) eqn:Ec; [|exact IH]. specialize (Hc eq_refl).
      assert ((lo <=? x) && (x <? hi) = true) as E by (apply andb_true_iff; lia). rewrite E in IH |- *. exact IH.
Qed.

(** [munmap] removes the pages of the range from the address space and nothing
    else. *)
Lemma unmap_range_spec os a size s :
  (forall n, os_munmap os n = None) -> 0 <= size ->
  wp (unmap_range os a size) (fun s' r => r = inr tt /\ kind s' = kind s /\
    forall x, resolve s' x = if (a <=? x) && (x <? a + next_multiple_of size PAGE) then None else resolve s x) s.
Proof.
  intros Hf Hs. unfold unmap_range. apply wp_ebind, wp_syscall; [done|]. unfold ok. wp_go. split_and!; [done|done|].
  intros x. rewrite resolve_cut; [done|]. unfold next_multiple_of, PAGE. destruct (_ =? 0); [lia|].
  pose proof (Z.mod_pos_bound size 4096 eq_refl). lia.
Qed.
