(* ===== verification/Region.v ===== *)
(** * Region: the memory regions of a heap (cxlalloc/src/raw/region.rs) and
    their extension on a page fault ([Heap::layout], [Heap::try_map])

    A sequential region is a reservation of one TiB that is mapped chunk by
    chunk, each chunk a file of its own named after the region and the index of
    the chunk; the local, remote and data regions of a heap are extended
    together. *)

From Stdlib Require Import ZArith Lia Bool String.
From stdpp Require Import base numbers option gmap functions strings list.
From S2P Require Import Prelude Text Shm.
Local Open Scope Z_scope.
Local Open Scope prog_scope.
Local Open Scope res_scope.

(** [Reservation::SIZE]. *)
Definition RESERVATION : Z := Z.shiftl 1 40.

(** ** Names *)
Module Id.
Definition SIZE : nat := 64.

Record t := mkId { buffer : list Z; len : nat }.

(** [Id::new]: slicing the buffer panics for a longer name. *)
Definition new (inner : list Z) : outcome t :=
  if decide (length inner <= SIZE)%nat then Done (mkId (inner ++ replicate (SIZE - length inner) 0) (length inner))
  else Panic.

(** [Iterator::rposition] of a byte other than nul. *)
Fixpoint rposition (l : list Z) : option nat :=
  match l with
  | [] => None
  | c :: l =>
      match rposition l with
      | Some i => Some (S i)
      | None => if c =? 0 then None else Some O
      end
  end.

(** [Id::with_suffix]: [write!] into the rest of the buffer fails when the
    text does not fit. *)
Definition with_suffix (i : t) (suffix : list Z) : outcome t :=
  let text := 45 :: suffix in
  if decide (len i + length text <= SIZE)%nat then
    let b := take (len i) (buffer i) ++ text ++ drop (len i + length text) (buffer i) in
    match rposition b with
    | Some last => Done (mkId b (S last))
    | None => Panic
    end
  else Panic.

(** [Id::as_str]. *)
Definition as_str (i : t) : outcome (list Z) :=
  let l := take (len i) (buffer i) in
  match from_utf8 l with Some _ => Done l | None => Panic end.
End Id.

(** ** Errors: the variants of [crate::Error] the regions produce *)
Inductive RError :=
| OutOfBounds
| Munmap (code : Z)
| FromShm (e : Error).

(** ** Regions *)
Record Fixed := mkFixed { fx_id : Id.t; fx_create : bool; fx_address : Z; fx_size : Z }.

Inductive Sequential :=
| Normal (id : Id.t) (create : bool) (reservation size : Z)
| Mcas (id : Id.t) (address size : Z).

Record Random := mkRandom { rd_id : Id.t; rd_reservation : Z }.

Section regions.
Context (os : Os) (dbg : bool) (numa : option Numa) (populate : option Populate).

Abbreviation R A := (M Vm (RError + A)).

(** The [From] conversion of [?]. *)
Definition from_shm {A} (m : M Vm (Error + A)) : R A :=
  r <- m ;; match r with inl e => err (FromShm e) | inr x => ok x end.

(** Opens the file of a name and maps it. *)
Definition open_map (name : list Z) (size : Z) (addr : option Z) : R (bool * Z) :=
  file <?- from_shm (backend_open os dbg name size) ;;
  p <?- from_shm (file_map os dbg file addr numa populate) ;;
  ok (create file, p).

(** [Fixed::new]. *)
Definition fixed_new (id : Id.t) (size : Z) : R Fixed :=
  let size := next_multiple_of size PAGE in
  name <- lift (Id.as_str id) ;;
  cp <?- open_map name size None ;;
  ok (mkFixed id (fst cp) (snd cp) size).

Definition fixed_unmap (f : Fixed) : R unit :=
  r <- unmap_range os (fx_address f) (fx_size f) ;;
  match r with
  | inr _ => ok tt
  | inl (Libc _ e) => err (Munmap e)
  | inl e => err (FromShm e)
  end.

Definition seq_size (q : Sequential) : Z := match q with Normal _ _ _ size => size | Mcas _ _ size => size end.
Definition seq_id (q : Sequential) : Id.t := match q with Normal id _ _ _ => id | Mcas id _ _ => id end.
Definition seq_address (q : Sequential) : Z := match q with Normal _ _ r _ => r | Mcas _ a _ => a end.
Definition seq_is_clean (q : Sequential) : bool := match q with Normal _ c _ _ => c | Mcas _ _ _ => false end.
Definition seq_mapped_size (q : Sequential) : option Z :=
  match q with
  | Normal _ create _ size => if create then Some size else None
  | Mcas _ _ size => Some size
  end.

(** [Sequential::new]. *)
Definition seq_new (id : Id.t) (reservation size : Z) (lazy_ : bool) : R Sequential :=
  let size := next_multiple_of size PAGE in
  create <?- (if lazy_ then ok false
              else
                id0 <- lift (Id.with_suffix id (digits 20 0)) ;;
                name <- lift (Id.as_str id0) ;;
                cp <?- open_map name size (Some reservation) ;;
                ok (fst cp)) ;;
  ok (Normal id create reservation size).

(** [Sequential::map]: maps the chunk of the offset. *)
Definition seq_map (q : Sequential) (offset : Z) : R unit :=
  let index := offset / seq_size q in
  match q with
  | Normal id _ reservation size =>
      id' <- lift (Id.with_suffix id (digits 20 index)) ;;
      name <- lift (Id.as_str id') ;;
      _ <?- open_map name size (Some (reservation + seq_size q * index)) ;;
      ok tt
  | Mcas _ _ _ => panic
  end.

Definition seq_unmap (q : Sequential) : R unit :=
  match q with
  | Normal _ _ r _ => from_shm (unmap_range os r RESERVATION)
  | Mcas _ _ _ => ok tt
  end.

(** [Random]. *)
Definition random_contains (r : Random) (p : Z) : bool :=
  (rd_reservation r <=? p) && (p <? rd_reservation r + RESERVATION).

Definition random_map (r : Random) (offset size : Z) : R unit :=
  id' <- lift (Id.with_suffix (rd_id r) (hex offset)) ;;
  name <- lift (Id.as_str id') ;;
  _ <?- open_map name size (Some (rd_reservation r + offset)) ;;
  ok tt.

(** The results of [munmap] and [unlink] are ignored. *)
Definition random_unmap (r : Random) (offset size : Z) : M Vm unit :=
  id' <- lift (Id.with_suffix (rd_id r) (hex offset)) ;;
  unmap_range os (rd_reservation r + offset) size ;;;
  name <- lift (Id.as_str id') ;;
  backend_unlink os name ;;;
  ret tt.

Definition random_unmap_all (r : Random) : R unit := from_shm (unmap_range os (rd_reservation r) RESERVATION).

(** ** The heap's regions *)

(** [core::alloc::Layout::array]: the size, if it does not exceed [isize]. *)
Definition layout_array (elem align count : Z) : option Z :=
  if elem * count <=? 2 ^ 63 - align then Some (elem * count) else None.

Record Layout := mkLayout { locals : Z; remotes : Z; data : Z }.

(** Sizes of [slab::Local<B>], of [Detectable<slab::Remote>] and of a slab. *)
Context (size_local size_remote size_slab : Z).

(** [Heap::layout]; a zero size makes [NonZeroUsize::new(_).unwrap()] panic. *)
Definition heap_layout (count : Z) : outcome (option Layout) :=
  match layout_array size_local 8 count, layout_array size_remote 8 count, layout_array 1 1 (size_slab * count) with
  | Some l, Some r, Some d => if (0 <? l) && (0 <? r) && (0 <? d) then Done (Some (mkLayout l r d)) else Panic
  | _, _, _ => Done None
  end.

(** [Layout::default]: one GiB of data. *)
Definition layout_default : outcome Layout :=
  obind (heap_layout (next_multiple_of (2 ^ 30) size_slab / size_slab)) (fun o =>
    match o with Some l => Done l | None => Panic end).

(** The half-open range test on addresses; the upper ends wrap around. *)
Definition within (lo hi a : Z) : bool := (lo <=? a) && (a <? hi).

(** The offsets of [Heap::try_map]. *)
Definition try_offsets (len local_lo remote_lo data_lo address : Z) : option (Z * Z * Z) :=
  if within local_lo (wrap 64 (local_lo + len * size_local)) address then
    let o := address - local_lo in
    Some (o, o / size_local * size_remote, o / size_local * size_slab)
  else if within remote_lo (wrap 64 (remote_lo + len * size_remote)) address then
    let o := address - remote_lo in
    Some (o / size_remote * size_local, o, o / size_remote * size_slab)
  else if within data_lo (wrap 64 (data_lo + len * size_slab)) address then
    let o := address - data_lo in
    Some (o / size_slab * size_local, o / size_slab * size_remote, o)
  else None.

(** [Heap::try_map]; [len] is [Shared::len], the bump index. *)
Definition try_map (len : option Z) (local remote dat : Sequential) (address : Z) : R unit :=
  match len with
  | None => err OutOfBounds
  | Some index =>
      match try_offsets (index - 1) (seq_address local) (seq_address remote) (seq_address dat) address with
      | None => err OutOfBounds
      | Some (lo, ro, do_) =>
          _ <?- seq_map local lo ;;
          _ <?- seq_map remote ro ;;
          _ <?- seq_map dat do_ ;;
          ok tt
      end
  end.
End regions.

(** ** Names *)

(** Characters of a name: ASCII, not nul. *)
Definition plain (c : Z) : Prop := 0 < c < 128.

(** The id holds the text [s]. *)
Definition id_is (i : Id.t) (s : list Z) : Prop :=
  Forall plain s /\ (length s <= Id.SIZE)%nat /\ i = Id.mkId (s ++ replicate (Id.SIZE - length s) 0) (length s).

Lemma id_new_spec s : Forall plain s -> (length s <= Id.SIZE)%nat -> exists i, Id.new s = Done i /\ id_is i s.
Proof. intros Hp Hl. unfold Id.new. rewrite decide_True by done. by eexists. Qed.

Lemma as_str_spec i s : id_is i s -> Id.as_str i = Done s.
Proof.
  intros (Hp & _ & ->). unfold Id.as_str. simpl. rewrite take_app_length. rewrite from_utf8_ascii; [done|].
  eapply Forall_impl; [exact Hp|]. unfold plain. lia.
Qed.

Lemma rposition_zeros n : Id.rposition (replicate n 0) = None.
Proof. induction n as [|n IH]; simpl; [done|]. by rewrite IH. Qed.

Lemma rposition_text s c n : c <> 0 -> Id.rposition (s ++ c :: replicate n 0) = Some (length s).
Proof.
  intros Hc. induction s as [|d s IH]; simpl; [|by rewrite IH]. rewrite rposition_zeros. by destruct (c =? 0) eqn:E; [lia|].
Qed.

Lemma with_suffix_spec i s suf :
  id_is i s -> Forall plain suf -> (length s + S (length suf) <= Id.SIZE)%nat ->
  exists i', Id.with_suffix i suf = Done i' /\ id_is i' (s ++ 45 :: suf).
Proof.
  intros (Hp & Hl & ->) Hsuf Hlen. unfold Id.with_suffix. cbn [Id.len Id.buffer length]. rewrite decide_True by done.
  rewrite take_app_length, drop_app_ge by lia. rewrite drop_replicate.
  set (n := (Id.SIZE - length s - (length s + S (length suf) - length s))%nat).
  assert (exists t c, 45 :: suf = t ++ [c] /\ c <> 0) as (t & c & Et & Hc).
  { destruct (decide (suf = [])) as [->|Hne]; [exists [], 45; split; [done|lia]|].
    destruct (exists_last Hne) as (t & c & ->). exists (45 :: t), c. split; [done|].
    apply Forall_app in Hsuf as [_ Hc]. apply Forall_cons in Hc as [Hc _]. unfold plain in Hc. lia. }
  assert (s ++ (45 :: suf) ++ replicate n 0 = (s ++ t) ++ c :: replicate n 0) as Eb by (rewrite Et, <- !app_assoc; done).
  rewrite Eb, rposition_text by done. eexists. split; [done|]. split_and!.
  - apply Forall_app. split; [done|]. constructor; [unfold plain; lia|done].
  - rewrite length_app. simpl. lia.
  - rewrite <- Eb, <- app_assoc. f_equal.
    + do 3 f_equal. unfold n. rewrite length_app. simpl. lia.
    + rewrite Et, !length_app. simpl. lia.
Qed.

(** The name of a chunk. *)
Definition chunk_name (s : list Z) (index : Z) : list Z := s ++ 45 :: digits 20 index.

Lemma digits_plain f n : Forall plain (digits f n).
Proof. eapply Forall_impl; [apply digits_ascii|]. unfold is_digit, plain. lia. Qed.

Lemma plain_nul l : Forall plain l -> forall c, c ∈ l -> c <> 0.
Proof. rewrite Forall_forall. intros H c Hc. specialize (H c Hc). unfold plain in H. lia. Qed.

(** A text ends in its digits: the part after the last ['-']. *)
Lemma chunk_name_inj s s' i j :
  0 <= i < 2 ^ 64 -> 0 <= j < 2 ^ 64 -> chunk_name s i = chunk_name s' j -> s = s' /\ i = j.
Proof.
  intros Hi Hj E. unfold chunk_name in E.
  assert (forall l, Forall is_digit l -> 45 ∉ l) as Hno.
  { intros l Hl Hin. rewrite Forall_forall in Hl. specialize (Hl 45 Hin). unfold is_digit in Hl. lia. }
  assert (rev (digits 20 i) ++ 45 :: rev s = rev (digits 20 j) ++ 45 :: rev s') as Er.
  { apply (f_equal (@rev Z)) in E. rewrite !rev_app_distr in E. cbn [rev] in E. by rewrite <- !app_assoc in E. }
  assert (forall l l' r r', 45 ∉ l -> 45 ∉ l' -> l ++ 45 :: r = l' ++ 45 :: r' -> l = l' /\ r = r') as Hsplit.
  { induction l as [|x l IH]; intros [|y l'] r r' Hl Hl' El; simpl in El; simplify_eq; [done|set_solver|set_solver|].
    destruct (IH l' r r') as [-> ->]; [set_solver|set_solver|done|done]. }
  destruct (Hsplit _ _ _ _ (Hno _ (Forall_rev (digits_ascii 20 i))) (Hno _ (Forall_rev (digits_ascii 20 j))) Er) as [E1 E2].
  split; [by rewrite <- (rev_involutive s), E2, rev_involutive|].
  apply digits_inj; [done|done|]. by rewrite <- (rev_involutive (digits 20 i)), E1, rev_involutive.
Qed.

(** ** Regions on shared memory *)

(** What identifies a sequential region to every process, and where this
    process reserved it. *)
Record reg := mkReg { r_name : list Z; r_start : Z; r_size : Z }.

#[global] Instance reg_eq_dec : EqDecision reg.
Proof. solve_decision. Defined.

Definition is_region (q : Sequential) (r : reg) : Prop :=
  exists id c, q = Normal id c (r_start r) (r_size r) /\ id_is id (r_name r).

Record reg_ok (r : reg) : Prop := {
  reg_start : 0 < r_start r;
  reg_size : 0 < r_size r;
  reg_pages : (PAGE | r_size r);
  reg_name : Forall plain (r_name r) /\ (length (r_name r) <= 40)%nat;
}.

(** Chunk [i] of the region, as a mapping. *)
Definition chunk_object (r : reg) (i : Z) : Backing := Opened (FdShm (47 :: chunk_name (r_name r) i)).
Definition chunk (r : reg) (i : Z) : Mapping := mkMapping (r_start r + r_size r * i) (r_size r) (chunk_object r i) 0.

Definition meets (m : Mapping) (r : reg) : Prop :=
  m_addr m < r_start r + RESERVATION /\ r_start r < m_addr m + m_size m.

(** Inside the reservations there are only chunks. *)
Definition canon (rs : list reg) (s : Vm) : Prop :=
  forall m r, m ∈ maps s -> r ∈ rs -> meets m r -> exists i, 0 <= i /\ m = chunk r i.

Definition apart (rs : list reg) : Prop :=
  forall r r', r ∈ rs -> r' ∈ rs -> r <> r' -> r_start r + RESERVATION <= r_start r' \/ r_start r' + RESERVATION <= r_start r.

(** No byte moves to another store. *)
Definition grown (s s' : Vm) : Prop := forall a b, resolve s a = Some b -> resolve s' a = Some b.

Lemma grown_trans s s' s'' : grown s s' -> grown s' s'' -> grown s s''.
Proof. unfold grown. eauto. Qed.

Lemma covers_spec a m : covers a m = true <-> m_addr m <= a < m_addr m + m_size m.
Proof. unfold covers. rewrite andb_true_iff. lia. Qed.

Lemma chunk_index r i x : 0 < r_size r -> covers (r_start r + x) (chunk r i) = true <-> i = x / r_size r.
Proof.
  intros Hs. rewrite covers_spec. simpl. split.
  - intros H. apply (Z.div_unique_pos _ _ _ (x - r_size r * i)); lia.
  - intros ->. pose proof (Z.div_mod x (r_size r) ltac:(lia)). pose proof (Z.mod_pos_bound x (r_size r) Hs). lia.
Qed.

(** The object and the offset of a mapped byte are determined by the region
    and the byte's offset in it. *)
Lemma resolve_canon rs s r x b :
  canon rs s -> r ∈ rs -> reg_ok r -> 0 <= x < RESERVATION -> resolve s (r_start r + x) = Some b ->
  b = (chunk_object r (x / r_size r), x mod r_size r).
Proof.
  intros HC Hr Hok Hx. unfold resolve. destruct (List.find _ _) as [m|] eqn:E; [|done]. intros [= <-].
  apply List.find_some in E as [Hin Hc]. apply list_elem_of_In in Hin. pose proof Hc as Hcov. apply covers_spec in Hcov.
  destruct (HC m r Hin Hr) as (i & Hi & ->); [split; lia|]. apply chunk_index in Hc; [|apply Hok]. subst i. simpl. f_equal.
  pose proof (Z.div_mod x (r_size r) ltac:(pose proof (reg_size _ Hok); lia)). lia.
Qed.

(** Mapping one more chunk. *)
Lemma add_chunk rs s s' r i :
  canon rs s -> apart rs -> r ∈ rs -> reg_ok r -> 0 <= i -> r_size r * i + r_size r <= RESERVATION ->
  maps s' = chunk r i :: maps s ->
  canon rs s' /\ grown s s' /\ forall x, x / r_size r = i -> resolve s' (r_start r + x) <> None.
Proof.
  intros HC HA Hr Hok Hi Hend Hm. pose proof (reg_size _ Hok) as Hs. split_and!.
  - intros m r' Hin Hr' Hmeet. rewrite Hm in Hin. apply elem_of_cons in Hin as [->|Hin]; [|by apply HC].
    destruct (decide (r = r')) as [<-|Hne]; [by exists i|]. exfalso.
    destruct Hmeet as [H1 H2]. simpl in *. assert (0 <= r_size r * i) by nia. destruct (HA r r' Hr Hr' Hne); lia.
  - intros a b Hb. unfold resolve. rewrite Hm. cbn [List.find]. destruct (covers a (chunk r i)) eqn:E; [|exact Hb].
    pose proof E as Ec. apply covers_spec in Ec. cbn [m_addr m_size chunk] in Ec. assert (0 <= r_size r * i) by nia.
    replace a with (r_start r + (a - r_start r)) in Hb, E by lia. apply chunk_index in E; [|done].
    rewrite (resolve_canon rs s r (a - r_start r) b HC Hr Hok ltac:(lia) Hb). simpl. rewrite <- E. do 2 f_equal.
    pose proof (Z.div_mod (a - r_start r) (r_size r) ltac:(lia)) as Hd. rewrite <- E in Hd. lia.
  - intros x Hx. unfold resolve. rewrite Hm. cbn [List.find].
    assert (covers (r_start r + x) (chunk r i) = true) as -> by by apply chunk_index. done.
Qed.

Lemma within_spec lo hi a : within lo hi a = true <-> lo <= a < hi.
Proof. unfold within. rewrite andb_true_iff. lia. Qed.

Section extension.
Context (os : Os) (Hos : os_fine os) (dbg : bool) (numa : option Numa) (Hn : numa_fine dbg numa) (populate : option Populate).

Lemma next_multiple_page size : (PAGE | size) -> next_multiple_of size PAGE = size.
Proof.
  intros H. unfold next_multiple_of. apply Z.mod_divide in H; [|done]. by rewrite H.
Qed.

(** Opening a name and mapping it. *)
Lemma open_map_spec name size addr s :
  kind s = KShm -> Forall plain name -> (length name < 62)%nat ->
  (forall n, (calls s <= n <= calls s + 2)%nat -> exists a, os_mmap os n addr (next_multiple_of size PAGE) = inr a /\
     0 < a /\ (forall e, addr = Some e -> e = a)) ->
  wp (open_map os dbg numa populate name size addr) (fun s' res => exists x, res = inr x /\
    (kind s' = KShm /\ (exists n, (calls s <= n < calls s')%nat /\ os_mmap os n addr (next_multiple_of size PAGE) = inr (snd x)) /\
     (calls s' <= calls s + 5)%nat /\ 0 < snd x /\ (forall e, addr = Some e -> e = snd x) /\
     maps s' = mkMapping (snd x) (next_multiple_of size PAGE) (Opened (FdShm (47 :: name))) 0 :: maps s /\
     (fst x = true <-> objects s !! (47 :: name) = None))) s.
Proof.
  intros Hk Hpl Hlen Hans. unfold open_map, from_shm. apply wp_ebind, wp_bind. unfold backend_open. wp_go. rewrite Hk.
  eapply wp_conseq; [apply (shm_backend_open_spec os Hos name size); [by apply plain_nul|done]|].
  intros s1 r1 (f & -> & (Hm1 & Hk1 & Hc1) & Ef & Hcr & _). unfold ok. wp_go. apply wp_ebind, wp_bind.
  destruct (Hans (calls s1) Hc1) as (a & Ea & Ha & Hadr).
  assert (fsize f = next_multiple_of size PAGE) as Esz by by rewrite Ef.
  eapply wp_conseq; [apply (file_map_spec os Hos dbg f addr a); [by rewrite Esz|done|done|exact Hn]|].
  intros s2 r2 (-> & Hk2 & Hc2 & _ & Hm2). wp_go. eexists. split; [done|]. cbn [fst snd]. split_and!; try done; try lia.
  - congruence.
  - exists (calls s1). split; [lia|done].
  - rewrite Hm2, Hm1, Esz. f_equal. unfold backing_of. by rewrite Ef.
Qed.

(** The name of a region's chunk, as the code computes it. *)
Lemma chunk_id id r i :
  id_is id (r_name r) -> (length (r_name r) <= 40)%nat ->
  exists id', Id.with_suffix id (digits 20 i) = Done id' /\ Id.as_str id' = Done (chunk_name (r_name r) i) /\
    Forall plain (chunk_name (r_name r) i) /\ (length (chunk_name (r_name r) i) < 62)%nat.
Proof.
  intros Hid Hlen. pose proof (length_digits 20 i) as Hd.
  destruct (with_suffix_spec id (r_name r) (digits 20 i) Hid (digits_plain 20 i) ltac:(unfold Id.SIZE; lia)) as (id' & Ei & Hid').
  exists id'. split_and!; [done|by apply as_str_spec|apply Hid'|]. unfold chunk_name. rewrite length_app. simpl. lia.
Qed.

(** The kernel honours [MAP_FIXED]. *)
Lemma fixed_answer size e s :
  0 < e -> forall n, (calls s <= n <= calls s + 2)%nat -> exists a, os_mmap os n (Some e) size = inr a /\ 0 < a /\ (forall e', Some e = Some e' -> e' = a).
Proof. intros He n _. exists e. split_and!; [apply Hos|done|congruence]. Qed.

Lemma chunk_map {A} id r i s (k : bool * Z -> M Vm (RError + A)) Q :
  kind s = KShm -> id_is id (r_name r) -> reg_ok r -> 0 <= i ->
  (forall s' x, kind s' = KShm -> (calls s <= calls s' <= calls s + 5)%nat -> maps s' = chunk r i :: maps s ->
     (fst x = true <-> objects s !! (47 :: chunk_name (r_name r) i) = None) -> wp (k x) Q s') ->
  wp (id' <- lift (Id.with_suffix id (digits 20 i)) ;; name <- lift (Id.as_str id') ;;
      ebind (open_map os dbg numa populate name (r_size r) (Some (r_start r + r_size r * i))) k) Q s.
Proof.
  intros Hk Hid Hok Hi HQ. pose proof (reg_name _ Hok) as [Hpl Hlen]. pose proof (reg_size _ Hok) as Hs.
  pose proof (reg_start _ Hok) as Hst. destruct (chunk_id id r i Hid Hlen) as (id' & Ei & En & Hp & Hl).
  eapply wp_bind, wp_lift; [exact Ei|]. eapply wp_bind, wp_lift; [exact En|].
  eapply wp_ebind_ok; [apply open_map_spec; [done|done|done|apply fixed_answer; nia]|].
  intros s' x (Hk' & (n & Hc & _) & Hc' & _ & Ha & Hm & Hcr). apply HQ; [done|lia| |done].
  rewrite Hm, <- (Ha _ eq_refl), next_multiple_page by apply Hok. done.
Qed.

Lemma seq_map_spec q r off s :
  kind s = KShm -> is_region q r -> reg_ok r -> 0 <= off ->
  wp (seq_map os dbg numa populate q off) (fun s' res => exists x, res = inr x /\ kind s' = KShm /\
    (calls s <= calls s')%nat /\ maps s' = chunk r (off / r_size r) :: maps s) s.
Proof.
  intros Hk (id & c & -> & Hid) Hok Hoff. pose proof (reg_size _ Hok) as Hs. cbn [seq_map seq_size].
  apply chunk_map; [done|done|done|apply Z.div_pos; lia|]. intros s' x Hk' Hc Hm _. unfold ok. apply wp_ret.
  exists tt. split_and!; [done|done|lia|done].
Qed.

(** ** The page-fault handler of a heap *)
Context (size_local size_remote size_slab : Z) (Hsl : 0 < size_local) (Hsr : 0 < size_remote) (Hss : 0 < size_slab).
Context (rs : list reg) (Hap : apart rs) (rl rr rd : reg) (Hrl : rl ∈ rs) (Hrr : rr ∈ rs) (Hrd : rd ∈ rs)
  (Hokl : reg_ok rl) (Hokr : reg_ok rr) (Hokd : reg_ok rd) (ql qr qd : Sequential)
  (Hql : is_region ql rl) (Hqr : is_region qr rr) (Hqd : is_region qd rd).

(** The slabs in use, and one chunk more, fit the reservations. *)
Definition fits_reservations (len : Z) : Prop :=
  0 <= len /\ len * size_local + r_size rl <= RESERVATION /\ len * size_remote + r_size rr <= RESERVATION /\
  len * size_slab + r_size rd <= RESERVATION /\
  r_start rl + RESERVATION < 2 ^ 64 /\ r_start rr + RESERVATION < 2 ^ 64 /\ r_start rd + RESERVATION < 2 ^ 64.

(** The offsets of one slab in the three regions, one of them the address. *)
Lemma try_offsets_spec len address lo ro do_ :
  fits_reservations len ->
  try_offsets size_local size_remote size_slab len (r_start rl) (r_start rr) (r_start rd) address = Some (lo, ro, do_) ->
  exists k, 0 <= k < len /\ k = lo / size_local /\ k = ro / size_remote /\ k = do_ / size_slab /\
    0 <= lo < len * size_local /\ 0 <= ro < len * size_remote /\ 0 <= do_ < len * size_slab /\
    (address = r_start rl + lo \/ address = r_start rr + ro \/ address = r_start rd + do_).
Proof.
  intros (Hlen & B1 & B2 & B3 & W1 & W2 & W3). unfold try_offsets, RESERVATION in *.
  pose proof (reg_start _ Hokl). pose proof (reg_start _ Hokr). pose proof (reg_start _ Hokd).
  pose proof (reg_size _ Hokl). pose proof (reg_size _ Hokr). pose proof (reg_size _ Hokd).
  assert (forall a sz, 0 < sz -> 0 <= a < len * sz -> 0 <= a / sz < len) as Hdiv.
  { intros a sz Hsz Ha. split; [apply Z.div_pos; lia|apply Z.div_lt_upper_bound; lia]. }
  assert (forall k sz, 0 < sz -> k * sz / sz = k) as Hmul by (intros; apply Z.div_mul; lia).
  assert (forall x sz, wrap 64 (x + len * sz) = x + len * sz \/ ~ (0 <= x + len * sz < 2 ^ 64)) as Hwrap.
  { intros x sz. destruct (decide (0 <= x + len * sz < 2 ^ 64)); [left; unfold wrap; by apply Z.mod_small|by right]. }
  assert (0 <= len * size_local) by nia. assert (0 <= len * size_remote) by nia. assert (0 <= len * size_slab) by nia.
  assert (forall k sz, 0 < sz -> 0 <= k < len -> 0 <= k * sz < len * sz) as Hlt by (intros; nia).
  destruct (within (r_start rl) _ _) eqn:E1; [|destruct (within (r_start rr) _ _) eqn:E2;
    [|destruct (within (r_start rd) _ _) eqn:E3; [|discriminate]]]; intros [= <- <- <-].
  - destruct (Hwrap (r_start rl) size_local) as [Ew|]; [rewrite Ew in E1; apply within_spec in E1|lia].
    pose proof (Hdiv (address - r_start rl) size_local Hsl ltac:(lia)) as Hk. eexists. rewrite !Hmul by done.
    split; [exact Hk|]. pose proof (Hlt _ _ Hsr Hk). pose proof (Hlt _ _ Hss Hk). split_and!; try done; lia.
  - destruct (Hwrap (r_start rr) size_remote) as [Ew|]; [rewrite Ew in E2; apply within_spec in E2|lia].
    pose proof (Hdiv (address - r_start rr) size_remote Hsr ltac:(lia)) as Hk. eexists. rewrite !Hmul by done.
    split; [exact Hk|]. pose proof (Hlt _ _ Hsl Hk). pose proof (Hlt _ _ Hss Hk). split_and!; try done; lia.
  - destruct (Hwrap (r_start rd) size_slab) as [Ew|]; [rewrite Ew in E3; apply within_spec in E3|lia].
    pose proof (Hdiv (address - r_start rd) size_slab Hss ltac:(lia)) as Hk. eexists. rewrite !Hmul by done.
    split; [exact Hk|]. pose proof (Hlt _ _ Hsl Hk). pose proof (Hlt _ _ Hsr Hk). split_and!; try done; lia.
Qed.

Lemma map_one q r off s :
  kind s = KShm -> canon rs s -> r ∈ rs -> reg_ok r -> is_region q r -> 0 <= off -> off + r_size r <= RESERVATION ->
  wp (seq_map os dbg numa populate q off) (fun s' res => exists x, res = inr x /\
    (kind s' = KShm /\ canon rs s' /\ grown s s' /\ resolve s' (r_start r + off) <> None)) s.
Proof.
  intros Hk HC Hr Hok Hq Hoff Hend. eapply wp_conseq; [by apply (seq_map_spec q r off)|].
  intros s' res (x & -> & Hk' & _ & Hm). pose proof (reg_size _ Hok) as Hs. exists x. split; [done|].
  destruct (add_chunk rs s s' r (off / r_size r) HC Hap Hr Hok) as (H1 & H2 & H3); [apply Z.div_pos; lia| |done|].
  { pose proof (Z.mul_div_le off (r_size r) Hs). lia. }
  split_and!; [done|done|done|]. by apply H3.
Qed.

(** The fault handler of a heap on shared memory. For an address of a slab
    that is in use, the handler maps the byte that faulted (so the faulting
    instruction does not fault on it again) together with the same slab's
    place in the two other regions; nothing that was mapped before moves to
    another store, and the regions still hold chunks only. Any other address
    is refused with [OutOfBounds] and nothing is mapped. *)
Lemma try_map_spec len address s :
  kind s = KShm -> canon rs s -> fits_reservations len ->
  wp (try_map os dbg numa populate size_local size_remote size_slab (Some (len + 1)) ql qr qd address) (fun s' res =>
    match try_offsets size_local size_remote size_slab len (r_start rl) (r_start rr) (r_start rd) address with
    | None => res = inl OutOfBounds /\ s' = s
    | Some (lo, ro, do_) =>
        res = inr tt /\ kind s' = KShm /\ canon rs s' /\ grown s s' /\
        lo / size_local = ro / size_remote /\ lo / size_local = do_ / size_slab /\
        resolve s' (r_start rl + lo) <> None /\ resolve s' (r_start rr + ro) <> None /\
        resolve s' (r_start rd + do_) <> None /\ resolve s' address <> None
    end) s.
Proof.
  intros Hk HC Hfit. unfold try_map. replace (len + 1 - 1) with len by lia.
  assert (seq_address ql = r_start rl /\ seq_address qr = r_start rr /\ seq_address qd = r_start rd) as (-> & -> & ->).
  { destruct Hql as (? & ? & -> & _), Hqr as (? & ? & -> & _), Hqd as (? & ? & -> & _). done. }
  destruct (try_offsets _ _ _ _ _ _ _ _) as [[[lo ro] do_]|] eqn:E; [|done].
  destruct (try_offsets_spec len address lo ro do_ Hfit E) as (k & Hk0 & E1 & E2 & E3 & B1 & B2 & B3 & Ha).
  destruct Hfit as (_ & F1 & F2 & F3 & _).
  assert (forall s s' a, grown s s' -> resolve s a <> None -> resolve s' a <> None) as Hkeep.
  { intros s0 s1 a Hg Hr Hno. destruct (resolve s0 a) as [b|] eqn:Eb; [|done]. apply Hg in Eb. congruence. }
  eapply wp_ebind_ok; [apply (map_one ql rl lo); try done; lia|]. intros s1 _ (Hk1 & HC1 & G1 & R1).
  eapply wp_ebind_ok; [apply (map_one qr rr ro); try done; lia|]. intros s2 _ (Hk2 & HC2 & G2 & R2).
  eapply wp_ebind_ok; [apply (map_one qd rd do_); try done; lia|]. intros s3 _ (Hk3 & HC3 & G3 & R3).
  unfold ok. apply wp_ret. pose proof (grown_trans _ _ _ G1 G2) as G12. pose proof (grown_trans _ _ _ G12 G3) as G13.
  assert (resolve s3 (r_start rl + lo) <> None) as Rl by (eapply Hkeep; [exact (grown_trans _ _ _ G2 G3)|done]).
  assert (resolve s3 (r_start rr + ro) <> None) as Rr by (eapply Hkeep; [exact G3|done]).
  split_and!; try done; try congruence. destruct Ha as [->|[->| ->]]; done.
Qed.
End extension.

(** Two address spaces whose regions hold chunks only show the same byte of the
    same shared object at the same offset of a region; and the same byte of an
    object only at one place. *)
Lemma canon_agree rs1 rs2 s1 s2 r1 r2 x b1 :
  canon rs1 s1 -> canon rs2 s2 -> r1 ∈ rs1 -> r2 ∈ rs2 -> reg_ok r1 -> reg_ok r2 ->
  0 <= x < RESERVATION ->
  resolve s1 (r_start r1 + x) = Some b1 ->
  (r_name r1 = r_name r2 -> r_size r1 = r_size r2 ->
     forall b2, resolve s2 (r_start r2 + x) = Some b2 -> b1 = b2) /\
  (forall y, 0 <= y < RESERVATION -> resolve s2 (r_start r2 + y) = Some b1 ->
     r_name r1 = r_name r2 /\ (r_size r1 = r_size r2 -> x = y)).
Proof.
  intros HC1 HC2 Hr1 Hr2 Hok1 Hok2 Hx Hb1. pose proof (resolve_canon rs1 s1 r1 x b1 HC1 Hr1 Hok1 Hx Hb1) as ->.
  pose proof (reg_size _ Hok1) as Hs1. pose proof (reg_size _ Hok2) as Hs2. split.
  - intros En Es b2 Hb2. rewrite (resolve_canon rs2 s2 r2 x b2 HC2 Hr2 Hok2 Hx Hb2). unfold chunk_object. by rewrite En, Es.
  - intros y Hy Hb. pose proof (resolve_canon rs2 s2 r2 y _ HC2 Hr2 Hok2 Hy Hb) as Eq. injection Eq as En Em.
    assert (forall z r, 0 < r -> 0 <= z < RESERVATION -> 0 <= z / r < 2 ^ 64) as Hq.
    { intros z r Hr0 Hz. unfold RESERVATION in Hz. change (Z.shiftl 1 40) with (2 ^ 40) in Hz.
      split; [apply Z.div_pos; lia|]. apply Z.div_lt_upper_bound; nia. }
    destruct (chunk_name_inj _ _ _ _ (Hq x _ Hs1 Hx) (Hq y _ Hs2 Hy) En) as [-> Ed]. split; [done|]. intros Es.
    rewrite (Z.div_mod x (r_size r1)), (Z.div_mod y (r_size r2)) by lia. congruence.
Qed.

(** ** Concrete heaps *)
Module Runs.
(** A kernel that never refuses; addresses it chooses are 2 TiB apart. *)
Definition os : Os :=
  mkOs (fun n a _ => match a with Some a => inr a | None => inr (2 ^ 41 * (Z.of_nat n + 1)) end)
    (fun _ => None) (fun _ _ => None) (fun _ => None) (fun _ => None) (fun _ => None) (fun _ => None) (fun _ _ _ => inl 22).

Lemma os_is_fine : os_fine os.
Proof. by split. Qed.

Definition vm (k : BackendKind) : Vm := mkVm k [] 0 ∅ [mkDevice (2 ^ 40) (2 ^ 21) 0] 0 0.

(** A small heap of 1 MiB: 32 slabs of 32 KiB, descriptors of 512 and 8 bytes. *)
Definition ident (s : string) : Id.t := match Id.new (bytes s) with Done i => i | _ => Id.mkId [] 0 end.

Definition region (s : string) (start size : Z) : reg := mkReg (bytes s) start size.
Definition rl : reg := region "h-ls" (2 ^ 41) 16384.
Definition rr : reg := region "h-rs" (2 ^ 42) 4096.
Definition rd : reg := region "h-ds" (2 ^ 43) 1048576.
Definition ql : Sequential := Normal (ident "h-ls") true (2 ^ 41) 16384.
Definition qr : Sequential := Normal (ident "h-rs") true (2 ^ 42) 4096.
Definition qd : Sequential := Normal (ident "h-ds") true (2 ^ 43) 1048576.

Lemma region_ok r : r ∈ [rl; rr; rd] -> reg_ok r.
Proof.
  intros Hr. repeat (apply elem_of_cons in Hr as [->|Hr]); [..|by apply elem_of_nil in Hr].
  all: split; [reflexivity|reflexivity|apply Z.mod_divide; [discriminate|reflexivity]|].
  all: split; [vm_compute; repeat constructor|vm_compute; repeat constructor].
Qed.

Lemma regions_apart : apart [rl; rr; rd].
Proof.
  intros r r' Hr Hr' Hne. repeat (apply elem_of_cons in Hr as [->|Hr]); [..|by apply elem_of_nil in Hr].
  all: repeat (apply elem_of_cons in Hr' as [->|Hr']); [..|by apply elem_of_nil in Hr'].
  all: first [by destruct Hne|left; vm_compute; discriminate|right; vm_compute; discriminate].
Qed.

Lemma is_regions : is_region ql rl /\ is_region qr rr /\ is_region qd rd.
Proof.
  split_and!; eexists _, _; (split; [reflexivity|]); (split_and!; [vm_compute; repeat constructor|vm_compute; repeat constructor|reflexivity]).
Qed.

(** The first byte of slab 32, the first one of the second data chunk. *)
Definition fault : Z := 2 ^ 43 + 32 * 32768.

(** The heap of [Raw::new], then the fault at slab 32. *)
Definition extend (k : BackendKind) : outcome (option (Backing * Z) * option (Backing * Z)) :=
  let m :=
    l <?- seq_new os true None None (ident "h-ls") (2 ^ 41) (32 * 512) false ;;
    r <?- seq_new os true None None (ident "h-rs") (2 ^ 42) (32 * 8) false ;;
    d <?- seq_new os true None None (ident "h-ds") (2 ^ 43) (32 * 32768) false ;;
    s <- gets (fun s => s) ;;
    _ <?- try_map os true None None 512 8 32768 (Some (40 + 1)) l r d fault ;;
    s' <- gets (fun s => s) ;;
    ok (resolve s (2 ^ 42), resolve s' (2 ^ 42)) in
  obind (m (vm k)) (fun p => match p.2 with inr x => Done x | inl _ => Panic end).

(** extending a heap discards metadata on every backend but shared memory.
    The remote descriptors of 32 slabs need 256 bytes, but a chunk has at least
    a page, so slab 32, the first one of the second data chunk, has its remote
    descriptor in chunk 0. The fault handler maps that chunk again: on shared
    memory it is the same object; anonymous memory and a DAX device give a
    fresh one, and the remote counters of all slabs are gone. *)
Theorem extension_remaps_metadata :
  (exists b, extend KShm = Done (Some b, Some b)) /\
  (exists b b', extend KMmap = Done (Some b, Some b') /\ b <> b') /\
  (exists b b', extend KDax = Done (Some b, Some b') /\ b <> b').
Proof.
  split_and!; [eexists; vm_compute; reflexivity|eexists _, _; split; [vm_compute; reflexivity|discriminate]..].
Qed.

(** The length of a shared-memory name is off by one: 61 bytes are accepted,
    62 bytes, allowed by the check, panic for want of the terminating nul, and
    63 bytes are refused. *)
Theorem shm_name_panics :
  (exists s f, shm_backend_open os (replicate 61 97) 4096 (vm KShm) = Done (s, inr f)) /\
  shm_backend_open os (replicate 62 97) 4096 (vm KShm) = Panic /\
  shm_backend_open os (replicate 63 97) 4096 (vm KShm) = Done (vm KShm, inl ShmName).
Proof. split_and!; [eexists _, _; vm_compute; reflexivity|by vm_compute|by vm_compute]. Qed.
End Runs.
