(* ===== verification/RawHeap.v ===== *)
(** * RawHeap: the backing store of a heap (cxlalloc/src/raw.rs)

    [Raw] owns the regions of a heap: a fixed shared and a fixed owned region
    with the metadata structures laid out one after the other, six sequential
    regions (slab descriptors and data of the small and the large heap) and the
    reservation of the huge allocations. [Raw::new] sets them up, [Raw::map] is
    the page-fault handler: it tries the small heap, the large heap and the
    huge allocations in turn. *)

From Stdlib Require Import ZArith Lia Bool String.
From stdpp Require Import base numbers option gmap functions strings list.
From S2P Require Import Prelude Bitset Size Data Cas Slab Heap HeapRules Huge HugeSafe HugeSys Allocator Stat Text Shm Region.
Local Open Scope Z_scope.
Local Open Scope prog_scope.
Local Open Scope res_scope.

(** ** Layouts *)

(** [core::alloc::Layout]. *)
Record Lay := mkLay { l_size : Z; l_align : Z }.

(** [Layout::extend]: the field goes to the next multiple of its alignment; the
    rounded size must not exceed [isize::MAX]. *)
Definition extend (l f : Lay) : option (Lay * Z) :=
  let align := Z.max (l_align l) (l_align f) in
  let offset := next_multiple_of (l_size l) (l_align f) in
  let size := offset + l_size f in
  if size <=? 2 ^ 63 - align then Some (mkLay size align, offset) else None.

Fixpoint extend_all (l : Lay) (offsets : list Z) (fields : list Lay) : outcome (Lay * list Z) :=
  match fields with
  | [] => Done (l, offsets)
  | f :: fields =>
      match extend l f with
      | Some (next, offset) => extend_all next (offsets ++ [offset]) fields
      | None => Panic
      end
  end.

(** The macro [layout!]: total size ([pad_to_align]) and the offsets. *)
Definition layout (head : Lay) (tail : list Lay) : outcome (Z * list Z) :=
  obind (extend_all head [0] tail) (fun r =>
  let size := next_multiple_of (l_size (fst r)) (l_align (fst r)) in
  if size =? 0 then Panic else Done (size, snd r)).

(** Sizes of the slab descriptors: [size_of::<slab::Local<B>>()] (eight bytes
    and the bitset) and [size_of::<Detectable<slab::Remote>>()]. *)
Definition local_size (rows : nat) : Z := LOCAL_SIZE_METADATA + SIZE_METADATA + 8 * Z.of_nat rows.
Definition REMOTE_SIZE : Z := 8.

(** ** The handle *)
Record Raw := mkRaw {
  raw_shared : Fixed;
  raw_owned : Fixed;
  local_small : Sequential;
  local_large : Sequential;
  remote_small : Sequential;
  remote_large : Sequential;
  data_small : Sequential;
  data_large : Sequential;
  data_huge : Random;
  free_on_drop : bool;
}.

(** [cache_local], [batch_global] and [batch_bump] override the statics. *)
Definition configure (cfg : Cfg) (cache_local batch_global batch_bump : option Z) : Cfg :=
  mkCfg (debug_assertions cfg) (feature_validate cfg) (recover_log cfg) (recover_cas cfg) (feature_stat cfg)
    (default (COUNT_CACHE_SLAB cfg) cache_local) (default (BATCH_GLOBAL_PUSH cfg) batch_global)
    (default (BATCH_BUMP_POP cfg) batch_bump).

Section raw.
Context (os : Os) (cfg : Cfg) (numa : option Numa) (populate : option Populate).
Abbreviation dbg := (debug_assertions cfg).
Abbreviation R A := (M Vm (RError + A)).

(** The types of the two fixed regions, as the compiler lays them out. *)
Context (shared_types owned_types : Lay * list Lay).

(** How many slabs the requested size needs; for none the layout is the default
    one and the regions are mapped on demand. *)
Definition initial_layout (size_local size_slab size : Z) : outcome (bool * Layout) :=
  obind (arith dbg 64 (next_multiple_of size size_slab)) (fun x =>
  if x / size_slab =? 0 then
    obind (layout_default size_local REMOTE_SIZE size_slab) (fun l => Done (true, l))
  else
    obind (heap_layout size_local REMOTE_SIZE size_slab (x / size_slab)) (fun o =>
    match o with Some l => Done (false, l) | None => Panic end)).

Abbreviation SMALL_LOCAL := (local_size (Z.to_nat Size.Small.ROWS)).
Abbreviation LARGE_LOCAL := (local_size (Z.to_nat Size.Large.ROWS)).

(** [Raw::new]. *)
Definition raw_new (name : list Z) (size_small size_large : Z) (free : bool) : R Raw :=
  let suffix id s := lift (Id.with_suffix id (bytes s)) in
  id <- lift (Id.new name) ;;
  ss <- lift (layout (fst shared_types) (snd shared_types)) ;;
  id_s <- suffix id "s" ;;
  shared <?- fixed_new os dbg numa populate id_s (fst ss) ;;
  so <- lift (layout (fst owned_types) (snd owned_types)) ;;
  id_o <- suffix id "o" ;;
  owned <?- fixed_new os dbg numa populate id_o (fst so) ;;
  small <- lift (initial_layout SMALL_LOCAL Size.Small.SIZE_SLAB size_small) ;;
  r_ls <?- from_shm (reserve os RESERVATION) ;;
  id_ls <- suffix id "ls" ;;
  ls <?- seq_new os dbg numa populate id_ls r_ls (locals (snd small)) (fst small) ;;
  id_rs <- suffix id "rs" ;;
  r_rs <?- from_shm (reserve os RESERVATION) ;;
  rs <?- seq_new os dbg numa populate id_rs r_rs (remotes (snd small)) (fst small) ;;
  large <- lift (initial_layout LARGE_LOCAL Size.Large.SIZE_SLAB size_large) ;;
  r_ll <?- from_shm (reserve os RESERVATION) ;;
  id_ll <- suffix id "ll" ;;
  ll <?- seq_new os dbg numa populate id_ll r_ll (locals (snd large)) (fst large) ;;
  r_rl <?- from_shm (reserve os RESERVATION) ;;
  id_rl <- suffix id "rl" ;;
  rl <?- seq_new os dbg numa populate id_rl r_rl (remotes (snd large)) (fst large) ;;
  rd <?- from_shm (reserve_contiguous os RESERVATION 3) ;;
  r_ds <- unwrap (rd !! 0%nat) ;;
  r_dl <- unwrap (rd !! 1%nat) ;;
  r_dh <- unwrap (rd !! 2%nat) ;;
  id_ds <- suffix id "ds" ;;
  ds <?- seq_new os dbg numa populate id_ds r_ds (data (snd small)) (fst small) ;;
  id_dl <- suffix id "dl" ;;
  dl <?- seq_new os dbg numa populate id_dl r_dl (data (snd large)) (fst large) ;;
  id_dh <- suffix id "dh" ;;
  ok (mkRaw shared owned ls ll rs rl ds dl (mkRandom id_dh r_dh) free).

(** [Raw::is_clean]: some region is new; a random region never is. *)
Definition raw_is_clean (r : Raw) : bool :=
  fx_create (raw_shared r) || fx_create (raw_owned r) ||
  existsb seq_is_clean [local_small r; local_large r; remote_small r; remote_large r; data_small r; data_large r].

(** [Raw::zero_metadata]: volatile writes of zero words over the two fixed
    regions. Memory is a function from addresses to bytes. *)
Definition write_zero (p : Z) (m : Z -> Z) : Z -> Z := fun a => if (p <=? a) && (a <? p + 8) then 0 else m a.

Fixpoint zero_words (n : nat) (p : Z) (m : Z -> Z) : Z -> Z :=
  match n with O => m | S n => zero_words n (p + 8) (write_zero p m) end.

Definition zero_region (f : Fixed) (m : Z -> Z) : Z -> Z :=
  zero_words (Z.to_nat (fx_size f / 8)) (fx_address f) m.

Definition zero_metadata (r : Raw) (m : Z -> Z) : Z -> Z := zero_region (raw_owned r) (zero_region (raw_shared r) m).

(** [Drop for Raw]: errors are logged; freeing the store is not implemented. *)
Definition ignore (m : R unit) : M Vm unit := m ;;; ret tt.

Definition raw_drop (r : Raw) : M Vm unit :=
  ignore (fixed_unmap os (raw_shared r)) ;;;
  ignore (fixed_unmap os (raw_owned r)) ;;;
  ignore (seq_unmap os (local_small r)) ;;;
  ignore (seq_unmap os (local_large r)) ;;;
  ignore (seq_unmap os (remote_small r)) ;;;
  ignore (seq_unmap os (remote_large r)) ;;;
  ignore (seq_unmap os (data_small r)) ;;;
  ignore (seq_unmap os (data_large r)) ;;;
  ignore (random_unmap_all os (data_huge r)) ;;;
  if free_on_drop r then panic else ret tt.

(** ** The page-fault handler *)
Context {IV : IntervalSet}.

(** The process: its address space, the allocator's state, fault counters. *)
Record Proc := mkProc { pr_vm : Vm; pr_alloc : AllocS; pr_stat : Process.recorder }.

Definition zoom_vm {A} (m : M Vm A) : M Proc A :=
  fun s => obind (m (pr_vm s)) (fun p => Done (mkProc (fst p) (pr_alloc s) (pr_stat s), snd p)).
Definition zoom_alloc {A} (m : M AllocS A) : M Proc A :=
  fun s => obind (m (pr_alloc s)) (fun p => Done (mkProc (pr_vm s) (fst p) (pr_stat s), snd p)).

Definition count_fault (e : Process.event) : M Proc unit :=
  modify (fun s => mkProc (pr_vm s) (pr_alloc s) (Process.record e (pr_stat s))).

(** [Allocator::focus(id, false)] for the duration of the handler: the huge
    allocator's state in DRAM is built anew and dropped at the end; the
    interrupted thread's own is left alone. *)
Definition put_hallocs (h : gmap Z HAllocator) (s : HugeS) : HugeS :=
  mkHugeS (slots s) (hint s) (howned s) h (descs s) (Huge.maps s).

Definition with_focus {A} (sreg id : Z) (m : M Proc A) : M Proc A :=
  saved <- gets (fun s => hallocs (al_huge (pr_alloc s))) ;;
  zoom_alloc (modify (fun a => put_huge (put_halloc id halloc_default (al_huge a)) a)) ;;;
  zoom_alloc (focus_unrecovered cfg sreg id) ;;;
  x <- m ;;
  zoom_alloc (modify (fun a => put_huge (put_hallocs saved (al_huge a)) a)) ;;;
  ret x.

(** [Huge::try_map] on the address space: the call that [map_descriptor]
    records is made; [None] is [OutOfBounds]. *)
Definition huge_fault (r : Raw) (id address : Z) : M Proc (option (RError + unit)) :=
  let sreg := seq_address (data_small r) in
  let hreg := rd_reservation (data_huge r) in
  b <- zoom_alloc (zoom_huge (huge_try_map cfg (sbase sreg) (hbase hreg) hreg (hend hreg) (fun _ _ => true) id address)) ;;
  match b with
  | None => ret None
  | Some _ =>
      c <- gets (fun s => hd_error (Huge.maps (al_huge (pr_alloc s)))) ;;
      match c with
      | Some (MapCall off size) => x <- zoom_vm (random_map os dbg numa populate (data_huge r) off size) ;; ret (Some x)
      | _ => panic
      end
  end.

(** [Raw::map]: whether the fault was handled. *)
Definition raw_map (r : Raw) (id address : Z) : M Proc bool :=
  if address =? 0 then ret false
  else
    with_focus (seq_address (data_small r)) id (
      len <- zoom_alloc (zoom_small (shared_len cfg id)) ;;
      x <- zoom_vm (try_map os dbg numa populate SMALL_LOCAL REMOTE_SIZE Size.Small.SIZE_SLAB len
                      (local_small r) (remote_small r) (data_small r) address) ;;
      match x with
      | inr _ => count_fault Process.FaultSmall ;;; ret true
      | inl OutOfBounds =>
          len <- zoom_alloc (zoom_large (shared_len cfg id)) ;;
          x <- zoom_vm (try_map os dbg numa populate LARGE_LOCAL REMOTE_SIZE Size.Large.SIZE_SLAB len
                          (local_large r) (remote_large r) (data_large r) address) ;;
          match x with
          | inr _ => count_fault Process.FaultLarge ;;; ret true
          | inl OutOfBounds =>
              x <- huge_fault r id address ;;
              match x with
              | Some (inr _) => count_fault Process.FaultHuge ;;; ret true
              | None => ret false
              | Some (inl _) => panic
              end
          | inl _ => panic
          end
      | inl _ => panic
      end).
End raw.

(** ** Layouts place fields one after the other *)

Definition lay_ok (l : Lay) : Prop := 0 <= l_size l /\ 0 < l_align l.

(** The fields follow each other between [start] and [stop], aligned. *)
Fixpoint places (start : Z) (offsets : list Z) (fields : list Lay) (stop : Z) : Prop :=
  match offsets, fields with
  | [], [] => start <= stop
  | o :: offsets, f :: fields => start <= o /\ (l_align f | o) /\ places (o + l_size f) offsets fields stop
  | _, _ => False
  end.

Lemma next_multiple_ge x m : 0 < m -> x <= next_multiple_of x m /\ (m | next_multiple_of x m).
Proof.
  intros Hm. unfold next_multiple_of. pose proof (Z.mod_pos_bound x m Hm) as Hb. destruct (x mod m =? 0) eqn:E.
  - split; [lia|]. apply Z.mod_divide; lia.
  - split; [lia|]. exists (x / m + 1). pose proof (Z.div_mod x m ltac:(lia)). lia.
Qed.

Lemma extend_all_places l acc fields l' offsets :
  lay_ok l -> Forall lay_ok fields -> extend_all l acc fields = Done (l', offsets) ->
  exists new, offsets = acc ++ new /\ places (l_size l) new fields (l_size l') /\ lay_ok l'.
Proof.
  intros Hl Hf. revert l acc Hl. induction Hf as [|f fields Hf _ IH]; intros l acc Hl E; simpl in E.
  { injection E as <- <-. exists []. split_and!; [by rewrite app_nil_r|simpl; lia|done]. }
  unfold extend in E. destruct (_ <=? _) in E; [|discriminate]. destruct Hl as [Hl0 Hl1], Hf as [Hf0 Hf1].
  destruct (next_multiple_ge (l_size l) (l_align f) Hf1) as [Hge Hdiv].
  apply IH in E as (new & -> & Hp & Hok); [|split; simpl; lia]. eexists. split; [by rewrite <- app_assoc|].
  split; [|done]. simpl. split_and!; done.
Qed.

Lemma places_inside start offsets fields stop i o f :
  Forall lay_ok fields -> places start offsets fields stop -> offsets !! i = Some o -> fields !! i = Some f ->
  start <= o /\ (l_align f | o) /\ o + l_size f <= stop.
Proof.
  intros Hok. revert start offsets i. induction Hok as [|g fields Hg Hok IH]; intros start [|o' offsets] i Hp Ho Hf; try done.
  destruct Hp as (H1 & H2 & H3), Hg as [Hg _].
  assert (forall st offs fs en, Forall lay_ok fs -> places st offs fs en -> st <= en) as Hle.
  { intros st offs fs en Hfs. revert st offs. induction Hfs as [|h fs Hh _ IHf]; intros st [|x offs] H; try done.
    destruct H as (? & _ & H). apply IHf in H. destruct Hh. lia. }
  destruct i as [|i]; simpl in Ho, Hf.
  - simplify_eq. pose proof (Hle _ _ _ _ Hok H3). split_and!; [done|done|lia].
  - destruct (IH _ _ _ H3 Ho Hf) as (? & ? & ?). split_and!; [lia|done|done].
Qed.

Lemma places_ordered start offsets fields stop i j o o' f :
  Forall lay_ok fields -> places start offsets fields stop -> (i < j)%nat ->
  offsets !! i = Some o -> fields !! i = Some f -> offsets !! j = Some o' -> o + l_size f <= o'.
Proof.
  intros Hok. revert start offsets i j. induction Hok as [|g fields Hg Hok IH]; intros start [|x offsets] i j Hp Hij Ho Hf Ho'; try done.
  destruct Hp as (H1 & H2 & H3). destruct j as [|j]; [lia|]. destruct i as [|i]; simpl in *.
  - simplify_eq. assert (exists f', fields !! j = Some f') as [f' Hf'].
    { apply lookup_lt_is_Some. clear -H3 Ho'. revert j Ho' H3. generalize (o + l_size f). revert fields.
      induction offsets as [|y offsets IH]; intros fields st j Ho' Hp; [done|]. destruct fields as [|h fields]; [done|].
      destruct j; simpl in *; [lia|]. destruct Hp as (_ & _ & Hp). specialize (IH _ _ _ Ho' Hp). lia. }
    by destruct (places_inside _ _ _ _ _ _ _ Hok H3 Ho' Hf') as [? _].
  - apply (IH _ offsets i j H3); [lia|done..].
Qed.

(** The macro [layout!] that arranges the metadata structures of a region:
    every field has an offset that is a multiple of its alignment, the first
    one at 0, two fields never overlap, and all of them end within the size
    the region is created with. *)
Lemma layout_sound head tail size offsets :
  Forall lay_ok (head :: tail) -> layout head tail = Done (size, offsets) ->
  offsets !! 0%nat = Some 0 /\ length offsets = S (length tail) /\ 0 < size /\
  (forall i o f, offsets !! i = Some o -> (head :: tail) !! i = Some f ->
     (l_align f | o) /\ 0 <= o /\ o + l_size f <= size) /\
  (forall i j o o' f, (i < j)%nat -> offsets !! i = Some o -> (head :: tail) !! i = Some f -> offsets !! j = Some o' ->
     o + l_size f <= o').
Proof.
  intros Hok E. pose proof (proj1 (Forall_cons _ _ _) Hok) as [Hh Ht]. unfold layout in E.
  destruct (extend_all head [0] tail) as [[l offs]| | |] eqn:Ee; simpl in E; [|discriminate..].
  destruct (next_multiple_of _ _ =? 0) eqn:E0; [discriminate|]. injection E as <- <-.
  destruct (extend_all_places _ _ _ _ _ Hh Ht Ee) as (new & -> & Hp & Hl).
  destruct (next_multiple_ge (l_size l) (l_align l) (proj2 Hl)) as [Hge _].
  assert (places 0 ([0] ++ new) (head :: tail) (l_size l)) as Hp0 by (simpl; split_and!; [lia|apply Z.divide_0_r|done]).
  split_and!; [done| |destruct Hl; lia| |].
  - simpl. f_equal. clear -Hp. revert Hp. generalize (l_size head). revert tail.
    induction new as [|x new IH]; intros [|f tail] st Hp; try done. simpl. f_equal. apply (IH tail (x + l_size f)), Hp.
  - intros i o f Ho Hf. destruct (places_inside _ _ _ _ _ _ _ Hok Hp0 Ho Hf) as (? & ? & ?). split_and!; [done|done|lia].
  - intros i j o o' f Hij Ho Hf Ho'. exact (places_ordered _ _ _ _ i j o o' f Hok Hp0 Hij Ho Hf Ho').
Qed.

(** ** Setting up the regions *)

Definition outside (a z b y : Z) : Prop := a + z <= b \/ b + y <= a.
Definition mapped (s : Vm) (a z : Z) : Prop := forall x, a <= x < a + z -> resolve s x <> None.

Lemma grown_mapped s s' a z : grown s s' -> mapped s a z -> mapped s' a z.
Proof. intros Hg Hm x Hx Hno. destruct (resolve s x) as [b|] eqn:E; [|by apply (Hm x)]. apply Hg in E. congruence. Qed.

Lemma grown_same s s' : maps s' = maps s -> grown s s'.
Proof. intros E a b. unfold resolve. by rewrite E. Qed.

(** The next [k] calls place memory where the process has room, above the
    first 4 GiB and below the end of the user address space, and ranges handed out
    by different calls are disjoint. *)
Record os_places (os : Os) (n0 k : nat) : Prop := {
  pl_answer : forall n size, (n0 <= n < n0 + k)%nat -> 0 < size <= 3 * RESERVATION ->
    exists p, os_mmap os n None size = inr p /\ 2 ^ 32 <= p /\ p + size < 2 ^ 56;
  pl_apart : forall n m size size' p q, (n < m)%nat ->
    os_mmap os n None size = inr p -> os_mmap os m None size' = inr q -> outside p size q size';
}.

(** Areas that do not overlap. *)
Definition disjoint_areas : list (Z * Z) -> Prop := ForallOrdPairs (fun x y => outside x.1 x.2 y.1 y.2).

Lemma disjoint_areas_app l l' :
  disjoint_areas l -> disjoint_areas l' -> (forall x y, x ∈ l -> y ∈ l' -> outside x.1 x.2 y.1 y.2) -> disjoint_areas (l ++ l').
Proof.
  intros Hl Hl'. induction Hl as [|x l Hx Hl IH]; intros H; simpl; [done|]. constructor.
  - apply List.Forall_app. split; [done|]. apply List.Forall_forall. intros y Hy. apply H; [by left|by apply list_elem_of_In].
  - apply IH. intros y z Hy Hz. apply H; [by right|done].
Qed.

Section boot.
Context (os : Os) (Hos : os_fine os) (dbg : bool) (numa : option Numa) (Hn : numa_fine dbg numa) (populate : option Populate).
Context (n0 k0 : nat) (Hpl : os_places os n0 k0).

(** The process so far: areas [fx] and reserved regions [rs], disjoint from each
    other and from everything later calls return; every mapping is one of the
    areas or a chunk of a region. *)
Record spaced (fx : list (Z * Z)) (rs : list reg) (s : Vm) : Prop := {
  sp_kind : kind s = KShm;
  sp_calls : (n0 <= calls s)%nat;
  sp_maps : forall m, m ∈ maps s -> (m_addr m, m_size m) ∈ fx \/
    exists r i, r ∈ rs /\ 0 <= i /\ r_size r * i + r_size r <= RESERVATION /\ m = chunk r i;
  sp_apart : apart rs;
  sp_areas : disjoint_areas fx;
  sp_fixed : forall a z r, (a, z) ∈ fx -> r ∈ rs -> outside a z (r_start r) RESERVATION;
  sp_later : forall m z p, (calls s <= m)%nat -> os_mmap os m None z = inr p ->
    (forall a y, (a, y) ∈ fx -> outside a y p z) /\ (forall r, r ∈ rs -> outside (r_start r) RESERVATION p z);
}.

Lemma spaced_canon fx rs s : spaced fx rs s -> (forall r, r ∈ rs -> 0 < r_size r) -> canon rs s.
Proof.
  intros H Hsz m r Hm Hr [H1 H2]. destruct (sp_maps _ _ _ H m Hm) as [Hf|(r' & i & Hr' & Hi & Hend & ->)].
  - pose proof (sp_fixed _ _ _ H _ _ r Hf Hr) as [?|?]; lia.
  - destruct (decide (r' = r)) as [->|Hne]; [by exists i|]. simpl in *. pose proof (Hsz r' Hr').
    assert (0 <= r_size r' * i) by nia. destruct (sp_apart _ _ _ H r' r Hr' Hr Hne); lia.
Qed.

(** A mapping in a new place hides nothing. *)
Lemma spaced_grown fx rs s s' m :
  spaced fx rs s -> (forall r, r ∈ rs -> 0 < r_size r) -> maps s' = m :: maps s ->
  (forall a y, (a, y) ∈ fx -> outside a y (m_addr m) (m_size m)) ->
  (forall r, r ∈ rs -> outside (r_start r) RESERVATION (m_addr m) (m_size m)) -> grown s s'.
Proof.
  intros H Hsz Em Hf Hr a b. unfold resolve. rewrite Em. cbn [List.find]. destruct (covers a m) eqn:Ec; [|done].
  apply covers_spec in Ec. destruct (List.find (covers a) (maps s)) as [m'|] eqn:E; [|done]. exfalso.
  apply List.find_some in E as [Hin Hc]. apply list_elem_of_In in Hin. apply covers_spec in Hc.
  destruct (sp_maps _ _ _ H m' Hin) as [Hfx|(r & i & Hin' & Hi & Hend & ->)].
  - destruct (Hf _ _ Hfx); lia.
  - simpl in Hc. pose proof (Hsz r Hin'). assert (0 <= r_size r * i) by nia. destruct (Hr r Hin'); lia.
Qed.

(** Memory that a new call returned is disjoint from what there is, and from
    what later calls return. *)
Lemma spaced_later fx rs s n z p :
  spaced fx rs s -> (calls s <= n)%nat -> os_mmap os n None z = inr p ->
  forall m y q, (n < m)%nat -> os_mmap os m None y = inr q ->
  outside p z q y /\ (forall a y', (a, y') ∈ fx -> outside a y' q y) /\ (forall r, r ∈ rs -> outside (r_start r) RESERVATION q y).
Proof.
  intros H Hc Ho m y q Hm Hq. split; [by apply (pl_apart _ _ _ Hpl n m)|]. apply (sp_later _ _ _ H m); [lia|done].
Qed.

Lemma fixed_new_spec fx rs s id name size :
  spaced fx rs s -> (forall r, r ∈ rs -> 0 < r_size r) -> (calls s + 5 <= n0 + k0)%nat ->
  id_is id name -> (length name < 62)%nat -> 0 < size -> next_multiple_of size PAGE <= 3 * RESERVATION ->
  wp (fixed_new os dbg numa populate id size) (fun s' res => exists f, res = inr f /\
    (spaced ((fx_address f, fx_size f) :: fx) rs s' /\ grown s s' /\ (calls s' <= calls s + 5)%nat /\
     fx_size f = next_multiple_of size PAGE /\ 0 < fx_address f /\ fx_address f + fx_size f < 2 ^ 56 /\
     mapped s' (fx_address f) (fx_size f))) s.
Proof.
  intros H Hsz Hb Hid Hlen Hs Hmax. unfold fixed_new. destruct (next_multiple_ge size PAGE eq_refl) as [Hge _].
  set (z := next_multiple_of size PAGE) in *. eapply wp_bind, wp_lift; [by apply as_str_spec|].
  assert (next_multiple_of z PAGE = z) as Ez by (apply next_multiple_page; unfold z; by apply next_multiple_ge).
  eapply wp_ebind_ok.
  { apply (open_map_spec os Hos dbg numa Hn populate name z None s); [apply H|apply Hid|done|].
    intros n Hnn. destruct (pl_answer _ _ _ Hpl n (next_multiple_of z PAGE)) as (p & Hp & Hp0 & _).
    - pose proof (sp_calls _ _ _ H). lia.
    - rewrite Ez. lia.
    - exists p. split_and!; [done|lia|congruence]. }
  intros s' [c a] (Hk & (n & Hc & Ha) & Hc' & Ha0 & _ & Hm & _). cbn [fst snd] in *. rewrite Ez in *. unfold ok. apply wp_ret.
  eexists. split; [done|]. cbn [fx_address fx_size].
  destruct (sp_later _ _ _ H n z a ltac:(lia) Ha) as [Hfx Hrs].
  assert (a + z < 2 ^ 56) as Hend.
  { destruct (pl_answer _ _ _ Hpl n z) as (p & Hp & _ & Hpe); [pose proof (sp_calls _ _ _ H); lia|lia|]. congruence. }
  split_and!; [|by eapply spaced_grown|lia|done|done|done|].
  - split.
    + done.
    + pose proof (sp_calls _ _ _ H). lia.
    + intros m Hin. rewrite Hm in Hin. apply elem_of_cons in Hin as [->|Hin]; [left; by left|].
      destruct (sp_maps _ _ _ H m Hin) as [?|?]; [left; by right|by right].
    + apply H.
    + constructor; [|apply H]. apply List.Forall_forall. intros [b y] Hin%list_elem_of_In. cbn [fst snd].
      destruct (Hfx b y Hin); unfold outside; lia.
    + intros b y r [[= -> ->]|Hin]%elem_of_cons Hr; [|by apply (sp_fixed _ _ _ H)]. destruct (Hrs r Hr); unfold outside; lia.
    + intros m y q Hmm Hq. destruct (spaced_later _ _ _ n z a H ltac:(lia) Ha m y q ltac:(lia) Hq) as (O1 & O2 & O3).
      split; [|done]. intros b y' [[= -> ->]|Hin]%elem_of_cons; [done|by apply O2].
  - intros x Hx. unfold resolve. rewrite Hm. cbn [List.find].
    assert (covers x (mkMapping a z (Opened (FdShm (47 :: name))) 0) = true) as -> by (apply covers_spec; simpl; lia). done.
Qed.

(** Reserving address space for regions that fit it. *)
Lemma reserve_spec fx rs s size :
  spaced fx rs s -> (S (calls s) <= n0 + k0)%nat -> 0 < size <= 3 * RESERVATION ->
  wp (from_shm (reserve os size)) (fun s' res => exists p, res = inr p /\
    (maps s' = maps s /\ kind s' = kind s /\ calls s' = S (calls s) /\ os_mmap os (calls s) None size = inr p /\
     2 ^ 32 <= p /\ p + size < 2 ^ 56)) s.
Proof.
  intros H Hb Hs. unfold from_shm, reserve. apply wp_bind. wp_go.
  destruct (pl_answer _ _ _ Hpl (calls s) size) as (p & Hp & Hp0 & Hpe); [pose proof (sp_calls _ _ _ H); lia|done|].
  rewrite Hp. apply wp_bind, wp_assert; [by destruct (p =? 0) eqn:E; [lia|]|]. unfold ok. wp_go. exists p. by split_and!.
Qed.

(** Carving areas and regions out of newly reserved space. *)
Lemma spaced_carve fx rs s s' size p fx' rs' :
  spaced fx rs s -> maps s' = maps s -> kind s' = kind s -> calls s' = S (calls s) ->
  os_mmap os (calls s) None size = inr p ->
  (forall a z, (a, z) ∈ fx' -> p <= a /\ a + z <= p + size) ->
  (forall r, r ∈ rs' -> p <= r_start r /\ r_start r + RESERVATION <= p + size) ->
  apart rs' -> disjoint_areas fx' -> (forall a z r, (a, z) ∈ fx' -> r ∈ rs' -> outside a z (r_start r) RESERVATION) ->
  spaced (fx' ++ fx) (rs' ++ rs) s'.
Proof.
  intros H Hm Hk Hc Hp Hfx' Hrs' Hap Hdis Hff. destruct (sp_later _ _ _ H (calls s) _ p (le_n _) Hp) as [Hfx Hrs].
  assert (0 < RESERVATION) as HR by done. split.
  - rewrite Hk. apply H.
  - pose proof (sp_calls _ _ _ H). lia.
  - intros m Hin. rewrite Hm in Hin. destruct (sp_maps _ _ _ H m Hin) as [?|(r' & i & ? & ?)]; [left; set_solver|].
    right. exists r', i. split; [set_solver|done].
  - intros r1 r2 [H1|H1]%elem_of_app [H2|H2]%elem_of_app Hne; [by apply Hap|..].
    + pose proof (Hrs' r1 H1). destruct (Hrs r2 H2); lia.
    + pose proof (Hrs' r2 H2). destruct (Hrs r1 H1); lia.
    + by apply (sp_apart _ _ _ H).
  - apply disjoint_areas_app; [done|apply H|]. intros [a z] [b y] Ha Hb. cbn [fst snd].
    pose proof (Hfx' a z Ha). destruct (Hfx b y Hb); unfold outside; lia.
  - intros a z r [Ha|Ha]%elem_of_app [Hr|Hr]%elem_of_app; [by apply Hff|..].
    + pose proof (Hfx' a z Ha). destruct (Hrs r Hr); unfold outside; lia.
    + pose proof (Hrs' r Hr). destruct (Hfx a z Ha); unfold outside; lia.
    + by apply (sp_fixed _ _ _ H).
  - intros m z q Hmm Hq. destruct (spaced_later _ _ _ _ _ _ H (le_n _) Hp m z q ltac:(lia) Hq) as (O1 & O2 & O3). split.
    + intros a y [Ha|Ha]%elem_of_app; [|by apply O2]. pose proof (Hfx' a y Ha). destruct O1; unfold outside; lia.
    + intros r [Hr|Hr]%elem_of_app; [|by apply O3]. pose proof (Hrs' r Hr). destruct O1; unfold outside; lia.
Qed.

Lemma spaced_reserve fx rs s s' p r :
  spaced fx rs s -> maps s' = maps s -> kind s' = kind s -> calls s' = S (calls s) ->
  os_mmap os (calls s) None RESERVATION = inr p -> r_start r = p -> spaced fx (r :: rs) s'.
Proof.
  intros H Hm Hk Hc Hp Hr. apply (spaced_carve fx rs s s' RESERVATION p [] [r]); try done.
  - by intros a z Ha%elem_of_nil.
  - intros r' ->%list_elem_of_singleton. lia.
  - intros r1 r2 ->%list_elem_of_singleton ->%list_elem_of_singleton. done.
  - constructor.
  - by intros a z r' Ha%elem_of_nil.
Qed.

(** The three data reservations, one after the other. *)
Lemma spaced_contiguous fx rs s s' p r1 r2 :
  spaced fx rs s -> maps s' = maps s -> kind s' = kind s -> calls s' = S (calls s) ->
  os_mmap os (calls s) None (RESERVATION * Z.of_nat 3) = inr p -> r_start r1 = p -> r_start r2 = p + RESERVATION ->
  spaced ((p + 2 * RESERVATION, RESERVATION) :: fx) (r2 :: r1 :: rs) s'.
Proof.
  intros H Hm Hk Hc Hp H1 H2. assert (0 < RESERVATION) as HR by done.
  apply (spaced_carve fx rs s s' (RESERVATION * Z.of_nat 3) p [(p + 2 * RESERVATION, RESERVATION)] [r2; r1]); try done.
  - intros a z [= -> ->]%list_elem_of_singleton. lia.
  - intros r [->|[->|[]%elem_of_nil]%elem_of_cons]%elem_of_cons; lia.
  - intros r r' [->|[->|[]%elem_of_nil]%elem_of_cons]%elem_of_cons [->|[->|[]%elem_of_nil]%elem_of_cons]%elem_of_cons Hne; done || lia.
  - repeat constructor.
  - intros a z r [= -> ->]%list_elem_of_singleton [->|[->|[]%elem_of_nil]%elem_of_cons]%elem_of_cons; unfold outside; lia.
Qed.

Lemma reserve_contiguous_spec fx rs s :
  spaced fx rs s -> (S (calls s) <= n0 + k0)%nat ->
  wp (from_shm (reserve_contiguous os RESERVATION 3)) (fun s' res => exists l, res = inr l /\
    (exists p, l = [p; p + RESERVATION; p + 2 * RESERVATION] /\ maps s' = maps s /\ kind s' = kind s /\
     calls s' = S (calls s) /\ os_mmap os (calls s) None (RESERVATION * Z.of_nat 3) = inr p /\
     2 ^ 32 <= p /\ p + 3 * RESERVATION < 2 ^ 56)) s.
Proof.
  intros H Hb. pose proof (reserve_spec fx rs s (RESERVATION * Z.of_nat 3) H Hb ltac:(done)) as Hr.
  unfold from_shm, reserve_contiguous in *. unfold wp, bind, ebind, ok, err, ret in *. unfold bind in *.
  destruct (reserve os (RESERVATION * Z.of_nat 3) s) as [[s1 [e|q]]| | |]; simpl in *; try done;
    destruct Hr as (p & [= <-] & Hm & Hk & Hc & Hp & Hp0 & Hpe).
  eexists. split; [done|]. exists q. split_and!; try done.
  cbn [seq fmap list_fmap]. rewrite Z.mul_0_r, Z.add_0_r. done.
Qed.

(** The first chunk of a region is mapped unless it is left for later. *)
Lemma seq_new_spec fx rs s id r size lazy_ :
  spaced fx rs s -> (forall r, r ∈ rs -> 0 < r_size r) -> r ∈ rs -> reg_ok r -> id_is id (r_name r) ->
  r_size r = next_multiple_of size PAGE -> r_size r <= RESERVATION ->
  wp (seq_new os dbg numa populate id (r_start r) size lazy_) (fun s' res => exists q, res = inr q /\
    (spaced fx rs s' /\ is_region q r /\ grown s s' /\ (calls s' <= calls s + 5)%nat /\
     (lazy_ = false -> mapped s' (r_start r) (r_size r)))) s.
Proof.
  intros H Hsz Hr Hok Hid Es Hmax. unfold seq_new. rewrite <- Es. destruct lazy_.
  { apply wp_ebind. unfold ok. wp_go. eexists. split; [done|]. split_and!; [done|by eexists _, _|by apply grown_same|lia|done]. }
  apply wp_ebind. replace (Some (r_start r)) with (Some (r_start r + r_size r * 0)) by (f_equal; lia).
  apply chunk_map; try done; [apply H|]. intros s' x Hk Hc Hm _. unfold ok. wp_go. eexists. split; [done|].
  pose proof (reg_size _ Hok) as Hs.
  destruct (add_chunk rs s s' r 0 (spaced_canon _ _ _ H Hsz) (sp_apart _ _ _ H) Hr Hok) as (_ & Hg & Hres); [lia|lia|done|].
  split_and!; [|by eexists _, _|done|lia|].
  - split; [done|pose proof (sp_calls _ _ _ H); lia| |apply H|apply H|apply H|].
    + intros m Hin. rewrite Hm in Hin. apply elem_of_cons in Hin as [->|Hin]; [|by apply H].
      right. exists r, 0. split_and!; [done|lia|lia|done].
    + intros m z p Hmm Hp. apply (sp_later _ _ _ H m); [lia|done].
  - intros _ y Hy. replace y with (r_start r + (y - r_start r)) by lia. apply Hres. apply Z.div_small. lia.
Qed.
End boot.

(** ** [Raw::new] *)

Definition reg_of (name : list Z) (suffix : string) (q : Sequential) : reg :=
  mkReg (name ++ 45 :: bytes suffix) (seq_address q) (seq_size q).

Definition raw_regs (name : list Z) (r : Raw) : list reg :=
  [reg_of name "dl" (data_large r); reg_of name "ds" (data_small r); reg_of name "rl" (remote_large r);
   reg_of name "ll" (local_large r); reg_of name "rs" (remote_small r); reg_of name "ls" (local_small r)].

(** The chunk sizes of these regions, which the initial sizes determine. *)
Definition chunk_sizes (cfg : Cfg) (size_small size_large : Z) : list Z :=
  match initial_layout cfg (local_size (Z.to_nat Size.Small.ROWS)) Size.Small.SIZE_SLAB size_small,
        initial_layout cfg (local_size (Z.to_nat Size.Large.ROWS)) Size.Large.SIZE_SLAB size_large with
  | Done (_, s), Done (_, l) =>
      (fun z => next_multiple_of z PAGE) <$> [data l; data s; remotes l; locals l; remotes s; locals s]
  | _, _ => []
  end.

(** The huge reservation and the two metadata regions. *)
Definition raw_areas (r : Raw) : list (Z * Z) :=
  [(rd_reservation (data_huge r), RESERVATION); (fx_address (raw_owned r), fx_size (raw_owned r));
   (fx_address (raw_shared r), fx_size (raw_shared r))].

(** The heap [name] is set up in the process. *)
Record raw_ok (name : list Z) (r : Raw) (s : Vm) : Prop := {
  ro_kind : kind s = KShm;
  ro_name : Forall plain name /\ (length name <= 30)%nat;
  ro_low : 2 ^ 32 <= seq_address (data_small r);
  ro_regs : Forall reg_ok (raw_regs name r);
  ro_size : forall g, g ∈ raw_regs name r -> r_size g <= RESERVATION /\ r_start g + RESERVATION < 2 ^ 56;
  ro_small : is_region (local_small r) (reg_of name "ls" (local_small r)) /\
    is_region (remote_small r) (reg_of name "rs" (remote_small r)) /\ is_region (data_small r) (reg_of name "ds" (data_small r));
  ro_large : is_region (local_large r) (reg_of name "ll" (local_large r)) /\
    is_region (remote_large r) (reg_of name "rl" (remote_large r)) /\ is_region (data_large r) (reg_of name "dl" (data_large r));
  ro_canon : canon (raw_regs name r) s;
  ro_apart : apart (raw_regs name r);
  ro_huge : id_is (rd_id (data_huge r)) (name ++ 45 :: bytes "dh");
  ro_contiguous : seq_address (data_large r) = seq_address (data_small r) + RESERVATION /\
    rd_reservation (data_huge r) = seq_address (data_large r) + RESERVATION /\ rd_reservation (data_huge r) + RESERVATION < 2 ^ 56;
  ro_areas : disjoint_areas (raw_areas r);
  ro_outside : forall a z g, (a, z) ∈ raw_areas r -> g ∈ raw_regs name r -> outside a z (r_start g) RESERVATION;
  ro_fixed : mapped s (fx_address (raw_shared r)) (fx_size (raw_shared r)) /\ mapped s (fx_address (raw_owned r)) (fx_size (raw_owned r));
}.

(** Sizes of the first chunks. *)
Lemma initial_layout_spec cfg sl ss size :
  0 < sl <= ss -> 8 <= ss -> (ss | 2 ^ 30) -> 0 <= size <= 2 ^ 39 ->
  exists l, initial_layout cfg sl ss size = Done (size =? 0, l) /\
    0 < locals l <= 2 ^ 39 + 2 ^ 30 /\ 0 < remotes l <= 2 ^ 39 + 2 ^ 30 /\ 0 < data l <= 2 ^ 39 + 2 ^ 30 /\ size <= data l.
Proof.
  intros Hsl Hss Hdiv Hsize. destruct (next_multiple_ge size ss ltac:(lia)) as [Hge [q Hq]].
  assert (ss <= 2 ^ 30) as Hss' by (apply Z.divide_pos_le; [lia|done]).
  assert (next_multiple_of size ss <= size + ss) as Hup.
  { unfold next_multiple_of. pose proof (Z.mod_pos_bound size ss ltac:(lia)). destruct (_ =? 0); lia. }
  assert (forall c, 0 < c -> ss * c <= 2 ^ 39 + 2 ^ 30 ->
            heap_layout sl REMOTE_SIZE ss c = Done (Some (mkLayout (sl * c) (REMOTE_SIZE * c) (ss * c)))) as Hlay.
  { intros c Hc Hb. unfold heap_layout, layout_array, REMOTE_SIZE. assert (sl * c <= ss * c) by nia. assert (8 * c <= ss * c) by nia.
    assert (0 < sl * c) by nia.
    rewrite (proj2 (Z.leb_le (sl * c) _)), (proj2 (Z.leb_le (8 * c) _)), (proj2 (Z.leb_le (1 * (ss * c)) _)) by lia.
    rewrite (proj2 (Z.ltb_lt 0 (sl * c))), (proj2 (Z.ltb_lt 0 (8 * c))), (proj2 (Z.ltb_lt 0 (1 * (ss * c)))) by lia.
    simpl andb. cbn iota. by rewrite Z.mul_1_l. }
  unfold initial_layout. rewrite arith_ok by (unfold in_range; lia). cbn [obind].
  rewrite Hq, Z.div_mul by lia. destruct (size =? 0) eqn:E0.
  - assert (size = 0) as -> by lia. assert (q = 0) as ->.
    { unfold next_multiple_of in Hq. rewrite Z.mod_0_l in Hq by lia. simpl in Hq. nia. }
    simpl. unfold layout_default. assert (next_multiple_of (2 ^ 30) ss = 2 ^ 30) as ->.
    { unfold next_multiple_of. apply Z.mod_divide in Hdiv; [|lia]. by rewrite Hdiv. }
    destruct Hdiv as [c Hc]. rewrite Hc, Z.div_mul by lia. assert (0 < c) by nia. rewrite Hlay by nia. cbn [obind].
    eexists. split; [done|]. cbn [locals remotes data]. unfold REMOTE_SIZE. split_and!; nia.
  - assert (0 < q) by nia. destruct (q =? 0) eqn:Eq; [lia|]. rewrite Hlay by nia. cbn [obind].
    eexists. split; [done|]. cbn [locals remotes data]. unfold REMOTE_SIZE. split_and!; nia.
Qed.

Section raw_new.
Context (os : Os) (Hos : os_fine os) (cfg : Cfg) (numa : option Numa) (Hn : numa_fine (debug_assertions cfg) numa) (populate : option Populate).
Context (shared_types owned_types : Lay * list Lay) (shared_size owned_size : Z) (shared_offsets owned_offsets : list Z).
Context (Hsh : layout (fst shared_types) (snd shared_types) = Done (shared_size, shared_offsets)) (Hsh0 : 0 < shared_size <= 2 ^ 40).
Context (How : layout (fst owned_types) (snd owned_types) = Done (owned_size, owned_offsets)) (How0 : 0 < owned_size <= 2 ^ 40).

Lemma reg_ok_of name suffix p size :
  Forall plain name -> (length name <= 30)%nat -> Forall plain (bytes suffix) -> (length (bytes suffix) <= 2)%nat ->
  0 < p -> 0 < size <= 2 ^ 39 + 2 ^ 30 ->
  reg_ok (mkReg (name ++ 45 :: bytes suffix) p (next_multiple_of size PAGE)) /\ next_multiple_of size PAGE <= RESERVATION.
Proof.
  intros Hp Hl Hb Hbl Hp0 Hs. destruct (next_multiple_ge size PAGE eq_refl) as [Hge Hd].
  assert (next_multiple_of size PAGE <= size + PAGE) as Hup.
  { unfold next_multiple_of, PAGE. pose proof (Z.mod_pos_bound size 4096 eq_refl). destruct (_ =? 0); lia. }
  split; [|unfold RESERVATION, PAGE in *; change (Z.shiftl 1 40) with (2 ^ 40); lia].
  split; cbn [r_start r_size r_name]; [done|lia|done|]. split.
  - apply Forall_app. split; [done|]. constructor; [unfold plain; lia|done].
  - rewrite length_app. simpl. lia.
Qed.

Lemma suffix_ok id name suffix :
  id_is id name -> (length name <= 30)%nat -> Forall plain (bytes suffix) -> (length (bytes suffix) <= 2)%nat ->
  exists id', Id.with_suffix id (bytes suffix) = Done id' /\ id_is id' (name ++ 45 :: bytes suffix).
Proof. intros Hid Hl Hb Hbl. apply with_suffix_spec; [done|done|unfold Id.SIZE; lia]. Qed.

(** Setting up: areas [fx], regions [rs], [live] areas that are mapped; [n]
    calls were made since the start. *)
Context (n0 : nat) (Hpl : os_places os n0 64).

Record booted (n : nat) (fx : list (Z * Z)) (rs : list reg) (live : list (Z * Z)) (s : Vm) : Prop := {
  bt_spaced : spaced os n0 fx rs s;
  bt_regs : Forall reg_ok rs;
  bt_bounds : forall g, g ∈ rs -> r_size g <= RESERVATION /\ r_start g + RESERVATION < 2 ^ 56;
  bt_calls : (calls s <= n0 + n)%nat;
  bt_live : forall a z, (a, z) ∈ live -> mapped s a z;
}.

Lemma booted_sizes n fx rs live s : booted n fx rs live s -> forall r, r ∈ rs -> 0 < r_size r.
Proof. intros H r Hr. apply reg_size. eapply Forall_forall; [apply H|done]. Qed.

Lemma booted_reserve {A} n fx rs live s name suffix size (K : Z -> M Vm (RError + A)) Q :
  booted n fx rs live s -> (n < 64)%nat -> Forall plain name -> (length name <= 30)%nat ->
  Forall plain (bytes suffix) -> (length (bytes suffix) <= 2)%nat -> 0 < size <= 2 ^ 39 + 2 ^ 30 ->
  (forall s' p, booted (S n) fx (mkReg (name ++ 45 :: bytes suffix) p (next_multiple_of size PAGE) :: rs) live s' -> wp (K p) Q s') ->
  wp (ebind (from_shm (reserve os RESERVATION)) K) Q s.
Proof.
  intros H Hn64 Hp Hl Hb Hbl Hs HK. pose proof (bt_calls _ _ _ _ _ H).
  eapply wp_ebind_ok; [apply (reserve_spec os n0 64 Hpl fx rs); [apply H|lia|done]|].
  intros s' p (Hm & Hk & Hc & Ho & Hp0 & Hpe). apply HK.
  destruct (reg_ok_of name suffix p size Hp Hl Hb Hbl ltac:(lia) Hs) as [Hok Hmax]. split.
  - eapply spaced_reserve; first [exact Hos|exact Hpl|exact Hn|apply H|done].
  - constructor; [done|apply H].
  - intros g [->|Hg]%elem_of_cons; [split; [done|cbn [r_start]; lia]|by apply (bt_bounds _ _ _ _ _ H)].
  - lia.
  - intros a z Ha. eapply grown_mapped; [by apply grown_same|by apply (bt_live _ _ _ _ _ H)].
Qed.

Lemma booted_seq {A} n fx rs live s id g size lazy_ (K : Sequential -> M Vm (RError + A)) Q :
  booted n fx rs live s -> (n + 5 <= 64)%nat -> g ∈ rs -> id_is id (r_name g) -> r_size g = next_multiple_of size PAGE ->
  (forall s' q, booted (n + 5) fx rs live s' -> is_region q g -> grown s s' -> (lazy_ = false -> mapped s' (r_start g) (r_size g)) -> wp (K q) Q s') ->
  wp (ebind (seq_new os (debug_assertions cfg) numa populate id (r_start g) size lazy_) K) Q s.
Proof.
  intros H Hn64 Hg Hid Es HK. destruct (bt_bounds _ _ _ _ _ H g Hg) as [Hmax _].
  eapply wp_ebind_ok; [apply (seq_new_spec os Hos _ numa Hn populate n0 fx rs); try done; [apply H|by eapply booted_sizes|]|].
  { eapply Forall_forall; [apply H|done]. }
  intros s' q (Hsp & Hq & Hgr & Hc & Hm). apply HK; [|done|done|done]. pose proof (bt_calls _ _ _ _ _ H).
  split; [done|apply H|apply H|lia|]. intros a z Ha. eapply grown_mapped; [done|by apply (bt_live _ _ _ _ _ H)].
Qed.

Lemma booted_fixed {A} n fx rs live s id name size (K : Fixed -> M Vm (RError + A)) Q :
  booted n fx rs live s -> (n + 5 <= 64)%nat -> id_is id name -> (length name < 62)%nat -> 0 < size <= 2 ^ 40 ->
  (forall s' f, booted (n + 5) ((fx_address f, fx_size f) :: fx) rs ((fx_address f, fx_size f) :: live) s' ->
     fx_size f = next_multiple_of size PAGE -> wp (K f) Q s') ->
  wp (ebind (fixed_new os (debug_assertions cfg) numa populate id size) K) Q s.
Proof.
  intros H Hn64 Hid Hl Hs HK. pose proof (bt_calls _ _ _ _ _ H).
  assert (next_multiple_of size PAGE <= 3 * RESERVATION) as Hmax.
  { unfold next_multiple_of, PAGE, RESERVATION. change (Z.shiftl 1 40) with (2 ^ 40).
    pose proof (Z.mod_pos_bound size 4096 eq_refl). destruct (_ =? 0); lia. }
  eapply wp_ebind_ok; [apply (fixed_new_spec os Hos _ numa Hn populate n0 64 Hpl fx rs s id name); try done; [apply H|by eapply booted_sizes|lia|lia]|].
  intros s' f (Hsp & Hgr & Hc & Ez & _ & _ & Hm). apply HK; [|done].
  split; [done|apply H|apply H|lia|]. intros a z [[= -> ->]|Ha]%elem_of_cons; [done|].
  eapply grown_mapped; [done|by apply (bt_live _ _ _ _ _ H)].
Qed.

Lemma booted_contiguous {A} n fx rs live s name s1 s2 size1 size2 (K : list Z -> M Vm (RError + A)) Q :
  booted n fx rs live s -> (n < 64)%nat -> Forall plain name -> (length name <= 30)%nat ->
  Forall plain (bytes s1) -> (length (bytes s1) <= 2)%nat -> Forall plain (bytes s2) -> (length (bytes s2) <= 2)%nat ->
  0 < size1 <= 2 ^ 39 + 2 ^ 30 -> 0 < size2 <= 2 ^ 39 + 2 ^ 30 ->
  (forall s' p, 2 ^ 32 <= p -> p + 3 * RESERVATION < 2 ^ 56 -> booted (S n) ((p + 2 * RESERVATION, RESERVATION) :: fx)
     (mkReg (name ++ 45 :: bytes s2) (p + RESERVATION) (next_multiple_of size2 PAGE) ::
      mkReg (name ++ 45 :: bytes s1) p (next_multiple_of size1 PAGE) :: rs) live s' ->
     wp (K [p; p + RESERVATION; p + 2 * RESERVATION]) Q s') ->
  wp (ebind (from_shm (reserve_contiguous os RESERVATION 3)) K) Q s.
Proof.
  intros H Hn64 Hp Hl Hb1 Hbl1 Hb2 Hbl2 Hs1 Hs2 HK. pose proof (bt_calls _ _ _ _ _ H). assert (0 < RESERVATION) by done.
  eapply wp_ebind_ok; [apply (reserve_contiguous_spec os n0 64 Hpl fx rs); [apply H|lia]|].
  intros s' l (p & -> & Hm & Hk & Hc & Ho & Hp0 & Hpe). apply HK; [done|done|].
  destruct (reg_ok_of name s1 p size1 Hp Hl Hb1 Hbl1 ltac:(lia) Hs1) as [Hok1 Hmax1].
  destruct (reg_ok_of name s2 (p + RESERVATION) size2 Hp Hl Hb2 Hbl2 ltac:(lia) Hs2) as [Hok2 Hmax2]. split.
  - eapply spaced_contiguous; first [exact Hos|exact Hpl|exact Hn|apply H|done].
  - constructor; [done|constructor; [done|apply H]].
  - intros g [->|[->|Hg]%elem_of_cons]%elem_of_cons; cbn [r_start r_size]; [split; [done|lia]|split; [done|lia]|].
    by apply (bt_bounds _ _ _ _ _ H).
  - lia.
  - intros a z Ha. eapply grown_mapped; [by apply grown_same|by apply (bt_live _ _ _ _ _ H)].
Qed.
Lemma reg_of_region name suffix p z q :
  is_region q (mkReg (name ++ 45 :: bytes suffix) p z) -> reg_of name suffix q = mkReg (name ++ 45 :: bytes suffix) p z.
Proof. by intros (id & c & -> & _). Qed.

(** Names of the regions. *)
Ltac txt := vm_compute; repeat constructor.
Ltac sfx id H suf :=
  let i := fresh "id" in let E := fresh "E" in let Hi := fresh "Hid" in
  destruct (suffix_ok id _ suf H ltac:(assumption) ltac:(txt) ltac:(txt)) as (i & E & Hi);
  eapply wp_bind, wp_lift; [exact E|].

Ltac seq_step n B H :=
  match type of B with booted _ _ (?g :: _) _ _ =>
    eapply (booted_seq n _ _ _ _ _ g); [exact B|lia|by left|exact H|reflexivity|] end.

Lemma booted_start s : kind s = KShm -> maps s = [] -> calls s = n0 -> booted 0 [] [] [] s.
Proof.
  intros Hk Hm Hc. split; [|constructor|by intros g Hg%elem_of_nil|lia|by intros a z Ha%elem_of_nil].
  split; [done|lia|rewrite Hm; by intros m Hin%elem_of_nil|by intros r r' Hr%elem_of_nil|constructor|by intros a z r Ha%elem_of_nil|].
  intros m z p _ _. split; [by intros a y Ha%elem_of_nil|by intros r Hr%elem_of_nil].
Qed.

(** What has been set up is a backing store. *)
Lemma booted_raw_ok n name r s p :
  booted n [(p + 2 * RESERVATION, RESERVATION); (fx_address (raw_owned r), fx_size (raw_owned r)); (fx_address (raw_shared r), fx_size (raw_shared r))]
    (raw_regs name r) [(fx_address (raw_owned r), fx_size (raw_owned r)); (fx_address (raw_shared r), fx_size (raw_shared r))] s ->
  2 ^ 32 <= p -> p + 3 * RESERVATION < 2 ^ 56 -> Forall plain name -> (length name <= 30)%nat ->
  seq_address (data_small r) = p -> seq_address (data_large r) = p + RESERVATION /\ rd_reservation (data_huge r) = p + 2 * RESERVATION ->
  id_is (rd_id (data_huge r)) (name ++ 45 :: bytes "dh") ->
  is_region (local_small r) (reg_of name "ls" (local_small r)) /\
    is_region (remote_small r) (reg_of name "rs" (remote_small r)) /\ is_region (data_small r) (reg_of name "ds" (data_small r)) ->
  is_region (local_large r) (reg_of name "ll" (local_large r)) /\
    is_region (remote_large r) (reg_of name "rl" (remote_large r)) /\ is_region (data_large r) (reg_of name "dl" (data_large r)) ->
  raw_ok name r s.
Proof.
  intros B Hlow Hpe Hpn Hln Eds [Edl Edh] Hid Hsm Hla. pose proof (bt_spaced _ _ _ _ _ B) as Hsp.
  split; try done; unfold raw_areas; rewrite ?Edh, ?Edl, ?Eds.
  - apply Hsp.
  - exact Hlow.
  - apply B.
  - apply (bt_bounds _ _ _ _ _ B).
  - eapply spaced_canon; [exact Hsp|by eapply booted_sizes].
  - apply (sp_apart _ _ _ _ _ Hsp).
  - split_and!; lia.
  - apply (sp_areas _ _ _ _ _ Hsp).
  - apply (sp_fixed _ _ _ _ _ Hsp).
  - split; apply (bt_live _ _ _ _ _ B); [by right; left|by left].
Qed.

(** The steps of [Raw::new]. *)
Lemma raw_new_spec name size_small size_large free s :
  kind s = KShm -> maps s = [] -> calls s = n0 ->
  Forall plain name -> (length name <= 30)%nat -> 0 <= size_small <= 2 ^ 39 -> 0 <= size_large <= 2 ^ 39 ->
  wp (raw_new os cfg numa populate shared_types owned_types name size_small size_large free) (fun s' res =>
    exists r, res = inr r /\ raw_ok name r s' /\ free_on_drop r = free /\
      fx_size (raw_shared r) = next_multiple_of shared_size PAGE /\ fx_size (raw_owned r) = next_multiple_of owned_size PAGE /\
      (size_small <> 0 -> mapped s' (seq_address (data_small r)) size_small) /\
      (size_large <> 0 -> mapped s' (seq_address (data_large r)) size_large) /\
      r_size <$> raw_regs name r = chunk_sizes cfg size_small size_large) s.
Proof.
  intros Hk Hm Hc Hpn Hln Hs1 Hs2. unfold raw_new.
  destruct (id_new_spec name Hpn ltac:(unfold Id.SIZE; lia)) as (id & Eid & Hid).
  eapply wp_bind, wp_lift; [exact Eid|]. eapply wp_bind, wp_lift; [exact Hsh|]. cbn [fst].
  pose proof (booted_start s Hk Hm Hc) as B0.
  assert (forall suf, Forall plain (bytes suf) -> (length (bytes suf) <= 2)%nat -> (length (name ++ 45%Z :: bytes suf) < 62)%nat) as Hl62.
  { intros suf _ Hl2. rewrite length_app. simpl. lia. }
  sfx id Hid "s". eapply (booted_fixed 0); [exact B0|lia|exact Hid0|apply Hl62; txt|done|]. intros s1 sh B1 Esh.
  eapply wp_bind, wp_lift; [exact How|]. cbn [fst].
  sfx id Hid "o". eapply (booted_fixed 5); [exact B1|lia|exact Hid1|apply Hl62; txt|done|]. intros s2 ow B2 Eow.
  destruct (initial_layout_spec cfg (local_size (Z.to_nat Size.Small.ROWS)) Size.Small.SIZE_SLAB size_small)
    as (l1 & E1 & L1 & R1 & D1 & C1); [by vm_compute|by vm_compute|by apply Z.mod_divide; vm_compute|done|].
  destruct (initial_layout_spec cfg (local_size (Z.to_nat Size.Large.ROWS)) Size.Large.SIZE_SLAB size_large)
    as (l2 & E2 & L2 & R2 & D2 & C2); [by vm_compute|by vm_compute|by apply Z.mod_divide; vm_compute|done|].
  eapply wp_bind, wp_lift; [exact E1|]. cbn [fst snd].
  eapply (booted_reserve 10 _ _ _ s2 name "ls"); [exact B2|lia|done|done|txt|txt|exact L1|]. intros s3 p1 B3.
  sfx id Hid "ls". seq_step 11%nat B3 Hid2. intros s4 ls B4 Q1 _ _.
  sfx id Hid "rs". eapply (booted_reserve 16 _ _ _ s4 name "rs"); [exact B4|lia|done|done|txt|txt|exact R1|]. intros s5 p2 B5.
  seq_step 17%nat B5 Hid3. intros s6 rs B6 Q2 _ _.
  eapply wp_bind, wp_lift; [exact E2|]. cbn [fst snd].
  eapply (booted_reserve 22 _ _ _ s6 name "ll"); [exact B6|lia|done|done|txt|txt|exact L2|]. intros s7 p3 B7.
  sfx id Hid "ll". seq_step 23%nat B7 Hid4. intros s8 ll B8 Q3 _ _.
  eapply (booted_reserve 28 _ _ _ s8 name "rl"); [exact B8|lia|done|done|txt|txt|exact R2|]. intros s9 p4 B9.
  sfx id Hid "rl". seq_step 29%nat B9 Hid5. intros s10 rl B10 Q4 _ _.
  eapply (booted_contiguous 34 _ _ _ s10 name "ds" "dl"); [exact B10|lia|done|done|txt|txt|txt|txt|exact D1|exact D2|].
  intros s11 p Hlow Hpe B11. do 3 (eapply wp_bind, wp_unwrap; [reflexivity|]).
  sfx id Hid "ds". match type of B11 with booted _ _ (_ :: ?g :: _) _ _ =>
    eapply (booted_seq 35 _ _ _ _ _ g); [exact B11|lia|by right; left|exact Hid6|reflexivity|] end. intros s12 ds B12 Q5 _ M5.
  sfx id Hid "dl". seq_step 40%nat B12 Hid7. intros s13 dl B13 Q6 G13 M6. sfx id Hid "dh". unfold ok. apply wp_ret.
  eexists. split; [reflexivity|].
  apply reg_of_region in Q1 as E1', Q2 as E2', Q3 as E3', Q4 as E4', Q5 as E5', Q6 as E6'.
  assert (seq_address ds = p /\ seq_address dl = p + RESERVATION) as [Eds Edl].
  { destruct Q5 as (? & ? & -> & _), Q6 as (? & ? & -> & _). done. }
  split_and!; [|done|exact Esh|exact Eow| | |].
  - eapply (booted_raw_ok _ name _ s13 p); [|exact Hlow|exact Hpe|done|done|done|done|exact Hid8| |];
      unfold raw_regs; cbn [data_large data_small remote_large local_large remote_small local_small]; rewrite ?E1', ?E2', ?E3', ?E4', ?E5', ?E6'; done.
  - cbn [data_small]. intros H0. rewrite Eds. intros x Hx. apply (grown_mapped s12 s13 p (next_multiple_of (data l1) PAGE) G13).
    + apply M5. by apply Z.eqb_neq.
    + pose proof (next_multiple_ge (data l1) PAGE eq_refl). lia.
  - cbn [data_large]. intros H0. rewrite Edl. intros x Hx. apply M6; [by apply Z.eqb_neq|].
    cbn [r_start r_size]. pose proof (next_multiple_ge (data l2) PAGE eq_refl). lia.
  - unfold chunk_sizes. rewrite E1, E2. unfold raw_regs.
    cbn [data_large data_small remote_large local_large remote_small local_small]. by rewrite E1', E2', E3', E4', E5', E6'.
Qed.
(** The structures of a metadata region are where [Raw::unfocused] takes them
    from: inside the region, aligned, not overlapping. *)
Definition fields_placed (s : Vm) (base : Z) (types : Lay * list Lay) (offsets : list Z) : Prop :=
  length offsets = S (length (snd types)) /\
  (forall i o f, offsets !! i = Some o -> (fst types :: snd types) !! i = Some f ->
     (l_align f | o) /\ mapped s (base + o) (l_size f)) /\
  (forall i j o o' f, (i < j)%nat -> offsets !! i = Some o -> (fst types :: snd types) !! i = Some f ->
     offsets !! j = Some o' -> base + o + l_size f <= base + o').

Lemma fields_placed_spec s base types size offsets z :
  Forall lay_ok (fst types :: snd types) -> layout (fst types) (snd types) = Done (size, offsets) ->
  size <= z -> mapped s base z -> fields_placed s base types offsets.
Proof.
  intros Hok E Hz Hm. destruct (layout_sound _ _ _ _ Hok E) as (_ & Hlen & _ & Hin & Hord). split_and!; [done| |].
  - intros i o f Ho Hf. destruct (Hin i o f Ho Hf) as (H1 & H2 & H3). split; [done|]. intros x Hx. apply Hm. lia.
  - intros i j o o' f Hij Ho Hf Ho'. pose proof (Hord i j o o' f Hij Ho Hf Ho'). lia.
Qed.

(** C30: [Raw::new] sets up a heap. On shared memory, for a name of at most 30
    characters and initial sizes of at most 512 GiB, it returns a handle: the
    metadata structures lie in mapped memory, aligned and without overlap, no
    region overlaps another, the data regions of the small, the large and the
    huge allocator follow each other (one TiB each), the six sequential regions
    hold chunks of their own name only, and a region whose initial size is not
    zero has that size mapped. *)
Theorem raw_new_ok name size_small size_large free s :
  kind s = KShm -> maps s = [] -> calls s = n0 ->
  Forall plain name -> (length name <= 30)%nat -> 0 <= size_small <= 2 ^ 39 -> 0 <= size_large <= 2 ^ 39 ->
  Forall lay_ok (fst shared_types :: snd shared_types) -> Forall lay_ok (fst owned_types :: snd owned_types) ->
  wp (raw_new os cfg numa populate shared_types owned_types name size_small size_large free) (fun s' res =>
    exists r, res = inr r /\ raw_ok name r s' /\ free_on_drop r = free /\
      fields_placed s' (fx_address (raw_shared r)) shared_types shared_offsets /\
      fields_placed s' (fx_address (raw_owned r)) owned_types owned_offsets /\
      (size_small <> 0 -> mapped s' (seq_address (data_small r)) size_small) /\
      (size_large <> 0 -> mapped s' (seq_address (data_large r)) size_large)) s.
Proof.
  intros Hk Hm Hc Hp Hl H1 H2 Hsok Hook. eapply wp_conseq; [by apply raw_new_spec|].
  intros s' res (r & -> & Hok & Hf & Es & Eo & Hms & Hml & _). exists r. destruct (ro_fixed _ _ _ Hok) as [Ms Mo].
  split_and!; try done; (eapply fields_placed_spec; [done|done| |done]).
  - rewrite Es. apply next_multiple_ge. done.
  - rewrite Eo. apply next_multiple_ge. done.
Qed.
End raw_new.

(** ** The fault handler *)

(** The faulting address is in a slab that is in use. *)
Definition used_at (sl ss : Z) (len : option Z) (ql qr qd : Sequential) (address : Z) : bool :=
  match len with
  | None => false
  | Some i =>
      match try_offsets sl REMOTE_SIZE ss (i - 1) (seq_address ql) (seq_address qr) (seq_address qd) address with
      | Some _ => true
      | None => false
      end
  end.

Definition SMALL_LOCAL : Z := local_size (Z.to_nat Size.Small.ROWS).
Definition LARGE_LOCAL : Z := local_size (Z.to_nat Size.Large.ROWS).

Section fault.
Context (os : Os) (Hos : os_fine os) (cfg : Cfg) (numa : option Numa) (Hn : numa_fine (debug_assertions cfg) numa) (populate : option Populate).
Context {IV : IntervalSet} {IL : IntervalLaws IV}.
Context (name : list Z) (r : Raw).

Definition slab_len (m : HeapMem) : option Z := d_inner (shared_bump m).

(** The slabs in use, and a chunk more, fit the reservations of the heap. *)
Definition heap_fits (sl ss : Z) (ql qr qd : Sequential) (suffix : string) (len : option Z) : Prop :=
  forall i, len = Some i -> fits_reservations sl REMOTE_SIZE ss (reg_of name ("l" ++ suffix) ql)
    (reg_of name ("r" ++ suffix) qr) (reg_of name ("d" ++ suffix) qd) (i - 1).

Lemma raw_ok_grown v v' :
  raw_ok name r v -> kind v' = KShm -> canon (raw_regs name r) v' -> grown v v' -> raw_ok name r v'.
Proof.
  intros H Hk HC Hg. destruct H as [H1 H2 H3 H4 H5 H6 H7 H8 H9 H10 H11 H12 H13 [H14 H15]]. split; try done.
  split; by eapply grown_mapped.
Qed.

Lemma heap_fault sl ss ql qr qd suffix len address v :
  raw_ok name r v -> 0 < sl -> 0 < ss ->
  reg_of name ("l" ++ suffix) ql ∈ raw_regs name r -> reg_of name ("r" ++ suffix) qr ∈ raw_regs name r ->
  reg_of name ("d" ++ suffix) qd ∈ raw_regs name r ->
  is_region ql (reg_of name ("l" ++ suffix) ql) -> is_region qr (reg_of name ("r" ++ suffix) qr) ->
  is_region qd (reg_of name ("d" ++ suffix) qd) -> heap_fits sl ss ql qr qd suffix len ->
  wp (try_map os (debug_assertions cfg) numa populate sl REMOTE_SIZE ss len ql qr qd address) (fun v' x =>
    if used_at sl ss len ql qr qd address
    then x = inr tt /\ raw_ok name r v' /\ grown v v' /\ resolve v' address <> None
    else x = inl OutOfBounds /\ v' = v) v.
Proof.
  intros H Hsl Hss I1 I2 I3 R1 R2 R3 Hfit. destruct len as [i|]; [|done]. simpl used_at.
  pose proof (ro_regs _ _ _ H) as Hok. rewrite Forall_forall in Hok.
  replace (Some i) with (Some (i - 1 + 1)) by (f_equal; lia).
  eapply wp_conseq; [eapply (try_map_spec os Hos _ numa Hn populate sl REMOTE_SIZE ss Hsl eq_refl Hss (raw_regs name r) (ro_apart _ _ _ H)
    _ _ _ I1 I2 I3 (Hok _ I1) (Hok _ I2) (Hok _ I3) ql qr qd R1 R2 R3 (i - 1) address v); [apply H|apply H|by apply Hfit]|].
  intros v' x Hx. cbn [reg_of r_start] in Hx. destruct (try_offsets _ _ _ _ _ _ _ _) as [[[lo ro] do_]|]; [|done].
  destruct Hx as (-> & Hk & HC & Hg & _ & _ & _ & _ & _ & Ha). split_and!; try done. by eapply raw_ok_grown.
Qed.

(** *** Parts of the process *)

Lemma wp_vm {A} (m : M Vm A) Q (p : Proc) :
  wp m (fun v x => Q (mkProc v (pr_alloc p) (pr_stat p)) x) (pr_vm p) -> wp (zoom_vm m) Q p.
Proof. unfold wp, zoom_vm. by destruct (m (pr_vm p)) as [[]| | |]. Qed.

Lemma wp_alloc {A} (m : M AllocS A) Q (p : Proc) :
  wp m (fun a x => Q (mkProc (pr_vm p) a (pr_stat p)) x) (pr_alloc p) -> wp (zoom_alloc m) Q p.
Proof. unfold wp, zoom_alloc. by destruct (m (pr_alloc p)) as [[]| | |]. Qed.

Lemma wp_zoom_huge {A} (m : M HugeS A) Q (a : AllocS) :
  wp m (fun h x => Q (put_huge h a) x) (al_huge a) -> wp (zoom_huge m) Q a.
Proof. unfold wp, zoom_huge, zoom. by destruct (m (al_huge a)) as [[]| | |]. Qed.

Lemma wp_len_small id (Q : Proc -> option Z -> Prop) p :
  (forall x, Q (mkProc (pr_vm p) (put_ctx x (pr_alloc p)) (pr_stat p)) (slab_len (al_small (pr_alloc p)))) ->
  wp (zoom_alloc (zoom_small (shared_len cfg id))) Q p.
Proof.
  intros H. apply wp_alloc. unfold zoom_small, zoom, shared_len.
  pose proof (wp_load cfg (S := HS) id bump_cell (fun s' v => exists x, s' = set_ctx x (small_of (pr_alloc p)) /\
    v = slab_len (al_small (pr_alloc p))) (small_of (pr_alloc p)) ltac:(intros x; by exists x)) as Hl.
  unfold wp in *. destruct (load cfg id bump_cell _) as [[s' v]| | |]; try done. destruct Hl as (x & -> & ->). apply H.
Qed.

Lemma wp_len_large id (Q : Proc -> option Z -> Prop) p :
  (forall x, Q (mkProc (pr_vm p) (put_ctx x (pr_alloc p)) (pr_stat p)) (slab_len (al_large (pr_alloc p)))) ->
  wp (zoom_alloc (zoom_large (shared_len cfg id))) Q p.
Proof.
  intros H. apply wp_alloc. unfold zoom_large, zoom, shared_len.
  pose proof (wp_load cfg (S := HS) id bump_cell (fun s' v => exists x, s' = set_ctx x (large_of (pr_alloc p)) /\
    v = slab_len (al_large (pr_alloc p))) (large_of (pr_alloc p)) ltac:(intros x; by exists x)) as Hl.
  unfold wp in *. destruct (load cfg id bump_cell _) as [[s' v]| | |]; try done. destruct Hl as (x & -> & ->). apply H.
Qed.

(** [Huge::find] does not look at the allocators. *)
Lemma huge_find_halloc sb o id a (h : HugeS) q :
  huge_find sb o h = Done (h, q) -> huge_find sb o (put_halloc id a h) = Done (put_halloc id a h, q).
Proof.
  unfold huge_find, bind, gets, lift, ret. cbn [obind fst snd]. change (shared_find (put_halloc id a h) o) with (shared_find h o).
  destruct (shared_find h o) as [[t|]| | |]; cbn [obind fst snd]; try done; [|by intros [= <-]].
  change (trace_all (put_halloc id a h) (huge_peek sb (put_halloc id a h) t)) with (trace_all h (huge_peek sb h t)).
  destruct (trace_all h _) as [l| | |]; cbn [obind fst snd]; try done. cbn [descs put_halloc].
  destruct (find_desc _ _ _) as [x| | |]; cbn [obind fst snd]; try done. by intros [= ->].
Qed.

Abbreviation hreg := (rd_reservation (data_huge r)).
Abbreviation sreg := (seq_address (data_small r)).

(** No byte outside the huge reservation moves. *)
Definition grown_outside (v v' : Vm) : Prop :=
  forall a b, ~ (hreg <= a < hreg + RESERVATION) -> resolve v a = Some b -> resolve v' a = Some b.

Lemma raw_ok_outside v v' :
  raw_ok name r v -> kind v' = KShm -> canon (raw_regs name r) v' -> grown_outside v v' -> raw_ok name r v'.
Proof.
  intros H Hk HC Hg. pose proof (ro_areas _ _ _ H) as Ha. destruct H as [H1 H2 H3 H4 H5 H6 H7 H8 H9 H10 H11 H12 H13 [H14 H15]].
  unfold disjoint_areas, raw_areas in Ha. inversion Ha as [|x l Hx _ Ex]; subst. cbn [fst snd] in Hx.
  pose proof (Forall_inv Hx) as Ho. pose proof (Forall_inv (Forall_inv_tail Hx)) as Hs. cbn [fst snd] in Ho, Hs.
  assert (forall a z, outside hreg RESERVATION a z -> mapped v a z -> mapped v' a z) as Hkeep.
  { intros a z Hout Hm x Hx' Hno. destruct (resolve v x) as [b|] eqn:E; [|by apply (Hm x)].
    apply Hg in E; [congruence|]. destruct Hout; lia. }
  split; try done. split; apply Hkeep; done.
Qed.

(** Mapping a huge allocation. *)
Lemma random_map_spec off size v :
  raw_ok name r v -> 0 <= off -> 0 < size -> (PAGE | size) -> off + size <= RESERVATION ->
  wp (random_map os (debug_assertions cfg) numa populate (data_huge r) off size) (fun v' x => x = inr tt /\ raw_ok name r v' /\
    mapped v' (hreg + off) size /\ grown_outside v v') v.
Proof.
  intros H Hoff Hsz Hp Hend. unfold random_map. pose proof (ro_contiguous _ _ _ H) as (C1 & C2 & C3). pose proof (ro_low _ _ _ H) as Hlow.
  destruct (ro_name _ _ _ H) as [Hpl Hlen]. destruct (hex_ascii off) as [Hhex Hhl].
  assert (0 < RESERVATION) by done. assert (0 < hreg) as Hh0 by lia.
  destruct (with_suffix_spec _ _ (hex off) (ro_huge _ _ _ H)) as (id' & Ei & Hid').
  { eapply Forall_impl; [exact Hhex|]. intros c Hc. exact Hc. }
  { unfold Id.SIZE. rewrite length_app. cbn [length]. change (length (bytes "dh")) with 2%nat. lia. }
  eapply wp_bind, wp_lift; [exact Ei|]. eapply wp_bind, wp_lift; [by apply as_str_spec|].
  eapply wp_ebind_ok; [apply (open_map_spec os Hos _ numa Hn populate); [apply H|apply Hid'| |apply fixed_answer; [done|lia]]|].
  { rewrite !length_app. cbn [length]. change (length (bytes "dh")) with 2%nat. lia. }
  intros v' x (Hk & _ & _ & _ & Ha & Hm & _). unfold ok. apply wp_ret. rewrite <- (Ha _ eq_refl), next_multiple_page in Hm by done.
  assert (forall g, g ∈ raw_regs name r -> outside hreg RESERVATION (r_start g) RESERVATION) as Hout.
  { intros g Hg. apply (ro_outside _ _ _ H _ _ g); [by left|done]. }
  assert (grown_outside v v') as Hg.
  { intros a b Hna Hb. unfold resolve. rewrite Hm. cbn [List.find].
    destruct (covers a _) eqn:E; [|exact Hb]. apply covers_spec in E. simpl in E. lia. }
  split_and!; [done| | |done].
  - apply (raw_ok_outside v); [done|done| |done]. intros m g Hin Hgin Hmeet. rewrite Hm in Hin.
    apply elem_of_cons in Hin as [->|Hin]; [|by apply (ro_canon _ _ _ H)]. exfalso. destruct Hmeet as [M1 M2]. simpl in M1, M2.
    destruct (Hout g Hgin); lia.
  - intros y Hy. unfold resolve. rewrite Hm. cbn [List.find].
    destruct (covers y (mkMapping (hreg + off) size _ _)) eqn:E; [done|]. exfalso. revert E. apply not_false_iff_true, covers_spec. simpl. lia.
Qed.

(** The address is in a live huge allocation that this thread has not mapped,
    and the thread has room for one more hazard. *)
Definition huge_ready (h : HugeS) (id address : Z) : Prop :=
  exists t q d, live_at (sbase sreg) h t q d (address - hbase hreg) /\
    hz_contains (howned_of h id) (dd_offset d) = false /\ hz_len (howned_of h id) < 1024 /\ (PAGE | dd_size d).

(** The address is in no range that a descriptor of any thread describes. *)
Definition huge_absent (h : HugeS) (address : Z) : Prop :=
  forall t q d, listed (sbase sreg) h t q -> descs h !! q = Some d -> ~ in_desc d (address - hbase hreg - 2 ^ 30).

(** Where a descriptor in use lies in the reservation. *)
Lemma in_use_bounds sb n L h t q d :
  hinv sb n L h -> q ∈ L t -> in_use h q d ->
  2 ^ 30 <= dd_offset d /\ 1 <= dd_size d /\ dd_offset d - 2 ^ 30 + dd_size d <= RESERVATION.
Proof.
  intros Hi Hq Hd. pose proof (hi_range _ _ _ _ Hi t q d Hq (proj1 Hd)) as (H1 & H2 & _).
  destruct (hi_used _ _ _ _ Hi t q d (dd_offset d + dd_size d - 1 - 2 ^ 30) Hq Hd) as [Ho _]; [unfold in_desc; lia|].
  pose proof (owned_by_bound _ _ _ _ (hi_slots _ _ _ _ Hi) Ho) as Hb.
  pose proof (tiled_bounds _ _ (sw_tiled _ _ (hi_slots _ _ _ _ Hi))) as Hn'. unfold COUNT_SLOT in Hn'.
  unfold RESERVATION. change (Z.shiftl 1 40) with (2 ^ 40). lia.
Qed.

Lemma huge_fault_spec n L id a h address p :
  raw_ok name r (pr_vm p) -> hinv (sbase sreg) n L h -> id_wf id -> al_huge (pr_alloc p) = put_halloc id a h ->
  hreg <= address < hreg + RESERVATION -> huge_ready h id address ->
  wp (huge_fault os cfg numa populate r id address) (fun p' x => x = Some (inr tt) /\ raw_ok name r (pr_vm p') /\
    resolve (pr_vm p') address <> None /\ grown_outside (pr_vm p) (pr_vm p') /\
    exists o c, pr_alloc p' = put_huge (put_map c (put_howned id o (put_halloc id a h))) (pr_alloc p) /\
      hinv (sbase sreg) n L (put_map c (put_howned id o h))) p.
Proof.
  intros Hraw Hi Hid Eh Hin (t & q & d & (Hq & Hd & Hlv & Hk) & Hz & Hroom & Hpg).
  pose proof (ro_low _ _ _ Hraw) as Hlow. pose proof (ro_contiguous _ _ _ Hraw) as (C1 & C2 & C3).
  assert (0 < sbase sreg) as Hsb by (unfold sbase, data_new; change (SIZE_SLAB (Bracket := Size.Small.bracket)) with (2 ^ 15); lia).
  apply (listed_inv (sbase sreg) Hsb n L) in Hq; [|done].
  assert (in_use h q d) as Hu by (split; [done|congruence]).
  pose proof (in_use_bounds _ _ _ _ _ _ _ Hi Hq Hu) as (B1 & B2 & B3).
  assert (hbase hreg = hreg - 2 ^ 30) as Ehb by done. rewrite Ehb in *.
  assert (RESERVATION = 2 ^ 40) as ER by done. rewrite ER in *.
  unfold huge_fault. apply wp_bind, wp_alloc, wp_zoom_huge. rewrite Eh.
  unfold huge_try_map, huge_pointer_to_offset. change (hend hreg) with (hreg + 2 ^ 40).
  rewrite (proj2 (Z.leb_le _ _)), (proj2 (Z.ltb_lt _ _)) by lia. cbn [andb]. unfold pointer_to_offset, checked_sub.
  rewrite Ehb, (proj2 (Z.leb_le _ _)), (proj2 (Z.eqb_neq _ _)) by lia.
  apply wp_bind, wp_done. eexists _, _. split.
  { apply huge_find_halloc, (huge_find_spec (sbase sreg) (fun _ _ => true) Hsb n L h t q d); [done|done|done|exact Hk]. }
  unfold get_desc. wp_go. cbn [descs put_halloc]. rewrite Hd. wp_go.
  change (howned_of (put_halloc id a h) id) with (howned_of h id).
  destruct (hi_hz _ _ _ _ Hi id) as (X & HX & _). rewrite (hz_contains_abs _ X) in Hz by done. apply bool_decide_eq_false in Hz.
  assert (Z.of_nat (size X) < 1024) as HsX.
  { destruct HX as (l & Hw & ->). rewrite size_list_to_set by apply Hw. rewrite (hw_len _ _ Hw) in Hroom. lia. }
  pose proof (hz_insert_abs cfg _ X (dd_offset d) HX Hz) as Hins. rewrite bool_decide_eq_true_2 in Hins by done.
  destruct Hins as (o & Eo & Ho & Hh). eapply wp_lift; [exact Eo|]. wp_go. unfold map_descriptor. wp_go. unfold offset_to_u64.
  change (SIZE_SLAB (Bracket := Size.Huge.bracket)) with (2 ^ 30).
  eapply wp_lift; [apply arith_ok; unfold in_range; lia|]. wp_go. cbn [Huge.maps put_map pr_alloc al_huge put_huge hd_error].
  apply wp_bind, wp_vm. cbn [pr_vm]. eapply wp_conseq; [apply (random_map_spec (dd_offset d - 2 ^ 30) (dd_size d)); [done|lia|lia|done|by rewrite ER]|].
  intros v' x (-> & Hr' & Hm & Hg). wp_go. cbn [pr_vm pr_alloc pr_stat]. split_and!; [done|done| |done|].
  - apply Hm. unfold in_desc in Hk. lia.
  - exists o, (MapCall (dd_offset d - 2 ^ 30) (dd_size d)). split; [done|]. apply (hinv_map _ (fun _ _ => true)); [done|].
    by apply (hinv_hazard (sbase sreg) n L h id o X t q d).
Qed.

Lemma put_hallocs_back sb n L id a (h : HugeS) : hinv sb n L h -> hinv sb n L (put_hallocs (hallocs h) (put_halloc id a h)).
Proof. by destruct h. Qed.

(** The handler's own allocator is dropped at its end. *)
Lemma wp_with_focus {A} n L id (m : M Proc A) (Q : Proc -> A -> Prop) p :
  0 < sbase sreg -> hinv (sbase sreg) n L (al_huge (pr_alloc p)) ->
  (forall a, wp m (fun p' x => Q (mkProc (pr_vm p')
      (put_huge (put_hallocs (hallocs (al_huge (pr_alloc p))) (al_huge (pr_alloc p'))) (pr_alloc p')) (pr_stat p')) x)
    (mkProc (pr_vm p) (put_huge (put_halloc id a (al_huge (pr_alloc p))) (pr_alloc p)) (pr_stat p))) ->
  wp (with_focus cfg sreg id m) Q p.
Proof.
  intros Hsb Hi HQ. unfold with_focus. wp_go. apply wp_alloc. wp_go. apply wp_alloc. unfold focus_unrecovered. apply wp_zoom_huge.
  cbn [pr_alloc al_huge put_huge pr_vm pr_stat].
  eapply wp_conseq; [apply (focus_spec cfg (sbase sreg) (fun _ _ => true) Hsb n L id _ Hi)|].
  intros h' [] (a & -> & _). apply wp_bind. eapply wp_conseq; [apply (HQ a)|]. intros p' x H. wp_go. apply wp_alloc. wp_go. exact H.
Qed.

(** The part of the allocator's state that the handler leaves alone. *)
Definition same_heaps (a a' : AllocS) : Prop :=
  al_small a' = al_small a /\ al_large a' = al_large a /\ hallocs (al_huge a') = hallocs (al_huge a) /\
  descs (al_huge a') = descs (al_huge a) /\ slots (al_huge a') = slots (al_huge a) /\ al_bytes a' = al_bytes a.

End fault.

(** ** Clearing and releasing a heap *)

Lemma zero_words_spec n p m a :
  zero_words n p m a = if (p <=? a) && (a <? p + 8 * Z.of_nat n) then 0 else m a.
Proof.
  revert p m. induction n as [|n IH]; intros p m; simpl zero_words.
  - destruct ((p <=? a) && (a <? p + 8 * Z.of_nat 0)) eqn:E; [|done]. apply andb_true_iff in E as [E1 E2].
    apply Z.leb_le in E1. apply Z.ltb_lt in E2. lia.
  - rewrite IH. unfold write_zero.
    destruct (Z.leb_spec (p + 8) a), (Z.ltb_spec a (p + 8 + 8 * Z.of_nat n)), (Z.leb_spec p a), (Z.ltb_spec a (p + 8)),
      (Z.ltb_spec a (p + 8 * Z.of_nat (S n))); simpl; done || lia.
Qed.

(** [Raw::zero_metadata] clears every byte of the two metadata regions, and
    touches no other. *)
Theorem zero_metadata_clears name r s m a :
  raw_ok name r s -> (8 | fx_size (raw_shared r)) -> (8 | fx_size (raw_owned r)) ->
  0 <= fx_size (raw_shared r) -> 0 <= fx_size (raw_owned r) ->
  zero_metadata r m a =
    if (fx_address (raw_shared r) <=? a) && (a <? fx_address (raw_shared r) + fx_size (raw_shared r)) then 0
    else if (fx_address (raw_owned r) <=? a) && (a <? fx_address (raw_owned r) + fx_size (raw_owned r)) then 0
    else m a.
Proof.
  intros _ [q1 H1] [q2 H2] P1 P2. unfold zero_metadata, zero_region. rewrite !zero_words_spec, H1, H2, !Z.div_mul, !Z2Nat.id by lia.
  replace (8 * q1) with (q1 * 8) by lia. replace (8 * q2) with (q2 * 8) by lia.
  destruct ((fx_address (raw_owned r) <=? a) && _); destruct ((fx_address (raw_shared r) <=? a) && _); done.
Qed.

(** Dropping the handle (of a heap that is not to be freed) makes every byte of
    every region inaccessible and leaves the rest of the process alone. *)
Definition region_byte (r : Raw) (x : Z) : bool :=
  existsb (fun '(a, z) => (a <=? x) && (x <? a + next_multiple_of z PAGE))
    ([(fx_address (raw_shared r), fx_size (raw_shared r)); (fx_address (raw_owned r), fx_size (raw_owned r))] ++
     ((fun q => (seq_address q, RESERVATION)) <$>
        [local_small r; local_large r; remote_small r; remote_large r; data_small r; data_large r]) ++
     [(rd_reservation (data_huge r), RESERVATION)]).

Lemma wp_ignore_unmap os a z m (Q : Vm -> unit -> Prop) s :
  (forall n, os_munmap os n = None) -> 0 <= z ->
  (m = from_shm (unmap_range os a z) \/ exists f, m = fixed_unmap os f /\ fx_address f = a /\ fx_size f = z) ->
  (forall s', kind s' = kind s ->
     (forall x, resolve s' x = if (a <=? x) && (x <? a + next_multiple_of z PAGE) then None else resolve s x) -> Q s' tt) ->
  wp (ignore m) Q s.
Proof.
  intros Hf Hz Hm HQ. unfold ignore. apply wp_bind. destruct Hm as [->|(f & -> & <- & <-)].
  - unfold from_shm. apply wp_bind. eapply wp_conseq; [by apply unmap_range_spec|].
    intros s' y (-> & Hk & H). unfold ok. wp_go. by apply HQ.
  - unfold fixed_unmap. apply wp_bind. eapply wp_conseq; [by apply unmap_range_spec|].
    intros s' y (-> & Hk & H). unfold ok. wp_go. by apply HQ.
Qed.

Theorem raw_drop_releases os name r s :
  (forall n, os_munmap os n = None) -> raw_ok name r s -> 0 <= fx_size (raw_shared r) -> 0 <= fx_size (raw_owned r) ->
  free_on_drop r = false ->
  wp (raw_drop os r) (fun s' _ => forall x, resolve s' x = if region_byte r x then None else resolve s x) s.
Proof.
  intros Hf Hok P1 P2 Hfree.
  assert (forall q g, is_region q g -> seq_unmap os q = from_shm (unmap_range os (seq_address q) RESERVATION)) as Hu.
  { by intros q g (i & c & -> & _). }
  destruct (ro_small _ _ _ Hok) as (R1 & R2 & R3). destruct (ro_large _ _ _ Hok) as (R4 & R5 & R6).
  unfold raw_drop, random_unmap_all. rewrite Hfree, (Hu _ _ R1), (Hu _ _ R2), (Hu _ _ R3), (Hu _ _ R4), (Hu _ _ R5), (Hu _ _ R6).
  apply wp_bind. eapply wp_ignore_unmap; [done|exact P1|right; by eexists|]. intros s1 _ H1.
  apply wp_bind. eapply wp_ignore_unmap; [done|exact P2|right; by eexists|]. intros s2 _ H2.
  assert (forall q m (K : M Vm unit) Q (t : Vm), m = ignore (from_shm (unmap_range os q RESERVATION)) ->
    (forall t', (forall x, resolve t' x = if (q <=? x) && (x <? q + next_multiple_of RESERVATION PAGE) then None else resolve t x) ->
       wp K Q t') -> wp (bind m (fun _ => K)) Q t) as Hstep.
  { intros q m K Q t -> HK. apply wp_bind. apply (wp_ignore_unmap os q RESERVATION); [done|done|by left|]. intros t' _ H. by apply HK. }
  eapply Hstep; [reflexivity|]. intros s3 H3. eapply Hstep; [reflexivity|]. intros s4 H4.
  eapply Hstep; [reflexivity|]. intros s5 H5. eapply Hstep; [reflexivity|]. intros s6 H6.
  eapply Hstep; [reflexivity|]. intros s7 H7. eapply Hstep; [reflexivity|]. intros s8 H8.
  eapply Hstep; [reflexivity|]. intros s9 H9. apply wp_ret. intros x.
  rewrite H9, H8, H7, H6, H5, H4, H3, H2, H1. unfold region_byte. cbn [fmap list_fmap app existsb].
  repeat match goal with |- context [(?a <=? x) && (x <? ?b)] => destruct ((a <=? x) && (x <? b)) eqn:? end; done.
Qed.

(** ** Several processes *)

(** The six sequential regions, in the order of [raw_regs]. *)
Definition sequential (r : Raw) : list Sequential :=
  [data_large r; data_small r; remote_large r; local_large r; remote_small r; local_small r].

(** A process that sets up or joins the heap with [Raw::new], in an empty
    address space, and then maps parts of its regions with [Sequential::map]
    in any order and any number of times. *)
Inductive process (os : Os) (cfg : Cfg) (numa : option Numa) (populate : option Populate) (shared_types owned_types : Lay * list Lay)
    (name : list Z) (size_small size_large : Z) (r : Raw) : Vm -> Prop :=
| process_new free s s' :
    os_places os (calls s) 64 -> kind s = KShm -> maps s = [] ->
    raw_new os cfg numa populate shared_types owned_types name size_small size_large free s = Done (s', inr r) ->
    process os cfg numa populate shared_types owned_types name size_small size_large r s'
| process_map q off s s' x :
    process os cfg numa populate shared_types owned_types name size_small size_large r s ->
    q ∈ sequential r -> 0 <= off -> off + seq_size q <= RESERVATION ->
    seq_map os (debug_assertions cfg) numa populate q off s = Done (s', inr x) ->
    process os cfg numa populate shared_types owned_types name size_small size_large r s'.

(** A region of the handle, with its name. *)
Lemma sequential_region name r v q : raw_ok name r v -> q ∈ sequential r ->
  exists g, g ∈ raw_regs name r /\ is_region q g /\ r_start g = seq_address q /\ r_size g = seq_size q.
Proof.
  intros H Hq. destruct (ro_small _ _ _ H) as (R1 & R2 & R3). destruct (ro_large _ _ _ H) as (R4 & R5 & R6).
  unfold sequential in Hq. repeat (apply elem_of_cons in Hq as [->|Hq]); [..|by apply elem_of_nil in Hq].
  all: eexists; (split; [|split; [eassumption|done]]); unfold raw_regs; set_solver.
Qed.

Section processes.
Context (cfg : Cfg) (shared_types owned_types : Lay * list Lay) (shared_size owned_size : Z) (shared_offsets owned_offsets : list Z).
Context (Hsh : layout (fst shared_types) (snd shared_types) = Done (shared_size, shared_offsets)) (Hsh0 : 0 < shared_size <= 2 ^ 40).
Context (How : layout (fst owned_types) (snd owned_types) = Done (owned_size, owned_offsets)) (How0 : 0 < owned_size <= 2 ^ 40).
Context (name : list Z) (Hpn : Forall plain name) (Hln : (length name <= 30)%nat).
Context (size_small size_large : Z) (Hs1 : 0 <= size_small <= 2 ^ 39) (Hs2 : 0 <= size_large <= 2 ^ 39).

Lemma process_ok os numa populate r v :
  os_fine os -> numa_fine (debug_assertions cfg) numa ->
  process os cfg numa populate shared_types owned_types name size_small size_large r v ->
  raw_ok name r v /\ r_size <$> raw_regs name r = chunk_sizes cfg size_small size_large.
Proof.
  intros Hos Hn. induction 1 as [free s s' Hpl Hk Hm E|q off s s' x _ [IH IHs] Hq Hoff Hend E].
  - pose proof (raw_new_spec os Hos cfg numa Hn populate shared_types owned_types shared_size owned_size shared_offsets owned_offsets
      Hsh Hsh0 How How0 (calls s) Hpl name size_small size_large free s Hk Hm eq_refl Hpn Hln Hs1 Hs2) as H.
    unfold wp in H. rewrite E in H. destruct H as (r' & [= <-] & Hok & _ & _ & _ & _ & _ & Hz). done.
  - split; [|done]. destruct (sequential_region name r s q IH Hq) as (g & Hg & Hreg & Est & Esz).
    pose proof (ro_regs _ _ _ IH) as Hrs. rewrite Forall_forall in Hrs.
    pose proof (map_one os Hos _ numa Hn populate (raw_regs name r) (ro_apart _ _ _ IH) q g off s (ro_kind _ _ _ IH) (ro_canon _ _ _ IH) Hg (Hrs g Hg) Hreg Hoff
      ltac:(lia)) as H.
    unfold wp in H. rewrite E in H. destruct H as (x' & _ & Hk' & HC' & Hgr & _). by eapply raw_ok_grown.
Qed.

(** The names of the regions are those of the heap, and different. *)
Lemma raw_regs_names r r' : r_name <$> raw_regs name r = r_name <$> raw_regs name r'.
Proof. done. Qed.

Lemma raw_regs_name_inj r r' i j g g' :
  raw_regs name r !! i = Some g -> raw_regs name r' !! j = Some g' -> r_name g = r_name g' -> i = j.
Proof.
  intros Hg Hg' En.
  assert (forall r i g, raw_regs name r !! i = Some g ->
    exists suf, ["dl"; "ds"; "rl"; "ll"; "rs"; "ls"] !! i = Some suf /\ r_name g = name ++ 45 :: bytes suf) as Hsuf.
  { clear. intros r i g H. do 6 (destruct i as [|i]; [injection H as <-; by eexists|]). done. }
  destruct (Hsuf r i g Hg) as (s & Hs & E), (Hsuf r' j g' Hg') as (s' & Hs' & E').
  rewrite E, E' in En. apply app_inv_head in En. injection En as En.
  assert (s = s') as <-.
  { apply list_elem_of_lookup_2 in Hs, Hs'. clear -Hs Hs' En.
    repeat (apply elem_of_cons in Hs as [->|Hs]); [..|by apply elem_of_nil in Hs].
    all: repeat (apply elem_of_cons in Hs' as [->|Hs']); [..|by apply elem_of_nil in Hs'].
    all: first [reflexivity|by vm_compute in En]. }
  clear -Hs Hs'. assert (NoDup ["dl"; "ds"; "rl"; "ll"; "rs"; "ls"]%string) as Hnd by (by vm_compute; apply (bool_decide_unpack _)).
  by eapply NoDup_lookup.
Qed.

(** C29: processes agree. Two processes set up or join the heap of one name and
    one size with [Raw::new], each with its own kernel, which places the regions
    at other addresses, and map parts of their regions in any order. Then the
    same offset of the same region is the same byte of the same shared object
    in both, whenever both have it mapped; and a byte of an object is at one
    offset of one region only. *)
Theorem processes_agree os1 os2 numa1 numa2 populate1 populate2 r1 r2 v1 v2 i g1 g2 x b :
  os_fine os1 -> os_fine os2 -> numa_fine (debug_assertions cfg) numa1 -> numa_fine (debug_assertions cfg) numa2 ->
  process os1 cfg numa1 populate1 shared_types owned_types name size_small size_large r1 v1 ->
  process os2 cfg numa2 populate2 shared_types owned_types name size_small size_large r2 v2 ->
  sequential r1 !! i = Some g1 -> sequential r2 !! i = Some g2 -> 0 <= x < RESERVATION ->
  resolve v1 (seq_address g1 + x) = Some b ->
  (forall b', resolve v2 (seq_address g2 + x) = Some b' -> b = b') /\
  (forall j g y, sequential r2 !! j = Some g -> 0 <= y < RESERVATION -> resolve v2 (seq_address g + y) = Some b -> i = j /\ x = y).
Proof.
  intros Ho1 Ho2 Hn1 Hn2 H1 H2 Hg1 Hg2 Hx Hb.
  destruct (process_ok _ _ _ _ _ Ho1 Hn1 H1) as [K1 Z1]. destruct (process_ok _ _ _ _ _ Ho2 Hn2 H2) as [K2 Z2].
  assert (forall r j q, sequential r !! j = Some q -> exists a, raw_regs name r !! j = Some a /\ r_start a = seq_address q) as Hreg.
  { intros r j q H. do 6 (destruct j as [|j]; [injection H as <-; by eexists|]). done. }
  pose proof (ro_regs _ _ _ K1) as F1. pose proof (ro_regs _ _ _ K2) as F2. rewrite Forall_forall in F1, F2.
  assert (forall j a a', raw_regs name r1 !! j = Some a -> raw_regs name r2 !! j = Some a' -> r_name a = r_name a' /\ r_size a = r_size a') as Hsame.
  { intros j a a' Ha Ha'. split.
    - pose proof (f_equal (lookup j) (raw_regs_names r1 r2)) as E. rewrite !list_lookup_fmap, Ha, Ha' in E. by injection E.
    - pose proof (f_equal (lookup j) (eq_trans Z1 (eq_sym Z2))) as E. rewrite !list_lookup_fmap, Ha, Ha' in E. by injection E. }
  destruct (Hreg _ _ _ Hg1) as (a1 & A1 & S1). rewrite <- S1 in Hb.
  pose proof (list_elem_of_lookup_2 _ _ _ A1) as M1.
  split.
  - intros b' Hb'. destruct (Hreg _ _ _ Hg2) as (a2 & A2 & S2). rewrite <- S2 in Hb'. destruct (Hsame _ _ _ A1 A2) as [En Es].
    pose proof (list_elem_of_lookup_2 _ _ _ A2) as M2.
    destruct (canon_agree _ _ v1 v2 a1 a2 x b (ro_canon _ _ _ K1) (ro_canon _ _ _ K2) M1 M2 (F1 _ M1) (F2 _ M2) Hx Hb) as [H _]. by apply H.
  - intros j g y Hg Hy Hby. destruct (Hreg _ _ _ Hg) as (a2 & A2 & S2). rewrite <- S2 in Hby.
    pose proof (list_elem_of_lookup_2 _ _ _ A2) as M2.
    destruct (canon_agree _ _ v1 v2 a1 a2 x b (ro_canon _ _ _ K1) (ro_canon _ _ _ K2) M1 M2 (F1 _ M1) (F2 _ M2) Hx Hb) as [_ H].
    destruct (H y Hy Hby) as [En Hxy]. pose proof (raw_regs_name_inj _ _ _ _ _ _ A1 A2 En) as ->. split; [done|].
    apply Hxy. by eapply Hsame.
Qed.
End processes.

(** ** A concrete heap *)
Module Runs.
#[local] Existing Instance IntervalList.intervals.
#[local] Existing Instance IntervalList.intervals_laws.

(** A kernel that places every request in a slice of 4 TiB of its own. *)
Definition os : Os :=
  mkOs (fun n a size => match a with
          | Some a => inr a
          | None => if size <=? 2 ^ 42 then inr (2 ^ 42 * (Z.of_nat n + 1)) else inl 12
          end)
    (fun _ => None) (fun _ _ => None) (fun _ => None) (fun _ => None) (fun _ => None) (fun _ => None) (fun _ _ _ => inl 22).

Lemma os_is_sound : os_fine os.
Proof. by split. Qed.

Lemma os_has_room : os_places os 0 64.
Proof.
  split.
  - intros n size Hn Hs. exists (2 ^ 42 * (Z.of_nat n + 1)). unfold RESERVATION in Hs. change (Z.shiftl 1 40) with (2 ^ 40) in Hs.
    split_and!; [simpl os_mmap; by rewrite (proj2 (Z.leb_le size (2 ^ 42))) by lia|lia|lia].
  - intros n m size size' p q Hnm. simpl os_mmap. destruct (Z.leb_spec size (2 ^ 42)); [|discriminate].
    destruct (Z.leb_spec size' (2 ^ 42)); [|discriminate]. intros [= <-] [= <-]. unfold outside. lia.
Qed.

(** Sizes and alignments of the structures for 512 threads. *)
Definition shared_types : Lay * list Lay := (mkLay (8256 + 513 * 1024) 64, [mkLay 16 8; mkLay 16 8; mkLay 8200 8]).
Definition owned_types : Lay * list Lay :=
  (mkLay (513 * 64) 64, [mkLay 1058880 64; mkLay 90304 64; mkLay 4210752 64]).

Definition cfg : Cfg := default_cfg true.
Definition vm : Vm := mkVm KShm [] 0 ∅ [] 0 0.
Definition heap : list Z := bytes "heap".

(** 1 MiB of small slabs, large slabs on demand. *)
Definition boot : outcome (Vm * (RError + Raw)) := raw_new os cfg None None shared_types owned_types heap (2 ^ 20) 0 false vm.

Lemma types_ok types : types = shared_types \/ types = owned_types -> Forall lay_ok (fst types :: snd types).
Proof. intros [-> | ->]; repeat constructor; done. Qed.

Lemma raw_new_ok_witness :
  wp (raw_new os cfg None None shared_types owned_types heap (2 ^ 20) 0 false) (fun s' res =>
    exists r, res = inr r /\ raw_ok heap r s' /\ mapped s' (seq_address (data_small r)) (2 ^ 20)) vm.
Proof.
  eapply wp_conseq.
  - apply (raw_new_ok os os_is_sound cfg None I None shared_types owned_types 541824 5392768 [0; 533568; 533584; 533600] [0; 32832; 1091712; 1182016]
      eq_refl ltac:(split; [reflexivity|discriminate]) eq_refl ltac:(split; [reflexivity|discriminate]) 0 os_has_room heap (2 ^ 20) 0 false vm
      eq_refl eq_refl eq_refl ltac:(vm_compute; repeat constructor) ltac:(vm_compute; repeat constructor)
      ltac:(split; discriminate) ltac:(split; discriminate) (types_ok _ (or_introl eq_refl)) (types_ok _ (or_intror eq_refl))).
  - intros s' res (r & Er & Hok & _ & _ & _ & Hm & _). exists r. split; [exact Er|]. split; [exact Hok|]. apply Hm. discriminate.
Defined.

(** The handle, and the address space after [Raw::new]. *)
Definition raw_default : Raw :=
  let f := mkFixed (Id.mkId [] 0) false 0 0 in let q := Mcas (Id.mkId [] 0) 0 0 in
  mkRaw f f q q q q q q (mkRandom (Id.mkId [] 0) 0) false.
Definition r0 : Raw := Eval vm_compute in match boot with Done (_, inr r) => r | _ => raw_default end.
Definition v0 : Vm := match boot with Done (v, _) => v | _ => vm end.

Lemma boot_result : boot = Done (v0, inr r0).
Proof. vm_compute. reflexivity. Qed.

Lemma r0_ok : raw_ok heap r0 v0.
Proof.
  assert (wp (raw_new os cfg None None shared_types owned_types heap (2 ^ 20) 0 false)
    (fun s' res => exists r, res = inr r /\ raw_ok heap r s') vm) as H.
  { eapply wp_conseq.
    - apply (raw_new_spec os os_is_sound cfg None I None shared_types owned_types 541824 5392768 [0; 533568; 533584; 533600] [0; 32832; 1091712; 1182016]
        eq_refl ltac:(split; [reflexivity|discriminate]) eq_refl ltac:(split; [reflexivity|discriminate]) 0 os_has_room heap (2 ^ 20) 0 false vm
        eq_refl eq_refl eq_refl ltac:(vm_compute; repeat constructor) ltac:(vm_compute; repeat constructor)
        ltac:(split; discriminate) ltac:(split; discriminate)).
    - intros s' res (r & Er & Hok & _). exists r. exact (conj Er Hok). }
  unfold wp in H. fold boot in H. rewrite boot_result in H. destruct H as (r & Er & H). injection Er as <-. exact H.
Qed.

(** 40 small slabs are in use; the thread touches the first block of slab 33,
    the first one after the initial mapping. *)
Definition alloc0 : AllocS :=
  put_small (mkHS (mkCtx ∅ ∅) (mkHeapMem ∅ ∅ (mkD None 0 None) (mkD None 0 (Some 41)) ∅) []) zero_alloc.
Definition p0 : Proc := mkProc v0 alloc0 (Process.mkRecorder 0 0 0).
Definition fault : Z := seq_address (data_small r0) + 32 * 32768.


(** A second process joins the heap; its kernel places the regions elsewhere. *)
Definition os2 : Os :=
  mkOs (fun n a size => match a with
          | Some a => inr a
          | None => if size <=? 2 ^ 42 then inr (2 ^ 43 * (Z.of_nat n + 1)) else inl 12
          end)
    (fun _ => None) (fun _ _ => None) (fun _ => None) (fun _ => None) (fun _ => None) (fun _ => None) (fun _ _ _ => inl 22).

Lemma os2_is_sound : os_fine os2.
Proof. by split. Qed.

Lemma os2_has_room : os_places os2 0 64.
Proof.
  split.
  - intros n size Hn Hs. exists (2 ^ 43 * (Z.of_nat n + 1)). unfold RESERVATION in Hs. change (Z.shiftl 1 40) with (2 ^ 40) in Hs.
    split_and!; [simpl os_mmap; by rewrite (proj2 (Z.leb_le size (2 ^ 42))) by lia|lia|lia].
  - intros n m size size' p q Hnm. simpl os_mmap. destruct (Z.leb_spec size (2 ^ 42)); [|discriminate].
    destruct (Z.leb_spec size' (2 ^ 42)); [|discriminate]. intros [= <-] [= <-]. unfold outside. lia.
Qed.

Definition vm2 : Vm := mkVm KShm [] 0 (objects v0) [] 0 0.
Definition boot2 : outcome (Vm * (RError + Raw)) := raw_new os2 cfg None None shared_types owned_types heap (2 ^ 20) 0 false vm2.
Definition r2 : Raw := Eval vm_compute in match boot2 with Done (_, inr r) => r | _ => raw_default end.
Definition v2 : Vm := match boot2 with Done (v, _) => v | _ => vm2 end.

Lemma boot2_result : boot2 = Done (v2, inr r2).
Proof. vm_compute. reflexivity. Qed.

(** Byte 100 of the small data region in both processes. *)
Lemma processes_agree_witness :
  seq_address (data_small r0) <> seq_address (data_small r2) /\
  exists b, resolve v0 (seq_address (data_small r0) + 100) = Some b /\ resolve v2 (seq_address (data_small r2) + 100) = Some b.
Proof.
  split; [discriminate|].
  destruct (resolve v0 (seq_address (data_small r0) + 100)) as [b|] eqn:E1; [|exfalso; revert E1; vm_compute; discriminate].
  destruct (resolve v2 (seq_address (data_small r2) + 100)) as [b'|] eqn:E2; [|exfalso; revert E2; vm_compute; discriminate].
  assert (process os cfg None None shared_types owned_types heap (2 ^ 20) 0 r0 v0) as P1
    by exact (process_new os cfg None None shared_types owned_types heap (2 ^ 20) 0 r0 false vm v0 os_has_room eq_refl eq_refl boot_result).
  assert (process os2 cfg None None shared_types owned_types heap (2 ^ 20) 0 r2 v2) as P2
    by exact (process_new os2 cfg None None shared_types owned_types heap (2 ^ 20) 0 r2 false vm2 v2 os2_has_room eq_refl eq_refl boot2_result).
  destruct (processes_agree cfg shared_types owned_types 541824 5392768 [0; 533568; 533584; 533600] [0; 32832; 1091712; 1182016]
    eq_refl ltac:(split; [reflexivity|discriminate]) eq_refl ltac:(split; [reflexivity|discriminate]) heap
    ltac:(vm_compute; repeat constructor) ltac:(vm_compute; repeat constructor) (2 ^ 20) 0 ltac:(split; discriminate) ltac:(split; discriminate)
    os os2 None None None None r0 r2 v0 v2 1%nat (data_small r0) (data_small r2) 100 b os_is_sound os2_is_sound I I P1 P2 eq_refl eq_refl
    ltac:(split; [discriminate|reflexivity]) E1) as [H _].
  exists b. split; [reflexivity|]. f_equal. symmetry. apply H. exact E2.
Defined.
End Runs.
