(* ===== verification/Capi.v ===== *)
(** * Capi: the C interface of the allocator (cxlalloc-static/src/lib.rs)

    One heap per process ([RAW]), a thread id and an allocator per thread,
    created on first use. The operations are those of [Allocator] on the regions
    of the heap; the mappings they ask for are made in the address space. *)

From Stdlib Require Import ZArith Lia Bool String.
From stdpp Require Import base numbers option gmap functions strings list.
From S2P Require Import Prelude Bitset Size Data Cas Slab Heap HeapLists HeapRules HeapInv HeapSys Huge HugeSafe HugeSys Allocator AllocSys Recover Stat Text Shm Region RawHeap.
Local Open Scope Z_scope.
Local Open Scope prog_scope.
Local Open Scope res_scope.

Section capi.
Context (os : Os) (fs : Fs) (env : list Z -> option (list Z)) (cfg : Cfg) (populate : option Populate) (shared_types owned_types : Lay * list Lay).
Context {IV : IntervalSet}.
Abbreviation dbg := (debug_assertions cfg).

(** The process: the heap with its NUMA policy, and for every OS thread
    [THREAD_ID] (1 when never set: the id of thread 0) and the id its
    [ALLOCATOR] was created with. *)
Record CProc := mkCProc {
  cp_raw : option (Raw * option Numa);
  cp_proc : Proc;
  cp_ids : gmap Z Z;
  cp_allocs : gmap Z Z;
  cp_default_segv : bool;
}.

Definition put_proc (p : Proc) (s : CProc) : CProc := mkCProc (cp_raw s) p (cp_ids s) (cp_allocs s) (cp_default_segv s).
Definition put_raw (r : option (Raw * option Numa)) (s : CProc) : CProc := mkCProc r (cp_proc s) (cp_ids s) (cp_allocs s) (cp_default_segv s).
Definition put_id (t id : Z) (s : CProc) : CProc := mkCProc (cp_raw s) (cp_proc s) (<[t := id]> (cp_ids s)) (cp_allocs s) (cp_default_segv s).
Definition put_alloc (t id : Z) (s : CProc) : CProc := mkCProc (cp_raw s) (cp_proc s) (cp_ids s) (<[t := id]> (cp_allocs s)) (cp_default_segv s).
Definition put_segv (b : bool) (s : CProc) : CProc := mkCProc (cp_raw s) (cp_proc s) (cp_ids s) (cp_allocs s) b.

Definition on_proc {A} (m : M Proc A) : M CProc A :=
  fun s => obind (m (cp_proc s)) (fun p => Done (put_proc (fst p) s, snd p)).

(** [raw()]: panics when the process was not initialised. *)
Definition raw : M CProc (Raw * option Numa) :=
  r <- gets cp_raw ;; unwrap r.

Definition thread_id (t : Z) : M CProc Z := gets (fun s => default 1 (cp_ids s !! t)).

(** The mapping calls recorded since [before], oldest first, made on the
    address space; a call that fails panics in [Huge]. *)
Definition new_calls (before after : list mapcall) : list mapcall := rev (take (length after - length before) after).

Fixpoint perform (numa : option Numa) (r : Random) (l : list mapcall) : M Vm unit :=
  match l with
  | [] => ret tt
  | MapCall off size :: l =>
      x <- random_map os dbg numa populate r off size ;;
      match x with inr _ => perform numa r l | inl _ => panic end
  | UnmapCall off size :: l => random_unmap os r off size ;;; perform numa r l
  end.

(** An operation of [Allocator] in the process. *)
Definition run_alloc {A} (r : Raw) (numa : option Numa) (m : M AllocS A) : M Proc A :=
  before <- gets (fun s => Huge.maps (al_huge (pr_alloc s))) ;;
  x <- zoom_alloc m ;;
  after <- gets (fun s => Huge.maps (al_huge (pr_alloc s))) ;;
  zoom_vm (perform numa (data_huge r) (new_calls before after)) ;;;
  ret x.

(** [ALLOCATOR.with]: the first use of a thread creates its allocator
    ([Raw::allocator], with recovery) for the id [tid] it has then. *)
Definition with_allocator_as {A} (tid : M CProc Z) (t : Z) (f : Raw -> Z -> M AllocS A) : M CProc A :=
  a <- gets (fun s => cp_allocs s !! t) ;;
  rn <- raw ;;
  let '(r, numa) := rn in
  id <- match a with
        | Some id => ret id
        | None =>
            id <- tid ;;
            on_proc (run_alloc r numa (
              modify (fun a => put_huge (put_halloc id halloc_default (al_huge a)) a) ;;;
              alloc_focus cfg (seq_address (data_small r)) id true)) ;;;
            modify (put_alloc t id) ;;;
            ret id
        end ;;
  on_proc (run_alloc r numa (f r id)).

Definition with_allocator {A} (t : Z) (f : Raw -> Z -> M AllocS A) : M CProc A := with_allocator_as (thread_id t) t f.

(** ** Initialisation *)

Definition dev_shm : list Z := bytes "/dev/shm/".
Definition dax_variable : list Z := bytes "CXLALLOC_DAX_DEVICES".
Definition dax_default : list Z := bytes "/dev/dax0.0".

(** The name of the heap: valid UTF-8, less the prefix. *)
Definition heap_name (heap_id : list Z) : outcome (list Z) :=
  match from_utf8 heap_id with Some _ => Done (trim_start_matches dev_shm heap_id) | None => Panic end.

Definition parse_backend (s : list Z) : outcome BackendKind :=
  if bool_decide (s = bytes "mmap") then Done KMmap
  else if bool_decide (s = bytes "shm") then Done KShm
  else if bool_decide (s = bytes "dax") then Done KDax
  else if bool_decide (s = bytes "dax-mmap") then Done KDaxMmap
  else if bool_decide (s = bytes "ivshmem") then Done KIvshmem
  else Panic.

(** [heap_numa.is_positive().then_some(..)]. *)
Definition parse_numa (heap_numa : Z) : option Numa := if 0 <? heap_numa then Some (NumaBind heap_numa) else None.

(** The backend object: a DAX backend opens the devices of the environment
    variable, ivshmem its device. *)
Definition build_backend (k : BackendKind) : M Vm unit :=
  modify (fun s => mkVm k (maps s) (calls s) (objects s) (devices s) (dax_next s) (hybrid_next s)) ;;;
  match k with
  | KMmap | KShm => ret tt
  | KDax | KDaxMmap =>
      l <- lift (dax_new fs (split 44 (default dax_default (env dax_variable)))) ;;
      l <- unwrap l ;;
      modify (fun s => set_hybrid 0 (set_devices l 0 s))
  | KIvshmem => assert_ (fs_open fs (bytes "/dev/cxl_ivpci0"))
  end.

(** [cxlalloc_init_thread]: the id must be below [COUNT_THREAD]. *)
Definition cxlalloc_init_thread (t thread : Z) : M CProc unit :=
  id <- lift (id_new thread) ;;
  modify (put_id t id).

(** [cxlalloc_init_process]; the strings are those before the terminating nul.
    The first call creates the heap, later ones keep it. *)
Definition cxlalloc_init_process (t : Z) (heap_id : list Z) (heap_numa : Z) (heap_backend : list Z)
    (heap_size thread_count thread : Z) : M CProc unit :=
  name <- lift (heap_name heap_id) ;;
  k <- lift (parse_backend heap_backend) ;;
  let numa := parse_numa heap_numa in
  r <- gets cp_raw ;;
  match r with
  | Some _ => ret tt
  | None =>
      modify (put_segv false) ;;;
      on_proc (zoom_vm (build_backend k)) ;;;
      x <- on_proc (zoom_vm (raw_new os cfg numa populate shared_types owned_types name heap_size 0 false)) ;;
      match x with
      | inl _ => panic
      | inr r => modify (put_raw (Some (r, numa)))
      end
  end ;;;
  cxlalloc_init_thread t thread ;;;
  with_allocator t (fun _ _ => ret tt).

(** ** The C functions; [None] is the null pointer *)

Definition op_malloc (size : Z) (r : Raw) (id : Z) : M AllocS (option Z) :=
  allocate_untyped cfg (seq_address (data_small r)) (seq_address (data_large r)) (rd_reservation (data_huge r)) (fun _ _ => true) id size.

Definition cxlalloc_malloc (t size : Z) : M CProc (option Z) := with_allocator t (op_malloc size).

Definition cxlalloc_free (t : Z) (p : option Z) : M CProc unit :=
  match p with
  | None => ret tt
  | Some p => with_allocator t (fun r id =>
      free_untyped cfg (seq_address (data_small r)) (seq_address (data_large r)) (rd_reservation (data_huge r)) id p)
  end.

Definition cxlalloc_realloc (t : Z) (p : option Z) (size : Z) : M CProc (option Z) :=
  match p with
  | None => cxlalloc_malloc t size
  | Some p => with_allocator t (fun r id =>
      realloc_untyped cfg (seq_address (data_small r)) (seq_address (data_large r)) (rd_reservation (data_huge r)) (fun _ _ => true) id p size)
  end.

(** [Layout::from_size_align(..).expect(..)], then [pad_to_align]. *)
Definition padded (size alignment : Z) : outcome Z :=
  if is_power_of_two alignment && (size <=? 2 ^ 63 - alignment) then Done (next_multiple_of size alignment) else Panic.

Definition cxlalloc_memalign (t size alignment : Z) : M CProc (option Z) :=
  z <- lift (padded size alignment) ;;
  with_allocator t (op_malloc z).

(** The answer is the boolean and the offset written. *)
Definition cxlalloc_pointer_to_offset (t : Z) (p : option Z) : M CProc (option Z) :=
  match p with
  | None => ret None
  | Some p => o <- with_allocator t (fun r _ => lift (api_pointer_to_offset cfg (seq_address (data_small r)) p)) ;; ret (Some o)
  end.

Definition cxlalloc_offset_to_pointer (t o : Z) : M CProc Z :=
  with_allocator t (fun r _ => ret (api_offset_to_pointer (seq_address (data_small r)) o)).

(** [handle_sigsegv]: a fault that the heap does not handle restores the default
    action, so that the instruction faults again and ends the process. *)
Definition handle_sigsegv (t address : Z) : M CProc unit :=
  rn <- raw ;;
  let '(r, numa) := rn in
  id <- thread_id t ;;
  b <- on_proc (raw_map os cfg numa populate r id address) ;;
  if (b : bool) then ret tt else modify (put_segv true).
End capi.

(** ** Alignment *)

Lemma pow2_divide j k : 0 <= j <= k -> (2 ^ j | 2 ^ k).
Proof. intros H. exists (2 ^ (k - j)). rewrite <- Z.pow_add_r by lia. f_equal. lia. Qed.

Lemma arith_divide checks j x y : 0 <= j <= 64 -> (2 ^ j | x) -> arith checks 64 x = Done y -> (2 ^ j | y).
Proof.
  intros Hj Hx. unfold arith. destruct (_ && _); [by intros [= <-]|]. destruct checks; [discriminate|]. intros [= <-].
  unfold wrap. rewrite Z.mod_eq by lia. apply Z.divide_sub_r; [done|]. apply Z.divide_mul_l. by apply pow2_divide.
Qed.

(** A block of a class whose size is a multiple of [2 ^ j] starts at one. *)
Lemma from_block_divide `{Bracket} dbg c i b o j :
  0 <= j <= 64 -> (2 ^ j | SIZE_SLAB) -> (2 ^ j | class_size c) -> from_block dbg c i b = Done o -> (2 ^ j | o).
Proof.
  intros Hj Hs Hc. unfold from_block. destruct (if dbg then _ else _) as [[]| | |]; simpl; try discriminate.
  destruct (arith dbg 64 (i * SIZE_SLAB)) as [x| | |] eqn:E1; simpl; try discriminate.
  destruct (arith dbg 64 (bit_to_u64 b * class_size c)) as [y| | |] eqn:E2; simpl; try discriminate.
  destruct (arith dbg 64 (x + y)) as [z| | |] eqn:E3; simpl; try discriminate.
  unfold nonzero. destruct (z =? 0); [discriminate|]. intros [= <-].
  apply (arith_divide _ _ _ _ Hj) in E1; [|by apply Z.divide_mul_r]. apply (arith_divide _ _ _ _ Hj) in E2; [|by apply Z.divide_mul_r].
  apply (arith_divide _ _ _ _ Hj) in E3; [done|]. by apply Z.divide_add_r.
Qed.

Section align.
Context (cfg : Cfg) {IV : IntervalSet} (sreg lreg hreg : Z) (map_ok : Z -> Z -> bool).

(** What [allocate_untyped] returns for at most 512 KiB: a multiple of [2 ^ j]
    when the size and the regions are; nothing happens to the huge allocator. *)
Lemma allocate_aligned id size s s' p j :
  1 <= size <= Large.SIZE_MAX -> 0 <= j <= 12 -> (2 ^ j | size) -> (2 ^ j | sreg) -> (2 ^ j | lreg) ->
  allocate_untyped cfg sreg lreg hreg map_ok id size s = Done (s', Some p) ->
  (2 ^ j | p) /\ al_huge s' = al_huge s.
Proof.
  intros Hsz Hj Hd Hs Hl. unfold allocate_untyped. intros (s1 & c & Ec & H)%bind_done.
  destruct (decide (size <= Small.SIZE_MAX)) as [Hsm|Hbig].
  - rewrite (small_new_done size ltac:(lia)) in Ec. injection Ec as <- <-.
    apply bind_done in H as (s2 & [[i b]|] & Epk & H); [|discriminate].
    apply bind_done in H as (s3 & q & Epop & H). apply bind_done in H as (s4 & [] & Eclr & H).
    injection H as <- <-. injection Eclr as <-. unfold zoom_small, zoom in Epk, Epop.
    destruct (small_peek cfg id _ _) as [[h1 x1]| | |]; simpl in Epk; try discriminate. injection Epk as <- ->.
    destruct (small_pop cfg sreg id _ i b _) as [[h2 x2]| | |] eqn:E2; simpl in Epop; try discriminate. injection Epop as <- <-.
    split; [|done]. apply pop_pointer in E2 as (o & Eo & ->). unfold offset_to_pointer, sbase, data_new.
    apply (from_block_divide _ _ _ _ _ j) in Eo; [|lia|by apply (pow2_divide j 15); lia|].
    + apply Z.divide_add_r; [|done]. apply Z.divide_sub_r; [done|]. apply (pow2_divide j 15). lia.
    + simpl. unfold Small.size. pose proof (next_multiple_of_spec size 8 ltac:(lia) ltac:(lia)) as [_ H8].
      assert (next_multiple_of size 8 / 8 * 8 = next_multiple_of size 8) as -> by (symmetry; rewrite Z.mul_comm; apply Z.div_exact; lia).
      destruct (decide (j <= 3)) as [Hj3|Hj3].
      * transitivity 8; [apply (pow2_divide j 3); lia|]. apply Z.mod_divide; [lia|done].
      * assert (8 | size) as H8s by (transitivity (2 ^ j); [apply (pow2_divide 3 j); lia|done]).
        unfold next_multiple_of. apply Z.mod_divide in H8s; [|lia]. by rewrite H8s.
  - assert (Size.Small.new size = Done None) as En by (unfold Size.Small.new; by rewrite (proj2 (Z.leb_gt _ _)) by lia).
    rewrite En in Ec. injection Ec as <- <-. unfold allocate_large in H. apply bind_done in H as (s2 & c & Ec & H).
    unfold Small.SIZE_MAX in Hbig. destruct (large_new_done size ltac:(simpl; lia)) as [El Hlog]. rewrite El in Ec. injection Ec as <- <-.
    apply bind_done in H as (s3 & [[i b]|] & Epk & H); [|discriminate]. apply bind_done in H as (s4 & q & Epop & H).
    injection H as <- <-. unfold zoom_large, zoom in Epk, Epop.
    destruct (large_peek cfg id _ _) as [[h1 x1]| | |]; simpl in Epk; try discriminate. injection Epk as <- ->.
    destruct (large_pop cfg lreg id _ i b _) as [[h2 x2]| | |] eqn:E2; simpl in Epop; try discriminate. injection Epop as <- <-.
    split; [|done]. apply pop_pointer in E2 as (o & Eo & ->). unfold offset_to_pointer, lbase, data_new.
    apply (from_block_divide _ _ _ _ _ j) in Eo; [|lia|by apply (pow2_divide j 19); lia|].
    + apply Z.divide_add_r; [|done]. apply Z.divide_sub_r; [done|]. apply (pow2_divide j 19). lia.
    + simpl. unfold Large.size, Large.SIZE_MIN, Large.SIZE_MIN_LOG2. rewrite !Z.shiftl_mul_pow2, Z.mul_1_l, <- Z.pow_add_r by lia.
      apply pow2_divide. split; [lia|]. replace (10 + (Z.log2_up size - 10)) with (Z.log2_up size) by lia.
      apply Z.divide_pos_le in Hd; [|lia]. apply Z.log2_up_le_mono in Hd. by rewrite Z.log2_up_pow2 in Hd by lia.
Qed.
End align.

(** ** The C functions *)
Section calls.
Context (os : Os) (Hos : os_fine os) (fs : Fs) (env : list Z -> option (list Z)) (cfg : Cfg) (populate : option Populate)
  (shared_types owned_types : Lay * list Lay).
Context {IV : IntervalSet} {IL : IntervalLaws IV}.

Lemma perform_none numa r v : perform os cfg populate numa r [] v = Done (v, tt).
Proof. done. Qed.

Lemma new_calls_same l : new_calls l l = [].
Proof. unfold new_calls. by rewrite Nat.sub_diag. Qed.

(** An operation that maps nothing. *)
Lemma wp_run_alloc {A} r numa (m : M AllocS A) (Q : Proc -> A -> Prop) p :
  wp m (fun a x => Huge.maps (al_huge a) = Huge.maps (al_huge (pr_alloc p)) /\ Q (mkProc (pr_vm p) a (pr_stat p)) x) (pr_alloc p) ->
  wp (run_alloc os cfg populate r numa m) Q p.
Proof.
  intros H. unfold run_alloc. wp_go. apply wp_alloc. eapply wp_conseq; [exact H|]. intros a x [Em HQ]. wp_go. cbn [pr_alloc].
  rewrite Em, new_calls_same. apply wp_vm. by apply wp_ret.
Qed.

Lemma wp_on_proc {A} (m : M Proc A) (Q : CProc -> A -> Prop) c :
  wp m (fun p x => Q (put_proc p c) x) (cp_proc c) -> wp (on_proc m) Q c.
Proof. unfold wp, on_proc. by destruct (m (cp_proc c)) as [[]| | |]. Qed.

(** A thread that has its allocator. *)
Lemma wp_with_allocator {A} t r numa id (f : Raw -> Z -> M AllocS A) (Q : CProc -> A -> Prop) c :
  cp_raw c = Some (r, numa) -> cp_allocs c !! t = Some id ->
  wp (f r id) (fun a x => Huge.maps (al_huge a) = Huge.maps (al_huge (pr_alloc (cp_proc c))) /\
    Q (put_proc (mkProc (pr_vm (cp_proc c)) a (pr_stat (cp_proc c))) c) x) (pr_alloc (cp_proc c)) ->
  wp (with_allocator os cfg populate t f) Q c.
Proof.
  intros Hr Ha H. unfold with_allocator, with_allocator_as, raw. wp_go. rewrite Hr. eapply wp_unwrap; [reflexivity|]. rewrite Ha. wp_go.
  by apply wp_on_proc, wp_run_alloc.
Qed.

(** C32: [cxlalloc_memalign] returns aligned memory. For at least one
    byte, an alignment of at most a page and a padded size of at most 512 KiB, on
    a heap that is not exhausted and whose regions start at page boundaries, in
    a build without validation, the call returns a pointer that is a multiple of the
    alignment, with at least the requested size behind it, and that overlaps
    nothing the application holds. (The request only rounds the size up; that
    this aligns the block follows from the size classes.) *)
Theorem memalign_aligned t size alignment c r numa id k A :
  cfg_ok cfg -> layout_ok (seq_address (data_small r)) (seq_address (data_large r)) (rd_reservation (data_huge r)) ->
  BATCH_BUMP_POP cfg <= 2 ^ 31 -> cp_raw c = Some (r, numa) -> cp_allocs c !! t = Some id ->
  asim (seq_address (data_small r)) (seq_address (data_large r)) (rd_reservation (data_huge r)) k (pr_alloc (cp_proc c)) A ->
  room cfg (pr_alloc (cp_proc c)) -> k + 1 < 2 ^ 64 ->
  (4096 | seq_address (data_small r)) -> (4096 | seq_address (data_large r)) ->
  is_power_of_two alignment = true -> alignment <= 4096 -> 1 <= size -> next_multiple_of size alignment <= Large.SIZE_MAX ->
  wp (cxlalloc_memalign os cfg populate t size alignment) (fun c' o => exists p z, o = Some p /\ (alignment | p) /\ size <= z /\
    A !! p = None /\ cp_raw c' = cp_raw c /\ cp_allocs c' = cp_allocs c /\
    asim (seq_address (data_small r)) (seq_address (data_large r)) (rd_reservation (data_huge r)) (k + 1) (pr_alloc (cp_proc c')) (<[p := z]> A)) c.
Proof.
  intros Hcfg Hlay Hb Hr Ha Hs Hroom Hk Ds Dl Hp Hal Hsz Hmax.
  destruct (is_power_of_two_spec _ Hp) as (j & Hj & ->). assert (j <= 12) as Hj12.
  { apply (Z.pow_le_mono_r_iff 2); [lia|lia|]. by change (2 ^ 12) with 4096. }
  assert (0 < 2 ^ j) as Hpos by (apply Z.pow_pos_nonneg; lia). assert (Large.SIZE_MAX = 524288) as EL by done.
  destruct (next_multiple_ge size (2 ^ j) Hpos) as [Hge Hdiv]. unfold cxlalloc_memalign, padded. rewrite Hp.
  rewrite (proj2 (Z.leb_le size (2 ^ 63 - 2 ^ j))) by lia. eapply wp_bind, wp_lift; [reflexivity|].
  apply (wp_with_allocator t r numa id); [done|done|]. unfold op_malloc.
  pose proof (allocate_total cfg _ _ _ (fun _ _ => true) Hcfg Hlay Hb k _ A id (next_multiple_of size (2 ^ j)) Hs Hroom Hk ltac:(lia)) as H.
  apply wp_done in H as (a & o & E & (p & z & -> & Hz & HA & Hs') & _). apply wp_done. exists a, (Some p). split; [exact E|].
  assert (forall x, (4096 | x) -> (2 ^ j | x)) as H12 by (intros x Hx; transitivity 4096; [by apply (pow2_divide j 12)|done]).
  destruct (allocate_aligned cfg _ _ _ (fun _ _ => true) id (next_multiple_of size (2 ^ j)) _ a p j ltac:(lia) ltac:(lia) Hdiv (H12 _ Ds) (H12 _ Dl) E) as [Hpd Eh].
  split; [by rewrite Eh|]. exists p, z. split_and!; [done|done|lia|done|done|done|done].
Qed.

(** The first use of a fresh heap by a thread. *)
Lemma fresh_focus sreg lreg hreg id :
  cfg_ok cfg -> BATCH_BUMP_POP cfg <= 2 ^ 31 -> layout_ok sreg lreg hreg ->
  wp (modify (fun a => put_huge (put_halloc id halloc_default (al_huge a)) a) ;;; alloc_focus cfg sreg id true)
    (fun a _ => asim sreg lreg hreg 0 a ∅ /\ Huge.maps (al_huge a) = []) zero_alloc.
Proof.
  intros Hcfg Hb Hlay. pose proof (sb_pos sreg lreg hreg Hlay) as Hsb.
  destruct (zero_asim cfg sreg lreg hreg Hcfg Hlay Hb) as (ks & kl & n & L & As & Al & Hks & Hkl & [H1 H2 H3 H4 H5 H6]).
  unfold alloc_focus, focus_unrecovered. wp_go. apply wp_zoom_huge. cbn [al_huge put_huge].
  eapply wp_conseq; [apply (focus_spec cfg (sbase sreg) (fun _ _ => true) Hsb n L id _ H3)|].
  intros h _ (a & -> & Ha & Hmem & Hidx). unfold recover. wp_go. cbn [al_ctx put_huge zero_alloc logs]. rewrite lookup_empty. wp_go.
  split; [|done]. exists ks, kl, n, L, As, Al. split_and!; [done|done|]. split; try done.
  apply hinv_halloc; [done| |].
  - split; [done| |].
    + intros k [Hk _]%Hmem. pose proof (owned_by_bound _ _ _ _ (hi_slots _ _ _ _ H3) Hk).
      pose proof (tiled_bounds _ _ (sw_tiled _ _ (hi_slots _ _ _ _ H3))) as Hn. unfold COUNT_SLOT in Hn. lia.
    + destruct (Hidx 0) as [? ?]; [lia|by intros p d _; simpl; rewrite lookup_empty|lia].
  - intros k [Hk _]%Hmem. split; [done|]. intros p e _ [He _]. simpl in He. by rewrite lookup_empty in He.
Qed.

Lemma raw_layout name r v : raw_ok name r v ->
  layout_ok (seq_address (data_small r)) (seq_address (data_large r)) (rd_reservation (data_huge r)).
Proof.
  intros H. destruct (ro_contiguous _ _ _ H) as (C1 & C2 & C3). pose proof (ro_low _ _ _ H).
  assert (RESERVATION = 2 ^ 40) as ER by done. rewrite ER in *. split; lia.
Qed.

Context (shared_size owned_size : Z) (shared_offsets owned_offsets : list Z).
Context (Hsh : layout (fst shared_types) (snd shared_types) = Done (shared_size, shared_offsets)) (Hsh0 : 0 < shared_size <= 2 ^ 40).
Context (How : layout (fst owned_types) (snd owned_types) = Done (owned_size, owned_offsets)) (How0 : 0 < owned_size <= 2 ^ 40).

(** C31: [cxlalloc_init_process] makes a fresh process ready. For a heap of
    shared memory it returns with the heap set up under the given name less any
    leading ["/dev/shm/"] (so that processes that pass the path and the plain
    name share one heap), the initial size mapped, and the calling thread's
    allocator created for its id over an empty heap. *)
Theorem init_process_ready t heap_id heap_numa heap_size count thread c name :
  cfg_ok cfg -> BATCH_BUMP_POP cfg <= 2 ^ 31 ->
  cp_raw c = None -> cp_allocs c !! t = None -> pr_alloc (cp_proc c) = zero_alloc -> maps (pr_vm (cp_proc c)) = [] ->
  os_places os (calls (pr_vm (cp_proc c))) 64 ->
  Forall plain heap_id -> name = trim_start_matches dev_shm heap_id -> (length name <= 30)%nat ->
  heap_numa < 64 -> 0 <= heap_size <= 2 ^ 39 -> 0 <= thread < 512 ->
  wp (cxlalloc_init_process os fs env cfg populate shared_types owned_types t heap_id heap_numa (bytes "shm") heap_size count thread)
    (fun c' _ => exists r, cp_raw c' = Some (r, parse_numa heap_numa) /\ raw_ok name r (pr_vm (cp_proc c')) /\
       (heap_size <> 0 -> mapped (pr_vm (cp_proc c')) (seq_address (data_small r)) heap_size) /\
       cp_ids c' !! t = Some (thread + 1) /\ cp_allocs c' !! t = Some (thread + 1) /\ cp_default_segv c' = false /\
       (exists n, heap_id = concat (replicate n dev_shm) ++ name) /\
       asim (seq_address (data_small r)) (seq_address (data_large r)) (rd_reservation (data_huge r)) 0 (pr_alloc (cp_proc c')) ∅) c.
Proof.
  intros Hcfg Hb Hr Ha Ez Hm Hpl Hp En Hlen Hnu Hsz Hth. unfold cxlalloc_init_process.
  destruct (trim_start_matches_spec dev_shm heap_id ltac:(discriminate)) as (n & Eid & _). rewrite <- En in Eid.
  assert (Forall plain name) as Hpn by (rewrite Eid in Hp; apply Forall_app in Hp as [_ Hp]; exact Hp).
  assert (heap_name heap_id = Done name) as Ename.
  { unfold heap_name. rewrite from_utf8_ascii; [by rewrite En|]. eapply Forall_impl; [exact Hp|]. unfold plain. lia. }
  eapply wp_bind, wp_lift; [exact Ename|]. eapply wp_bind, wp_lift; [by vm_compute|]. apply wp_bind, wp_bind, wp_gets. rewrite Hr.
  apply wp_bind, wp_modify, wp_bind, wp_on_proc, wp_vm. unfold build_backend. wp_go. cbn [cp_proc put_segv put_proc pr_vm pr_alloc pr_stat].
  apply wp_on_proc, wp_vm. cbn [cp_proc put_proc pr_vm pr_alloc pr_stat].
  assert (numa_fine (debug_assertions cfg) (parse_numa heap_numa)) as Hnf.
  { unfold parse_numa. destruct (Z.ltb_spec 0 heap_numa); [|done]. unfold numa_fine, to_mode_mask, node_bit.
    rewrite (proj2 (Z.leb_le _ _)), (proj2 (Z.ltb_lt _ _)) by lia. by eexists. }
  eapply wp_conseq.
  { apply (raw_new_spec os Hos cfg (parse_numa heap_numa) Hnf populate shared_types owned_types shared_size owned_size shared_offsets owned_offsets
      Hsh Hsh0 How How0 _ Hpl name heap_size 0 false); [reflexivity|exact Hm|reflexivity|exact Hpn|exact Hlen|exact Hsz|split; discriminate]. }
  intros v res (r & -> & Hok & _ & _ & _ & Hms & _). apply wp_modify.
  assert (id_new thread = Done (thread + 1)) as Et.
  { unfold id_new, COUNT_THREAD. change (wrap 16 512) with 512. unfold wrap. rewrite (proj2 (Z.ltb_lt _ _)) by lia. rewrite Z.mod_small by lia. done. }
  apply wp_bind. unfold cxlalloc_init_thread. eapply wp_bind, wp_lift; [exact Et|]. apply wp_modify.
  unfold with_allocator, with_allocator_as, raw, thread_id. wp_go. cbn [cp_raw put_id put_raw put_proc put_segv cp_allocs cp_ids cp_proc]. rewrite Ha.
  eapply wp_unwrap; [reflexivity|]. apply wp_bind, wp_bind, wp_gets. cbn [cp_ids put_id put_raw put_proc put_segv]. rewrite lookup_insert_eq. cbn [default]. apply wp_bind.
  apply wp_on_proc, wp_run_alloc. cbn [cp_proc pr_alloc]. rewrite Ez.
  eapply wp_conseq; [apply (fresh_focus _ (seq_address (data_large r)) (rd_reservation (data_huge r)) (thread + 1) Hcfg Hb), (raw_layout name r v Hok)|].
  intros a _ [Hs Hmaps]. split; [exact Hmaps|]. wp_go. apply wp_on_proc, wp_run_alloc. wp_go. split; [done|].
  exists r. cbn [cp_raw cp_proc pr_vm pr_alloc cp_ids cp_allocs cp_default_segv put_proc put_alloc put_id put_raw put_segv]. rewrite !lookup_insert_eq.
  split_and!; try done. by exists n.
Qed.
End calls.

(** ** Concrete processes *)
Module Runs.
#[local] Existing Instance IntervalList.intervals.
#[local] Existing Instance IntervalList.intervals_laws.
Abbreviation os := RawHeap.Runs.os.
Abbreviation shared_types := RawHeap.Runs.shared_types.
Abbreviation owned_types := RawHeap.Runs.owned_types.
Definition cfg : Cfg := default_cfg false.
Definition fs : Fs := mkFs (fun _ => false) (fun _ => None).
Definition env (_ : list Z) : option (list Z) := None.

(** A process that has not called the library, and its kernel thread 7. *)
Definition fresh : CProc := mkCProc None (mkProc RawHeap.Runs.vm zero_alloc (Process.mkRecorder 0 0 0)) ∅ ∅ true.
Definition id_path : list Z := bytes "/dev/shm/heap".

Lemma init_process_ready_witness :
  wp (cxlalloc_init_process os fs env cfg None shared_types owned_types 7 id_path 0 (bytes "shm") (2 ^ 20) 4 3)
    (fun c' _ => cp_allocs c' !! 7 = Some 4 /\ exists r, raw_ok (bytes "heap") r (pr_vm (cp_proc c')) /\
       mapped (pr_vm (cp_proc c')) (seq_address (data_small r)) (2 ^ 20)) fresh.
Proof.
  eapply wp_conseq.
  - apply (init_process_ready os RawHeap.Runs.os_is_sound fs env cfg None shared_types owned_types 541824 5392768
      [0; 533568; 533584; 533600] [0; 32832; 1091712; 1182016] eq_refl ltac:(split; [reflexivity|discriminate]) eq_refl
      ltac:(split; [reflexivity|discriminate]) 7 id_path 0 (2 ^ 20) 4 3 fresh (bytes "heap") default_cfg_ok).
    + vm_compute. discriminate.
    + reflexivity.
    + reflexivity.
    + reflexivity.
    + reflexivity.
    + exact RawHeap.Runs.os_has_room.
    + vm_compute. repeat constructor; discriminate.
    + vm_compute. reflexivity.
    + vm_compute. repeat constructor.
    + lia.
    + lia.
    + lia.
  - intros c' _ (r & _ & Hok & Hm & _ & Ha & _). split; [exact Ha|]. exists r. split; [exact Hok|]. apply Hm. discriminate.
Defined.

(** The process above once it is set up. *)
Definition ready : CProc :=
  mkCProc (Some (RawHeap.Runs.r0, None)) (mkProc RawHeap.Runs.v0 zero_alloc (Process.mkRecorder 0 0 0)) {[7 := 4]} {[7 := 4]} false.

Lemma memalign_aligned_witness :
  wp (cxlalloc_memalign os cfg None 7 100 64) (fun _ o => exists p, o = Some p /\ (64 | p)) ready.
Proof.
  eapply wp_conseq.
  - pose proof (raw_layout _ _ _ RawHeap.Runs.r0_ok) as Hlay.
    apply (memalign_aligned os cfg None 7 100 64 ready RawHeap.Runs.r0 None 4 0 ∅ default_cfg_ok Hlay).
    + vm_compute. discriminate.
    + reflexivity.
    + reflexivity.
    + exact (zero_asim cfg _ _ _ default_cfg_ok Hlay ltac:(vm_compute; discriminate)).
    + split; vm_compute; discriminate.
    + lia.
    + exists (seq_address (data_small RawHeap.Runs.r0) / 4096). vm_compute. reflexivity.
    + exists (seq_address (data_large RawHeap.Runs.r0) / 4096). vm_compute. reflexivity.
    + reflexivity.
    + discriminate.
    + lia.
    + vm_compute. discriminate.
  - intros c' o (p & z & Eo & Hd & _). exists p. exact (conj Eo Hd).
Defined.

(** A kernel that places reservations at page boundaries that are not multiples
    of 8 KiB: the bound of a page in [memalign_aligned] is sharp. *)
Definition os_page : Os :=
  mkOs (fun n a size => match a with Some a => inr a | None => inr (2 ^ 42 * (Z.of_nat n + 1) + 4096) end)
    (fun _ => None) (fun _ _ => None) (fun _ => None) (fun _ => None) (fun _ => None) (fun _ => None) (fun _ _ _ => inl 22).

Lemma memalign_above_page_misaligned :
  match (cxlalloc_init_process os_page fs env cfg None shared_types owned_types 7 id_path 0 (bytes "shm") (2 ^ 20) 4 3 ;;;
    cxlalloc_memalign os_page cfg None 7 8192 8192) fresh with
  | Done (_, Some p) => p mod 8192 = 4096
  | _ => False
  end.
Proof. vm_compute. reflexivity. Qed.

(** Without a call to [cxlalloc_init_process] every operation panics; freeing
    null does nothing. *)
Lemma uninitialised_panics size : cxlalloc_malloc os cfg None 7 size fresh = Panic.
Proof. reflexivity. Qed.
End Runs.
