(* ===== verification/Cache.v ===== *)
(** * Cache: cache-line flushes and fences (cxlalloc/src/cache.rs)

    Every function is the list of instructions it executes for a build
    configuration. [exec] runs them on a cache over durable memory: a store
    stays in the cache, [CLFLUSH] writes its line back and drops it,
    [CLFLUSHOPT] and [CLWB] are only ordered by the next [SFENCE]. *)

From Stdlib Require Import ZArith Lia Bool.
From stdpp Require Import base numbers option sets list.
From S2P Require Import Prelude Size Slab RawHeap.
Local Open Scope Z_scope.

(** The cargo features the functions depend on. *)
Record Features := mkFeatures {
  recover_flush : bool;
  arch_gpf : bool;
  arch_clwb : bool;
  arch_clflushopt : bool;
  cxl_limited : bool;
  cxl_mcas : bool;
}.

Inductive Invalidate := No | Yes.

Inductive Instr :=
  | CLWB (address : Z)
  | CLFLUSHOPT (address : Z)
  | CLFLUSH (address : Z)
  | SFENCE.

Section cache.
Context (f : Features).

Definition clflush (address : Z) (invalidate : Invalidate) : Instr :=
  match invalidate with
  | No => if arch_clwb f then CLWB address else if arch_clflushopt f then CLFLUSHOPT address else CLFLUSH address
  | Yes => if arch_clflushopt f then CLFLUSHOPT address else CLFLUSH address
  end.

(** [size] is [size_of::<T>()]; addresses wrap at 64 bits. *)
Definition clflush_all (address size : Z) (invalidate : Invalidate) : list Instr :=
  (fun line => clflush (wrap 64 (address + line * SIZE_CACHE_LINE)) invalidate)
    <$> seqZ 0 (next_multiple_of size SIZE_CACHE_LINE / SIZE_CACHE_LINE).

Definition flush_cxl (address size : Z) : list Instr :=
  if recover_flush f || negb (cxl_limited f || cxl_mcas f) then [] else clflush_all address size Yes.

Definition fence_cxl : list Instr :=
  if recover_flush f || negb (cxl_limited f || cxl_mcas f) || negb (arch_clwb f || arch_clflushopt f) then [] else [SFENCE].

Definition flush (address size : Z) (invalidate : Invalidate) : list Instr :=
  if negb (recover_flush f) || arch_gpf f then [] else clflush_all address size invalidate.

Definition fence : list Instr :=
  if negb (recover_flush f) then []
  else if arch_gpf f || arch_clwb f || arch_clflushopt f then [SFENCE] else [].
End cache.

(** ** The cache *)

Definition line (x : Z) : Z := x / SIZE_CACHE_LINE.

(** [present] says which lines are in the cache; [waiting] are the weakly
    ordered write-backs with whether they drop the line. *)
Record Pm := mkPm {
  present : Z -> bool;
  cached : Z -> Z;
  durable : Z -> Z;
  waiting : list (Z * bool);
}.

(** What a load of the host returns. *)
Definition read (s : Pm) (x : Z) : Z := if present s (line x) then cached s x else durable s x.

(** One line written back, and dropped. *)
Definition write_back (l : Z) (drop : bool) (s : Pm) : Pm :=
  mkPm (fun k => present s k && negb (drop && (k =? l)))
    (cached s)
    (fun x => if (line x =? l) && present s l then cached s x else durable s x)
    (waiting s).

Definition exec (i : Instr) (s : Pm) : Pm :=
  match i with
  | CLFLUSH a => write_back (line a) true s
  | CLFLUSHOPT a => mkPm (present s) (cached s) (durable s) ((line a, true) :: waiting s)
  | CLWB a => mkPm (present s) (cached s) (durable s) ((line a, false) :: waiting s)
  | SFENCE =>
      let s' := foldr (fun w s => write_back (fst w) (snd w) s) s (waiting s) in
      mkPm (present s') (cached s') (durable s') []
  end.

Definition run (l : list Instr) (s : Pm) : Pm := foldl (fun s i => exec i s) s l.

(** ** Lines of an object *)

Lemma line_bounds x : 64 * line x <= x < 64 * line x + 64.
Proof. unfold line, SIZE_CACHE_LINE. pose proof (Z.div_mod x 64 ltac:(lia)). pose proof (Z.mod_pos_bound x 64 ltac:(lia)). lia. Qed.

Lemma line_eq x k : 64 * k <= x < 64 * k + 64 -> line x = k.
Proof. pose proof (line_bounds x). lia. Qed.

(** The line an instruction acts on. *)
Definition target (i : Instr) : option Z :=
  match i with CLWB a | CLFLUSHOPT a | CLFLUSH a => Some (line a) | SFENCE => None end.

Lemma target_clflush f a inv : target (clflush f a inv) = Some (line a).
Proof. unfold clflush. by destruct inv, (arch_clwb f), (arch_clflushopt f). Qed.

(** An object that lies in as many lines as its size needs: one that starts at a
    line boundary, or an aligned word. *)
Definition line_object (address size : Z) : Prop :=
  0 <= address /\ address mod 64 + size <= next_multiple_of size 64 /\ 0 < size /\ address + size <= 2 ^ 63.

Lemma line_shift a j : line (a + j * SIZE_CACHE_LINE) = line a + j.
Proof. unfold line, SIZE_CACHE_LINE. rewrite Z.div_add; lia. Qed.

(** [clflush_all] acts on exactly the lines of such an object. *)
Lemma flushed_lines f address size inv l : line_object address size ->
  l ∈ omap target (clflush_all f address size inv) <-> exists x, address <= x < address + size /\ line x = l.
Proof.
  intros (H0 & Hfit & Hs & Hb). destruct (next_multiple_ge size 64 ltac:(lia)) as [Hge [n Hn]].
  pose proof (next_multiple_of_spec size 64 ltac:(lia) ltac:(lia)) as [[_ Hlt] _].
  assert (next_multiple_of size SIZE_CACHE_LINE / SIZE_CACHE_LINE = n) as En.
  { unfold SIZE_CACHE_LINE. rewrite Hn. apply Z.div_mul. lia. }
  assert (address mod 64 = address - 64 * line address) as Em by (rewrite Z.mod_eq by lia; done).
  assert (forall j, 0 <= j < n -> line (wrap 64 (address + j * SIZE_CACHE_LINE)) = line address + j) as Hw.
  { intros j Hj. rewrite <- line_shift. f_equal. unfold wrap, SIZE_CACHE_LINE. apply Z.mod_small. lia. }
  pose proof (line_bounds address). unfold clflush_all. rewrite En, list_elem_of_omap. split.
  - intros (i & (j & -> & Hj%elem_of_seqZ)%list_elem_of_fmap & Ht). rewrite target_clflush, Hw in Ht by lia. injection Ht as <-.
    exists (Z.max address (64 * (line address + j))). split; [lia|]. apply line_eq. lia.
  - intros (x & Hx & <-). pose proof (line_bounds x). eexists. split.
    + apply list_elem_of_fmap. exists (line x - line address). split; [done|]. apply elem_of_seqZ. lia.
    + rewrite target_clflush, Hw by lia. f_equal. lia.
Qed.

(** ** Effect of a run *)

(** A state after the lines [L] were written back; [D] of them were dropped. *)
Record flushed (L D : list Z) (s s' : Pm) : Prop := {
  fl_cached : cached s' = cached s;
  fl_durable x : durable s' x = if decide (line x ∈ L) then read s x else durable s x;
  fl_present k : present s' k = present s k && negb (bool_decide (k ∈ D));
}.

Lemma flushed_step L D s s' l d : flushed L D s s' -> (forall k, k ∈ D -> k ∈ L) ->
  flushed (l :: L) (if (d : bool) then l :: D else D) s (write_back l d s').
Proof.
  intros [H1 H2 H3] Hsub. split; [exact H1| |]; simpl.
  - intros x. rewrite H1, H2, H3. unfold read. destruct (Z.eqb_spec (line x) l) as [->|Hne]; simpl.
    + rewrite (decide_True (P := l ∈ l :: L)) by set_solver. case_bool_decide as Hd; simpl.
      * rewrite andb_false_r. rewrite decide_True by auto. done.
      * rewrite andb_true_r. by destruct (present s l), (decide (l ∈ L)).
    + destruct (decide (line x ∈ L)); [rewrite decide_True by set_solver|rewrite decide_False by set_solver]; done.
  - intros k. rewrite H3. destruct d; simpl; [|by rewrite andb_true_r].
    destruct (Z.eqb_spec k l) as [->|Hne]; rewrite ?andb_false_r, ?andb_true_r.
    + rewrite bool_decide_eq_true_2 by set_solver. by rewrite andb_false_r.
    + f_equal. f_equal. apply bool_decide_ext. set_solver.
Qed.

Lemma flushed_refl s : flushed [] [] s s.
Proof. split; [done|done|]. intros k. by rewrite andb_true_r. Qed.

(** Serialising flushes take effect one by one. *)
Lemma run_clflush A s0 L : forall s, flushed L L s0 s -> waiting s = [] ->
  flushed (rev (line <$> A) ++ L) (rev (line <$> A) ++ L) s0 (run (CLFLUSH <$> A) s) /\ waiting (run (CLFLUSH <$> A) s) = [].
Proof.
  revert L. induction A as [|a A IH]; intros L s H Hw; [done|]. cbn [fmap list_fmap rev]. rewrite <- app_assoc. cbn [app].
  apply (IH _ (exec (CLFLUSH a) s)); [|exact Hw]. apply (flushed_step L L s0 s (line a) true); [exact H|done].
Qed.

(** Weakly ordered ones wait for the fence. *)
Lemma run_weak A (mk : Z -> Instr) d : (forall a s, exec (mk a) s = mkPm (present s) (cached s) (durable s) ((line a, d) :: waiting s)) ->
  forall s, run (mk <$> A) s = mkPm (present s) (cached s) (durable s) (rev ((fun a => (line a, d)) <$> A) ++ waiting s).
Proof.
  intros Hmk. induction A as [|a A IH]; intros s; [by destruct s|]. change (run (mk <$> a :: A) s) with (run (mk <$> A) (exec (mk a) s)).
  rewrite IH, Hmk. cbn [present cached durable waiting fmap list_fmap rev]. by rewrite <- app_assoc.
Qed.

Lemma fence_flushes s L d : waiting s = (fun l => (l, d)) <$> L ->
  flushed L (if (d : bool) then L else []) s (exec SFENCE s) /\ waiting (exec SFENCE s) = [].
Proof.
  intros E. split; [|done]. simpl. rewrite E. clear E.
  assert (flushed L (if d then L else []) s (foldr (fun w s => write_back (fst w) (snd w) s) s ((fun l => (l, d)) <$> L))) as [H1 H2 H3].
  { induction L as [|l L IH]; [destruct d; apply flushed_refl|]. cbn [fmap list_fmap foldr fst snd].
    pose proof (flushed_step L _ s _ l d IH) as Hst. destruct d; apply Hst; set_solver. }
  by split.
Qed.

Lemma run_app l k s : run (l ++ k) s = run k (run l s).
Proof. apply foldl_app. Qed.

Lemma weak_fenced A mk d s :
  (forall a s, exec (mk a) s = mkPm (present s) (cached s) (durable s) ((line a, d) :: waiting s)) -> waiting s = [] ->
  flushed (rev (line <$> A)) (if (d : bool) then rev (line <$> A) else []) s (run ((mk <$> A) ++ [SFENCE]) s).
Proof.
  intros Hmk Hw. rewrite run_app, (run_weak A mk d Hmk), Hw, app_nil_r. 
  edestruct (fence_flushes (mkPm (present s) (cached s) (durable s) (rev ((fun a => (line a, d)) <$> A))) (rev (line <$> A)) d) as [[H1 H2 H3] _]; [|by split].
  simpl. clear. induction A as [|a A IH]; [done|]. cbn [fmap list_fmap rev]. rewrite fmap_app. f_equal. exact IH.
Qed.

Lemma strong_fenced A fen s : fen = [SFENCE] \/ fen = [] -> waiting s = [] ->
  flushed (rev (line <$> A)) (rev (line <$> A)) s (run ((CLFLUSH <$> A) ++ fen) s).
Proof.
  intros Hf Hw. destruct (run_clflush A s [] s (flushed_refl s) Hw) as [H Hw']. rewrite !app_nil_r in H.
  destruct Hf as [-> | ->]; [|by rewrite app_nil_r]. rewrite run_app. simpl. rewrite Hw'. destruct H as [H1 H2 H3]. by split.
Qed.

(** [clflush_all] with the fence it needs. *)
Lemma run_clflush_all f address size inv fen s :
  fen = [SFENCE] \/ fen = [] /\ arch_clwb f = false /\ arch_clflushopt f = false -> waiting s = [] ->
  exists L D, flushed L D s (run (clflush_all f address size inv ++ fen) s) /\
    (forall l, l ∈ L <-> l ∈ omap target (clflush_all f address size inv)) /\
    (inv = Yes -> D = L) /\ (forall k, k ∈ D -> k ∈ L).
Proof.
  intros Hfen Hw. unfold clflush_all. set (S := seqZ 0 _).
  set (A := (fun i => wrap 64 (address + i * SIZE_CACHE_LINE)) <$> S).
  assert ((fun i => clflush f (wrap 64 (address + i * SIZE_CACHE_LINE)) inv) <$> S = (fun a => clflush f a inv) <$> A) as ->
    by (unfold A; by rewrite <- list_fmap_compose).
  assert (forall l, l ∈ rev (line <$> A) <-> l ∈ omap target ((fun a => clflush f a inv) <$> A)) as Ht.
  { intros l. rewrite list_elem_of_In, <- in_rev, <- list_elem_of_In, list_elem_of_omap, list_elem_of_fmap. split.
    - intros (a & -> & Ha). eexists. split; [apply list_elem_of_fmap; by exists a|]. apply target_clflush.
    - intros (i & (a & -> & Ha)%list_elem_of_fmap & E). rewrite target_clflush in E. injection E as <-. eauto. }
  exists (rev (line <$> A)). unfold clflush in *. destruct inv, (arch_clwb f), (arch_clflushopt f).
  all: destruct Hfen as [-> |(-> & ? & ?)]; try done.
  all: first [ eexists; split; [apply (weak_fenced A CLWB false s); done|set_solver]
             | eexists; split; [apply (weak_fenced A CLFLUSHOPT true s); done|set_solver]
             | eexists; split; [apply (strong_fenced A _ s); auto|set_solver] ].
Qed.

(** ** Properties *)

(** The object is durable, other lines are untouched, no load changes. *)
Definition written_back (address size : Z) (dropped : Prop) (s s' : Pm) : Prop :=
  (forall x, address <= x < address + size -> durable s' x = read s x) /\
  (forall x, (forall y, address <= y < address + size -> line y <> line x) -> durable s' x = durable s x) /\
  (forall x, read s' x = read s x) /\
  (dropped -> forall x, address <= x < address + size -> present s' (line x) = false).

Lemma flush_all_written f address size inv fen s : line_object address size -> waiting s = [] ->
  fen = [SFENCE] \/ fen = [] /\ arch_clwb f = false /\ arch_clflushopt f = false ->
  written_back address size (inv = Yes) s (run (clflush_all f address size inv ++ fen) s).
Proof.
  intros Hobj Hw Hfen.
  destruct (run_clflush_all f address size inv fen s Hfen Hw) as (L & D & [H1 H2 H3] & HL & HD & Hsub).
  assert (forall x, address <= x < address + size -> line x ∈ L) as Hin.
  { intros x Hx. apply HL, flushed_lines; [done|]. by exists x. }
  split_and!.
  - intros x Hx. rewrite H2. by rewrite decide_True by auto.
  - intros x Hx. rewrite H2. rewrite decide_False; [done|]. intros (y & Hy & E)%HL%flushed_lines; [by apply (Hx y)|done].
  - intros x. unfold read at 1. rewrite H1, H2, H3. unfold read. case_bool_decide as Hx; simpl.
    + rewrite andb_false_r, decide_True by auto. done.
    + rewrite andb_true_r. by destruct (present s (line x)), (decide (line x ∈ L)).
  - intros Ey x Hx. rewrite H3, (HD Ey), bool_decide_eq_true_2 by auto. apply andb_false_r.
Qed.

(** C26: a flush and a fence make an object durable. In every build with
    recovery flushes (and without the platform's own flush on power failure),
    [flush] followed by [fence] on an object that lies in as few cache
    lines as its size allows leaves every byte of it durable, whatever flush instruction the
    build selects; other lines and all loads are unaffected. In builds for
    incoherent CXL memory the same holds of [flush_cxl] and [fence_cxl], which
    in addition drop the lines, so that the next load sees what other hosts
    wrote. The two kinds of flush are never both active. *)
Theorem flush_makes_durable f address size inv s : line_object address size -> waiting s = [] ->
  (recover_flush f = true -> arch_gpf f = false ->
    written_back address size (inv = Yes) s (run (flush f address size inv ++ fence f) s)) /\
  (recover_flush f = false -> cxl_limited f = true \/ cxl_mcas f = true ->
    written_back address size True s (run (flush_cxl f address size ++ fence_cxl f) s)) /\
  (flush f address size inv = [] \/ flush_cxl f address size = []).
Proof.
  intros Hobj Hw. unfold flush, flush_cxl, fence, fence_cxl. split_and!.
  - intros -> ->. simpl. apply flush_all_written; [done|done|]. destruct (arch_clwb f), (arch_clflushopt f); simpl; auto.
  - intros -> Hc. assert (cxl_limited f || cxl_mcas f = true) as -> by (apply orb_true_iff; tauto). simpl.
    assert (written_back address size (Yes = Yes) s (run (clflush_all f address size Yes ++
      (if negb (arch_clwb f || arch_clflushopt f) then [] else [SFENCE])) s)) as (A & B & C & E).
    { apply flush_all_written; [done|done|]. destruct (arch_clwb f), (arch_clflushopt f); simpl; auto. }
    split_and!; try done. intros _. by apply E.
  - destruct (recover_flush f); simpl; auto.
Qed.

(** So is an aligned word, such as the head of a stack or the row of a bitset. *)
Lemma word_object a : 0 <= a -> a + 8 <= 2 ^ 63 -> (8 | a) -> line_object a 8.
Proof.
  intros H0 Hb [k ->]. split_and!; [done| |lia|done]. change (next_multiple_of 8 64) with 64.
  change 64 with (8 * 8) at 1. rewrite Zmult_mod_distr_r. pose proof (Z.mod_pos_bound k 8 ltac:(lia)). lia.
Qed.

(** The descriptors of slabs are line objects, and no two share a line: flushing
    one neither misses part of it nor drops a line of another thread's. *)
Lemma descriptor_lines base i j : 0 <= base -> base + 2 ^ 40 <= 2 ^ 63 -> (4096 | base) ->
  0 <= i -> 0 <= j -> i <> j -> forall z, z = SMALL_LOCAL \/ z = LARGE_LOCAL -> i * z + z <= 2 ^ 40 ->
  line_object (base + i * z) z /\
  forall x y, base + i * z <= x < base + i * z + z -> base + j * z <= y < base + j * z + z -> line x <> line y.
Proof.
  intros H0 Hb [k ->] Hi Hj Hne z Hz Hle.
  assert (exists m, z = 64 * m /\ 0 < m) as (m & -> & Hm) by (destruct Hz as [-> | ->]; [exists 8|exists 2]; done).
  split.
  - split_and!; [nia| |lia|lia]. replace (k * 4096 + i * (64 * m)) with ((k * 64 + i * m) * 64) by lia.
    rewrite Z.mod_mul by lia. apply next_multiple_ge. lia.
  - intros x y Hx Hy E. pose proof (line_bounds x). pose proof (line_bounds y). rewrite E in *.
    assert (forall a b, a < b -> (a + 1) * m <= b * m) as Hmul by (intros; apply Z.mul_le_mono_nonneg_r; lia).
    assert (i < j \/ j < i) as [Hlt|Hlt] by lia; apply Hmul in Hlt; lia.
Qed.

Module Runs.
Definition f : Features := mkFeatures true false true false false false.
Definition dirty : Pm := mkPm (fun _ => true) (fun x => x + 1) (fun _ => 0) [].

Lemma flush_makes_durable_witness :
  run (flush f 4096 512 No ++ fence f) dirty <> dirty /\ durable (run (flush f 4096 512 No ++ fence f) dirty) 4600 = 4601.
Proof.
  destruct (flush_makes_durable f 4096 512 No dirty) as ((Hd & _) & _); [|done|done|done|].
  - split_and!; vm_compute; congruence.
  - assert (durable (run (flush f 4096 512 No ++ fence f) dirty) 4600 = 4601) as E by (rewrite Hd by lia; reflexivity).
    split; [|exact E]. intros Eq. rewrite Eq in E. discriminate E.
Defined.

(** An object that straddles a line boundary is not covered: the number of lines
    is computed from the size alone. *)
Lemma straddling_object_not_durable :
  durable (run (flush f 4128 64 No ++ fence f) dirty) 4160 = 0 /\ read dirty 4160 = 4161.
Proof. split; reflexivity. Qed.
End Runs.
