(* ===== verification/Mcas.v ===== *)
(** * Mcas: compare-and-swap in memory (cxlalloc/src/mcas.rs, the regions of
    cxlalloc/src/raw/region.rs that live in its buffer, and the device of
    mCAS/rtl)

    On memory that is not coherent between hosts a compare-and-swap is sent to
    a device: the host writes a command into a slot of its own and reads the
    answer from another. The device is the controller of
    mCAS/rtl/hardware_test_design/common/afu (mcas_ctrl.sv, afu_top.sv), here at
    the level of the transactions it serves: a line written, a line requested,
    the answer of the memory, the answer to the host. A swap and the check that
    allows it are one transaction: the controller accepts no request while the
    write of a swap is pending. (A request accepted in the one clock cycle
    before that, or a read that overtakes the write inside the memory
    controller, is below this level.) Words of the device memory are numbered
    by physical address. *)

From Stdlib Require Import ZArith Lia Bool.
From stdpp Require Import base numbers option gmap sets functions list.
From S2P Require Import Prelude Data Shm Region RawHeap.
Local Open Scope Z_scope.
Local Open Scope prog_scope.
Local Open Scope res_scope.

(** ** Buffers and registers *)

Record Buffer := mkBuffer { phys : Z; virt : Z }.
Definition SIZE_READ : Z := Z.shiftl 1 16.
Definition SIZE_WRITE : Z := Z.shiftl 1 16.
Definition SIZE_TARGET : Z := Z.shiftl 1 26.
Definition RD_BUFF : Z := 13.
Definition WR_BUFF : Z := 14.

(** [Mcas]: the three buffers. *)
Record Mcas := mkMcas { read : Buffer; write : Buffer; target : Buffer }.

(** An entry of the controller's table ([mCAS_strcut_t]): status 1 is a command
    written, 2 a command whose word is being read. *)
Record Entry := mkEntry { compare_value : Z; swap_value : Z; target_pa : Z; status : Z }.

(** The machine: control registers, device memory, the controller's table, the
    process's [MCAS] cell and the [THREAD_ID] of the running thread. *)
Record Hw := mkHw {
  csr : gmap Z Z;
  memory : Z -> Z;
  entries : Z -> Entry;
  MCAS : option Mcas;
  THREAD_ID : Z;
}.

Definition set_memory (f : Z -> Z) (s : Hw) : Hw := mkHw (csr s) f (entries s) (MCAS s) (THREAD_ID s).
Definition set_entries (e : Z -> Entry) (s : Hw) : Hw := mkHw (csr s) (memory s) e (MCAS s) (THREAD_ID s).
Definition set_thread (i : Z) (s : Hw) : Hw := mkHw (csr s) (memory s) (entries s) (MCAS s) i.

(** ** The controller *)

(** The address of the line of an address, and a line [l] of up to eight words
    (zero beyond) written at it. *)
Definition line (a : Z) : Z := 64 * (a / 64).
Definition put_line (a : Z) (l : list Z) (f : Z -> Z) : Z -> Z :=
  fun q => if (line a <=? q) && (q <? line a + 64) then nth (Z.to_nat ((q - line a) / 8)) l 0 else f q.

(** [match_ar_addr] and [match_aw_addr]: bits 12 to 51 of an address agree with
    a register that is set. *)
Definition bits_51_12 (a : Z) : Z := Z.land (Z.shiftr a 12) (Z.ones 40).
Definition page_match (s : Hw) (register a : Z) : bool :=
  match csr s !! register with
  | None => false
  | Some r => negb (r =? 0) && (bits_51_12 a =? bits_51_12 r)
  end.

(** The table has 64 entries: a write past them is lost. *)
Definition MAX_CORE_CNT : Z := 64.
Definition put_entry (i : Z) (e : Entry) (f : Z -> Entry) : Z -> Entry :=
  fun j => if (j =? i) && (j <? MAX_CORE_CNT) then e else f j.
Definition with_status (n : Z) (e : Entry) : Entry := mkEntry (compare_value e) (swap_value e) (target_pa e) n.

(** A line is written: it goes to memory, and if it lies in the page of the
    command buffer its words are a command ([set_wr_matching]). *)
Definition write_line (a w0 w1 w2 w3 : Z) (s : Hw) : Hw :=
  let s' := set_memory (put_line a [w0; w1; w2; w3] (memory s)) s in
  if page_match s WR_BUFF a then set_entries (put_entry (w3 mod 256) (mkEntry w0 w1 w2 1) (entries s)) s' else s'.

(** A line is requested ([set_rd_matching]): in the page of the answer buffer,
    and when the entry of the slot has a command, the request goes to the
    command's word instead. Returns the entry, if so, and the address to read. *)
Definition core_id (a : Z) : Z := Z.land (Z.shiftr a 6) (Z.ones 6).
Definition read_request (a : Z) (s : Hw) : Hw * (option Z * Z) :=
  let e := entries s (core_id a) in
  if page_match s RD_BUFF a && (status e =? 1) then
    (set_entries (put_entry (core_id a) (with_status 2 e) (entries s)) s, (Some (core_id a), Z.land (target_pa e) (Z.ones 52)))
  else (s, (None, a)).

(** The memory answers with the first two words of the line. *)
Definition read_memory (a : Z) (s : Hw) : Z * Z := (memory s (line a), memory s (line a + 8)).

(** The answer to the host ([set_rep_routing], [insert_wr]): the entry is
    released; if its command is still standing and the word is the expected one,
    the line is overwritten with the new word and every other command for the
    same address is cancelled. *)
Definition read_respond (tag : option Z) (data : Z * Z) (s : Hw) : Hw * (Z * Z) :=
  match tag with
  | None => (s, data)
  | Some i =>
      let e := entries s i in
      let s' := set_entries (put_entry i (with_status 0 e) (entries s)) s in
      if (status e =? 2) && (fst data =? compare_value e) then
        (set_memory (put_line (Z.land (target_pa e) (Z.ones 52)) [swap_value e] (memory s))
           (set_entries (fun j => let x := entries s' j in if target_pa x =? target_pa e then with_status 0 x else x) s'),
         (fst data, 1))
      else (s', (fst data, 0))
  end.

(** ** The host *)

Section mcas.
Context (checks : bool).

Definition csr_set (index value : Z) : M Hw unit :=
  modify (fun s => mkHw (<[index := value]> (csr s)) (memory s) (entries s) (MCAS s) (THREAD_ID s)).

(** [Mcas::new], for the buffer [Buffer::target] found. *)
Definition mcas_new (t : Buffer) : M Hw Mcas :=
  p <- lift (obind (arith checks 64 (phys t + SIZE_TARGET)) (fun p => arith checks 64 (p - SIZE_READ))) ;;
  let rd := mkBuffer p (virt t + SIZE_TARGET - SIZE_READ) in
  csr_set RD_BUFF (phys rd) ;;;
  p <- lift (arith checks 64 (phys rd - SIZE_WRITE)) ;;
  let wr := mkBuffer p (virt rd - SIZE_WRITE) in
  csr_set WR_BUFF (phys wr) ;;;
  ret (mkMcas rd wr t).

(** [init_process]: [device] is the answer of opening the registers and the
    target buffer. The buffer up to the command slots is cleared. *)
Definition init_process (device : option Buffer) : M Hw Mcas :=
  c <- gets MCAS ;;
  match c with
  | Some m => ret m
  | None =>
      t <- unwrap device ;;
      m <- mcas_new t ;;
      modify (fun s => mkHw (csr s)
        (fun q => if (phys t <=? q) && (q <? phys t + (SIZE_TARGET - SIZE_READ - SIZE_WRITE)) then 0 else memory s q)
        (entries s) (Some m) (THREAD_ID s)) ;;;
      ret m
  end.

(** [init_thread]. *)
Definition init_thread (id : Z) : M Hw unit :=
  modify (set_thread (id_to_u16 id)).

(** [Buffer::virt_to_phys]. *)
Definition virt_to_phys (b : Buffer) (address : Z) : outcome Z :=
  match checked_sub address (virt b) with
  | Some o => arith checks 64 (o + phys b)
  | None => Panic
  end.

(** The slot of a thread, two cache lines from the next one. *)
Definition slot (id : Z) : Z := id * 2 * 64.

(** The four transactions of [mcas] on the slots of thread [id]: [movdir64b] and
    the two halves of the load, with the memory's answer between. *)
Definition send (m : Mcas) (id old new p : Z) : Hw -> Hw := write_line (phys (write m) + slot id) old new p (id * 2).
Definition ask (m : Mcas) (id : Z) : Hw -> Hw * (option Z * Z) := read_request (phys (read m) + slot id).
Definition answer (r : Z * Z) : Z + Z := if snd r =? 1 then inr (fst r) else inl (fst r).

(** [mcas]: [inr] when the device reports success. *)
Definition mcas (address old new : Z) : M Hw (Z + Z) :=
  c <- gets MCAS ;;
  m <- unwrap c ;;
  p <- lift (virt_to_phys (target m) address) ;;
  id <- gets THREAD_ID ;;
  modify (send m id old new p) ;;;
  q <- (fun s => Done (ask m id s)) ;;
  data <- gets (read_memory (snd q)) ;;
  r <- (fun s => Done (read_respond (fst q) data s)) ;;
  ret (answer r).

(** [Atomic::load]: an ordinary load of the word. *)
Definition load (address : Z) : M Hw Z :=
  c <- gets MCAS ;;
  m <- unwrap c ;;
  p <- lift (virt_to_phys (target m) address) ;;
  gets (fun s => memory s p).

(** [Atomic::compare_exchange]: a conflicting value of 0 is read again. *)
Definition compare_exchange (address old new : Z) : M Hw (Z + Z) :=
  r <- mcas address old new ;;
  match r with
  | inr v => ok v
  | inl v => if v =? 0 then (w <- load address ;; err w) else err v
  end.

(** [Atomic::store]. *)
Fixpoint store_loop (fuel : nat) (address old value : Z) : M Hw unit :=
  match fuel with
  | O => diverge
  | S fuel =>
      r <- compare_exchange address old value ;;
      match r with inr _ => ret tt | inl next => store_loop fuel address next value end
  end.

Definition store (fuel : nat) (address value : Z) : M Hw unit :=
  old <- load address ;;
  store_loop fuel address old value.

(** [Fixed::new_mcas] and [Sequential::new_mcas]; [shared] is the size of the
    shared metadata, whose region comes first in the buffer. *)
Definition fixed_new_mcas (device : option Buffer) (id : Id.t) (size : Z) : M Hw Fixed :=
  m <- init_process device ;;
  ret (mkFixed id true (virt (target m)) size).

Definition seq_new_mcas (device : option Buffer) (shared : Z) (id : Id.t) (size : Z) : M Hw Sequential :=
  let size := next_multiple_of size PAGE in
  let offset := next_multiple_of shared PAGE in
  assert_ (offset + size <? SIZE_TARGET) ;;;
  m <- init_process device ;;
  ret (Region.Mcas id (virt (target m) + offset) size).
End mcas.

(** ** Layout *)

Section layout.
Context (checks : bool).

(** The buffers that [Mcas::new] makes of a target buffer. *)
Definition mcas_of (t : Buffer) : Mcas :=
  let rd := mkBuffer (phys t + SIZE_TARGET - SIZE_READ) (virt t + SIZE_TARGET - SIZE_READ) in
  mkMcas rd (mkBuffer (phys rd - SIZE_WRITE) (virt rd - SIZE_WRITE)) t.

Definition in_target (t : Buffer) (a : Z) : Prop := virt t <= a /\ a + 8 <= virt t + SIZE_TARGET.
Definition place (t : Buffer) (a : Z) : Z := a - virt t + phys t.

(** The process is initialised with a page-aligned target buffer that the
    device can address. *)
Record ready (t : Buffer) (s : Hw) : Prop := {
  rd_mcas : MCAS s = Some (mcas_of t);
  rd_read : csr s !! RD_BUFF = Some (phys (read (mcas_of t)));
  rd_write : csr s !! WR_BUFF = Some (phys (write (mcas_of t)));
  rd_phys : 0 <= phys t /\ phys t + SIZE_TARGET <= 2 ^ 52;
  rd_page : (4096 | phys t) /\ (4096 | virt t);
}.

(** An [Atomic] of the data area: aligned to 128 bytes, below the command slots. *)
Definition word (t : Buffer) (a : Z) : Prop :=
  (128 | a) /\ virt t <= a /\ a + 128 <= virt t + (SIZE_TARGET - SIZE_READ - SIZE_WRITE).

(** The threads whose slots lie in the page that the controller watches. *)
Definition served (i : Z) : Prop := 0 <= i < 32.

Lemma sizes : SIZE_TARGET = 67108864 /\ SIZE_READ = 65536 /\ SIZE_WRITE = 65536.
Proof. done. Qed.

Lemma bits_page k x : 0 <= k < 2 ^ 40 -> 0 <= x < 4096 -> bits_51_12 (4096 * k + x) = k.
Proof.
  intros Hk Hx. unfold bits_51_12. rewrite Z.shiftr_div_pow2, Z.land_ones by lia. change (2 ^ 12) with 4096.
  rewrite (Z.mul_comm 4096), Z.div_add_l, (Z.div_small x), Z.add_0_r by lia. by apply Z.mod_small.
Qed.

Lemma core_page k i : 0 <= k -> served i -> core_id (4096 * k + slot i) = i * 2.
Proof.
  intros Hk Hi. unfold core_id, slot, served in *. rewrite Z.shiftr_div_pow2, Z.land_ones by lia. change (2 ^ 6) with 64.
  replace (4096 * k + i * 2 * 64) with ((k * 64 + i * 2) * 64) by lia. rewrite Z.div_mul by lia.
  rewrite Z.add_comm, Z.mod_add by lia. apply Z.mod_small. lia.
Qed.

Lemma low_52 p : 0 <= p < 2 ^ 52 -> Z.land p (Z.ones 52) = p.
Proof. intros Hp. rewrite Z.land_ones by lia. by apply Z.mod_small. Qed.

Lemma line_64 a : (64 | a) -> line a = a.
Proof. intros [k ->]. unfold line. rewrite Z.div_mul by lia. lia. Qed.

(** The places of a set-up machine. *)
Lemma buffers_aligned t s : ready t s -> exists k, 16352 <= k /\ k + 32 <= 2 ^ 40 /\
  phys t = 4096 * k - 16384 * 4096 + 32 * 4096 /\
  phys (write (mcas_of t)) = 4096 * k /\ phys (read (mcas_of t)) = 4096 * (k + 16).
Proof.
  intros Hr. destruct (rd_phys _ _ Hr) as [H1 H2]. destruct (rd_page _ _ Hr) as [[q Hq] _].
  exists (q + 16352). unfold mcas_of. cbn [write read phys]. destruct sizes as (E1 & E2 & E3). rewrite E1 in *. rewrite E2, E3.
  change (2 ^ 52) with (2 ^ 40 * 4096) in H2. lia.
Qed.

Lemma word_place t s a : ready t s -> word t a ->
  (128 | place t a) /\ 0 <= place t a < 2 ^ 52 /\ line (place t a) = place t a /\
  phys t <= place t a /\ place t a + 128 <= phys (write (mcas_of t)).
Proof.
  intros Hr ((x & ->) & H1 & H2). destruct (rd_page _ _ Hr) as [[p Hp] [v Hv]]. destruct (rd_phys _ _ Hr) as [H3 H4].
  unfold place in *. assert ((128 | x * 128 - virt t + phys t)) as Hd by (exists (x - v * 32 + p * 32); lia).
  split; [done|]. unfold mcas_of. cbn [write read phys]. destruct sizes as (E1 & E2 & E3). rewrite E1, E2, E3 in *.
  split; [lia|]. split; [|lia]. apply line_64. destruct Hd as [y ->]. exists (y * 2). lia.
Qed.

Lemma place_apart t s a b : ready t s -> word t a -> word t b -> a <> b ->
  place t b < place t a \/ place t a + 128 <= place t b.
Proof.
  intros Hr Ha Hb Hne. destruct (word_place t s a Hr Ha) as ([x Ex] & _). destruct (word_place t s b Hr Hb) as ([y Ey] & _).
  assert (place t a <> place t b) by (unfold place; lia). lia.
Qed.

Lemma virt_to_phys_ok t s a : ready t s -> in_target t a -> virt_to_phys checks t a = Done (place t a).
Proof.
  intros Hr [H1 H2]. destruct (rd_phys _ _ Hr) as [H3 H4]. unfold virt_to_phys, checked_sub, place.
  rewrite (proj2 (Z.leb_le _ _)) by lia. apply arith_ok. unfold in_range. change (2 ^ 52) with 4503599627370496 in H4. lia.
Qed.

Lemma word_in_target t a : word t a -> in_target t a.
Proof. intros (_ & H1 & H2). unfold in_target. destruct sizes as (E1 & E2 & E3). rewrite E1, E2, E3 in *. lia. Qed.

(** *** The slots of a served thread *)
Lemma slot_aligned k i : (64 | 4096 * k + slot i).
Proof. exists (64 * k + i * 2). unfold slot. lia. Qed.

Lemma page_match_write t s i : ready t s -> served i ->
  page_match s WR_BUFF (phys (write (mcas_of t)) + slot i) = true.
Proof.
  intros Hr Hi. destruct (buffers_aligned t s Hr) as (k & H1 & H2 & _ & E & _). unfold page_match. rewrite (rd_write _ _ Hr), E.
  rewrite (proj2 (Z.eqb_neq _ _)) by lia. cbn [negb andb]. unfold served, slot in *. rewrite bits_page by lia.
  replace (4096 * k) with (4096 * k + 0) by lia. rewrite bits_page by lia. apply Z.eqb_refl.
Qed.

Lemma page_match_read t s i : ready t s -> served i ->
  page_match s RD_BUFF (phys (read (mcas_of t)) + slot i) = true.
Proof.
  intros Hr Hi. destruct (buffers_aligned t s Hr) as (k & H1 & H2 & _ & _ & E). unfold page_match. rewrite (rd_read _ _ Hr), E.
  rewrite (proj2 (Z.eqb_neq _ _)) by lia. cbn [negb andb]. unfold served, slot in *. rewrite bits_page by lia.
  replace (4096 * (k + 16)) with (4096 * (k + 16) + 0) by lia. rewrite bits_page by lia. apply Z.eqb_refl.
Qed.

(** A slot past the first page is not watched. *)
Lemma page_unmatched t s i : ready t s -> 32 <= i < 512 ->
  page_match s WR_BUFF (phys (write (mcas_of t)) + slot i) = false /\ page_match s RD_BUFF (phys (read (mcas_of t)) + slot i) = false.
Proof.
  intros Hr Hi. destruct (buffers_aligned t s Hr) as (k & H1 & H2 & _ & Ew & Er). unfold page_match. rewrite (rd_write _ _ Hr), (rd_read _ _ Hr), Ew, Er.
  assert (slot i = 4096 * (i / 32) + slot (i mod 32)) as -> by (unfold slot; pose proof (Z.div_mod i 32); lia).
  pose proof (Z.mod_pos_bound i 32 ltac:(lia)). assert (1 <= i / 32 < 16) by (split; [apply Z.div_le_lower_bound|apply Z.div_lt_upper_bound]; lia).
  assert (forall q, 0 <= q -> q + 16 <= 2 ^ 40 -> (bits_51_12 (4096 * q + (4096 * (i / 32) + slot (i mod 32))) =? bits_51_12 (4096 * q)) = false) as H'.
  { intros q Hq Hq'. replace (4096 * q + (4096 * (i / 32) + slot (i mod 32))) with (4096 * (q + i / 32) + slot (i mod 32)) by lia.
    rewrite bits_page by (unfold slot; lia). replace (4096 * q) with (4096 * q + 0) by lia. rewrite bits_page by lia. apply Z.eqb_neq. lia. }
  split; rewrite H' by lia; apply andb_false_r.
Qed.
End layout.

(** ** Transactions *)

Section transactions.
Context (t : Buffer).
Abbreviation m := (mcas_of t).
Abbreviation read_at i := (phys (read m) + slot i).

(** What a state says of the memory: the atomics, and the flags that a read of
    a slot finds when it is not redirected. *)
Definition same_words (s s' : Hw) : Prop := forall a, word t a -> memory s' (place t a) = memory s (place t a).
Definition same_flags (s s' : Hw) : Prop := forall i, served i -> memory s' (read_at i + 8) = memory s (read_at i + 8).
Definition same_entry (s s' : Hw) (i : Z) : Prop := entries s' (i * 2) = entries s (i * 2).

Lemma ready_eq s s' : csr s' = csr s -> MCAS s' = MCAS s -> ready t s -> ready t s'.
Proof. intros E1 E2 []. split; rewrite ?E1, ?E2; done. Qed.

Lemma put_line_out a l f q : q < line a \/ line a + 64 <= q -> put_line a l f q = f q.
Proof.
  intros H. unfold put_line. destruct (Z.leb_spec (line a) q), (Z.ltb_spec q (line a + 64)); try done. lia.
Qed.

Lemma put_line_hd a x l f : line a = a -> put_line a (x :: l) f a = x.
Proof.
  intros E. unfold put_line. rewrite E, Z.leb_refl, (proj2 (Z.ltb_lt _ _)) by lia. by rewrite Z.sub_diag.
Qed.

Lemma put_entry_eq i e f : served i -> put_entry (i * 2) e f (i * 2) = e.
Proof. intros Hi. unfold put_entry, served, MAX_CORE_CNT in *. by rewrite Z.eqb_refl, (proj2 (Z.ltb_lt _ _)) by lia. Qed.
Lemma put_entry_ne i j e f : i <> j -> put_entry (i * 2) e f (j * 2) = f (j * 2).
Proof. intros Hi. unfold put_entry. by rewrite (proj2 (Z.eqb_neq _ _)) by lia. Qed.

Lemma send_spec s i old new p : ready t s -> served i ->
  let s' := send m i old new p s in
  ready t s' /\ same_words s s' /\ same_flags s s' /\
  entries s' (i * 2) = mkEntry old new p 1 /\ forall j, j <> i -> same_entry s s' j.
Proof.
  intros Hr Hi. unfold send, write_line. rewrite (page_match_write t s i Hr Hi). cbv zeta.
  destruct (buffers_aligned t s Hr) as (k & H1 & H2 & _ & Ew & Er).
  assert (i * 2 mod 256 = i * 2) as -> by (unfold served in Hi; apply Z.mod_small; lia).
  split; [by apply (ready_eq s)|]. unfold same_words, same_flags, same_entry, set_entries, set_memory. cbn [memory entries].
  split_and!.
  - intros a Ha. destruct (word_place t s a Hr Ha) as (_ & _ & _ & _ & Hb). apply put_line_out. rewrite Ew in *.
    rewrite line_64 by apply slot_aligned. unfold slot, served in *. lia.
  - intros j Hj. apply put_line_out. rewrite Ew, Er, line_64 by apply slot_aligned. unfold slot, served in *. lia.
  - by apply put_entry_eq.
  - intros j Hne. by apply put_entry_ne.
Qed.

Lemma ask_spec s i : ready t s -> served i ->
  let e := entries s (i * 2) in
  ask m i s = if status e =? 1
    then (set_entries (put_entry (i * 2) (with_status 2 e) (entries s)) s, (Some (i * 2), Z.land (target_pa e) (Z.ones 52)))
    else (s, (None, read_at i)).
Proof.
  intros Hr Hi. unfold ask, read_request. rewrite (page_match_read t s i Hr Hi). cbn [andb].
  destruct (buffers_aligned t s Hr) as (k & H1 & H2 & _ & Ew & Er). rewrite Er, core_page by (done || lia). done.
Qed.

(** The answer to a standing command for an atomic that holds what the command
    expects: the atomic is swapped and no entry for it is left standing. *)
Lemma respond_swap s i a old new d : ready t s -> served i -> word t a ->
  entries s (i * 2) = mkEntry old new (place t a) 2 -> fst d = old ->
  exists s', read_respond (Some (i * 2)) d s = (s', (old, 1)) /\ ready t s' /\ same_flags s s' /\
    memory s' (place t a) = new /\ (forall b, word t b -> b <> a -> memory s' (place t b) = memory s (place t b)) /\
    status (entries s' (i * 2)) = 0 /\
    forall j, j <> i -> entries s' (j * 2) =
      if target_pa (entries s (j * 2)) =? place t a then with_status 0 (entries s (j * 2)) else entries s (j * 2).
Proof.
  intros Hr Hi Ha He Hd. unfold read_respond. rewrite He. cbn [status compare_value swap_value target_pa]. rewrite Hd, !Z.eqb_refl. cbn [andb].
  destruct (word_place t s a Hr Ha) as (_ & Hp & Hl & _ & Hb). rewrite low_52 by done. eexists. split; [reflexivity|].
  destruct (buffers_aligned t s Hr) as (k & H1 & H2 & _ & Ew & Er).
  unfold set_memory, set_entries, same_flags. cbn [csr memory entries MCAS THREAD_ID].
  split; [by apply (ready_eq s)|]. split_and!.
  - intros j Hj. apply put_line_out. rewrite Hl, Er, Ew in *. unfold slot, served in *. lia.
  - by apply put_line_hd.
  - intros b Hw Hne. apply put_line_out. rewrite Hl. pose proof (place_apart t s a b Hr Ha Hw ltac:(congruence)). lia.
  - rewrite put_entry_eq by done. cbn [with_status target_pa]. by rewrite Z.eqb_refl.
  - intros j Hne. by rewrite put_entry_ne by congruence.
Qed.

(** The answer to any other command. *)
Lemma respond_fail s i d : served i -> status (entries s (i * 2)) <> 2 \/ fst d <> compare_value (entries s (i * 2)) ->
  exists s', read_respond (Some (i * 2)) d s = (s', (fst d, 0)) /\ csr s' = csr s /\ MCAS s' = MCAS s /\ memory s' = memory s /\
    status (entries s' (i * 2)) = 0 /\ forall j, j <> i -> same_entry s s' j.
Proof.
  intros Hi Hf. unfold read_respond.
  assert ((status (entries s (i * 2)) =? 2) && (fst d =? compare_value (entries s (i * 2))) = false) as ->.
  { apply andb_false_iff. destruct Hf; [left|right]; by apply Z.eqb_neq. }
  eexists. split; [reflexivity|]. unfold set_entries. cbn [csr MCAS memory entries]. split_and!; try done.
  - by rewrite put_entry_eq.
  - intros j Hne. unfold same_entry. cbn [entries]. by apply put_entry_ne.
Qed.
End transactions.

(** ** Interleaved commands

    The threads of the process at the level of single transactions: a thread is
    between two calls of [mcas], or has sent a command, or waits for the memory,
    or for the answer. *)
Inductive mpc :=
| MIdle
| MSent (a old new : Z)
| MAsked (a old new : Z) (tag : option Z) (at_ : Z)
| MRead (a old new : Z) (tag : option Z) (data : Z * Z).

Record conf := mkConf { hw : Hw; pcs : Z -> mpc }.

(** A call that has returned. *)
Record Event := mkEvent { ev_thread : Z; ev_addr : Z; ev_old : Z; ev_new : Z; ev_result : Z + Z }.

(** The next transaction of a thread; [f] are the other threads. *)
Inductive mstep (checks : bool) (t : Buffer) : conf -> list Event -> conf -> Prop :=
| step_send i a old new p s f c : served i -> word t a -> f i = MIdle -> MCAS s = Some c ->
    virt_to_phys checks (target c) a = Done p ->
    mstep checks t (mkConf s f) [] (mkConf (send c i old new p s) (<[i := MSent a old new]> f))
| step_ask i a old new s s' f c tag q : f i = MSent a old new -> MCAS s = Some c -> ask c i s = (s', (tag, q)) ->
    mstep checks t (mkConf s f) [] (mkConf s' (<[i := MAsked a old new tag q]> f))
| step_memory i a old new s f tag q : f i = MAsked a old new tag q ->
    mstep checks t (mkConf s f) [] (mkConf s (<[i := MRead a old new tag (read_memory q s)]> f))
| step_respond i a old new s s' f tag d r : f i = MRead a old new tag d -> read_respond tag d s = (s', r) ->
    mstep checks t (mkConf s f) [mkEvent i a old new (answer r)] (mkConf s' (<[i := MIdle]> f)).

(** The calls that returned on the way, in order. *)
Inductive mreach (checks : bool) (t : Buffer) (c0 : conf) : list Event -> conf -> Prop :=
| reach_here : mreach checks t c0 [] c0
| reach_step h c e c' : mreach checks t c0 h c -> mstep checks t c e c' -> mreach checks t c0 (h ++ e) c'.

(** The specification: atomics that change only by a successful exchange, which
    found the expected value. *)
Definition spec_step (w : Z -> Z) (e : Event) : option (Z -> Z) :=
  match ev_result e with
  | inl _ => Some w
  | inr v => if (w (ev_addr e) =? ev_old e) && (v =? ev_old e) then Some (<[ev_addr e := ev_new e]> w) else None
  end.
Fixpoint spec_run (h : list Event) (w : Z -> Z) : option (Z -> Z) :=
  match h with
  | [] => Some w
  | e :: h => match spec_step w e with Some w' => spec_run h w' | None => None end
  end.

Lemma spec_run_app h h' w : spec_run (h ++ h') w = match spec_run h w with Some w' => spec_run h' w' | None => None end.
Proof. revert w. induction h as [|e h IH]; intros w; simpl; [done|]. by destruct (spec_step w e). Qed.

(** Nothing is under way, and no read slot holds a stale success flag. *)
Record clean (t : Buffer) (c : conf) : Prop := {
  cl_ready : ready t (hw c);
  cl_idle i : pcs c i = MIdle;
  cl_status i : served i -> status (entries (hw c) (i * 2)) = 0;
  cl_flag i : served i -> memory (hw c) (phys (read (mcas_of t)) + slot i + 8) <> 1;
}.

Section invariant.
Context (checks : bool) (t : Buffer).
Abbreviation m := (mcas_of t).

Definition holds (e : Entry) (a old new : Z) : Prop := compare_value e = old /\ swap_value e = new /\ target_pa e = place t a.

Definition pc_ok (s : Hw) (i : Z) (p : mpc) : Prop :=
  let e := entries s (i * 2) in
  match p with
  | MIdle => status e = 0
  | MSent a old new => word t a /\ holds e a old new /\ (status e = 0 \/ status e = 1)
  | MAsked a old new None q => word t a /\ q = phys (read m) + slot i /\ status e = 0
  | MAsked a old new (Some j) q => word t a /\ j = i * 2 /\ q = place t a /\ holds e a old new /\ (status e = 0 \/ status e = 2)
  | MRead a old new None d => word t a /\ snd d <> 1 /\ status e = 0
  | MRead a old new (Some j) d => word t a /\ j = i * 2 /\ holds e a old new /\
      (status e = 0 \/ status e = 2 /\ memory s (place t a) = fst d)
  end.

Record Inv (c : conf) : Prop := {
  inv_ready : ready t (hw c);
  inv_flag i : served i -> memory (hw c) (phys (read m) + slot i + 8) <> 1;
  inv_idle i : pcs c i <> MIdle -> served i;
  inv_pc i : served i -> pc_ok (hw c) i (pcs c i);
}.

Lemma clean_inv c : clean t c -> Inv c.
Proof.
  intros []. split; [done|done| |].
  - intros i Hi. by rewrite cl_idle0 in Hi.
  - intros i Hi. rewrite cl_idle0. by apply cl_status0.
Qed.

(** A thread's part survives what others do: the entry is kept or cancelled, and
    a standing read keeps its word. *)
Lemma pc_ok_frame s s' i p : pc_ok s i p ->
  (entries s' (i * 2) = entries s (i * 2) /\ (forall a, word t a -> target_pa (entries s (i * 2)) = place t a -> memory s' (place t a) = memory s (place t a)) \/
   entries s' (i * 2) = with_status 0 (entries s (i * 2))) ->
  pc_ok s' i p.
Proof.
  unfold pc_ok, holds. intros Hp [[-> Hm]| -> ]; destruct p as [|a old new|a old new [j|] q|a old new [j|] d]; cbn; try tauto.
  destruct Hp as (Ha & Hj & Hh & Hs). split_and!; try tauto. destruct Hs as [Hs|[Hs Hd]]; [by left|]. right. rewrite Hm; tauto.
Qed.

(** One thread moves to [p]; the others are framed. *)
Lemma inv_move s s' f i p : Inv (mkConf s f) -> ready t s' -> same_flags t s s' -> served i -> pc_ok s' i p ->
  (forall j, j <> i -> (same_entry s s' j /\ forall a, word t a -> target_pa (entries s (j * 2)) = place t a -> memory s' (place t a) = memory s (place t a)) \/
     entries s' (j * 2) = with_status 0 (entries s (j * 2))) ->
  Inv (mkConf s' (<[i := p]> f)).
Proof.
  intros HI Hr Hf Hi Hp Hj. split; cbn [hw pcs]; [done| | |].
  - intros j Hs. rewrite Hf by done. by apply (inv_flag _ HI).
  - intros j Hs. destruct (decide (j = i)) as [->|Hne]; [done|]. rewrite fn_lookup_insert_ne in Hs by done. by apply (inv_idle _ HI).
  - intros j Hs. destruct (decide (j = i)) as [->|Hne]; [by rewrite fn_lookup_insert|]. rewrite fn_lookup_insert_ne by done.
    eapply pc_ok_frame; [by apply (inv_pc _ HI)|]. apply Hj. done.
Qed.

Definition agree (w : Z -> Z) (s : Hw) : Prop := forall a, word t a -> w a = memory s (place t a).

Lemma agree_same w s s' : agree w s -> same_words t s s' -> agree w s'.
Proof. intros Ha Hs a Hw. rewrite Hs by done. by apply Ha. Qed.

Lemma same_refl s : same_words t s s /\ same_flags t s s.
Proof. by split. Qed.

(** Every transaction keeps the invariant, and its call, if it returns, is a
    step of the specification. *)
Lemma send_ok i a old new s f w : Inv (mkConf s f) -> served i -> word t a -> agree w s ->
  let s' := send m i old new (place t a) s in Inv (mkConf s' (<[i := MSent a old new]> f)) /\ agree w s'.
Proof.
  intros HI Hi Ha Hw. destruct (send_spec t s i old new (place t a) (inv_ready _ HI) Hi) as (Hr & Hws & Hfs & He & Hj).
  split; [|by eapply agree_same]. eapply inv_move; [exact HI|done|done|done| |].
  - unfold pc_ok, holds. rewrite He. cbn. tauto.
  - intros j Hne. left. split; [by apply Hj|]. intros b Hb _. by apply Hws.
Qed.

Lemma ask_ok i a old new s s' f tag q w : Inv (mkConf s f) -> f i = MSent a old new -> ask m i s = (s', (tag, q)) -> agree w s ->
  Inv (mkConf s' (<[i := MAsked a old new tag q]> f)) /\ agree w s'.
Proof.
  intros HI Hf Hq Hw. assert (served i) as Hi by (apply (inv_idle _ HI); cbn; by rewrite Hf).
  pose proof (inv_pc _ HI i Hi) as Hp. cbn [hw pcs] in Hp. rewrite Hf in Hp. destruct Hp as (Ha & (H1 & H2 & H3) & Hs).
  pose proof (inv_ready _ HI) as Hr. cbn [hw] in Hr. rewrite (ask_spec t s i Hr Hi) in Hq.
  destruct (Z.eqb_spec (status (entries s (i * 2))) 1) as [E|E]; injection Hq as <- <- <-.
  - split; [|exact Hw]. eapply inv_move; [exact HI|by apply (ready_eq t s)|done|done| |].
    + unfold pc_ok, set_entries. cbn [entries]. rewrite put_entry_eq by done. destruct (word_place t s a Hr Ha) as (_ & Hb & _).
      rewrite H3, low_52 by done. unfold holds, with_status. cbn. tauto.
    + intros j Hne. left. split; [|done]. unfold same_entry, set_entries. cbn [entries]. by rewrite put_entry_ne by congruence.
  - split; [|exact Hw]. eapply inv_move; [exact HI|done|done|done| |].
    + cbn. split_and!; [done|done|]. tauto.
    + intros j Hne. by left.
Qed.

Lemma memory_ok i a old new s f tag q : Inv (mkConf s f) -> f i = MAsked a old new tag q ->
  Inv (mkConf s (<[i := MRead a old new tag (read_memory q s)]> f)).
Proof.
  intros HI Hf. assert (served i) as Hi by (apply (inv_idle _ HI); cbn; by rewrite Hf).
  pose proof (inv_pc _ HI i Hi) as Hp. cbn [hw pcs] in Hp. rewrite Hf in Hp. pose proof (inv_ready _ HI) as Hr. cbn [hw] in Hr.
  eapply inv_move; [exact HI|done|done|done| |intros j Hne; by left].
  destruct tag as [j|]; cbn beta iota zeta delta [pc_ok read_memory fst snd] in Hp |- *.
  - destruct Hp as (Ha & -> & -> & Hh & Hs). destruct (word_place t s a Hr Ha) as (_ & _ & El & _). rewrite El. split_and!; tauto.
  - destruct Hp as (Ha & -> & Hs). split_and!; [done| |done]. destruct (buffers_aligned t s Hr) as (k & _ & _ & _ & _ & Er).
    rewrite line_64 by (rewrite Er; apply slot_aligned). by apply (inv_flag _ HI).
Qed.

Lemma respond_ok i a old new s s' f tag d r w : Inv (mkConf s f) -> f i = MRead a old new tag d -> read_respond tag d s = (s', r) -> agree w s ->
  Inv (mkConf s' (<[i := MIdle]> f)) /\ exists w', spec_step w (mkEvent i a old new (answer r)) = Some w' /\ agree w' s'.
Proof.
  intros HI Hf Hq Hw. assert (served i) as Hi by (apply (inv_idle _ HI); cbn; by rewrite Hf).
  pose proof (inv_pc _ HI i Hi) as Hp. cbn [hw pcs] in Hp. rewrite Hf in Hp. pose proof (inv_ready _ HI) as Hr. cbn [hw] in Hr.
  destruct tag as [j|]; cbn in Hp.
  - destruct Hp as (Ha & -> & (H1 & H2 & H3) & Hs).
    destruct (decide (status (entries s (i * 2)) = 2 /\ fst d = compare_value (entries s (i * 2)))) as [[E1 E2]|E].
    + destruct Hs as [Hs|[_ Hm]]; [congruence|].
      assert (entries s (i * 2) = mkEntry old new (place t a) 2) as He by (destruct (entries s (i * 2)); cbn in *; congruence).
      destruct (respond_swap t s i a old new d Hr Hi Ha He ltac:(congruence)) as (s2 & E & Hr2 & Hf2 & Hn & Ho & Hz & Hj).
      rewrite E in Hq. injection Hq as <- <-. split.
      * eapply inv_move; [exact HI|done|done|done|exact Hz|]. intros j Hne. rewrite Hj by done.
        destruct (Z.eqb_spec (target_pa (entries s (j * 2))) (place t a)) as [Et|Et]; [by right|]. left.
        split; [unfold same_entry; rewrite Hj by done; by rewrite (proj2 (Z.eqb_neq _ _))|]. intros b Hb Eb. apply Ho; [done|]. intros ->. by apply Et.
      * exists (<[a := new]> w). unfold spec_step, answer. cbn. rewrite (Hw a Ha), Hm, E2, H1, !Z.eqb_refl. split; [done|].
        intros b Hb. destruct (decide (b = a)) as [->|Hne]; [by rewrite fn_lookup_insert|]. rewrite fn_lookup_insert_ne, Ho by done. by apply Hw.
    + destruct (respond_fail s i d Hi) as (s2 & E' & C1 & C2 & C3 & Hz & Hj); [destruct (decide (status (entries s (i * 2)) = 2)); tauto|].
      rewrite E' in Hq. injection Hq as <- <-. split.
      * eapply inv_move; [exact HI|by apply (ready_eq t s)| |done|exact Hz|].
        { intros j _. by rewrite C3. }
        intros j Hne. left. split; [by apply Hj|]. intros. by rewrite C3.
      * exists w. split; [done|]. intros b Hb. rewrite C3. by apply Hw.
  - destruct Hp as (Ha & Hd & Hs). injection Hq as <- <-. split.
    + eapply inv_move; [exact HI|done|done|done|exact Hs|]. intros j Hne. by left.
    + exists w. unfold spec_step, answer. cbn. rewrite (proj2 (Z.eqb_neq _ _)) by done. done.
Qed.

Lemma mstep_ok c e c' w : Inv c -> mstep checks t c e c' -> agree w (hw c) -> Inv c' /\ exists w', spec_run e w = Some w' /\ agree w' (hw c').
Proof.
  intros HI Hs Hw. pose proof (rd_mcas _ _ (inv_ready _ HI)) as Hm. pose proof (inv_ready _ HI) as Hr.
  destruct Hs as [i a old new p s f x Hi Ha Hf Hc Hp|i a old new s s' f x tag q Hf Hc Hq|i a old new s f tag q Hf|i a old new s s' f tag d r Hf Hq];
    cbn [hw] in *.
  - rewrite Hm in Hc. injection Hc as <-. cbn [mcas_of target] in Hp. rewrite (virt_to_phys_ok checks t s a Hr) in Hp by by apply word_in_target.
    injection Hp as <-. destruct (send_ok i a old new s f w HI Hi Ha Hw). eauto.
  - rewrite Hm in Hc. injection Hc as <-. destruct (ask_ok i a old new s s' f tag q w HI Hf Hq Hw). eauto.
  - split; [by apply memory_ok|]. eauto.
  - destruct (respond_ok i a old new s s' f tag d r w HI Hf Hq Hw) as [H1 (w' & H2 & H3)]. split; [done|]. exists w'. split; [|done]. cbn [spec_run]. by rewrite H2.
Qed.

Lemma mreach_ok c0 h c w : Inv c0 -> agree w (hw c0) -> mreach checks t c0 h c -> Inv c /\ exists w', spec_run h w = Some w' /\ agree w' (hw c).
Proof.
  intros HI Hw. induction 1 as [|h c e c' _ IH Hs]; [by eauto|]. destruct IH as [HI' (w' & E & Hw')].
  destruct (mstep_ok c e c' w' HI' Hs Hw') as [HI2 (w2 & E2 & Hw2)]. split; [done|]. exists w2. by rewrite spec_run_app, E.
Qed.
End invariant.

(** ** One call *)

Section calls.
Context (checks : bool) (t : Buffer).
Abbreviation m := (mcas_of t).

Definition value (s : Hw) (a : Z) : Z := memory s (place t a).

(** What an uninterrupted exchange of a served thread does to an atomic. *)
Definition exchanged (a old new : Z) (s s' : Hw) : Prop :=
  (forall b, word t b -> value s' b = if decide (b = a /\ value s a = old) then new else value s b) /\ same_flags t s s'.

Lemma mcas_steps i a old new s f : Inv t (mkConf s f) -> served i -> word t a -> f i = MIdle ->
  exists s1 s2 s', send m i old new (place t a) s = s1 /\ ask m i s1 = (s2, (Some (i * 2), place t a)) /\
    read_respond (Some (i * 2)) (read_memory (place t a) s2) s2 = (s', (value s a, if value s a =? old then 1 else 0)) /\
    ready t s' /\ exchanged a old new s s'.
Proof.
  intros HI Hi Ha Hf. pose proof (inv_ready _ _ HI) as Hr. cbn [hw] in Hr.
  destruct (send_spec t s i old new (place t a) Hr Hi) as (Hr1 & Hw1 & Hf1 & He1 & _). set (s1 := send m i old new (place t a) s) in *.
  destruct (word_place t s a Hr Ha) as (_ & Hb & Hl & _).
  pose proof (ask_spec t s1 i Hr1 Hi) as Hq. cbv zeta in Hq. rewrite He1 in Hq. cbn [status target_pa with_status compare_value swap_value] in Hq.
  rewrite Z.eqb_refl, low_52 in Hq by done. set (s2 := set_entries _ s1) in Hq.
  assert (ready t s2) as Hr2 by by apply (ready_eq t s1). exists s1, s2.
  assert (entries s2 (i * 2) = mkEntry old new (place t a) 2) as He2 by (by apply put_entry_eq).
  assert (fst (read_memory (place t a) s2) = value s a) as Ev by (unfold read_memory; rewrite Hl; apply (Hw1 a Ha)).
  assert (forall b, word t b -> memory s2 (place t b) = value s b) as Em by (intros b Hw; apply (Hw1 b Hw)).
  destruct (Z.eqb_spec (value s a) old) as [E|E].
  - destruct (respond_swap t s2 i a old new (read_memory (place t a) s2) Hr2 Hi Ha He2 ltac:(congruence)) as (s' & E' & Hr' & Hf' & Hn & Ho & _).
    exists s'. rewrite E', E. unfold exchanged. split_and!; try done.
    + intros b Hb'. unfold value at 1. destruct (decide (b = a /\ value s a = old)) as [[-> _]|Hne]; [done|]. rewrite Ho, Em by naive_solver. done.
    + intros j Hj. rewrite Hf' by done. by apply Hf1.
  - destruct (respond_fail s2 i (read_memory (place t a) s2) Hi) as (s' & E' & C1 & C2 & C3 & _); [right; rewrite He2, Ev; done|].
    exists s'. rewrite E', Ev. unfold exchanged. split_and!; try done; [by apply (ready_eq t s2)| |].
    + intros b Hb'. rewrite decide_False by naive_solver. unfold value at 1. rewrite C3. by apply Em.
    + intros j Hj. rewrite C3. by apply Hf1.
Qed.

(** [mcas] is a run of these transactions. *)
Lemma mcas_is_msteps i a old new s f s' r : Inv t (mkConf s f) -> served i -> word t a -> f i = MIdle -> THREAD_ID s = i ->
  mcas checks a old new s = Done (s', r) -> exists g, mreach checks t (mkConf s f) [mkEvent i a old new r] (mkConf s' g) /\ forall j, g j = f j.
Proof.
  intros HI Hi Ha Hf Hid. pose proof (inv_ready _ _ HI) as Hr. cbn [hw] in Hr. pose proof (rd_mcas _ _ Hr) as Hm.
  destruct (send_spec t s i old new (place t a) Hr Hi) as (Hr1 & _).
  assert (virt_to_phys checks (target m) a = Done (place t a)) as Hp by (apply (virt_to_phys_ok checks t s a Hr); by apply word_in_target).
  unfold mcas, bind, gets, modify, unwrap, lift, ret. cbn [obind fst snd]. rewrite Hm. cbn [obind fst snd]. rewrite Hp. cbn [obind fst snd]. rewrite Hid.
  destruct (ask m i (send m i old new (place t a) s)) as [s2 [tag q]] eqn:Eq. cbn [obind fst snd].
  destruct (read_respond tag (read_memory q s2) s2) as [s3 x] eqn:Er. cbn [obind fst snd]. intros [= -> <-].
  eexists. split.
  - change [mkEvent i a old new (answer x)] with (((([] ++ []) ++ []) ++ []) ++ [mkEvent i a old new (answer x)]).
    eapply reach_step; [eapply reach_step; [eapply reach_step; [eapply reach_step; [apply reach_here|]|]|]|].
    + by eapply (step_send checks t i a old new (place t a) s f m).
    + eapply (step_ask checks t i a old new _ _ _ m); [by rewrite fn_lookup_insert|exact (rd_mcas _ _ Hr1)|exact Eq].
    + eapply (step_memory checks t i a old new). by rewrite fn_lookup_insert.
    + eapply (step_respond checks t i a old new _ _ _ tag); [by rewrite fn_lookup_insert|exact Er].
  - intros j. destruct (decide (j = i)) as [->|Hne]; [by rewrite fn_lookup_insert|by rewrite !fn_lookup_insert_ne].
Qed.

(** A served thread that runs alone, whatever the others have under way. *)
Lemma mcas_alone i a old new s f : Inv t (mkConf s f) -> served i -> word t a -> f i = MIdle -> THREAD_ID s = i ->
  exists s', mcas checks a old new s = Done (s', if value s a =? old then inr (value s a) else inl (value s a)) /\ exchanged a old new s s' /\
    Inv t (mkConf s' f) /\ THREAD_ID s' = i.
Proof.
  intros HI Hi Ha Hf Hid. pose proof (inv_ready _ _ HI) as Hr. cbn [hw] in Hr. pose proof (rd_mcas _ _ Hr) as Hm.
  destruct (mcas_steps i a old new s f HI Hi Ha Hf) as (s1 & s2 & s' & E1 & E2 & E3 & Hr' & Hx).
  assert (virt_to_phys checks (target m) a = Done (place t a)) as Hp by (apply (virt_to_phys_ok checks t s a Hr); by apply word_in_target).
  assert (mcas checks a old new s = Done (s', if value s a =? old then inr (value s a) else inl (value s a))) as E.
  { unfold mcas, bind, gets, modify, unwrap, lift, ret. cbn [obind fst snd]. rewrite Hm. cbn [obind fst snd]. rewrite Hp. cbn [obind fst snd].
    rewrite Hid, E1, E2. cbn [obind fst snd]. rewrite E3. cbn [obind fst snd]. unfold answer. cbn. by destruct (value s a =? old). }
  exists s'. split; [done|]. split; [done|].
  destruct (mcas_is_msteps i a old new s f s' _ HI Hi Ha Hf Hid E) as (g & Hg & Hgf).
  destruct (mreach_ok checks t _ _ _ (value s) HI ltac:(done) Hg) as [[I1 I2 I3 I4] _]. cbn [hw pcs] in *. split.
  - split; cbn [hw pcs]; [done|done| |]; intros j; rewrite <- Hgf; [apply I3|apply I4].
  - assert (THREAD_ID s1 = i /\ THREAD_ID s2 = i) as [T1 T2].
    { rewrite <- E1 in E2 |- *. unfold send, write_line, ask, read_request in *. split.
      - by destruct (page_match _ _ _).
      - destruct (page_match _ _ _) in E2; destruct (page_match _ _ _) in E2; try destruct (_ =? _); simpl in E2; by injection E2 as <-. }
    unfold read_respond in E3. destruct (_ && _) in E3; by injection E3 as <-.
Qed.

Lemma load_value a s : ready t s -> word t a -> load checks a s = Done (s, value s a).
Proof.
  intros Hr Ha. unfold load, bind, gets, unwrap, lift. cbn [obind fst snd]. rewrite (rd_mcas _ _ Hr). unfold ret. cbn [obind fst snd].
  change (target m) with t. by rewrite (virt_to_phys_ok checks t s a Hr) by by apply word_in_target.
Qed.

Lemma exchange_alone i a old new s f : Inv t (mkConf s f) -> served i -> word t a -> f i = MIdle -> THREAD_ID s = i ->
  exists s', compare_exchange checks a old new s = Done (s', if value s a =? old then inr old else inl (value s a)) /\
    exchanged a old new s s' /\ Inv t (mkConf s' f) /\ THREAD_ID s' = i.
Proof.
  intros HI Hi Ha Hf Hid. destruct (mcas_alone i a old new s f HI Hi Ha Hf Hid) as (s' & E & Hx & HI' & Hid').
  exists s'. split; [|done]. unfold compare_exchange, bind. rewrite E. cbn [obind fst snd].
  destruct (Z.eqb_spec (value s a) old) as [<-|Hne]; [done|]. destruct (Z.eqb_spec (value s a) 0) as [E0|]; [|done].
  rewrite load_value by (done || apply (inv_ready _ _ HI')). cbn [obind fst snd]. unfold err, ret. do 3 f_equal.
  rewrite (proj1 Hx a Ha). by rewrite decide_False by naive_solver.
Qed.

Lemma inv_thread i s f : Inv t (mkConf s f) -> Inv t (mkConf (set_thread i s) f).
Proof.
  intros []. split; cbn [hw pcs] in *; [by apply (ready_eq t s)|done|done|].
  intros j Hj. eapply pc_ok_frame; [by apply inv_pc0|]. by left.
Qed.


(** [Atomic::store] of a thread running alone ends: at the first attempt, and
    from any stale expectation at the second. *)
Lemma store_ends i fuel a old new s f : Inv t (mkConf s f) -> served i -> word t a -> f i = MIdle -> THREAD_ID s = i ->
  (2 <= fuel)%nat ->
  exists s' s2, store checks fuel a new s = Done (s', tt) /\ value s' a = new /\
    store_loop checks fuel a old new s = Done (s2, tt) /\ value s2 a = new.
Proof.
  intros HI Hi Ha Hf Hid Hn. destruct fuel as [|[|fuel]]; [lia|lia|].
  assert (forall n s, Inv t (mkConf s f) -> THREAD_ID s = i -> exists s', store_loop checks (S n) a (value s a) new s = Done (s', tt) /\ value s' a = new) as H1.
  { intros n x HIx Hidx. destruct (exchange_alone i a (value x a) new x f HIx Hi Ha Hf Hidx) as (s' & E & [Hx _] & _).
    exists s'. cbn [store_loop]. unfold bind. rewrite E, Z.eqb_refl. cbn. split; [done|]. by rewrite Hx, decide_True. }
  destruct (H1 (S fuel) s HI Hid) as (s' & E1 & V1). exists s'.
  assert (store checks (S (S fuel)) a new s = Done (s', tt)) as Es.
  { unfold store, bind at 1. rewrite load_value by (done || apply (inv_ready _ _ HI)). exact E1. }
  destruct (decide (value s a = old)) as [<-|Hne]; [by exists s'|].
  destruct (exchange_alone i a old new s f HI Hi Ha Hf Hid) as (s1 & E & [Hx _] & HI1 & Hid1).
  rewrite (proj2 (Z.eqb_neq _ _)) in E by done. assert (value s1 a = value s a) as Ev by by rewrite Hx, decide_False by naive_solver.
  destruct (H1 fuel s1 HI1 Hid1) as (s2 & E2 & V2). exists s2. split_and!; try done.
  cbn [store_loop] in E2 |- *. unfold bind at 1. rewrite E. cbn [obind fst snd]. by rewrite <- Ev.
Qed.

(** The slots of the threads from 32 on lie outside the page that the controller
    watches: a command is an ordinary write, its answer whatever the read slot
    holds, and [Atomic::store] never ends. *)
Lemma unserved_mcas i a old new s : ready t s -> word t a -> 32 <= i < 512 -> THREAD_ID s = i ->
  memory s (phys (read m) + slot i + 8) <> 1 ->
  exists s' v, mcas checks a old new s = Done (s', inl v) /\ ready t s' /\ THREAD_ID s' = i /\
    memory s' (phys (read m) + slot i + 8) = memory s (phys (read m) + slot i + 8) /\ same_words t s s'.
Proof.
  intros Hr Ha Hi Hid Hfl. destruct (page_unmatched t s i Hr Hi) as [Uw _].
  destruct (buffers_aligned t s Hr) as (k & H1 & H2 & _ & Ew & Er).
  assert (virt_to_phys checks (target m) a = Done (place t a)) as Hp by (apply (virt_to_phys_ok checks t s a Hr); by apply word_in_target).
  set (s1 := set_memory (put_line (phys (write m) + slot i) [old; new; place t a; i * 2] (memory s)) s).
  assert (ready t s1) as Hr1 by by apply (ready_eq t s).
  assert (memory s1 (phys (read m) + slot i + 8) = memory s (phys (read m) + slot i + 8)) as Em.
  { apply put_line_out. rewrite Ew, line_64 by apply slot_aligned. rewrite Er. unfold slot. lia. }
  exists s1, (memory s1 (phys (read m) + slot i)). split_and!; try done.
  - unfold mcas, bind, gets, modify, unwrap, lift, ret. cbn [obind fst snd]. rewrite (rd_mcas _ _ Hr). cbn [obind fst snd]. rewrite Hp. cbn [obind fst snd].
    rewrite Hid. unfold send, write_line. rewrite Uw. cbv zeta. fold s1. unfold ask, read_request.
    rewrite (proj2 (page_unmatched t s1 i Hr1 Hi)). cbn [andb fst snd obind read_respond read_memory answer].
    unfold answer, read_memory. cbn [fst snd]. rewrite line_64 by (rewrite Er; apply slot_aligned). by rewrite Em, (proj2 (Z.eqb_neq _ _)).
  - intros b Hb. apply put_line_out. destruct (word_place t s b Hr Hb) as (_ & _ & _ & _ & Hx). rewrite Ew in *. rewrite line_64 by apply slot_aligned. unfold slot. lia.
Qed.

Lemma unserved_store_spins i fuel a new : forall old s, ready t s -> word t a -> 32 <= i < 512 -> THREAD_ID s = i ->
  memory s (phys (read m) + slot i + 8) <> 1 -> store_loop checks fuel a old new s = Diverge.
Proof.
  induction fuel as [|fuel IH]; intros old s Hr Ha Hi Hid Hfl; [done|].
  destruct (unserved_mcas i a old new s Hr Ha Hi Hid Hfl) as (s' & v & E & Hr' & Hid' & Em & _).
  cbn [store_loop]. unfold compare_exchange. unfold bind at 1 2. rewrite E. cbn [obind fst snd]. destruct (v =? 0).
  - unfold bind at 1. rewrite load_value by done. cbn [obind fst snd err ret]. apply IH; congruence.
  - cbn [obind fst snd err ret]. apply IH; congruence.
Qed.
End calls.

(** ** Initialisation *)

Section init.
Context (checks : bool).

(** The command slots of thread [i]. *)
Definition write_slot (m : Mcas) (i : Z) : Z := virt (write m) + slot i.
Definition read_slot (m : Mcas) (i : Z) : Z := virt (read m) + slot i.

(** C33: [init_process] lays out the target buffer. The registers hold the device
    addresses of the two command buffers; the 64-byte slots of the 512 threads
    are inside them, at least two lines apart, so that no two threads ever touch
    the same line; the rest of the buffer is cleared and no slot lies in it. *)
Theorem command_slots t s : MCAS s = None -> 0 <= phys t -> phys t + SIZE_TARGET < 2 ^ 64 ->
  wp (init_process checks (Some t)) (fun s' m => target m = t /\ MCAS s' = Some m /\
    csr s' !! RD_BUFF = Some (place t (virt (read m))) /\ csr s' !! WR_BUFF = Some (place t (virt (write m))) /\
    (forall i, 0 <= i < 512 -> in_target t (write_slot m i + 56) /\ in_target t (read_slot m i + 56)) /\
    (forall i j, 0 <= i < 512 -> 0 <= j < 512 ->
      write_slot m i + 64 <= read_slot m j /\
      (i < j -> write_slot m i + 128 <= write_slot m j /\ read_slot m i + 128 <= read_slot m j)) /\
    (forall q, phys t <= q < phys t + (SIZE_TARGET - SIZE_READ - SIZE_WRITE) -> memory s' q = 0) /\
    (forall i, 0 <= i -> phys t + (SIZE_TARGET - SIZE_READ - SIZE_WRITE) <= place t (write_slot m i))) s.
Proof.
  intros Hm Hp0 Hp. unfold init_process. wp_go. rewrite Hm. eapply wp_bind, wp_unwrap; [reflexivity|].
  assert (SIZE_TARGET = 67108864 /\ SIZE_READ = 65536 /\ SIZE_WRITE = 65536) as (ET & ER & EW) by done.
  apply wp_bind. unfold mcas_new, csr_set. rewrite ET in *. rewrite ER, EW.
  eapply wp_bind, wp_lift; [rewrite arith_ok by (unfold in_range; lia); apply arith_ok; unfold in_range; lia|].
  wp_go. eapply wp_lift; [apply arith_ok; unfold in_range; simpl; lia|]. wp_go.
  unfold in_target, read_slot, write_slot, slot, place. rewrite ET. cbn [target read write virt phys MCAS csr memory].
  split_and!; try done; try (intros; lia).
  - rewrite lookup_insert_ne, lookup_insert_eq by done. f_equal. lia.
  - rewrite lookup_insert_eq. f_equal. lia.
  - intros q Hq. rewrite (proj2 (Z.leb_le _ _)), (proj2 (Z.ltb_lt _ _)) by lia. done.
Qed.

(** [init_process] sets up the machine of the section above. *)
Lemma init_device t s : MCAS s = None -> 0 <= phys t -> phys t + SIZE_TARGET <= 2 ^ 52 -> (4096 | phys t) -> (4096 | virt t) ->
  wp (init_process checks (Some t)) (fun s' m => m = mcas_of t /\ ready t s' /\ entries s' = entries s /\
    (forall q, phys (write m) <= q -> memory s' q = memory s q) /\ forall a, word t a -> memory s' (place t a) = 0) s.
Proof.
  intros Hm Hp0 Hp Ha Hv. unfold init_process. wp_go. rewrite Hm. eapply wp_bind, wp_unwrap; [reflexivity|].
  destruct sizes as (ET & ER & EW). change (2 ^ 52) with 4503599627370496 in Hp.
  apply wp_bind. unfold mcas_new, csr_set. rewrite ET in *. rewrite ER, EW.
  eapply wp_bind, wp_lift; [rewrite arith_ok by (unfold in_range; lia); apply arith_ok; unfold in_range; lia|].
  wp_go. eapply wp_lift; [apply arith_ok; unfold in_range; simpl; lia|]. wp_go.
  split; [done|]. split; [|split; [done|]].
  - split; cbn [csr MCAS]; [done|by rewrite lookup_insert_ne, lookup_insert_eq by done|by rewrite lookup_insert_eq| |done].
    rewrite ET. change (2 ^ 52) with 4503599627370496. lia.
  - cbn [memory]. split.
    + intros q Hq. cbn [mcas_of phys write] in Hq. rewrite (proj2 (Z.ltb_ge _ _)) by lia. by rewrite andb_false_r.
    + intros a (_ & H1 & H2). unfold place. rewrite ET, ER, EW in H2. rewrite (proj2 (Z.leb_le _ _)), (proj2 (Z.ltb_lt _ _)) by lia. done.
Qed.
End init.

(** ** Concrete runs *)
Module Runs.
Definition buffer : Buffer := mkBuffer (2 ^ 32) (2 ^ 40).
Definition none : Entry := mkEntry 0 0 0 0.
Definition cold : Hw := mkHw ∅ (fun _ => 9) (fun _ => none) None 3.
Definition hot : Hw := match init_process true (Some buffer) cold with Done (s, _) => s | _ => cold end.

Lemma command_slots_witness :
  wp (init_process true (Some buffer)) (fun s' m => memory s' (2 ^ 32) = 0 /\ in_target buffer (read_slot m 511 + 56)) cold.
Proof.
  eapply wp_conseq; [apply (command_slots true buffer cold); [reflexivity|discriminate|reflexivity]|].
  intros s' m (_ & _ & _ & _ & Hin & _ & Hz & _). split; [apply Hz; vm_compute; intuition discriminate|apply Hin; lia].
Defined.

Lemma hot_start : MCAS hot = Some (mcas_of buffer) /\ ready buffer hot /\ entries hot = (fun _ => none) /\
  (forall q, phys (write (mcas_of buffer)) <= q -> memory hot q = 9) /\ forall a, word buffer a -> value buffer hot a = 0.
Proof.
  pose proof (init_device true buffer cold eq_refl ltac:(discriminate) ltac:(vm_compute; discriminate)
    ltac:(by exists (2 ^ 20)) ltac:(by exists (2 ^ 28))) as H.
  unfold hot. unfold wp in H. destruct (init_process true (Some buffer) cold) as [[s m]| | |]; [|done..].
  destruct H as (-> & Hr & He & Hm & Hz). split; [apply (rd_mcas _ _ Hr)|]. split_and!; [done|done| |done]. intros q Hq. by rewrite Hm.
Qed.

Definition start : conf := mkConf hot (fun _ => MIdle).

Lemma start_clean : clean buffer start.
Proof.
  destruct hot_start as (_ & Hr & He & Hm & _). split; cbn [hw pcs start]; [done|done|by rewrite He|].
  intros i Hi. rewrite Hm; [done|]. destruct (buffers_aligned buffer hot Hr) as (k & _ & _ & _ & -> & ->). unfold slot, served in *. lia.
Qed.

Definition cell : Z := 2 ^ 40 + 128.

Lemma word_cell : word buffer cell.
Proof. split; [by exists (2 ^ 33 + 1)|]. vm_compute. split; discriminate. Qed.

(** Threads 3 and 5 both expect 0 in the same atomic, and both read it; thread 5
    is answered first, and the command of thread 3 is cancelled. *)
Definition next_of (f : Z -> mpc) (i : Z) (s : Hw) : list Event * conf :=
  let m := mcas_of buffer in
  match f i with
  | MIdle => ([], mkConf (send m i 0 i (place buffer cell) s) (<[i := MSent cell 0 i]> f))
  | MSent a old new => let q := ask m i s in ([], mkConf (fst q) (<[i := MAsked a old new (fst (snd q)) (snd (snd q))]> f))
  | MAsked a old new tag q => ([], mkConf s (<[i := MRead a old new tag (read_memory q s)]> f))
  | MRead a old new tag d => let r := read_respond tag d s in ([mkEvent i a old new (answer (snd r))], mkConf (fst r) (<[i := MIdle]> f))
  end.
Fixpoint run_of (l : list Z) (c : conf) : list Event * conf :=
  match l with
  | [] => ([], c)
  | i :: l => let x := next_of (pcs c) i (hw c) in let y := run_of l (snd x) in (fst x ++ fst y, snd y)
  end.

Lemma next_of_step c i : ready buffer (hw c) -> served i -> mstep true buffer c (fst (next_of (pcs c) i (hw c))) (snd (next_of (pcs c) i (hw c))).
Proof.
  destruct c as [s f]. cbn [hw pcs]. intros Hr Hi. unfold next_of. destruct (f i) as [|a old new|a old new tag q|a old new tag d] eqn:Ef; cbn [fst snd].
  - apply (step_send true buffer i cell 0 i _ s f (mcas_of buffer)); [done|exact word_cell|done|apply (rd_mcas _ _ Hr)|].
    by apply (virt_to_phys_ok true buffer s cell Hr), word_in_target, word_cell.
  - eapply (step_ask true buffer i a old new s _ f (mcas_of buffer)); [done|apply (rd_mcas _ _ Hr)|]. by destruct (ask _ i s) as [s' [tag q]].
  - by apply (step_memory true buffer i a old new).
  - eapply (step_respond true buffer i a old new s _ f tag d); [done|]. by destruct (read_respond tag d s).
Qed.

Lemma run_of_reach l c0 h c : clean buffer c0 -> mreach true buffer c0 h c -> Forall served l ->
  mreach true buffer c0 (h ++ fst (run_of l c)) (snd (run_of l c)).
Proof.
  intros Hc Hr Hl. revert h c Hr. induction Hl as [|i l Hi _ IH]; intros h c Hr; cbn; [by rewrite app_nil_r|].
  rewrite app_assoc. apply IH. eapply reach_step; [exact Hr|]. apply next_of_step; [|done].
  apply (inv_ready _ _ (proj1 (mreach_ok true buffer c0 h c (value buffer (hw c0)) (clean_inv _ _ Hc) ltac:(done) Hr))).
Qed.

Definition race : list Z := [3; 3; 5; 5; 3; 5; 5; 3].


(** The bound of [Sequential::new_mcas] is the end of the buffer, not the start
    of the command slots: a region of 66.5 MB passes and covers those of 401 threads. *)
Lemma sequential_over_commands id :
  match (m <- init_process true (Some buffer) ;; q <- seq_new_mcas true (Some buffer) 541824 id 66560000 ;; ret (m, q)) cold with
  | Done (_, (m, Region.Mcas _ a z)) => a <= write_slot m 0 /\ read_slot m 400 + 64 <= a + z
  | _ => False
  end.
Proof. vm_compute. split; discriminate. Qed.

(** A store of thread 32, the first that the controller does not see. *)
Lemma thread_32_spins fuel : store_loop true fuel cell 0 5 (set_thread 32 hot) = Diverge.
Proof.
  destruct hot_start as (_ & Hr & _ & Hm & _).
  apply (unserved_store_spins true buffer 32 fuel cell 5 0); [by apply (ready_eq buffer hot)|exact word_cell|lia|done|].
  change (memory hot (phys (read (mcas_of buffer)) + slot 32 + 8) <> 1). rewrite Hm; [done|].
  destruct (buffers_aligned buffer hot Hr) as (k & _ & _ & _ & -> & ->). unfold slot. lia.
Qed.
End Runs.
