(* ===== verification/Crash.v ===== *)
(** * Crash: crash injection (crash/src/lib.rs)

    A crash point is named; [run] arms one for the thread, optionally only when
    given functions are on the stack, executes a closure and checks that it
    crashed there. The stack trace is the list of frames from the innermost one
    out, each with the names of its symbols ([None] for a symbol without one);
    names are lists of bytes. *)

From Stdlib Require Import ZArith Lia Bool.
From stdpp Require Import base numbers option gmap sets list.
From S2P Require Import Prelude.
Local Open Scope Z_scope.
Local Open Scope prog_scope.

Abbreviation name := (list Z).
Abbreviation Frame := (list (option name)).

Record Dynamic := mkDynamic { stack : list name; point : name }.

#[export] Instance Dynamic_eq_dec : EqDecision Dynamic.
Proof. solve_decision. Defined.

(** [str::starts_with]. *)
Definition starts_with (s p : name) : bool := bool_decide (take (length p) s = p).

(** [resolve_frame]: the last symbol with a name is left in the buffer, which
    keeps its contents when there is none. *)
Definition resolve_frame (buffer : name) (f : Frame) : name :=
  foldl (fun b s => default b s) buffer f.

(** [backtrace::trace] with the closure of [matches]; the functions not matched
    yet are returned. *)
Fixpoint trace (stack : list name) (buffer : name) (frames : list Frame) : list name :=
  match stack, frames with
  | [], _ => []
  | _, [] => stack
  | next :: rest, f :: frames =>
      let buffer := resolve_frame buffer f in
      trace (if starts_with buffer next then rest else stack) buffer frames
  end.

Definition matches (d : Dynamic) (p : name) (frames : list Frame) : bool :=
  if bool_decide (point d <> p) then false
  else match stack d with
       | [] => true
       | _ => match trace (rev (stack d)) [] frames with [] => true | _ => false end
       end.

(** What a panic carries: an injected crash, or anything else. *)
Inductive Payload := Injected (d : Dynamic) | Other (message : name).

(** [define!]: the state is the thread's [LOCAL]. *)
Definition define (p : name) (frames : list Frame) : M (option Dynamic) (Payload + unit) :=
  l <- gets id ;;
  match l with
  | Some d => if matches d p frames then err (Injected d) else ok tt
  | None => ok tt
  end.

(** [run]; the closure ends in a value or unwinds with a payload. *)
Definition run (crash : Dynamic) (closure : M (option Dynamic) (Payload + unit)) : M (option Dynamic) unit :=
  let expected := crash in
  modify (fun _ => Some crash) ;;;
  r <- closure ;;
  match r with
  | inr _ => panic
  | inl (Injected actual) => if bool_decide (actual = expected) then modify (fun _ => None) else panic
  | inl (Other _) => panic
  end.

(** [assert_coverage] over the two distributed slices; [Vec::is_empty] of the
    sorted differences. *)
Definition difference (a b : list name) : list name := filter (fun x => x ∉ b) a.
Definition assert_coverage (defined covered : list name) : outcome unit :=
  match difference defined covered, difference covered defined with
  | [], [] => Done tt
  | _, _ => Panic
  end.

(** ** The reference definition of the stack filter *)

(** The names the frames resolve to. *)
Fixpoint resolved (buffer : name) (frames : list Frame) : list name :=
  match frames with
  | [] => []
  | f :: frames => let b := resolve_frame buffer f in b :: resolved b frames
  end.

(** [fs] are called in this order, with any other calls in between: each is the
    prefix of one of the names, in order. *)
Inductive embeds : list name -> list name -> Prop :=
  | embeds_nil l : embeds [] l
  | embeds_take f fs x l : starts_with x f = true -> embeds fs l -> embeds (f :: fs) (x :: l)
  | embeds_skip fs x l : embeds fs l -> embeds fs (x :: l).

Lemma embeds_tail f fs l : embeds (f :: fs) l -> embeds fs l.
Proof.
  revert f fs. induction l as [|x l IH]; intros f fs H; inversion H; subst; [by constructor|].
  constructor. by eapply IH.
Qed.

(** Taking the first match is as good as any choice. *)
Lemma trace_embeds frames : forall fs buffer, trace fs buffer frames = [] <-> embeds fs (resolved buffer frames).
Proof.
  induction frames as [|f frames IH]; intros [|g fs] buffer; simpl.
  - split; [constructor|done].
  - split; [done|by inversion 1].
  - split; [constructor|done].
  - rewrite IH. destruct (starts_with (resolve_frame buffer f) g) eqn:E.
    + split; [by constructor|]. intros H. inversion H; subst; [assumption|by eapply embeds_tail].
    + split; [by constructor|]. intros H. inversion H; subst; [congruence|assumption].
Qed.

(** ** Properties *)

(** the stack filter of a crash point. [Dynamic::matches], which walks the
    trace once and takes the first frame that fits each function, answers true
    exactly when the point has the given name and the functions of the filter
    occur in the trace as a subsequence, outermost first. *)
Theorem matches_subsequence d p frames :
  matches d p frames = true <-> point d = p /\ embeds (rev (stack d)) (resolved [] frames).
Proof.
  unfold matches. case_bool_decide as Hp.
  - split; [discriminate|]. intros [E _]. by destruct Hp.
  - assert (point d = p) as Ep by (destruct (decide (point d = p)); done). rewrite <- trace_embeds.
    destruct (stack d) as [|f fs]; [by destruct frames|]. destruct (trace _ [] frames); naive_solver.
Qed.

(** A closure that passes crash points in order. *)
Fixpoint passes (l : list (name * list Frame)) : M (option Dynamic) (Payload + unit) :=
  match l with
  | [] => ok tt
  | (p, frames) :: l => r <- define p frames ;; match r with inl e => err e | inr _ => passes l end
  end.

Lemma passes_spec l d :
  passes l (Some d) = Done (Some d, if existsb (fun x => matches d (fst x) (snd x)) l then inl (Injected d) else inr tt).
Proof.
  induction l as [|[p fr] l IH]; [done|]. cbn [passes existsb fst snd]. unfold define. unfold bind at 1 2. cbn [gets obind fst snd id].
  destruct (matches d p fr); [done|]. exact IH.
Qed.

(** [run] succeeds exactly when an armed point is passed, and disarms it. *)
Lemma run_passes l d s :
  run d (passes l) s = if existsb (fun x => matches d (fst x) (snd x)) l then Done (None, tt) else Panic.
Proof.
  unfold run, bind, modify. simpl. rewrite passes_spec. destruct (existsb _ l); simpl; [|done].
  by rewrite bool_decide_eq_true_2.
Qed.

Lemma difference_nil a b : difference a b = [] <-> forall x, x ∈ a -> x ∈ b.
Proof.
  unfold difference. split.
  - intros E x Hx. destruct (decide (x ∈ b)) as [|Hn]; [done|]. exfalso.
    assert (x ∈ filter (fun x => x ∉ b) a) as H by (by apply list_elem_of_filter). rewrite E in H. by apply not_elem_of_nil in H.
  - intros H. destruct (filter _ a) as [|y l] eqn:E; [done|]. exfalso.
    assert (y ∈ filter (fun x => x ∉ b) a) as Hy by (rewrite E; left). apply list_elem_of_filter in Hy as [Hn Hy]. auto.
Qed.

(** Coverage means that the same points are defined and covered. *)
Lemma assert_coverage_spec defined covered :
  assert_coverage defined covered = Done tt <-> forall x, x ∈ defined <-> x ∈ covered.
Proof.
  unfold assert_coverage. pose proof (difference_nil defined covered) as H1. pose proof (difference_nil covered defined) as H2.
  destruct (difference defined covered) eqn:E1, (difference covered defined) eqn:E2; naive_solver.
Qed.

(** The tests of the crate. *)
Module Runs.
Definition a : name := [97].
Definition b : name := [98].
Definition c : name := [99].
Definition p1 : name := [49].
Definition call (l : list name) : list (name * list Frame) := [(p1, (fun f => [Some f]) <$> l)].

Example stack_match_parent : run (mkDynamic [b] p1) (passes (call [a; b])) None = Done (None, tt).
Proof. reflexivity. Qed.
Example stack_no_match : run (mkDynamic [b] p1) (passes (call [a; c])) None = Panic.
Proof. reflexivity. Qed.
Example stack_match_all : run (mkDynamic [c; b; a] p1) (passes (call [a; b; c])) None = Done (None, tt).
Proof. reflexivity. Qed.

(** A frame without a name counts as a second occurrence of the frame below. *)
Example nameless_frame_matches_again : matches (mkDynamic [b; b] p1) p1 [[Some b]; []] = true.
Proof. reflexivity. Qed.
End Runs.
