(* ===== verification/Global.v ===== *)
(** * Global: the process-wide interface (cxlalloc-global/src/lib.rs)

    The same process as in [Capi], used from Rust: the thread id is kept as the
    integer given to [initialize_thread] and turned into an [Id] at use, and
    the thread's allocator is created at once. [Capi]'s operations and these
    agree ([interfaces_agree]). *)

From Stdlib Require Import ZArith Lia Bool.
From stdpp Require Import base numbers option gmap list.
From S2P Require Import Prelude Data Cas HeapInv HeapSys Huge Allocator AllocSys Recover Stat Shm Region RawHeap Capi.
Local Open Scope Z_scope.
Local Open Scope prog_scope.

Section global.
Context (os : Os) (cfg : Cfg) (populate : option Populate) (shared_types owned_types : Lay * list Lay).
Context {IV : IntervalSet}.

(** [cxlalloc::thread::Id::new(THREAD_ID.get())]; [THREAD_ID] starts at 0. *)
Definition current_id (t : Z) : M CProc Z :=
  u <- gets (fun s => default 0 (cp_ids s !! t)) ;;
  lift (id_new u).

(** [with]. *)
Definition with_ {A} (t : Z) (f : Raw -> Z -> M AllocS A) : M CProc A := with_allocator_as os cfg populate (current_id t) t f.

(** [initialize_process], for a builder with these settings over the backend of
    the address space; the signal handler is installed by every call. *)
Definition initialize_process (numa : option Numa) (name : list Z)
    (size_small size_large : Z) (free : bool) : M CProc unit :=
  r <- gets cp_raw ;;
  match r with
  | Some _ => ret tt
  | None =>
      x <- on_proc (zoom_vm (raw_new os cfg numa populate shared_types owned_types name size_small size_large free)) ;;
      match x with
      | inl _ => panic
      | inr r => modify (put_raw (Some (r, numa)))
      end
  end ;;;
  modify (put_segv false).

Definition initialize_thread (t id : Z) : M CProc unit :=
  modify (put_id t id) ;;;
  with_ t (fun _ _ => ret tt).

Definition allocate_untyped (t size : Z) : M CProc (option Z) := with_ t (op_malloc cfg size).

Definition deallocate_untyped (t : Z) (p : option Z) : M CProc unit :=
  match p with
  | None => ret tt
  | Some p => with_ t (fun r id =>
      free_untyped cfg (seq_address (data_small r)) (seq_address (data_large r)) (rd_reservation (data_huge r)) id p)
  end.

Definition pointer_to_offset (t p : Z) : M CProc Z :=
  with_ t (fun r _ => lift (api_pointer_to_offset cfg (seq_address (data_small r)) p)).

Definition offset_to_pointer (t o : Z) : M CProc Z :=
  with_ t (fun r _ => ret (api_offset_to_pointer (seq_address (data_small r)) o)).

Definition is_clean : M CProc bool := rn <- raw ;; ret (raw_is_clean (fst rn)).

Definition set_root_untyped (t index : Z) (root : option Z) : M CProc unit :=
  with_ t (fun r _ => Allocator.set_root_untyped (seq_address (data_small r)) index root).

Definition root_untyped (t index : Z) : M CProc (option Z) :=
  with_ t (fun r _ => Allocator.root_untyped (seq_address (data_small r)) index).

(** [report_process]: the counters that are not zero. *)
Definition report_process : M CProc (list Report) :=
  _ <- raw ;;
  gets (fun s => filter (fun e => 0 < rp_count e) (process_report (pr_stat (cp_proc s)))).

Definition handle_sigsegv (t address : Z) : M CProc unit :=
  rn <- raw ;;
  let '(r, numa) := rn in
  id <- current_id t ;;
  b <- on_proc (raw_map os cfg numa populate r id address) ;;
  if (b : bool) then ret tt else modify (put_segv true).
End global.

(** ** Properties *)
Section agree.
Context (os : Os) (cfg : Cfg) (populate : option Populate) {IV : IntervalSet}.

(** What a caller and the heap can tell apart: everything but the way the thread
    id is kept. *)
Definition observe {A} (o : outcome (CProc * A)) : outcome (option (Raw * option Numa) * Proc * gmap Z Z * bool * A) :=
  obind o (fun p => Done (cp_raw (fst p), cp_proc (fst p), cp_allocs (fst p), cp_default_segv (fst p), snd p)).

(** Two states with the same heap, process and allocators. *)
Definition alike (s c : CProc) : Prop :=
  cp_raw s = cp_raw c /\ cp_proc s = cp_proc c /\ cp_allocs s = cp_allocs c /\ cp_default_segv s = cp_default_segv c.

Lemma on_proc_alike {A} (m : M Proc A) s c : alike s c -> observe (on_proc m s) = observe (on_proc m c).
Proof.
  intros (H1 & H2 & H3 & H4). unfold observe, on_proc. rewrite H2. destruct (m (cp_proc c)) as [[]| | |]; simpl; [|done..].
  by rewrite H1, H3, H4.
Qed.

(** An allocator that exists does not depend on the thread id. *)
Lemma with_existing {A} tid tid' t id (f : Raw -> Z -> M AllocS A) s c : alike s c -> cp_allocs c !! t = Some id ->
  observe (with_allocator_as os cfg populate tid t f s) = observe (with_allocator_as os cfg populate tid' t f c).
Proof.
  intros Hal Hid. pose proof Hal as (H1 & H2 & H3 & H4). unfold with_allocator_as, raw, bind, gets. simpl. rewrite H3, H1, Hid.
  destruct (cp_raw c) as [[r numa]|]; simpl; [|done]. by apply on_proc_alike.
Qed.

(** Using an allocator once and then again is using it for both. *)
Lemma run_alloc_ret r numa p : run_alloc os cfg populate r numa (ret tt) p = Done (p, tt).
Proof.
  unfold run_alloc, bind, gets, zoom_alloc, zoom_vm. simpl. rewrite new_calls_same. simpl. by destruct p.
Qed.

Lemma on_proc_ret r numa s : on_proc (run_alloc os cfg populate r numa (ret tt)) s = Done (s, tt).
Proof. unfold on_proc. rewrite run_alloc_ret. simpl. by destruct s. Qed.

Lemma id_new_ok id : 0 <= id < 512 -> id_new id = Done (id + 1).
Proof.
  intros H. unfold id_new, COUNT_THREAD. change (wrap 16 512) with 512. unfold wrap.
  rewrite (proj2 (Z.ltb_lt _ _)), Z.mod_small by lia. done.
Qed.

Lemma current_id_put t id c : 0 <= id < 512 -> current_id t (put_id t id c) = Done (put_id t id c, id + 1).
Proof.
  intros H. unfold current_id, bind, gets, lift. cbn [obind fst snd put_id cp_ids]. rewrite lookup_insert_eq.
  unfold default, from_option, Datatypes.id. by rewrite (id_new_ok id H).
Qed.

Lemma thread_id_put t id c : thread_id t (put_id t id c) = Done (put_id t id c, id).
Proof. unfold thread_id, gets. cbn [put_id cp_ids]. by rewrite lookup_insert_eq. Qed.

(** The first use of a thread whose id is known. *)
Lemma with_first {A} tid t id (f : Raw -> Z -> M AllocS A) r numa c :
  cp_raw c = Some (r, numa) -> cp_allocs c !! t = None -> tid c = Done (c, id) ->
  with_allocator_as os cfg populate tid t f c =
  obind (on_proc (run_alloc os cfg populate r numa (
      modify (fun a => put_huge (put_halloc id halloc_default (al_huge a)) a) ;;; alloc_focus cfg (seq_address (data_small r)) id true)) c)
    (fun p => on_proc (run_alloc os cfg populate r numa (f r id)) (put_alloc t id (fst p))).
Proof.
  intros Hr Ha Ht. unfold with_allocator_as, raw. unfold bind at 1 2 3. cbn [gets obind fst snd]. rewrite Hr. cbn [unwrap ret obind fst snd].
  rewrite Ha. unfold bind at 1 2. rewrite Ht. cbn [obind fst snd]. unfold bind at 1.
  destruct (on_proc _ c) as [[c1 x]| | |]; cbn [obind fst snd]; done.
Qed.

(** the two interfaces agree. A thread that calls [initialize_thread] and then
    any operation of the global interface gets the same result, and leaves the
    same heap and address space, as one that calls [cxlalloc_init_thread] and
    the operation of the C interface, whether or not the thread was used before
    and whether or not the operation fails. *)
Theorem interfaces_agree {A} t id (f : Raw -> Z -> M AllocS A) c : 0 <= id < 512 ->
  observe ((initialize_thread os cfg populate t id ;;; with_ os cfg populate t f) c) =
  observe ((cxlalloc_init_thread t id ;;; with_allocator os cfg populate t f) c).
Proof.
  intros Hid. unfold initialize_thread, cxlalloc_init_thread, with_, with_allocator. unfold bind at 1 2 3 4. rewrite (id_new_ok id Hid).
  cbn [lift modify obind fst snd]. set (s := put_id t id c). set (d := put_id t (id + 1) c).
  destruct (cp_raw c) as [[r numa]|] eqn:Hr.
  2: { unfold with_allocator_as, raw. unfold bind. cbn [gets obind fst snd]. assert (cp_raw s = None) as -> by done.
       assert (cp_raw d = None) as -> by done. done. }
  pose proof (current_id_put t id c Hid) as E1. pose proof (thread_id_put t (id + 1) c) as E2. fold s in E1. fold d in E2.
  destruct (cp_allocs c !! t) as [k|] eqn:Ha.
  - assert (with_allocator_as os cfg populate (current_id t) t (fun _ _ => ret tt) s = Done (s, tt)) as ->.
    { unfold with_allocator_as, raw. unfold bind. cbn [gets obind fst snd]. assert (cp_raw s = Some (r, numa)) as -> by done.
      assert (cp_allocs s !! t = Some k) as -> by done. cbn [unwrap ret obind fst snd]. apply on_proc_ret. }
    cbn [obind fst snd]. by apply (with_existing _ _ _ k).
  - rewrite (with_first (current_id t) t (id + 1) _ r numa s), (with_first (thread_id t) t (id + 1) f r numa d) by done.
    unfold on_proc at 1 3. assert (cp_proc s = cp_proc c /\ cp_proc d = cp_proc c) as [-> ->] by done.
    destruct (run_alloc _ _ _ _ _ _ (cp_proc c)) as [[p1 x]| | |]; cbn [obind fst snd]; [|done..].
    rewrite on_proc_ret. cbn [obind fst snd]. set (s2 := put_alloc t (id + 1) (put_proc p1 s)).
    unfold with_allocator_as, raw. unfold bind. cbn [gets obind fst snd]. assert (cp_raw s2 = Some (r, numa)) as -> by done.
    assert (cp_allocs s2 !! t = Some (id + 1)) as -> by (unfold s2, put_alloc; cbn [cp_allocs]; apply lookup_insert_eq).
    cbn [unwrap ret obind fst snd]. by apply on_proc_alike.
Qed.
End agree.

Module Runs.
#[local] Existing Instance IntervalList.intervals.

Lemma interfaces_agree_witness :
  observe ((initialize_thread RawHeap.Runs.os Capi.Runs.cfg None 7 3 ;;; allocate_untyped RawHeap.Runs.os Capi.Runs.cfg None 7 100)
    (mkCProc (Some (RawHeap.Runs.r0, None)) RawHeap.Runs.p0 ∅ ∅ false)) =
  observe ((cxlalloc_init_thread 7 3 ;;; cxlalloc_malloc RawHeap.Runs.os Capi.Runs.cfg None 7 100)
    (mkCProc (Some (RawHeap.Runs.r0, None)) RawHeap.Runs.p0 ∅ ∅ false)).
Proof.
  apply (interfaces_agree RawHeap.Runs.os Capi.Runs.cfg None 7 3 (op_malloc Capi.Runs.cfg 100)). split; [discriminate|reflexivity].
Defined.

(** The shared heap is found through its root. *)
Example root_found :
  match (initialize_thread RawHeap.Runs.os Capi.Runs.cfg None 7 3 ;;;
    p <- allocate_untyped RawHeap.Runs.os Capi.Runs.cfg None 7 100 ;;
    set_root_untyped RawHeap.Runs.os Capi.Runs.cfg None 7 2 p ;;;
    q <- root_untyped RawHeap.Runs.os Capi.Runs.cfg None 7 2 ;; ret (p, q)) Capi.Runs.ready with
  | Done (_, (Some p, Some q)) => p = q
  | _ => False
  end.
Proof. vm_compute. reflexivity. Qed.
End Runs.
