(* ===== verification/ShmObject.v ===== *)
(** * ShmObject: named shared objects and barriers (extern/shm/src/raw.rs,
    lib.rs and barrier.rs)

    [Raw] maps one named shared-memory object; [Shm<T>] is a [Raw] with room for
    a [T]; a [Barrier] is a pthread barrier in one. With [create] a stale object
    of the name is removed first. The pthread functions are the C library's:
    the record [Pthread] holds their return codes. *)

From Stdlib Require Import ZArith Lia Bool String.
From stdpp Require Import base numbers option gmap functions strings list.
From S2P Require Import Prelude Text Shm.
Local Open Scope Z_scope.
Local Open Scope prog_scope.
Local Open Scope res_scope.

Record Obj := mkObj { ob_name : list Z; ob_size : Z; ob_address : Z }.

(** Return codes, by the number of system calls made. *)
Record Pthread := mkPthread {
  barrierattr_init : nat -> Z;
  barrierattr_setpshared : nat -> Z;
  barrier_init : nat -> Z -> Z;
  barrierattr_destroy : nat -> Z;
  barrier_wait : nat -> Z;
  barrier_destroy : nat -> Z;
}.
Definition PTHREAD_BARRIER_SERIAL_THREAD : Z := -1.

Section objects.
Context (os : Os) (dbg : bool) (pt : Pthread).
Abbreviation R A := (M Vm (Error + A)).

(** [Raw::new]. *)
Definition raw_new (name : list Z) (size : Z) (create_ : bool) (numa : option Numa) (populate : option Populate) : R Obj :=
  _ <?- (if create_ then
           r <- with_path name (shm_unlink os) ;;
           match r with
           | inr _ => ok tt
           | inl e => if is_not_found e then ok tt else err e
           end
         else ok tt) ;;
  assert_ (negb (size =? 0)) ;;;
  file <?- shm_backend_open os name size ;;
  address <?- file_map os dbg file None numa populate ;;
  ok (mkObj name size address).

Definition raw_unlink (o : Obj) : R unit := with_path (ob_name o) (shm_unlink os).

(** [Drop for Raw]. *)
Definition raw_drop (o : Obj) : M Vm unit :=
  r <- unmap_range os (ob_address o) (ob_size o) ;;
  match r with inr _ => ret tt | inl _ => panic end.

(** [Shm::new] for a type of the given size. *)
Definition shm_size (size_of : Z) : Z := next_multiple_of size_of PAGE.
Definition shm_new (size_of : Z) (numa : option Numa) (name : list Z) (create_ : bool) (populate : option Populate) : R Obj :=
  raw_new name (shm_size size_of) create_ numa populate.

(** [try_pthread!]. *)
Definition pthread (name : string) (code : nat -> Z) : R unit :=
  n <- gets calls ;;
  modify tick ;;;
  if code n =? 0 then ok tt else err (Libc name (code n)).

(** [?] after the object exists: it is dropped on the way out. *)
Definition or_drop {A} (o : Obj) (m : R A) : R A :=
  r <- m ;;
  match r with inr x => ok x | inl e => raw_drop o ;;; err e end.

(** [Barrier::new]. *)
Definition barrier_new (size_of : Z) (name : list Z) (create_ : bool) (thread_count : Z) : R Obj :=
  inner <?- shm_new size_of None name create_ None ;;
  _ <?- (if create_ then
           or_drop inner (
             _ <?- pthread "pthread_barrierattr_init" (barrierattr_init pt) ;;
             _ <?- pthread "pthread_barrierattr_setpshared" (barrierattr_setpshared pt) ;;
             _ <?- pthread "pthread_barrier_init" (fun n => barrier_init pt n thread_count) ;;
             n <- gets calls ;;
             modify tick ;;;
             assert_ (barrierattr_destroy pt n =? 0) ;;;
             ok tt)
         else ok tt) ;;
  ok inner.

(** [Barrier::wait]: true for one thread of each round. *)
Definition barrier_wait_ : R bool :=
  n <- gets calls ;;
  modify tick ;;;
  if barrier_wait pt n =? PTHREAD_BARRIER_SERIAL_THREAD then ok true
  else if barrier_wait pt n =? 0 then ok false
  else err (Libc "pthread_barrier_wait" (barrier_wait pt n)).

Definition barrier_unlink (o : Obj) : R unit :=
  _ <?- pthread "pthread_barrier_destroy" (barrier_destroy pt) ;;
  raw_unlink o.
End objects.

(** ** Properties *)
Section props.
Context (os : Os) (Hos : os_fine os) (Hun : forall n, os_shm_unlink os n = None) (dbg : bool).

(** A path without nul bytes. *)
Lemma wp_with_path {A} name (f : list Z -> M Vm (Error + A)) (Q : Vm -> Error + A -> Prop) s :
  (forall c, c ∈ name -> c <> 0) -> (length name < 62)%nat ->
  wp (f (47 :: name)) (fun s' r => match r with
    | inr x => Q s' (inr x)
    | inl (Libc n e) => forall p, Q s' (inl (ShmError p n e))
    | inl _ => False end) s ->
  wp (with_path name f) Q s.
Proof.
  intros Hn Hl Hf. unfold with_path, MAX_LEN. destruct (Z.ltb_spec 62 (Z.of_nat (length name))); [lia|].
  assert (exists n, (Z.to_nat 62 - length name = S n)%nat) as [n ->] by (exists (61 - length name)%nat; lia).
  change (47 :: name ++ replicate (S n) 0) with ((47 :: name) ++ replicate (S n) 0).
  rewrite until_nul_app by (intros c [->|Hc]%elem_of_cons; [lia|by apply Hn]).
  eapply wp_bind, wp_unwrap; [reflexivity|]. apply wp_bind. eapply wp_conseq; [exact Hf|].
  intros s' [[| |m e]|x] HQ; [done|done| |by apply wp_ret]. eapply wp_bind, wp_unwrap; [reflexivity|]. apply wp_ret. apply HQ.
Qed.

(** After the stale object is removed the name is free. *)
Lemma unlink_frees name s : (forall c, c ∈ name -> c <> 0) -> (length name < 62)%nat ->
  wp (r <- with_path name (shm_unlink os) ;; match r with inr _ => ok tt | inl e => if is_not_found e then ok tt else err e end)
    (fun s' r => exists x : unit, r = inr x /\ same_space 1 s s' /\ objects s' !! (47 :: name) = None) s.
Proof.
  intros Hn Hl. apply wp_bind, wp_with_path; [done|done|]. unfold shm_unlink. wp_go. rewrite Hun. cbn [objects tick].
  destruct (objects s !! (47 :: name)) as [z|] eqn:E; unfold ok, err, same_space; wp_go.
  - exists tt. split_and!; simpl; [done|done|done|lia|lia|]. apply lookup_delete_eq.
  - intros p. exists tt. split_and!; simpl; done || lia.
Qed.

(** Creating a named object gives a fresh one. With [create], whatever object
    the name had before, [Raw::new] removes it and returns an object of the
    requested size, made by this call and mapped from its first byte where it
    says; the absence of an older object is not an error. *)
Lemma object_create_fresh name size numa populate s :
  (forall c, c ∈ name -> c <> 0) -> (length name < 62)%nat -> 0 < size -> numa_fine dbg numa ->
  (forall n, (calls s <= n <= calls s + 3)%nat -> exists a, os_mmap os n None (next_multiple_of size PAGE) = inr a /\ 0 < a) ->
  wp (raw_new os dbg name size true numa populate) (fun s' r => exists o, r = inr o /\ ob_name o = name /\ ob_size o = size /\
    objects s' !! (47 :: name) = Some (next_multiple_of size PAGE) /\
    maps s' = mkMapping (ob_address o) (next_multiple_of size PAGE) (Opened (FdShm (47 :: name))) 0 :: maps s /\
    forall x, 0 <= x < size -> resolve s' (ob_address o + x) = Some (Opened (FdShm (47 :: name)), x)) s.
Proof.
  intros Hn Hl Hs Hnu Hplace. unfold raw_new. eapply wp_ebind_ok; [by apply unlink_frees|].
  intros s1 [] ((Hm1 & Hk1 & Hc1) & Ho1). apply wp_bind, wp_assert; [by rewrite (proj2 (Z.eqb_neq _ _)) by lia|].
  apply (wp_ebind_ok _ _ (fun s' f => same_space 2 s1 s' /\ f = mkFile (Some (FdShm (47 :: name))) (next_multiple_of size PAGE) 0 (create f) 0 None /\
    create f = true /\ objects s' !! (47 :: name) = Some (next_multiple_of size PAGE))).
  { eapply wp_conseq; [by apply shm_backend_open_spec|]. intros s2 r (f & -> & Hsp & Ef & Hcr & Hz). exists f. split_and!; [done|done|done|by apply Hcr|by apply Hz]. }
  intros s2 f ((Hm2 & Hk2 & Hc2) & Ef & _ & Ho2).
  destruct (Hplace (calls s2) ltac:(lia)) as (a & Ea & Ha).
  assert (fsize f = next_multiple_of size PAGE) as Esz by by rewrite Ef.
  apply (wp_ebind_ok _ _ (fun s' x => x = a /\ objects s' = objects s2 /\ maps s' = mkMapping a (fsize f) (backing_of f (calls s2)) (foffset f) :: maps s2)).
  { eapply wp_conseq; [apply (file_map_spec os Hos dbg f None a); [by rewrite Esz|done|done|done]|].
    intros s3 r (-> & _ & _ & Ho3 & Hm3). by exists a. }
  intros s3 a' (-> & Ho3 & Hm3). apply wp_ret. eexists. split; [done|]. cbn [ob_name ob_size ob_address].
  assert (maps s3 = mkMapping a (next_multiple_of size PAGE) (Opened (FdShm (47 :: name))) 0 :: maps s) as Em.
  { rewrite Hm3, Hm2, Hm1, Esz. f_equal. unfold backing_of. by rewrite Ef. }
  split_and!; [done|done|by rewrite Ho3|done|]. intros x Hx. unfold resolve. rewrite Em. cbn [List.find]. unfold covers at 1. cbn [m_addr m_size].
  pose proof (next_multiple_of_spec size PAGE ltac:(lia) eq_refl) as [Hge _].
  rewrite (proj2 (Z.leb_le _ _)), (proj2 (Z.ltb_lt _ _)) by lia. cbn [andb m_backing m_offset m_addr]. do 2 f_equal. lia.
Qed.
End props.
