(* ===== verification/StackConc.v ===== *)
(** * StackConc: the global stack of slabs under interleaving
    (cxlalloc/src/slab/stack.rs, [Global])

    Any number of threads push batches of slabs to the global stack and pop
    slabs from it. A step is one access to shared memory: drawing a version,
    loading the head, helping, reading or writing the [next] field of a slab
    (the closure of [Detectable::update]), and the compare-exchange. Between
    operations the threads write the [next] fields of the slabs they hold. The
    fragments are run on the heap state of [Slab]; executed without interference
    they are the operations of [Slab] ([push_is_steps], [pop_is_steps]). *)

From Stdlib Require Import ZArith Lia Bool.
From stdpp Require Import base numbers option gmap functions sets list.
From S2P Require Import Prelude Bitset Size Data Cas Slab Heap.
Local Open Scope Z_scope.
Local Open Scope prog_scope.

(** ** The machine *)

(** A push of the batch that starts at the first and ends at the last slab of a
    list; a pop. *)
Inductive op := Push (seg : list Z) | Pop.

(** Where a thread is. [Peeked] is the emptiness test of [Shared::pop]; the
    natural number is the count of successful compare-exchanges when the head
    was loaded (it is not part of the program). *)
Inductive tpc :=
| Idle
| Peeked (old : DState (option Z))
| Started (o : op) (v : Z)
| Loaded (o : op) (v : Z) (old : DState (option Z)) (n : nat)
| Helped (o : op) (v : Z) (old : DState (option Z)) (n : nat)
| Ready (o : op) (v : Z) (old : DState (option Z)) (n : nat) (new : option Z).

#[export] Instance op_eq_dec : EqDecision op.
Proof. solve_decision. Defined.
#[export] Instance tpc_eq_dec : EqDecision tpc.
Proof. solve_decision. Defined.

Section machine.
Context (cfg : Cfg) `{B : Bracket} `{IS : IntoState}.

(** The closures that [push] and [pop] give to [update]. *)
Definition push_next (hd tl : Z) (old : option Z) (version : Z) : M HS (option (option Z * HeapState)) :=
  set_local tl (set_next old) ;;;
  ret (Some (Some hd, UnsizedToGlobal hd version)).

Definition pop_next (old : option Z) (version : Z) : M HS (option (option Z * HeapState)) :=
  match old with
  | None => ret None
  | Some i =>
      l <- get_local i ;;
      ret (Some (next l, GlobalToUnsized i version))
  end.

(** The version of an [update], published in the thread's own slot. *)
Definition draw (j : Z) : M HS Z :=
  version <- gets (fun s => version_next (help_load (get_ctx s) j j)) ;;
  when_ (recover_cas cfg) (help_store j j version) ;;;
  ret version.

Definition op_next (o : op) (old : option Z) (version : Z) : M HS (option (option Z * HeapState)) :=
  match o with
  | Push [] => panic
  | Push (hd :: rest) => push_next hd (List.last rest hd) old version
  | Pop => pop_next old version
  end.

(** [c_held] are the slabs each thread holds: in its own stacks, or in use.
    [c_stamp] counts the writes to the head. *)
Record CS := mkCS {
  c_heap : HS;
  c_pc : Z -> tpc;
  c_held : Z -> gset Z;
  c_stamp : nat;
}.

Definition head_of (s : CS) : DState (option Z) := shared_free (hs_mem (c_heap s)).
Definition tag {T} (d : DState T) : option Z * Z := (d_id d, d_version d).

Definition at_pc (j : Z) (p : tpc) (s : CS) : CS := mkCS (c_heap s) (<[j := p]> (c_pc s)) (c_held s) (c_stamp s).
Definition on_heap (h : HS) (s : CS) : CS := mkCS h (c_pc s) (c_held s) (c_stamp s).

(** A fragment of a thread's program, and where the thread is afterwards. *)
Definition frag {A} (j : Z) (m : M HS A) (p : A -> tpc) (s : CS) : option CS :=
  match m (c_heap s) with
  | Done (h, a) => Some (at_pc j (p a) (on_heap h s))
  | _ => None
  end.

(** What a successful compare-exchange moves. *)
Definition moved (o : op) (old : DState (option Z)) (held : gset Z) : gset Z :=
  match o with
  | Push seg => held ∖ list_to_set seg
  | Pop => match d_inner old with Some i => {[i]} ∪ held | None => held end
  end.

(** The next access of a thread inside an operation. *)
Definition tick (j : Z) (s : CS) : option CS :=
  match c_pc s j with
  | Idle => None
  | Peeked old =>
      frag j (help cfg j old ;;; if decide (d_inner old = None) then ret None else (v <- draw j ;; ret (Some v)))
        (fun r => match r with Some v => Started Pop v | None => Idle end) s
  | Started o v => Some (at_pc j (Loaded o v (head_of s) (c_stamp s)) s)
  | Loaded o v old n => frag j (help cfg j old) (fun _ => Helped o v old n) s
  | Helped o v old n =>
      frag j (r <- op_next o (d_inner old) v ;;
              match r with
              | None => ret None
              | Some (new, log) => log_unsync cfg j log ;;; ret (Some new)
              end)
        (fun r => match r with Some new => Ready o v old n new | None => Idle end) s
  | Ready o v old n new =>
      if decide (head_of s = old) then
        let h := on_mem (put_free (mkD (Some j) v new)) (c_heap s) in
        Some (mkCS h (<[j := Idle]> (c_pc s)) (<[j := moved o old (c_held s j)]> (c_held s)) (S (c_stamp s)))
      else Some (at_pc j (Loaded o v (head_of s) (c_stamp s)) s)
  end.

Fixpoint linked (m : HeapMem) (seg : list Z) : Prop :=
  match seg with
  | a :: ((b :: _) as rest) => next (loc m a) = Some b /\ linked m rest
  | _ => True
  end.

#[export] Instance linked_dec m seg : Decision (linked m seg).
Proof.
  induction seg as [|a [|b rest] IH]; [left; done|left; done|].
  destruct (decide (next (loc m a) = Some b)); [|right; intros [? ?]; done].
  destruct IH; [left; done|right; intros [? ?]; done].
Defined.

Inductive action :=
| StartPush (seg : list Z)
| StartPop
| Tick
| Write (i : Z) (n : option Z)
| Give (k i : Z).

(** The slabs of a push in progress. *)
Definition pushing (p : tpc) : list Z :=
  match p with
  | Started (Push seg) _ | Loaded (Push seg) _ _ _ | Helped (Push seg) _ _ _ | Ready (Push seg) _ _ _ _ => seg
  | _ => []
  end.

(** An action of thread [j]. A push needs a linked batch of slabs the thread
    holds; [Write] is a store of the owner, [Give] hands a slab that the thread
    does not push to another one (a claim after remote frees). *)
Definition step (j : Z) (a : action) (s : CS) : option CS :=
  match a with
  | StartPush seg =>
      if decide (c_pc s j = Idle /\ seg <> [] /\ NoDup seg /\ Forall (fun i => i ∈ c_held s j) seg /\ linked (hs_mem (c_heap s)) seg)
      then frag j (draw j) (Started (Push seg)) s else None
  | StartPop => if decide (c_pc s j = Idle) then Some (at_pc j (Peeked (head_of s)) s) else None
  | Tick => tick j s
  | Write i n =>
      if decide (c_pc s j = Idle /\ i ∈ c_held s j)
      then Some (on_heap (on_mem (fun m => put_loc i (set_next n (loc m i)) m) (c_heap s)) s) else None
  | Give k i =>
      if decide (i ∈ c_held s j /\ i ∉ pushing (c_pc s j))
      then Some (mkCS (c_heap s) (c_pc s) (<[k := {[i]} ∪ (<[j := c_held s j ∖ {[i]}]> (c_held s)) k]> (<[j := c_held s j ∖ {[i]}]> (c_held s)))
                  (c_stamp s)) else None
  end.

Fixpoint exec (l : list (Z * action)) (s : CS) : option CS :=
  match l with
  | [] => Some s
  | (j, a) :: l => s' ← step j a s; exec l s'
  end.
End machine.

(** ** Invariant of the clean runs *)
Section safe.
Context (cfg : Cfg) `{B : Bracket} `{IS : IntoState}.

(** What a thread has loaded, and when. *)
Definition loaded (p : tpc) : option (DState (option Z) * nat) :=
  match p with
  | Loaded _ _ old n | Helped _ _ old n | Ready _ _ old n _ => Some (old, n)
  | _ => None
  end.

(** What the closure has done for a compare-exchange that may still succeed. *)
Definition prepared (m : HeapMem) (stamp : nat) (p : tpc) : Prop :=
  match p with
  | Ready (Push seg) _ old _ new => new = List.head seg /\ (forall t, last seg = Some t -> next (loc m t) = d_inner old)
  | Ready Pop _ old n new => n = stamp -> exists h, d_inner old = Some h /\ new = next (loc m h)
  | _ => True
  end.

(** The stack holds [l]; every slab has one place. *)
Record SInv (l : list Z) (s : CS) : Prop := {
  si_chain : chain (hs_mem (c_heap s)) (d_inner (head_of s)) l;
  si_nodup : NoDup l;
  si_stack : forall j i, i ∈ c_held s j -> i ∉ l;
  si_held : forall j k i, i ∈ c_held s j -> i ∈ c_held s k -> j = k;
  si_push : forall j seg, seg = pushing (c_pc s j) -> NoDup seg /\ (forall i, i ∈ seg -> i ∈ c_held s j) /\ linked (hs_mem (c_heap s)) seg;
  si_some : forall j o v old n new, c_pc s j = Ready o v old n new -> o <> Push [];
  si_prepared : forall j, prepared (hs_mem (c_heap s)) (c_stamp s) (c_pc s j);
  si_loaded : forall j old n, loaded (c_pc s j) = Some (old, n) -> (n <= c_stamp s)%nat /\ (n = c_stamp s -> old = head_of s);
}.

(** The head has not been written since it was loaded when it compares equal. *)
Definition clean (j : Z) (s : CS) : Prop :=
  match c_pc s j with
  | Ready _ _ old n _ => head_of s = old -> n = c_stamp s
  | _ => True
  end.

Lemma linked_frame m m' seg :
  linked m seg -> (forall i, i ∈ seg -> last seg <> Some i -> next (loc m' i) = next (loc m i)) -> NoDup seg -> linked m' seg.
Proof.
  induction seg as [|a [|b rest] IH]; [done|done|]. intros [Ha Hr] Hf Hnd. apply NoDup_cons in Hnd as [Hna Hnd]. split.
  - rewrite Hf; [done|left|]. intros E. apply Hna. change (last (a :: b :: rest)) with (last (b :: rest)) in E.
    by apply last_Some_elem_of in E.
  - apply IH; [done| |done]. intros i Hi Hl. apply Hf; [by right|done].
Qed.

Lemma linked_chain m seg t h l :
  linked m seg -> last seg = Some t -> next (loc m t) = h -> chain m h l -> chain m (List.head seg) (seg ++ l).
Proof.
  induction seg as [|a [|b rest] IH]; [done| |].
  - intros _ [= ->] <- Hl. done.
  - intros [Ha Hr] Hlast Ht Hl. split; [done|]. rewrite Ha. by apply (IH Hr).
Qed.

(** Fragments that leave the memory of the heap alone. *)
Definition quiet {A} (m : M HS A) : Prop := forall s s' a, m s = Done (s', a) -> hs_mem s' = hs_mem s.

Lemma quiet_ret {A} (a : A) : quiet (ret a).
Proof. by intros s s' b [= <- _]. Qed.
Lemma quiet_bind {A C} (m : M HS A) (k : A -> M HS C) : quiet m -> (forall a, quiet (k a)) -> quiet (bind m k).
Proof.
  intros Hm Hk s s' b H. apply bind_done in H as (s1 & a & E1 & E2). rewrite (Hk _ _ _ _ E2). by eapply Hm.
Qed.
Lemma quiet_gets {A} (f : HS -> A) : quiet (gets f).
Proof. by intros s s' b [= <- _]. Qed.
Lemma quiet_with_ctx f : quiet (with_ctx f).
Proof. intros s s' b [= <- _]. done. Qed.
Lemma quiet_help {T} j (d : DState T) : quiet (help cfg j d).
Proof. unfold help. destruct (negb _); [apply quiet_ret|]. destruct (d_id d); [apply quiet_with_ctx|apply quiet_ret]. Qed.
Lemma quiet_draw j : quiet (draw cfg j).
Proof.
  apply quiet_bind; [apply quiet_gets|]. intros v. apply quiet_bind; [|intros; apply quiet_ret].
  unfold when_. destruct (recover_cas cfg); [apply quiet_with_ctx|apply quiet_ret].
Qed.
Lemma quiet_log j h : quiet (log_unsync cfg j h).
Proof. unfold log_unsync. destruct (negb _); [apply quiet_ret|apply quiet_with_ctx]. Qed.

(** What the invariant asks of the position of one thread. *)
Record pc_ok (s : CS) (j : Z) (p : tpc) : Prop := {
  po_push : NoDup (pushing p) /\ (forall i, i ∈ pushing p -> i ∈ c_held s j) /\ linked (hs_mem (c_heap s)) (pushing p);
  po_some : forall o v old n new, p = Ready o v old n new -> o <> Push [];
  po_prepared : prepared (hs_mem (c_heap s)) (c_stamp s) p;
  po_loaded : forall old n, loaded p = Some (old, n) -> (n <= c_stamp s)%nat /\ (n = c_stamp s -> old = head_of s);
}.

Lemma sinv_pc l s j : SInv l s -> pc_ok s j (c_pc s j).
Proof.
  intros H. split; [by apply (si_push _ _ H)|by apply (si_some _ _ H)|apply (si_prepared _ _ H)|by apply (si_loaded _ _ H)].
Qed.

Lemma goto_pc_of j p (f : Z -> tpc) k : (<[j := p]> f) k = if decide (k = j) then p else f k.
Proof. case_decide; [subst; by rewrite fn_lookup_insert|by rewrite fn_lookup_insert_ne]. Qed.

(** A step that only moves one thread. *)
Lemma sinv_quiet l s j p h : SInv l s -> hs_mem h = hs_mem (c_heap s) -> pc_ok s j p -> SInv l (at_pc j p (on_heap h s)).
Proof.
  intros H Hm Hp. assert (forall k, pc_ok s k ((<[j := p]> (c_pc s)) k)) as Hall.
  { intros k. rewrite goto_pc_of. case_decide; [by subst|by eapply sinv_pc]. }
  destruct H as [H1 H2 H3 H4 _ _ _ _]. split; unfold head_of; cbn [at_pc on_heap c_heap c_pc c_held c_stamp]; rewrite ?Hm; try done.
  - intros k seg ->. apply Hall.
  - intros k. apply Hall.
  - intros k. apply Hall.
  - intros k. apply Hall.
Qed.

(** The owner of a slab writes its [next] field. *)
Lemma sinv_write l s j i n : SInv l s -> i ∈ c_held s j ->
  (forall o v old st new, c_pc s j <> Ready o v old st new) -> (i ∈ pushing (c_pc s j) -> last (pushing (c_pc s j)) = Some i) ->
  SInv l (on_heap (on_mem (fun m => put_loc i (set_next n (loc m i)) m) (c_heap s)) s).
Proof.
  intros H Hi Hnr Hlast.
  assert (forall k, k <> i -> next (loc (put_loc i (set_next n (loc (hs_mem (c_heap s)) i)) (hs_mem (c_heap s))) k) = next (loc (hs_mem (c_heap s)) k)) as Hf.
  { intros k Hk. by rewrite loc_put_loc, decide_False. }
  assert (forall k, i ∈ c_held s k -> k = j) as Huniq by (intros k Hk; by eapply si_held).
  pose proof (si_stack _ _ H _ _ Hi) as Hil. pose proof (si_chain _ _ H) as Hc.
  split; unfold head_of; cbn [on_heap c_heap c_pc c_held c_stamp on_mem hs_mem]; try apply H.
  - eapply chain_frame; [apply H|]. intros k Hk. apply Hf. set_solver.
  - intros k seg ->. destruct (si_push _ _ H k _ eq_refl) as (Hnd & Hh & Hl). split_and!; [done|done|].
    eapply linked_frame; [done| |done]. intros x Hx Hlx. apply Hf. intros ->. apply Hlx.
    assert (k = j) as -> by (apply Huniq; auto). auto.
  - intros k. pose proof (si_prepared _ _ H k) as Hp. destruct (c_pc s k) as [| | | | |o v old st new] eqn:E; try done.
    destruct (si_loaded _ _ H k old st ltac:(by rewrite E)) as [_ Hold]. destruct o as [seg|]; cbn [prepared] in Hp |- *.
    + destruct Hp as [Hnew Ht]. split; [done|]. intros t Hlt. rewrite Hf; [by apply Ht|]. intros ->.
      assert (k = j) as ->; [|by eapply Hnr]. apply Huniq. apply (si_push _ _ H k seg); [by rewrite E|]. by apply last_Some_elem_of.
    + intros Hst. destruct (Hp Hst) as (x & Ex & ->). exists x. split; [done|]. symmetry. apply Hf. intros ->.
      rewrite (Hold Hst) in Ex. rewrite Ex in Hc. apply Hil. destruct l as [|y l]; [done|]. destruct Hc as [[= ->] _]. left.
Qed.

Lemma batch_last (l : list Z) : forall a b, List.last (b :: l) a = List.last l b.
Proof.
  induction l as [|c l IH]; intros a b; [done|]. change (List.last (b :: c :: l) a) with (List.last (c :: l) a). by rewrite !IH.
Qed.

Lemma last_cons_list (l : list Z) : forall a, last (a :: l) = Some (List.last l a).
Proof.
  induction l as [|b l IH]; intros a; [done|]. change (last (a :: b :: l)) with (last (b :: l)). by rewrite IH, batch_last.
Qed.

(** The state after a successful compare-exchange. *)
Definition swapped (j : Z) (o : op) (v : Z) (old : DState (option Z)) (new : option Z) (s : CS) : CS :=
  mkCS (on_mem (put_free (mkD (Some j) v new)) (c_heap s)) (<[j := Idle]> (c_pc s)) (<[j := moved o old (c_held s j)]> (c_held s))
    (S (c_stamp s)).

(** The other threads do not notice, except that what they loaded is old. *)
Lemma swapped_others l l' s j o v old new :
  SInv l s -> (forall i, i ∈ moved o old (c_held s j) -> i ∉ l') ->
  (forall i k, i ∈ moved o old (c_held s j) -> k <> j -> i ∉ c_held s k) ->
  (forall i k, k <> j -> i ∈ c_held s k -> i ∉ l') ->
  chain (hs_mem (c_heap s)) new l' -> NoDup l' ->
  SInv l' (swapped j o v old new s).
Proof.
  intros H Hmv Hne Hoth Hch Hnd.
  assert (forall k, (<[j := moved o old (c_held s j)]> (c_held s)) k = if decide (k = j) then moved o old (c_held s j) else c_held s k) as Hheld.
  { intros k. case_decide; [subst; by rewrite fn_lookup_insert|by rewrite fn_lookup_insert_ne]. }
  split; unfold head_of; cbn [swapped c_heap c_pc c_held c_stamp on_mem hs_mem put_free shared_free d_inner].
  - eapply chain_frame; [exact Hch|]. done.
  - done.
  - intros k i. rewrite Hheld. case_decide; [apply Hmv|by apply Hoth].
  - intros k1 k2 i. rewrite !Hheld. repeat case_decide; subst; intros Ha Hb; try done.
    + exfalso. by eapply (Hne i k2).
    + exfalso. by eapply (Hne i k1).
    + by eapply si_held.
  - intros k seg ->. rewrite goto_pc_of, Hheld. case_decide; [simpl; split_and!; [constructor|set_solver|done]|].
    destruct (si_push _ _ H k _ eq_refl) as (? & ? & Hl). split_and!; [done|done|]. eapply linked_frame; [exact Hl|done|done].
  - intros k o' v' old' n' new'. rewrite goto_pc_of. case_decide; [done|]. apply (si_some _ _ H).
  - intros k. rewrite goto_pc_of. case_decide; [done|]. pose proof (si_prepared _ _ H k) as Hp.
    destruct (c_pc s k) as [| | | | |[seg|] v' old' n' new'] eqn:E; try done. cbn [prepared]. intros ->.
    destruct (si_loaded _ _ H k old' (S (c_stamp s)) ltac:(by rewrite E)). lia.
  - intros k old' n'. rewrite goto_pc_of. case_decide; [done|]. intros Hl. apply (si_loaded _ _ H) in Hl as [Hl _]. split; [lia|]. lia.
Qed.

(** A compare-exchange of a push that finds the loaded head puts the batch on
    top; a clean one of a pop takes the first slab. *)
Lemma sinv_cas_push l s j seg v old n new : SInv l s -> c_pc s j = Ready (Push seg) v old n new -> head_of s = old ->
  SInv (seg ++ l) (swapped j (Push seg) v old new s).
Proof.
  intros H E Eo. destruct (si_push _ _ H j seg ltac:(by rewrite E)) as (Hnd & Hh & Hl).
  pose proof (si_prepared _ _ H j) as Hp. rewrite E in Hp. destruct Hp as [-> Ht].
  destruct seg as [|a rest]; [by destruct (si_some _ _ H _ _ _ _ _ _ E)|].
  apply (swapped_others l); [done| | | | |]; cbn [moved].
  - intros i [Hi Hn]%elem_of_difference. pose proof (si_stack _ _ H j i Hi). set_solver.
  - intros i k [Hi _]%elem_of_difference Hk Hk'. apply Hk. symmetry. by eapply si_held.
  - intros i k Hk Hi Hin. apply elem_of_app in Hin as [Hin|Hin]; [|by eapply si_stack].
    apply Hk. eapply si_held; [done|exact Hi|by apply Hh].
  - eapply linked_chain; [done|apply last_cons_list|reflexivity|]. rewrite (Ht _ (last_cons_list _ _)), <- Eo. apply H.
  - apply NoDup_app. split_and!; [done| |apply H]. intros i Hi. eapply si_stack; [done|by apply Hh].
Qed.

Lemma sinv_cas_pop l s j v old new : SInv l s -> c_pc s j = Ready Pop v old (c_stamp s) new -> head_of s = old ->
  exists h l', l = h :: l' /\ d_inner old = Some h /\ SInv l' (swapped j Pop v old new s).
Proof.
  intros H E Eo. pose proof (si_prepared _ _ H j) as Hp. rewrite E in Hp. destruct (Hp eq_refl) as (h & Eh & ->).
  pose proof (si_chain _ _ H) as Hc. rewrite Eo, Eh in Hc. destruct l as [|h' l']; [done|]. destruct Hc as [[= <-] Hc].
  pose proof (si_nodup _ _ H) as [Hh Hnd]%NoDup_cons. exists h, l'. split_and!; [done|done|].
  apply (swapped_others (h :: l')); [done| | | |exact Hc|done]; cbn [moved]; rewrite ?Eh.
  - intros i [->%elem_of_singleton|Hi]%elem_of_union; [done|]. pose proof (si_stack _ _ H j i Hi). set_solver.
  - intros i k [->%elem_of_singleton|Hi]%elem_of_union Hk Hk'.
    + pose proof (si_stack _ _ H k h Hk'). set_solver.
    + apply Hk. symmetry. by eapply si_held.
  - intros i k Hk Hi. pose proof (si_stack _ _ H k i Hi). set_solver.
Qed.

(** ** What a step does to the stack *)

(** The abstract stack: a list of slabs and who holds the others. *)
Inductive stack_step (j : Z) : list Z * (Z -> gset Z) -> list Z * (Z -> gset Z) -> Prop :=
| st_push l held seg : (forall i, i ∈ seg -> i ∈ held j) -> stack_step j (l, held) (seg ++ l, <[j := held j ∖ list_to_set seg]> held)
| st_pop l held h : stack_step j (h :: l, held) (l, <[j := {[h]} ∪ held j]> held)
| st_give l held k i : i ∈ held j ->
    stack_step j (l, held) (l, <[k := {[i]} ∪ (<[j := held j ∖ {[i]}]> held) k]> (<[j := held j ∖ {[i]}]> held))
| st_stutter l held : stack_step j (l, held) (l, held).

Lemma frag_sinv {A} l s j (m : M HS A) p s' : quiet m -> SInv l s -> (forall a, pc_ok s j (p a)) ->
  frag j m p s = Some s' -> SInv l s' /\ c_held s' = c_held s.
Proof.
  intros Hq H Hp E. unfold frag in E. destruct (m (c_heap s)) as [[h a]| | |] eqn:Em; try done. injection E as <-.
  split; [|done]. apply sinv_quiet; [done|by eapply Hq|done].
Qed.

Lemma pc_ok_plain s j p : pushing p = [] -> loaded p = None -> pc_ok s j p.
Proof. intros Hp Hl. destruct p as [|?|[] ?|[] ? ? ?|[] ? ? ?|[] ? ? ? ?]; try done; simpl in *; subst; (split; [split_and!; [constructor|set_solver|done]|done|done|done]). Qed.

Lemma pc_ok_load l s j o v p : SInv l s -> pushing (c_pc s j) = pushing (Started o v) ->
  p = Started o v \/ p = Loaded o v (head_of s) (c_stamp s) -> pc_ok s j p.
Proof.
  intros H Hp Hcase. pose proof (po_push _ _ _ (sinv_pc _ _ j H)) as Hpo. rewrite Hp in Hpo.
  destruct Hcase as [-> | ->]; (split; [by destruct o|done|done|]); [done|]. intros old n [= <- <-]. done.
Qed.

Lemma frag_log {A} j h (a : A) p s s' : frag j (log_unsync cfg j h ;;; ret a) p s = Some s' ->
  exists hp, hs_mem hp = hs_mem (c_heap s) /\ s' = at_pc j (p a) (on_heap hp s).
Proof.
  unfold frag, bind. destruct (log_unsync cfg j h (c_heap s)) as [[hp []]| | |] eqn:E; try done. intros [= <-].
  exists hp. split; [by eapply quiet_log|done].
Qed.

(** The closure: a push writes the last slab of its batch, a pop reads. *)
Lemma sinv_closure l s j o v old n s' : SInv l s -> c_pc s j = Helped o v old n -> tick cfg j s = Some s' ->
  SInv l s' /\ c_held s' = c_held s.
Proof.
  intros H E Et. unfold tick in Et. rewrite E in Et. pose proof (sinv_pc _ _ j H) as Hpo. rewrite E in Hpo.
  destruct o as [[|a rest]|]; cbn [op_next] in Et.
  - done.
  - set (t := List.last rest a) in *. assert (last (a :: rest) = Some t) as Hlast by apply last_cons_list.
    set (s1 := on_heap (on_mem (fun m => put_loc t (set_next (d_inner old) (loc m t)) m) (c_heap s)) s).
    assert (SInv l s1) as H1.
    { eapply (sinv_write l s j); [done| |by rewrite E|by rewrite E]. apply Hpo. by apply last_Some_elem_of. }
    assert (frag j (log_unsync cfg j (UnsizedToGlobal a v) ;;; ret (Some (Some a)))
      (fun r => match r with Some new => Ready (Push (a :: rest)) v old n new | None => Idle end) s1 = Some s') as Ef by exact Et.
    apply frag_log in Ef as (hp & Hm & ->). split; [|done]. apply sinv_quiet; [done|done|].
    pose proof (sinv_pc _ _ j H1) as [P1 P2 P3 P4]. assert (c_pc s1 j = c_pc s j) as Ec by done. rewrite Ec, E in *.
    split; [exact P1|by intros ? ? ? ? ? [= <-]| |exact P4]. split; [done|]. intros x. rewrite Hlast. intros [= <-].
    cbn [s1 on_heap c_heap on_mem hs_mem]. by rewrite loc_put_loc, decide_True.
  - destruct (d_inner old) as [i|] eqn:Ei; cbn [pop_next] in Et.
    + assert (frag j (log_unsync cfg j (GlobalToUnsized i v) ;;; ret (Some (next (loc (hs_mem (c_heap s)) i))))
        (fun r => match r with Some new => Ready Pop v old n new | None => Idle end) s = Some s') as Ef by exact Et.
      apply frag_log in Ef as (hp & Hm & ->). split; [|done]. apply sinv_quiet; [done|done|].
      destruct Hpo as [P1 P2 P3 P4]. split; [exact P1|by intros ? ? ? ? ? [= <-]| |exact P4]. intros _. by exists i.
    + injection Et as <-. split; [|done]. apply (sinv_quiet l s j Idle (c_heap s)); [done|done|by apply pc_ok_plain].
Qed.

Lemma sinv_give l s j k i : SInv l s -> i ∈ c_held s j -> i ∉ pushing (c_pc s j) ->
  SInv l (mkCS (c_heap s) (c_pc s) (<[k := {[i]} ∪ (<[j := c_held s j ∖ {[i]}]> (c_held s)) k]> (<[j := c_held s j ∖ {[i]}]> (c_held s)))
    (c_stamp s)).
Proof.
  intros H Hi Hn. set (held := <[k := _]> _).
  assert (forall x y, y ∈ held x <-> (y = i /\ x = k) \/ (y <> i /\ y ∈ c_held s x)) as Hheld.
  { intros x y. unfold held. destruct (decide (x = k)) as [->|Hk].
    - rewrite fn_lookup_insert. destruct (decide (k = j)) as [->|Hj]; [rewrite fn_lookup_insert; set_solver|].
      rewrite fn_lookup_insert_ne by done. rewrite elem_of_union, elem_of_singleton. split; [|naive_solver].
      intros [->|Hy]; [by left|]. destruct (decide (y = i)) as [->|]; [|naive_solver]. exfalso. apply Hj. by eapply si_held.
    - rewrite fn_lookup_insert_ne by done. destruct (decide (x = j)) as [->|Hj]; [rewrite fn_lookup_insert; set_solver|].
      rewrite fn_lookup_insert_ne by done. split; [|naive_solver]. intros Hy. right. split; [|done]. intros ->. apply Hj. by eapply si_held. }
  destruct H as [H1 H2 H3 H4 H5 H6 H7 H8]. split; cbn [c_heap c_pc c_held c_stamp]; try done.
  - intros x y [[-> ->]|[_ Hy]]%Hheld; eauto.
  - intros x1 x2 y Hy1%Hheld Hy2%Hheld. naive_solver.
  - intros x seg ->. destruct (H5 x _ eq_refl) as (? & Hs & ?). split_and!; [done| |done]. intros y Hy. apply Hheld.
    right. split; [|by apply Hs]. intros ->. assert (x = j) as -> by (eapply H4; [by apply Hs|done]). done.
Qed.

(** In every state that the invariant describes, whatever action any thread
    takes next, the stack is left as it was, or gains a batch the thread held,
    or loses its first slab to the thread, provided the compare-exchange is
    clean. *)
Lemma sinv_step l s j a s' : SInv l s -> clean j s -> step cfg j a s = Some s' ->
  exists l', SInv l' s' /\ stack_step j (l, c_held s) (l', c_held s').
Proof.
  intros H Hcl E.
  assert (forall x, SInv l x /\ c_held x = c_held s -> exists l', SInv l' x /\ stack_step j (l, c_held s) (l', c_held x)) as Hst.
  { intros x [Hx ->]. exists l. split; [done|constructor]. }
  destruct a as [seg| | |i nx|k i]; cbn [step] in E.
  - case_decide as Hd; [|done]. destruct Hd as (Hp & Hne & Hnd & Hh & Hl). apply Hst.
    eapply (frag_sinv l s j); [apply quiet_draw|done| |exact E]. intros v. rewrite Forall_forall in Hh.
    split; [done|done|done|done].
  - case_decide as Hp; [|done]. injection E as <-. apply Hst. split; [|done].
    apply (sinv_quiet l s j _ (c_heap s)); [done|done|by apply pc_ok_plain].
  - destruct (c_pc s j) as [|old|o v|o v old n|o v old n|o v old n new] eqn:Ep.
    + unfold tick in E. by rewrite Ep in E.
    + unfold tick in E. rewrite Ep in E. apply Hst. eapply (frag_sinv l s j); [|done| |exact E].
      * apply quiet_bind; [apply quiet_help|]. intros _. case_decide; [apply quiet_ret|].
        apply quiet_bind; [apply quiet_draw|intros; apply quiet_ret].
      * intros [v|]; by apply pc_ok_plain.
    + unfold tick in E. rewrite Ep in E. injection E as <-. apply Hst. split; [|done].
      apply (sinv_quiet l s j _ (c_heap s)); [done|done|]. apply (pc_ok_load l s j o v); [done|by rewrite Ep|by right].
    + unfold tick in E. rewrite Ep in E. apply Hst. eapply (frag_sinv l s j (help cfg j old)); [apply quiet_help|done| |exact E]. intros ?.
      pose proof (sinv_pc _ _ j H) as [P1 P2 P3 P4]. rewrite Ep in *. by split.
    + apply Hst. by eapply sinv_closure.
    + unfold tick in E. rewrite Ep in E. unfold clean in Hcl. rewrite Ep in Hcl. case_decide as Hd; injection E as <-.
      * rewrite (Hcl Hd) in Ep. destruct o as [seg|].
        -- exists (seg ++ l). split; [by apply (sinv_cas_push l s j seg v old (c_stamp s))|].
           apply st_push. apply (si_push _ _ H). by rewrite Ep.
        -- destruct (sinv_cas_pop l s j v old new H Ep Hd) as (h & l' & El & Eh & H'). exists l'. split; [exact H'|].
           cbn [c_held moved]. rewrite Eh, El. constructor.
      * apply Hst. split; [|done]. apply (sinv_quiet l s j _ (c_heap s)); [done|done|].
        apply (pc_ok_load l s j o v); [done|rewrite Ep; by destruct o|by right].
  - case_decide as Hd; [|done]. destruct Hd as [Hp Hi]. injection E as <-. apply Hst. split; [|done].
    apply (sinv_write l s j); [done|done|by rewrite Hp|rewrite Hp; set_solver].
  - case_decide as Hd; [|done]. destruct Hd as [Hi Hn]. injection E as <-. exists l. split; [|by constructor].
    by apply sinv_give.
Qed.

(** ** Runs in which no tag comes back under a thread *)

(** The compare-exchange that thread [j] is about to try does not write the tag
    of a head that another thread has loaded and not yet exchanged. *)
Definition fresh (j : Z) (s : CS) : Prop :=
  match c_pc s j with
  | Ready _ v _ _ _ => forall k old n, k <> j -> loaded (c_pc s k) = Some (old, n) -> tag old <> (Some j, v)
  | _ => True
  end.

Inductive run (s0 : CS) : CS -> Prop :=
| run_refl : run s0 s0
| run_step s j a s' : run s0 s -> fresh j s -> step cfg j a s = Some s' -> run s0 s'.

(** The head has another tag than a head that was loaded before its last
    write. *)
Definition TInv (s : CS) : Prop :=
  forall j old n, loaded (c_pc s j) = Some (old, n) -> (n < c_stamp s)%nat -> tag old <> tag (head_of s).

Lemma tinv_clean l s j : SInv l s -> TInv s -> clean j s.
Proof.
  intros Hs Ht. unfold clean. pose proof (si_loaded _ _ Hs j) as Hl. specialize (Ht j).
  destruct (c_pc s j) as [| | | | |o v old n new]; try done.
  intros E. destruct (Hl old n eq_refl) as [Hn _]. destruct (decide (n = c_stamp s)) as [|Hne]; [done|].
  destruct (Ht old n eq_refl); [lia|by rewrite E].
Qed.

(** A thread that moves without a successful compare-exchange keeps what it
    loaded or loads the present head. *)
Lemma tinv_move s s' j p : TInv s -> c_pc s' = <[j := p]> (c_pc s) -> c_stamp s' = c_stamp s -> head_of s' = head_of s ->
  (forall x, loaded p = Some x -> x = (head_of s, c_stamp s) \/ loaded (c_pc s j) = Some x) -> TInv s'.
Proof.
  intros Hl Ep Es Eh Hp k old n. rewrite Es, Eh, Ep, goto_pc_of. case_decide; [|by apply Hl].
  intros Hx. destruct (Hp _ Hx) as [[= -> ->]|Ho]; [lia|by apply (Hl j)].
Qed.

Lemma tinv_frag {A} s s' j (m : M HS A) p : TInv s -> frag j m p s = Some s' ->
  (forall h h' a, m h = Done (h', a) -> shared_free (hs_mem h') = shared_free (hs_mem h)) ->
  (forall a x, loaded (p a) = Some x -> loaded (c_pc s j) = Some x) -> TInv s'.
Proof.
  intros Ht E Hm Hp. unfold frag in E. destruct (m (c_heap s)) as [[h a]| | |] eqn:Em; try done. injection E as <-.
  eapply (tinv_move s _ j (p a)); [done|done|done| |]; [by apply (Hm _ _ _ Em)|]. intros x Hx. right. by eapply Hp.
Qed.

(** Fragments that leave the head alone. *)
Definition headless {A} (m : M HS A) : Prop := forall h h' a, m h = Done (h', a) -> shared_free (hs_mem h') = shared_free (hs_mem h).

Lemma quiet_headless {A} (m : M HS A) : quiet m -> headless m.
Proof. intros Hq h h' a E. by rewrite (Hq _ _ _ E). Qed.
Lemma headless_bind {A C} (m : M HS A) (k : A -> M HS C) : headless m -> (forall a, headless (k a)) -> headless (bind m k).
Proof. intros Hm Hk h h' b H. apply bind_done in H as (s1 & a & E1 & E2). rewrite (Hk _ _ _ _ E2). by eapply Hm. Qed.
Lemma headless_op o old v : headless (op_next o old v).
Proof.
  destruct o as [[|a rest]|]; [done| |].
  - intros h h' b [= <- _]. done.
  - destruct old as [i|]; intros h h' b [= <- _]; done.
Qed.

Lemma tinv_swap s j o v old n new : TInv s -> c_pc s j = Ready o v old n new -> fresh j s ->
  TInv (swapped j o v old new s).
Proof.
  intros Hl Ep Hf k old' n'. unfold fresh in Hf. rewrite Ep in Hf.
  unfold head_of; cbn [swapped c_heap c_pc c_stamp on_mem hs_mem put_free shared_free].
  rewrite goto_pc_of. case_decide; [done|]. intros Hx _. by eapply Hf.
Qed.

Lemma tinv_step s j a s' : TInv s -> fresh j s -> step cfg j a s = Some s' -> TInv s'.
Proof.
  intros Ht Hf E. destruct a as [seg| | |i nx|k i]; cbn [step] in E.
  - case_decide; [|done]. by eapply (tinv_frag s s' j); [|exact E|apply quiet_headless, quiet_draw|].
  - case_decide; [|done]. injection E as <-. by eapply (tinv_move s _ j).
  - unfold tick in E. destruct (c_pc s j) as [|old|o v|o v old n|o v old n|o v old n new] eqn:Ep; [done| | | | |].
    + eapply (tinv_frag s s' j); [done|exact E| |by intros [?|] ?]. apply quiet_headless, quiet_bind; [apply quiet_help|].
      intros _. case_decide; [apply quiet_ret|]. apply quiet_bind; [apply quiet_draw|intros; apply quiet_ret].
    + injection E as <-. eapply (tinv_move s _ j); [done..|]. intros x [= <-]. by left.
    + eapply (tinv_frag s s' j); [done|exact E|apply quiet_headless, quiet_help|]. intros ? x. by rewrite Ep.
    + eapply (tinv_frag s s' j); [done|exact E| |]; [|intros [?|] x; by rewrite Ep].
      apply headless_bind; [apply headless_op|]. intros [[nw lg]|]; apply quiet_headless; [|apply quiet_ret].
      apply quiet_bind; [apply quiet_log|intros; apply quiet_ret].
    + case_decide; injection E as <-; [|eapply (tinv_move s _ j); [done..|]; intros x [= <-]; by left].
      by eapply tinv_swap.
  - case_decide; [|done]. injection E as <-. exact Ht.
  - case_decide; [|done]. injection E as <-. exact Ht.
Qed.

(** No operation is in progress; the stack holds [l]; every slab has one place. *)
Record initial (l : list Z) (s : CS) : Prop := {
  in_chain : chain (hs_mem (c_heap s)) (d_inner (head_of s)) l;
  in_nodup : NoDup l;
  in_stack : forall j i, i ∈ c_held s j -> i ∉ l;
  in_held : forall j k i, i ∈ c_held s j -> i ∈ c_held s k -> j = k;
  in_idle : forall j, c_pc s j = Idle;
  in_stamp : c_stamp s = 0%nat;
}.

Lemma initial_sinv l s : initial l s -> SInv l s.
Proof.
  intros [H1 H2 H3 H4 H5 H6]. split; try done; intros j; rewrite (H5 j); try done.
  intros seg ->. split_and!; [constructor|set_solver|done].
Qed.

Lemma initial_tinv l s : initial l s -> TInv s.
Proof. intros H j old n. by rewrite (in_idle _ _ H). Qed.

Abbreviation stack_steps := (rtc (fun x y => exists j, stack_step j x y)).

Lemma run_invariant l s0 s : initial l s0 -> run s0 s ->
  exists l', SInv l' s /\ TInv s /\ stack_steps (l, c_held s0) (l', c_held s).
Proof.
  intros Hi. induction 1 as [|s j a s' Hr (l1 & Hs & Ht & Hst) Hf E].
  - exists l. split_and!; [by apply initial_sinv|by eapply initial_tinv|done].
  - destruct (sinv_step l1 s j a s' Hs (tinv_clean l1 s j Hs Ht) E) as (l2 & H2 & Hst2).
    exists l2. split_and!; [done|by eapply tinv_step|]. eapply rtc_r; [done|]. by exists j.
Qed.

(** C8: the global stack is a stack under any interleaving of the threads'
    accesses, as long as no compare-exchange writes the tag (thread and version)
    of a head that another thread has loaded and not yet exchanged: what the threads do amounts to pushing batches of
    slabs they hold, popping the first slab, and passing slabs on. *)
Theorem stack_refines l s0 s : initial l s0 -> run s0 s ->
  exists l', chain (hs_mem (c_heap s)) (d_inner (head_of s)) l' /\ stack_steps (l, c_held s0) (l', c_held s).
Proof.
  intros Hi Hr. destruct (run_invariant l s0 s Hi Hr) as (l' & Hs & _ & Hst). exists l'. split; [apply Hs|done].
Qed.

(** The slabs a state accounts for. *)
Definition present (x : list Z * (Z -> gset Z)) (i : Z) : Prop := i ∈ x.1 \/ exists j, i ∈ x.2 j.

Lemma held_insert (held : Z -> gset Z) j X i : (exists k, i ∈ (<[j := X]> held) k) <-> i ∈ X \/ exists k, k <> j /\ i ∈ held k.
Proof.
  split.
  - intros (k & Hk). destruct (decide (k = j)) as [->|]; [rewrite fn_lookup_insert in Hk; by left|].
    rewrite fn_lookup_insert_ne in Hk by done. right; eauto.
  - intros [Hi|(k & Hk & Hi)]; [exists j; by rewrite fn_lookup_insert|exists k; by rewrite fn_lookup_insert_ne].
Qed.

Lemma held_split (held : Z -> gset Z) j i : (exists k, i ∈ held k) <-> i ∈ held j \/ exists k, k <> j /\ i ∈ held k.
Proof. split; [|naive_solver]. intros (k & Hk). destruct (decide (k = j)) as [->|]; eauto. Qed.

(** No slab appears or gets lost. *)
Lemma stack_step_present j x y : stack_step j x y -> forall i, present x i <-> present y i.
Proof.
  destruct 1 as [l held seg Hs|l held h|l held k i Hi|]; intros x; unfold present; cbn [fst snd]; try done.
  - rewrite held_insert, (held_split held j), elem_of_app, elem_of_difference, elem_of_list_to_set.
    destruct (decide (x ∈ seg)); naive_solver.
  - rewrite held_insert, (held_split held j), elem_of_union, elem_of_singleton, elem_of_cons. naive_solver.
  - rewrite held_insert, (held_split held k), elem_of_union, elem_of_singleton.
    assert ((exists m, m <> k /\ x ∈ (<[j := held j ∖ {[i]}]> held) m) \/ x ∈ (<[j := held j ∖ {[i]}]> held) k <->
      (exists m, x ∈ (<[j := held j ∖ {[i]}]> held) m)) as E by (rewrite (held_split _ k); naive_solver).
    rewrite held_insert in E. rewrite elem_of_difference, elem_of_singleton in E.
    pose proof (held_split held j x) as E1. pose proof (held_split held k x) as E2. destruct (decide (x = i)) as [->|]; tauto.
Qed.

Lemma stack_steps_present x y : stack_steps x y -> forall i, present x i <-> present y i.
Proof. induction 1 as [|x y z [j Hs] _ IH]; [done|]. intros i. by rewrite (stack_step_present j x y Hs). Qed.

(** in such a run every slab keeps exactly one place: on the stack once, or
    with one thread; none is lost and none appears. Two threads never hold the
    same slab. *)
Theorem slabs_one_place l s0 s : initial l s0 -> run s0 s ->
  exists l', chain (hs_mem (c_heap s)) (d_inner (head_of s)) l' /\ NoDup l' /\
    (forall j i, i ∈ c_held s j -> i ∉ l') /\ (forall j k i, i ∈ c_held s j -> i ∈ c_held s k -> j = k) /\
    (forall i, (i ∈ l \/ exists j, i ∈ c_held s0 j) <-> (i ∈ l' \/ exists j, i ∈ c_held s j)).
Proof.
  intros Hi Hr. destruct (run_invariant l s0 s Hi Hr) as (l' & Hs & _ & Hst). exists l'.
  split_and!; [apply Hs..|]. intros i. apply (stack_steps_present _ _ Hst).
Qed.

(** The stack is lock-free: a compare-exchange only fails, and its thread only
    repeats, when another one has succeeded since the head was loaded. *)
Lemma retry_means_progress l s j o v old n new s' : SInv l s -> c_pc s j = Ready o v old n new -> tick cfg j s = Some s' ->
  c_pc s' j = Idle /\ c_stamp s' = S (c_stamp s) \/ (n < c_stamp s)%nat /\ c_stamp s' = c_stamp s.
Proof.
  intros H Ep E. unfold tick in E. rewrite Ep in E. destruct (si_loaded _ _ H j old n ltac:(by rewrite Ep)) as [Hn Ho].
  case_decide as Hd; injection E as <-; [left|right].
  - split; [apply fn_lookup_insert|done].
  - split; [|done]. destruct (decide (n = c_stamp s)) as [En|]; [|lia]. by destruct Hd; rewrite Ho.
Qed.

(** An executable form of the runs of the threads [js]. *)
Definition fresh_among (js : list Z) (j : Z) (s : CS) : bool :=
  match c_pc s j with
  | Ready _ v _ _ _ =>
      forallb (fun k => bool_decide (k = j) || match loaded (c_pc s k) with Some (old, _) => negb (bool_decide (tag old = (Some j, v))) | None => true end) js
  | _ => true
  end.

Fixpoint fresh_exec (js : list Z) (l : list (Z * action)) (s : CS) : option CS :=
  match l with
  | [] => Some s
  | (j, a) :: l => if bool_decide (j ∈ js) && fresh_among js j s then s' ← step cfg j a s; fresh_exec js l s' else None
  end.

Lemma frag_others {A} j (m : M HS A) p s s' k : frag j m p s = Some s' -> k <> j -> c_pc s' k = c_pc s k.
Proof.
  unfold frag. destruct (m (c_heap s)) as [[h a]| | |]; try done. intros [= <-] Hk. simpl. by rewrite fn_lookup_insert_ne.
Qed.

Lemma step_others j a s s' k : step cfg j a s = Some s' -> k <> j -> c_pc s' k = c_pc s k.
Proof.
  intros E Hk. destruct a as [seg| | |i nx|m i]; cbn [step] in E.
  - case_decide; [|done]. by eapply frag_others.
  - case_decide; [|done]. injection E as <-. simpl. by rewrite fn_lookup_insert_ne.
  - unfold tick in E. destruct (c_pc s j) as [|old|o v|o v old n|o v old n|o v old n new]; try done;
      try (by eapply frag_others); [|case_decide]; injection E as <-; simpl; by rewrite fn_lookup_insert_ne.
  - case_decide; [|done]. by injection E as <-.
  - case_decide; [|done]. by injection E as <-.
Qed.

Lemma fresh_among_spec js j s : (forall k, k ∉ js -> c_pc s k = Idle) -> fresh_among js j s = true -> fresh j s.
Proof.
  intros Hi. unfold fresh_among, fresh. destruct (c_pc s j) as [| | | | |o v old n new]; try done.
  rewrite forallb_forall. intros H k old' n' Hk Hl. destruct (decide (k ∈ js)) as [Hin|Hin]; [|by rewrite (Hi k Hin) in Hl].
  specialize (H k (proj1 (list_elem_of_In _ _) Hin)). rewrite Hl in H.
  apply orb_true_iff in H as [H|H]; [by apply bool_decide_eq_true in H|]. by apply negb_true_iff, bool_decide_eq_false in H.
Qed.

Lemma fresh_exec_run js l s0 s s' :
  run s0 s -> (forall k, k ∉ js -> c_pc s k = Idle) -> fresh_exec js l s = Some s' -> run s0 s'.
Proof.
  revert s. induction l as [|[j a] l IH]; intros s Hr Hi E; [by injection E as <-|]. simpl in E.
  destruct (bool_decide (j ∈ js) && fresh_among js j s) eqn:Hf; [|done]. apply andb_true_iff in Hf as [Hj Hf].
  apply bool_decide_eq_true in Hj. destruct (step cfg j a s) as [s1|] eqn:E1; [|done].
  apply (IH s1); [|intros k Hk; rewrite (step_others j a s s1 k E1); [by apply Hi|by intros ->]|exact E].
  eapply run_step; [exact Hr|by eapply fresh_among_spec|exact E1].
Qed.
End safe.

(** ** The operations of [Slab] are sequences of steps *)
Section sequential.
Context (cfg : Cfg) `{B : Bracket} `{IS : IntoState}.

(** A thread that is not interrupted. *)
Definition alone (j : Z) (a : action) (n : nat) : list (Z * action) := (j, a) :: replicate n (j, Tick).

Lemma exec_app l1 l2 s : exec cfg (l1 ++ l2) s = exec cfg l1 s ≫= exec cfg l2.
Proof. revert s. induction l1 as [|[j a] l1 IH]; intros s; [done|]. simpl. destruct (step cfg j a s); [apply IH|done]. Qed.

(** The loop of [update]: load, help, closure and compare-exchange. *)
Lemma loop_is_steps s j o v h r : c_pc s j = Started o v ->
  update_loop cfg [] j v free_cell (op_next o) (head_of s) (c_heap s) = Done (h, r) ->
  exists s', exec cfg (replicate (if r is Some _ then 4 else 3)%nat (j, Tick)) s = Some s' /\ c_heap s' = h /\ c_pc s' j = Idle /\
    (forall x, r = Some x -> x = d_inner (head_of s)).
Proof.
  intros Ep E. cbn [update_loop] in E. apply bind_done in E as (h1 & [] & E1 & E).
  apply bind_done in E as (h2 & r2 & E2 & E).
  assert (tick cfg j s = Some (at_pc j (Loaded o v (head_of s) (c_stamp s)) s)) as T1 by (unfold tick; by rewrite Ep).
  set (s1 := at_pc j (Loaded o v (head_of s) (c_stamp s)) s) in *.
  set (s2 := at_pc j (Helped o v (head_of s) (c_stamp s)) (on_heap h1 s1)).
  assert (tick cfg j s1 = Some s2) as T2.
  { unfold tick. cbn [s1 at_pc c_pc]. rewrite fn_lookup_insert. unfold frag. change (c_heap s1) with (c_heap s). by rewrite E1. }
  assert (forall A (f : A -> _) m h3 a, (m : M HS A) h1 = Done (h3, a) -> frag j m f s2 = Some (at_pc j (f a) (on_heap h3 s2))) as Tf.
  { intros A f m h3 a Em. unfold frag. change (c_heap s2) with h1. by rewrite Em. }
  destruct r2 as [[new log]|].
  - apply bind_done in E as (h3 & [] & E3 & E). apply bind_done in E as (h4 & cur & [= <- <-] & E).
    case_decide as Hd; [|done]. apply bind_done in E as (h5 & [] & [= <-] & E). injection E as <- <-.
    set (s3 := at_pc j (Ready o v (head_of s) (c_stamp s) new) (on_heap h3 s2)).
    assert (tick cfg j s2 = Some s3) as T3.
    { unfold tick. cbn [s2 at_pc c_pc]. rewrite fn_lookup_insert. rewrite (Tf _ _ _ h3 (Some new)); [done|].
      unfold bind. rewrite E2. cbn. by rewrite E3. }
    cbn [replicate exec step]. rewrite T1. cbn [mbind option_bind]. rewrite T2. cbn [mbind option_bind]. rewrite T3. cbn [mbind option_bind].
    unfold tick. cbn [s3 at_pc c_pc]. rewrite fn_lookup_insert. rewrite decide_True by exact Hd. cbn [mbind option_bind].
    eexists. split_and!; [done|done|apply fn_lookup_insert|]. by intros x [= <-].
  - injection E as <- <-. cbn [replicate exec step]. rewrite T1. cbn [mbind option_bind]. rewrite T2. cbn [mbind option_bind].
    unfold tick. cbn [s2 at_pc c_pc]. rewrite fn_lookup_insert. rewrite (Tf _ _ _ h2 None).
    2: { unfold bind. by rewrite E2. }
    cbn [mbind option_bind]. eexists. split_and!; [done|done|apply fn_lookup_insert|done].
Qed.

Lemma draw_done s : forall j, exists h v, draw cfg j s = Done (h, v) /\ hs_mem h = hs_mem s /\ forall A (k : Z -> M HS A),
  (version <- gets (fun s => version_next (help_load (get_ctx s) j j)) ;; when_ (recover_cas cfg) (help_store j j version) ;;; k version) s = k v h.
Proof.
  intros j. unfold draw, when_. destruct (recover_cas cfg); eexists _, _; (split_and!; [reflexivity|reflexivity|intros; reflexivity]).
Qed.

(** Without interference, the steps of a push are [stack::Global::push] and the
    steps of a pop are [heap::Shared::pop]. *)
Lemma push_is_steps s j hd rest h : c_pc s j = Idle -> NoDup (hd :: rest) -> Forall (fun i => i ∈ c_held s j) (hd :: rest) ->
  linked (hs_mem (c_heap s)) (hd :: rest) -> shared_push cfg j hd (List.last rest hd) (c_heap s) = Done (h, tt) ->
  exists s', exec cfg (alone j (StartPush (hd :: rest)) 4) s = Some s' /\ c_heap s' = h /\ c_pc s' j = Idle.
Proof.
  intros Hp Hnd Hh Hl E. unfold alone. cbn [exec step]. rewrite decide_True by done.
  destruct (draw_done (c_heap s) j) as (h1 & v & Ed & Em & Hk). unfold frag. rewrite Ed. cbn [mbind option_bind].
  unfold shared_push, global_push in E. apply bind_done in E as (h2 & r & E & E2). unfold update in E. rewrite Hk in E.
  apply bind_done in E as (h3 & old & [= <- <-] & E).
  assert (r <> None) as Hr by (intros ->; done). destruct r as [r|]; [|done]. injection E2 as <-.
  edestruct (loop_is_steps (at_pc j (Started (Push (hd :: rest)) v) (on_heap h1 s)) j (Push (hd :: rest)) v) as (s' & Ex & Eh & Ei & _);
    [apply fn_lookup_insert|exact E|]. exists s'. done.
Qed.

Lemma pop_is_steps s j h r : c_pc s j = Idle -> shared_pop cfg j (c_heap s) = Done (h, r) ->
  exists n s', exec cfg (alone j StartPop n) s = Some s' /\ c_heap s' = h /\ c_pc s' j = Idle.
Proof.
  intros Hp E. unfold shared_pop, global_is_empty, load in E. apply bind_done in E as (h0 & e & E0 & E).
  apply bind_done in E0 as (h1 & x & E1 & [= <- <-]). apply bind_done in E1 as (h2 & old & [= <- <-] & E1).
  apply bind_done in E1 as (h3 & [] & E1 & [= <- <-]).
  change (help cfg j (head_of s) (c_heap s) = Done (h3, tt)) in E1. change (cget free_cell (c_heap s)) with (head_of s) in E.
  unfold alone. set (s1 := at_pc j (Peeked (head_of s)) s).
  assert (step cfg j StartPop s = Some s1) as T1 by (cbn [step]; by rewrite decide_True).
  case_bool_decide as Hn.
  - injection E as <- <-. exists 1%nat. cbn [replicate exec]. rewrite T1. cbn [mbind option_bind step]. unfold tick.
    cbn [s1 at_pc c_pc]. rewrite fn_lookup_insert. unfold frag, bind. change (c_heap s1) with (c_heap s).
    rewrite E1, decide_True by exact Hn.
    eexists. split_and!; [done|done|apply fn_lookup_insert].
  - apply bind_done in E as (h4 & r4 & E & [= <- <-]). unfold update in E.
    destruct (draw_done h3 j) as (h5 & v & Ed & Em & Hk). rewrite Hk in E.
    apply bind_done in E as (h6 & old & [= <- <-] & E).
    set (s2 := at_pc j (Started Pop v) (on_heap h5 s1)).
    assert (tick cfg j s1 = Some s2) as T2.
    { unfold tick. cbn [s1 at_pc c_pc]. rewrite fn_lookup_insert. unfold frag, bind. change (c_heap s1) with (c_heap s).
      rewrite E1, decide_False by exact Hn. cbn [obind fst snd]. by rewrite Ed. }
    destruct (loop_is_steps s2 j Pop v h4 r4) as (s' & Ex & Eh & Ei & _); [apply fn_lookup_insert|exact E|].
    eexists (S _), s'. cbn [replicate exec]. rewrite T1. cbn [mbind option_bind step]. rewrite T2. split_and!; [exact Ex|done|done].
Qed.
End sequential.

(** ** Examples *)
Module Runs.
Definition cfg : Cfg := default_cfg false.
#[export] Existing Instance small_into.
#[export] Existing Instance Size.Small.bracket.

(** Threads 1 and 2 hold two slabs each, the stack is empty. *)
Definition held (j : Z) : gset Z := if decide (j = 1) then {[10; 11]} else if decide (j = 2) then {[12; 13]} else ∅.
Definition start : CS :=
  mkCS (mkHS (mkCtx ∅ ∅) (mkHeapMem ∅ ∅ (mkD None 0 None) (mkD None 0 None) ∅) []) (fun _ => Idle) held 0.

Lemma start_initial : initial [] start.
Proof.
  split; try done; [apply NoDup_nil_2|set_solver|].
  intros j k i. cbn [start c_held]. unfold held. repeat case_decide; subst; set_solver.
Qed.

Definition pop (j : Z) := alone j StartPop 5.
Definition push (j i : Z) := alone j (StartPush [i]) 4.

(** Thread 1 links its slabs and pushes both while thread 2 pushes one. *)
Definition trace : list (Z * action) :=
  [(1, Write 10 (Some 11)); (1, StartPush [10; 11]); (2, StartPush [12]); (1, Tick); (2, Tick); (1, Tick); (2, Tick);
   (1, Tick); (2, Tick); (1, Tick); (2, Tick); (2, Tick); (2, Tick); (2, Tick)] ++ pop 3.

Definition end_of (o : option CS) : CS := default start o.

(** Thread 3 has loaded the head while threads 1 and 2 pop and push. *)
Definition aba : list (Z * action) :=
  push 2 12 ++ push 1 11 ++ push 1 10 ++ alone 3 StartPop 4 ++ pop 2 ++ pop 2 ++ push 2 10 ++ push 2 13 ++ pop 1 ++ [(3, Tick)] ++ pop 1.

(** the premise is needed. In the default build versions repeat: a
    thread that loads a head it wrote itself, with an older version, sets its
    own version counter back ([help] stores to the slot that [update] reads).
    In this run of three threads a stale compare-exchange succeeds and two
    threads end up holding the same slab. *)
Theorem repeated_version_aba :
  initial [] start /\ exists s, exec cfg aba start = Some s /\ 11 ∈ c_held s 1 /\ 11 ∈ c_held s 2.
Proof.
  split; [apply start_initial|]. destruct (exec cfg aba start) as [s|] eqn:E.
  - exists s. split; [done|]. 
    assert (from_option (fun s => bool_decide (11 ∈ c_held s 1 /\ 11 ∈ c_held s 2)) false (exec cfg aba start) = true) as H by (vm_compute; reflexivity).
    rewrite E in H. by apply bool_decide_eq_true in H.
  - assert (from_option (fun _ => true) false (exec cfg aba start) = true) as H by (vm_compute; reflexivity). by rewrite E in H.
Qed.

Lemma trace_run : run cfg start (end_of (fresh_exec cfg [1; 2; 3] trace start)).
Proof. eapply (fresh_exec_run cfg [1; 2; 3] trace start start); [constructor|done|]. vm_compute. reflexivity. Qed.

Lemma stack_refines_witness : exists l', chain (hs_mem (c_heap (end_of (fresh_exec cfg [1; 2; 3] trace start)))) (d_inner (head_of (end_of (fresh_exec cfg [1; 2; 3] trace start)))) l' /\
  rtc (fun x y => exists j, stack_step j x y) ([], held) (l', c_held (end_of (fresh_exec cfg [1; 2; 3] trace start))).
Proof. apply (stack_refines cfg [] start); [apply start_initial|apply trace_run]. Defined.

Lemma slabs_one_place_witness : exists l', chain (hs_mem (c_heap (end_of (fresh_exec cfg [1; 2; 3] trace start)))) (d_inner (head_of (end_of (fresh_exec cfg [1; 2; 3] trace start)))) l' /\
  NoDup l' /\ forall i, (i ∈ l' \/ exists j, i ∈ c_held (end_of (fresh_exec cfg [1; 2; 3] trace start)) j) <-> (i ∈ [] \/ exists j, i ∈ held j).
Proof.
  destruct (slabs_one_place cfg [] start _ start_initial trace_run) as (l' & Hc & Hn & _ & _ & Hp).
  exists l'. split_and!; [exact Hc|exact Hn|]. intros i. symmetry. apply Hp.
Defined.

(** After the trace the stack holds 10 and 11, and thread 3 has 12. *)
Example trace_end : d_inner (head_of (end_of (fresh_exec cfg [1; 2; 3] trace start))) = Some 10 /\ c_held (end_of (fresh_exec cfg [1; 2; 3] trace start)) 3 = {[12]}.
Proof. split; vm_compute; reflexivity. Qed.
End Runs.
