(* ===== verification/Ivshmem.v ===== *)
(** * Ivshmem: the commands of the ivshmem driver
    (extern/shm/src/backend/ivshmem.rs, module [driver])

    [Shm.ivshmem_open] takes the driver's answer for an id and a size from
    [os_ioctl]. Here the request number and the argument structure of the two
    [ioctl] calls are built as the module builds them, and the driver is a
    function from a request and a structure to an error or a structure. *)

From Stdlib Require Import ZArith Lia Bool.
From stdpp Require Import base numbers option list.
From S2P Require Import Prelude Text Shm.
Local Open Scope Z_scope.

(** ** Request numbers *)
Inductive Dir := DirNone | W | R_ | RW.

Definition dir_bits (d : Dir) : Z :=
  match d with DirNone => 0 | W => 1 | R_ => 2 | RW => 3 end.

Record Ioctl := mkIoctl { function : Z; driver : Z; arg_size : Z; dir : Dir }.

(** The packed form: fields from the least significant bit on. *)
Definition packed (i : Ioctl) : Z :=
  Z.lor (function i) (Z.lor (Z.shiftl (driver i) 8) (Z.lor (Z.shiftl (arg_size i) 16) (Z.shiftl (dir_bits (dir i)) 30))).

Definition IOCTL_MAGIC : Z := 102.

(** ** Argument structures *)
Record region_desc := mkRegion { rd_offset : Z; rd_length : Z; prog_id : list Z }.
Record vcxl_find_alloc := mkFind { desc : region_desc; existing : Z }.

(** [size_of] under [repr(C)]: two words and 28 bytes, rounded up to words. *)
Definition SIZE_REGION : Z := next_multiple_of (8 + 8 + 28) 8.
Definition SIZE_FIND : Z := next_multiple_of (SIZE_REGION + 4) 8.

Definition IOCTL_FIND_ALLOC : Ioctl := mkIoctl 8 IOCTL_MAGIC SIZE_FIND RW.
Definition IOCTL_FREE : Ioctl := mkIoctl 7 IOCTL_MAGIC SIZE_REGION W.

(** [array[..n].copy_from_slice(bytes)] on 28 zero bytes; [None] is the panic. *)
Definition put_id (id : list Z) : option (list Z) :=
  if decide (length id <= 28)%nat then Some (id ++ replicate (28 - length id) 0) else None.

Section driver.
(** The driver: request number and structure to an error or a structure. *)
Context (find_ioctl : Z -> vcxl_find_alloc -> Z + vcxl_find_alloc) (free_ioctl : Z -> region_desc -> Z + unit).

Definition find_cxl_alloc_nomap (id : list Z) (size : Z) : outcome (Z + vcxl_find_alloc) :=
  if decide (length id < 28)%nat then
    match put_id id with
    | None => Panic
    | Some bytes => Done (find_ioctl (packed IOCTL_FIND_ALLOC) (mkFind (mkRegion 0 size bytes) 0))
    end
  else Panic.

Definition cxl_free (id : list Z) (offset size : Z) : outcome (Z + unit) :=
  match put_id id with
  | None => Panic
  | Some bytes => Done (free_ioctl (packed IOCTL_FREE) (mkRegion (wrap 64 offset) size bytes))
  end.
End driver.

(** ** Properties *)

Definition request_ok (i : Ioctl) : Prop := in_range 8 (function i) /\ in_range 8 (driver i) /\ in_range 14 (arg_size i).

Lemma packed_sum i : request_ok i -> packed i = function i + 2 ^ 8 * (driver i + 2 ^ 8 * (arg_size i + 2 ^ 14 * dir_bits (dir i))).
Proof.
  intros (Hf & Hd & Hs). unfold in_range in *. unfold packed.
  assert (0 <= dir_bits (dir i) < 2 ^ 2) as Hb by (destruct (dir i); simpl; lia).
  replace (Z.shiftl (dir_bits (dir i)) 30) with (Z.shiftl (Z.shiftl (dir_bits (dir i)) 14) 16) by (rewrite Z.shiftl_shiftl by lia; done).
  rewrite <- Z.shiftl_lor, (lor_field (arg_size i)) by lia.
  replace (Z.shiftl (arg_size i + 2 ^ 14 * dir_bits (dir i)) 16) with (Z.shiftl (Z.shiftl (arg_size i + 2 ^ 14 * dir_bits (dir i)) 8) 8)
    by (rewrite Z.shiftl_shiftl by lia; done).
  rewrite <- Z.shiftl_lor, (lor_field (driver i)), (lor_field (function i)) by lia. done.
Qed.

(** A request number determines its fields, as the kernel decodes them. *)
Theorem ioctl_roundtrip i : request_ok i ->
  field (packed i) 0 8 = function i /\ field (packed i) 8 8 = driver i /\ field (packed i) 16 14 = arg_size i /\
  field (packed i) 30 2 = dir_bits (dir i).
Proof.
  intros Hi. rewrite !field_spec, (packed_sum i Hi) by lia. destruct Hi as (Hf & Hd & Hs). unfold in_range in *.
  assert (0 <= dir_bits (dir i) < 4) as Hb by (destruct (dir i); simpl; lia).
  split_and!; Z.div_mod_to_equations; lia.
Qed.

(** The numbers of [linux/ioctl.h] for [_IOWR('f', 8, struct)] and
    [_IOW('f', 7, struct)] with structures of 56 and 48 bytes. *)
Example request_numbers : packed IOCTL_FIND_ALLOC = 0xC0386608 /\ packed IOCTL_FREE = 0x40306607.
Proof. done. Qed.

(** The string a C program reads from [prog_id]. *)
Fixpoint c_string (l : list Z) : list Z :=
  match l with
  | [] => []
  | b :: l => if decide (b = 0) then [] else b :: c_string l
  end.

Lemma c_string_app id rest : Forall (fun b => b <> 0) id -> c_string (id ++ 0 :: rest) = id.
Proof. induction 1 as [|b id Hb _ IH]; [done|]. simpl. by rewrite decide_False, IH. Qed.

(** The driver is asked for the id it was given, in a terminated string, with
    the size; ids that do not fit are refused before the call. *)
Theorem find_passes_id find_ioctl id size : Forall (fun b => b <> 0) id ->
  (length id < 28)%nat /\ (exists bytes, find_cxl_alloc_nomap find_ioctl id size =
      Done (find_ioctl 0xC0386608 (mkFind (mkRegion 0 size bytes) 0)) /\ length bytes = 28%nat /\ c_string bytes = id) \/
  (28 <= length id)%nat /\ find_cxl_alloc_nomap find_ioctl id size = Panic.
Proof.
  intros Hid. unfold find_cxl_alloc_nomap, put_id. case_decide as Hl; [left|right; split; [lia|done]]. split; [done|].
  rewrite decide_True by lia. eexists. split_and!; [done| |].
  - rewrite length_app, length_replicate. lia.
  - replace (28 - length id)%nat with (S (27 - length id)) by lia. by apply c_string_app.
Qed.

(** [cxl_free] has no such check: an id of 28 bytes is sent unterminated. *)
Lemma free_unterminated free_ioctl offset size :
  cxl_free free_ioctl (replicate 28 97) offset size = Done (free_ioctl 0x40306607 (mkRegion (wrap 64 offset) size (replicate 28 97))) /\
  cxl_free free_ioctl (replicate 29 97) offset size = Panic.
Proof. done. Qed.

(** [Shm.ivshmem_open] over this driver. *)
Definition answer (r : Z + vcxl_find_alloc) : Z + (Z * bool) :=
  match r with
  | inl e => inl e
  | inr f => inr (rd_offset (desc f), negb (existing f =? 0))
  end.

Lemma ivshmem_open_driver os find_ioctl id size r s :
  find_cxl_alloc_nomap find_ioctl id size = Done r -> os_ioctl os (calls s) id size = answer r ->
  ivshmem_open os id size s =
    match r with
    | inl _ => Panic
    | inr f => Done (tick s, inr (mkFile (Some FdIvshmem) size (rd_offset (desc f)) (existing f =? 0) 0 None))
    end.
Proof.
  intros Hf Ho. unfold find_cxl_alloc_nomap in Hf. case_decide as Hl; [|done].
  unfold ivshmem_open, bind, gets, modify, assert_. simpl. rewrite (proj2 (Z.ltb_lt _ _)) by lia. simpl. rewrite Ho.
  destruct r as [e|f]; [done|]. simpl. by destruct (existing f =? 0).
Qed.
