(* ===== verification/CrashLogic.v ===== *)
(** * CrashLogic: concurrent programs whose threads may stop at any access

    A thread of the recovery experiments panics at some point of its program and
    is started again on the memory it left behind (extern/memento,
    [PoolHandle::execute]). A program is therefore a sequence of atomic accesses
    to a state ([M] programs of [Prelude]). [cwp] is a logic for one thread
    among others: between its accesses the others act as the rely relation [R]
    allows, every access of the thread is one that the guarantee [G] allows, and
    the crash condition [C] holds at all points. [recovered_correct] deals with
    a thread that crashes and starts again any number of times,
    [threads_correct] with any number of such threads that run in parallel. *)

From Stdlib Require Import ZArith Lia.
From stdpp Require Import base option numbers functions relations list.
From S2P Require Import Prelude.

Declare Scope crash_scope.
Delimit Scope crash_scope with crash.

(** ** Programs *)
Section programs.
Context {S : Type}.

Inductive P (A : Type) : Type :=
| PRet (a : A)
| PAct (X : Type) (m : M S X) (k : X -> P A).
Arguments PRet {A}.
Arguments PAct {A X}.

Definition act {X} (m : M S X) : P X := PAct m PRet.

Fixpoint pbind {A B} (p : P A) (k : A -> P B) : P B :=
  match p with
  | PRet a => k a
  | PAct m k' => PAct m (fun x => pbind (k' x) k)
  end.

(** Complete executions without interference. *)
Fixpoint prun {A} (p : P A) : M S A :=
  match p with
  | PRet a => ret a
  | PAct m k => bind m (fun x => prun (k x))
  end.

(** The first [n] accesses: the state and the rest of the program. *)
Fixpoint pcut {A} (n : nat) (p : P A) (s : S) : outcome (S * P A) :=
  match n, p with
  | O, _ | _, PRet _ => Done (s, p)
  | Datatypes.S n, PAct m k => obind (m s) (fun r => pcut n (k (snd r)) (fst r))
  end.
End programs.
Arguments P : clear implicits.
Arguments PRet {S A}.
Arguments PAct {S A X}.

Notation "x '<-' p ;; q" := (pbind p (fun x => q))
  (at level 100, p at next level, right associativity) : crash_scope.
Notation "p ;;; q" := (pbind p (fun _ => q))
  (at level 100, right associativity) : crash_scope.

(** ** Crash weakest preconditions *)
Section logic.
Context {S : Type} (R G : S -> S -> Prop) (D : Prop).

(** One access: it returns; if [D] holds it may also never return (a loop that
    others keep busy). *)
Definition awp {X} (m : M S X) (Q : S -> X -> Prop) (s : S) : Prop :=
  match m s with Done (s', x) => Q s' x | Diverge => D | _ => False end.

Fixpoint cwp {A} (p : P S A) (Q : S -> A -> Prop) (C : S -> Prop) (s : S) : Prop :=
  match p with
  | PRet a => C s /\ Q s a
  | PAct m k => C s /\ forall s1, R s s1 -> awp m (fun s2 x => G s1 s2 /\ cwp (k x) Q C s2) s1
  end.

Lemma awp_conseq {X} (m : M S X) (Q Q' : S -> X -> Prop) s : awp m Q s -> (forall s x, Q s x -> Q' s x) -> awp m Q' s.
Proof. unfold awp. destruct (m s) as [[s' x]| | |]; naive_solver. Qed.

Lemma awp_gets {X} (f : S -> X) (Q : S -> X -> Prop) s : Q s (f s) -> awp (gets f) Q s.
Proof. done. Qed.
Lemma awp_modify (f : S -> S) (Q : S -> unit -> Prop) s : Q (f s) tt -> awp (modify f) Q s.
Proof. done. Qed.

Lemma cwp_crash {A} (p : P S A) Q C s : cwp p Q C s -> C s.
Proof. destruct p; simpl; tauto. Qed.

Lemma cwp_conseq {A} (p : P S A) (Q Q' : S -> A -> Prop) (C C' : S -> Prop) s :
  cwp p Q C s -> (forall s a, Q s a -> Q' s a) -> (forall s, C s -> C' s) -> cwp p Q' C' s.
Proof.
  intros H HQ HC. revert s H. induction p as [a|X m k IH]; intros s [Hc H]; (split; [by apply HC|]); [by apply HQ|].
  intros s1 H1. eapply awp_conseq; [by apply H|]. intros s2 x [Hg Hx]. split; [done|by apply IH].
Qed.

(** The crash condition holds at the end too. *)
Lemma cwp_end {A} (p : P S A) (Q : S -> A -> Prop) (C : S -> Prop) s : cwp p Q C s -> cwp p (fun s a => C s /\ Q s a) C s.
Proof.
  revert s. induction p as [a|X m k IH]; intros s [Hc H]; [done|]. split; [done|].
  intros s1 H1. eapply awp_conseq; [by apply H|]. intros s2 x [Hg Hx]. split; [done|by apply IH].
Qed.

Lemma cwp_ret {A} (a : A) (Q : S -> A -> Prop) (C : S -> Prop) s : C s -> Q s a -> cwp (PRet a) Q C s.
Proof. done. Qed.

Lemma cwp_act {X} (m : M S X) (Q : S -> X -> Prop) (C : S -> Prop) s :
  C s -> (forall s1, R s s1 -> awp m (fun s2 x => G s1 s2 /\ C s2 /\ Q s2 x) s1) -> cwp (act m) Q C s.
Proof. done. Qed.

Lemma cwp_bind {A B} (p : P S A) (k : A -> P S B) Q (C : S -> Prop) s :
  cwp p (fun s a => cwp (k a) Q C s) C s -> cwp (pbind p k) Q C s.
Proof.
  revert s. induction p as [a|X m k' IH]; intros s [Hc H]; [done|]. split; [done|].
  intros s1 H1. eapply awp_conseq; [by apply H|]. intros s2 x [Hg Hx]. split; [done|by apply IH].
Qed.

(** Facts that neither the others nor the thread itself can invalidate. *)
Lemma cwp_frame {A} (p : P S A) Q (C F : S -> Prop) s :
  (forall s s', F s -> R s s' -> F s') -> (forall s s', F s -> G s s' -> F s') -> cwp p Q C s -> F s ->
  cwp p (fun s a => Q s a /\ F s) (fun s => C s /\ F s) s.
Proof.
  intros HR HG. revert s. induction p as [a|X m k IH]; intros s [Hc H] HF; [done|]. split; [done|].
  intros s1 H1. eapply awp_conseq; [by apply H|]. intros s2 x [Hg Hx]. split; [done|]. apply IH; [done|]. eapply HG; [|done]. by eapply HR.
Qed.

(** ** Executions with crashes *)

(** Where a thread can stop, with interference between its accesses. *)
Inductive stops {A} : P S A -> S -> S -> Prop :=
| stop_here p s : stops p s s
| stop_later X (m : M S X) k s s1 s2 x s3 :
    R s s1 -> m s1 = Done (s2, x) -> stops (k x) s2 s3 -> stops (PAct m k) s s3.

(** Complete runs. *)
Inductive ends {A} : P S A -> S -> S -> A -> Prop :=
| end_ret a s : ends (PRet a) s s a
| end_act X (m : M S X) k s s1 s2 x s3 a :
    R s s1 -> m s1 = Done (s2, x) -> ends (k x) s2 s3 a -> ends (PAct m k) s s3 a.

Lemma cwp_stops {A} (p : P S A) Q C s s' : cwp p Q C s -> stops p s s' -> C s'.
Proof.
  intros H Hs. induction Hs as [p s|X m k s s1 s2 x s3 H1 Hm _ IH]; [by eapply cwp_crash|].
  apply IH. destruct H as [_ H]. specialize (H _ H1). unfold awp in H. rewrite Hm in H. apply H.
Qed.

Lemma cwp_ends {A} (p : P S A) Q C s s' a : cwp p Q C s -> ends p s s' a -> Q s' a.
Proof.
  intros H Hs. induction Hs as [a s|X m k s s1 s2 x s3 a H1 Hm _ IH]; [apply H|].
  apply IH. destruct H as [_ H]. specialize (H _ H1). unfold awp in H. rewrite Hm in H. apply H.
Qed.

(** Total correctness: unless accesses may diverge there is a complete run. *)
Lemma cwp_ends_exist {A} (p : P S A) Q C s : ~ D -> (forall s, R s s) -> cwp p Q C s -> exists s' a, ends p s s' a /\ Q s' a.
Proof.
  intros HD HR. revert s. induction p as [a|X m k IH]; intros s [Hc H].
  - exists s, a. split; [constructor|done].
  - specialize (H s (HR s)). unfold awp in H. destruct (m s) as [[s2 x]| | |] eqn:E; try done.
    destruct (IH x s2) as (s' & a & He & Hq); [apply H|]. exists s', a. split; [|done]. by econstructor.
Qed.

(** Every run ends, whatever the others do between the accesses: no access
    panics or fails to return, and the result satisfies [Q]. (Programs are
    finite trees: a run that can always go on comes to its end.) *)
Fixpoint all_end {A} (p : P S A) (Q : S -> A -> Prop) (s : S) : Prop :=
  match p with
  | PRet a => Q s a
  | PAct m k => forall s1, R s s1 -> match m s1 with Done (s2, x) => all_end (k x) Q s2 | _ => False end
  end.

Lemma cwp_all_end {A} (p : P S A) (Q : S -> A -> Prop) C s : ~ D -> cwp p Q C s -> all_end p Q s.
Proof.
  intros HD. revert s. induction p as [a|X m k IH]; intros s [Hc H]; [done|]. intros s1 H1. specialize (H s1 H1).
  unfold awp in H. destruct (m s1) as [[s2 x]| | |]; try done. apply IH, H.
Qed.

Lemma all_end_conseq {A} (p : P S A) (Q Q' : S -> A -> Prop) s : all_end p Q s -> (forall s a, Q s a -> Q' s a) -> all_end p Q' s.
Proof.
  intros H HQ. revert s H. induction p as [a|X m k IH]; intros s H; [by apply HQ|]. intros s1 H1. specialize (H s1 H1).
  destruct (m s1) as [[s2 x]| | |]; try done. by apply IH.
Qed.

(** In particular the run of the thread alone. *)
Lemma all_end_alone {A} (p : P S A) (Q : S -> A -> Prop) s : (forall s, R s s) -> all_end p Q s ->
  exists s' a, prun p s = Done (s', a) /\ Q s' a.
Proof.
  intros HR. revert s. induction p as [a|X m k IH]; intros s H; [by exists s, a|]. specialize (H s (HR s)). simpl.
  unfold bind. destruct (m s) as [[s2 x]| | |]; try done. destruct (IH x s2 H) as (s' & a & E & Hq). by exists s', a.
Qed.

(** A program that is started again after every crash, on the memory that is
    left ([boot] forgets what only the thread knew); other threads act while it
    is down. It crashes at the points that are considered. *)
Inductive recovered_at {A} (can : S -> Prop) (boot : S -> S) (p : P S A) : S -> S -> A -> Prop :=
| rec_at_ends s s' a : ends p s s' a -> recovered_at can boot p s s' a
| rec_at_crash s s1 s2 s' a : stops p s s1 -> can s1 -> R s1 s2 -> recovered_at can boot p (boot s2) s' a -> recovered_at can boot p s s' a.

Theorem recovered_at_correct {A} (can : S -> Prop) boot (p : P S A) (I : S -> Prop) (Q : S -> A -> Prop) (C : S -> Prop) :
  (forall s, I s -> cwp p Q C s) -> (forall s s', C s -> can s -> R s s' -> I (boot s')) ->
  forall s s' a, I s -> recovered_at can boot p s s' a -> Q s' a.
Proof.
  intros Hp Hc s s' a HI Hr. induction Hr as [s s' a He|s s1 s2 s' a Hs Hcan HR _ IH].
  - eapply cwp_ends; [by apply Hp|done].
  - apply IH. eapply Hc; [|done|done]. eapply cwp_stops; [by apply Hp|done].
Qed.

(** The states in which such a program is started: the first one, and the ones
    after any number of crashes, of whichever attempt. *)
Inductive restarted_at {A} (can : S -> Prop) (boot : S -> S) (p : P S A) : S -> S -> Prop :=
| res_first s : restarted_at can boot p s s
| res_crash s s1 s2 s' : stops p s s1 -> can s1 -> R s1 s2 -> restarted_at can boot p (boot s2) s' -> restarted_at can boot p s s'.

Lemma restarted_at_inv {A} (can : S -> Prop) boot (p : P S A) (I : S -> Prop) (Q : S -> A -> Prop) (C : S -> Prop) :
  (forall s, I s -> cwp p Q C s) -> (forall s s', C s -> can s -> R s s' -> I (boot s')) ->
  forall s s', I s -> restarted_at can boot p s s' -> I s'.
Proof.
  intros Hp Hc s s' HI Hr. induction Hr as [s|s s1 s2 s' Hs Hcan HR _ IH]; [done|].
  apply IH. eapply Hc; [|done|done]. eapply cwp_stops; [by apply Hp|done].
Qed.

(** Crashes anywhere. *)
Definition recovered {A} : (S -> S) -> P S A -> S -> S -> A -> Prop := recovered_at (fun _ => True).

Lemma rec_ends {A} boot (p : P S A) s s' a : ends p s s' a -> recovered boot p s s' a.
Proof. apply rec_at_ends. Qed.
Lemma rec_crash {A} boot (p : P S A) s s1 s2 s' a : stops p s s1 -> R s1 s2 -> recovered boot p (boot s2) s' a -> recovered boot p s s' a.
Proof. intros Hs HR Hr. by eapply rec_at_crash. Qed.

Theorem recovered_correct {A} boot (p : P S A) (I : S -> Prop) (Q : S -> A -> Prop) (C : S -> Prop) :
  (forall s, I s -> cwp p Q C s) -> (forall s s', C s -> R s s' -> I (boot s')) ->
  forall s s' a, I s -> recovered boot p s s' a -> Q s' a.
Proof. intros Hp Hc. apply (recovered_at_correct (fun _ => True) boot p I Q C); [done|]. intros s s' HC _. by apply Hc. Qed.

(** Executable runs. *)
Lemma pcut_stops {A} (HR : forall s, R s s) n : forall (p : P S A) s s' p', pcut n p s = Done (s', p') -> stops p s s'.
Proof.
  induction n as [|n IH]; intros p s s' p' E; [injection E as <- _; constructor|].
  destruct p as [a|X m k]; simpl in E; [injection E as <- _; constructor|].
  destruct (m s) as [[s1 x]| | |] eqn:Em; try done. eapply stop_later; [apply HR|exact Em|]. by eapply IH.
Qed.

Lemma prun_ends {A} (HR : forall s, R s s) (p : P S A) : forall s s' a, prun p s = Done (s', a) -> ends p s s' a.
Proof.
  induction p as [b|X m k IH]; intros s s' a E; simpl in E; [injection E as <- <-; constructor|].
  apply bind_done in E as (s1 & x & Em & E). eapply end_act; [apply HR|exact Em|]. by apply IH.
Qed.

(** What others do does not invalidate a thread's assertions. *)
Lemma cwp_rely {A} (p : P S A) (Q : S -> A -> Prop) (C : S -> Prop) s s' :
  (forall s1, R s' s1 -> R s s1) -> (C s -> C s') -> (forall a, Q s a -> Q s' a) -> cwp p Q C s -> cwp p Q C s'.
Proof.
  intros HT HC HQ H. destruct p as [a|X m k]; destruct H as [Hc H]; (split; [by apply HC|]); [by apply HQ|].
  intros s1 H1. apply H. by apply HT.
Qed.

(** An access from a state that satisfies an assertion which others keep. *)
Definition stable_R (E : S -> Prop) : Prop := forall s s', E s -> R s s' -> E s'.

Lemma stable_and (E E' : S -> Prop) : stable_R E -> stable_R E' -> stable_R (fun s => E s /\ E' s).
Proof. intros H H' s s' [HE HE'] HR. split; [by eapply H|by eapply H']. Qed.

Lemma cwp_step_from {A X} (E : S -> Prop) (m : M S X) (k : X -> P S A) Q (C : S -> Prop) s :
  stable_R E -> E s -> C s -> (forall s1, E s1 -> R s s1 -> awp m (fun s2 x => G s1 s2 /\ cwp (k x) Q C s2) s1) -> cwp (pbind (act m) k) Q C s.
Proof. intros HE Hs HC H. split; [done|]. intros s1 HR. apply H; [by eapply HE|done]. Qed.

Lemma cwp_act_from {X} (E : S -> Prop) (m : M S X) Q (C : S -> Prop) s :
  stable_R E -> E s -> C s -> (forall s1, E s1 -> R s s1 -> awp m (fun s2 x => G s1 s2 /\ C s2 /\ Q s2 x) s1) -> cwp (act m) Q C s.
Proof. intros HE Hs HC H. split; [done|]. intros s1 HR. apply H; [by eapply HE|done]. Qed.
End logic.

(** ** Threads in parallel *)
Section parallel.
Context {S A : Type} (prog : Z -> P S A) (boot : Z -> S -> S).

Abbreviation pool := (Z -> P S A).

(** One access of a thread, or its crash and restart, from the states that are
    considered. *)
Context (ok : S -> Prop) (can_crash : Z -> S -> Prop).

Inductive par_step : S * pool -> S * pool -> Prop :=
| par_act i s ps X (m : M S X) k s' x :
    ok s -> ps i = PAct m k -> m s = Done (s', x) -> par_step (s, ps) (s', <[i := k x]> ps)
| par_crash i s ps : ok s -> can_crash i s -> par_step (s, ps) (boot i s, <[i := prog i]> ps).

(** A schedule: turns of threads and crashes. *)
Inductive turn := Go (i : Z) | Crash (i : Z).

Definition take_turn (t : turn) (c : S * pool) : option (S * pool) :=
  match t with
  | Go i =>
      match c.2 i with
      | PRet _ => Some c
      | PAct m k => match m c.1 with Done (s, x) => Some (s, <[i := k x]> c.2) | _ => None end
      end
  | Crash i => Some (boot i c.1, <[i := prog i]> c.2)
  end.

Fixpoint psched (l : list turn) (c : S * pool) : option (S * pool) :=
  match l with [] => Some c | t :: l => take_turn t c ≫= psched l end.

Lemma psched_par (Hok : forall s, ok s) (Hcr : forall i s, can_crash i s) l : forall c c', psched l c = Some c' -> rtc par_step c c'.
Proof.
  induction l as [|t l IH]; intros c c' E; [injection E as <-; constructor|]. cbn [psched] in E.
  apply bind_Some in E as (c1 & E1 & E). apply IH in E. destruct c as [s ps], t as [i|i]; unfold take_turn in E1; cbn [fst snd] in E1.
  - destruct (ps i) as [a|X m k] eqn:Ei; [by injection E1 as <-|]. destruct (m s) as [[s1 x]| | |] eqn:Em; try done. injection E1 as <-.
    eapply rtc_l; [by eapply par_act|done].
  - injection E1 as <-. eapply rtc_l; [by apply par_crash|done].
Qed.

(** Schedules without crashes through states that pass a test. *)
Fixpoint csched (test : S -> bool) (l : list Z) (c : S * pool) : option (S * pool) :=
  match l with [] => Some c | i :: l => if test c.1 then take_turn (Go i) c ≫= csched test l else None end.

Lemma csched_par test (Htest : forall s, test s = true -> ok s) l : forall c c', csched test l c = Some c' -> rtc par_step c c'.
Proof.
  induction l as [|i l IH]; intros c c' E; [injection E as <-; constructor|]. cbn [csched] in E.
  destruct (test c.1) eqn:Et; [|done]. apply bind_Some in E as (c1 & E1 & E). apply IH in E. destruct c as [s ps]. unfold take_turn in E1; cbn [fst snd] in *.
  destruct (ps i) as [a|X m k] eqn:Ei; [by injection E1 as <-|]. destruct (m s) as [[s1 x]| | |] eqn:Em; try done. injection E1 as <-.
  eapply rtc_l; [eapply par_act; [by apply Htest|done|done]|done].
Qed.

(** [R] is the rely relation within the states that are considered, [R0] the
    one for all. *)
Context (R R0 G : Z -> S -> S -> Prop) (D : Prop) (I C : Z -> S -> Prop) (Q : Z -> S -> A -> Prop).
Hypothesis R_refl : forall i s, ok s -> R i s s.
Hypothesis R_trans : forall i s1 s2 s3, R0 i s1 s2 -> R i s2 s3 -> R i s1 s3.
Hypothesis G_R : forall i j s s', i <> j -> G i s s' -> R0 j s s'.
Hypothesis C_stable : forall i s s', C i s -> R0 i s s' -> C i s'.
Hypothesis Q_stable : forall i s s' a, Q i s a -> R0 i s s' -> Q i s' a.
Hypothesis boot_ok : forall i s, C i s -> can_crash i s -> I i (boot i s) /\ G i s (boot i s).
Hypothesis prog_ok : forall i s, I i s -> cwp (R i) (G i) D (prog i) (Q i) (C i) s.

(** Every thread, from whichever point it is at, is correct; in particular no
    access panics, and a thread that has ended satisfies its postcondition. *)
Theorem threads_correct s0 s ps : (forall i, I i s0) -> rtc par_step (s0, prog) (s, ps) ->
  forall i, cwp (R i) (G i) D (ps i) (Q i) (C i) s.
Proof.
  intros H0 Hr. change (forall i, cwp (R i) (G i) D ((s, ps).2 i) (Q i) (C i) (s, ps).1).
  revert Hr. generalize (s, ps). apply (rtc_ind_r (fun c => forall i, cwp (R i) (G i) D (c.2 i) (Q i) (C i) c.1)).
  { intros i. by apply prog_ok. }
  clear s ps. intros c c' _ Hs IH.
  assert (forall i j s s' ps, i <> j -> G j s s' -> cwp (R i) (G i) D (ps i) (Q i) (C i) s -> cwp (R i) (G i) D (ps i) (Q i) (C i) s') as Hother.
  { intros i j s s' ps Hij Hg H. assert (R0 i s s') as HR by (eapply G_R; [|exact Hg]; done).
    eapply cwp_rely; [intros s1; by apply R_trans|intros Hc; by eapply C_stable|intros a Hq; by eapply Q_stable|done]. }
  destruct Hs as [j s ps X m k s' x Hok Hp Hm|j s ps Hok Hcr]; cbn [fst snd] in *; intros i.
  - assert (awp D m (fun s2 x => G j s s2 /\ cwp (R j) (G j) D (k x) (Q j) (C j) s2) s) as Ha.
    { specialize (IH j). rewrite Hp in IH. destruct IH as [_ IH]. apply IH. by apply R_refl. }
    unfold awp in Ha. rewrite Hm in Ha. destruct Ha as [Hg Hc]. destruct (decide (i = j)) as [->|Hne].
    + by rewrite fn_lookup_insert.
    + rewrite fn_lookup_insert_ne by done. by eapply Hother.
  - destruct (boot_ok j s) as [HI Hg]; [eapply cwp_crash; apply IH|done|]. destruct (decide (i = j)) as [->|Hne].
    + rewrite fn_lookup_insert. by apply prog_ok.
    + rewrite fn_lookup_insert_ne by done. by eapply Hother.
Qed.
End parallel.
