(* ===== verification/HeapHand.v ===== *)
(** * HeapHand: slabs that move through a thread's hand

    Between its accesses a heap operation keeps slabs in hand: a batch on its
    way to the global stack, a slab popped from it, fresh slabs, a slab claimed
    by the last remote free. The lemmas here are the moves into and out of a
    hand, as changes of the invariant of [HeapInv] whose [Hands] change too. *)

From Stdlib Require Import ZArith Lia.
From stdpp Require Import base numbers option gmap fin_maps functions list.
From S2P Require Import Prelude Bitset Size Data Cas Slab Heap HeapLists HeapRules HeapInv HeapSafe.
Local Open Scope Z_scope.

(** ** Segments: slabs linked one after the other *)
Section segments.
Context `{B : Bracket}.
Implicit Types (m : HeapMem) (l : list Z).

Fixpoint seg m l : Prop :=
  match l with
  | i :: ((j :: _) as l) => next (loc m i) = Some j /\ seg m l
  | _ => True
  end.

Lemma chain_seg m h l k : chain m h (l ++ k) -> seg m l.
Proof.
  revert h. induction l as [|i l IH]; intros h; [done|]. intros [_ Hc]. destruct l as [|j l]; [done|].
  split; [by destruct Hc|by eapply IH].
Qed.

Lemma seg_chain m i l h k : seg m (i :: l) -> next (loc m (List.last (i :: l) i)) = h -> chain m h k -> chain m (Some i) ((i :: l) ++ k).
Proof.
  revert i. induction l as [|j l IH]; intros i Hs Hn Hk; [simpl in *; by rewrite Hn|].
  destruct Hs as [Hi Hs]. split; [done|]. rewrite Hi. apply IH; [done| |done].
  change (List.last (i :: j :: l) i) with (List.last (j :: l) i) in Hn. by rewrite (last_default j l j i).
Qed.

Lemma seg_frame m m' l : seg m l -> (forall i, i ∈ l -> loc m' i = loc m i) -> seg m' l.
Proof.
  induction l as [|i l IH]; [done|]. destruct l as [|j l]; [done|]. intros [Hi Hs] Hf. split.
  - rewrite Hf by set_solver. done.
  - apply IH; [done|]. intros k Hk. apply Hf. set_solver.
Qed.

(** Writing the link of the last slab keeps the segment. *)
Lemma seg_last m i l nx : NoDup (i :: l) -> seg m (i :: l) ->
  seg (put_loc (List.last (i :: l) i) (set_next nx (loc m (List.last (i :: l) i))) m) (i :: l).
Proof.
  revert i. induction l as [|j l IH]; intros i Hnd Hs; [done|].
  apply NoDup_cons in Hnd as [Hi Hnd]. destruct Hs as [Hn Hs].
  change (List.last (i :: j :: l) i) with (List.last (j :: l) i). rewrite (last_default j l i j).
  split; [|by apply IH]. rewrite loc_put_loc, decide_False; [done|]. intros ->. apply Hi, last_in.
Qed.

Lemma chain_det m h l l' : chain m h l -> chain m h l' -> l = l'.
Proof.
  revert h l'. induction l as [|i l IH]; intros h [|j l']; simpl; [done|by intros -> [? _]|by intros [-> _]|].
  intros [-> Hl] [[= <-] Hl']. f_equal. by eapply IH.
Qed.

(** ** Batches entering and leaving the lists *)
Implicit Types (lst : place -> list Z) (pl : Z -> option place).

Lemma li_take lst pl m m' p i l1 l2 :
  LI lst pl m -> p <> PDet -> lst p = (i :: l1) ++ l2 ->
  (forall r, r <> p -> hd_of m' r = hd_of m r) -> hd_of m' p = next (loc m (List.last (i :: l1) i)) ->
  (forall j, next (loc m' j) = next (loc m j)) ->
  LI (<[p := l2]> lst) (fun j => if decide (j ∈ i :: l1) then Some PDet else pl j) m'.
Proof.
  intros [Hc Hnd Hm] Hp El Hh Hhp Hx. pose proof (Hnd p Hp) as Hndp. rewrite El in Hndp.
  apply NoDup_app in Hndp as (Hn1 & Hd12 & Hn2). split.
  - intros r Hr. destruct (decide (r = p)) as [->|Hrp].
    + rewrite fn_lookup_insert, Hhp. apply (chain_frame m); [|done]. eapply chain_suffix. rewrite <- El. by apply Hc.
    + rewrite fn_lookup_insert_ne, Hh by done. eapply chain_frame; [by apply Hc|done].
  - intros r Hr. destruct (decide (r = p)) as [->|Hrp];
      [by rewrite fn_lookup_insert|rewrite fn_lookup_insert_ne by done; by apply Hnd].
  - intros r j Hr. destruct (decide (r = p)) as [->|Hrp].
    + rewrite fn_lookup_insert. case_decide as Hj; [split; [intros Hj2; by apply Hd12 in Hj|congruence]|].
      rewrite <- Hm, El, elem_of_app by done. naive_solver.
    + rewrite fn_lookup_insert_ne by done. rewrite Hm by done. case_decide as Hj; [|done].
      split; [|congruence]. intros E. assert (pl j = Some p) by (apply Hm; [done|rewrite El; set_solver]). congruence.
Qed.

Lemma li_add lst pl m m' q l :
  LI lst pl m -> q <> PDet -> NoDup l -> (forall j r, j ∈ l -> r <> PDet -> pl j <> Some r) ->
  (forall r, r <> q -> hd_of m' r = hd_of m r) -> chain m' (hd_of m' q) (l ++ lst q) ->
  (forall j, j ∉ l -> next (loc m' j) = next (loc m j)) ->
  LI (<[q := l ++ lst q]> lst) (fun j => if decide (j ∈ l) then Some q else pl j) m'.
Proof.
  intros [Hc Hnd Hm] Hq Hl Hdet Hh Hc' Hx.
  assert (forall r j, r <> PDet -> j ∈ l -> j ∉ lst r) as Hother.
  { intros r j Hr Hj Hin. apply Hm in Hin; [|done]. by eapply Hdet. }
  split.
  - intros r Hr. destruct (decide (r = q)) as [->|Hrq]; [by rewrite fn_lookup_insert|].
    rewrite fn_lookup_insert_ne, Hh by done. eapply chain_frame; [by apply Hc|].
    intros j Hj. apply Hx. intros Hjl. by eapply (Hother r).
  - intros r Hr. destruct (decide (r = q)) as [->|Hrq]; [|rewrite fn_lookup_insert_ne by done; by apply Hnd].
    rewrite fn_lookup_insert. apply NoDup_app. split_and!; [done| |by apply Hnd]. intros j Hj. by apply Hother.
  - intros r j Hr. destruct (decide (r = q)) as [->|Hrq].
    + rewrite fn_lookup_insert, elem_of_app, Hm by done. case_decide; naive_solver.
    + rewrite fn_lookup_insert_ne by done. case_decide as Hj; [|by apply Hm].
      split; [intros Hin; by eapply (Hother r) in Hin|congruence].
Qed.

Lemma li_det lst pl m m' (l : list Z) :
  LI lst pl m -> (forall j r, j ∈ l -> r <> PDet -> pl j <> Some r) ->
  (forall p, hd_of m' p = hd_of m p) -> (forall j, next (loc m' j) = next (loc m j)) ->
  LI lst (fun j => if decide (j ∈ l) then Some PDet else pl j) m'.
Proof.
  intros HL Hl Hh Hx. destruct (li_frame _ _ _ m' HL Hh Hx) as [Hc Hnd Hm]. split; [done|done|].
  intros p i Hp. rewrite Hm by done. case_decide; [|done]. split; [|congruence]. intros E. by eapply Hl in E.
Qed.
End segments.

(** ** Changes of hands *)
Section hands.
Context `{BL : BracketLaws} `{IS : IntoState}.
Implicit Types H : Hands.

Lemma slab_inv_next (h : Prop) p lv rf nx l r : slab_inv h p lv rf (set_next nx l) r <-> slab_inv h p lv rf l r.
Proof. by destruct p as [[]|]. Qed.

Lemma slab_inv_hand (h h' : Prop) p lv rf l r : (h -> h') -> slab_inv h p lv rf l r -> slab_inv h' p lv rf l r.
Proof. destruct p as [[]|]; simpl; tauto. Qed.

Lemma set_next_id l : l = set_next (next l) l.
Proof. by destruct l. Qed.

(** Nothing is said about the slab that is being moved. *)
Lemma inv_rehand H H' n g m i :
  InvX (HN := H) (Some i) n g m -> (forall j, j <> i -> H' j <-> H j) -> InvX (HN := H') (Some i) n g m.
Proof.
  intros [HL HS HH HD HU HZ HF HB] Hj. split; try done.
  - intros j Hi. eapply slab_inv_hand; [|by apply HS]. apply Hj. congruence.
  - intros j Hi Hh. apply HH; [done|]. apply Hj; [congruence|done].
Qed.

Lemma inv_same_hands H H' n g m :
  Inv (HN := H) n g m -> (forall j, H' j <-> H j) -> Inv (HN := H') n g m.
Proof.
  intros [HL HS HH HD HU HZ HF HB] Hj. split; try done.
  - intros j Hi. eapply slab_inv_hand; [|by apply HS]. apply Hj.
  - intros j Hi Hh. apply HH; [done|]. by apply Hj.
Qed.

(** The slab that was moved ends in a hand. *)
Lemma inv_close_hand H n g m i :
  InvX (HN := H) (Some i) n g m -> H i -> pl g i = Some PDet -> live g i = ∅ -> Inv (HN := H) n g m.
Proof.
  intros [HL HS HH HD HU HZ HF HB] Hi Hp Hl. split; try done.
  - intros j _. destruct (decide (j = i)) as [->|Hj]; [|apply HS; congruence]. rewrite Hp, Hl. by left.
  - intros j _ Hh. destruct (decide (j = i)) as [->|Hj]; [done|apply HH; [congruence|done]].
Qed.

(** Several slabs change their place at once. *)
Lemma inv_batch H H' n g m lst' pl' m' (l : list Z) :
  Inv (HN := H) n g m -> LI lst' pl' m' ->
  (forall j, j ∈ l -> live g j = ∅ /\ (H' j -> pl' j = Some PDet) /\ length (dense (free (loc m' j))) = ROWS /\
     slab_inv (H' j) (pl' j) ∅ (rf g j) (loc m' j) (d_inner (rem m' j))) ->
  (forall j, j ∉ l -> pl' j = pl g j /\ (H' j <-> H j) /\ exists nx, loc m' j = set_next nx (loc m j)) ->
  (forall j, rem m' j = rem m j) ->
  (forall t, len (stk m' t Unsized) = Z.of_nat (length (lst' (PUn t)))) ->
  (forall t c, stk m' t (Sized c) = stk m t (Sized c) /\ lst' (PSz t c) = lst g (PSz t c)) ->
  (forall j, is_Some (pl' j) <-> 1 <= j < bumpv m') -> 1 <= bumpv m' < 2 ^ 32 ->
  Inv (HN := H') n (mkGhost lst' pl' (live g) (rf g)) m'.
Proof.
  intros [HL HS HH HD HU HZ HF HB] HL' Hin Hout Hrem HU' HZ' HF' HB'. split; try done; simpl.
  - intros j _. destruct (decide (j ∈ l)) as [Hj|Hj].
    + destruct (Hin j Hj) as (-> & _ & _ & Hs). exact Hs.
    + destruct (Hout j Hj) as (-> & Hh & nx & ->). rewrite Hrem. apply slab_inv_next.
      eapply slab_inv_hand; [|by apply HS]. apply Hh.
  - intros j _ Hh'. destruct (decide (j ∈ l)) as [Hj|Hj].
    + destruct (Hin j Hj) as (Hl & Hp & _). split; [by apply Hp|done].
    + destruct (Hout j Hj) as (-> & Hh & _). apply HH; [done|]. by apply Hh.
  - intros j. destruct (decide (j ∈ l)) as [Hj|Hj]; [by apply Hin|].
    destruct (Hout j Hj) as (_ & _ & nx & ->). apply HD.
  - intros t c. destruct (HZ' t c) as [-> ->]. apply HZ.
Qed.

(** ** Moves of a heap operation *)

(** A batch leaves the unsized stack for the hand. *)
Lemma batch_hand H H' n g m t i l1 l2 :
  Inv (HN := H) n g m -> lst g (PUn t) = (i :: l1) ++ l2 -> (forall j, H' j <-> H j \/ j ∈ i :: l1) ->
  Inv (HN := H') n (mkGhost (<[PUn t := l2]> (lst g)) (fun j => if decide (j ∈ i :: l1) then Some PDet else pl g j) (live g) (rf g))
    (put_stk t Unsized (mkLStack (next (loc m (List.last (i :: l1) i)))
       (len (stk m t Unsized) - Z.of_nat (length (i :: l1)))) m).
Proof.
  intros HI El HH'. pose proof (inv_li _ _ _ _ HI) as HL.
  assert (forall j, j ∈ i :: l1 -> pl g j = Some (PUn t)) as Hin by (intros j Hj; apply (li_mem _ _ _ HL); [done|rewrite El; set_solver]).
  eapply (inv_batch H _ _ _ m _ _ _ (i :: l1)); try done.
  - eapply li_take; [exact HL|done|exact El|hd_solve|simpl; mem_simp|done].
  - intros j Hj. pose proof (inv_slab _ _ _ _ HI j ltac:(done)) as Hs. rewrite (Hin j Hj) in Hs.
    rewrite decide_True by done. split_and!; [apply Hs|done|apply (inv_dense _ _ _ _ HI)|]. left. split; [apply HH'; by right|done].
  - intros j Hj. rewrite decide_False by done. split; [done|]. split; [rewrite HH'; naive_solver|]. exists (next (loc m j)). apply set_next_id.
  - intros t'. pose proof (inv_un _ _ _ _ HI t') as HU. destruct (decide (t' = t)) as [->|Ht].
    + rewrite fn_lookup_insert. rewrite El, length_app in HU. mem_simp. rewrite HU. simpl. lia.
    + rewrite fn_lookup_insert_ne by naive_solver. mem_simp.
  - intros t' c. rewrite fn_lookup_insert_ne by done. split; [mem_simp|done].
  - intros j. change (bumpv (put_stk _ _ _ _)) with (bumpv m). rewrite <- (inv_fresh _ _ _ _ HI).
    case_decide as Hj; [rewrite (Hin j Hj)|]; naive_solver.
  - apply (inv_bump _ _ _ _ HI).
Qed.

(** The batch in hand goes to the global stack. *)
Lemma hand_global H H' n g m i l1 d :
  Inv (HN := H) n g m -> NoDup (i :: l1) -> (forall j, j ∈ i :: l1 -> H j) ->
  (forall j, H' j <-> H j /\ j ∉ i :: l1) -> seg m (i :: l1) ->
  next (loc m (List.last (i :: l1) i)) = d_inner (shared_free m) -> d_inner d = Some i ->
  Inv (HN := H') n (mkGhost (<[PGlobal := (i :: l1) ++ lst g PGlobal]> (lst g))
    (fun j => if decide (j ∈ i :: l1) then Some PGlobal else pl g j) (live g) (rf g)) (put_free d m).
Proof.
  intros HI Hnd Hin HH' Hs Hn Hd. pose proof (inv_li _ _ _ _ HI) as HL.
  assert (forall j, j ∈ i :: l1 -> pl g j = Some PDet /\ live g j = ∅) as Hdet
    by (intros j Hj; apply (inv_hands _ _ _ _ HI); [done|by apply Hin]).
  eapply (inv_batch H _ _ _ m _ _ _ (i :: l1)); try done.
  - eapply (li_add _ _ m); [exact HL|done|done| |hd_solve| |done].
    + intros j r Hj Hr. rewrite (proj1 (Hdet j Hj)). congruence.
    + cbn [hd_of]. change (shared_free (put_free d m)) with d. rewrite Hd.
      apply (chain_frame m); [|done]. eapply seg_chain; [done|exact Hn|]. apply (li_chain _ _ _ HL PGlobal). done.
  - intros j Hj. rewrite decide_True by done. split_and!; [by apply Hdet|intros [_ []]%HH'; done|apply (inv_dense _ _ _ _ HI)|done].
  - intros j Hj. rewrite decide_False by done. split; [done|]. split; [rewrite HH'; naive_solver|]. exists (next (loc m j)). apply set_next_id.
  - intros t. rewrite fn_lookup_insert_ne by done. apply (inv_un _ _ _ _ HI).
  - intros j. change (bumpv (put_free _ _)) with (bumpv m). rewrite <- (inv_fresh _ _ _ _ HI).
    case_decide as Hj; [rewrite (proj1 (Hdet j Hj))|]; naive_solver.
  - apply (inv_bump _ _ _ _ HI).
Qed.

(** Fresh slabs come into the hand. *)
Lemma fresh_hand H H' n g m d b :
  Inv (HN := H) n g m -> 1 <= b -> bumpv m + b < 2 ^ 32 -> d_inner d = Some (bumpv m + b) ->
  (forall j, H' j <-> H j \/ j ∈ seqZ (bumpv m) b) ->
  Inv (HN := H') n (mkGhost (lst g) (fun j => if decide (j ∈ seqZ (bumpv m) b) then Some PDet else pl g j) (live g) (rf g)) (put_bump d m).
Proof.
  intros HI Hb Hmax Hd HH'. pose proof (inv_li _ _ _ _ HI) as HL.
  assert (forall j, j ∈ seqZ (bumpv m) b -> pl g j = None) as Hfresh.
  { intros j Hj%elem_of_seqZ. destruct (pl g j) eqn:E; [|done].
    assert (1 <= j < bumpv m) by (apply (inv_fresh _ _ _ _ HI); eauto). lia. }
  assert (bumpv (put_bump d m) = bumpv m + b) as Hb' by (unfold bumpv at 1; simpl; by rewrite Hd).
  pose proof (inv_bump _ _ _ _ HI) as HB.
  eapply (inv_batch H _ _ _ m _ _ _ (seqZ (bumpv m) b)); try done.
  - eapply li_det; [exact HL| |hd_solve|done]. intros j r Hj Hr. by rewrite (Hfresh j Hj).
  - intros j Hj. pose proof (inv_slab _ _ _ _ HI j ltac:(done)) as Hs. rewrite (Hfresh j Hj) in Hs.
    rewrite decide_True by done. split_and!; [done|done|apply (inv_dense _ _ _ _ HI)|]. left. split; [apply HH'; by right|done].
  - intros j Hj. rewrite decide_False by done. split; [done|]. split; [rewrite HH'; naive_solver|]. exists (next (loc m j)). apply set_next_id.
  - intros t. apply (inv_un _ _ _ _ HI).
  - intros j. rewrite Hb'. pose proof (inv_fresh _ _ _ _ HI j) as HF. destruct (decide (j ∈ seqZ (bumpv m) b)) as [Hj|Hj]; rewrite elem_of_seqZ in Hj.
    + split; [lia|eauto].
    + rewrite HF. lia.
  - rewrite Hb'. lia.
Qed.

(** Fresh slabs in hand become the unsized stack of their thread. *)
Lemma hand_fresh H H' n g m m' t start b :
  Inv (HN := H) n g m -> lst g (PUn t) = [] -> 1 <= b ->
  (forall j, j ∈ seqZ start b -> H j) -> (forall j, H' j <-> H j /\ j ∉ seqZ start b) ->
  (forall j, loc m' j = if decide (start <= j < start + b)
     then set_next (if decide (j = start + b - 1) then None else Some (j + 1))
            (set_owner (Some t) (loc m j)) else loc m j) ->
  (forall j, rem m' j = rem m j) -> shared_free m' = shared_free m -> shared_bump m' = shared_bump m ->
  (forall t' r, stk m' t' r = if decide (t' = t /\ r = Unsized) then mkLStack (Some start) b else stk m t' r) ->
  Inv (HN := H') n (mkGhost (<[PUn t := seqZ start b ++ lst g (PUn t)]> (lst g))
    (fun j => if decide (j ∈ seqZ start b) then Some (PUn t) else pl g j) (live g) (rf g)) m'.
Proof.
  intros HI El Hb Hin HH' Hloc Hrem Hfree Hbump Hstk. pose proof (inv_li _ _ _ _ HI) as HL.
  assert (forall j, j ∈ seqZ start b -> pl g j = Some PDet /\ live g j = ∅) as Hdet
    by (intros j Hj; apply (inv_hands _ _ _ _ HI); [done|by apply Hin]).
  assert (bumpv m' = bumpv m) as Hb' by (unfold bumpv; by rewrite Hbump).
  eapply (inv_batch H _ _ _ m _ _ _ (seqZ start b)); try done.
  - eapply (li_add _ _ m); [exact HL|done|apply NoDup_seqZ| | | |].
    + intros j r Hj Hr. rewrite (proj1 (Hdet j Hj)). congruence.
    + intros [] Hr; cbn [hd_of]; rewrite ?Hstk, ?Hfree; mem_simp.
    + cbn [hd_of]. rewrite Hstk, decide_True, El, app_nil_r by done. cbn [head].
      replace b with (Z.of_nat (S (Z.to_nat b - 1))) by lia. apply chain_seq. intros j Hj.
      rewrite Hloc, decide_True by lia. simpl. case_decide; case_decide; (done || lia).
    + intros j Hj. rewrite Hloc, decide_False; [done|]. rewrite elem_of_seqZ in Hj. lia.
  - intros j Hj. rewrite decide_True by done. rewrite Hloc, decide_True by (apply elem_of_seqZ in Hj; lia).
    split_and!; [by apply Hdet|intros [_ []]%HH'; done|apply (inv_dense _ _ _ _ HI)|done].
  - intros j Hj. rewrite decide_False by done. split; [done|]. split; [rewrite HH'; naive_solver|].
    exists (next (loc m j)). rewrite Hloc, decide_False; [apply set_next_id|]. rewrite elem_of_seqZ in Hj. lia.
  - intros t'. rewrite Hstk. destruct (decide (t' = t)) as [->|Ht].
    + rewrite decide_True, fn_lookup_insert, El, app_nil_r, length_seqZ by done. simpl. lia.
    + rewrite decide_False, fn_lookup_insert_ne by naive_solver. apply (inv_un _ _ _ _ HI).
  - intros t' c. rewrite Hstk, decide_False, fn_lookup_insert_ne by naive_solver. done.
  - intros j. rewrite Hb', <- (inv_fresh _ _ _ _ HI). case_decide as Hj; [rewrite (proj1 (Hdet j Hj))|]; naive_solver.
  - rewrite Hb'. apply (inv_bump _ _ _ _ HI).
Qed.

(** The head of the global stack comes into the hand. *)
Lemma pop_hand H H' n g m i l d :
  Inv (HN := H) n g m -> lst g PGlobal = i :: l -> d_inner d = next (loc m i) -> (forall j, H' j <-> H j \/ j = i) ->
  Inv (HN := H') n (g_unlink PGlobal i l g) (put_free d m).
Proof.
  intros HI El Hd HH'. pose proof (inv_gpop (HN := H) n g m i l d (inv_open _ _ _ i HI) El Hd) as H1.
  assert (pl g i = Some PGlobal) as Hpl by (apply (li_mem _ _ _ (inv_li _ _ _ _ HI)); [done|rewrite El; set_solver]).
  pose proof (inv_slab _ _ _ _ HI i ltac:(done)) as Hlive. rewrite Hpl in Hlive.
  apply (inv_close_hand H' n _ _ i).
  - eapply (inv_rehand H); [exact H1|]. intros j Hj. rewrite HH'. naive_solver.
  - apply HH'. by right.
  - simpl. by rewrite fn_lookup_insert.
  - exact Hlive.
Qed.

(** A slab in hand becomes the thread's own and goes on its unsized stack. *)
Lemma hand_un H H' n g m t i :
  Inv (HN := H) n g m -> H i -> (forall j, H' j <-> H j /\ j <> i) ->
  exists g', Inv (HN := H') n g' (pushed t Unsized i (put_loc i (set_owner (Some t) (loc m i)) m)) /\
    lst g' (PUn t) = i :: lst g (PUn t) /\ (forall j, live g' j = live g j).
Proof.
  intros HI Hi HH'. destruct (inv_hands _ _ _ _ HI i ltac:(done) Hi) as [Hpl Hlive].
  pose proof (inv_open _ _ _ i HI) as H1.
  eapply (inv_edit (HN := H) _ _ _ i (set_owner (Some t) (loc m i)) ∅ ∅) in H1; [|done|apply (inv_dense _ _ _ _ HI)].
  eapply (inv_link (HN := H) _ n _ _ t Unsized) in H1; [|done|lia|by left].
  eexists. split_and!.
  - eapply (inv_close (HN := H')); [eapply (inv_rehand H); [exact H1|]| |].
    + intros j Hj. rewrite HH'. naive_solver.
    + intros [_ []]%HH'. done.
    + simpl. rewrite !fn_lookup_insert. mem_simp.
  - simpl. by rewrite fn_lookup_insert.
  - intros j. simpl. destruct (decide (j = i)) as [->|Hj]; [by rewrite !fn_lookup_insert|by rewrite !fn_lookup_insert_ne].
Qed.

(** The link of a slab in hand is its thread's business. *)
Lemma hand_next H n g m i nx :
  Inv (HN := H) n g m -> H i -> Inv (HN := H) n g (put_loc i (set_next nx (loc m i)) m).
Proof.
  intros HI Hi. destruct (inv_hands _ _ _ _ HI i ltac:(done) Hi) as [Hpl _].
  assert (forall j, exists nx', loc (put_loc i (set_next nx (loc m i)) m) j = set_next nx' (loc m j)) as Hloc.
  { intros j. rewrite loc_put_loc. case_decide; [subst; eauto|]. exists (next (loc m j)). apply set_next_id. }
  destruct HI as [HL HS HH HD HU HZ HF HB]. split; try done.
  - destruct HL as [Hc Hnd Hm]. split; [|done|done]. intros p Hp.
    replace (hd_of (put_loc i _ m) p) with (hd_of m p) by (by destruct p). eapply chain_frame; [by apply Hc|].
    intros j Hj. rewrite loc_put_loc, decide_False; [done|]. intros ->. apply Hm in Hj; [|done]. congruence.
  - intros j Hj. destruct (Hloc j) as [nx' ->]. apply slab_inv_next. by apply HS.
  - intros j. destruct (Hloc j) as [nx' ->]. apply HD.
Qed.
End hands.
