(* ===== verification/HeapConc.v ===== *)
(** * HeapConc: the operations of a heap, access by access

    [Heap] runs every operation of a heap as one step. Here the same operations
    (cxlalloc/src/heap.rs, slab/stack.rs, cas.rs) are programs of accesses, so
    that operations of different threads interleave. An access is one use of a
    word that several threads use: the owner and class of a slab whose block is
    freed, the remote counter, the head of the global stack, the bump pointer,
    the help array; what a thread does in between on its own stacks and slabs is
    part of one access. Loops of compare-exchange take fuel.

    Accesses carry a [note], which says what the access means for the slabs and
    blocks in hand. The programs are written over a function [run] that performs
    an access with its note, so the notes can be ignored: without other threads
    the programs are the operations of [Heap] ([operations_alone]). *)

From Stdlib Require Import ZArith Lia.
From stdpp Require Import base numbers option gmap functions sets list.
From S2P Require Import Prelude Bitset Size Data Cas Slab Heap CrashLogic.
Local Open Scope Z_scope.
Local Open Scope prog_scope.

(** ** Pieces of the operations *)
Section pieces.
Context (cfg : Cfg) `{B : Bracket} `{IS : IntoState}.

(** The version of an [update], published in the thread's own slot. *)
Definition draw_version (id : Z) : M HS Z :=
  version <- gets (fun s => version_next (help_load (get_ctx s) id id)) ;;
  when_ (recover_cas cfg) (help_store id id version) ;;;
  ret version.

(** The closure of an [update] and the log record. *)
Definition prepare {T} (id : Z) (next : T -> Z -> M HS (option (T * HeapState))) (old : T) (version : Z) : M HS (option T) :=
  r <- next old version ;;
  match r with
  | None => ret None
  | Some (new, log) => log_unsync cfg id log ;;; ret (Some new)
  end.

(** [compare_exchange]; the result is the present value when it fails. *)
Definition exchange {T} `{EqDecision T} (c : cell HS T) (old new : DState T) : M HS (option (DState T)) :=
  cur <- gets (cget c) ;;
  if decide (cur = old) then modify (cput c new) ;;; ret None else ret (Some cur).

(** The closures of [Global::push], [Global::pop], [Shared::bump] and
    [Heap::free_remote]. *)
Definition push_next (hd tl : Z) (old : option Z) (version : Z) : M HS (option (option Z * HeapState)) :=
  set_local tl (set_next old) ;;;
  ret (Some (Some hd, UnsizedToGlobal hd version)).

Definition pop_next (old : option Z) (version : Z) : M HS (option (option Z * HeapState)) :=
  match old with
  | None => ret None
  | Some i =>
      l <- get_local i ;;
      ret (Some (next l, GlobalToUnsized i version))
  end.

Definition bump_next (old : option Z) (version : Z) : M HS (option (option Z * HeapState)) :=
  new <- lift (index_add (default index_MIN old) (wrap 32 (BATCH_BUMP_POP cfg))) ;;
  ret (Some (Some new, BumpToUnsized old version)).

Definition remote_next (index f version : Z) : M HS (option (Z * HeapState)) :=
  validate_ cfg (0 <? f) ;;;
  f' <- lift (arith (debug_assertions cfg) 16 (f - 1)) ;;
  ret (Some (f', Remote index version (f =? 1))).

(** [Heap::allocate] after a slab came from the global stack, or fresh slabs. *)
Definition take_global (id index : Z) : M HS unit :=
  record cfg id EvGlobalToUnsized ;;;
  own cfg id index ;;;
  stack_push cfg id Unsized index.

Definition take_fresh (id : Z) (r : option (option Z)) : M HS unit :=
  start <- unwrap r ;;
  let start := default index_MIN start in
  end_ <- lift (index_add start (wrap 32 (BATCH_BUMP_POP cfg))) ;;
  record cfg id EvBump ;;;
  link cfg id start (Z.to_nat (end_ - start)) None ;;;
  stack_set id Unsized (Some start) (BATCH_BUMP_POP cfg).

(** The end of [Heap::allocate]. *)
Definition sized_top (id c : Z) : M HS (option Z) :=
  record cfg id (EvUnsizedToSized c) ;;;
  validate_owned cfg id ;;;
  stack_peek id (Sized c).

(** [Heap::pop] up to [Heap::detach]: the slab to detach, if any. *)
Definition take_block (id c index : Z) (block : Bit) : M HS (option Z) :=
  record cfg id (EvAllocate (class_size c)) ;;;
  l <- get_local index ;;
  bits <- lift (unset (validating cfg) (debug_assertions cfg) (free l) block) ;;
  set_local index (set_bits bits) ;;;
  if is_empty bits then
    r <- stack_pop cfg id (Sized c) ;;
    i <- unwrap r ;;
    ret (Some i)
  else ret None.

(** [Heap::detach] after the remote counter is loaded. *)
Definition disown_if (id c index f : Z) : M HS unit :=
  n <- lift (class_count c) ;;
  if f <? n then
    record cfg id (EvDisown c) ;;;
    disown cfg id index
  else ret tt.

(** [Heap::free] on a slab of the thread, up to [unsized_to_global]: whether the
    slab is completely free; [l] is its descriptor. *)
Definition put_local (id o index : Z) (l : Local) : M HS bool :=
  let c := class l in
  block <- lift (into_block (debug_assertions cfg) o c) ;;
  record cfg id (EvFree (class_size c)) ;;;
  log_ cfg id (ApplicationToSized index block) ;;;
  bits <- lift (set (validating cfg) (debug_assertions cfg) (free l) block) ;;
  set_local index (set_bits bits) ;;;
  let count := Bitset.len bits in
  (if count =? 1 then attach cfg id c index else ret tt) ;;;
  n <- lift (class_count c) ;;
  if count <? n then ret false
  else
    sized_to_unsized cfg id c index ;;;
    validate_owned cfg id ;;;
    record cfg id (EvSizedToUnsized c) ;;;
    ret true.

Definition put_block (id o index : Z) : M HS bool :=
  l <- get_local index ;; put_local id o index l.

(** [Heap::claim] up to [unsized_to_global]. *)
Definition take_claimed (id c index : Z) : M HS unit :=
  record cfg id (EvClaim c) ;;;
  steal id index ;;;
  stack_push cfg id Unsized index ;;;
  validate_owned cfg id.

(** [Heap::unsized_to_global] up to the push: the batch. *)
Definition take_batch (id : Z) : M HS (option (list Z)) :=
  count <- stack_len id Unsized ;;
  if count <=? COUNT_CACHE_SLAB cfg then ret None
  else
    record cfg id EvUnsizedToGlobal ;;;
    let batch := BATCH_GLOBAL_PUSH cfg in
    h <- stack_peek id Unsized ;;
    m <- gets hs_mem ;;
    let l := trace_take m (Z.to_nat batch) h in
    when_ (validating cfg) (disown_all cfg id l) ;;;
    hd <- unwrap (hd_error l) ;;
    tloc <- get_local (List.last l hd) ;;
    log_ cfg id (UnsizedToGlobalSave hd) ;;;
    n <- usize cfg (count - batch) ;;
    stack_set id Unsized (next tloc) n ;;;
    ret (Some l).
End pieces.

(** ** Notes *)

(** What an access means: the thread loaded the head of the global stack to pop
    from it; it took slabs into its hand, or wrote the head doing so; it took a
    block, freed the block in its pocket on its own slab or remotely; the call
    returned the block to the application, or got one from it. *)
Inductive note :=
| Quiet
| Loaded (d : DState (option Z))
| Hand (l : list Z)
| Swap (l : list Z)
| Take (i b : Z)
| Give
| GiveRemote (l : list Z)
| Return (p c : Z)
| Grab (p : Z).

Local Open Scope crash_scope.

(** ** The operations *)
Section programs.
Context (cfg : Cfg) `{B : Bracket} `{IS : IntoState} {S : Type}.
Context (run : forall A, M HS A -> (A -> note) -> M S A) (fuel : nat) (base id : Z).

Definition quiet {A} (m : M HS A) : P S A := act (run A m (fun _ => Quiet)).
Definition noted {A} (m : M HS A) (f : A -> note) : P S A := act (run A m f).

(** [Detectable::update]. *)
Fixpoint update_loop_p {T} `{EqDecision T} (n : nat) (c : cell HS T) (next : T -> Z -> M HS (option (T * HeapState)))
    (on_load : DState T -> note) (on_write : T -> note) (version : Z) (old : DState T) : P S (option T) :=
  quiet (help cfg id old) ;;;
  r <- quiet (prepare cfg id next (d_inner old) version) ;;
  match r with
  | None => PRet None
  | Some new =>
      x <- noted (exchange c old (mkD (Some id) version new))
             (fun x => match x with None => on_write (d_inner old) | Some cur => on_load cur end) ;;
      match x with
      | None => PRet (Some (d_inner old))
      | Some cur =>
          match n with
          | O => act diverge
          | Datatypes.S n => update_loop_p n c next on_load on_write version cur
          end
      end
  end.

Definition update_p {T} `{EqDecision T} (c : cell HS T) (next : T -> Z -> M HS (option (T * HeapState)))
    (on_load : DState T -> note) (on_write : T -> note) : P S (option T) :=
  version <- quiet (draw_version cfg id) ;;
  old <- noted (gets (cget c)) on_load ;;
  update_loop_p fuel c next on_load on_write version old.

(** [Shared::push], [Shared::pop] and [Shared::bump]. *)
Definition shared_push_p (hd tl : Z) : P S unit :=
  r <- update_p free_cell (push_next hd tl) (fun _ => Quiet) (fun _ => Swap []) ;;
  match r with Some _ => PRet tt | None => act panic end.

Definition shared_pop_p : P S (option Z) :=
  h <- quiet (load cfg id free_cell) ;;
  if decide (h = None) then PRet None
  else
    r <- update_p free_cell pop_next Loaded (fun old => Swap (option_list old)) ;;
    PRet (mjoin r).

Definition bump_p : P S (option (option Z)) :=
  update_p bump_cell (bump_next cfg) (fun _ => Quiet)
    (fun old => Hand (seqZ (default index_MIN old) (wrap 32 (BATCH_BUMP_POP cfg)))).

(** [Heap::allocate]. *)
Definition allocate_p (c : Z) : P S (option Z) :=
  if is_zero c then PRet None
  else
    b <- quiet (unsized_to_sized cfg id c) ;;
    if (b : bool) then quiet (sized_top cfg id c)
    else
      g <- shared_pop_p ;;
      match g with
      | Some index => noted (take_global cfg id index) (fun _ => Hand [])
      | None => r <- bump_p ;; noted (take_fresh cfg id r) (fun _ => Hand [])
      end ;;;
      quiet (unsized_to_sized cfg id c) ;;;
      quiet (sized_top cfg id c).

(** [Heap::detach] and [Heap::pop]. *)
Definition detach_p (c index : Z) : P S unit :=
  f <- quiet (bind (record cfg id (EvDetach c)) (fun _ => load cfg id (remote_cell index))) ;;
  quiet (disown_if cfg id c index f).

Definition pop_p (c index : Z) (block : Bit) : P S Z :=
  e <- noted (take_block cfg id c index block) (fun _ => Take index (bit_to_u64 block)) ;;
  match e with Some i => detach_p c i | None => PRet tt end ;;;
  noted (bind (lift (from_block (debug_assertions cfg) c index block)) (fun o => ret (offset_to_pointer base o)))
    (fun p => Return p c).

(** [Heap::peek], then [Heap::pop]. *)
Definition alloc_p (c : Z) : P S (option Z) :=
  h <- quiet (stack_peek id (Sized c)) ;;
  r <- match h with Some i => PRet (Some i) | None => allocate_p c end ;;
  match r with
  | None => PRet None
  | Some index =>
      block <- quiet (bind (get_local index) (fun l => lift (peek_unchecked (free l)))) ;;
      p <- pop_p c index block ;;
      PRet (Some p)
  end.

(** [Heap::unsized_to_global]. *)
Definition unsized_to_global_p : P S unit :=
  r <- noted (take_batch cfg id) (fun r => Hand (default [] r)) ;;
  match r with
  | None => PRet tt
  | Some l => let hd := List.hd 0 l in shared_push_p hd (List.last l hd)
  end.

(** [Heap::free_remote] and [Heap::claim]. *)
Definition free_remote_p (index : Z) : P S unit :=
  c <- quiet (bind (get_local index) (fun l => bind (record cfg id (EvFree (class_size (class l)))) (fun _ => ret (class l)))) ;;
  r <- update_p (remote_cell index) (remote_next cfg index) (fun _ => Quiet)
         (fun f => GiveRemote (if f =? 1 then [index] else [])) ;;
  match r with
  | None => act panic
  | Some f =>
      if f =? 1 then noted (take_claimed cfg id c index) (fun _ => Hand []) ;;; unsized_to_global_p
      else PRet tt
  end.

(** [Heap::free]. *)
Definition free_p (o : Z) : P S unit :=
  x <- quiet (bind (lift (into_index o)) (fun i => bind (get_local i) (fun l => ret (i, owner l)))) ;;
  if decide (snd x = Some id) then
    full <- noted (put_block cfg id o (fst x)) (fun _ => Give) ;;
    if (full : bool) then unsized_to_global_p else PRet tt
  else free_remote_p (fst x).

(** [Allocator::free] on a pointer that the application gives back. *)
Definition free_ptr_p (p : Z) : P S unit :=
  noted (ret tt) (fun _ => Grab p) ;;;
  o <- quiet (unwrap (pointer_to_offset base p)) ;;
  free_p o.
End programs.

(** ** Without other threads *)

(** Programs that do the same from every state. *)
Definition same {S A} (p q : M S A) : Prop := forall s, p s = q s.

#[export] Instance same_equiv {S A} : Equivalence (same (S := S) (A := A)).
Proof. split; [done|by intros p q H s|]. intros p q r H1 H2 s. by rewrite H1. Qed.

Section same.
Context {S : Type}.

Lemma same_bind {A C} (p q : M S A) (f g : A -> M S C) : same p q -> (forall x, same (f x) (g x)) -> same (bind p f) (bind q g).
Proof. intros Hp Hf s. unfold bind. rewrite Hp. destruct (q s) as [[s' x]| | |]; [|done..]. apply Hf. Qed.

Lemma same_assoc {A C D} (p : M S A) (f : A -> M S C) (g : C -> M S D) q :
  same (bind p (fun x => bind (f x) g)) q -> same (bind (bind p f) g) q.
Proof. intros H s. rewrite <- H. unfold bind. by destruct (p s) as [[]| | |]. Qed.

Lemma same_ret {A C} (a : A) (f : A -> M S C) q : same (f a) q -> same (bind (ret a) f) q.
Proof. done. Qed.

Lemma same_unwrap {A C} (o : option A) (f g : A -> M S C) : (forall a, o = Some a -> same (f a) (g a)) -> same (bind (unwrap o) f) (bind (unwrap o) g).
Proof. intros H. destruct o as [a|]; [|done]. intros s. by apply H. Qed.

Lemma prun_bind {A C} (p : P S A) (k : A -> P S C) : same (prun (pbind p k)) (bind (prun p) (fun a => prun (k a))).
Proof.
  induction p as [a|X m f IH]; [done|]. symmetry. apply same_assoc. apply same_bind; [done|]. intros x. symmetry. apply IH.
Qed.

Lemma prun_act {X} (m : M S X) : same (prun (act m)) m.
Proof. intros s. cbn. unfold bind, ret. by destruct (m s) as [[]| | |]. Qed.

Lemma prun_step {A C} (p : P S A) p' (k : A -> P S C) q : same (prun p) p' -> same (bind p' (fun a => prun (k a))) q -> same (prun (pbind p k)) q.
Proof. intros Hp H. rewrite prun_bind, <- H. by apply same_bind. Qed.

Lemma prun_step_act {X C} (m : M S X) (k : X -> P S C) q : same (bind m (fun a => prun (k a))) q -> same (prun (pbind (act m) k)) q.
Proof. apply prun_step, prun_act. Qed.
End same.

(** An access without its note. *)
Definition plain A (m : M HS A) (_ : A -> note) : M HS A := m.

(** Walks through both sides. *)
Ltac same_step :=
  lazymatch goal with
  | |- same (prun (pbind (quiet _ _) _)) _ => apply prun_step_act
  | |- same (prun (pbind (noted _ _ _) _)) _ => apply prun_step_act
  | |- same (prun (pbind (act _) _)) _ => apply prun_step_act
  | |- same (prun (pbind (PRet _) _)) _ => cbn [pbind]
  | |- same (prun (quiet _ _)) _ => etrans; [apply prun_act|]
  | |- same (prun (noted _ _ _)) _ => etrans; [apply prun_act|]
  | |- same (prun (act _)) _ => etrans; [apply prun_act|]
  | |- same (prun (PRet _)) _ => cbn [prun]
  | |- same (bind (bind _ _) _) _ => apply same_assoc
  | |- same _ (bind (bind _ _) _) => symmetry; apply same_assoc; symmetry
  | |- same (bind (ret _) _) _ => apply same_ret
  | |- same _ (bind (ret _) _) => symmetry; apply same_ret; symmetry
  | |- same ?p ?p => reflexivity
  | |- same (bind (unwrap ?o) _) (bind (unwrap ?o) _) => apply same_unwrap; intros ? ?
  | |- same (bind ?p _) (bind ?p _) => apply same_bind; [reflexivity|intros ?]
  end; cbn beta;
  try match goal with |- same ?p _ => match p with context [plain ?A ?m ?f] => change (plain A m f) with m end end.
Ltac same_go := repeat same_step.

Section alone.
Context (cfg : Cfg) `{B : Bracket} `{IS : IntoState} (fuel : nat) (base id : Z).

(** The closures of the updates leave their cell alone. *)
Definition spares {T} (c : cell HS T) (nxt : T -> Z -> M HS (option (T * HeapState))) : Prop :=
  forall x v s s' r, nxt x v s = Done (s', r) -> cget c s' = cget c s.

Lemma help_ctx {T} (d : DState T) (s : HS) : exists x, help cfg id d s = Done (set_ctx x s, tt).
Proof.
  unfold help, help_store, with_ctx, modify, ret. destruct (negb _); [exists (hs_ctx s); by destruct s|].
  destruct (d_id d); [by eexists|exists (hs_ctx s); by destruct s].
Qed.

Lemma log_ctx h (s : HS) : exists x, log_unsync cfg id h s = Done (set_ctx x s, tt).
Proof. unfold log_unsync, with_ctx, modify, ret. destruct (negb _); [exists (hs_ctx s); by destruct s|by eexists]. Qed.

(** The first compare-exchange succeeds. *)
Lemma update_alone {T} `{EqDecision T} (c : cell HS T) nxt f g :
  cell_ok c -> spares c nxt -> same (prun (update_p cfg plain fuel id c nxt f g)) (update cfg [] id c nxt).
Proof.
  intros [Hc] Hn.
  assert (forall v s, prun (update_loop_p cfg plain id fuel c nxt f g v (cget c s)) s = update_loop cfg [] id v c nxt (cget c s) s) as Hloop.
  { intros v s. set (old := cget c s). destruct (help_ctx old s) as [x Hx].
    assert (forall (k : option T -> P HS (option T)) k', (forall r, same (prun (k r)) (k' r)) ->
      prun (pbind (quiet plain (prepare cfg id nxt (d_inner old) v)) k) (set_ctx x s) = bind (prepare cfg id nxt (d_inner old) v) k' (set_ctx x s)) as Hprep.
    { intros k k' Hk. apply prun_step_act. by apply same_bind. }
    transitivity (bind (prepare cfg id nxt (d_inner old) v) (fun r => match r with
      | None => ret None
      | Some new => bind (exchange c old (mkD (Some id) v new)) (fun x => match x with None => ret (Some (d_inner old)) | Some cur =>
          match fuel with O => diverge | Datatypes.S n => prun (update_loop_p cfg plain id n c nxt f g v cur) end end)
      end) (set_ctx x s)).
    - destruct fuel as [|n]; cbn [update_loop_p]; (rewrite (prun_step_act (help cfg id old) _ _ ltac:(reflexivity) s); unfold bind at 1; rewrite Hx; cbn [obind fst snd]);
        apply Hprep; (intros [new|]; [|done]); apply prun_step_act; (apply same_bind; [done|]); intros [cur|]; try done; apply prun_act.
    - symmetry. cbn [update_loop]. unfold bind at 1. rewrite Hx. cbn [obind fst snd]. unfold prepare, bind.
      destruct (nxt (d_inner old) v (set_ctx x s)) as [[s1 [[new lg]|]]| | |] eqn:En; try done. cbn [obind fst snd].
      destruct (log_ctx lg s1) as [y Hy]. rewrite Hy. cbn [obind fst snd ret]. unfold exchange, bind, gets. cbn [obind fst snd].
      assert (cget c (set_ctx y s1) = old) as Eo by (rewrite Hc, (Hn _ _ _ _ _ En); apply Hc).
      rewrite Eo, !decide_True by done. done. }
  unfold update_p, update, draw_version. repeat (lazymatch goal with |- same (bind (gets _) _) (bind (gets _) (fun old => update_loop _ _ _ _ _ _ _)) => fail | _ => same_step end).
  intros s. apply Hloop.
Qed.

Lemma heap_cell_ok {T} (gm : HeapMem -> DState T) pm : cell_ok (mkCell (fun s => gm (hs_mem s)) pm).
Proof. by split. Qed.

Lemma spares_push hd tl : spares free_cell (push_next hd tl).
Proof. by intros x v s s' r [= <- _]. Qed.
Lemma spares_pop : spares free_cell pop_next.
Proof. intros [i|] v s s' r; by intros [= <- _]. Qed.
Lemma spares_bump : spares bump_cell (bump_next cfg).
Proof. intros x v s s' r. unfold bump_next, bind, lift. destruct (index_add _ _); simpl; by intros [= <- _]. Qed.
Lemma spares_remote i : spares (remote_cell i) (remote_next cfg i).
Proof.
  intros x v s s' r. unfold remote_next, validate_, when_, assert_, bind, lift, ret, panic.
  destruct (validating cfg), (0 <? x), (arith _ _ _); simpl; by intros [= <- _].
Qed.

Lemma shared_push_alone hd tl : same (prun (shared_push_p cfg plain fuel id hd tl)) (shared_push cfg id hd tl).
Proof.
  unfold shared_push_p, shared_push, global_push. eapply prun_step; [apply update_alone; [apply heap_cell_ok|apply spares_push]|].
  apply same_bind; [done|]. intros [r|]; [done|]. apply prun_act.
Qed.

Lemma shared_pop_alone : same (prun (shared_pop_p cfg plain fuel id)) (shared_pop cfg id).
Proof.
  unfold shared_pop_p, shared_pop, global_is_empty. same_go. case_bool_decide; [by rewrite decide_True|rewrite decide_False by done].
  unfold global_pop. eapply prun_step; [apply update_alone; [apply heap_cell_ok|apply spares_pop]|done].
Qed.

Lemma bump_alone : same (prun (bump_p cfg plain fuel id)) (update cfg [] id bump_cell (bump_next cfg)).
Proof. apply update_alone; [apply heap_cell_ok|apply spares_bump]. Qed.

Lemma allocate_alone c : same (prun (allocate_p cfg plain fuel id c)) (allocate cfg id c).
Proof.
  unfold allocate_p, allocate. destruct (is_zero c); [done|]. same_go. destruct (_ : bool); [by same_go|].
  eapply prun_step; [apply shared_pop_alone|]. apply same_bind; [done|]. intros [i|].
  - unfold take_global, sized_top. same_go.
  - eapply prun_step.
    + eapply prun_step; [apply bump_alone|]. apply same_bind; [reflexivity|]. intros r. apply prun_act.
    + unfold bump, take_fresh, sized_top. same_go. apply same_bind; [reflexivity|]. intros r. unfold plain at 1. same_go. cbn [fst snd]. same_go.
Qed.

Lemma unsized_to_global_alone : same (prun (unsized_to_global_p cfg plain fuel id)) (unsized_to_global cfg id).
Proof.
  unfold unsized_to_global_p, unsized_to_global, take_batch. same_go. destruct (_ <=? _); [by same_go|]. same_go.
  match goal with H : hd_error ?l = Some ?a |- _ => assert (List.hd 0 l = a) as -> by (by destruct l; [|injection H]) end.
  apply shared_push_alone.
Qed.

Lemma detach_alone c i : same (prun (detach_p cfg plain id c i)) (detach cfg id c i).
Proof. unfold detach_p, detach, disown_if. same_go. Qed.

Lemma pop_alone c i blk : same (prun (pop_p cfg plain base id c i blk)) (pop cfg base id c i blk).
Proof.
  unfold pop_p, pop, take_block. same_go. destruct (is_empty _); [|by same_go]. same_go.
  eapply prun_step; [apply detach_alone|]. same_go.
Qed.

(** [Heap::peek] and [Heap::pop] as one thread runs them. *)
Lemma alloc_is_alloc_block c : same (prun (alloc_p cfg plain fuel base id c)) (alloc_block cfg base id c).
Proof.
  assert (forall h, same (prun (match h with Some i => PRet (Some i) | None => allocate_p cfg plain fuel id c end))
    (match h with Some i => ret (Some i) | None => allocate cfg id c end)) as Hh by (intros []; [done|apply allocate_alone]).
  unfold alloc_p, alloc_block, peek. same_go. eapply prun_step; [apply Hh|]. same_go.
  match goal with |- context [match ?r with Some _ => _ | None => PRet None end] => destruct r end; [|done].
  same_go. eapply prun_step; [apply pop_alone|done].
Qed.

Lemma free_remote_alone i : same (prun (free_remote_p cfg plain fuel id i)) (free_remote cfg id i).
Proof.
  unfold free_remote_p, free_remote. same_go. eapply prun_step; [apply update_alone; [apply (heap_cell_ok (fun m => rem m i))|apply spares_remote]|].
  apply same_bind; [reflexivity|]. intros [f|]; [|apply prun_act]. cbn [unwrap]. same_go. destruct (f =? 1); [|done].
  unfold claim, take_claimed. same_go. apply unsized_to_global_alone.
Qed.

Lemma free_is_heap_free o : same (prun (free_p cfg plain fuel id o)) (heap_free cfg id o).
Proof.
  unfold free_p, heap_free. do 2 same_step. apply same_bind; [done|]. intros i. same_step. intros s.
  unfold bind at 1 2, get_local at 1 2, gets at 1 2. cbn [obind fst snd]. set (l := loc (hs_mem s) i).
  assert (forall (k : bool -> P HS unit) k', (forall b, same (prun (k b)) (k' b)) ->
    prun (pbind (noted plain (put_block cfg id o i) (fun _ => Give)) k) s = bind (put_block cfg id o i) k' s) as Hput.
  { intros k k' Hk. apply prun_step_act. by apply same_bind. }
  cbn [bind ret obind fst snd]. fold l. case_decide; [|apply free_remote_alone].
  rewrite (Hput _ (fun full : bool => if full then unsized_to_global cfg id else ret tt)) by (intros []; [apply unsized_to_global_alone|done]).
  transitivity (bind (put_local cfg id o i l) (fun full : bool => if full then unsized_to_global cfg id else ret tt) s); [done|].
  match goal with |- ?p s = ?q s => enough (same p q) as E by apply E end. clearbody l.
  unfold put_local. same_go. destruct (_ <? _); by same_go.
Qed.

(** run without other threads, the programs of accesses are the
    operations of the heap, panics and loops included: an allocation is
    [alloc_block], a free is [heap_free], from every state and for every fuel. *)
Theorem operations_alone c o s :
  prun (alloc_p cfg plain fuel base id c) s = alloc_block cfg base id c s /\
  prun (free_p cfg plain fuel id o) s = heap_free cfg id o s.
Proof. split; [apply alloc_is_alloc_block|apply free_is_heap_free]. Qed.
End alone.
