(* ===== verification/HeapThreads.v ===== *)
(** * HeapThreads: threads that interleave on one heap

    The state of the threads that run the programs of [HeapConc]: the memory of
    the heap, with the bookkeeping that the notes of the accesses keep. The
    invariant [CInv] extends the one of [HeapInv] by the slabs that threads have
    in hand and the blocks they are about to return or free. [ev] is what a
    thread can rely on while the others act, [frame] what one access of a thread
    changes; accesses that keep [CInv] and stay within their frame are what the
    other threads rely on ([frame_ev]). *)

From Stdlib Require Import ZArith Lia.
From stdpp Require Import base numbers option gmap functions sets list.
From S2P Require Import Prelude Bitset Size Data Cas Slab Heap HeapLists HeapRules HeapInv HeapSafe HeapFree HeapHand CrashLogic HeapConc.
Local Open Scope Z_scope.

(** ** The state *)

(** [c_live]: the blocks that are not free; [c_hand]: the slabs in a thread's
    hand; [c_pocket]: the block that a thread's call allocates or frees;
    [c_app]: the pointers of the application, each with class, slab and block;
    [c_n]: the number of accesses so far; [c_stamp]: the number of writes of
    the global stack; [c_loaded]: the head that a thread's pop last loaded, with
    the stamp then. *)
Record CS := mkCS {
  c_hs : HS;
  c_live : Z -> gset Z;
  c_hand : Z -> list Z;
  c_pocket : Z -> option (Z * Z);
  c_app : gmap Z (Z * Z * Z);
  c_n : Z;
  c_stamp : nat;
  c_loaded : Z -> option (DState (option Z) * nat);
}.

Definition c_mem (s : CS) : HeapMem := hs_mem (c_hs s).

Definition put_hs (h : HS) (s : CS) : CS :=
  mkCS h (c_live s) (c_hand s) (c_pocket s) (c_app s) (c_n s + 1) (c_stamp s) (c_loaded s).
Definition put_live (i : Z) (x : gset Z) (s : CS) : CS :=
  mkCS (c_hs s) (<[i := x]> (c_live s)) (c_hand s) (c_pocket s) (c_app s) (c_n s) (c_stamp s) (c_loaded s).
Definition put_hand (t : Z) (l : list Z) (s : CS) : CS :=
  mkCS (c_hs s) (c_live s) (<[t := l]> (c_hand s)) (c_pocket s) (c_app s) (c_n s) (c_stamp s) (c_loaded s).
Definition put_pocket (t : Z) (x : option (Z * Z)) (s : CS) : CS :=
  mkCS (c_hs s) (c_live s) (c_hand s) (<[t := x]> (c_pocket s)) (c_app s) (c_n s) (c_stamp s) (c_loaded s).
Definition put_app (a : gmap Z (Z * Z * Z)) (s : CS) : CS :=
  mkCS (c_hs s) (c_live s) (c_hand s) (c_pocket s) a (c_n s) (c_stamp s) (c_loaded s).
Definition put_stamp (k : nat) (s : CS) : CS :=
  mkCS (c_hs s) (c_live s) (c_hand s) (c_pocket s) (c_app s) (c_n s) k (c_loaded s).
Definition put_loaded (t : Z) (x : option (DState (option Z) * nat)) (s : CS) : CS :=
  mkCS (c_hs s) (c_live s) (c_hand s) (c_pocket s) (c_app s) (c_n s) (c_stamp s) (<[t := x]> (c_loaded s)).

(** The block in the pocket is free again. *)
Definition drop_pocket (t : Z) (s : CS) : CS :=
  match c_pocket s t with
  | None => s
  | Some (i, b) => put_pocket t None (put_live i (c_live s i ∖ {[b]}) s)
  end.

(** What a note records. A pointer that the application does not hold cannot be
    given back: there is no such access. *)
Definition annotate (t : Z) (x : note) (s : CS) : option CS :=
  match x with
  | Quiet => Some s
  | Loaded d => Some (put_loaded t (Some (d, c_stamp s)) s)
  | Hand l => Some (put_hand t l s)
  | Swap l => Some (put_hand t l (put_stamp (S (c_stamp s)) (put_loaded t None s)))
  | Take i b => Some (put_pocket t (Some (i, b)) (put_live i ({[b]} ∪ c_live s i) s))
  | Give => Some (drop_pocket t s)
  | GiveRemote l => Some (put_hand t l (drop_pocket t s))
  | Return p c =>
      match c_pocket s t with
      | None => Some s
      | Some (i, b) => Some (put_pocket t None (put_app (<[p := (c, i, b)]> (c_app s)) s))
      end
  | Grab p =>
      match c_app s !! p with
      | None => None
      | Some (_, i, b) => Some (put_pocket t (Some (i, b)) (put_app (delete p (c_app s)) s))
      end
  end.

(** An access of thread [t] with its note. *)
Definition crun (t : Z) A (m : M HS A) (f : A -> note) : M CS A := fun s =>
  match m (c_hs s) with
  | Done (h, a) => match annotate t (f a) (put_hs h s) with Some s' => Done (s', a) | None => Diverge end
  | Panic => Panic
  | Diverge => Diverge
  | Undef => Undef
  end.

(** ** The invariant *)
Section inv.
Context `{BL : BracketLaws} `{IS : IntoState} (base : Z).

Definition ptr (c i b : Z) : Z := offset_to_pointer base (block_offset c i b).

Definition hands (s : CS) : Hands := fun i => exists t, i ∈ c_hand s t.

Record CInvG (g : ghost) (s : CS) : Prop := {
  ci_inv : Inv (HN := hands s) (c_n s) g (c_mem s);
  ci_live : forall i, live g i = c_live s i;
  ci_nodup : forall t, NoDup (c_hand s t);
  ci_hands : forall t t' i, i ∈ c_hand s t -> i ∈ c_hand s t' -> t = t';
  ci_pocket : forall t i b, c_pocket s t = Some (i, b) -> b ∈ c_live s i;
  ci_pockets : forall t t' x, c_pocket s t = Some x -> c_pocket s t' = Some x -> t = t';
  ci_app : forall p c i b, c_app s !! p = Some (c, i, b) ->
    p = ptr c i b /\ class (loc (c_mem s) i) = c /\ b ∈ c_live s i /\ forall t, c_pocket s t <> Some (i, b);
  ci_held : forall i b, b ∈ c_live s i ->
    (exists t, c_pocket s t = Some (i, b)) \/ exists p c, c_app s !! p = Some (c, i, b);
}.

Definition CInv (s : CS) : Prop := exists g, CInvG g s.

(** ** What belongs to whom *)

(** Slabs whose descriptors only thread [t] writes: those in its stacks and in
    its hand, and the one of the block in its pocket if the slab is its own. *)
Definition mine (t : Z) (s : CS) (i : Z) : Prop :=
  i ∈ c_hand s t \/
  (exists r l, chain (c_mem s) (head (stk (c_mem s) t r)) l /\ i ∈ l) \/
  (exists b, c_pocket s t = Some (i, b) /\ owner (loc (c_mem s) i) = Some t).

Definition global (s : CS) (i : Z) : Prop :=
  exists l, chain (c_mem s) (d_inner (shared_free (c_mem s))) l /\ i ∈ l.

Lemma chain_place g s t r l : CInvG g s -> chain (c_mem s) (head (stk (c_mem s) t r)) l -> l = lst g (place_of t r).
Proof.
  intros HC Hl. eapply chain_det; [exact Hl|]. rewrite <- hd_of_place.
  apply (li_chain _ _ _ (inv_li _ _ _ _ (ci_inv _ _ HC))), place_of_det.
Qed.

Lemma mine_linked g s t r i : CInvG g s -> i ∈ lst g (place_of t r) -> mine t s i.
Proof.
  intros HC Hi. right; left. exists r, (lst g (place_of t r)). split; [|done]. rewrite <- hd_of_place.
  apply (li_chain _ _ _ (inv_li _ _ _ _ (ci_inv _ _ HC))), place_of_det.
Qed.

(** Where the slabs of a thread are, and who owns them. *)
Lemma mine_place g s t i : CInvG g s -> mine t s i ->
  i ∈ c_hand s t /\ pl g i = Some PDet /\ live g i = ∅ \/
  pl g i = Some (PUn t) /\ live g i = ∅ \/
  (exists c, pl g i = Some (PSz t c)) /\ owner (loc (c_mem s) i) = Some t \/
  live g i <> ∅ /\ owner (loc (c_mem s) i) = Some t.
Proof.
  intros HC. pose proof (ci_inv _ _ HC) as HI. intros [Hh|[(r & l & Hl & Hi)|(b & Hp & Ho)]].
  - left. split; [done|]. apply (inv_hands _ _ _ _ HI); [done|by exists t].
  - rewrite (chain_place _ _ _ _ _ HC Hl) in Hi. apply (li_mem _ _ _ (inv_li _ _ _ _ HI)) in Hi; [|apply place_of_det].
    pose proof (inv_slab _ _ _ _ HI i ltac:(done)) as Hs. rewrite Hi in Hs. destruct r as [|c]; simpl in *.
    + right; left. split; [done|apply Hs].
    + right; right; left. split; [eauto|apply Hs].
  - right; right; right. split; [|done]. rewrite (ci_live _ _ HC). pose proof (ci_pocket _ _ HC _ _ _ Hp). set_solver.
Qed.

Lemma mine_disjoint g s t j i : CInvG g s -> mine t s i -> mine j s i -> t = j.
Proof.
  intros HC Ht Hj. pose proof (ci_hands _ _ HC t j i) as Hh.
  apply (mine_place _ _ _ _ HC) in Ht, Hj. naive_solver.
Qed.

Lemma mine_global g s t i : CInvG g s -> mine t s i -> global s i -> False.
Proof.
  intros HC Ht (l & Hl & Hi). pose proof (ci_inv _ _ HC) as HI. pose proof (inv_li _ _ _ _ HI) as HL.
  pose proof (li_chain _ _ _ HL PGlobal ltac:(done)) as Hc. cbn [hd_of] in Hc.
  rewrite (chain_det _ _ _ _ Hl Hc) in Hi. apply (li_mem _ _ _ HL) in Hi; [|done].
  pose proof (inv_slab _ _ _ _ HI i ltac:(done)) as Hs. rewrite Hi in Hs. simpl in Hs.
  apply (mine_place _ _ _ _ HC) in Ht. naive_solver.
Qed.

(** ** Interference *)
Record ev (j : Z) (s s' : CS) : Prop := {
  ev_inv : CInv s';
  ev_stk : forall r, stk (c_mem s') j r = stk (c_mem s) j r;
  ev_loc : forall i, mine j s i -> loc (c_mem s') i = loc (c_mem s) i;
  ev_hand : c_hand s' j = c_hand s j;
  ev_pocket : c_pocket s' j = c_pocket s j;
  ev_loaded : c_loaded s' j = c_loaded s j;
  ev_block : forall i b, c_pocket s j = Some (i, b) ->
    class (loc (c_mem s') i) = class (loc (c_mem s) i) /\
    (owner (loc (c_mem s') i) = Some j -> owner (loc (c_mem s) i) = Some j);
  ev_stamp : (c_stamp s <= c_stamp s')%nat;
  ev_free : c_stamp s' = c_stamp s -> shared_free (c_mem s') = shared_free (c_mem s) /\
    forall i, global s i -> loc (c_mem s') i = loc (c_mem s) i;
}.

Lemma ev_refl j s : CInv s -> ev j s s.
Proof. intros HC. by split. Qed.

Lemma ev_mine j s s' i : ev j s s' -> mine j s i -> mine j s' i.
Proof.
  intros He. destruct (He) as [_ Hk Hl Hh Hp _ _ _ _]. intros [Hi|[(r & l & Hc & Hi)|(b & Hb & Ho)]].
  - left. by rewrite Hh.
  - right; left. exists r, l. split; [|done]. rewrite Hk. eapply chain_frame; [exact Hc|].
    intros k Hkl. rewrite Hl; [done|]. right; left. by exists r, l.
  - right; right. exists b. rewrite Hp. split; [done|]. rewrite Hl; [done|]. right; right. by exists b.
Qed.

Lemma ev_global j s s' i : ev j s s' -> c_stamp s' = c_stamp s -> global s i -> global s' i.
Proof.
  intros He Hn (l & Hc & Hi). destruct (ev_free _ _ _ He Hn) as [Hf Hl]. exists l. split; [|done]. rewrite Hf.
  eapply chain_frame; [exact Hc|]. intros k Hk. rewrite Hl; [done|]. by exists l.
Qed.

Lemma ev_trans j s1 s2 s3 : ev j s1 s2 -> ev j s2 s3 -> ev j s1 s3.
Proof.
  intros H1 H2. split.
  - apply H2.
  - intros r. by rewrite (ev_stk _ _ _ H2), (ev_stk _ _ _ H1).
  - intros i Hi. rewrite (ev_loc _ _ _ H2) by (by eapply ev_mine). by apply H1.
  - by rewrite (ev_hand _ _ _ H2), (ev_hand _ _ _ H1).
  - by rewrite (ev_pocket _ _ _ H2), (ev_pocket _ _ _ H1).
  - by rewrite (ev_loaded _ _ _ H2), (ev_loaded _ _ _ H1).
  - intros i b Hp. destruct (ev_block _ _ _ H1 i b Hp) as [C1 O1].
    destruct (ev_block _ _ _ H2 i b) as [C2 O2]; [by rewrite (ev_pocket _ _ _ H1)|]. split; [congruence|auto].
  - pose proof (ev_stamp _ _ _ H1). pose proof (ev_stamp _ _ _ H2). lia.
  - intros Hn. pose proof (ev_stamp _ _ _ H1). pose proof (ev_stamp _ _ _ H2).
    destruct (ev_free _ _ _ H1 ltac:(lia)) as [F1 L1], (ev_free _ _ _ H2 ltac:(lia)) as [F2 L2]. split; [congruence|].
    intros i Hi. rewrite L2 by (eapply ev_global; [exact H1|lia|done]). by apply L1.
Qed.

(** What an access of thread [t] may change. *)
Record frame (t : Z) (s s' : CS) : Prop := {
  fr_stk : forall t' r, t' <> t -> stk (c_mem s') t' r = stk (c_mem s) t' r;
  fr_loc : forall i, ~ mine t s i -> loc (c_mem s') i = loc (c_mem s) i;
  fr_live : forall i, c_live s i <> ∅ -> class (loc (c_mem s') i) = class (loc (c_mem s) i) /\
    (owner (loc (c_mem s') i) = owner (loc (c_mem s) i) \/ owner (loc (c_mem s') i) = None);
  fr_hand : forall t', t' <> t -> c_hand s' t' = c_hand s t';
  fr_pocket : forall t', t' <> t -> c_pocket s' t' = c_pocket s t';
  fr_loaded : forall t', t' <> t -> c_loaded s' t' = c_loaded s t';
  fr_stamp : (c_stamp s <= c_stamp s')%nat;
  fr_free : c_stamp s' = c_stamp s -> shared_free (c_mem s') = shared_free (c_mem s);
}.

Lemma frame_ev t j s s' : t <> j -> CInv s -> CInv s' -> frame t s s' -> ev j s s'.
Proof.
  intros Hne [g HC] HC' [Fk Fl Fv Fh Fp Fo Fs Ff]. split; auto.
  - intros i Hi. apply Fl. intros Ht. apply Hne. by eapply mine_disjoint.
  - intros i b Hp. destruct (Fv i) as [Hc [Ho|Ho]].
    + pose proof (ci_pocket _ _ HC _ _ _ Hp). set_solver.
    + split; [done|]. by rewrite Ho.
    + split; [done|]. by rewrite Ho.
  - intros Hn. split; [by apply Ff|]. intros i Hi. apply Fl. intros Ht. by eapply mine_global.
Qed.
End inv.

(** ** Accesses of a thread among others *)
Section steps.
Context (cfg : Cfg) `{BL : BracketLaws} `{IS : IntoState} (base : Z).

Abbreviation CInv := (CInv base).
Abbreviation ev := (ev base).

(** The executions that are considered. While a pop is between its load of the
    head and its compare-exchange the same word does not come back (versions
    wrap after 2^16 updates of a thread); the counters of the stacks and the
    slab indices do not run out. *)
Definition no_aba (s : CS) : Prop := forall t d k,
  c_loaded s t = Some (d, k) -> d_inner d <> None -> (k < c_stamp s)%nat -> shared_free (c_mem s) <> d.

Definition ok (s : CS) : Prop :=
  no_aba s /\ c_n s + 1 < 2 ^ 64 /\ bumpv (c_mem s) + BATCH_BUMP_POP cfg < 2 ^ 32.

Definition rely0 (j : Z) (s s' : CS) : Prop := CInv s -> ev j s s'.
Definition rely (j : Z) (s s' : CS) : Prop := rely0 j s s' /\ ok s'.
Definition guar (t : Z) (s s' : CS) : Prop := forall j, t <> j -> CInv s -> ev j s s'.

(** Thread [t] runs [p] among the others; what it returns satisfies [Q]. *)
Definition twp (t : Z) {A} (p : P CS A) (Q : CS -> A -> Prop) (s : CS) : Prop :=
  cwp (rely t) (guar t) True p Q CInv s.

Section thread.
Context (t : Z).
Implicit Types s : CS.

Lemma twp_bind {A C} (p : P CS A) (k : A -> P CS C) Q s : twp t p (fun s a => twp t (k a) Q s) s -> twp t (pbind p k) Q s.
Proof. apply cwp_bind. Qed.

Lemma twp_conseq {A} (p : P CS A) (Q Q' : CS -> A -> Prop) s : twp t p Q s -> (forall s a, CInv s -> Q s a -> Q' s a) -> twp t p Q' s.
Proof. intros H HQ. eapply cwp_conseq; [by apply cwp_end|naive_solver|done]. Qed.

Lemma twp_ret {A} (a : A) (Q : CS -> A -> Prop) s : CInv s -> Q s a -> twp t (PRet a) Q s.
Proof. intros HC HQ. by split. Qed.

Lemma twp_diverge {A} (Q : CS -> A -> Prop) s : CInv s -> twp t (act diverge) Q s.
Proof. intros HC. by split. Qed.

(** One access: from the states that the others may lead to. *)
Lemma twp_act {X} (m : M HS X) f Q s :
  CInv s ->
  (forall s1, ev t s s1 -> ok s1 -> mwp m (fun m' a => forall h s', hs_mem h = m' -> annotate t (f a) (put_hs h s1) = Some s' ->
     CInv s' /\ frame t s1 s' /\ Q s' a) (c_mem s1)) ->
  twp t (act (crun t X m f)) Q s.
Proof.
  intros HC H. apply cwp_act; [done|]. intros s1 [He Hok]. specialize (He HC). specialize (H s1 He Hok (c_hs s1) eq_refl).
  unfold wp, awp, crun in *. destruct (m (c_hs s1)) as [[h a]| | |]; [|done..].
  destruct (annotate t (f a) (put_hs h s1)) as [s'|] eqn:E; [|done]. destruct (H h s' eq_refl E) as (HC' & Hf & HQ).
  split; [|done]. intros j Hj HC1. by eapply frame_ev.
Qed.

(** An access that writes nothing. *)
Lemma still_inv h s : CInv s -> hs_mem h = c_mem s -> CInv (put_hs h s).
Proof.
  intros [g [HI Hl Hn Hd Hp Hpp Ha Hheld]] Hm. exists g. split; try done; unfold c_mem in *; simpl; rewrite Hm; [|done].
  eapply inv_mono; [exact HI|lia].
Qed.

Lemma still_frame h s : hs_mem h = c_mem s -> frame t s (put_hs h s).
Proof. intros Hm. split; try done; unfold c_mem in *; simpl; rewrite Hm; auto. Qed.

Lemma still_ev h s : CInv s -> hs_mem h = c_mem s -> ev t s (put_hs h s).
Proof. intros HC Hm. pose proof (still_inv h s HC Hm). split; try done; unfold c_mem in *; simpl; by rewrite Hm. Qed.

Lemma twp_read {X} (m : M HS X) Q s :
  CInv s ->
  (forall s1, ev t s s1 -> ok s1 -> mwp m (fun m' a => m' = c_mem s1 /\
     forall s', ev t s s' -> c_mem s' = c_mem s1 -> Q s' a) (c_mem s1)) ->
  twp t (quiet (crun t) m) Q s.
Proof.
  intros HC H. apply twp_act; [done|]. intros s1 He Hok. eapply mwp_conseq; [by apply H|].
  intros m' a [-> HQ] h s' Hm [= <-]. pose proof (ev_inv _ _ _ _ He) as HC1.
  split_and!; [by apply still_inv|by apply still_frame|]. apply HQ; [|done]. eapply ev_trans; [exact He|by apply still_ev].
Qed.
End thread.
End steps.
