(* ===== verification/HeapAccess.v ===== *)
(** * HeapAccess: the accesses of the heap operations under interference

    Specifications of the programs of [HeapConc] in the logic of [HeapThreads]:
    the compare-exchange loops once and for all ([twp_update]), then the global
    stack, the bump pointer and the remote counter, and the accesses in
    between. *)

From Stdlib Require Import ZArith Lia.
From stdpp Require Import base numbers option gmap functions sets list.
From S2P Require Import Prelude Bitset Size Data Cas Slab Heap HeapLists HeapRules HeapInv HeapSafe HeapFree HeapHand CrashLogic HeapConc HeapThreads.
Local Open Scope Z_scope.
Local Open Scope crash_scope.

Section ctx.
Context (cfg : Cfg) `{B : Bracket} `{IS : IntoState}.

(** Accesses to the context do not touch the memory. *)
Lemma mwp_help {T} id (d : DState T) (Q : HeapMem -> unit -> Prop) m : Q m tt -> mwp (help cfg id d) Q m.
Proof. intros H s <-. apply wp_help; [apply _|]. intros x. exact H. Qed.

Lemma mwp_log_unsync id h (Q : HeapMem -> unit -> Prop) m : Q m tt -> mwp (log_unsync cfg id h) Q m.
Proof. intros H s <-. apply wp_log_unsync; [apply _|]. intros x. exact H. Qed.

Lemma mwp_draw id (Q : HeapMem -> Z -> Prop) m : (forall v, Q m v) -> mwp (draw_version cfg id) Q m.
Proof. intros H s <-. unfold draw_version. wp_go. apply wp_when; intros _; wp_go; [|apply H]. unfold help_store. by apply wp_modify, wp_ret, H. Qed.

Lemma mwp_cell {T} (c : cell HS T) gm (Q : HeapMem -> DState T -> Prop) m :
  (forall h, cget c h = gm (hs_mem h)) -> Q m (gm m) -> mwp (gets (cget c)) Q m.
Proof. intros Hg H s <-. apply wp_gets. by rewrite Hg. Qed.

Lemma mwp_exchange {T} `{EqDecision T} (c : cell HS T) gm pm old new (Q : HeapMem -> option (DState T) -> Prop) m :
  (forall h, cget c h = gm (hs_mem h)) -> (forall d h, hs_mem (cput c d h) = pm d (hs_mem h)) ->
  (gm m = old -> Q (pm new m) None) -> (gm m <> old -> Q m (Some (gm m))) -> mwp (exchange c old new) Q m.
Proof.
  intros Hg Hp Hn Hs s <-. unfold exchange. wp_go. rewrite Hg. case_decide; wp_go; [|by apply Hs]. rewrite Hp. by apply Hn.
Qed.

Lemma mwp_prepare {T} id (nxt : T -> Z -> M HS (option (T * HeapState))) old v (Q : HeapMem -> option T -> Prop) m :
  mwp (nxt old v) (fun m' r => Q m' (fst <$> r)) m -> mwp (prepare cfg id nxt old v) Q m.
Proof.
  intros H. unfold prepare. apply mwp_bind. eapply mwp_conseq; [exact H|]. intros m' [[new lg]|] HQ; mgo; [|done].
  apply mwp_log_unsync. by mgo.
Qed.
End ctx.

Section access.
Context (cfg : Cfg) `{BL : BracketLaws} `{IS : IntoState} (Hcfg : cfg_ok cfg) (base t : Z) (fuel : nat).
Implicit Types s : CS.

Abbreviation CInv := (CInv base).
Abbreviation ev := (ev base).
Abbreviation twp := (twp cfg base t).
Abbreviation run := (crun t).
Abbreviation twp_read := (HeapThreads.twp_read cfg base t).
Abbreviation twp_act := (HeapThreads.twp_act cfg base t).

(** What an access leaves behind: the invariant and its frame, then [Q]. *)
Definition lands (s s' : CS) (Q : Prop) : Prop := CInv s' /\ frame t s s' /\ Q.

Definition stable (E : CS -> Prop) : Prop := forall s s', E s -> ev t s s' -> E s'.

(** [Detectable::update] in three accesses per round: [K] holds throughout,
    [I old] after a load of [old], [J old new] when [new] is ready. *)
Section update.
Context {T} `{EqDecision T} (c : cell HS T) (gm : HeapMem -> DState T) (pm : DState T -> HeapMem -> HeapMem).
Context (nxt : T -> Z -> M HS (option (T * HeapState))) (on_load : DState T -> note) (on_write : T -> note).
Context (K : CS -> Prop) (I : DState T -> CS -> Prop) (J : DState T -> T -> CS -> Prop) (Q : CS -> option T -> Prop).
Context (Hg : forall h, cget c h = gm (hs_mem h)) (Hp : forall d h, hs_mem (cput c d h) = pm d (hs_mem h)).
Context (K_stable : stable K) (I_stable : forall old, stable (I old)) (J_stable : forall old new, stable (J old new)).
Context (J_K : forall old new s, J old new s -> K s).
Context (H_load : forall s h s', CInv s -> ok cfg s -> K s -> hs_mem h = c_mem s ->
  annotate t (on_load (gm (c_mem s))) (put_hs h s) = Some s' -> lands s s' (I (gm (c_mem s)) s')).
Context (H_next : forall old v s, CInv s -> ok cfg s -> I old s ->
  mwp (nxt (d_inner old) v) (fun m' r => forall h, hs_mem h = m' -> lands s (put_hs h s)
    match r with None => Q (put_hs h s) None | Some (new, _) => J old new (put_hs h s) end) (c_mem s)).
Context (H_write : forall old new v s h s', CInv s -> ok cfg s -> J old new s -> gm (c_mem s) = old ->
  hs_mem h = pm (mkD (Some t) v new) (c_mem s) ->
  annotate t (on_write (d_inner old)) (put_hs h s) = Some s' -> lands s s' (Q s' (Some (d_inner old)))).

Lemma twp_update_loop v n : forall old s, CInv s -> I old s ->
  twp (update_loop_p cfg run t n c nxt on_load on_write v old) Q s.
Proof.
  induction n as [|n IH]; intros old s HC HI; cbn [update_loop_p].
  all: apply twp_bind, twp_read; [done|]; intros s1 He1 Hok1; apply mwp_help; split; [done|]; intros s2 He2 _.
  all: assert (CInv s2) as HC2 by apply He2; assert (I old s2) as HI2 by (by eapply I_stable).
  all: apply twp_bind, twp_act; [done|]; intros s3 He3 Hok3; assert (CInv s3) as HC3 by apply He3; assert (I old s3) as HI3 by (by eapply I_stable).
  all: apply mwp_prepare; eapply mwp_conseq; [by apply H_next|]; intros m' r HJ h s' Hm [= <-];
    destruct (HJ h Hm) as (HC4 & Hf & HJ4); split; [done|]; split; [done|]; destruct r as [[new lg]|]; cbn [fmap option_fmap option_map fst]; [|by apply twp_ret].
  all: apply twp_bind, twp_act; [done|]; intros s5 He5 Hok5; assert (CInv s5) as HC5 by apply He5; assert (J old new s5) as HJ5 by (by eapply J_stable).
  all: eapply mwp_exchange; [exact Hg|exact Hp| |]; intros Eold h' s' Hm' E.
  1,3: destruct (H_write old new v s5 h' s' HC5 Hok5 HJ5 Eold Hm' E) as (HC6 & Hf6 & HQ); split_and!; [done|done|by apply twp_ret].
  all: destruct (H_load s5 h' s' HC5 Hok5 (J_K _ _ _ HJ5) Hm' E) as (HC6 & Hf6 & HI6); split_and!; [done|done|].
  - by apply twp_diverge.
  - by apply IH.
Qed.

Lemma twp_update s : CInv s -> K s -> twp (update_p cfg run fuel t c nxt on_load on_write) Q s.
Proof.
  intros HC HK. apply twp_bind, twp_read; [done|]. intros s1 He1 Hok1. apply mwp_draw. intros v. split; [done|].
  intros s2 He2 _. apply twp_bind, twp_act; [apply He2|]. intros s3 He3 Hok3.
  assert (CInv s3) as HC3 by apply He3. assert (K s3) as HK3 by (eapply K_stable; [|exact He3]; by eapply K_stable).
  eapply mwp_cell; [exact Hg|]. intros h s' Hm E. destruct (H_load s3 h s' HC3 Hok3 HK3 Hm E) as (HC4 & Hf & HI).
  split_and!; [done|done|]. by apply twp_update_loop.
Qed.
End update.

(** ** Rebuilding the invariant *)

(** The slabs in all hands after thread [t] changes its own. *)
Lemma hands_in s s' l i : CInv s -> c_hand s t = [] -> (forall t', c_hand s' t' = if decide (t' = t) then l else c_hand s t') ->
  hands s' i <-> hands s i \/ i ∈ l.
Proof.
  intros _ H0 Hh. unfold hands. split.
  - intros [t' Hi]. rewrite Hh in Hi. case_decide; eauto.
  - intros [[t' Hi]|Hi]; [exists t'|exists t]; rewrite Hh; [|by rewrite decide_True].
    case_decide; [subst; rewrite H0 in Hi; set_solver|done].
Qed.

Lemma hands_out s s' l i : CInv s -> c_hand s t = l -> (forall t', c_hand s' t' = if decide (t' = t) then [] else c_hand s t') ->
  hands s' i <-> hands s i /\ i ∉ l.
Proof.
  intros [g HC] <- Hh. unfold hands. split.
  - intros [t' Hi]. rewrite Hh in Hi. case_decide as Ht; [set_solver|]. split; [eauto|]. intros Hi'. apply Ht. by eapply ci_hands.
  - intros [[t' Hi] Hn]. exists t'. rewrite Hh. case_decide; [by subst|done].
Qed.

Lemma inv_later s' g g' n m' : Inv (HN := hands s') n g' m' -> c_mem s' = m' -> n <= c_n s' -> (forall i, live g' i = live g i) ->
  exists g1, Inv (HN := hands s') (c_n s') g1 (c_mem s') /\ forall i, live g1 i = live g i.
Proof. intros HI -> Hn Hl. exists g'. split; [by eapply inv_mono|done]. Qed.

Lemma cinv_change g s s' l :
  CInvG base g s -> (exists g', Inv (HN := hands s') (c_n s') g' (c_mem s') /\ forall i, live g' i = live g i) ->
  (forall t', c_hand s' t' = if decide (t' = t) then l else c_hand s t') ->
  c_pocket s' = c_pocket s -> c_app s' = c_app s -> c_live s' = c_live s ->
  (forall i, c_live s i <> ∅ -> class (loc (c_mem s') i) = class (loc (c_mem s) i)) ->
  NoDup l -> (forall t' i, i ∈ l -> i ∈ c_hand s t' -> t' = t) -> CInv s'.
Proof.
  intros HC (g' & HI & Hlv) Hh Hp Ha Hl Hcl Hnd Hdis. exists g'. split; rewrite ?Hp, ?Ha, ?Hl; try apply HC; try done.
  - intros i. rewrite Hlv. apply HC.
  - intros t'. rewrite Hh. case_decide; [done|apply HC].
  - intros t1 t2 i. rewrite !Hh. pose proof (ci_hands _ _ _ HC t1 t2 i). repeat case_decide; subst; naive_solver.
  - intros p c i b Hpa. destruct (ci_app _ _ _ HC p c i b Hpa) as (? & ? & ? & ?). rewrite Hcl; [done|set_solver].
Qed.

(** ** [Global::push] *)
Definition holds (l : list Z) s : Prop := c_hand s t = l /\ c_pocket s t = None /\ seg (c_mem s) l.

Lemma holds_stable l : stable (holds l).
Proof.
  intros s s' (Hh & Hp & Hs) He. split_and!; [by rewrite (ev_hand _ _ _ _ He)|by rewrite (ev_pocket _ _ _ _ He)|].
  eapply seg_frame; [exact Hs|]. intros i Hi. apply (ev_loc _ _ _ _ He). left. by rewrite Hh.
Qed.

Definition idle s : Prop := c_hand s t = [] /\ c_pocket s t = None.

Lemma push_next_lands i l old v s :
  CInv s -> holds (i :: l) s -> let tl := List.last (i :: l) i in
  mwp (push_next i tl old v) (fun m' r => forall h, hs_mem h = m' -> lands s (put_hs h s)
    match r with None => False | Some (new, _) => holds (i :: l) (put_hs h s) /\ next (loc (c_mem (put_hs h s)) tl) = old /\ new = Some i end) (c_mem s).
Proof.
  intros [g HC] (Hh & Hp & Hs) tl. pose proof (ci_inv _ _ _ HC) as HI.
  assert (tl ∈ c_hand s t) as Htl by (rewrite Hh; apply last_in).
  destruct (inv_hands _ _ _ _ HI tl ltac:(done) (ex_intro _ t Htl)) as [Hd Hl].
  unfold push_next. mgo. intros h Hm. assert (c_mem (put_hs h s) = put_loc tl (set_next old (loc (c_mem s) tl)) (c_mem s)) as Em by (exact Hm). split.
  - eapply (cinv_change g s _ (c_hand s t)); [exact HC|..]; try done.
    + eapply inv_later; [eapply (hand_next (hands s)); [exact HI|by exists t]|exact Em|simpl; lia|done].
    + intros t'. simpl. by case_decide; subst.
    + intros i' _. rewrite Em, loc_put_loc. by case_decide; subst.
    + apply HC.
    + intros t' i' Hi Hi'. by eapply ci_hands.
  - split.
    + split; try done; rewrite ?Em; try done.
      * intros i' Hi'. rewrite loc_put_loc, decide_False; [done|]. intros ->. apply Hi'. by left.
      * intros i' _. rewrite loc_put_loc. case_decide; [subst|]; auto.
    + split_and!; [split_and!; [done|done|]| |done].
      * rewrite Em. apply seg_last; [|done]. rewrite <- Hh. apply HC.
      * rewrite Em, loc_put_loc, decide_True by done. done.
Qed.

Lemma push_write i l v s h s' :
  CInv s -> holds (i :: l) s -> next (loc (c_mem s) (List.last (i :: l) i)) = d_inner (shared_free (c_mem s)) ->
  hs_mem h = put_free (mkD (Some t) v (Some i)) (c_mem s) -> annotate t (Swap []) (put_hs h s) = Some s' -> lands s s' (idle s').
Proof.
  intros HCI (Hh & Hp & Hs) Hn Hm [= <-]. destruct (HCI) as [g HC]. pose proof (ci_inv _ _ _ HC) as HI.
  set (s' := put_hand _ _ _). assert (c_mem s' = put_free (mkD (Some t) v (Some i)) (c_mem s)) as Em by exact Hm.
  assert (forall t', c_hand s' t' = if decide (t' = t) then [] else c_hand s t') as Hh'.
  { intros t'. simpl. case_decide; [subst; by rewrite fn_lookup_insert|by rewrite fn_lookup_insert_ne]. }
  split_and!.
  - eapply (cinv_change g s _ []); [exact HC|..]; try done.
    + eapply inv_later; [eapply (hand_global (hands s) _ _ _ _ i l (mkD (Some t) v (Some i))); [exact HI|rewrite <- Hh; apply HC| | |exact Hs|exact Hn|done]|exact Em|simpl; lia|done].
      * intros j Hj. exists t. by rewrite Hh.
      * intros j. by apply hands_out.
    + intros i' _. by rewrite Em.
    + by apply NoDup_nil_2.
    + intros t' i' Hi. by apply elem_of_nil in Hi.
  - split; try done; rewrite ?Em; try done; simpl; intros.
    + auto.
    + by rewrite fn_lookup_insert_ne.
    + by rewrite fn_lookup_insert_ne.
    + lia.
    + lia.
  - split; [by rewrite Hh', decide_True|done].
Qed.

Lemma twp_push i l s : CInv s -> holds (i :: l) s ->
  twp (shared_push_p cfg run fuel t i (List.last (i :: l) i)) (fun s _ => idle s) s.
Proof.
  intros HC HK. unfold shared_push_p. apply twp_bind.
  apply (twp_update free_cell shared_free put_free (push_next i (List.last (i :: l) i)) _ _ (holds (i :: l)) (fun _ => holds (i :: l))
    (fun old new s => holds (i :: l) s /\ next (loc (c_mem s) (List.last (i :: l) i)) = d_inner old /\ new = Some i)); try done.
  - apply holds_stable.
  - intros _. apply holds_stable.
  - intros old new s1 s2 (H1 & H2 & H3) He. split_and!; [by eapply holds_stable| |done].
    rewrite (ev_loc _ _ _ _ He); [done|]. left. rewrite (proj1 H1). apply last_in.
  - by intros old new s1 [? _].
  - intros s1 h s2 HC1 _ HK1 Hm [= <-]. split_and!; [by apply still_inv|by apply still_frame|].
    eapply holds_stable; [exact HK1|]. by apply still_ev.
  - intros old v s1 HC1 _ HK1. eapply mwp_conseq; [by apply push_next_lands|].
    intros m' r Hr h Hm. destruct (Hr h Hm) as (H1 & H2 & H3). split_and!; [done|done|]. by destruct r as [[new lg]|].
  - intros old new v s1 h s2 HC1 _ (HK1 & Hn & ->) Ho Hm E. subst old.
    destruct (push_write i l v s1 h s2 HC1 HK1 Hn Hm E) as (H1 & H2 & H3). split_and!; [done|done|]. by apply twp_ret.
Qed.

(** ** [Shared::pop] *)

(** Nothing in hand or pocket, and no unsized slab of its own. *)
Definition hungry s : Prop := idle s /\ head (stk (c_mem s) t Unsized) = None.

Lemma idle_kept : stable idle.
Proof. intros s s' [Hh Hp] He. split; [by rewrite (ev_hand _ _ _ _ He)|by rewrite (ev_pocket _ _ _ _ He)]. Qed.

Lemma hungry_stable : stable hungry.
Proof. intros s s' [Hi Hu] He. split; [by eapply idle_kept|by rewrite (ev_stk _ _ _ _ He)]. Qed.

(** The head that was loaded is still there unless the stack was written. *)
Definition popping (old : DState (option Z)) s : Prop :=
  hungry s /\ exists n, c_loaded s t = Some (old, n) /\ (n <= c_stamp s)%nat /\ (c_stamp s = n -> shared_free (c_mem s) = old).

Definition popping_to (old : DState (option Z)) (new : option Z) s : Prop :=
  hungry s /\ exists n i, c_loaded s t = Some (old, n) /\ (n <= c_stamp s)%nat /\ d_inner old = Some i /\
    (c_stamp s = n -> shared_free (c_mem s) = old /\ global s i /\ new = next (loc (c_mem s) i)).

Lemma popping_stable old : stable (popping old).
Proof.
  intros s s' (Hu & n & Hl & Hn & Hs) He. split; [by eapply hungry_stable|]. pose proof (ev_stamp _ _ _ _ He).
  exists n. rewrite (ev_loaded _ _ _ _ He). split_and!; [done|lia|]. intros E.
  destruct (ev_free _ _ _ _ He ltac:(lia)) as [-> _]. apply Hs. lia.
Qed.

Lemma popping_to_stable old new : stable (popping_to old new).
Proof.
  intros s s' (Hu & n & i & Hl & Hn & Hi & Hs) He. split; [by eapply hungry_stable|]. pose proof (ev_stamp _ _ _ _ He).
  exists n, i. rewrite (ev_loaded _ _ _ _ He). split_and!; [done|lia|done|]. intros E.
  destruct (Hs ltac:(lia)) as (Hf & Hg & ->). destruct (ev_free _ _ _ _ He ltac:(lia)) as [-> Hl'].
  split_and!; [done|eapply ev_global; [done|lia|done]|by rewrite Hl'].
Qed.

Lemma head_global g s i : CInvG base g s -> d_inner (shared_free (c_mem s)) = Some i -> exists l, lst g PGlobal = i :: l /\ global s i.
Proof.
  intros HC Hi. pose proof (inv_li _ _ _ _ (ci_inv _ _ _ HC)) as HL.
  destruct (li_head _ _ _ PGlobal i HL ltac:(done) Hi) as [l El]. exists l. split; [done|].
  exists (i :: l). split; [|set_solver]. rewrite <- El. apply (li_chain _ _ _ HL PGlobal). done.
Qed.

Lemma pop_write i v n old s h s' :
  CInv s -> idle s -> d_inner old = Some i -> c_loaded s t = Some (old, n) -> shared_free (c_mem s) = old ->
  hs_mem h = put_free (mkD (Some t) v (next (loc (c_mem s) i))) (c_mem s) ->
  annotate t (Swap [i]) (put_hs h s) = Some s' -> lands s s' (holds [i] s').
Proof.
  intros HCI (Hh & Hp) Hi _ Ho Hm [= <-]. destruct (HCI) as [g HC]. pose proof (ci_inv _ _ _ HC) as HI.
  set (s' := put_hand _ _ _). assert (c_mem s' = put_free (mkD (Some t) v (next (loc (c_mem s) i))) (c_mem s)) as Em by exact Hm.
  assert (forall t', c_hand s' t' = if decide (t' = t) then [i] else c_hand s t') as Hh'.
  { intros t'. simpl. case_decide; [subst; by rewrite fn_lookup_insert|by rewrite fn_lookup_insert_ne]. }
  destruct (head_global g s i HC) as (l & El & Hg); [by rewrite Ho|].
  split_and!.
  - eapply (cinv_change g s _ [i]); [exact HC|..]; try done.
    + eapply inv_later; [eapply (pop_hand (hands s) _ _ g _ i l (mkD (Some t) v (next (loc (c_mem s) i)))); [exact HI|exact El|done|]|exact Em|simpl; lia|done].
      intros j. rewrite (hands_in s s' [i]) by done. set_solver.
    + intros i' _. by rewrite Em.
    + apply NoDup_singleton.
    + intros t' i' ->%list_elem_of_singleton Hi'. exfalso.
      destruct (inv_hands _ _ _ _ HI i ltac:(done) (ex_intro _ t' Hi')) as [Hd _].
      assert (pl g i = Some PGlobal) by (apply (li_mem _ _ _ (inv_li _ _ _ _ HI)); [done|rewrite El; set_solver]). congruence.
  - split; try done; rewrite ?Em; try done; simpl; intros.
    + auto.
    + by rewrite fn_lookup_insert_ne.
    + by rewrite fn_lookup_insert_ne.
    + lia.
    + lia.
  - split_and!; [by rewrite Hh', decide_True|done|done].
Qed.

(** A slab in hand, or none. *)
Definition popped (r : option Z) s : Prop :=
  match r with Some i => holds [i] s | None => idle s end /\ head (stk (c_mem s) t Unsized) = None.

Lemma twp_pop_loop s : CInv s -> hungry s ->
  twp (update_p cfg run fuel t free_cell pop_next Loaded (fun old => Swap (option_list old))) (fun s r => popped (mjoin r) s) s.
Proof.
  intros HC HK.
  apply (twp_update free_cell shared_free put_free pop_next _ _ hungry popping popping_to); try done.
  - apply hungry_stable.
  - apply popping_stable.
  - apply popping_to_stable.
  - by intros old new s1 [? _].
  - intros s1 h s2 HC1 _ HK1 Hm [= <-]. assert (ev t s1 (put_hs h s1)) as He by (by apply still_ev). split_and!.
    + destruct (still_inv base h s1 HC1 Hm) as [g [? ? ? ? ? ? ? ?]]. by exists g.
    + destruct (still_frame t h s1 Hm) as [F1 F2 F3 F4 F5 F6 F7 F8]. split; try done. simpl. intros t' Ht. by rewrite fn_lookup_insert_ne.
    + split; [by eapply hungry_stable in He|]. exists (c_stamp s1). simpl. rewrite fn_lookup_insert. split_and!; [done|lia|].
      intros _. unfold c_mem in *. simpl. by rewrite Hm.
  - intros old v s1 HC1 _ HK1. unfold pop_next. destruct (d_inner old) as [i|] eqn:Ei; mgo; intros h Hm;
      assert (ev t s1 (put_hs h s1)) as He by (by apply still_ev); (split_and!; [by apply still_inv|by apply still_frame|]).
    + destruct HK1 as (Hu & n & Hl & Hn & Hs). split; [by eapply hungry_stable|]. exists n, i. split_and!; try done.
      intros E. assert (c_mem (put_hs h s1) = c_mem s1) as Em by exact Hm. rewrite Em. specialize (Hs E). split_and!; [done| |done].
      destruct HC1 as [g HC1]. destruct (head_global g s1 i HC1) as (l & _ & Hg); [by rewrite Hs|].
      eapply ev_global; [exact He|done|done].
    + by eapply hungry_stable; [apply HK1|].
  - intros old new v s1 h s2 HC1 [Haba _] (Hu & n & i & Hl & Hn & Hi & Hs) Ho Hm E.
    assert (c_stamp s1 = n) as En.
    { destruct (decide (c_stamp s1 = n)) as [|Hne]; [done|]. exfalso. apply (Haba t old n Hl); [by rewrite Hi|lia|done]. }
    destruct (Hs En) as (_ & _ & ->). rewrite Hi in E. simpl in E.
    destruct (pop_write i v n old s1 h s2 HC1 (proj1 Hu) Hi Hl Ho Hm E) as (H1 & H2 & H3). split_and!; [done|done|].
    rewrite Hi. split; [done|]. injection E as <-. unfold c_mem in *. simpl. rewrite Hm. apply Hu.
Qed.

Lemma twp_shared_pop s : CInv s -> hungry s -> twp (shared_pop_p cfg run fuel t) (fun s r => popped r s) s.
Proof.
  intros HC HK. unfold shared_pop_p. apply twp_bind, twp_read; [done|]. intros s1 He1 Hok1.
  apply (mwp_load _ _ _ shared_free); [done|]. split; [done|]. intros s2 He2 _.
  assert (hungry s2) as HK2 by (by eapply hungry_stable). assert (CInv s2) as HC2 by apply He2.
  case_decide; [by apply twp_ret; [|destruct HK2]|]. apply twp_bind. eapply twp_conseq; [by apply twp_pop_loop|].
  intros s3 r HC3 Hr. by apply twp_ret.
Qed.

(** ** [Shared::bump] *)
Definition starts (old : option Z) : Prop :=
  1 <= default index_MIN old /\ default index_MIN old + BATCH_BUMP_POP cfg < 2 ^ 32.

Lemma batch_wrap : wrap 32 (BATCH_BUMP_POP cfg) = BATCH_BUMP_POP cfg.
Proof. pose proof (ok_bump _ Hcfg). unfold wrap. rewrite Z.mod_small; lia. Qed.

Lemma starts_add old : starts old ->
  index_add (default index_MIN old) (wrap 32 (BATCH_BUMP_POP cfg)) = Done (default index_MIN old + BATCH_BUMP_POP cfg).
Proof. intros [H1 H2]. rewrite batch_wrap. unfold index_add, checked_add. by rewrite (proj2 (Z.ltb_lt _ _)) by lia. Qed.

(** Fresh slabs in hand. *)
Definition bumped (r : option (option Z)) s : Prop := exists old, r = Some old /\ starts old /\
  c_hand s t = seqZ (default index_MIN old) (BATCH_BUMP_POP cfg) /\ c_pocket s t = None /\ head (stk (c_mem s) t Unsized) = None.

Lemma bumped_stable r : stable (bumped r).
Proof.
  intros s s' (old & -> & Hs & Hh & Hp & Hu) He. exists old.
  by rewrite (ev_hand _ _ _ _ He), (ev_pocket _ _ _ _ He), (ev_stk _ _ _ _ He).
Qed.

Lemma bump_write old v s h s' :
  CInv s -> hungry s -> starts (d_inner old) -> shared_bump (c_mem s) = old ->
  hs_mem h = put_bump (mkD (Some t) v (Some (default index_MIN (d_inner old) + BATCH_BUMP_POP cfg))) (c_mem s) ->
  annotate t (Hand (seqZ (default index_MIN (d_inner old)) (wrap 32 (BATCH_BUMP_POP cfg)))) (put_hs h s) = Some s' ->
  lands s s' (bumped (Some (d_inner old)) s').
Proof.
  rewrite batch_wrap. intros HCI [(Hh & Hp) Hu] [Hs1 Hs2] Ho Hm [= <-]. pose proof (ok_bump _ Hcfg) as Hb.
  destruct (HCI) as [g HC]. pose proof (ci_inv _ _ _ HC) as HI. set (start := default index_MIN (d_inner old)) in *.
  assert (bumpv (c_mem s) = start) as Hst by (unfold bumpv; by rewrite Ho).
  set (s' := put_hand _ _ _). assert (c_mem s' = put_bump (mkD (Some t) v (Some (start + BATCH_BUMP_POP cfg))) (c_mem s)) as Em by exact Hm.
  assert (forall t', c_hand s' t' = if decide (t' = t) then seqZ start (BATCH_BUMP_POP cfg) else c_hand s t') as Hh'.
  { intros t'. simpl. case_decide; [subst t'; by rewrite fn_lookup_insert|by rewrite fn_lookup_insert_ne]. }
  split_and!.
  - eapply (cinv_change g s _ (seqZ start (BATCH_BUMP_POP cfg))); [exact HC|..]; try done.
    + eapply inv_later; [eapply (fresh_hand (hands s) _ _ g _ (mkD (Some t) v (Some (start + BATCH_BUMP_POP cfg))) (BATCH_BUMP_POP cfg));
        [exact HI|lia|rewrite Hst; lia|by rewrite Hst|]|exact Em|simpl; lia|done].
      intros j. rewrite Hst. by apply hands_in.
    + intros i' _. by rewrite Em.
    + apply NoDup_seqZ.
    + intros t' i' Hi%elem_of_seqZ Hi'. exfalso.
      destruct (inv_hands _ _ _ _ HI i' ltac:(done) (ex_intro _ t' Hi')) as [Hd _].
      assert (1 <= i' < bumpv (c_mem s)) by (apply (inv_fresh _ _ _ _ HI); by rewrite Hd). lia.
  - split; try done; rewrite ?Em; try done; simpl; intros.
    + auto.
    + by rewrite fn_lookup_insert_ne.
  - exists (d_inner old). rewrite Hh', decide_True, Em by done. by split_and!.
Qed.

Lemma twp_bump s : CInv s -> hungry s -> twp (bump_p cfg run fuel t) (fun s r => bumped r s) s.
Proof.
  intros HC HK.
  apply (twp_update bump_cell shared_bump put_bump (bump_next cfg) _ _ hungry (fun old s => hungry s /\ starts (d_inner old))
    (fun old new s => hungry s /\ starts (d_inner old) /\ new = Some (default index_MIN (d_inner old) + BATCH_BUMP_POP cfg))); try done.
  - apply hungry_stable.
  - intros old s1 s2 [H1 H2] He. split; [by eapply hungry_stable|done].
  - intros old new s1 s2 [H1 H2] He. split; [by eapply hungry_stable|done].
  - by intros old new s1 [? _].
  - intros s1 h s2 HC1 (_ & _ & Hmax) HK1 Hm [= <-]. assert (ev t s1 (put_hs h s1)) as He by (by apply still_ev).
    split_and!; [by apply still_inv|by apply still_frame|by eapply hungry_stable in He|].
    destruct HC1 as [g HC1]. split; [apply (inv_bump _ _ _ _ (ci_inv _ _ _ HC1))|exact Hmax].
  - intros old v s1 HC1 _ [HK1 Hst]. unfold bump_next. mgo. eapply mwp_lift; [by apply starts_add|]. mgo.
    intros h Hm. assert (ev t s1 (put_hs h s1)) as He by (by apply still_ev).
    split_and!; [by apply still_inv|by apply still_frame|by eapply hungry_stable in He|done|done].
  - intros old new v s1 h s2 HC1 _ (Hu & Hst & ->) Ho Hm E. by eapply bump_write.
Qed.

(** ** From the hand to the unsized stack *)

(** A slab to carve up. *)
Definition fed s : Prop := idle s /\ head (stk (c_mem s) t Unsized) <> None.

Lemma fed_stable : stable fed.
Proof. intros s s' [Hi Hu] He. split; [by eapply idle_kept|by rewrite (ev_stk _ _ _ _ He)]. Qed.

Lemma empty_hand h s t' : c_hand (put_hand t [] (put_hs h s)) t' = if decide (t' = t) then [] else c_hand s t'.
Proof. simpl. case_decide; [subst; by rewrite fn_lookup_insert|by rewrite fn_lookup_insert_ne]. Qed.

Lemma take_slab i s h s' :
  CInv s -> holds [i] s -> hs_mem h = pushed t Unsized i (put_loc i (set_owner (Some t) (loc (c_mem s) i)) (c_mem s)) ->
  annotate t (Hand []) (put_hs h s) = Some s' -> lands s s' (fed s').
Proof.
  intros HCI (Hh & Hp & _) Hm [= <-]. destruct (HCI) as [g HC]. pose proof (ci_inv _ _ _ HC) as HI.
  set (s' := put_hand _ _ _). set (m' := pushed _ _ _ _) in Hm. assert (c_mem s' = m') as Em by exact Hm.
  assert (hands s i) as Hi by (exists t; rewrite Hh; set_solver).
  destruct (hand_un (hands s) (hands s') _ g _ t i HI Hi) as (g' & HI' & _ & Hlv).
  { intros j. rewrite (hands_out s s' [i]) by (try done; apply empty_hand). set_solver. }
  destruct (inv_hands _ _ _ _ HI i ltac:(done) Hi) as [_ Hl]. rewrite (ci_live _ _ _ HC) in Hl. split_and!.
  - eapply (cinv_change g s _ []); [exact HC|..]; try done.
    + eapply inv_later; [exact HI'|exact Em|simpl; lia|done].
    + apply empty_hand.
    + intros i' _. rewrite Em. unfold m'. mem_simp.
    + by apply NoDup_nil_2.
    + intros t' i' Hi'. by apply elem_of_nil in Hi'.
  - split; try done; rewrite ?Em; unfold m'; try done.
    + intros t' r Ht. mem_simp.
    + intros j Hj. mem_simp. exfalso. apply Hj. left. rewrite Hh. set_solver.
    + intros j Hj. mem_simp. auto.
    + intros t' Ht. simpl. by rewrite fn_lookup_insert_ne.
  - split; [split; [etrans; [apply empty_hand|by rewrite decide_True]|done]|]. rewrite Em. unfold m'. mem_simp.
Qed.

Lemma twp_take_global i s : CInv s -> popped (Some i) s ->
  twp (noted run (take_global cfg t i) (fun _ => Hand [])) (fun s _ => fed s) s.
Proof.
  intros HC [HK Hu]. apply twp_act; [done|]. intros s1 He Hok. assert (CInv s1) as HC1 by apply He.
  assert (holds [i] s1) as HK1 by (by eapply holds_stable). rewrite <- (ev_stk _ _ _ _ He) in Hu.
  pose proof (ok_release _ Hcfg) as Hval. unfold take_global. mgo. apply mwp_own; [done|]. mgo.
  destruct HC1 as [g HC1]. pose proof (inv_un _ _ _ _ (ci_inv _ _ _ HC1) t) as HU.
  pose proof (inv_length _ _ _ _ (PUn t) (ci_inv _ _ _ HC1) ltac:(done)).
  apply mwp_push; [done|mem_simp; unfold in_range; lia|]. intros h s' Hm E. eapply take_slab; [by exists g|exact HK1|exact Hm|exact E].
Qed.

Lemma twp_take_claimed c i s : CInv s -> holds [i] s ->
  twp (noted run (take_claimed cfg t c i) (fun _ => Hand [])) (fun s _ => idle s) s.
Proof.
  intros HC HK. apply twp_act; [done|]. intros s1 He Hok. assert (CInv s1) as HC1 by apply He.
  assert (holds [i] s1) as HK1 by (by eapply holds_stable).
  pose proof (ok_release _ Hcfg) as Hval. unfold take_claimed, steal. mgo.
  destruct HC1 as [g HC1]. pose proof (inv_un _ _ _ _ (ci_inv _ _ _ HC1) t) as HU.
  pose proof (inv_length _ _ _ _ (PUn t) (ci_inv _ _ _ HC1) ltac:(done)).
  apply mwp_push; [done|mem_simp; unfold in_range; lia|]. mgo. apply mwp_validate_owned; [done|]. intros h s' Hm E.
  destruct (take_slab i s1 h s' (ex_intro _ g HC1) HK1 Hm E) as (H1 & H2 & H3 & _). by split_and!.
Qed.

Lemma twp_take_fresh r s : CInv s -> bumped r s ->
  twp (noted run (take_fresh cfg t r) (fun _ => Hand [])) (fun s _ => fed s) s.
Proof.
  intros HC HK. apply twp_act; [done|]. intros s1 He Hok. assert (CInv s1) as HC1 by apply He.
  destruct (bumped_stable r s s1 HK He) as (old & -> & Hst & Hh & Hp & Hu).
  pose proof (ok_release _ Hcfg) as Hval. pose proof (ok_bump _ Hcfg) as Hb. unfold take_fresh. mgo. eapply mwp_unwrap; [done|]. mgo.
  eapply mwp_lift; [by apply starts_add|]. mgo. set (start := default index_MIN old) in *. set (b := BATCH_BUMP_POP cfg) in *.
  apply mwp_link; [done|]. intros m2 Hl Hre Hf Hbm Ho. mgo.
  replace (start + b - start) with b in Hl by lia. rewrite Z2Nat.id in Hl by lia. intros h s' Hm [= <-].
  destruct HC1 as [g HC1]. pose proof (ci_inv _ _ _ HC1) as HI.
  set (s' := put_hand _ _ _). set (m' := put_stk _ _ _ _) in Hm. assert (c_mem s' = m') as Em by exact Hm.
  assert (forall i, i ∈ seqZ start b -> hands s1 i) as Hi by (intros i Hi; exists t; by rewrite Hh).
  assert (lst g (PUn t) = []) as El by (apply (li_empty _ _ _ _ (inv_li _ _ _ _ HI)); done).
  assert (forall t' r, stk m' t' r = if decide (t' = t /\ r = Unsized) then mkLStack (Some start) b else stk (c_mem s1) t' r) as Hstk.
  { intros t' r'. unfold m'. rewrite stk_put_stk. unfold stk, own_of. by rewrite Ho. }
  split_and!.
  - eapply (cinv_change g s1 _ []); [exact HC1|..]; try done.
    + eapply inv_later; [eapply (hand_fresh (hands s1) _ _ g (c_mem s1) m' t start b); try done|exact Em|simpl; lia|done].
      * lia.
      * intros j. apply hands_out; [by exists g|done|apply empty_hand].
      * intros j. unfold rem, m'. simpl. by rewrite Hre.
    + apply empty_hand.
    + intros i _. rewrite Em. unfold m'. rewrite loc_put_stk, Hl. by case_decide.
    + by apply NoDup_nil_2.
    + intros t' i' Hi'. by apply elem_of_nil in Hi'.
  - split; try done; rewrite ?Em.
    + intros t' r Ht. rewrite Hstk, decide_False by naive_solver. done.
    + intros j Hj. unfold m'. rewrite loc_put_stk, Hl, decide_False; [done|]. intros Hr. apply Hj. left. rewrite Hh. by apply elem_of_seqZ.
    + intros j Hj. unfold m'. rewrite loc_put_stk, Hl. case_decide as Hr; [|auto]. destruct Hj.
      rewrite <- (ci_live _ _ _ HC1). apply (inv_hands _ _ _ _ HI); [done|]. apply Hi. by apply elem_of_seqZ.
    + intros t' Ht. simpl. by rewrite fn_lookup_insert_ne.
    + by intros _.
  - split; [split; [etrans; [apply empty_hand|by rewrite decide_True]|done]|]. by rewrite Em, Hstk, decide_True.
Qed.

(** ** [Owned::unsized_to_sized] *)

(** An access of the thread to its own structures, without a note. *)
Lemma private_lands g g' own s h (Q : Prop) :
  CInvG base g s -> Inv (HN := hands s) (c_n s + 1) g' (hs_mem h) -> keeps g (c_mem s) g' (hs_mem h) ->
  private t own (c_mem s) (hs_mem h) -> (forall j, own j -> mine t s j) ->
  (forall j, c_live s j <> ∅ -> owner (loc (hs_mem h) j) = owner (loc (c_mem s) j) \/ owner (loc (hs_mem h) j) = None) -> Q -> lands s (put_hs h s) Q.
Proof.
  intros HC HI Hk [Hpk Hpl Hpf] Hown Ho HQ. split_and!; [|split|done]; unfold c_mem in *; simpl; try done.
  - eapply (cinv_change g s _ (c_hand s t)); [exact HC|..]; try done.
    + eapply inv_later; [exact HI|done|simpl; lia|]. intros i. apply Hk.
    + intros t'. simpl. by case_decide; subst.
    + intros i Hi. apply Hk. by rewrite (ci_live _ _ _ HC).
    + apply HC.
    + intros t' i' Hi Hi'. by eapply ci_hands.
  - intros i Hi. apply Hpl. naive_solver.
  - intros i Hi. split; [apply Hk; by rewrite (ci_live _ _ _ HC)|by apply Ho].
Qed.

Definition sized c s : Prop := exists i, head (stk (c_mem s) t (Sized c)) = Some i.

Lemma sized_stable c : stable (sized c).
Proof. intros s s' [i Hi] He. exists i. by rewrite (ev_stk _ _ _ _ He). Qed.

Lemma twp_uts c s : CInv s -> idle s -> class_wf c ->
  twp (quiet run (unsized_to_sized cfg t c)) (fun s' b => idle s' /\ if b then sized c s' else hungry s' /\ ~ fed s) s.
Proof.
  intros HC HK Hc. apply twp_act; [done|]. intros s1 He (_ & Hn & _). assert (CInv s1) as [g HC1] by apply He.
  pose proof (ci_inv _ _ _ HC1) as HI. pose proof (inv_li _ _ _ _ HI) as HL.
  assert (idle s1) as HK1 by (by eapply idle_kept).
  assert (fed s -> fed s1) as Hfed by (intros Hf; by eapply fed_stable).
  eapply mwp_conseq; [by eapply (uts_run (HN := hands s1) cfg Hcfg (c_n s1) g)|]. intros m' b Hb h s' Hm [= <-].
  pose proof (li_chain _ _ _ HL (PUn t) ltac:(done)) as Hch. cbn [hd_of] in Hch.
  destruct (lst g (PUn t)) as [|i l] eqn:El.
  - destruct Hb as [-> ->]. split; [by apply still_inv; [exists g|]|]. split; [by apply still_frame|].
    assert (hungry (put_hs h s1)) as Hu by (split; [done|unfold c_mem in *; simpl; by rewrite Hm]).
    split_and!; [done|done|]. intros Hf. by destruct (Hfed Hf) as [_ []].
  - destruct Hb as (-> & Hh & _ & Hpv & g' & HI' & Hk). subst m'.
    assert (pl g i = Some (PUn t)) as Hpl by (apply (li_mem _ _ _ HL); [done|rewrite El; set_solver]).
    pose proof (inv_slab _ _ _ _ HI i ltac:(done)) as Hs. rewrite Hpl in Hs.
    eapply (private_lands g g' (fun j => j = i)); try done.
    + intros j ->. eapply (mine_linked _ g s1 t Unsized); [exact HC1|]. simpl. rewrite El. set_solver.
    + intros j Hj. left. f_equal. apply (pv_loc _ _ _ _ Hpv). intros ->. rewrite <- (ci_live _ _ _ HC1) in Hj. by destruct Hs.
    + split; [done|]. by exists i.
Qed.

(** ** [Heap::allocate] *)
Lemma twp_sized_top c s : CInv s -> idle s -> sized c s -> class_wf c ->
  twp (quiet run (sized_top cfg t c)) (fun s' r => idle s' /\ exists i, r = Some i /\ head (stk (c_mem s') t (Sized c)) = Some i) s.
Proof.
  intros HC HK HS Hc. pose proof (ok_release _ Hcfg) as Hval. pose proof (sref_ok_class c Hc) as Hr.
  apply twp_read; [done|]. intros s1 He _. unfold sized_top. mgo. apply mwp_validate_owned; [done|]. mgo. split; [done|].
  intros s' He' Hm. split; [by eapply idle_kept|]. destruct (sized_stable c s s1 HS He) as [i Hi]. exists i. by rewrite Hm.
Qed.

Lemma twp_allocate c s : CInv s -> idle s -> class_wf c ->
  twp (allocate_p cfg run fuel t c) (fun s' r => idle s' /\ exists i, r = Some i /\ head (stk (c_mem s') t (Sized c)) = Some i) s.
Proof.
  intros HC HK Hc. unfold allocate_p. rewrite (proj2 Hc). apply twp_bind. eapply twp_conseq; [by apply twp_uts|].
  intros s1 b HC1 [HK1 Hb]. destruct b; [by apply twp_sized_top|]. destruct Hb as [Hu _].
  apply twp_bind. eapply twp_conseq; [by apply twp_shared_pop|]. intros s2 r HC2 Hr.
  apply twp_bind. eapply (twp_conseq _ _ _ _ (fun s _ => fed s)).
  { destruct r as [i|]; [by apply twp_take_global|]. apply twp_bind. eapply twp_conseq; [by apply twp_bump; [|destruct Hr]|].
    intros s3 r3 HC3 Hr3. by apply twp_take_fresh. }
  intros s3 _ HC3 Hf. apply twp_bind. eapply twp_conseq; [apply twp_uts; [done|apply Hf|done]|].
  intros s4 b HC4 [HK4 Hb]. destruct b; [by apply twp_sized_top|]. by destruct Hb as [_ []].
Qed.
End access.
