(* ===== verification/HeapClients.v ===== *)
(** * HeapClients: allocating and freeing threads

    The operations [alloc_p] and [free_ptr_p] of [HeapConc] for a thread among
    others, and the clients that call them in any order. Whatever the
    interleaving of their accesses, no access panics or has undefined behaviour,
    and the blocks that the application holds never overlap
    ([clients_are_safe]). *)

From Stdlib Require Import ZArith Lia.
From stdpp Require Import base numbers option gmap functions relations sets list.
From S2P Require Import Prelude Bitset Size Data Cas Slab Heap HeapLists HeapRules HeapInv HeapSafe HeapFree HeapSys HeapHand CrashLogic HeapConc HeapThreads HeapAccess.
Local Open Scope Z_scope.
Local Open Scope crash_scope.

(** ** Runs of the accesses in between *)
Section runs.
Context (cfg : Cfg) `{BL : BracketLaws} `{IS : IntoState} {HN : Hands} (Hcfg : cfg_ok cfg).

(** [Heap::pop] up to [Heap::detach]. *)
Lemma take_block_run n g m t c i blk :
  Inv n g m -> class_wf c -> n < 2 ^ 64 -> hd_of m (PSz t c) = Some i -> peek_unchecked (free (loc m i)) = Done blk ->
  let b := bit_to_u64 blk in
  mwp (take_block cfg t c i blk) (fun m' e =>
    exists g', Inv n g' m' /\ takes g m i b g' m' /\ private t (fun j => j = i) m m' /\ b ∉ live g i /\
      class (loc m' i) = c /\ owner (loc m i) = Some t /\ owner (loc m' i) = Some t /\ 0 <= row blk /\ 0 <= col blk < 64 /\
      match e with None => True | Some i' => i' = i /\ abs (free (loc m' i)) = ∅ end) m.
Proof.
  intros HI Hc Hn Hh Hpk. cbv zeta. set (b := bit_to_u64 blk).
  destruct (top_slab cfg Hcfg n g m t c i HI Hh) as (l & El & Hpl & Hi & Ho & Hcl & Hsp & Hne).
  destruct (peek_unset_abs (validating cfg) (debug_assertions cfg) _ (sp_wf _ _ _ _ _ Hsp) Hne)
    as (blk' & bits & Hpk' & [Hrow Hcol] & Hb & _ & Hu & Hwf & Hlen & Habs & Hcnt).
  rewrite Hpk in Hpk'. injection Hpk' as <-. fold b in Hb, Habs.
  assert (b ∉ live g i) as Hnl by (pose proof (sp_fl _ _ _ _ _ Hsp); set_solver).
  rewrite (inv_dense _ _ _ _ HI) in Hlen, Hrow.
  unfold take_block. mgo. eapply mwp_lift; [exact Hu|]. mgo. unfold is_empty, Bitset.len.
  assert (forall g', (forall j, live g' j = live (g_set i ({[b]} ∪ live g i) (rf g i) g) j) -> forall m',
    (forall j, loc m' j = if decide (j = i) then set_bits bits (loc m i) else loc m j) -> takes g m i b g' m') as Htakes.
  { intros g' Hg' m' Hm' j. rewrite Hg', g_set_live. split; [done|]. intros _. rewrite Hm'. by case_decide; subst. }
  destruct (Z.eqb_spec (count bits) 0) as [E0|E0].
  - assert (abs bits = ∅) as He by (apply size_zero; rewrite (count_size bits) in E0 by done; lia).
    pose proof (inv_sz _ _ _ _ HI t c) as HZ. rewrite El in HZ. simpl in HZ. pose proof (sref_ok_class c Hc) as Hr. mgo.
    apply (mwp_pop _ _ _ i); [done|simpl; mem_simp|mem_simp; unfold in_range; lia|]. mgo. eapply mwp_unwrap; [done|]. mgo.
    eexists. split_and!.
    + eapply inv_meq; [eapply (pop_detach_inv cfg Hcfg n g m t c i l b (set_bits bits (loc m i)) bits); done|]. meq_solve.
    + apply Htakes; [done|]. intros j. mem_simp.
    + split; [intros t' r Ht|intros j Hj|done]; mem_simp.
    + done.
    + mem_simp.
    + done.
    + mem_simp.
    + lia.
    + lia.
    + lia.
    + done.
    + mem_simp.
  - mgo. eexists. split_and!.
    + eapply (pop_inv cfg Hcfg n g m t c i b bits); try done.
      intros He. apply E0. rewrite (count_size bits), He, size_empty by done. done.
    + apply Htakes; [done|]. intros j. mem_simp.
    + split; [intros t' r Ht|intros j Hj|done]; mem_simp.
    + done.
    + mem_simp.
    + done.
    + mem_simp.
    + lia.
    + lia.
    + lia.
    + done.
Qed.

(** [Local::disown] of a slab that is detached and has live blocks. *)
Lemma disown_inv n g m i b :
  Inv n g m -> b ∈ live g i -> abs (free (loc m i)) = ∅ ->
  Inv n (g_set i (live g i) (rf g i) g) (put_loc i (set_owner None (loc m i)) m).
Proof.
  intros HI Hb He. destruct (live_place _ _ _ _ _ HI Hb) as [Hsp [(t & _ & _ & Hne)|[Hd _]]]; [done|].
  eapply inv_close; [apply inv_edit; [by apply inv_open|done|apply (inv_dense _ _ _ _ HI)]|apply (inv_no_hand _ _ _ _ i HI); [done|right; set_solver]|].
  simpl. rewrite !fn_lookup_insert, Hd. mem_simp. right. split_and!; [done|done|set_solver].
Qed.

(** [Heap::free] of a block of the thread's own slab. *)
Lemma put_block_run n g m t i b :
  Inv n g m -> b ∈ live g i -> owner (loc m i) = Some t -> n + 1 < 2 ^ 64 ->
  mwp (put_block cfg t (block_offset (class (loc m i)) i b) i) (fun m' _ =>
    exists g', Inv (n + 1) g' m' /\ gives g m i b g' m' /\
      private t (fun j => j = i \/ exists r, j ∈ lst g (place_of t r)) m m' /\
      (forall j, owner (loc m' j) = owner (loc m j)) /\ forall j, class (loc m' j) = class (loc m j)) m.
Proof.
  intros HI Hb Hown Hn. set (c := class (loc m i)). pose proof (ok_release _ Hcfg) as Hval.
  assert (~ in_hands i) as Hnh by (apply (inv_no_hand _ _ _ _ i HI); [done|right; set_solver]).
  destruct (live_place _ _ _ _ _ HI Hb) as [Hsp Hplace].
  pose proof (sp_block _ _ _ _ _ b Hsp ltac:(by left)) as Hbw. fold c in Hbw, Hsp, Hplace.
  pose proof (sp_class _ _ _ _ _ Hsp) as Hc. pose proof (live_index _ _ _ _ _ HI Hb) as Hi.
  unfold put_block, put_local. fold c. mgo. fold c. eapply mwp_lift; [by apply into_block_done|]. mgo.
  pose proof (block_small c b Hbw) as Hbs. pose proof (blocks_pos c Hc) as Hbl.
  assert (bit_wf (free (loc m i)) (mkBit (b / 64) (b mod 64))) as Hbit.
  { destruct Hbw as [_ Hbw]. unfold bit_wf. rewrite (inv_dense _ _ _ _ HI). simpl.
    pose proof (Z.div_pos b 64). pose proof (Z.mod_pos_bound b 64).
    assert (b / 64 < Z.of_nat ROWS) by (apply Z.div_lt_upper_bound; lia). lia. }
  destruct (set_abs (validating cfg) (debug_assertions cfg) (free (loc m i))
    (mkBit (b / 64) (b mod 64)) (sp_wf _ _ _ _ _ Hsp) Hbit) as (bits & Hset & Hwf & Hlen & Habs & _).
  { rewrite bit_of_block by lia. pose proof (sp_fl _ _ _ _ _ Hsp). set_solver. }
  rewrite bit_of_block in Habs by lia. rewrite (inv_dense _ _ _ _ HI) in Hlen.
  eapply mwp_lift; [exact Hset|]. mgo.
  destruct (free_local_inv n g m t i b bits HI Hb Hown Hwf Hlen Habs)
    as (g1 & HI1 & Hpl1 & Hg1 & Hl1 & Hsp1 & Ho1 & Hc1 & Hf1 & Hne1 & Hsub1). fold c in HI1, Hpl1, Hg1, Hsp1, Ho1, Hc1, Hf1, Hsub1.
  set (m2 := if Bitset.len bits =? 1 then _ else _) in *.
  eapply (mwp_conseq _ (fun m' _ => m' = m2)).
  { pose proof (sref_ok_class c Hc) as Hr. pose proof (inv_sz _ _ _ _ HI t c) as HZ. unfold m2.
    destruct (Bitset.len bits =? 1); [|by mgo]. unfold attach. mgo.
    apply mwp_push; [done|mem_simp; unfold in_range; lia|done]. }
  intros m3 [] E3. rewrite E3. clear m3 E3. mgo. eapply mwp_lift; [by apply class_count_done|].
  assert (private t (fun j => j = i) m m2) as Hpv2.
  { unfold m2. destruct (_ =? _); (split; [intros t' r Ht|intros j Hj|done]); mem_simp. }
  assert (forall j, owner (loc m2 j) = owner (loc m j) /\ class (loc m2 j) = class (loc m j)) as Hoc.
  { intros j. unfold m2. destruct (_ =? _); mem_simp. }
  destruct (Z.ltb_spec (Bitset.len bits) (blocks c)) as [Hlt|Hge].
  - mgo. exists g1. split_and!; [|done| |intros j; apply Hoc..].
    + eapply inv_close; [exact HI1|done|]. rewrite Hpl1. simpl. rewrite Hf1. done.
    + destruct Hpv2 as [P1 P2 P3]. split; [done| |done]. intros j Hj. apply P2. naive_solver.
  - destruct (sp_size _ _ _ _ _ Hsp1) as [Hsz Hcnt]. unfold Bitset.len in Hge.
    assert (live g1 i = ∅) as Hl0 by (apply size_zero; lia). mgo.
    eapply mwp_conseq; [exact (stu_run cfg Hcfg (n + 1) g1 m2 t c i HI1 Hpl1 Hc Hn)|].
    intros m1 [] (g' & HI' & Hpl' & El & Er & Hloc & Hrem & Hb' & Hpv). mgo. apply mwp_validate_owned; [done|]. mgo.
    assert (forall j, owner (loc m1 j) = owner (loc m j) /\ class (loc m1 j) = class (loc m j)) as Hoc1.
    { intros j. destruct (Hloc j) as [nx ->]. apply Hoc. }
    exists g'. split_and!; [| | |intros j; apply Hoc1..].
    + eapply inv_close; [exact HI'|done|]. rewrite Hpl', El. split; [done|]. by rewrite (proj1 (Hoc1 i)).
    + intros j. rewrite El. split; [apply Hg1|]. intros _. apply Hoc1.
    + destruct Hpv2 as [P1 P2 P3], Hpv as [P4 P5 P6]. split; [|intros j Hj|congruence].
      * intros t' r Ht. rewrite P4, P1 by done. done.
      * rewrite P5, P2; [done|naive_solver|]. intros [->|Hj']; [naive_solver|]. destruct (Hsub1 j Hj') as [->|]; [naive_solver|].
        apply Hj. right. by exists (Sized c).
Qed.

(** [Heap::unsized_to_global] up to the push. *)
Lemma take_batch_run n g m t :
  Inv n g m ->
  mwp (take_batch cfg t) (fun m' r =>
    match r with
    | None => m' = m
    | Some l => exists i l1 l2, l = i :: l1 /\ lst g (PUn t) = l ++ l2 /\
        m' = put_stk t Unsized (mkLStack (next (loc m (List.last l i))) (len (stk m t Unsized) - Z.of_nat (length l))) m
    end) m.
Proof.
  intros HI. pose proof (ok_release _ Hcfg) as Hval. pose proof (ok_push _ Hcfg) as Hp.
  pose proof (ok_cache _ Hcfg) as Hca. pose proof (inv_un _ _ _ _ HI t) as HU.
  pose proof (inv_length _ _ _ _ (PUn t) HI ltac:(done)) as Hlen.
  pose proof (li_chain _ _ _ (inv_li _ _ _ _ HI) (PUn t) ltac:(done)) as Hch.
  cbn [hd_of] in Hch. unfold take_batch. mgo.
  destruct (Z.leb_spec (len (stk m t Unsized)) (COUNT_CACHE_SLAB cfg)) as [Hle|Hgt]; [by mgo|].
  mgo. rewrite Hval. cbn [when_]. mgo.
  rewrite (trace_take_prefix m _ _ (Z.to_nat (BATCH_GLOBAL_PUSH cfg)) Hch).
  set (k := Z.to_nat (BATCH_GLOBAL_PUSH cfg)).
  destruct (take k (lst g (PUn t))) as [|i l1] eqn:Et.
  { exfalso. assert (length (take k (lst g (PUn t))) = 0)%nat as E0 by (by rewrite Et).
    rewrite length_take in E0. lia. }
  assert (Z.of_nat (length (i :: l1)) = BATCH_GLOBAL_PUSH cfg) as Ek.
  { rewrite <- Et, length_take. lia. }
  eapply mwp_unwrap; [done|]. mgo. apply mwp_usize; [unfold in_range; lia|]. mgo.
  exists i, l1, (drop k (lst g (PUn t))). split_and!; [done|by rewrite <- Et, take_drop|]. by rewrite Ek.
Qed.

(** The compare-exchange of [Heap::free_remote]: the last block's free takes the
    slab into the hand. *)
Lemma remote_inv (H H' : Hands) n g m i b d :
  Inv (HN := H) n g m -> b ∈ live g i -> d_inner d = d_inner (rem m i) - 1 ->
  (forall j, H' j <-> H j \/ (d_inner (rem m i) = 1 /\ j = i)) ->
  exists g', Inv (HN := H') n g' (put_rem i d m) /\ gives g m i b g' (put_rem i d m).
Proof.
  intros HI Hb Hd HH'. destruct (live_place _ _ _ _ _ HI Hb) as [Hsp Hpl].
  destruct (sp_size _ _ _ _ _ Hsp) as [Hsz _]. pose proof (sp_rem _ _ _ _ _ Hsp) as Hrem.
  pose proof (size_pos _ b Hb) as Hb1. pose proof (size_remove _ b Hb) as Hb2.
  assert (~ H i) as Hnh by (apply (inv_no_hand _ _ _ _ i HI); [done|right; set_solver]).
  assert (forall lv rfi, lv = live g i ∖ {[b]} -> gives g m i b (g_set i lv rfi g) (put_rem i d m)) as Hg.
  { intros lv rfi ->. intros j. rewrite g_set_live. done. }
  assert (forall lv rfi, InvX (HN := H') (Some i) n (g_set i lv rfi g) (put_rem i d m)) as H1.
  { intros lv rfi. eapply (inv_rehand H); [apply (inv_edit_rem (HN := H)), inv_open; exact HI|]. intros j Hj. rewrite HH'. naive_solver. }
  destruct (decide (d_inner (rem m i) = 1)) as [E1|E1].
  - assert (live g i ∖ {[b]} = ∅) as Hl0 by (apply size_zero; lia).
    assert (pl g i = Some PDet) as Hdet.
    { destruct Hpl as [(t & _ & _ & Hne)|[? _]]; [|done]. destruct Hne. apply size_zero. lia. }
    eexists. split; [eapply (inv_close_hand H'); [apply (H1 ∅ ∅)|apply HH'; naive_solver|done|simpl; by rewrite fn_lookup_insert]|]. by apply Hg.
  - eexists. split; [eapply (inv_close (HN := H')); [apply (H1 (live g i ∖ {[b]}) ({[b]} ∪ rf g i))|rewrite HH'; naive_solver|]|by apply Hg].
    simpl. rewrite !fn_lookup_insert. pose proof (remote_part _ _ _ _ _ b Hsp Hb) as Hsp'. mem_simp. rewrite Hd.
    destruct Hpl as [(t & -> & Ho & Hne)|[-> He]]; simpl; [done|]. right. split_and!; [done|done|].
    intros E0. rewrite E0, He, size_empty in *. lia.
Qed.

(** The counter is positive while a block is live. *)
Lemma remote_bound n g m i b : Inv n g m -> b ∈ live g i -> 1 <= d_inner (rem m i) <= 4096.
Proof.
  intros HI Hb. destruct (live_place _ _ _ _ _ HI Hb) as [Hsp _].
  destruct (sp_size _ _ _ _ _ Hsp) as [Hsz _]. pose proof (sp_rem _ _ _ _ _ Hsp) as Hrem.
  pose proof (size_pos _ b Hb) as Hb1. pose proof (blocks_pos _ (sp_class _ _ _ _ _ Hsp)). pose proof rows_bound. lia.
Qed.
End runs.

(** ** The operations among others *)
Section ops.
Context (cfg : Cfg) `{BL : BracketLaws} `{IS : IntoState} (Hcfg : cfg_ok cfg) (base t : Z) (fuel : nat).
Context (Hbase : 0 <= base).
Implicit Types s : CS.

Abbreviation CInv := (CInv base).
Abbreviation ev := (ev base).
Abbreviation twp := (twp cfg base t).
Abbreviation run := (crun t).
Abbreviation twp_read := (HeapThreads.twp_read cfg base t).
Abbreviation twp_act := (HeapThreads.twp_act cfg base t).
Abbreviation lands := (lands base t).
Abbreviation stable := (stable base t).
Abbreviation idle := (idle t).

(** A block in the pocket. *)
Definition pocketed (c i b : Z) s : Prop := c_hand s t = [] /\ c_pocket s t = Some (i, b) /\ class (loc (c_mem s) i) = c.

Lemma pocketed_stable c i b : stable (pocketed c i b).
Proof.
  intros s s' (Hh & Hp & Hc) He. split_and!; [by rewrite (ev_hand _ _ _ _ He)|by rewrite (ev_pocket _ _ _ _ He)|].
  by rewrite (proj1 (ev_block _ _ _ _ He i b Hp)).
Qed.

(** The block in the pocket is one of its slab's. *)
Lemma pocket_wf c i b s : CInv s -> pocketed c i b s -> index_wf i /\ block_wf c b.
Proof.
  intros [g HC] (_ & Hp & <-). pose proof (ci_inv _ _ _ HC) as HI.
  assert (b ∈ live g i) as Hb by (rewrite (ci_live _ _ _ HC); by eapply ci_pocket).
  split; [exact (live_index _ _ _ _ _ HI Hb)|]. destruct (live_place _ _ _ _ _ HI Hb) as [Hsp _]. eapply sp_block; [exact Hsp|by left].
Qed.

(** ** Taking a block *)
Definition peeked (c i : Z) (blk : Bit) s : Prop :=
  idle s /\ mine t s i /\ head (stk (c_mem s) t (Sized c)) = Some i /\ peek_unchecked (free (loc (c_mem s) i)) = Done blk.

Lemma peeked_stable c i blk : stable (peeked c i blk).
Proof.
  intros s s' (H1 & H2 & H3 & H4) He. split_and!; [by eapply idle_kept|by eapply ev_mine|by rewrite (ev_stk _ _ _ _ He)|].
  by rewrite (ev_loc _ _ _ _ He).
Qed.

Lemma cinv_take g g' s h i b :
  CInvG base g s -> c_pocket s t = None -> b ∉ c_live s i -> Inv (HN := hands s) (c_n s) g' (hs_mem h) ->
  takes g (c_mem s) i b g' (hs_mem h) -> CInv (put_pocket t (Some (i, b)) (put_live i ({[b]} ∪ c_live s i) (put_hs h s))).
Proof.
  intros HC Hp Hb HI Ht. set (s' := put_pocket _ _ _).
  assert (forall j, c_live s' j = if decide (j = i) then {[b]} ∪ c_live s i else c_live s j) as Hlive.
  { intros j. simpl. case_decide; [subst; by rewrite fn_lookup_insert|by rewrite fn_lookup_insert_ne]. }
  assert (forall t', c_pocket s' t' = if decide (t' = t) then Some (i, b) else c_pocket s t') as Hpocket.
  { intros j. simpl. case_decide; [subst; by rewrite fn_lookup_insert|by rewrite fn_lookup_insert_ne]. }
  assert (forall j, c_live s j ⊆ c_live s' j) as Hsub by (intros j; rewrite Hlive; case_decide; [subst|]; set_solver).
  assert (forall t', c_pocket s t' <> Some (i, b)) as Hnp by (intros t' E; apply (ci_pocket _ _ _ HC) in E; done).
  exists g'. split; try apply HC.
  - eapply inv_mono; [exact HI|simpl; lia].
  - intros j. rewrite Hlive, (proj1 (Ht j)). by case_decide; rewrite !(ci_live _ _ _ HC).
  - intros t' i' b' E. rewrite Hpocket in E. case_decide; [|apply Hsub; by eapply ci_pocket].
    injection E as <- <-. rewrite Hlive, decide_True by done. set_solver.
  - intros t1 t2 x. rewrite !Hpocket. pose proof (ci_pockets _ _ _ HC t1 t2 x). repeat case_decide; subst; naive_solver.
  - intros p c i' b' E. destruct (ci_app _ _ _ HC p c i' b' E) as (H1 & H2 & H3 & H4). split_and!; [done| |by apply Hsub|].
    + rewrite <- H2. apply (proj2 (Ht i')). rewrite (ci_live _ _ _ HC). set_solver.
    + intros t'. rewrite Hpocket. case_decide; [|done]. intros [= -> ->]. done.
  - intros i' b' Hb'. destruct (decide ((i', b') = (i, b))) as [[= -> ->]|Hne]; [left; exists t; by rewrite Hpocket, decide_True|].
    destruct (ci_held _ _ _ HC i' b') as [[t' E]|H]; [|left; exists t'; rewrite Hpocket; case_decide; [by subst; rewrite Hp in E|done]|by right].
    rewrite Hlive in Hb'. case_decide; [subst; set_solver|done].
Qed.

(** What [take_block] leaves: the slab to detach is the one of the block. *)
Definition taken (c i b : Z) (e : option Z) s : Prop := pocketed c i b s /\
  match e with None => True | Some j => j = i /\ owner (loc (c_mem s) i) = Some t /\ abs (free (loc (c_mem s) i)) = ∅ end.

Lemma taken_stable c i b e : stable (taken c i b e).
Proof.
  intros s s' [Hp He] Hev. split; [by eapply pocketed_stable|]. destruct e as [j|]; [|done]. destruct He as (-> & Ho & Hf).
  rewrite (ev_loc _ _ _ _ Hev); [done|]. right; right. exists b. split; [apply Hp|done].
Qed.

Lemma twp_take_block c i blk s : CInv s -> peeked c i blk s -> class_wf c ->
  twp (noted run (take_block cfg t c i blk) (fun _ => Take i (bit_to_u64 blk)))
    (fun s e => taken c i (bit_to_u64 blk) e s /\ 0 <= row blk /\ 0 <= col blk < 64) s.
Proof.
  intros HC HK Hc. apply twp_act; [done|]. intros s1 He (_ & Hn & _). assert (CInv s1) as [g HC1] by apply He.
  pose proof (ci_inv _ _ _ HC1) as HI. destruct (peeked_stable c i blk s s1 HK He) as ([Hh Hp] & Hm & Hhd & Hpk).
  eapply mwp_conseq; [eapply (take_block_run (HN := hands s1) cfg Hcfg (c_n s1) g _ t c i blk HI Hc); [lia|done|done]|].
  intros m' e (g' & HI' & Ht & [P1 P2 P3] & Hnl & Hcl & Ho & Ho' & Hr & Hcol & Hee) h s' Hmh [= <-]. subst m'.
  set (s' := put_pocket _ _ _). assert (c_mem s' = hs_mem h) as Em by done.
  split_and!; try done.
  - apply (cinv_take g g' s1 h i); try done. by rewrite <- (ci_live _ _ _ HC1).
  - split; rewrite ?Em; try done.
    + intros j Hj. apply P2. by intros ->.
    + intros j Hj. rewrite <- (ci_live _ _ _ HC1) in Hj. split; [by apply Ht|left].
      destruct (decide (j = i)) as [->|Hji]; [congruence|by rewrite P2].
    + intros t' Ht'. simpl. by rewrite fn_lookup_insert_ne.
  - split; [split_and!; [done|simpl; by rewrite fn_lookup_insert|by rewrite Em]|]. destruct e as [j|]; [|done].
    rewrite Em. naive_solver.
  - lia.
  - lia.
Qed.

(** ** [Heap::detach] *)
Lemma twp_detach c i b j s : CInv s -> taken c i b (Some j) s -> class_wf c ->
  twp (detach_p cfg run t c j) (fun s _ => pocketed c i b s) s.
Proof.
  intros HC HK Hc. pose proof (ok_release _ Hcfg) as Hval. assert (j = i) as -> by apply HK.
  unfold detach_p. apply twp_bind, twp_read; [done|]. intros s1 He1 _. mgo.
  apply (mwp_load _ _ _ (fun m => rem m i)); [done|]. split; [done|]. intros s2 He2 _.
  assert (CInv s2) as HC2 by apply He2. assert (taken c i b (Some i) s2) as HK2 by (by eapply taken_stable).
  apply twp_act; [done|]. intros s3 He3 _. assert (CInv s3) as [g HC3] by apply He3.
  destruct (taken_stable _ _ _ _ s2 s3 HK2 He3) as [HP (_ & Ho & Hf)].
  unfold disown_if. mgo. eapply mwp_lift; [by apply class_count_done|]. destruct (_ <? _); mgo.
  - apply mwp_disown; [done|]. intros h s' Hm [= <-]. pose proof (ci_inv _ _ _ HC3) as HI. destruct (HP) as (Hh & Hp & Hcl).
    assert (b ∈ live g i) as Hb by (rewrite (ci_live _ _ _ HC3); by eapply ci_pocket).
    eapply (private_lands cfg Hcfg base t g _ (fun j => j = i)); rewrite ?Hm.
    + exact HC3.
    + eapply inv_mono; [exact (disown_inv cfg Hcfg _ _ _ _ _ HI Hb Hf)|lia].
    + intros k. rewrite g_set_live. split; [by case_decide; subst|]. intros _. mem_simp.
    + split; [done|intros k Hk; mem_simp|done].
    + intros k ->. right; right. by exists b.
    + intros k _. mem_simp; auto.
    + split_and!; [done|done|]. unfold c_mem in *. simpl. rewrite Hm. mem_simp.
  - intros h s' Hm [= <-]. split_and!; [by apply still_inv; [exists g|]|by apply still_frame|].
    eapply pocketed_stable; [exact HP|]. apply still_ev; [by exists g|done].
Qed.

(** ** Returning a block *)

(** Blocks at the same address are the same. *)
Lemma return_fresh c i b c' i' b' s : CInv s -> pocketed c i b s -> c_app s !! ptr base c i b = Some (c', i', b') ->
  ptr base c i b = ptr base c' i' b' -> c' = c /\ i' = i /\ b' = b.
Proof.
  intros HCI HK Ha E. destruct (pocket_wf c i b s HCI HK) as [_ W]. destruct HCI as [g HC]. destruct HK as (_ & Hp & Hcl).
  destruct (ci_app _ _ _ HC _ _ _ _ Ha) as (_ & Hcl' & Hb' & _). rewrite <- (ci_live _ _ _ HC) in Hb'.
  destruct (live_place _ _ _ _ _ (ci_inv _ _ _ HC) Hb') as [Hsp _]. pose proof (sp_block _ _ _ _ _ b' Hsp ltac:(by left)) as W'. rewrite Hcl' in W'.
  unfold ptr, offset_to_pointer in E. assert (block_offset c i b = block_offset c' i' b') as Eo by lia.
  destruct (offset_divmod c i b W) as [E1 E2], (offset_divmod c' i' b' W') as [E3 E4]. rewrite Eo in E1, E2.
  assert (i' = i) as -> by congruence. assert (c' = c) as -> by congruence. split_and!; try done.
  pose proof (class_size_pos c (proj1 W)). nia.
Qed.

Lemma twp_return c i blk s : CInv s -> pocketed c i (bit_to_u64 blk) s -> 0 <= row blk -> 0 <= col blk < 64 ->
  twp (noted run (bind (lift (from_block (debug_assertions cfg) c i blk)) (fun o => ret (offset_to_pointer base o))) (fun p => Return p c))
    (fun s _ => idle s) s.
Proof.
  intros HC HK Hr Hcol. apply twp_act; [done|]. intros s1 He _. assert (CInv s1) as HCI by apply He.
  assert (pocketed c i (bit_to_u64 blk) s1) as HK1 by (by eapply pocketed_stable).
  destruct (pocket_wf _ _ _ _ HCI HK1) as [Hi Hb]. destruct HK1 as (Hh & Hp & Hcl). mgo.
  eapply mwp_lift; [by apply from_block_done|]. mgo. intros h s' Hm E. cbn [annotate] in E.
  change (c_pocket (put_hs h s1) t) with (c_pocket s1 t) in E. rewrite Hp in E. injection E as <-.
  destruct (still_inv base h s1 HCI Hm) as [g [C1 C2 C3 C4 C5 C6 C7 C8]]. set (b := bit_to_u64 blk) in *.
  set (s' := put_pocket _ _ _). set (p := offset_to_pointer base (block_offset c i b)).
  assert (forall t', c_pocket s' t' = if decide (t' = t) then None else c_pocket s1 t') as Hpocket.
  { intros t'. simpl. case_decide; [subst; by rewrite fn_lookup_insert|by rewrite fn_lookup_insert_ne]. }
  assert (forall p' c' i' b', c_app s' !! p' = Some (c', i', b') -> p' = p /\ c' = c /\ i' = i /\ b' = b \/ c_app s1 !! p' = Some (c', i', b')) as Happ.
  { intros p' c' i' b'. simpl. rewrite lookup_insert_Some. naive_solver. }
  split_and!.
  - exists g. split; try done.
    + intros t' i' b'. rewrite Hpocket. case_decide; [done|]. apply C5.
    + intros t1 t2 x. rewrite !Hpocket. repeat case_decide; try done. apply C6.
    + intros p' c' i' b' [(-> & -> & -> & ->)|E]%Happ.
      * split_and!; [done|unfold c_mem in *; simpl; by rewrite Hm|by eapply C5|].
        intros t'. rewrite Hpocket. case_decide as Ht; [done|]. intros E. apply Ht. by eapply C6.
      * destruct (C7 _ _ _ _ E) as (H1 & H2 & H3 & H4). split_and!; try done. intros t'. rewrite Hpocket. case_decide; [done|apply H4].
    + intros i' b' Hb'. destruct (C8 i' b' Hb') as [[t' E]|(p' & c' & E)].
      * destruct (decide (t' = t)) as [->|Ht]; [|left; exists t'; by rewrite Hpocket, decide_False].
        right. exists p, c. simpl. rewrite lookup_insert_eq. simpl in E. rewrite Hp in E. by injection E as <- <-.
      * right. exists p', c'. simpl. destruct (decide (p' = p)) as [->|Hpp]; [|by rewrite lookup_insert_ne].
        destruct (C7 _ _ _ _ E) as (H1 & H2 & H3 & H4). destruct (return_fresh c i b c' i' b' s1 HCI) as (-> & -> & ->); [by split_and!|exact E|done|].
        by rewrite lookup_insert_eq.
  - destruct (still_frame t h s1 Hm) as [F1 F2 F3 F4 F5 F6 F7 F8]. split; try done. intros t' Ht. rewrite Hpocket. by case_decide.
  - split; [done|]. by rewrite Hpocket, decide_True.
Qed.

(** ** Allocation *)
Lemma twp_alloc c s : CInv s -> idle s -> class_wf c -> twp (alloc_p cfg run fuel base t c) (fun s _ => idle s) s.
Proof.
  intros HC HK Hc. pose proof (sref_ok_class c Hc) as Hr. unfold alloc_p. apply twp_bind, twp_read; [done|].
  intros s1 He1 _. mgo. split; [done|]. intros s2 He2 Hm2. assert (CInv s2) as HC2 by apply He2.
  assert (idle s2) as HK2 by (by eapply idle_kept). apply twp_bind.
  eapply (twp_conseq _ _ _ _ (fun s' r => idle s' /\ exists i, r = Some i /\ head (stk (c_mem s') t (Sized c)) = Some i)).
  { destruct (head (stk (c_mem s1) t (Sized c))) as [i|] eqn:Eh; [|by apply twp_allocate].
    apply twp_ret; [done|]. split; [done|]. exists i. by rewrite Hm2. }
  intros s3 r HC3 (HK3 & i & -> & Hi). apply twp_bind, twp_read; [done|]. intros s4 He4 _. mgo.
  assert (CInv s4) as [g HC4] by apply He4. rewrite <- (ev_stk _ _ _ _ He4) in Hi.
  destruct (top_slab (HN := hands s4) cfg Hcfg _ g _ t c i (ci_inv _ _ _ HC4) Hi) as (l & El & Hpl & _).
  destruct (top_peek (HN := hands s4) cfg Hcfg _ g _ t c i (ci_inv _ _ _ HC4) Hi) as [blk Hpk].
  eapply mwp_lift; [exact Hpk|]. split; [done|]. intros s5 He5 Hm5.
  assert (CInv s5) as HC5 by apply He5. assert (peeked c i blk s5) as HP5.
  { split_and!; [by eapply idle_kept| |by rewrite Hm5|by rewrite Hm5]. right; left. exists (Sized c), (i :: l). rewrite Hm5, <- El.
    split; [|rewrite El; set_solver]. apply (li_chain _ _ _ (inv_li _ _ _ _ (ci_inv _ _ _ HC4)) (PSz t c)). done. }
  unfold pop_p. apply twp_bind, twp_bind. eapply twp_conseq; [by apply twp_take_block|].
  intros s6 e HC6 (HT & Hrow & Hcol). apply twp_bind.
  eapply (twp_conseq _ _ _ _ (fun s _ => pocketed c i (bit_to_u64 blk) s)).
  { destruct e as [j|]; [by apply twp_detach|]. apply twp_ret; [done|]. apply HT. }
  intros s7 _ HC7 HP. eapply twp_conseq; [by apply twp_return|]. intros s8 p HC8 HK8. by apply twp_ret.
Qed.

(** ** Giving a block back *)
Lemma twp_grab p s : CInv s -> idle s ->
  twp (noted run (ret tt) (fun _ => Grab p)) (fun s _ => exists c i b, pocketed c i b s /\ p = ptr base c i b) s.
Proof.
  intros HC HK. apply twp_act; [done|]. intros s1 He _. assert (CInv s1) as HCI by apply He.
  destruct (idle_kept base t s s1 HK He) as [Hh Hp]. mgo. intros h s' Hm E. cbn [annotate] in E.
  change (c_app (put_hs h s1)) with (c_app s1) in E. destruct (c_app s1 !! p) as [[[c i] b]|] eqn:Ea; [|done]. injection E as <-.
  destruct (still_inv base h s1 HCI Hm) as [g [C1 C2 C3 C4 C5 C6 C7 C8]]. set (s' := put_pocket _ _ _).
  assert (forall t', c_pocket s' t' = if decide (t' = t) then Some (i, b) else c_pocket s1 t') as Hpocket.
  { intros t'. simpl. case_decide; [subst; by rewrite fn_lookup_insert|by rewrite fn_lookup_insert_ne]. }
  destruct (C7 _ _ _ _ Ea) as (Hptr & Hcl & Hb & Hnp). split_and!.
  - exists g. split; try done.
    + intros t' i' b'. rewrite Hpocket. case_decide; [by intros [= <- <-]|]. apply C5.
    + intros t1 t2 x. rewrite !Hpocket. pose proof (C6 t1 t2 x). pose proof (Hnp t1). pose proof (Hnp t2).
      repeat case_decide; subst; naive_solver.
    + intros p' c' i' b' E. simpl in E. apply lookup_delete_Some in E as [Hpp E]. destruct (C7 _ _ _ _ E) as (H1 & H2 & H3 & H4). split_and!; [done|done|done|].
      intros t'. rewrite Hpocket. case_decide; [|apply H4]. intros [= <- <-]. apply Hpp. rewrite Hptr, H1. congruence.
    + intros i' b' Hb'. destruct (C8 i' b' Hb') as [[t' E]|(p' & c' & E)].
      * left. exists t'. rewrite Hpocket. case_decide; [|done]. subst t'. simpl in E. congruence.
      * destruct (decide (p' = p)) as [->|Hpp]; [left; exists t; rewrite Hpocket, decide_True by done; simpl in E; congruence|].
        right. exists p', c'. simpl. by rewrite lookup_delete_ne.
  - destruct (still_frame t h s1 Hm) as [F1 F2 F3 F4 F5 F6 F7 F8]. split; try done. intros t' Ht. rewrite Hpocket. by case_decide.
  - exists c, i, b. split; [|done]. split_and!; [done|by rewrite Hpocket, decide_True|done].
Qed.

Lemma cinv_give g g' s s' i b l :
  CInvG base g s -> c_pocket s t = Some (i, b) -> (forall t', c_hand s' t' = if decide (t' = t) then l else c_hand s t') ->
  (forall j, c_live s' j = if decide (j = i) then c_live s i ∖ {[b]} else c_live s j) ->
  (forall t', c_pocket s' t' = if decide (t' = t) then None else c_pocket s t') -> c_app s' = c_app s ->
  Inv (HN := hands s') (c_n s') g' (c_mem s') -> gives g (c_mem s) i b g' (c_mem s') ->
  NoDup l -> (forall t' j, j ∈ l -> j ∈ c_hand s t' -> t' = t) -> CInv s'.
Proof.
  intros HC Hp Hh Hl Hpo Ha HI Hg Hnd Hdis.
  assert (forall j, live g' j = c_live s' j) as Hlive.
  { intros j. rewrite Hl, (proj1 (Hg j)). by case_decide; rewrite !(ci_live _ _ _ HC). }
  assert (forall j k, k ∈ c_live s j -> (j, k) <> (i, b) -> k ∈ c_live s' j) as Hkeep.
  { intros j k Hk Hne. rewrite Hl. case_decide; [subst; set_solver|done]. }
  exists g'. split; try done.
  - intros t'. rewrite Hh. case_decide; [done|apply HC].
  - intros t1 t2 j. rewrite !Hh. pose proof (ci_hands _ _ _ HC t1 t2 j). repeat case_decide; subst; naive_solver.
  - intros t' j k. rewrite Hpo. case_decide as Ht; [done|]. intros E. apply Hkeep; [by eapply ci_pocket|].
    intros [= -> ->]. apply Ht. by eapply (ci_pockets _ _ _ HC).
  - intros t1 t2 x. rewrite !Hpo. repeat case_decide; try done. apply (ci_pockets _ _ _ HC).
  - intros p c j k E. rewrite Ha in E. destruct (ci_app _ _ _ HC p c j k E) as (H1 & H2 & H3 & H4).
    assert (k ∈ c_live s' j) as Hk by (apply Hkeep; [done|intros [= -> ->]; by eapply H4]). split_and!; [done| |done|].
    + rewrite <- H2. apply (proj2 (Hg j)). rewrite Hlive. set_solver.
    + intros t'. rewrite Hpo. case_decide; [done|apply H4].
  - intros j k Hk. assert (k ∈ c_live s j /\ (j, k) <> (i, b)) as [Hk' Hne].
    { rewrite Hl in Hk. case_decide; [subst; split; [set_solver|]; intros [= ->]; set_solver|split; [done|congruence]]. }
    rewrite Ha. destruct (ci_held _ _ _ HC j k Hk') as [[t' E]|H]; [left; exists t'; rewrite Hpo; case_decide; [subst; congruence|done]|by right].
Qed.

(** The bookkeeping of [Give] and [GiveRemote]. *)
Lemma dropped h s i b : c_pocket s t = Some (i, b) -> let s' := drop_pocket t (put_hs h s) in
  c_hs s' = h /\ c_n s' = c_n s + 1 /\ c_hand s' = c_hand s /\ c_app s' = c_app s /\ c_stamp s' = c_stamp s /\ c_loaded s' = c_loaded s /\
  (forall j, c_live s' j = if decide (j = i) then c_live s i ∖ {[b]} else c_live s j) /\
  (forall t', c_pocket s' t' = if decide (t' = t) then None else c_pocket s t').
Proof.
  intros Hp. cbv zeta. unfold drop_pocket. simpl. rewrite Hp. simpl. split_and!; try done.
  - intros j. case_decide; [subst; by rewrite fn_lookup_insert|by rewrite fn_lookup_insert_ne].
  - intros t'. case_decide; [subst; by rewrite fn_lookup_insert|by rewrite fn_lookup_insert_ne].
Qed.

Lemma twp_put_block c i b s : CInv s -> pocketed c i b s -> owner (loc (c_mem s) i) = Some t ->
  twp (noted run (put_block cfg t (block_offset c i b) i) (fun _ => Give)) (fun s _ => idle s) s.
Proof.
  intros HC HK Ho. apply twp_act; [done|]. intros s1 He (_ & Hn & _). assert (CInv s1) as [g HC1] by apply He.
  assert (mine t s i) as Hmi by (right; right; exists b; split; [apply HK|done]).
  destruct (pocketed_stable c i b s s1 HK He) as (Hh & Hp & <-). rewrite <- (ev_loc _ _ _ _ He) in Ho by done.
  apply (ev_mine base _ _ _ _ He) in Hmi. pose proof (ci_inv _ _ _ HC1) as HI.
  assert (b ∈ live g i) as Hb by (rewrite (ci_live _ _ _ HC1); by eapply ci_pocket).
  eapply mwp_conseq; [exact (put_block_run cfg Hcfg (c_n s1) g _ t i b HI Hb Ho Hn)|].
  intros m' _ (g' & HI' & Hg & [P1 P2 P3] & Hown & Hcl) h s' Hm [= <-]. subst m'.
  destruct (dropped h s1 i b Hp) as (D1 & D2 & D3 & D4 & D5 & D6 & D7 & D8). set (s' := drop_pocket _ _) in *. clearbody s'.
  assert (c_mem s' = hs_mem h) as Em by (unfold c_mem; by rewrite D1).
  assert (forall j, hands s' j <-> hands s1 j) as Hhands by (intros j; unfold hands; by rewrite D3). split_and!.
  - eapply (cinv_give g g' s1 s' i b (c_hand s1 t)); try done; rewrite ?Em, ?D2; try done.
    + intros t'. rewrite D3. by case_decide; subst.
    + eapply (inv_same_hands (hands s1)); [exact HI'|exact Hhands].
    + apply HC1.
    + intros t' j Hj Hj'. by eapply ci_hands.
  - split; rewrite ?Em, ?D3, ?D5, ?D6; try done.
    + intros j Hj. apply P2. intros [->|[r Hr]]; [done|]. apply Hj. by eapply mine_linked.
    + intros j _. by rewrite Hcl, Hown; auto.
    + intros t' Ht. rewrite D8. by case_decide.
  - split; [by rewrite D3|by rewrite D8, decide_True].
Qed.

(** ** [Heap::unsized_to_global] *)
Lemma twp_unsized_to_global s : CInv s -> idle s -> twp (unsized_to_global_p cfg run fuel t) (fun s _ => idle s) s.
Proof.
  intros HC HK. unfold unsized_to_global_p. apply twp_bind, twp_act; [done|]. intros s1 He _.
  assert (CInv s1) as HCI by apply He. destruct (HCI) as [g HC1]. pose proof (ci_inv _ _ _ HC1) as HI.
  destruct (idle_kept base t s s1 HK He) as [Hh Hp].
  eapply mwp_conseq; [exact (take_batch_run cfg Hcfg (c_n s1) g _ t HI)|]. intros m' r Hr h s' Hm [= <-].
  set (s' := put_hand _ _ _). assert (c_mem s' = m') as Em by exact Hm.
  set (l := default [] r) in *. assert (forall t', c_hand s' t' = if decide (t' = t) then l else c_hand s1 t') as Hh'.
  { intros t'. simpl. case_decide; [subst t'; by rewrite fn_lookup_insert|by rewrite fn_lookup_insert_ne]. }
  assert (CInv s' /\ frame t s1 s') as [HC' Hf].
  { destruct r as [l0|].
    - destruct Hr as (i & l1 & l2 & -> & El & Hm'). split.
      + eapply (cinv_change cfg Hcfg base t g s1 s' l); try done.
        * eapply inv_later; [eapply (batch_hand (hands s1) _ _ g _ t i l1 l2); [exact HI|exact El|]|rewrite Em; exact Hm'|simpl; lia|done].
          intros j. by apply (hands_in cfg Hcfg base t s1 s' l j HCI).
        * intros j _. by rewrite Em, Hm'.
        * pose proof (li_nodup _ _ _ (inv_li _ _ _ _ HI) (PUn t) ltac:(done)) as Hnd. rewrite El in Hnd. by apply NoDup_app in Hnd as [? _].
        * intros t' j Hj Hj'. exfalso. destruct (inv_hands _ _ _ _ HI j ltac:(done) (ex_intro _ t' Hj')) as [Hd _].
          assert (pl g j = Some (PUn t)) by (apply (li_mem _ _ _ (inv_li _ _ _ _ HI)); [done|rewrite El; set_solver]). congruence.
      + split; rewrite ?Em, ?Hm'; try done; [intros t' r Ht; mem_simp|auto|].
        intros t' Ht. rewrite Hh'. by case_decide.
    - subst m'. split.
      + destruct (still_inv base h s1 HCI ltac:(done)) as [g' HC2]. eapply (cinv_change cfg Hcfg base t g s1 s' l); try done.
        * eapply inv_later; [eapply (inv_same_hands (hands s1)); [exact HI|]|exact Em|simpl; lia|done].
          intros j. rewrite (hands_in cfg Hcfg base t s1 s' l j HCI Hh Hh'). set_solver.
        * intros j _. by rewrite Em.
        * by apply NoDup_nil_2.
        * intros t' j Hj. by apply elem_of_nil in Hj.
      + split; rewrite ?Em; try done; [auto|]. intros t' Ht. rewrite Hh'. by case_decide. }
  split_and!; [done|done|]. destruct r as [l0|].
  - destruct Hr as (i & l1 & l2 & -> & El & Hm'). simpl List.hd. cbv zeta. apply (twp_push cfg Hcfg base t fuel i l1); [done|]. split_and!; [by rewrite Hh', decide_True|done|].
    rewrite Em, Hm'. pose proof (li_chain _ _ _ (inv_li _ _ _ _ HI) (PUn t) ltac:(done)) as Hch. rewrite El in Hch.
    eapply seg_frame; [eapply chain_seg; exact Hch|done].
  - apply twp_ret; [done|]. split; [by rewrite Hh', decide_True|done].
Qed.

(** ** [Heap::free_remote] *)
Lemma pocket_live g c i b s : CInvG base g s -> pocketed c i b s -> b ∈ live g i.
Proof. intros HC (_ & Hp & _). rewrite (ci_live _ _ _ HC). by eapply ci_pocket. Qed.

Lemma remote_write c i b v s h s' :
  CInv s -> pocketed c i b s -> let f := d_inner (rem (c_mem s) i) in
  hs_mem h = put_rem i (mkD (Some t) v (f - 1)) (c_mem s) ->
  annotate t (GiveRemote (if f =? 1 then [i] else [])) (put_hs h s) = Some s' ->
  lands s s' (if f =? 1 then holds t [i] s' else idle s').
Proof.
  intros HCI HK f Hm [= <-]. destruct (HCI) as [g HC]. destruct (HK) as (Hh & Hp & _). pose proof (ci_inv _ _ _ HC) as HI.
  pose proof (pocket_live g c i b s HC HK) as Hb.
  destruct (dropped h s i b Hp) as (D1 & D2 & D3 & D4 & D5 & D6 & D7 & D8). set (l := if f =? 1 then [i] else []).
  set (s0 := drop_pocket _ _) in *. clearbody s0. set (s' := put_hand _ _ _).
  assert (c_mem s' = put_rem i (mkD (Some t) v (f - 1)) (c_mem s)) as Em by (unfold c_mem at 1; simpl; by rewrite D1).
  assert (forall t', c_hand s' t' = if decide (t' = t) then l else c_hand s t') as Hh'.
  { intros t'. simpl. case_decide; [subst t'; by rewrite fn_lookup_insert|by rewrite fn_lookup_insert_ne, D3]. }
  assert (forall j, j ∈ l <-> f = 1 /\ j = i) as Hl by (intros j; unfold l; destruct (Z.eqb_spec f 1); set_solver).
  destruct (remote_inv cfg Hcfg (hands s) (hands s') _ g _ i b (mkD (Some t) v (f - 1)) HI Hb eq_refl) as (g' & HI' & Hg).
  { intros j. rewrite (hands_in cfg Hcfg base t s s' l j HCI Hh Hh'), Hl. done. }
  split_and!.
  - eapply (cinv_give g g' s s' i b l); try done; rewrite ?Em.
    + eapply inv_mono; [exact HI'|simpl; rewrite D2; lia].
    + done.
    + unfold l. destruct (f =? 1); [apply NoDup_singleton|by apply NoDup_nil_2].
    + intros t' j [_ ->]%Hl Hj. exfalso. destruct (inv_hands _ _ _ _ HI i ltac:(done) (ex_intro _ t' Hj)) as [_ E]. set_solver.
  - split; rewrite ?Em; try done; simpl; rewrite ?D5, ?D6; try done; [auto|..].
    + intros t' Ht. by rewrite fn_lookup_insert_ne, D3.
    + intros t' Ht. rewrite D8. by case_decide.
  - pose proof (Hh' t) as E. rewrite decide_True in E by done. assert (c_pocket s' t = None) as Ep by (simpl; by rewrite D8, decide_True).
    unfold l in E. destruct (f =? 1); by split_and!.
Qed.

Lemma twp_free_remote c i b s : CInv s -> pocketed c i b s -> twp (free_remote_p cfg run fuel t i) (fun s _ => idle s) s.
Proof.
  intros HC HK. pose proof (ok_release _ Hcfg) as Hval. unfold free_remote_p. apply twp_bind, twp_read; [done|]. intros s1 He1 _. mgo.
  split; [done|]. intros s2 He2 _. assert (CInv s2) as HC2 by apply He2. assert (pocketed c i b s2) as HK2 by (by eapply pocketed_stable).
  apply twp_bind. eapply twp_conseq.
  - apply (twp_update cfg base t fuel (remote_cell i) (fun m => rem m i) (put_rem i) (remote_next cfg i) _ _ (pocketed c i b)
      (fun old s => pocketed c i b s /\ 1 <= d_inner old <= 4096)
      (fun old new s => pocketed c i b s /\ new = d_inner old - 1)
      (fun s r => match r with Some f => if f =? 1 then holds t [i] s else idle s | None => False end)); try done.
    + apply pocketed_stable.
    + intros old s3 s4 [H1 H2] He. split; [by eapply pocketed_stable|done].
    + intros old new s3 s4 [H1 H2] He. split; [by eapply pocketed_stable|done].
    + by intros old new s3 [? _].
    + intros s3 h s4 HC3 _ HK3 Hm [= <-]. split; [by apply still_inv|]. split; [by apply still_frame|].
      split; [eapply pocketed_stable; [exact HK3|by apply still_ev]|]. destruct HC3 as [g HC3].
      exact (remote_bound _ _ _ _ _ (ci_inv _ _ _ HC3) (pocket_live g c i b s3 HC3 HK3)).
    + intros old v s3 HC3 _ [HK3 Hf]. unfold remote_next. mgo. apply mwp_validate; [done|]. mgo.
      eapply mwp_lift; [apply arith_ok; unfold in_range; simpl; lia|]. mgo. intros h Hm.
      split; [by apply still_inv|]. split; [by apply still_frame|]. split; [eapply pocketed_stable; [exact HK3|by apply still_ev]|done].
    + intros old new v s3 h s4 HC3 _ [HK3 ->] <- Hm E. by eapply remote_write.
  - intros s3 [f|] HC3 Hr; [|done]. destruct (f =? 1); [|by apply twp_ret].
    apply twp_bind. eapply twp_conseq; [by apply (twp_take_claimed cfg Hcfg base t)|]. intros s4 [] HC4 HK4. by apply twp_unsized_to_global.
Qed.

(** ** [Allocator::free] *)
Lemma twp_free p s : CInv s -> idle s -> twp (free_ptr_p cfg run fuel base t p) (fun s _ => idle s) s.
Proof.
  intros HC HK. unfold free_ptr_p. apply twp_bind. eapply twp_conseq; [by apply twp_grab|].
  intros s1 _ HC1 (c & i & b & HP & ->). destruct (pocket_wf c i b s1 HC1 HP) as [Hi Hb].
  apply twp_bind, twp_read; [done|]. intros s2 He2 _.
  eapply mwp_unwrap; [apply pointer_roundtrip; [done|apply offset_range; done]|]. split; [done|]. intros s3 He3 _.
  assert (CInv s3) as HC3 by apply He3. assert (pocketed c i b s3) as HP3 by (by eapply pocketed_stable).
  unfold free_p. apply twp_bind, twp_read; [done|]. intros s4 He4 _. mgo. eapply mwp_lift; [by apply into_index_done|]. mgo.
  split; [done|]. intros s5 He5 Hm5. assert (CInv s5) as HC5 by apply He5. assert (pocketed c i b s5) as HP5 by (by eapply pocketed_stable).
  cbn [fst snd]. case_decide as Ho; [|by eapply twp_free_remote]. rewrite <- Hm5 in Ho.
  apply twp_bind. eapply twp_conseq; [by apply twp_put_block|].
  intros s6 [] HC6 HK6; [by apply twp_unsized_to_global|by apply twp_ret].
Qed.
End ops.

(** ** Clients *)

(** What the application asks a thread for. *)
Inductive request := CAlloc (c : Z) | CFree (p : Z).

Section system.
Context (cfg : Cfg) `{BL : BracketLaws} `{IS : IntoState} (base : Z) (fuel : nat) (clients : Z -> list request).

(** A thread that serves requests one after the other. *)
Fixpoint client (t : Z) (l : list request) : P CS unit :=
  match l with
  | [] => PRet tt
  | CAlloc c :: l => alloc_p cfg (crun t) fuel base t c ;;; client t l
  | CFree p :: l => free_ptr_p cfg (crun t) fuel base t p ;;; client t l
  end.

Definition threads (t : Z) : P CS unit := client t (clients t).

(** One access of one thread. *)
Definition heap_step : CS * (Z -> P CS unit) -> CS * (Z -> P CS unit) -> Prop :=
  par_step threads (fun _ s => s) (ok cfg) (fun _ _ => False).

(** Zeroed memory, and nothing handed out. *)
Definition heap_start (h : HS) : CS := mkCS h (fun _ => ∅) (fun _ => []) (fun _ => None) ∅ 0 0 (fun _ => None).

Definition request_wf (r : request) : Prop := match r with CAlloc c => class_wf c | CFree _ => True end.

Lemma start_inv h : hs_mem h = zero_mem -> CInv base (heap_start h).
Proof.
  intros Hm. exists (mkGhost (fun _ => []) (fun _ => None) (fun _ => ∅) (fun _ => ∅)). split; try done.
  - unfold c_mem. simpl. rewrite Hm. eapply (inv_same_hands no_hands); [apply inv_init|].
    intros j. unfold hands, no_hands. simpl. split; [intros [t Hj]; set_solver|done].
  - intros t. by apply NoDup_nil_2.
  - intros t t' i Hi. by apply elem_of_nil in Hi.
Qed.

Context (Hcfg : cfg_ok cfg) (Hbase : 0 <= base).

Lemma twp_client t l s : CInv base s -> idle t s -> Forall request_wf l ->
  twp cfg base t (client t l) (fun s _ => idle t s) s.
Proof.
  intros HC HK Hl. revert s HC HK. induction Hl as [|[c|p] l Hr Hl IH]; intros s HC HK; cbn [client]; [by apply twp_ret|..];
    apply twp_bind; (eapply twp_conseq; [by first [apply twp_alloc|apply twp_free]|]); intros s' a HC' HK'; by apply IH.
Qed.

(** Every thread is correct wherever it is. *)
Lemma clients_correct h s ps :
  (forall t, Forall request_wf (clients t)) -> hs_mem h = zero_mem -> rtc heap_step (heap_start h, threads) (s, ps) ->
  forall t, twp cfg base t (ps t) (fun s _ => CInv base s /\ idle t s) s.
Proof.
  intros Hwf Hm Hr. unfold twp.
  apply (threads_correct threads (fun _ s => s) (ok cfg) (fun _ _ => False) (rely cfg base) (rely0 base) (guar base) True
    (fun t s => CInv base s /\ idle t s) (fun _ => CInv base) (fun t s _ => CInv base s /\ idle t s)) with (s0 := heap_start h); try done.
  - intros t s1 s2 s3 H12 [H23 Hok]. split; [|done]. intros HC. specialize (H12 HC). eapply ev_trans; [exact H12|apply H23, H12].
  - intros t j s1 s2 Hne Hg HC. by apply Hg.
  - intros t s1 s2 HC H12. apply (H12 HC).
  - intros t s1 s2 a [HC HK] H12. specialize (H12 HC). split; [apply H12|by eapply idle_kept].
  - intros t s1 [HC HK]. eapply twp_conseq; [by apply twp_client|done].
  - intros t. split; [by apply start_inv|done].
Qed.

Lemma reachable_inv h s ps :
  (forall t, Forall request_wf (clients t)) -> hs_mem h = zero_mem -> rtc heap_step (heap_start h, threads) (s, ps) -> CInv base s.
Proof. intros Hwf Hm Hr. eapply cwp_crash. exact (clients_correct h s ps Hwf Hm Hr 0). Qed.

(** The blocks of the application are apart. *)
Lemma held_apart s p c i b p' c' i' b' : CInv base s ->
  c_app s !! p = Some (c, i, b) -> c_app s !! p' = Some (c', i', b') -> p <> p' ->
  p + class_size c <= p' \/ p' + class_size c' <= p.
Proof.
  intros [g HC] Ha Ha' Hne. destruct (ci_app _ _ _ HC _ _ _ _ Ha) as (-> & Hc & Hb & _), (ci_app _ _ _ HC _ _ _ _ Ha') as (-> & Hc' & Hb' & _).
  rewrite <- (ci_live _ _ _ HC) in Hb, Hb'. pose proof (ci_inv _ _ _ HC) as HI.
  destruct (live_place _ _ _ _ _ HI Hb) as [Hsp _], (live_place _ _ _ _ _ HI Hb') as [Hsp' _].
  pose proof (sp_block _ _ _ _ _ b Hsp ltac:(by left)) as W. pose proof (sp_block _ _ _ _ _ b' Hsp' ltac:(by left)) as W'.
  rewrite Hc in W. rewrite Hc' in W'. unfold ptr, offset_to_pointer in *.
  assert (i <> i' \/ c = c' /\ b <> b') as Hd.
  { destruct (decide (i = i')) as [<-|]; [right|by left]. split; [congruence|]. intros ->. apply Hne. congruence. }
  pose proof (block_ranges c c' i i' b b' W W' Hd). lia.
Qed.

(** Where a slab that was handed out can be. *)
Definition placed (s : CS) (i : Z) : Prop :=
  global s i \/ (exists t r l, chain (c_mem s) (head (stk (c_mem s) t r)) l /\ i ∈ l) \/ (exists t, i ∈ c_hand s t) \/
  (exists t b, c_pocket s t = Some (i, b)) \/ exists p c b, c_app s !! p = Some (c, i, b).

Lemma slab_placed s i : CInv base s -> 1 <= i < bumpv (c_mem s) -> placed s i.
Proof.
  intros [g HC] Hi. pose proof (ci_inv _ _ _ HC) as HI. pose proof (inv_li _ _ _ _ HI) as HL.
  apply (inv_fresh _ _ _ _ HI) in Hi as [p Hp]. pose proof (inv_slab _ _ _ _ HI i ltac:(done)) as Hs. rewrite Hp in Hs.
  assert (forall t r, p = place_of t r -> placed s i) as Hst.
  { intros t r ->. right; left. exists t, r, (lst g (place_of t r)). rewrite <- hd_of_place.
    split; [apply (li_chain _ _ _ HL), place_of_det|]. apply (li_mem _ _ _ HL); [apply place_of_det|done]. }
  destruct p as [|t|t c|]; [|by apply (Hst t Unsized)|by apply (Hst t (Sized c))|].
  - left. exists (lst g PGlobal). split; [by apply (li_chain _ _ _ HL PGlobal)|]. by apply (li_mem _ _ _ HL).
  - right; right. destruct Hs as [[[t Ht] _]|(_ & _ & Hlv)]; [left; by exists t|right].
    apply set_choose_L in Hlv as [b Hb]. rewrite (ci_live _ _ _ HC) in Hb.
    destruct (ci_held _ _ _ HC i b Hb) as [[t E]|(p & c & E)]; [left; by exists t, b|right; by exists p, c, b].
Qed.

(** C2: threads allocate and free blocks of one heap, in any number, each
    access of each (a load, a compare-exchange, the work on a thread's own
    slabs) interleaved with those of the others in any order. While the words
    of the global stack do not repeat under a pop and slab indices and counters
    do not run out, no access panics or has undefined behaviour, whichever
    thread goes next, and blocks that the application holds at the same time
    do not overlap. *)
Theorem clients_are_safe h s ps :
  (forall t, Forall request_wf (clients t)) -> hs_mem h = zero_mem -> rtc heap_step (heap_start h, threads) (s, ps) ->
  (forall t X (m : M CS X) k, ok cfg s -> ps t = PAct m k -> m s <> Panic /\ m s <> Undef) /\
  (forall p c i b p' c' i' b', c_app s !! p = Some (c, i, b) -> c_app s !! p' = Some (c', i', b') -> p <> p' ->
     p + class_size c <= p' \/ p' + class_size c' <= p).
Proof.
  intros Hwf Hm Hr. pose proof (reachable_inv h s ps Hwf Hm Hr) as HC. split; [|intros; by eapply held_apart].
  intros t X m k Hok Ep. pose proof (clients_correct h s ps Hwf Hm Hr t) as Hp. rewrite Ep in Hp. destruct Hp as [_ Hp].
  specialize (Hp s). unfold awp in Hp. destruct (m s) as [[]| | |]; try done; by exfalso; apply Hp; (split; [intros _; by apply ev_refl|]).
Qed.

(** C3: nothing is lost under interleaving: in every state that is
    reached, each slab that was ever taken from the bump pointer is on the
    global stack, on a stack of some thread, in the hand of a thread in the
    middle of a call, or has a block that a call or the application holds. A
    thread that has served its requests holds nothing, so once all have ended
    and the application has given everything back, every slab is on a stack
    again. *)
Theorem no_slab_is_lost h s ps i :
  (forall t, Forall request_wf (clients t)) -> hs_mem h = zero_mem -> rtc heap_step (heap_start h, threads) (s, ps) ->
  1 <= i < bumpv (c_mem s) ->
  placed s i /\
  ((forall t, ps t = PRet tt) -> c_app s = ∅ ->
     global s i \/ exists t r l, chain (c_mem s) (head (stk (c_mem s) t r)) l /\ i ∈ l).
Proof.
  intros Hwf Hm Hr Hi. pose proof (reachable_inv h s ps Hwf Hm Hr) as HC. pose proof (slab_placed s i HC Hi) as Hpl. split; [done|].
  intros Hend Happ. assert (forall t, idle t s) as Hidle.
  { intros t. pose proof (clients_correct h s ps Hwf Hm Hr t) as Hp. rewrite Hend in Hp. apply Hp. }
  destruct Hpl as [H|[H|[[t Ht]|[(t & b & Hb)|(p & c & b & Hb)]]]]; [by left|by right|exfalso..].
  - rewrite (proj1 (Hidle t)) in Ht. by apply elem_of_nil in Ht.
  - by rewrite (proj2 (Hidle t)) in Hb.
  - by rewrite Happ in Hb.
Qed.
End system.

(** ** A run of two threads *)
Module Runs.
Local Existing Instance Small.bracket.
Local Existing Instance small_into.

(** Thread 1 allocates two blocks, thread 2 allocates one and frees the first
    of thread 1; they take turns. *)
Definition asks : Z -> list request := <[1 := [CAlloc 3; CAlloc 3]]> (<[2 := [CAlloc 3; CFree 32768]]> (fun _ => [])).

Definition hs_start : HS := mkHS (mkCtx ∅ ∅) zero_mem [].
Definition cfg0 : Cfg := default_cfg false.
Definition pool0 : Z -> P CS unit := threads cfg0 0 2 asks.

(** The states of the run are among those that are considered: nothing has
    reached the global stack. *)
Definition calm (s : CS) : bool :=
  (c_stamp s =? 0)%nat && (c_n s + 1 <? 2 ^ 64) && (bumpv (c_mem s) + BATCH_BUMP_POP cfg0 <? 2 ^ 32).

Lemma calm_ok s : calm s = true -> ok cfg0 s.
Proof.
  unfold calm. intros [[Hs%Nat.eqb_eq Hn%Z.ltb_lt]%andb_prop Hb%Z.ltb_lt]%andb_prop. split; [|split; lia].
  intros t d k _ _ Hk. lia.
Qed.

Definition turns : list Z := mjoin (replicate 60 [1; 2]).

Definition outcome_of (l : list Z) : option (CS * (Z -> P CS unit)) :=
  csched pool0 (fun _ s => s) calm l (heap_start hs_start, pool0).

Definition after (l : list Z) : CS * (Z -> P CS unit) := default (heap_start hs_start, pool0) (outcome_of l).

Lemma turns_after_reached l : bool_decide (is_Some (outcome_of l)) = true ->
  rtc (heap_step cfg0 0 2 asks) (heap_start hs_start, pool0) (fst (after l), snd (after l)).
Proof.
  intros H%bool_decide_eq_true. unfold after. destruct (outcome_of l) as [[s ps]|] eqn:E; [|by destruct H].
  eapply csched_par; [exact calm_ok|exact E].
Qed.

Lemma asks_wf t : Forall request_wf (asks t).
Proof.
  unfold asks. destruct (decide (t = 1)) as [->|H1]; [rewrite fn_lookup_insert|rewrite fn_lookup_insert_ne by done].
  - repeat constructor; vm_compute; intuition discriminate.
  - destruct (decide (t = 2)) as [->|H2]; [rewrite fn_lookup_insert|rewrite fn_lookup_insert_ne by done; constructor].
    repeat constructor; vm_compute; intuition discriminate.
Qed.

Abbreviation final := (fst (after turns)).

Example held_at_the_end : map_to_list (c_app final) = [(32792, (3, 1, 1)); (65536, (3, 2, 0))] /\ bumpv (c_mem final) = 3.
Proof. vm_compute. done. Qed.

Lemma turns_reached : rtc (heap_step cfg0 0 2 asks) (heap_start hs_start, threads cfg0 0 2 asks) (final, snd (after turns)).
Proof. apply turns_after_reached. vm_compute. reflexivity. Qed.

Lemma clients_are_safe_witness :
  c_app final !! 32792 = Some (3, 1, 1) /\ c_app final !! 65536 = Some (3, 2, 0) /\
  (32792 + class_size 3 <= 65536 \/ 65536 + class_size 3 <= 32792).
Proof.
  assert (c_app final !! 32792 = Some (3, 1, 1)) as H1 by (vm_compute; reflexivity).
  assert (c_app final !! 65536 = Some (3, 2, 0)) as H2 by (vm_compute; reflexivity).
  split; [exact H1|]. split; [exact H2|].
  destruct (clients_are_safe cfg0 0 2 asks default_cfg_ok ltac:(lia) hs_start final (snd (after turns)) asks_wf eq_refl turns_reached) as [_ H].
  exact (H _ _ _ _ _ _ _ _ H1 H2 ltac:(lia)).
Defined.

Lemma no_slab_is_lost_witness : placed final 1 /\ placed final 2.
Proof.
  split.
  - apply (no_slab_is_lost cfg0 0 2 asks default_cfg_ok ltac:(lia) hs_start final (snd (after turns)) 1 asks_wf eq_refl turns_reached).
    rewrite (proj2 held_at_the_end). lia.
  - apply (no_slab_is_lost cfg0 0 2 asks default_cfg_ok ltac:(lia) hs_start final (snd (after turns)) 2 asks_wf eq_refl turns_reached).
    rewrite (proj2 held_at_the_end). lia.
Defined.
End Runs.

(** ** The premise is needed *)
Module Aba.
Local Existing Instance Large.bracket.
Local Existing Instance large_into.

(** Slabs of class 9 have one block. *)
Definition wants : Z -> list request :=
  <[1 := [CAlloc 9; CAlloc 9; CFree 524288; CFree 1048576; CAlloc 9; CFree 1048576; CAlloc 9]]>
    (<[2 := [CAlloc 9; CAlloc 9]]> (<[3 := [CAlloc 9]]> (fun _ => []))).

Definition pool1 : Z -> P CS unit := threads Runs.cfg0 0 2 wants.

(** Thread 1 frees two blocks, so that their slabs 1 and 2 are on the global
    stack; thread 3 starts to pop slab 2 and has read its successor, slab 1.
    Thread 2 allocates both slabs. Thread 1 allocates, which sets its version
    back, and frees the block of slab 2 again: the head is the very word that
    thread 3 loaded. The compare-exchange of thread 3 succeeds and puts slab 1
    back on the stack, where thread 1 finds it. *)
Definition order : list Z :=
  replicate 52 1 ++ replicate 7 3 ++ replicate 32 2 ++ replicate 32 1 ++ replicate 9 3 ++ replicate 13 1.

Definition outcome_of : option (CS * (Z -> P CS unit)) :=
  csched pool1 (fun _ s => s) (fun _ => true) order (heap_start Runs.hs_start, pool1).

Definition twice (s : CS) : bool :=
  bool_decide (c_app s !! 524288 = Some (9, 1, 0)) && bool_decide (c_pocket s 1 = Some (1, 0)).

(** C36: in the default build versions come back after a few
    operations: [store] publishes version 0, and a thread that later loads the
    word takes that as its own version. In this run of three threads, which
    only allocate and free what they got, the allocation of thread 1 takes the
    block at 524288, which the application holds since thread 2 allocated it. *)
Theorem block_allocated_twice :
  exists s ps, rtc (par_step pool1 (fun _ s => s) (fun _ => True) (fun _ _ => False)) (heap_start Runs.hs_start, pool1) (s, ps) /\
    c_app s !! 524288 = Some (9, 1, 0) /\ c_pocket s 1 = Some (1, 0) /\ ptr 0 9 1 0 = 524288.
Proof.
  assert (match outcome_of with Some (s, _) => twice s | None => false end = true) as H by (vm_compute; reflexivity).
  destruct outcome_of as [[s ps]|] eqn:E; [|done]. exists s, ps. apply andb_prop in H as [H1%bool_decide_eq_true H2%bool_decide_eq_true].
  split; [|split; [exact H1|split; [exact H2|vm_compute; reflexivity]]].
  refine (csched_par pool1 (fun _ s => s) (fun _ => True) (fun _ _ => False) (fun _ => true) _ order _ _ E). by intros.
Qed.
End Aba.
