(* ===== verification/MmtBase.v ===== *)
(** * MmtBase: words, timestamps and handles of memento (extern/memento)

    The recovery experiments run on the detectable data structures of memento.
    Its pointers are words with fields for tags (src/pepoch/atomic.rs), its
    compare-and-swap checkpoints are words with two flags and a timestamp
    (src/ploc/detectable_cas.rs). Both are modelled as words, and as records;
    the records are what the other files use, and this file shows that the
    operations on words implement those on records. *)

From Stdlib Require Import ZArith Lia Bool.
From stdpp Require Import base numbers option list.
From S2P Require Import Prelude CrashLogic.
Local Open Scope Z_scope.

(** ** Bit fields counted from the left *)
Definition MAX : Z := 2 ^ 64 - 1.

(** [impl_left_bits!]. *)
Definition left_bits (pos nr : Z) : Z := Z.lxor (Z.shiftr MAX pos) (Z.shiftr MAX (pos + nr)).

(** [rotate_right], [rotate_left] and [!]. *)
Definition rotate_right (x n : Z) : Z := Z.lor (Z.shiftr x n) (wrap 64 (Z.shiftl x (64 - n))).
Definition rotate_left (x n : Z) : Z := Z.lor (wrap 64 (Z.shiftl x n)) (Z.shiftr x (64 - n)).
Definition not64 (x : Z) : Z := Z.lxor x MAX.

(** The common shape of [compose_tid], [compose_high_tag], [compose_desc_bit]
    and [compose_aux_bit], and of the reads in [decompose_tag]. *)
Definition compose (pos nr v data : Z) : Z :=
  Z.lor (Z.land (left_bits pos nr) (rotate_right v (pos + nr))) (Z.land (not64 (left_bits pos nr)) data).
Definition read (pos nr data : Z) : Z := rotate_left (Z.land data (left_bits pos nr)) (pos + nr).

Definition word (x : Z) : Prop := in_range 64 x.

Lemma word_high x n : word x -> 64 <= n -> Z.testbit x n = false.
Proof. intros. by apply (testbit_high x 64). Qed.

Lemma MAX_bit i : 0 <= i -> Z.testbit MAX i = bool_decide (i < 64).
Proof.
  intros Hi. change MAX with (Z.ones 64). case_bool_decide; [apply Z.ones_spec_low|apply Z.ones_spec_high]; lia.
Qed.

Lemma left_bits_bit pos nr i : 0 <= pos -> 0 <= nr -> 0 <= i ->
  Z.testbit (left_bits pos nr) i = bool_decide (64 - pos - nr <= i < 64 - pos).
Proof.
  intros Hp Hn Hi. unfold left_bits. rewrite Z.lxor_spec, !Z.shiftr_spec, !MAX_bit by lia.
  repeat case_bool_decide; try done; lia.
Qed.

Lemma not64_bit x i : 0 <= i -> Z.testbit (not64 x) i = xorb (Z.testbit x i) (bool_decide (i < 64)).
Proof. intros. unfold not64. by rewrite Z.lxor_spec, MAX_bit. Qed.

Lemma wrap_bit w x i : 0 <= w -> 0 <= i -> Z.testbit (wrap w x) i = bool_decide (i < w) && Z.testbit x i.
Proof.
  intros Hw Hi. unfold wrap. case_bool_decide; [by rewrite Z.mod_pow2_bits_low by lia|by rewrite Z.mod_pow2_bits_high by lia].
Qed.

Lemma rotate_right_bit x n i : word x -> 0 < n < 64 -> 0 <= i ->
  Z.testbit (rotate_right x n) i = bool_decide (i < 64) && Z.testbit x (if decide (i + n < 64) then i + n else i + n - 64).
Proof.
  intros Hx Hn Hi. unfold rotate_right. rewrite Z.lor_spec, Z.shiftr_spec, wrap_bit, Z.shiftl_spec by lia.
  case_decide as Hd.
  - rewrite (Z.testbit_neg_r x (i - (64 - n))) by lia. rewrite andb_false_r, orb_false_r, bool_decide_eq_true_2 by lia. done.
  - rewrite (word_high x (i + n)) by (done || lia). simpl. f_equal. f_equal. lia.
Qed.

Lemma rotate_left_bit x n i : word x -> 0 < n < 64 -> 0 <= i ->
  Z.testbit (rotate_left x n) i = bool_decide (i < 64) && Z.testbit x (if decide (n <= i) then i - n else i - n + 64).
Proof.
  intros Hx Hn Hi. unfold rotate_left. rewrite Z.lor_spec, Z.shiftr_spec, wrap_bit, Z.shiftl_spec by lia.
  case_decide as Hd.
  - rewrite (word_high x (i + (64 - n))) by (done || lia). by rewrite orb_false_r.
  - rewrite (Z.testbit_neg_r x (i - n)) by lia. rewrite andb_false_r, bool_decide_eq_true_2 by lia. simpl. f_equal. lia.
Qed.

Lemma word_bits x : 0 <= x -> (forall i, 64 <= i -> Z.testbit x i = false) -> word x.
Proof.
  intros Hx H. split; [done|]. destruct (decide (x = 0)) as [->|Hne]; [lia|].
  apply Z.log2_lt_pow2; [lia|]. destruct (Z.lt_ge_cases (Z.log2 x) 64) as [|Hge]; [done|].
  exfalso. pose proof (Z.bit_log2 x ltac:(lia)) as E. by rewrite (H _ Hge) in E.
Qed.

Ltac solve_fits := split_and!; vm_compute; congruence.

(** A field position. *)
Definition fits (pos nr : Z) : Prop := 0 <= pos /\ 0 < nr /\ pos + nr < 64.

Lemma compose_bit pos nr v d i : fits pos nr -> word v -> word d -> 0 <= i ->
  Z.testbit (compose pos nr v d) i =
    if decide (64 - pos - nr <= i < 64 - pos) then Z.testbit v (i + pos + nr - 64) else Z.testbit d i.
Proof.
  intros (Hp & Hn & Hs) Hv Hd Hi. unfold compose.
  rewrite Z.lor_spec, !Z.land_spec, not64_bit, rotate_right_bit, left_bits_bit by (done || lia).
  destruct (decide (64 <= i)) as [Hge|Hlt].
  - rewrite (word_high d i) by done. rewrite (bool_decide_eq_false_2 (i < 64)) by lia.
    rewrite (decide_False (P := 64 - pos - nr <= i < 64 - pos)) by lia. destruct (bool_decide _); done.
  - rewrite (bool_decide_eq_true_2 (i < 64)) by lia. destruct (decide (64 - pos - nr <= i < 64 - pos)) as [Hin|Hin].
    + rewrite (bool_decide_eq_true_2 (64 - pos - nr <= i < 64 - pos)) by done.
      rewrite decide_False by lia. cbn [andb xorb negb]. rewrite orb_false_r. f_equal. lia.
    + by rewrite (bool_decide_eq_false_2 (64 - pos - nr <= i < 64 - pos)).
Qed.

Lemma compose_nonneg pos nr v d : fits pos nr -> word v -> word d -> 0 <= compose pos nr v d.
Proof.
  intros (Hp & Hn & Hs) [Hv _] [Hd _]. unfold compose, rotate_right, not64, left_bits.
  assert (0 <= MAX) by done.
  apply Z.lor_nonneg. split; apply Z.land_nonneg; right; [|done]. apply Z.lor_nonneg.
  split; [by apply Z.shiftr_nonneg|]. unfold wrap. by apply Z.mod_pos_bound.
Qed.

Lemma compose_word pos nr v d : fits pos nr -> word v -> word d -> word (compose pos nr v d).
Proof.
  intros Hf Hv Hd. apply word_bits; [by apply compose_nonneg|]. intros i Hi. rewrite compose_bit by (done || lia).
  rewrite decide_False by (destruct Hf; lia). by apply word_high.
Qed.

Lemma read_bit pos nr d i : fits pos nr -> word d -> 0 <= i ->
  Z.testbit (read pos nr d) i = bool_decide (i < nr) && Z.testbit d (i + 64 - pos - nr).
Proof.
  intros (Hp & Hn & Hs) Hd Hi. unfold read.
  assert (word (Z.land d (left_bits pos nr))) as Hw.
  { apply word_bits; [apply Z.land_nonneg; left; apply Hd|]. intros j Hj. rewrite Z.land_spec, (word_high d) by (done || lia). done. }
  rewrite rotate_left_bit by (done || lia). case_decide as Hdec.
  - rewrite Z.land_spec, left_bits_bit by lia. destruct (decide (i < 64)) as [Hlt|Hge].
    + rewrite (bool_decide_eq_false_2 (64 - pos - nr <= i - (pos + nr) < 64 - pos) ), andb_false_r, andb_false_r by lia.
      rewrite (bool_decide_eq_false_2 (i < nr)) by lia. done.
    + rewrite (bool_decide_eq_false_2 (i < 64)), (bool_decide_eq_false_2 (i < nr)) by lia. done.
  - rewrite (bool_decide_eq_true_2 (i < 64)), Z.land_spec, left_bits_bit by lia. simpl.
    replace (i - (pos + nr) + 64) with (i + 64 - pos - nr) by lia. rewrite andb_comm. f_equal.
    repeat case_bool_decide; try done; lia.
Qed.

Lemma read_spec pos nr d : fits pos nr -> word d -> read pos nr d = (d / 2 ^ (64 - pos - nr)) mod 2 ^ nr.
Proof.
  intros Hf Hd. pose proof Hf as (Hp & Hn & Hs). apply Z.bits_inj'. intros i Hi. rewrite read_bit by done. case_bool_decide.
  - rewrite Z.mod_pow2_bits_low, Z.div_pow2_bits by lia. simpl. f_equal. lia.
  - by rewrite Z.mod_pow2_bits_high by lia.
Qed.

(** What is read is what was put; other fields keep their value. *)
Lemma read_compose pos nr v d : fits pos nr -> in_range nr v -> word d -> read pos nr (compose pos nr v d) = v.
Proof.
  intros Hf Hv Hd. pose proof Hf as (Hp & Hn & Hs).
  assert (word v) as Hw. { destruct Hv. split; [done|]. eapply Z.lt_le_trans; [done|]. apply Z.pow_le_mono_r; lia. }
  apply Z.bits_inj'. intros i Hi. rewrite read_bit, compose_bit by (done || lia || by apply compose_word).
  case_bool_decide as Hlt; simpl.
  - rewrite decide_True by lia. f_equal. lia.
  - symmetry. by apply (testbit_high v nr); [|lia].
Qed.

Lemma read_other pos nr pos' nr' v d : fits pos nr -> fits pos' nr' -> pos + nr <= pos' \/ pos' + nr' <= pos ->
  word v -> word d -> read pos nr (compose pos' nr' v d) = read pos nr d.
Proof.
  intros Hf Hf' Hdis Hv Hd. apply Z.bits_inj'. intros i Hi. rewrite !read_bit, compose_bit by (done || lia || by apply compose_word || (destruct Hf; lia)).
  case_bool_decide as Hlt; [|done]. simpl. rewrite decide_False; [done|]. destruct Hf, Hf'. lia.
Qed.

(** ** Tagged pointers (src/pepoch/atomic.rs) *)
Definition POS_AUX_BITS : Z := 0.
Definition NR_AUX_BITS : Z := 1.
Definition POS_DESC_BITS : Z := POS_AUX_BITS + NR_AUX_BITS.
Definition NR_DESC_BITS : Z := 1.
Definition POS_TID_BITS : Z := POS_DESC_BITS + NR_DESC_BITS.
Definition NR_TID_BITS : Z := 9.
Definition POS_HIGH_BITS : Z := POS_TID_BITS + NR_TID_BITS.
Definition NR_HIGH_BITS : Z := 11.

Definition aux_bits : Z := left_bits POS_AUX_BITS NR_AUX_BITS.
Definition desc_bits : Z := left_bits POS_DESC_BITS NR_DESC_BITS.
Definition tid_bits : Z := left_bits POS_TID_BITS NR_TID_BITS.
Definition high_bits : Z := left_bits POS_HIGH_BITS NR_HIGH_BITS.

Definition compose_aux_bit (v data : Z) : Z := compose POS_AUX_BITS NR_AUX_BITS v data.
Definition compose_desc_bit (v data : Z) : Z := compose POS_DESC_BITS NR_DESC_BITS v data.
Definition compose_tid (v data : Z) : Z := compose POS_TID_BITS NR_TID_BITS v data.
Definition compose_high_tag (v data : Z) : Z := compose POS_HIGH_BITS NR_HIGH_BITS v data.

(** [cut_as_high_tag_len]. *)
Definition cut_as_high_tag_len (raw : Z) : Z := Z.land raw (not64 (wrap 64 (Z.shiftl MAX NR_HIGH_BITS))).

(** A pointer as its parts: the tuple of [decompose_tag]. *)
Record PShared := mkP { p_aux : Z; p_desc : Z; p_tid : Z; p_high : Z; p_off : Z; p_low : Z }.

#[export] Instance PShared_eq_dec : EqDecision PShared.
Proof. solve_decision. Defined.

Section align.
(** [T::ALIGN] is [2 ^ al]. *)
Context (al : Z) (Hal : 0 <= al < 42).

Definition low_bits : Z := Z.shiftl 1 al - 1.

Definition compose_tag (data ltag : Z) : Z := Z.lor (Z.land data (not64 low_bits)) (Z.land ltag low_bits).

Definition decompose_tag (data : Z) : PShared :=
  mkP (read POS_AUX_BITS NR_AUX_BITS data) (read POS_DESC_BITS NR_DESC_BITS data)
    (read POS_TID_BITS NR_TID_BITS data) (read POS_HIGH_BITS NR_HIGH_BITS data)
    (Z.land (Z.land (Z.land (Z.land (Z.land data (not64 aux_bits)) (not64 desc_bits)) (not64 tid_bits)) (not64 high_bits)) (not64 low_bits))
    (Z.land data low_bits).

(** [ensure_aligned]. *)
Definition ensure_aligned (offset : Z) : bool := Z.land offset low_bits =? 0.

Lemma low_bits_bit i : 0 <= i -> Z.testbit low_bits i = bool_decide (i < al).
Proof.
  intros Hi. unfold low_bits. rewrite Z.shiftl_1_l. replace (2 ^ al - 1) with (Z.ones al) by (rewrite Z.ones_equiv; lia).
  case_bool_decide; [apply Z.ones_spec_low|apply Z.ones_spec_high]; lia.
Qed.

Lemma off_bit d i : word d -> 0 <= i -> Z.testbit (p_off (decompose_tag d)) i = bool_decide (al <= i < 42) && Z.testbit d i.
Proof.
  intros Hd Hi. cbn [decompose_tag p_off]. rewrite !Z.land_spec, !not64_bit by done.
  unfold aux_bits, desc_bits, tid_bits, high_bits, POS_HIGH_BITS, POS_TID_BITS, POS_DESC_BITS, POS_AUX_BITS,
    NR_HIGH_BITS, NR_TID_BITS, NR_DESC_BITS, NR_AUX_BITS.
  rewrite !left_bits_bit, low_bits_bit by lia.
  destruct (decide (64 <= i)); [rewrite (word_high d i) by done; by rewrite andb_false_r|].
  destruct (Z.testbit d i); simpl; [|by rewrite andb_false_r]. repeat case_bool_decide; try done; lia.
Qed.

Lemma low_bit d i : 0 <= i -> Z.testbit (p_low (decompose_tag d)) i = bool_decide (i < al) && Z.testbit d i.
Proof. intros Hi. cbn [decompose_tag p_low]. rewrite Z.land_spec, low_bits_bit by done. apply andb_comm. Qed.

(** Two words with the same parts are the same word: comparing pointers
    compares all their parts. *)
Lemma decompose_inj d d' : word d -> word d' -> decompose_tag d = decompose_tag d' -> d = d'.
Proof.
  intros Hd Hd' E. pose proof (f_equal p_aux E) as Ea. pose proof (f_equal p_desc E) as Ed. pose proof (f_equal p_tid E) as Et.
  pose proof (f_equal p_high E) as Eh. pose proof (f_equal p_off E) as Eo. pose proof (f_equal p_low E) as El.
  apply Z.bits_inj'. intros i Hi.
  assert (forall pos nr, fits pos nr -> 64 - pos - nr <= i < 64 - pos -> read pos nr d = read pos nr d' -> Z.testbit d i = Z.testbit d' i) as Hr.
  { intros pos nr Hf Hr Er. apply (f_equal (fun x => Z.testbit x (i + pos + nr - 64))) in Er. revert Er.
    rewrite !read_bit by (done || lia). rewrite bool_decide_eq_true_2 by lia. simpl.
    by replace (i + pos + nr - 64 + 64 - pos - nr) with i by lia. }
  destruct (decide (64 <= i)); [by rewrite !word_high|].
  destruct (decide (63 <= i)); [apply (Hr 0 1); [split_and!; lia|lia|done]|].
  destruct (decide (62 <= i)); [apply (Hr 1 1); [split_and!; lia|lia|done]|].
  destruct (decide (53 <= i)); [apply (Hr 2 9); [split_and!; lia|lia|done]|].
  destruct (decide (42 <= i)); [apply (Hr 11 11); [split_and!; lia|lia|done]|].
  destruct (decide (al <= i)).
  - apply (f_equal (fun x => Z.testbit x i)) in Eo. revert Eo. rewrite !off_bit, bool_decide_eq_true_2 by (done || lia). done.
  - apply (f_equal (fun x => Z.testbit x i)) in El. revert El. rewrite !low_bit, bool_decide_eq_true_2 by (done || lia). done.
Qed.

Lemma parts_compose pos nr v d : fits pos nr -> pos + nr <= 22 -> word v -> word d ->
  p_off (decompose_tag (compose pos nr v d)) = p_off (decompose_tag d) /\
  p_low (decompose_tag (compose pos nr v d)) = p_low (decompose_tag d).
Proof.
  intros Hf Hl Hv Hd. split; apply Z.bits_inj'; intros i Hi.
  - rewrite !off_bit by (done || by apply compose_word). case_bool_decide as Hr; [|done]. simpl.
    rewrite compose_bit, decide_False by (done || lia). done.
  - rewrite !low_bit by done. case_bool_decide as Hr; [|done]. simpl. rewrite compose_bit, decide_False by (done || lia). done.
Qed.

Definition set_aux (v : Z) (p : PShared) : PShared := mkP v (p_desc p) (p_tid p) (p_high p) (p_off p) (p_low p).
Definition set_desc (v : Z) (p : PShared) : PShared := mkP (p_aux p) v (p_tid p) (p_high p) (p_off p) (p_low p).
Definition set_tid (v : Z) (p : PShared) : PShared := mkP (p_aux p) (p_desc p) v (p_high p) (p_off p) (p_low p).
Definition set_high (v : Z) (p : PShared) : PShared := mkP (p_aux p) (p_desc p) (p_tid p) v (p_off p) (p_low p).
Definition set_low (v : Z) (p : PShared) : PShared := mkP (p_aux p) (p_desc p) (p_tid p) (p_high p) (p_off p) v.

Lemma word_small nr v : 0 <= nr <= 64 -> in_range nr v -> word v.
Proof. intros Hn [H1 H2]. split; [done|]. eapply Z.lt_le_trans; [done|]. apply Z.pow_le_mono_r; lia. Qed.

(** The words of [with_aux_bit], [with_desc_bit], [with_tid] and
    [with_high_tag] have that part replaced and all others kept. *)
Theorem with_parts d v : word d ->
  (in_range 1 v -> decompose_tag (compose_aux_bit v d) = set_aux v (decompose_tag d)) /\
  (in_range 1 v -> decompose_tag (compose_desc_bit v d) = set_desc v (decompose_tag d)) /\
  (in_range 9 v -> decompose_tag (compose_tid v d) = set_tid v (decompose_tag d)) /\
  (in_range 11 v -> decompose_tag (compose_high_tag v d) = set_high v (decompose_tag d)).
Proof.
  intros Hd. unfold compose_aux_bit, compose_desc_bit, compose_tid, compose_high_tag.
  split_and!; intros Hv.
  all: (assert (word v) as Hw by (eapply word_small; [|exact Hv]; lia)).
  all: match goal with |- decompose_tag (compose ?pos ?nr _ _) = _ =>
    assert (fits pos nr) as Hf by solve_fits;
    destruct (parts_compose pos nr v d Hf ltac:(vm_compute; congruence) Hw Hd) as [Eo El];
    pose proof (read_compose pos nr v d Hf Hv Hd) as Er end.
  all: unfold decompose_tag at 1, set_aux, set_desc, set_tid, set_high;
    f_equal; try exact Eo; try exact El; try exact Er;
    apply read_other; first [exact Hw|exact Hd|solve_fits|left; vm_compute; congruence|right; vm_compute; congruence].
Qed.

Lemma with_tag_parts d v : word d -> word v -> decompose_tag (compose_tag d v) = set_low (Z.land v low_bits) (decompose_tag d).
Proof.
  intros Hd Hv.
  assert (forall i, 0 <= i -> Z.testbit (compose_tag d v) i = if decide (i < al) then Z.testbit v i else Z.testbit d i) as Hb.
  { intros i Hi. unfold compose_tag. rewrite Z.lor_spec, !Z.land_spec, not64_bit, low_bits_bit by done.
    destruct (decide (64 <= i)).
    - rewrite decide_False by lia. rewrite !word_high by done. done.
    - rewrite (bool_decide_eq_true_2 (i < 64)) by lia. case_decide.
      + rewrite bool_decide_eq_true_2 by done. simpl. by rewrite andb_false_r, andb_true_r.
      + rewrite bool_decide_eq_false_2 by done. simpl. by rewrite andb_true_r, andb_false_r, orb_false_r. }
  assert (word (compose_tag d v)) as Hw.
  { apply word_bits; [unfold compose_tag; apply Z.lor_nonneg; split; apply Z.land_nonneg; left; [apply Hd|apply Hv]|].
    intros i Hi. rewrite Hb by lia. rewrite decide_False by lia. by apply word_high. }
  assert (forall pos nr, fits pos nr -> pos + nr <= 22 -> read pos nr (compose_tag d v) = read pos nr d) as Hr.
  { intros pos nr Hf Hl. apply Z.bits_inj'. intros i Hi. rewrite !read_bit by done. case_bool_decide; [|done]. simpl.
    destruct Hf. rewrite Hb, decide_False by lia. done. }
  unfold decompose_tag at 1, set_low. f_equal; [apply Hr; [solve_fits|vm_compute; congruence]..| |].
  - change (p_off (decompose_tag (compose_tag d v)) = p_off (decompose_tag d)). apply Z.bits_inj'. intros i Hi.
    rewrite !off_bit by done. case_bool_decide; [|done]. simpl. rewrite Hb, decide_False by lia. done.
  - apply Z.bits_inj'. intros i Hi. rewrite !Z.land_spec, low_bits_bit, Hb by done. case_decide.
    + done.
    + by rewrite bool_decide_eq_false_2, !andb_false_r.
Qed.
End align.

(** ** Checkpoint words of the detectable compare-and-swap *)
Definition POS_PARITY_BITS : Z := 0.
Definition NR_PARITY_BITS : Z := 1.
Definition POS_FAIL_BITS : Z := POS_PARITY_BITS + NR_PARITY_BITS.
Definition NR_FAIL_BITS : Z := 1.
Definition parity_bits : Z := left_bits POS_PARITY_BITS NR_PARITY_BITS.
Definition fail_bits : Z := left_bits POS_FAIL_BITS NR_FAIL_BITS.

Definition encode (parity fail : bool) (ts : Z) : Z :=
  let p := Z.land parity_bits (rotate_right (Z.b2z parity) (POS_PARITY_BITS + NR_PARITY_BITS)) in
  let f := Z.land fail_bits (rotate_right (Z.b2z fail) (POS_FAIL_BITS + NR_FAIL_BITS)) in
  let t := Z.land (Z.land (not64 parity_bits) (not64 fail_bits)) ts in
  Z.lor (Z.lor p f) t.

Definition decode (x : Z) : bool * bool * Z :=
  (negb (rotate_left (Z.land x parity_bits) (POS_PARITY_BITS + NR_PARITY_BITS) =? 0),
   negb (rotate_left (Z.land x fail_bits) (POS_FAIL_BITS + NR_FAIL_BITS) =? 0),
   Z.land (not64 (Z.lor parity_bits fail_bits)) x).

(** What [decode] yields, as a record. *)
Record CasTs := mkCasTs { ct_parity : bool; ct_fail : bool; ct_time : Z }.

(** Flags and timestamps of 62 bits survive the encoding. *)
Theorem timestamp_roundtrip p f ts : in_range 62 ts -> decode (encode p f ts) = (p, f, ts).
Proof.
  intros Hts. unfold in_range in Hts.
  assert (encode p f ts = ts + 2 ^ 62 * (Z.b2z f + 2 * Z.b2z p)) as E.
  { unfold encode.
    replace (Z.land (Z.land (not64 parity_bits) (not64 fail_bits)) ts) with ts.
    - transitivity (Z.lor ts (Z.shiftl (Z.b2z f + 2 * Z.b2z p) 62)); [|apply lor_field; lia].
      rewrite Z.lor_comm. f_equal. by destruct p, f.
    - change (Z.land (not64 parity_bits) (not64 fail_bits)) with (Z.ones 62). rewrite Z.land_comm, Z.land_ones by lia.
      symmetry. by apply Z.mod_small. }
  unfold decode.
  assert (word (encode p f ts)) as Hw. { rewrite E. unfold word, in_range. destruct p, f; simpl Z.b2z; lia. }
  change (rotate_left (Z.land (encode p f ts) parity_bits) (POS_PARITY_BITS + NR_PARITY_BITS)) with (read 0 1 (encode p f ts)).
  change (rotate_left (Z.land (encode p f ts) fail_bits) (POS_FAIL_BITS + NR_FAIL_BITS)) with (read 1 1 (encode p f ts)).
  change (not64 (Z.lor parity_bits fail_bits)) with (Z.ones 62). rewrite Z.land_comm, Z.land_ones by lia.
  rewrite !read_spec by (done || solve_fits). rewrite E.
  change (64 - 0 - 1) with 63. change (64 - 1 - 1) with 62. f_equal; [f_equal|].
  - replace ((ts + 2 ^ 62 * (Z.b2z f + 2 * Z.b2z p)) / 2 ^ 63 mod 2 ^ 1) with (Z.b2z p); [by destruct p|].
    destruct p, f; simpl Z.b2z; Z.div_mod_to_equations; lia.
  - replace ((ts + 2 ^ 62 * (Z.b2z f + 2 * Z.b2z p)) / 2 ^ 62 mod 2 ^ 1) with (Z.b2z f); [by destruct f|].
    destruct p, f; simpl Z.b2z; Z.div_mod_to_equations; lia.
  - destruct p, f; simpl Z.b2z; Z.div_mod_to_equations; lia.
Qed.

(** ** Time and handles (src/ploc/common.rs)

    [rdtscp] reads a counter that grows; timestamps are unbounded here (a 62-bit
    count of cycles lasts for decades). *)
Class Clock := { rdtscp : nat -> Z; init_time : Z; global_max_time : Z }.

Class ClockLaws `{Clock} : Prop := {
  rdtscp_grows : forall m n, (m < n)%nat -> rdtscp m < rdtscp n;
  rdtscp_init : forall n, init_time < rdtscp n;
  global_max_nonneg : 0 <= global_max_time;
}.

(** [ExecInfo::set_info]: time goes on after the last recorded one. *)
Definition set_info (cas_max chk_max : Z) : Z := Z.max cas_max chk_max.

(** [ExecInfo::exec_time] at the [n]-th reading of the clock. *)
Definition exec_time_at `{Clock} (n : nat) : Z := rdtscp n - init_time + global_max_time.

(** What the thread keeps in its [Handle], and how often the clock was read. *)
Record Handle := mkHandle { h_rec : bool; local_max_time : Z; h_now : nat }.

(** [Handle::new]. *)
Definition handle_new (now : nat) : Handle := mkHandle true 0 now.

Class HasHandle (S : Type) := { get_h : S -> Handle; set_h : Handle -> S -> S }.
Class HandleLaws (S : Type) `{HasHandle S} : Prop := {
  get_set_h : forall h s, get_h (set_h h s) = h;
}.

(** A part of the state, apart from the handle. *)
Record lens (S A : Type) := mkLens { lget : S -> A; lput : A -> S -> S }.
Arguments mkLens {S A}.
Arguments lget {S A}.
Arguments lput {S A}.

Record lens_ok {S A} `{HasHandle S} (l : lens S A) : Prop := {
  lget_put : forall a s, lget l (lput l a s) = a;
  lget_h : forall h s, lget l (set_h h s) = lget l s;
  h_lput : forall a s, get_h (lput l a s) = get_h s;
}.

Section handles.
Context {S : Type} `{HasHandle S} `{Clock}.

Definition upd_h (f : Handle -> Handle) (s : S) : S := set_h (f (get_h s)) s.

Definition rec_load : M S bool := gets (fun s => h_rec (get_h s)).
Definition rec_store (b : bool) : M S unit := modify (upd_h (fun h => mkHandle b (local_max_time h) (h_now h))).
Definition local_load : M S Z := gets (fun s => local_max_time (get_h s)).
Definition local_store (t : Z) : M S unit := modify (upd_h (fun h => mkHandle (h_rec h) t (h_now h))).
Definition exec_time : M S Z := fun s =>
  Done (upd_h (fun h => mkHandle (h_rec h) (local_max_time h) (Datatypes.S (h_now h))) s, exec_time_at (h_now (get_h s))).

(** The thread starts again. *)
Definition reboot (s : S) : S := upd_h (fun h => handle_new (h_now h)) s.
End handles.

Section time.
Context `{Clock} `{!ClockLaws}.

Lemma exec_time_grows m n : (m < n)%nat -> exec_time_at m < exec_time_at n.
Proof. intros Hmn. unfold exec_time_at. pose proof (rdtscp_grows m n Hmn). lia. Qed.

Lemma exec_time_mono m n : (m <= n)%nat -> exec_time_at m <= exec_time_at n.
Proof.
  intros Hmn. destruct (decide (m = n)) as [->|]; [lia|]. pose proof (exec_time_grows m n ltac:(lia)). lia.
Qed.

Lemma exec_time_pos n : global_max_time < exec_time_at n.
Proof. unfold exec_time_at. pose proof (rdtscp_init n). lia. Qed.
End time.

(** A clock that ticks once per reading. *)
Definition counting : Clock := {| rdtscp n := Z.of_nat n + 1; init_time := 0; global_max_time := 0 |}.
Lemma counting_laws : @ClockLaws counting.
Proof. split; intros; simpl; lia. Qed.
