(* ===== verification/MmtCheckpoint.v ===== *)
(** * MmtCheckpoint: checkpoints of memento (extern/memento/src/ploc/checkpoint.rs)

    A checkpoint remembers the result of a computation across crashes of the
    thread: two slots with timestamps, of which the older one is overwritten.
    A thread that starts again replays: as long as it finds checkpoints that are
    newer than what it has seen, it takes their values; at the first one that
    is not, it leaves recovery. *)

From Stdlib Require Import ZArith Lia Bool.
From stdpp Require Import base numbers option functions sets list.
From S2P Require Import Prelude CrashLogic MmtBase.
Local Open Scope Z_scope.
Local Open Scope crash_scope.

(** ** The memento *)
Record Checkpoint (T : Type) := mkChk { saved0 : T * Z; saved1 : T * Z }.
Arguments mkChk {T}.
Arguments saved0 {T}.
Arguments saved1 {T}.

Section checkpoint.
Context {S : Type} `{HH : HasHandle S} `{CK : Clock} {T : Type} `{IT : Inhabited T}.

(** [Checkpoint::default] and [Checkpoint::clear]. *)
Definition chk_default : Checkpoint T := mkChk (inhabitant, 0) (inhabitant, 0).
Definition clear (l : lens S (Checkpoint T)) : P S unit := act (modify (lput l chk_default)).

Definition slot (c : Checkpoint T) (idx : bool) : T * Z := if idx then saved1 c else saved0 c.
Definition put_slot (idx : bool) (x : T * Z) (c : Checkpoint T) : Checkpoint T :=
  if idx then mkChk (saved0 c) x else mkChk x (saved1 c).

(** [stale_latest_idx]: the indices 0 and 1 as booleans. *)
Definition stale_latest_idx (c : Checkpoint T) : bool * bool :=
  if (saved0 c).2 <? (saved1 c).2 then (false, true) else (true, false).

Definition is_valid (c : Checkpoint T) (idx : bool) (local : Z) : bool := local <? (slot c idx).2.

Definition peek (l : lens S (Checkpoint T)) : P S (option T) :=
  c <- act (gets (lget l)) ;;
  let latest := snd (stale_latest_idx c) in
  local <- act local_load ;;
  if is_valid c latest local then
    act (local_store (slot c latest).2) ;;;
    PRet (Some (slot c latest).1)
  else PRet None.

(** The normal run of [Checkpoint::checkpoint] after the value is computed.
    [line] tells that a slot fits in a cache line. *)
Definition save (line : bool) (l : lens S (Checkpoint T)) (new : T) : P S T :=
  stale <- act (gets (fun s => fst (stale_latest_idx (lget l s)))) ;;
  t <- act exec_time ;;
  (if line then act (modify (fun s => lput l (put_slot stale (new, t) (lget l s)) s))
   else
     act (modify (fun s => lput l (put_slot stale (new, (slot (lget l s) stale).2) (lget l s)) s)) ;;;
     act (modify (fun s => lput l (put_slot stale ((slot (lget l s) stale).1, t) (lget l s)) s))) ;;;
  act (local_store t) ;;;
  PRet new.

Definition checkpoint (line : bool) (l : lens S (Checkpoint T)) (val_func : P S T) : P S T :=
  rec <- act rec_load ;;
  replay <- (if (rec : bool) then
               v <- peek l ;;
               match v with
               | Some v => PRet (Some v)
               | None => act (rec_store false) ;;; PRet None
               end
             else PRet None) ;;
  match replay with
  | Some v => PRet v
  | None => new <- val_func ;; save line l new
  end.

(** [Collectable::filter]: the largest timestamp seen. *)
Definition filter_time (c : Checkpoint T) (chk_max_time : Z) : Z :=
  let t := (slot c (snd (stale_latest_idx c))).2 in if chk_max_time <? t then t else chk_max_time.

(** ** What a checkpoint holds *)
Definition latest (c : Checkpoint T) : T * Z := slot c (snd (stale_latest_idx c)).

Lemma latest_newest c : (saved0 c).2 <= (latest c).2 /\ (saved1 c).2 <= (latest c).2.
Proof. unfold latest, stale_latest_idx. destruct (Z.ltb_spec (saved0 c).2 (saved1 c).2); simpl; lia. Qed.

Lemma latest_put c x : (latest c).2 < x.2 -> latest (put_slot (fst (stale_latest_idx c)) x c) = x.
Proof.
  intros Hx. pose proof (latest_newest c) as [H0 H1]. unfold stale_latest_idx.
  destruct (Z.ltb_spec (saved0 c).2 (saved1 c).2) as [Hl|Hl]; cbn [fst put_slot]; unfold latest, stale_latest_idx; cbn [saved0 saved1].
  - destruct (Z.ltb_spec x.2 (saved1 c).2); [lia|done].
  - destruct (Z.ltb_spec (saved0 c).2 x.2); [done|lia].
Qed.

Lemma slot_put idx x c : slot (put_slot idx x c) idx = x.
Proof. by destruct idx. Qed.
Lemma put_put_slot idx x y c : put_slot idx x (put_slot idx y c) = put_slot idx x c.
Proof. by destruct idx. Qed.

(** Writing the value alone does not make the stale slot the latest one. *)
Lemma latest_put_value c v : let stale := fst (stale_latest_idx c) in
  stale_latest_idx (put_slot stale (v, (slot c stale).2) c) = stale_latest_idx c /\
  latest (put_slot stale (v, (slot c stale).2) c) = latest c.
Proof.
  unfold latest, stale_latest_idx. destruct (Z.ltb_spec (saved0 c).2 (saved1 c).2) as [Hl|Hl]; cbn [fst snd slot put_slot saved0 saved1];
    rewrite ?(proj2 (Z.ltb_lt _ _) Hl); try done.
  all: destruct (Z.ltb_spec (saved0 c).2 (saved1 c).2); try lia; done.
Qed.
End checkpoint.

(** ** Rules *)

(** A thread's view of the memento and its handle. *)
Record view (T : Type) := mkView { v_rec : bool; v_local : Z; v_chk : Checkpoint T }.
Arguments mkView {T}.
Arguments v_rec {T}.
Arguments v_local {T}.
Arguments v_chk {T}.

Section rules.
Context {S : Type} `{HH : HasHandle S} `{HL : !HandleLaws S} `{CK : Clock} `{CL : !ClockLaws} {T : Type} `{IT : Inhabited T}.
Context (R G : S -> S -> Prop) (D : Prop) (line : bool) (l : lens S (Checkpoint T)) (Hl : lens_ok l).

Definition view_of (s : S) : view T := mkView (h_rec (get_h s)) (local_max_time (get_h s)) (lget l s).
Definition now (s : S) : nat := h_now (get_h s).
Definition time (s : S) : Z := exec_time_at (now s).

(** Other threads leave the handle and the memento alone; time may pass. *)
Hypothesis R_view : forall s s', R s s' -> view_of s' = view_of s /\ (now s <= now s')%nat.

(** The thread may always use its handle and its memento. *)
Record own_accesses : Prop := {
  G_refl : forall s, G s s;
  G_h : forall h s, G s (set_h h s);
  G_put : forall c s, G s (lput l c s);
}.
Hypothesis HG : own_accesses.

(** Assertions about the rest of the state. *)
Record stable (J : S -> Prop) : Prop := {
  st_rely : forall s s', J s -> R s s' -> J s';
  st_h : forall h s, J s -> J (set_h h s);
  st_put : forall c s, J s -> J (lput l c s);
}.

Lemma view_set_h h s : view_of (set_h h s) = mkView (h_rec h) (local_max_time h) (lget l s).
Proof. unfold view_of. by rewrite get_set_h, (lget_h l Hl). Qed.
Lemma view_put c s : view_of (lput l c s) = mkView (v_rec (view_of s)) (v_local (view_of s)) c.
Proof. unfold view_of. by rewrite (h_lput l Hl), (lget_put l Hl). Qed.
Lemma now_set_h h s : now (set_h h s) = h_now h.
Proof. unfold now. by rewrite get_set_h. Qed.
Lemma now_put c s : now (lput l c s) = now s.
Proof. unfold now. by rewrite (h_lput l Hl). Qed.

(** One access that does not fail, with interference before it. *)
Lemma cwp_step {A X} (m : M S X) (k : X -> P S A) Q (C : S -> Prop) s :
  C s -> (forall s1, R s s1 -> view_of s1 = view_of s -> (now s <= now s1)%nat -> awp D m (fun s2 x => G s1 s2 /\ cwp R G D (k x) Q C s2) s1) ->
  cwp R G D (pbind (act m) k) Q C s.
Proof. intros Hc H. split; [done|]. intros s1 HR. destruct (R_view s s1 HR). by apply H. Qed.

(** Before and after the value is recorded. *)
Definition open_chk (c : Checkpoint T) (Cb : S -> Prop) (s : S) : Prop := Cb s /\ latest (lget l s) = latest c.
Definition saved_chk (t0 : Z) (J : T -> S -> Prop) (v : T) (s : S) : Prop :=
  J v s /\ exists t, latest (lget l s) = (v, t) /\ t0 <= t < time s.
Definition chk_crash (n0 : nat) (c : Checkpoint T) (Cb : S -> Prop) (J : T -> S -> Prop) (s : S) : Prop :=
  (n0 <= now s)%nat /\ (open_chk c Cb s \/ exists v, saved_chk (exec_time_at n0) J v s).
Definition chk_done (n0 : nat) (J : T -> S -> Prop) (s : S) (v : T) : Prop :=
  J v s /\ exists c t, view_of s = mkView false t c /\ latest c = (v, t) /\ exec_time_at n0 <= t < time s /\ (n0 <= now s)%nat.

(** An assertion with what the thread knows. *)
Definition knows (J : S -> Prop) (v : view T) (n : nat) (s : S) : Prop := J s /\ view_of s = v /\ (n <= now s)%nat.

Lemma knows_step {A X} J v n (m : M S X) (k : X -> P S A) Q (C : S -> Prop) s :
  stable J -> knows J v n s -> C s -> (forall s1, knows J v n s1 -> awp D m (fun s2 x => G s1 s2 /\ cwp R G D (k x) Q C s2) s1) ->
  cwp R G D (pbind (act m) k) Q C s.
Proof.
  intros HJ (Hs & Hv & Hn) Hc H. apply cwp_step; [done|]. intros s1 HR Ev Hn1. apply H.
  split_and!; [by eapply st_rely|by rewrite Ev|lia].
Qed.

Lemma knows_act {X} J v n (m : M S X) Q (C : S -> Prop) s :
  stable J -> knows J v n s -> C s -> (forall s1, knows J v n s1 -> awp D m (fun s2 x => G s1 s2 /\ C s2 /\ Q s2 x) s1) -> cwp R G D (act m) Q C s.
Proof.
  intros HJ (Hs & Hv & Hn) Hc H. apply cwp_act; [done|]. intros s1 HR. destruct (R_view s s1 HR) as [Ev Hn1]. apply H.
  split_and!; [by eapply st_rely|by rewrite Ev|lia].
Qed.

Lemma knows_put J v n c s : stable J -> knows J v n s -> knows J (mkView (v_rec v) (v_local v) c) n (lput l c s).
Proof. intros HJ (Hs & <- & Hn). split_and!; [by apply st_put|apply view_put|by rewrite now_put]. Qed.

Lemma knows_h J v n h n' s : stable J -> knows J v n s -> (n' <= h_now h)%nat -> knows J (mkView (h_rec h) (local_max_time h) (v_chk v)) n' (set_h h s).
Proof. intros HJ (Hs & <- & Hn) Hh. split_and!; [by apply st_h|apply view_set_h|by rewrite now_set_h]. Qed.

Lemma knows_chk J v n s : knows J v n s -> lget l s = v_chk v.
Proof. by intros (_ & <- & _). Qed.

Lemma saved_crash n0 c Cb J new t v n s : knows (J new) v n s -> latest (v_chk v) = (new, t) ->
  exec_time_at n0 <= t < exec_time_at n -> (n0 <= n)%nat -> chk_crash n0 c Cb J s.
Proof.
  intros (Hs & <- & Hn) Hlt [H0 H1] Hn0. split; [lia|]. right. exists new. split; [done|]. exists t. split; [done|].
  split; [done|]. eapply Z.lt_le_trans; [done|]. by apply exec_time_mono.
Qed.

(** The slot is written; only the handle is left to update. *)
Lemma cwp_saved n0 c Cb J new t L c' n s : stable (J new) -> knows (J new) (mkView false L c') n s -> latest c' = (new, t) ->
  exec_time_at n0 <= t < exec_time_at n -> (n0 <= n)%nat ->
  cwp R G D (act (local_store t) ;;; PRet new) (chk_done n0 J) (chk_crash n0 c Cb J) s.
Proof.
  intros HJ Hk Hc Ht Hn. eapply knows_step; [done|exact Hk|by eapply saved_crash|]. intros s1 Hk1. apply awp_modify. split; [by apply G_h|].
  assert (knows (J new) (mkView false t c') n (upd_h (fun h => mkHandle (h_rec h) t (h_now h)) s1)) as Hk2.
  { destruct Hk1 as (H1 & E1 & Hn1). unfold upd_h. split_and!; [by apply st_h| |by rewrite now_set_h].
    rewrite view_set_h. cbn [h_rec local_max_time]. by injection E1 as -> _ ->. }
  apply cwp_ret; [by eapply saved_crash|]. destruct Hk2 as (H2 & E2 & Hn2). split; [done|]. exists c', t.
  split_and!; [done|done|lia| |lia]. eapply Z.lt_le_trans; [apply Ht|]. by apply exec_time_mono.
Qed.

Lemma cwp_save n0 c L Cb J new s :
  stable (J new) -> (forall s, J new s -> Cb s) -> knows (J new) (mkView false L c) n0 s -> (latest c).2 < exec_time_at n0 ->
  cwp R G D (save line l new) (chk_done n0 J) (chk_crash n0 c Cb J) s.
Proof.
  intros HJ HCb Hk Ht.
  assert (forall v n s1, knows (J new) v n s1 -> (n0 <= n)%nat -> latest (v_chk v) = latest c -> chk_crash n0 c Cb J s1) as Hopen.
  { intros v n s1 (H1 & <- & Hn1) Hn0 Hl1. split; [lia|]. left. split; [by apply HCb|done]. }
  unfold save. eapply knows_step; [done|exact Hk|by eapply Hopen|]. intros s1 Hk1. apply awp_gets. split; [by apply G_refl|].
  rewrite (knows_chk _ _ _ _ Hk1). cbn [v_chk]. set (stale := fst (stale_latest_idx c)).
  eapply knows_step; [done|exact Hk1|by eapply Hopen|]. intros s2 Hk2. unfold exec_time, awp.
  set (t := exec_time_at (h_now (get_h s2))). set (n := Datatypes.S (now s2)).
  assert (exec_time_at n0 <= t < exec_time_at n) as Hnt.
  { split; [apply exec_time_mono; apply Hk2|apply exec_time_grows; unfold n, now; lia]. }
  assert (n0 <= n)%nat as Hn by (destruct Hk2 as (_ & _ & ?); unfold n; lia).
  assert (latest (put_slot stale (new, t) c) = (new, t)) as Hlat by (apply latest_put; simpl; lia).
  assert (knows (J new) (mkView false L c) n (upd_h (fun h => mkHandle (h_rec h) (local_max_time h) (Datatypes.S (h_now h))) s2)) as Hk3.
  { destruct Hk2 as (H2 & E2 & Hn2). unfold upd_h. split_and!; [by apply st_h| |rewrite now_set_h; done].
    rewrite view_set_h. rewrite <- E2. done. }
  split; [by apply G_h|]. destruct line.
  - eapply knows_step; [done|exact Hk3|by eapply Hopen|]. intros s4 Hk4. apply awp_modify. split; [by apply G_put|]. rewrite (knows_chk _ _ _ _ Hk4).
    eapply cwp_saved; [done|by apply (knows_put _ (mkView false L c))|exact Hlat|done|done].
  - destruct (latest_put_value c new) as [Hidx Hv]. apply cwp_bind.
    eapply knows_step; [done|exact Hk3|by eapply Hopen|]. intros s4 Hk4. apply awp_modify. split; [by apply G_put|]. rewrite (knows_chk _ _ _ _ Hk4).
    apply (knows_put _ _ _ (put_slot stale (new, (slot c stale).2) c)) in Hk4; [|done].
    eapply knows_act; [done|exact Hk4|by eapply Hopen|]. intros s5 Hk5. apply awp_modify. split; [by apply G_put|]. rewrite (knows_chk _ _ _ _ Hk5). cbn [v_chk].
    rewrite slot_put. cbn [fst]. rewrite put_put_slot.
    apply (knows_put _ _ _ (put_slot stale (new, t) c)) in Hk5; [|done]. split; [by eapply saved_crash|].
    eapply cwp_saved; [done|exact Hk5|exact Hlat|done|done].
Qed.

(** [peek] finds the latest value when it is newer than what was seen. *)
Lemma cwp_peek J L c n Q (C : S -> Prop) s : stable J -> knows J (mkView true L c) n s ->
  (forall s1 L', knows J (mkView true L' c) n s1 -> C s1) ->
  (if decide (L < (latest c).2) then forall s1, knows J (mkView true (latest c).2 c) n s1 -> Q s1 (Some (latest c).1)
   else forall s1, knows J (mkView true L c) n s1 -> Q s1 None) ->
  cwp R G D (peek l) Q C s.
Proof.
  intros HJ Hk HC HQ. unfold peek. eapply knows_step; [done|exact Hk|by eapply HC|]. intros s1 Hk1. apply awp_gets. split; [by apply G_refl|].
  rewrite (knows_chk _ _ _ _ Hk1). cbn [v_chk].
  eapply knows_step; [done|exact Hk1|by eapply HC|]. intros s2 Hk2. apply awp_gets. split; [by apply G_refl|].
  assert (local_max_time (get_h s2) = L) as EL by (destruct Hk2 as (_ & E & _); by injection E).
  rewrite EL. unfold is_valid. change (slot c (stale_latest_idx c).2) with (latest c).
  destruct (Z.ltb_spec L (latest c).2) as [Hlt|Hge].
  - rewrite decide_True in HQ by done. eapply knows_step; [done|exact Hk2|by eapply HC|]. intros s3 Hk3. apply awp_modify. split; [by apply G_h|].
    assert (knows J (mkView true (latest c).2 c) n (upd_h (fun h => mkHandle (h_rec h) (latest c).2 (h_now h)) s3)) as Hk4.
    { destruct Hk3 as (H3 & E3 & Hn3). unfold upd_h. split_and!; [by apply st_h| |by rewrite now_set_h].
      rewrite view_set_h. cbn [h_rec local_max_time]. by injection E3 as -> _ ->. }
    apply cwp_ret; [by eapply HC|by apply HQ].
  - rewrite decide_False in HQ by lia. apply cwp_ret; [by eapply HC|by apply HQ].
Qed.

Lemma knows_rec J v n s : knows J v n s -> h_rec (get_h s) = v_rec v.
Proof. by intros (_ & <- & _). Qed.

(** In recovery, a newer checkpoint is replayed without computing anything. *)
Lemma cwp_replay J L c n val_func s : stable J -> knows J (mkView true L c) n s -> L < (latest c).2 ->
  cwp R G D (checkpoint line l val_func) (fun s' v => v = (latest c).1 /\ knows J (mkView true (latest c).2 c) n s')
    (fun s' => exists L', knows J (mkView true L' c) n s') s.
Proof.
  intros HJ Hk Hlt. unfold checkpoint. eapply knows_step; [done|exact Hk|by exists L|]. intros s1 Hk1. apply awp_gets. split; [by apply G_refl|].
  rewrite (knows_rec _ _ _ _ Hk1). cbn [v_rec]. apply cwp_bind, cwp_bind.
  eapply cwp_peek; [done|exact Hk1|by eauto|]. rewrite decide_True by done. intros s2 Hk2.
  apply cwp_ret; [by eauto|]. apply cwp_ret; [by eauto|done].
Qed.

(** Otherwise the value is computed and recorded, and the thread is not in
    recovery any more. *)
Lemma cwp_checkpoint n0 rec L c Cb J J' val_func s :
  stable J -> (forall v, stable (J' v)) -> (forall s, J s -> Cb s) -> (forall v s, J' v s -> Cb s) ->
  (forall n s1, (n0 <= n)%nat -> knows J (mkView false L c) n s1 ->
     cwp R G D val_func (fun s2 v => knows (J' v) (mkView false L c) n s2) (knows Cb (mkView false L c) n) s1) ->
  knows J (mkView rec L c) n0 s -> (rec = true -> (latest c).2 <= L) -> (latest c).2 < exec_time_at n0 ->
  cwp R G D (checkpoint line l val_func) (chk_done n0 J') (chk_crash n0 c Cb J') s.
Proof.
  intros HJ HJ' HCb HCb' Hval Hk Hrec Ht.
  assert (forall rec' L' s1, knows J (mkView rec' L' c) n0 s1 -> chk_crash n0 c Cb J' s1) as Hcr.
  { intros rec' L' s1 (H1 & E1 & Hn1). split; [lia|]. left. split; [by apply HCb|]. by injection E1 as _ _ ->. }
  assert (forall s1, knows J (mkView false L c) n0 s1 ->
    cwp R G D (new <- val_func ;; save line l new) (chk_done n0 J') (chk_crash n0 c Cb J') s1) as Hrun.
  { intros s1 Hk1. apply cwp_bind. eapply cwp_conseq; [by apply (Hval n0)| |].
    - intros s2 v Hk2. apply (cwp_save n0 c L Cb J' v); [apply HJ'|apply HCb'|done|done].
    - intros s2 (H2 & E2 & Hn2). split; [lia|]. left. split; [done|]. by injection E2 as _ _ ->. }
  unfold checkpoint. eapply knows_step; [done|exact Hk|by eapply Hcr|]. intros s1 Hk1. apply awp_gets. split; [by apply G_refl|].
  rewrite (knows_rec _ _ _ _ Hk1). cbn [v_rec]. destruct rec; [|by apply Hrun].
  apply cwp_bind, cwp_bind. eapply cwp_peek; [done|exact Hk1|by eauto|]. rewrite decide_False by (specialize (Hrec eq_refl); lia).
  intros s2 Hk2. eapply knows_step; [done|exact Hk2|by eapply Hcr|]. intros s3 Hk3. apply awp_modify. split; [by apply G_h|].
  assert (knows J (mkView false L c) n0 (upd_h (fun h => mkHandle false (local_max_time h) (h_now h)) s3)) as Hk4.
  { destruct Hk3 as (H3 & E3 & Hn3). unfold upd_h. split_and!; [by apply st_h| |by rewrite now_set_h].
    rewrite view_set_h. cbn [h_rec local_max_time]. by injection E3 as _ -> ->. }
  apply cwp_ret; [by eapply Hcr|]. by apply Hrun.
Qed.
End rules.

(** ** Replay *)

(** A session of [n] checkpoints, each of which is reported when it is passed
    (the shape of the programs that use checkpoints, such as the test in
    checkpoint.rs). What is checkpointed depends on the results so far and on an
    environment that other threads change at will. *)
Section replay.
Context {T E : Type} `{IT : Inhabited T} `{CK : Clock} `{CL : !ClockLaws} (line : bool) (g : nat -> list T -> E -> T).

Record St := mkSt { ses_h : Handle; ses_chk : nat -> Checkpoint T; ses_env : E; ses_out : list (nat * T) }.

#[export] Instance St_handle : HasHandle St := {| get_h := ses_h; set_h h s := mkSt h (ses_chk s) (ses_env s) (ses_out s) |}.
#[export] Instance St_handle_laws : HandleLaws St.
Proof. by split. Qed.

Definition chk_at (k : nat) : lens St (Checkpoint T) :=
  mkLens (fun s => ses_chk s k) (fun c s => mkSt (ses_h s) (<[k := c]> (ses_chk s)) (ses_env s) (ses_out s)).

Lemma chk_at_ok k : lens_ok (chk_at k).
Proof. split; try done. intros a s. simpl. apply fn_lookup_insert. Qed.

Definition report (k : nat) (v : T) : M St unit := modify (fun s => mkSt (ses_h s) (ses_chk s) (ses_env s) (ses_out s ++ [(k, v)])).

Fixpoint session (k n : nat) (vs : list T) : P St (list T) :=
  match n with
  | O => PRet vs
  | Datatypes.S n =>
      v <- checkpoint line (chk_at k) (act (gets (fun s => g k vs (ses_env s)))) ;;
      act (report k v) ;;;
      session (Datatypes.S k) n (vs ++ [v])
  end.

(** Other threads change the environment; time passes. *)
Definition others (s s' : St) : Prop :=
  h_rec (ses_h s') = h_rec (ses_h s) /\ local_max_time (ses_h s') = local_max_time (ses_h s) /\ (h_now (ses_h s) <= h_now (ses_h s'))%nat /\
  ses_chk s' = ses_chk s /\ ses_out s' = ses_out s.

(** This thread may do what it likes to the others. *)
Definition anyhow (s s' : St) : Prop := True.

Lemma anyhow_ok k : own_accesses anyhow (chk_at k).
Proof. by split. Qed.

(** The checkpoints that were passed hold [vs], with growing times [ts]; the
    others are as after [clear]. What was reported agrees. *)
Record passed (vs : list T) (ts : list Z) (s : St) : Prop := {
  ps_len : length ts = length vs;
  ps_val : forall i v t, vs !! i = Some v -> ts !! i = Some t -> latest (ses_chk s i) = (v, t);
  ps_new : forall i, (length vs <= i)%nat -> (latest (ses_chk s i)).2 = 0;
  ps_grow : forall i j t u, (i < j)%nat -> ts !! i = Some t -> ts !! j = Some u -> t < u;
  ps_time : forall i t, ts !! i = Some t -> 0 < t < exec_time_at (h_now (ses_h s));
  ps_out : forall i v, (i, v) ∈ ses_out s -> vs !! i = Some v;
}.

Definition pre_session (n : nat) (s : St) : Prop := exists vs ts, passed vs ts s /\ (length vs <= n)%nat.

Lemma passed_others vs ts s s' : passed vs ts s -> others s s' -> passed vs ts s'.
Proof.
  intros [H1 H2 H3 H4 H5 H6] (_ & _ & Hn & Ec & Eo). split; rewrite ?Ec, ?Eo; try done.
  intros i t Ht. specialize (H5 i t Ht). split; [lia|]. eapply Z.lt_le_trans; [apply H5|]. by apply exec_time_mono.
Qed.

Lemma others_view k s s' : others s s' -> view_of (chk_at k) s' = view_of (chk_at k) s /\ (now s <= now s')%nat.
Proof. intros (E1 & E2 & Hn & Ec & Eo). split; [|done]. unfold view_of. cbn [get_h St_handle chk_at lget]. by rewrite E1, E2, Ec. Qed.

(** The rest of the state during the checkpoint [k]. *)
Definition rest (k : nat) (cs : nat -> Checkpoint T) (out : list (nat * T)) (s : St) : Prop :=
  (forall i, i <> k -> ses_chk s i = cs i) /\ ses_out s = out.

Lemma rest_stable k cs out : stable others (chk_at k) (rest k cs out).
Proof.
  split.
  - intros s s' [Hc Ho] (_ & _ & _ & Ec & Eo). split; [by rewrite Ec|by rewrite Eo].
  - done.
  - intros c s [Hc Ho]. split; [|done]. intros i Hi. simpl. rewrite fn_lookup_insert_ne by done. by apply Hc.
Qed.

(** Recording the next checkpoint. *)
Lemma passed_next vs ts s s' v t : passed vs ts s -> rest (length vs) (ses_chk s) (ses_out s) s' ->
  latest (ses_chk s' (length vs)) = (v, t) -> exec_time_at (h_now (ses_h s)) <= t < exec_time_at (h_now (ses_h s')) ->
  passed (vs ++ [v]) (ts ++ [t]) s'.
Proof.
  intros [H1 H2 H3 H4 H5 H6] [Hc Ho] Hlt [Ht0 Ht1].
  assert (0 < t) as Hpos by (pose proof (exec_time_pos (h_now (ses_h s))); pose proof global_max_nonneg; lia).
  assert (forall i u, ts !! i = Some u -> u < t) as Hlast by (intros i u Hu; specialize (H5 i u Hu); lia).
  assert (forall i u, (ts ++ [t]) !! i = Some u -> ts !! i = Some u \/ (i = length vs /\ u = t)) as Hts.
  { intros i u. rewrite lookup_app_Some, list_lookup_singleton_Some, <- H1. intros [?|(? & ? & <-)]; [by left|right; split; [lia|done]]. }
  split.
  - rewrite !length_app. simpl. lia.
  - intros i x u Hx Hu. destruct (Hts i u Hu) as [Hu'|[-> ->]].
    + assert (i < length vs)%nat as Hi by (rewrite <- H1; by eapply lookup_lt_Some). rewrite lookup_app_l in Hx by done.
      rewrite Hc by lia. by apply H2.
    + rewrite lookup_app_r, Nat.sub_diag in Hx by done. injection Hx as <-. done.
  - intros i. rewrite length_app. simpl. intros Hi. rewrite Hc by lia. apply H3. lia.
  - intros i j u w Hij Hu Hw. destruct (Hts i u Hu) as [Hu'|[-> ->]], (Hts j w Hw) as [Hw'|[-> ->]]; [by eapply H4|by eapply Hlast| |lia].
    apply lookup_lt_Some in Hw'. lia.
  - intros i u Hu. destruct (Hts i u Hu) as [Hu'|[-> ->]]; [|lia]. specialize (Hlast i u Hu'). specialize (H5 i u Hu'). lia.
  - intros i x. rewrite Ho. intros Hx. apply lookup_app_l_Some. by apply H6.
Qed.

Lemma passed_same vs ts s s' : passed vs ts s -> rest (length vs) (ses_chk s) (ses_out s) s' ->
  latest (ses_chk s' (length vs)) = latest (ses_chk s (length vs)) -> (now s <= now s')%nat -> passed vs ts s'.
Proof.
  intros [H1 H2 H3 H4 H5 H6] [Hc Ho] Hlt Hn. split; rewrite ?Ho; try done.
  - intros i v t Hv Ht. rewrite Hc by (apply lookup_lt_Some in Hv; lia). by apply H2.
  - intros i Hi. destruct (decide (i = length vs)) as [->|]; [rewrite Hlt; by apply H3|]. rewrite Hc by done. by apply H3.
  - intros i t Ht. specialize (H5 i t Ht). split; [lia|]. eapply Z.lt_le_trans; [apply H5|]. by apply exec_time_mono.
Qed.

Lemma cwp_new vs ts s : passed vs ts s -> (h_rec (ses_h s) = true -> 0 <= local_max_time (ses_h s)) ->
  cwp others anyhow False (checkpoint line (chk_at (length vs)) (act (gets (fun s => g (length vs) vs (ses_env s)))))
    (fun s' v => (exists t, passed (vs ++ [v]) (ts ++ [t]) s') /\ h_rec (ses_h s') = false /\ ses_out s' = ses_out s)
    (pre_session (Datatypes.S (length vs))) s.
Proof.
  intros Hp Hloc. set (k := length vs). set (J := rest k (ses_chk s) (ses_out s)).
  pose proof (rest_stable k (ses_chk s) (ses_out s)) as HJ. change (rest k (ses_chk s) (ses_out s)) with J in HJ.
  assert ((latest (ses_chk s k)).2 = 0) as H0 by (by apply (ps_new _ _ _ Hp)).
  eapply cwp_conseq.
  - eapply (cwp_checkpoint others anyhow False line (chk_at k) (chk_at_ok k) (others_view k) (anyhow_ok k) (now s) _ _ (ses_chk s k) J J (fun _ => J)); try done.
    + intros n s1 Hn Hk. eapply knows_act; [apply others_view|done|exact Hk|exact Hk|]. intros s2 Hk2. by apply awp_gets.
    + intros Hr. rewrite H0. by apply Hloc.
    + rewrite H0. pose proof (exec_time_pos (now s)). pose proof global_max_nonneg. lia.
  - intros s' v (HJ' & c & t & Ev & Hl & Ht & Hn). injection Ev as Er _ Ec. split_and!; [|done|apply HJ'].
    exists t. apply (passed_next vs ts s); [done|exact HJ'|by rewrite <- Hl, <- Ec|done].
  - intros s' [Hn [[HJ' Hl]|(v & HJ' & t & Hl & Ht)]].
    + exists vs, ts. split; [by apply (passed_same vs ts s)|unfold k; lia].
    + exists (vs ++ [v]), (ts ++ [t]). split; [by apply (passed_next vs ts s)|rewrite length_app; simpl; lia].
Qed.

(** A checkpoint that was passed before the crash. *)
Lemma cwp_old ws ts k v t f s : passed ws ts s -> ws !! k = Some v -> ts !! k = Some t ->
  h_rec (ses_h s) = true -> local_max_time (ses_h s) < t ->
  cwp others anyhow False (checkpoint line (chk_at k) f)
    (fun s' v' => v' = v /\ passed ws ts s' /\ h_rec (ses_h s') = true /\ local_max_time (ses_h s') = t /\ ses_out s' = ses_out s)
    (passed ws ts) s.
Proof.
  intros Hp Hv Ht Hrec Hloc. pose proof (ps_val _ _ _ Hp k v t Hv Ht) as Hlat.
  assert (forall b L s', knows (chk_at k) (rest k (ses_chk s) (ses_out s)) (mkView b L (ses_chk s k)) (now s) s' -> passed ws ts s') as Hpass.
  { intros b L s' ([Hc Ho] & Ev & Hn). injection Ev as _ _ Ec.
    assert (forall i, ses_chk s' i = ses_chk s i) as Ex by (intros i; destruct (decide (i = k)) as [->|]; [done|by apply Hc]).
    destruct Hp as [H1 H2 H3 H4 H5 H6]; split; intros *; rewrite ?Ex, ?Ho; eauto.
    intros Hx. apply H5 in Hx. split; [lia|]. eapply Z.lt_le_trans; [apply Hx|by apply exec_time_mono]. }
  eapply cwp_conseq; [eapply (cwp_replay others anyhow False line (chk_at k) (chk_at_ok k) (others_view k) (anyhow_ok k)); [apply rest_stable| |]| |].
  - split; [by split|]. split; [|done]. unfold view_of. cbn [get_h St_handle chk_at lget]. by rewrite Hrec.
  - by rewrite Hlat.
  - intros s' v' [-> Hk]. split_and!; [by rewrite Hlat|by eapply Hpass|..]; destruct Hk as ([_ Ho] & Ev & _); [..|done];
      injection Ev as Er El _; [done|by rewrite Hlat in El].
  - intros s' [L' Hk]. by eapply Hpass.
Qed.

(** The time a replaying thread has seen before checkpoint [k]. *)
Definition seen (ts : list Z) (k : nat) (L : Z) : Prop :=
  match k with O => L = 0 | Datatypes.S k => ts !! k = Some L end.

Lemma seen_nonneg vs ts s k L : passed vs ts s -> seen ts k L -> 0 <= L.
Proof. intros Hp. destruct k as [|k]; [simpl; lia|]. intros Ht. apply (ps_time _ _ _ Hp) in Ht. lia. Qed.

Lemma seen_next vs ts s k L t : passed vs ts s -> seen ts k L -> ts !! k = Some t -> L < t.
Proof.
  intros Hp HL Ht. destruct k as [|k]; [simpl in HL; apply (ps_time _ _ _ Hp) in Ht; lia|]. eapply (ps_grow _ _ _ Hp); [|exact HL|exact Ht]. lia.
Qed.

Lemma passed_report vs ts s k v : passed vs ts s -> vs !! k = Some v ->
  passed vs ts (mkSt (ses_h s) (ses_chk s) (ses_env s) (ses_out s ++ [(k, v)])).
Proof.
  intros [H1 H2 H3 H4 H5 H6] Hk. split; try done. simpl. intros i x [Hi|Hi]%elem_of_app; [by apply H6|].
  apply list_elem_of_singleton in Hi as [= -> ->]. done.
Qed.

(** The thread passes checkpoint [k] with a value that is recorded: it reports
    it and goes on. *)
Lemma cwp_pass n k vs ts v s (Q : St -> list T -> Prop) p : passed vs ts s -> vs !! k = Some v -> (length vs <= n)%nat ->
  (forall s', passed vs ts s' -> (k, v) ∈ ses_out s' -> (forall x, x ∈ ses_out s -> x ∈ ses_out s') ->
     h_rec (ses_h s') = h_rec (ses_h s) -> local_max_time (ses_h s') = local_max_time (ses_h s) -> cwp others anyhow False p Q (pre_session n) s') ->
  cwp others anyhow False (act (report k v) ;;; p) Q (pre_session n) s.
Proof.
  intros Hp Hk Hn H. split; [by exists vs, ts|]. intros s1 HR. pose proof (passed_others _ _ _ _ Hp HR) as Hp1.
  destruct HR as (Er & El & _ & _ & Eo). apply awp_modify. split; [done|]. apply H; simpl; [by apply passed_report|set_solver| |done|done].
  intros x Hx. rewrite Eo. set_solver.
Qed.

(** What a session from checkpoint [length vs] on achieves. *)
Definition session_done (n : nat) (vs : list T) (s s' : St) (vs' : list T) : Prop :=
  (exists ts', passed vs' ts' s') /\ length vs' = (length vs + n)%nat /\ vs `prefix_of` vs' /\
  (forall x, x ∈ ses_out s -> x ∈ ses_out s') /\
  (forall i v, (length vs <= i)%nat -> vs' !! i = Some v -> (i, v) ∈ ses_out s').

Lemma session_done_cons n vs s s1 s' v vs' : session_done n (vs ++ [v]) s1 s' vs' -> (length vs, v) ∈ ses_out s1 ->
  (forall x, x ∈ ses_out s -> x ∈ ses_out s1) -> session_done (Datatypes.S n) vs s s' vs'.
Proof.
  intros (Hp & Hlen & Hpre & Ho & Hr) Hk Hs. rewrite length_app in Hlen, Hr. simpl in Hlen, Hr.
  split_and!; [done|lia|by eapply prefix_app_l|auto|]. intros i x Hi Hx.
  destruct (decide (i = length vs)) as [->|]; [|apply Hr; [lia|done]].
  assert (vs' !! length vs = Some v) as Hv.
  { eapply prefix_lookup_Some; [|exact Hpre]. rewrite lookup_app_r, Nat.sub_diag by done. done. }
  rewrite Hv in Hx. injection Hx as <-. by apply Ho.
Qed.

Lemma cwp_session n : forall vs ws ts s, passed ws ts s -> vs `prefix_of` ws -> (length ws <= length vs + n)%nat ->
  (if h_rec (ses_h s) then seen ts (length vs) (local_max_time (ses_h s)) else ws = vs) ->
  cwp others anyhow False (session (length vs) n vs) (session_done n vs s) (pre_session (length vs + n)) s.
Proof.
  induction n as [|n IH]; intros vs ws ts s Hp Hpre Hlen Hmode; cbn [session].
  - assert (ws = vs) as -> by (apply prefix_length_eq in Hpre; [done|lia]).
    apply cwp_ret; [exists vs, ts; split; [done|lia]|]. split_and!; [by eexists|lia|done|done|].
    intros i v Hi Hv. apply lookup_lt_Some in Hv. lia.
  - assert (forall vs1 ws1 ts1 v s1, passed ws1 ts1 s1 -> vs1 = vs ++ [v] -> vs1 `prefix_of` ws1 -> (length ws1 <= length vs + Datatypes.S n)%nat ->
      (forall x, x ∈ ses_out s -> x ∈ ses_out s1) ->
      (if h_rec (ses_h s1) then seen ts1 (length vs1) (local_max_time (ses_h s1)) else ws1 = vs1) ->
      cwp others anyhow False (act (report (length vs) v) ;;; session (Datatypes.S (length vs)) n vs1) (session_done (Datatypes.S n) vs s)
        (pre_session (length vs + Datatypes.S n)) s1) as Hnext.
    { intros vs1 ws1 ts1 v s1 Hp1 -> Hpre1 Hlen1 Ho1 Hm1. eapply cwp_pass; [done| |done|].
      - eapply prefix_lookup_Some; [|exact Hpre1]. rewrite lookup_app_r, Nat.sub_diag by done. done.
      - intros s2 Hp2 Hin Ho2 Er El. eapply cwp_conseq.
        + replace (Datatypes.S (length vs)) with (length (vs ++ [v])) by (rewrite length_app; simpl; lia).
          apply (IH (vs ++ [v]) ws1 ts1 s2); [done|done|rewrite length_app; simpl; lia|by rewrite Er, El].
        + intros s3 vs3 Hd. eapply session_done_cons; [done|done|auto].
        + rewrite length_app. simpl. by replace (length vs + 1 + n)%nat with (length vs + Datatypes.S n)%nat by lia. }
    apply cwp_bind. destruct (decide (length vs = length ws)) as [El|Hlt].
    + assert (ws = vs) as -> by (apply prefix_length_eq in Hpre; [done|lia]).
      eapply cwp_conseq; [apply (cwp_new vs ts s Hp)| |].
      * intros Hr. rewrite Hr in Hmode. by eapply seen_nonneg.
      * intros s1 v ((t & Hp1) & Hr & Ho). eapply (Hnext _ (vs ++ [v])); [done|done|done|rewrite length_app; simpl; lia|by rewrite Ho|by rewrite Hr].
      * intros s1 (vs1 & ts1 & Hp1 & Hl1). exists vs1, ts1. split; [done|lia].
    + pose proof (prefix_length _ _ Hpre) as Hlen'. destruct (h_rec (ses_h s)) eqn:Hr; [|by subst].
      destruct (lookup_lt_is_Some_2 ws (length vs) ltac:(lia)) as [v Hv].
      destruct (lookup_lt_is_Some_2 ts (length vs)) as [t Ht]; [rewrite (ps_len _ _ _ Hp); lia|].
      eapply cwp_conseq; [apply (cwp_old ws ts (length vs) v t _ s Hp Hv Ht Hr); by eapply seen_next| |].
      * intros s1 v1 (-> & Hp1 & Hr1 & Hl1 & Ho1). eapply (Hnext _ ws ts); [done|done| |done|by rewrite Ho1|].
        -- destruct Hpre as [ext ->]. rewrite lookup_app_r, Nat.sub_diag in Hv by done. destruct ext as [|x ext]; [done|]. injection Hv as ->.
           exists ext. by rewrite <- app_assoc.
        -- rewrite Hr1, Hl1, length_app, Nat.add_comm. exact Ht.
      * intros s1 Hp1. exists ws, ts. split; [done|lia].
Qed.

(** Nothing was checkpointed or reported. *)
Definition fresh_session (s : St) : Prop :=
  h_rec (ses_h s) = true /\ local_max_time (ses_h s) = 0 /\ (forall i, ses_chk s i = chk_default) /\ ses_out s = [].

(** The state a session can be started from: the thread has no memory, the
    checkpoints are those of an earlier attempt. *)
Definition restartable (n : nat) (s : St) : Prop :=
  h_rec (ses_h s) = true /\ local_max_time (ses_h s) = 0 /\ pre_session n s.

Lemma fresh_restartable n s : fresh_session s -> restartable n s.
Proof.
  intros (Hr & Hl & Hc & Ho). split_and!; [done|done|]. exists [], []. split; [|simpl; lia].
  split; try done; [intros i _; by rewrite Hc|rewrite Ho; intros i v Hi; set_solver].
Qed.

Lemma cwp_restart n s : restartable n s -> cwp others anyhow False (session 0 n []) (session_done n [] s) (pre_session n) s.
Proof.
  intros (Hr & Hl & ws & ts & Hp & Hn). apply (cwp_session n [] ws ts s); [done|apply prefix_nil|done|]. by rewrite Hr.
Qed.

Lemma reboot_restartable n s s' : pre_session n s -> others s s' -> restartable n (reboot s').
Proof.
  intros (vs & ts & Hp & Hn) HR. split_and!; [done|done|]. exists vs, ts. split; [|done].
  destruct (passed_others _ _ _ _ Hp HR) as [H1 H2 H3 H4 H5 H6]. by split.
Qed.

(** C9: checkpoints replay. A thread that crashes any number of times, at any
    access, and starts over each time, with other threads acting in between,
    passes every checkpoint with one value: all that was ever reported, in the
    run that completed and in those that crashed, agrees with the final
    results, and everything is reported. After any number of crashes, of any
    attempt, the session can be completed: every run from there ends with [n]
    results, whatever the other threads do, and no access panics. *)
Theorem checkpoints_replay n s0 : fresh_session s0 ->
  (forall s vs, recovered others reboot (session 0 n []) s0 s vs ->
     length vs = n /\ (forall i v, (i, v) ∈ ses_out s <-> vs !! i = Some v)) /\
  (forall s1, restarted_at others (fun _ => True) reboot (session 0 n []) s0 s1 ->
     all_end others (session 0 n []) (fun _ vs => length vs = n) s1).
Proof.
  intros H0. apply (fresh_restartable n) in H0. split.
  - intros s vs Hrec.
    assert ((exists ts, passed vs ts s) /\ length vs = n /\ forall i v, vs !! i = Some v -> (i, v) ∈ ses_out s) as ((ts & Hp) & Hlen & Hout).
    { eapply (recovered_correct others anyhow False reboot (session 0 n []) (restartable n)
        (fun s vs => (exists ts, passed vs ts s) /\ length vs = n /\ forall i v, vs !! i = Some v -> (i, v) ∈ ses_out s) (pre_session n));
        [|apply reboot_restartable|exact H0|exact Hrec].
      intros s1 H1. eapply cwp_conseq; [by apply cwp_restart| |done]. intros s2 vs2 (Hp & Hl & _ & _ & Hr). split_and!; [done|done|].
      intros i v Hv. apply Hr; [simpl; lia|done]. }
    split; [done|]. intros i v. split; [by apply (ps_out _ _ _ Hp)|apply Hout].
  - intros s1 Hs1.
    assert (forall s, restartable n s -> cwp others anyhow False (session 0 n []) (fun _ vs => length vs = n) (pre_session n) s) as Hcwp.
    { intros s Hs. eapply cwp_conseq; [by apply cwp_restart| |done]. by intros s2 vs2 (_ & Hl & _). }
    eapply (cwp_all_end others anyhow False); [tauto|]. apply Hcwp.
    eapply (restarted_at_inv others anyhow False); [exact Hcwp| |exact H0|exact Hs1].
    intros s s' HC _. by apply reboot_restartable.
Qed.
End replay.

(** ** Examples *)
Module Runs.
#[local] Existing Instance counting.
#[local] Existing Instance counting_laws.

(** One checkpoint of the environment's value. *)
Definition start : St (T := Z) (E := Z) := mkSt (handle_new 0) (fun _ => chk_default) 7 [].
Definition prog : P St (list Z) := session true (fun _ _ e => e) 0 1 [].
Definition state_of {A B} (d : A) (o : outcome (A * B)) : A := match o with Done (s, _) => s | _ => d end.

(** The thread stops after the value 7 is recorded, before it is reported; then
    the environment changes to 9. *)
Definition crashed : St := state_of start (pcut 9 prog start).
Definition changed : St := mkSt (ses_h crashed) (ses_chk crashed) 9 (ses_out crashed).

Lemma others_refl (s : St (T := Z) (E := Z)) : others s s.
Proof. by split_and!. Qed.

Lemma replay_run : recovered others reboot prog start (state_of start (prun prog (reboot changed))) [7].
Proof.
  eapply (rec_crash others reboot prog start crashed changed).
  - eapply (pcut_stops others others_refl 9). vm_compute. reflexivity.
  - by split_and!.
  - apply rec_ends, prun_ends; [apply others_refl|]. vm_compute. reflexivity.
Qed.

Lemma checkpoints_replay_witness : (0%nat, 7) ∈ ses_out (state_of start (prun prog (reboot changed))).
Proof.
  destruct (checkpoints_replay true (fun _ _ e => e) 1 start) as [H _]; [split_and!; done|].
  apply (H (state_of start (prun prog (reboot changed))) [7] replay_run). reflexivity.
Defined.

Example replayed_report : ses_out (state_of start (prun prog (reboot changed))) = [(0%nat, 7)] /\ ses_env changed = 9.
Proof. split; vm_compute; reflexivity. Qed.
End Runs.
