(* ===== verification/MmtDcas.v ===== *)
(** * MmtDcas: the detectable compare-and-swap of memento
    (extern/memento/src/ploc/detectable_cas.rs)

    A detectable compare-and-swap is done in two steps: the new pointer is first
    installed with the id of the thread and a parity bit, its success is
    recorded with a timestamp in the memento of the operation, and the marks are
    removed. A thread that starts again finds out from its memento, or from the
    timestamp a helper has left for it, whether its exchange took place. Who
    meets a marked pointer waits, and removes the marks itself when its patience
    runs out.

    The accesses of the threads interleave. The clock is one for all threads.
    Stores are durable in program order; flushes and fences are left out. *)

From Stdlib Require Import ZArith Lia Bool.
From stdpp Require Import base numbers option functions list.
From S2P Require Import Prelude CrashLogic MmtBase.
Local Open Scope Z_scope.
Local Open Scope crash_scope.

(** ** State *)

(** The mementos: [CasInner], and [Cas] with its two buffers. *)
Record CasInner := mkInner { checkpoint : CasTs; fail_current : PShared }.
Record Cas := mkCas { buf0 : CasInner; buf1 : CasInner }.

(** [CasHelpDescriptorInner]. *)
Record CasHelpDescriptor := mkDesc { tmp_new : PShared; seq : Z }.

(** [CasInfo] by thread, the locations ([DetectableCASAtomic]) by address, and
    of every thread the mementos by number and the fields of the handle.
    [d_log] is not part of the program: the exchanges that an operation of a
    thread has made, with the location and the pointers. *)
Record DS := mkDS {
  d_loc : Z -> PShared;
  own : Z -> CasTs;
  help : Z -> bool -> Z;
  help_desc : Z -> CasHelpDescriptor;
  d_mmt : Z -> nat -> Cas;
  d_rec : Z -> bool;
  d_local : Z -> Z;
  d_now : nat;
  d_log : Z -> nat -> list (Z * PShared * PShared);
}.

Definition put_loc (x : Z) (p : PShared) (s : DS) : DS :=
  mkDS (<[x := p]> (d_loc s)) (own s) (help s) (help_desc s) (d_mmt s) (d_rec s) (d_local s) (d_now s) (d_log s).
Definition put_own (i : Z) (c : CasTs) (s : DS) : DS :=
  mkDS (d_loc s) (<[i := c]> (own s)) (help s) (help_desc s) (d_mmt s) (d_rec s) (d_local s) (d_now s) (d_log s).
Definition put_help (i : Z) (p : bool) (t : Z) (s : DS) : DS :=
  mkDS (d_loc s) (own s) (<[i := <[p := t]> (help s i)]> (help s)) (help_desc s) (d_mmt s) (d_rec s) (d_local s) (d_now s) (d_log s).
Definition put_desc (i : Z) (d : CasHelpDescriptor) (s : DS) : DS :=
  mkDS (d_loc s) (own s) (help s) (<[i := d]> (help_desc s)) (d_mmt s) (d_rec s) (d_local s) (d_now s) (d_log s).
Definition put_mmt (i : Z) (k : nat) (m : Cas) (s : DS) : DS :=
  mkDS (d_loc s) (own s) (help s) (help_desc s) (<[i := <[k := m]> (d_mmt s i)]> (d_mmt s)) (d_rec s) (d_local s) (d_now s) (d_log s).
Definition put_handle (i : Z) (h : Handle) (s : DS) : DS :=
  mkDS (d_loc s) (own s) (help s) (help_desc s) (d_mmt s) (<[i := h_rec h]> (d_rec s)) (<[i := local_max_time h]> (d_local s)) (h_now h) (d_log s).
Definition log_exchange (i : Z) (k : nat) (e : Z * PShared * PShared) (s : DS) : DS :=
  mkDS (d_loc s) (own s) (help s) (help_desc s) (d_mmt s) (d_rec s) (d_local s) (d_now s) (<[i := <[k := d_log s i k ++ [e]]> (d_log s i)]> (d_log s)).

(** [CasTimestamp(0)], [CasInner::default] and [Cas::default]. *)
Definition cas_ts0 : CasTs := mkCasTs false false 0.
Definition pnull : PShared := mkP 0 0 0 0 0 0.
Definition inner_default : CasInner := mkInner cas_ts0 pnull.
Definition cas_default : Cas := mkCas inner_default inner_default.

(** The two buffers, by index. *)
Definition buf (m : Cas) (idx : bool) : CasInner := if idx then buf1 m else buf0 m.
Definition put_buf (idx : bool) (c : CasInner) (m : Cas) : Cas := if idx then mkCas (buf0 m) c else mkCas c (buf1 m).

(** [Cas::stale_latest_idx]. *)
Definition stale_latest_idx (m : Cas) : bool * bool :=
  if ct_time (checkpoint (buf0 m)) <? ct_time (checkpoint (buf1 m)) then (false, true) else (true, false).

(** What [cas] returns: [Ok(())], or [Err] with the current pointer. *)
Inductive Result := Ok | Err (cur : PShared).

(** [Collectable::filter] of [CasInner]: when the pool is opened the collector
    rebuilds [own] from the mementos. *)
Definition filter_inner (o : CasTs) (c : CasInner) : CasTs :=
  if ct_fail (checkpoint c) then o else if ct_time o <? ct_time (checkpoint c) then checkpoint c else o.
Definition filter_cas (o : CasTs) (m : Cas) : CasTs := filter_inner (filter_inner o (buf0 m)) (buf1 m).

(** The pointer that stands for a help descriptor: its payload is the sequence
    number. *)
Definition desc_ptr (leader sq : Z) : PShared := mkP 0 1 leader 0 sq 0.

(** On words: the fields of a descriptor pointer are those, and removing them
    gives the sequence number back. *)
Definition desc_word (leader sq : Z) : Z := compose_tid leader (compose_desc_bit 1 (compose_aux_bit 0 sq)).

Lemma desc_word_fields leader sq : in_range 9 leader -> in_range 53 sq ->
  let w := desc_word leader sq in
  read POS_AUX_BITS NR_AUX_BITS w = 0 /\ read POS_DESC_BITS NR_DESC_BITS w = 1 /\ read POS_TID_BITS NR_TID_BITS w = leader /\
  compose_tid 0 (compose_desc_bit 0 (compose_aux_bit 0 w)) = sq.
Proof.
  intros Hl Hs w. unfold w, desc_word, compose_tid, compose_desc_bit, compose_aux_bit.
  assert (word leader) by (by apply (word_small 9)). assert (word sq) by (by apply (word_small 53)).
  assert (word 0) by done. assert (word 1) by done. assert (in_range 1 0 /\ in_range 1 1) as [] by (unfold in_range; lia).
  assert (fits POS_AUX_BITS NR_AUX_BITS) as Fa by solve_fits. assert (fits POS_DESC_BITS NR_DESC_BITS) as Fd by solve_fits. assert (fits POS_TID_BITS NR_TID_BITS) as Ft by solve_fits.
  assert (forall v d, word v -> word d -> word (compose POS_AUX_BITS NR_AUX_BITS v d)) by (intros; by apply compose_word).
  assert (forall v d, word v -> word d -> word (compose POS_DESC_BITS NR_DESC_BITS v d)) by (intros; by apply compose_word).
  assert (forall v d, word v -> word d -> word (compose POS_TID_BITS NR_TID_BITS v d)) by (intros; by apply compose_word).
  split_and!.
  - rewrite !read_other by (eauto || (left; vm_compute; congruence)). apply read_compose; eauto.
  - rewrite read_other by (eauto || (left; vm_compute; congruence)). apply read_compose; eauto.
  - apply read_compose; eauto.
  - apply Z.bits_inj'. intros j Hj. rewrite !compose_bit by eauto 10.
    unfold POS_AUX_BITS, NR_AUX_BITS, POS_DESC_BITS, NR_DESC_BITS, POS_TID_BITS, NR_TID_BITS, POS_AUX_BITS, NR_AUX_BITS, POS_DESC_BITS, NR_DESC_BITS, POS_AUX_BITS, NR_AUX_BITS.
    repeat case_decide; rewrite ?Z.bits_0; try done; try lia; symmetry; by apply (testbit_high sq 53); [|lia].
Qed.

(** A pointer without the marks of an exchange. *)
Definition unmark (p : PShared) : PShared := set_tid 0 (set_aux 0 p).

Section thread.
Context `{CK : Clock} (tsc_offset patience : Z) (fuel : nat) (tid : Z).

#[export] Instance DS_handle : HasHandle DS :=
  {| get_h s := mkHandle (d_rec s tid) (d_local s tid) (d_now s); set_h h s := put_handle tid h s |}.

(** ** Accesses *)

(** [PAtomic::compare_exchange]: [None] when it succeeds, or the current
    pointer. *)
Definition compare_exchange (x : Z) (old new : PShared) : M DS (option PShared) := fun s =>
  if decide (d_loc s x = old) then Done (put_loc x new s, None) else Done (s, Some (d_loc s x)).

(** The first compare-exchange of operation [k]. *)
Definition exchange (k : nat) (x : Z) (old tmp new : PShared) : M DS (option PShared) := fun s =>
  if decide (d_loc s x = old) then Done (log_exchange tid k (x, old, new) (put_loc x tmp s), None) else Done (s, Some (d_loc s x)).

Definition mmt (k : nat) (s : DS) : Cas := d_mmt s tid k.
Definition put_checkpoint (k : nat) (idx : bool) (c : CasTs) : M DS unit :=
  modify (fun s => put_mmt tid k (put_buf idx (mkInner c (fail_current (buf (mmt k s) idx))) (mmt k s)) s).
Definition put_fail_current (k : nat) (idx : bool) (p : PShared) : M DS unit :=
  modify (fun s => put_mmt tid k (put_buf idx (mkInner (checkpoint (buf (mmt k s) idx)) p) (mmt k s)) s).

(** [CasHelp::compare_exchange]; [true] is [Ok(())]. *)
Definition help_compare_exchange (i : Z) (parity : bool) (old new : Z) : M DS bool := fun s =>
  if help s i parity =? old then Done (put_help i parity new s, true) else Done (s, false).

(** An [assert!]. *)
Definition assert (b : bool) : M DS unit := fun s => if b then Done (s, tt) else Panic.

(** ** Checkpoints of an exchange *)
Definition checkpoint_succ (k : nat) (idx parity : bool) : P DS Z :=
  t <- act exec_time ;;
  act (put_checkpoint k idx (mkCasTs parity false t)) ;;;
  act (modify (put_own tid (mkCasTs parity false t))) ;;;
  act (local_store t) ;;;
  PRet t.

Definition checkpoint_fail (k : nat) (idx : bool) (current : PShared) : P DS unit :=
  t <- act exec_time ;;
  act (put_fail_current k idx current) ;;;
  act (put_checkpoint k idx (mkCasTs false true t)) ;;;
  act (local_store t).

(** ** Helping *)

(** The results are [Ok] with the clean pointer, and [Err] with the current
    one. *)
Definition register_help (x : Z) (old : PShared) : P DS (PShared + PShared) :=
  act (assert (p_desc old =? 0)) ;;;
  q <- act (gets (fun s => seq (help_desc s tid))) ;;
  let my_new_seq := q + 1 in
  act (modify (fun s => put_desc tid (mkDesc (tmp_new (help_desc s tid)) my_new_seq) s)) ;;;
  act (modify (fun s => put_desc tid (mkDesc old (seq (help_desc s tid))) s)) ;;;
  r <- act (compare_exchange x old (desc_ptr tid my_new_seq)) ;;
  PRet (match r with None => inl (desc_ptr tid my_new_seq) | Some cur => inr cur end).

Definition finalize_help (x : Z) (old : PShared) (t_cur : Z) : P DS (PShared + PShared) :=
  act (assert (p_desc old =? 1)) ;;;
  winner_tmp_new <- act (gets (fun s => tmp_new (help_desc s (p_tid old)))) ;;
  q <- act (gets (fun s => seq (help_desc s (p_tid old)))) ;;
  if decide (p_off old <> q) then cur <- act (gets (fun s => d_loc s x)) ;; PRet (inr cur)
  else
    let winner_tid := p_tid winner_tmp_new in
    let winner_parity := negb (p_aux winner_tmp_new =? 0) in
    let winner_new := set_tid 0 (set_desc 0 (set_aux 0 winner_tmp_new)) in
    t_help <- act (gets (fun s => help s winner_tid winner_parity)) ;;
    ok <- (if t_cur <=? t_help then PRet false else act (help_compare_exchange winner_tid winner_parity t_help t_cur)) ;;
    if negb ok then cur <- act (gets (fun s => d_loc s x)) ;; PRet (inr cur)
    else
      r <- act (compare_exchange x old winner_new) ;;
      PRet (match r with None => inl winner_new | Some cur => inr cur end).

Definition is_non_detectable_cas (p : PShared) : bool := (p_aux p =? 1) && (p_tid p =? 0).

(** [load_help]: the wait for a timestamp, ... *)
Fixpoint wait_past (n : nat) (wait1 : Z) : P DS Z :=
  now <- act exec_time ;;
  if wait1 + tsc_offset <? now then PRet now
  else match n with O => act diverge | S n => wait_past n wait1 end.

(** ... the spin loop, ... *)
Inductive spun := Clean (cur : PShared) | Changed (cur : PShared) | Expired.

Fixpoint spin (n : nat) (x : Z) (old : PShared) (t_cur : Z) : P DS spun :=
  cur <- act (gets (fun s => d_loc s x)) ;;
  if p_tid cur =? 0 then PRet (Clean cur)
  else if decide (old <> cur) then PRet (Changed cur)
  else
    wait2 <- act exec_time ;;
    if t_cur + patience <? wait2 then PRet Expired
    else match n with O => act diverge | S n => spin n x old t_cur end.

(** ... the loop around both: the clean pointer, or the one to help with the
    timestamp, ... *)
Fixpoint chk_loop (n : nat) (x : Z) (old : PShared) : P DS (PShared + PShared * Z) :=
  wait1 <- act exec_time ;;
  t_cur <- wait_past fuel wait1 ;;
  r <- spin fuel x old t_cur ;;
  match r with
  | Clean cur => PRet (inl cur)
  | Changed cur => match n with O => act diverge | S n => chk_loop n x cur end
  | Expired => PRet (inr (old, t_cur))
  end.

(** ... one round of helping, ... *)
Definition finalize_or (x : Z) (old : PShared) (t_cur : Z) (again : PShared -> P DS PShared) : P DS PShared :=
  r <- finalize_help x old t_cur ;;
  match r with inl clean_ptr => PRet clean_ptr | inr cur => again cur end.

Definition help_round (x : Z) (old : PShared) (again : PShared -> P DS PShared) : P DS PShared :=
  r <- chk_loop fuel x old ;;
  match r with
  | inl cur => PRet cur
  | inr (old, t_cur) =>
      if is_non_detectable_cas old then
        r <- act (compare_exchange x old (unmark old)) ;;
        match r with None => PRet (unmark old) | Some cur => again cur end
      else if p_desc old =? 0 then
        r <- register_help x old ;;
        match r with
        | inl desc => finalize_or x desc t_cur again
        | inr cur => if p_desc cur =? 0 then again cur else finalize_or x cur t_cur again
        end
      else finalize_or x old t_cur again
  end.

(** ... and the whole. *)
Fixpoint load_help (n : nat) (x : Z) (old : PShared) : P DS PShared :=
  if p_tid old =? 0 then PRet old
  else help_round x old (fun old => match n with O => act diverge | S n => load_help n x old end).

Definition load (x : Z) : P DS PShared :=
  cur <- act (gets (fun s => d_loc s x)) ;;
  load_help fuel x cur.

(** ** The operations *)
Definition cas_result (k : nat) (x : Z) (new : PShared) : P DS (option Result) :=
  m <- act (gets (mmt k)) ;;
  let '(stale, latest) := stale_latest_idx m in
  let c := checkpoint (buf m latest) in
  t_local <- act local_load ;;
  o <- act (gets (fun s => own s tid)) ;;
  if t_local <? ct_time c then
    if ct_fail c then
      act (local_store (ct_time c)) ;;;
      cur <- act (gets (fun s => fail_current (buf (mmt k s) latest))) ;;
      PRet (Some (Err cur))
    else
      (if ct_time o <=? ct_time c then
         act (modify (put_own tid c)) ;;;
         act (compare_exchange x (set_tid tid (set_aux (Z.b2z (ct_parity o)) new)) (unmark new)) ;;;
         PRet tt
       else PRet tt) ;;;
      act (local_store (ct_time c)) ;;;
      PRet (Some Ok)
  else
    load x ;;;
    t_help <- act (gets (fun s => help s tid (negb (ct_parity o)))) ;;
    if t_help <=? ct_time o then PRet None
    else
      checkpoint_succ k stale (negb (ct_parity o)) ;;;
      PRet (Some Ok).

(** A round of the loop of [DetectableCASAtomic::cas], and the loop. *)
Definition cas_attempt (k : nat) (stale p_own : bool) (x : Z) (old new : PShared) (retry : P DS Result) : P DS Result :=
  let tmp := set_tid tid (set_aux (Z.b2z (negb p_own)) new) in
  r <- act (exchange k x old tmp new) ;;
  match r with
  | Some current =>
      cur <- load_help fuel x current ;;
      if decide (cur = old) then retry
      else checkpoint_fail k stale cur ;;; PRet (Err cur)
  | None =>
      t <- checkpoint_succ k stale (negb p_own) ;;
      e <- act (compare_exchange x tmp (unmark new)) ;;
      match e with
      | Some current => if p_desc current =? 1 then finalize_help x current t ;;; PRet Ok else PRet Ok
      | None => PRet Ok
      end
  end.

Fixpoint cas_loop (n : nat) (k : nat) (stale p_own : bool) (x : Z) (old new : PShared) : P DS Result :=
  cas_attempt k stale p_own x old new (match n with O => act diverge | S n => cas_loop n k stale p_own x old new end).

Definition cas (k : nat) (x : Z) (old new : PShared) : P DS Result :=
  rec <- act rec_load ;;
  replay <- (if (rec : bool) then
               r <- cas_result k x new ;;
               match r with
               | Some ret => PRet (Some ret)
               | None => act (rec_store false) ;;; PRet None
               end
             else PRet None) ;;
  match replay with
  | Some ret => PRet ret
  | None =>
      stale <- act (gets (fun s => fst (stale_latest_idx (mmt k s)))) ;;
      p_own <- act (gets (fun s => ct_parity (own s tid))) ;;
      cas_loop fuel k stale p_own x old new
  end.

Fixpoint cas_non_detectable (n : nat) (x : Z) (old new : PShared) : P DS Result :=
  let tmp := set_aux 1 new in
  r <- act (compare_exchange x old tmp) ;;
  match r with
  | Some current =>
      cur <- load_help fuel x current ;;
      if decide (cur = old) then match n with O => act diverge | S n => cas_non_detectable n x old new end
      else PRet (Err cur)
  | None =>
      act (compare_exchange x tmp (unmark new)) ;;;
      PRet Ok
  end.

(** ** A thread that does [n] exchanges, each chosen from the results of those
    before *)
Context (request : list Result -> Z * PShared * PShared).

Fixpoint session (n : nat) (rs : list Result) : P DS (list Result) :=
  match n with
  | O => PRet rs
  | S n =>
      let '(x, old, new) := request rs in
      r <- cas (length rs) x old new ;;
      session n (rs ++ [r])
  end.

(** The thread starts again in the same process ([PoolHandle::execute]). *)
Definition rerun (s : DS) : DS := put_handle tid (handle_new (d_now s)) s.

(** The pool is opened again in another process: the collector rebuilds [own]
    from the [n] mementos of the thread. *)
Definition gc_own (n : nat) (s : DS) : CasTs := fold_left filter_cas (map (d_mmt s tid) (List.seq 0 n)) cas_ts0.
Definition reopen (n : nat) (s : DS) : DS := put_own tid (gc_own n s) (rerun s).
End thread.

(** [CasHelp::max] and [CasInfo::max_ts], over the threads up to [n]. *)
Definition help_max (s : DS) (i : Z) : Z := Z.max (help s i false) (help s i true).
Definition max_ts (n : nat) (s : DS) : Z :=
  let m := fold_left Z.max (map (fun i => ct_time (own s (Z.of_nat i))) (List.seq 0 (n + 1))) 0 in
  fold_left Z.max (map (fun i => help_max s (Z.of_nat i)) (List.seq 0 (n + 1))) m.
