(* ===== verification/MmtDetect.v ===== *)
(** * MmtDetect: detectable compare-and-swaps of a thread that crashes

    A thread makes a sequence of detectable compare-and-swaps ([MmtDcas]) among
    other threads, crashes at any access and starts again. The proof follows
    what the thread's own words say (its mementos, timestamps and descriptor)
    and where its marked pointer is. Other threads do what they like, but are
    patient with this one: they leave its marked pointers alone. *)

From Stdlib Require Import ZArith Lia Bool.
From stdpp Require Import base numbers option functions relations list.
From S2P Require Import Prelude CrashLogic MmtBase MmtDcas.
Local Open Scope Z_scope.
Local Open Scope crash_scope.

(** ** What a thread knows *)

(** The words that only the thread itself writes. *)
Record view := mkView {
  v_own : CasTs; v_help : bool -> Z; v_mmt : nat -> Cas; v_rec : bool; v_local : Z; v_log : nat -> list (Z * PShared * PShared);
}.

(** Where the marked pointer of the thread is: nowhere, in a location, or in a
    descriptor that the thread has put there. *)
Inductive mark := Quiet | Flying (x : Z) (w : PShared) | Registered (x : Z) (w : PShared).

Definition bit (b : Z) : Prop := b = 0 \/ b = 1.

Section thread.
Context `{CK : Clock} `{CL : !ClockLaws} (tsc_offset patience : Z) (fuel : nat) (i : Z) (Hi : i <> 0).
Context (Hoff : tsc_offset < Z.of_nat fuel) (Hpat : patience < Z.of_nat fuel).

(** Whether other threads act; if they do not, the thread ends. *)
Context (D : Prop).

Abbreviation hd := (DS_handle i).

Definition view_of (s : DS) : view := mkView (own s i) (help s i) (d_mmt s i) (d_rec s i) (d_local s i) (d_log s i).

(** A pointer that stands for an exchange of the thread in progress. *)
Definition mine (d : CasHelpDescriptor) (p : PShared) : Prop :=
  p_tid p = i /\ (p_desc p = 0 \/ p_desc p = 1 /\ p_off p = seq d /\ p_tid (tmp_new d) = i).

(** What other threads do. *)
Record others (s s' : DS) : Prop := {
  ot_view : view_of s' = view_of s;
  ot_desc : help_desc s' i = help_desc s i;
  ot_now : (d_now s <= d_now s')%nat;
  ot_helpers : (forall j, j <> i -> p_tid (tmp_new (help_desc s j)) <> i) -> forall j, j <> i -> p_tid (tmp_new (help_desc s' j)) <> i;
  ot_loc : forall x, d_loc s' x = d_loc s x \/ D /\ ~ mine (help_desc s i) (d_loc s x) /\ p_tid (d_loc s' x) <> i /\ bit (p_desc (d_loc s' x));
}.

Definition mem_is (m : mark) (d : CasHelpDescriptor) (s : DS) : Prop :=
  match m with
  | Quiet => forall x, ~ mine d (d_loc s x)
  | Flying x w => d_loc s x = w /\ p_tid w = i /\ p_desc w = 0 /\ forall y, mine d (d_loc s y) -> y = x
  | Registered x w => d_loc s x = desc_ptr i (seq d) /\ tmp_new d = w /\ p_tid w = i /\ forall y, mine d (d_loc s y) -> y = x
  end.

Record at_ (v : view) (n : nat) (d : CasHelpDescriptor) (m : mark) (s : DS) : Prop := {
  at_view : view_of s = v;
  at_now : (n <= d_now s)%nat;
  at_desc : help_desc s i = d;
  at_mem : mem_is m d s;
  at_bits : forall x, bit (p_desc (d_loc s x));
  at_seq : forall x, p_tid (d_loc s x) = i -> p_desc (d_loc s x) = 1 -> p_off (d_loc s x) <= seq d;
  at_helpers : forall j, j <> i -> p_tid (tmp_new (help_desc s j)) <> i;
  at_calm : forall x, D \/ p_tid (d_loc s x) = 0 \/ mine d (d_loc s x);
}.

Definition G (s s' : DS) : Prop := True.
Abbreviation cw := (cwp others G D).

Lemma at_others v n d m s s' : at_ v n d m s -> others s s' -> at_ v n d m s'.
Proof.
  intros [Hv Hn Hd Hm Hb Hs Hh Hc] [Ov Od On Oh Ol]. rewrite Hd in *.
  assert (forall x, mine d (d_loc s' x) -> mine d (d_loc s x) /\ d_loc s' x = d_loc s x) as Hmine.
  { intros x Hx. destruct (Ol x) as [E|(_ & _ & Ht & _)]; [by rewrite E in Hx |- *|]. by destruct Hx. }
  assert (forall x, mine d (d_loc s x) -> d_loc s' x = d_loc s x) as Hkeep.
  { intros x Hx. by destruct (Ol x) as [E|(_ & Hno & _)]. }
  split; [congruence|lia|congruence| | | |by apply Oh|].
  - destruct m as [|x w|x w]; simpl in *.
    + intros x Hx. apply (Hm x). by apply Hmine.
    + destruct Hm as (E & Ht & Hw & Ho). rewrite Hkeep by (rewrite E; split; tauto).
      split_and!; try done. intros y Hy. apply Ho. by apply Hmine.
    + destruct Hm as (E & Et & Hw & Ho). rewrite Hkeep by (rewrite E; split; [done|]; right; by rewrite Et).
      split_and!; try done. intros y Hy. apply Ho. by apply Hmine.
  - intros x. destruct (Ol x) as [->|(_ & _ & _ & ?)]; [apply Hb|done].
  - intros x. destruct (Ol x) as [->|(_ & _ & ? & _)]; [apply Hs|done].
  - intros x. destruct (Ol x) as [->|(? & _)]; [apply Hc|by left].
Qed.

Lemma at_later v n n' d m s : at_ v n d m s -> (n' <= n)%nat -> at_ v n' d m s.
Proof. intros [H1 H2 H3 H4 H5 H6 H7 H8] Hn. split; try done. lia. Qed.

(** Writes of the thread to its own words. *)
Lemma at_step v v' n n' d m s s' : at_ v n d m s -> d_loc s' = d_loc s -> help_desc s' = help_desc s -> view_of s' = v' -> (n' <= d_now s')%nat ->
  at_ v' n' d m s'.
Proof.
  intros [H1 H2 H3 H4 H5 H6 H7 H8] El Ed Ev Hn. split; [done|done|by rewrite Ed| |by rewrite El|by rewrite El|by rewrite Ed|by rewrite El].
  destruct m; simpl in *; by rewrite El.
Qed.

(** A crash condition that allows a situation. *)
Definition safe (C : DS -> Prop) (v : view) (n : nat) (m : mark) : Prop := forall d s, at_ v n d m s -> C s.

Lemma safe_later C v n n' m : safe C v n m -> (n <= n')%nat -> safe C v n' m.
Proof. intros H Hn d s Ha. eapply H. by eapply at_later. Qed.

(** ** One access *)
Lemma step {A X} (a : M DS X) (k : X -> P DS A) Q (C : DS -> Prop) v n d m s :
  at_ v n d m s -> safe C v n m -> (forall s1, at_ v n d m s1 -> awp D a (fun s2 x => cw (k x) Q C s2) s1) -> cw (pbind (act a) k) Q C s.
Proof.
  intros Ha Hc H. split; [by eapply Hc|]. intros s1 HR. eapply (awp_conseq others G D); [apply H; by eapply at_others|]. done.
Qed.

Lemma step_gets {A X} (f : DS -> X) (k : X -> P DS A) Q (C : DS -> Prop) v n d m s :
  at_ v n d m s -> safe C v n m -> (forall s1, at_ v n d m s1 -> cw (k (f s1)) Q C s1) -> cw (pbind (act (gets f)) k) Q C s.
Proof. intros Ha Hc H. by eapply step. Qed.

(** Reading what only the thread writes. *)
Lemma step_view {A X} (f : view -> X) (g : DS -> X) (k : X -> P DS A) Q (C : DS -> Prop) v n d m s :
  at_ v n d m s -> safe C v n m -> (forall s, g s = f (view_of s)) ->
  (forall s1, at_ v n d m s1 -> cw (k (f v)) Q C s1) -> cw (pbind (act (gets g)) k) Q C s.
Proof. intros Ha Hc E H. eapply step_gets; [done|done|]. intros s1 H1. rewrite E, (at_view _ _ _ _ _ H1). by apply H. Qed.

(** Writing it. *)
Lemma step_own {A} (f : DS -> DS) (k : unit -> P DS A) Q (C : DS -> Prop) v v' n d m s :
  at_ v n d m s -> safe C v n m ->
  (forall s, view_of s = v -> d_loc (f s) = d_loc s /\ help_desc (f s) = help_desc s /\ view_of (f s) = v' /\ d_now (f s) = d_now s) ->
  (forall s1, at_ v' n d m s1 -> cw (k tt) Q C s1) -> cw (pbind (act (modify f)) k) Q C s.
Proof.
  intros Ha Hc E H. eapply step; [done|done|]. intros s1 H1. apply awp_modify, H.
  destruct (E s1) as (E1 & E2 & E3 & E4); [apply H1|]. eapply at_step; try done. rewrite E4. apply H1.
Qed.

(** Reading the clock. *)
Lemma step_time {A} (k : Z -> P DS A) Q (C : DS -> Prop) v n d m s :
  at_ v n d m s -> safe C v n m ->
  (forall n' t s1, (n < n')%nat -> exec_time_at n <= t < exec_time_at n' -> at_ v n' d m s1 -> cw (k t) Q C s1) ->
  cw (pbind (act (@exec_time DS hd CK)) k) Q C s.
Proof.
  intros Ha Hc H. eapply step; [done|done|]. intros s1 H1. unfold exec_time, awp. simpl.
  apply (H (Datatypes.S (d_now s1))); [pose proof (at_now _ _ _ _ _ H1); lia| |].
  - split; [apply exec_time_mono, H1|apply exec_time_grows; lia].
  - eapply at_step; [done|done|done| |simpl; lia]. rewrite <- (at_view _ _ _ _ _ H1). unfold view_of, upd_h. simpl.
    by rewrite !fn_lookup_insert.
Qed.

(** The thread stays in a program, or leaves it. *)
Lemma done_ret {A} (a : A) (Q : DS -> A -> Prop) (C : DS -> Prop) v n d m s : at_ v n d m s -> safe C v n m -> Q s a -> cw (PRet a) Q C s.
Proof. intros Ha Hc HQ. split; [by eapply Hc|done]. Qed.

Lemma stuck {A} (Q : DS -> A -> Prop) (C : DS -> Prop) v n d m s : at_ v n d m s -> safe C v n m -> D -> cw (act diverge) Q C s.
Proof. intros Ha Hc HD. split; [by eapply Hc|]. done. Qed.

(** ** Waiting *)
Definition fits (m : mark) (d : CasHelpDescriptor) (x : Z) (p : PShared) : Prop :=
  match m with
  | Quiet => bit (p_desc p) /\ ~ mine d p /\ (D \/ p_tid p = 0)
  | Flying y w => x = y /\ p = w /\ p_tid w = i /\ p_desc w = 0
  | Registered y w => x = y /\ p = desc_ptr i (seq d) /\ tmp_new d = w /\ p_tid w = i
  end.

(** The location an operation is on. *)
Definition on (m : mark) (x : Z) : Prop :=
  match m with Quiet => True | Flying y _ | Registered y _ => x = y end.

Lemma fits_on m d x p : fits m d x p -> on m x.
Proof. destruct m; simpl; tauto. Qed.

Lemma read_fits v n d m s x : at_ v n d m s -> on m x -> fits m d x (d_loc s x).
Proof.
  intros [_ _ Hd Hm Hb _ _ Hc] Ho. destruct m as [|y w|y w]; simpl in *; [|subst y; tauto..].
  split_and!; [done|apply Hm|]. destruct (Hc x) as [?|[?|?]]; [by left|by right|]. exfalso. by eapply Hm.
Qed.

Lemma fits_clean m d x p : fits m d x p -> p_tid p = 0 -> m = Quiet.
Proof.
  destruct m; simpl; [done|..].
  - intros (_ & -> & Ht & _) E. congruence.
  - intros (_ & -> & _ & _) E. cbn in E. congruence.
Qed.

Lemma cwp_wait_past Q C v : forall k wait1 n d m s, at_ v n d m s -> safe C v n m -> wait1 + tsc_offset < exec_time_at n + Z.of_nat k ->
  (forall n' t s1, (n < n')%nat -> exec_time_at n <= t < exec_time_at n' -> at_ v n' d m s1 -> Q s1 t) ->
  cw (wait_past tsc_offset i k wait1) Q C s.
Proof.
  induction k as [|k IH]; intros wait1 n d m s Ha Hc Hk HQ; simpl.
  all: (eapply step_time; [done|done|]; intros n1 t s1 Hn Ht H1; assert (safe C v n1 m) as Hc1 by (eapply safe_later; [done|lia])).
  all: destruct (Z.ltb_spec (wait1 + tsc_offset) t) as [Hlt|Hge]; [eapply done_ret; [done|done|by apply (HQ n1)]|].
  - lia.
  - eapply IH; [done|done|lia|]. intros n2 t2 s2 Hn2 Ht2 H2. apply (HQ n2); [lia|lia|done].
Qed.

Definition spun_ok (m : mark) (d : CasHelpDescriptor) (x : Z) (old : PShared) (r : spun) : Prop :=
  match r with
  | Clean cur => m = Quiet /\ p_tid cur = 0
  | Changed cur => m = Quiet /\ fits m d x cur /\ p_tid cur <> 0
  | Expired => True
  end.

Lemma cwp_spin Q C v x old t_cur : forall k n d m s, at_ v n d m s -> safe C v n m -> fits m d x old -> t_cur + patience < exec_time_at n + Z.of_nat k ->
  (forall n' s1 r, (n <= n')%nat -> at_ v n' d m s1 -> spun_ok m d x old r -> Q s1 r) ->
  cw (spin patience i k x old t_cur) Q C s.
Proof.
  induction k as [|k IH]; intros n d m s Ha Hc Hf Hk HQ; simpl.
  all: (eapply step_gets; [done|done|]; intros s1 H1; pose proof (read_fits _ _ _ _ _ x H1 (fits_on _ _ _ _ Hf)) as Hr).
  all: destruct (Z.eqb_spec (p_tid (d_loc s1 x)) 0) as [E|E]; [eapply done_ret; [done|done|apply (HQ n); [lia|done|]; split; [by eapply fits_clean|done]]|].
  all: destruct (decide (old <> d_loc s1 x)) as [Hne|Heq].
  1, 3: (eapply done_ret; [done|done|]; apply (HQ n); [lia|done|]; split; [|done]; destruct m; simpl in *; [done|..]; exfalso; apply Hne; destruct Hf as (_ & E1 & _), Hr as (_ & E2 & _); congruence).
  all: (eapply step_time; [done|done|]; intros n1 t s2 Hn Ht H2; assert (safe C v n1 m) as Hc1 by (eapply safe_later; [done|lia])).
  all: destruct (Z.ltb_spec (t_cur + patience) t) as [Hlt|Hge]; [eapply done_ret; [done|done|by apply (HQ n1); [lia|..]]|].
  - lia.
  - eapply IH; [done|done|done|lia|]. intros n2 s3 r Hn2 H3 Hr3. apply (HQ n2); [lia|done|done].
Qed.

(** Patience runs out only after the timestamp was taken; it is taken while the
    word was there. *)
Lemma cwp_chk_loop Q C v x : forall k old n d m s, at_ v n d m s -> safe C v n m -> fits m d x old -> p_tid old <> 0 ->
  (forall n' s1 cur, (n <= n')%nat -> at_ v n' d Quiet s1 -> m = Quiet -> p_tid cur = 0 -> Q s1 (inl cur)) ->
  (forall n' s1 old' t, (n <= n')%nat -> at_ v n' d m s1 -> fits m d x old' -> p_tid old' <> 0 -> exec_time_at n <= t < exec_time_at n' -> Q s1 (inr (old', t))) ->
  cw (chk_loop tsc_offset patience fuel i k x old) Q C s.
Proof.
  induction k as [|k IH]; intros old n d m s Ha Hc Hf Ht HQl HQr; cbn [chk_loop].
  all: (eapply step_time; [done|done|]; intros n1 wait1 s1 Hn1 Hw H1; assert (safe C v n1 m) as Hc1 by (eapply safe_later; [done|lia])).
  all: (apply cwp_bind; eapply cwp_wait_past; [done|done|lia|]; intros n2 t s2 Hn2 Ht2 H2; assert (safe C v n2 m) as Hc2 by (eapply safe_later; [done|lia])).
  all: (apply cwp_bind; eapply cwp_spin; [done|done|done|lia|]; intros n3 s3 r Hn3 H3 Hr; assert (safe C v n3 m) as Hc3 by (eapply safe_later; [done|lia])).
  all: pose proof (exec_time_mono n2 n3 Hn3); pose proof (exec_time_mono n n1 ltac:(lia)).
  all: (destruct r as [cur|cur|]; cbn in Hr;
    [destruct Hr as [-> Hr]; eapply done_ret; [done|done|]; apply (HQl n3); [lia|done..]|
    |eapply done_ret; [done|done|]; apply (HQr n3); [lia|done|done|done|lia]]).
  all: destruct Hr as (-> & Hcur & Htid).
  - eapply stuck; [done|done|]. destruct Hf as (_ & _ & [?|?]); done.
  - eapply IH; [done|done|done|done|..].
    + intros n4 s4 cur' Hn4 H4 Em Et. apply (HQl n4); [lia|done..].
    + intros n4 s4 old' t4 Hn4 H4 Hf4 Et4 Ht4. apply (HQr n4); [lia|done|done|done|lia].
Qed.

(** ** Helping *)

(** An access with a fact that others keep. *)
Lemma step_with {A X} (F : DS -> Prop) (a : M DS X) (k : X -> P DS A) Q (C : DS -> Prop) v n d m s :
  at_ v n d m s -> F s -> (forall s s', F s -> others s s' -> F s') -> safe C v n m ->
  (forall s1, at_ v n d m s1 -> F s1 -> awp D a (fun s2 x => cw (k x) Q C s2) s1) -> cw (pbind (act a) k) Q C s.
Proof.
  intros Ha HF Hst Hc H. split; [by eapply Hc|]. intros s1 HR. eapply (awp_conseq others G D); [apply H; [by eapply at_others|by eapply Hst]|]. done.
Qed.

(** No descriptor with this sequence number is in use. *)
Definition unused (q : Z) (s : DS) : Prop := forall x, p_tid (d_loc s x) = i -> p_desc (d_loc s x) = 1 -> p_off (d_loc s x) < q.

Lemma unused_others q s s' : unused q s -> others s s' -> unused q s'.
Proof. intros H [_ _ _ _ Ol] x. destruct (Ol x) as [->|(_ & _ & ? & _)]; [apply H|done]. Qed.

Lemma at_redesc v n d d' m s : at_ v n d m s -> unused (seq d') s -> (forall x w, m <> Registered x w) -> at_ v n d' m (put_desc i d' s).
Proof.
  intros [Hv Hn Hd Hm Hb Hs Hh Hc] Hu Hne.
  assert (forall x, mine d' (d_loc s x) -> mine d (d_loc s x)) as Hmine.
  { intros x (Ht & [E|(E & Eo & _)]); [split; tauto|]. specialize (Hu x Ht E). lia. }
  split; simpl; [by rewrite <- Hv|done|by rewrite fn_lookup_insert| |done|intros x Ht E; specialize (Hu x Ht E); lia| |].
  - destruct m as [|x w|x w]; simpl in *; [intros x Hx; by apply (Hm x), Hmine| |by destruct (Hne x w)].
    destruct Hm as (E & Ht & Hw & Ho). split_and!; try done. intros y Hy. by apply Ho, Hmine.
  - intros j Hj. rewrite fn_lookup_insert_ne by done. by apply Hh.
  - intros x. destruct (Hc x) as [?|[?|Hx]]; [by left|tauto|]. right; right.
    destruct m as [|y w|y w]; simpl in *; [by destruct (Hm x)| |by destruct (Hne y w)].
    destruct Hm as (E & Ht & Hw & Ho). apply Ho in Hx as ->. rewrite E. split; tauto.
Qed.

(** Replacing a word that is not of this thread by one that is not either. *)
Lemma at_put v n d s x p : at_ v n d Quiet s -> bit (p_desc p) -> ~ mine d p -> (p_tid p = i -> p_desc p = 1 -> p_off p <= seq d) -> D \/ p_tid p = 0 ->
  at_ v n d Quiet (put_loc x p s).
Proof.
  intros [Hv Hn Hd Hm Hb Hs Hh Hc] Hp Hno Hsq Ht.
  assert (forall (F : PShared -> Prop), F p -> (forall y, F (d_loc s y)) -> forall y, F ((<[x := p]> (d_loc s) : Z -> PShared) y)) as Hall.
  { intros F Fp Fs y. destruct (decide (y = x)) as [->|?]; [by rewrite fn_lookup_insert|by rewrite fn_lookup_insert_ne]. }
  split; simpl; try done.
  - apply (Hall (fun w => ~ mine d w)); done.
  - apply (Hall (fun w => bit (p_desc w))); done.
  - apply (Hall (fun w => p_tid w = i -> p_desc w = 1 -> p_off w <= seq d)); done.
  - apply (Hall (fun w => D \/ p_tid w = 0 \/ mine d w)); [tauto|done].
Qed.

(** Removing, or covering by a descriptor, the marked pointer of the thread. *)
Lemma at_land v n d m s x w : at_ v n d m s -> m = Flying x w \/ m = Registered x w -> forall p, bit (p_desc p) -> p_tid p = 0 -> at_ v n d Quiet (put_loc x p s).
Proof.
  intros [Hv Hn Hd Hm Hb Hs Hh Hc] Em p Hp Ht.
  assert (forall y, mine d (d_loc s y) -> y = x) as Ho by (destruct Em as [-> | ->]; simpl in Hm; tauto).
  split; simpl; try done; intros y; (destruct (decide (y = x)) as [->|Hy]; [rewrite fn_lookup_insert|rewrite fn_lookup_insert_ne by done]).
  - intros [E _]. congruence.
  - intros Hy'. by apply Hy, Ho.
  - done.
  - apply Hb.
  - congruence.
  - apply Hs.
  - tauto.
  - apply Hc.
Qed.

Lemma at_cover v n d s x w : at_ v n d (Flying x w) s -> unused (seq d) s -> tmp_new d = w -> at_ v n d (Registered x w) (put_loc x (desc_ptr i (seq d)) s).
Proof.
  intros [Hv Hn Hd (E & Ht & Hw & Ho) Hb Hs Hh Hc] Hu Et.
  assert (mine d (desc_ptr i (seq d))) as Hm by (split; [done|]; right; by rewrite Et).
  split; simpl; try done.
  - rewrite fn_lookup_insert. split_and!; try done. intros y. destruct (decide (y = x)) as [->|Hy]; [done|]. rewrite fn_lookup_insert_ne by done. apply Ho.
  - intros y. destruct (decide (y = x)) as [->|Hy]; [rewrite fn_lookup_insert; by right|rewrite fn_lookup_insert_ne by done; apply Hb].
  - intros y. destruct (decide (y = x)) as [->|Hy]; [rewrite fn_lookup_insert; simpl; lia|rewrite fn_lookup_insert_ne by done; apply Hs].
  - intros y. destruct (decide (y = x)) as [->|Hy]; [rewrite fn_lookup_insert; tauto|rewrite fn_lookup_insert_ne by done; apply Hc].
Qed.

Lemma not_mine_tid d p : ~ mine d p -> p_desc p = 0 -> p_tid p <> i.
Proof. intros H E Ht. apply H. split; tauto. Qed.

Lemma cwp_register (Q : DS -> PShared + PShared -> Prop) (C : DS -> Prop) v n d m s x old :
  at_ v n d m s -> fits m d x old -> p_desc old = 0 -> p_tid old <> 0 -> safe C v n m -> (forall w, m = Flying x w -> safe C v n (Registered x w)) ->
  (forall d' s1 r, at_ v n d' Quiet s1 -> m = Quiet -> D ->
     fits Quiet d' x (match r with inl p | inr p => p end) -> (forall p, r = inl p -> p_desc p = 1 /\ p_tid p <> 0) -> Q s1 r) ->
  (forall d' s1 w, m = Flying x w -> at_ v n d' (Registered x w) s1 -> Q s1 (inl (desc_ptr i (seq d')))) ->
  cw (register_help i x old) Q C s.
Proof.
  intros Ha Hf Hd0 Ht0 Hc Hcr HQ HF. unfold register_help.
  eapply step; [done|done|]. intros s1 H1. unfold awp, assert. rewrite Hd0. cbn [Z.eqb].
  eapply step_gets; [done|done|]. intros s2 H2. rewrite (at_desc _ _ _ _ _ H2). cbn zeta. set (q := seq d + 1).
  assert (forall x w, m <> Registered x w) as Hnr by (intros y w ->; destruct Hf as (_ & -> & _); done).
  eapply step; [done|done|]. intros s3 H3. apply awp_modify. rewrite (at_desc _ _ _ _ _ H3).
  assert (unused q s3) as Hu3 by (intros y Ht E; pose proof (at_seq _ _ _ _ _ H3 y Ht E); unfold q; lia).
  pose proof (at_redesc _ _ _ (mkDesc (tmp_new d) q) _ _ H3 Hu3 Hnr) as H4.
  eapply (step_with (unused q)); [done|exact Hu3|apply unused_others|done|]. intros s4 H4' Hu4. apply awp_modify. rewrite (at_desc _ _ _ _ _ H4'). cbn [seq].
  pose proof (at_redesc _ _ _ (mkDesc old q) _ _ H4' Hu4 Hnr) as H5.
  eapply (step_with (unused q)); [done|exact Hu4|apply unused_others|done|]. intros s5 H5' Hu5. unfold awp, compare_exchange.
  destruct m as [|y w|y w]; [| |by destruct (Hnr y w)].
  - destruct Hf as (_ & Hno & [HD|?]); [|done]. assert (p_tid old <> i) as Hti by (by eapply not_mine_tid).
    destruct (decide (d_loc s5 x = old)) as [E|E].
    + assert (fits Quiet (mkDesc old q) x (desc_ptr i q)) as Hfq.
      { split_and!; [by right|intros (_ & [?|(_ & _ & ?)]); done|by left]. }
      eapply done_ret; [apply at_put; [exact H5'|apply Hfq|apply Hfq|intros _ _; simpl; lia|by left]|done|].
      apply (HQ (mkDesc old q)); [|done|done|done|intros p [= <-]; done]. apply at_put; [exact H5'|apply Hfq|apply Hfq|intros _ _; simpl; lia|by left].
    + eapply done_ret; [exact H5'|done|]. apply (HQ (mkDesc old q)); [done|done|done|by eapply read_fits|done].
  - destruct Hf as (-> & -> & Hti & _). rewrite decide_True by (destruct (at_mem _ _ _ _ _ H5') as (? & _); done).
    pose proof (at_cover _ _ _ _ _ _ H5' Hu5 eq_refl) as H6. eapply done_ret; [exact H6|by apply Hcr|]. exact (HF (mkDesc w q) _ w eq_refl H6).
Qed.

(** A helper of the thread itself records the time for it. *)
Definition helped (w : PShared) (t : Z) (v : view) : view :=
  mkView (v_own v) (<[negb (p_aux w =? 0) := t]> (v_help v)) (v_mmt v) (v_rec v) (v_local v) (v_log v).

Lemma cwp_finalize_other (Q : DS -> PShared + PShared -> Prop) (C : DS -> Prop) v n d s x old t_cur :
  at_ v n d Quiet s -> fits Quiet d x old -> p_desc old = 1 -> safe C v n Quiet ->
  (forall s1 r, at_ v n d Quiet s1 -> (forall p, r = inl p -> p_tid p = 0) -> (forall p, r = inr p -> fits Quiet d x p) -> Q s1 r) ->
  cw (finalize_help x old t_cur) Q C s.
Proof.
  intros Ha Hf Hd1 Hc HQ. unfold finalize_help.
  assert (forall s1 p, at_ v n d Quiet s1 -> fits Quiet d x p -> cw (PRet (inr p)) Q C s1) as Hret.
  { intros s1 p H1 Hp. eapply done_ret; [done|done|]. apply HQ; [done|done|]. by intros p' [= ->]. }
  assert (forall s1, at_ v n d Quiet s1 -> cw (cur <- act (gets (fun s => d_loc s x)) ;; PRet (inr cur)) Q C s1) as Hload.
  { intros s1 H1. eapply step_gets; [done|done|]. intros s2 H2. apply Hret; [done|]. by eapply read_fits. }
  eapply step; [done|done|]. intros s1 H1. unfold awp, assert. rewrite Hd1. cbn [Z.eqb].
  eapply step_gets; [done|done|]. intros s2 H2. set (w := tmp_new (help_desc s2 (p_tid old))).
  eapply step_gets; [done|done|]. intros s3 H3. case_decide as Hq; [by apply Hload|].
  assert (p_tid w <> i) as Hw.
  { unfold w. destruct (decide (p_tid old = i)) as [E|E]; [|by apply (at_helpers _ _ _ _ _ H2)].
    rewrite E, (at_desc _ _ _ _ _ H2). intros Hw. apply (proj1 (proj2 Hf)). split; [done|]. right. split_and!; [done| |done].
    revert Hq. rewrite E, (at_desc _ _ _ _ _ H3). intros Hq. destruct (decide (p_off old = seq d)); tauto. }
  cbn zeta. eapply step_gets; [done|done|]. intros s4 H4. set (th := help s4 (p_tid w) (negb (p_aux w =? 0))).
  assert (forall s5 (b : bool), at_ v n d Quiet s5 -> cw (if negb b then cur <- act (gets (fun s => d_loc s x)) ;; PRet (inr cur)
    else r <- act (compare_exchange x old (set_tid 0 (set_desc 0 (set_aux 0 w)))) ;;
         PRet (match r with None => inl (set_tid 0 (set_desc 0 (set_aux 0 w))) | Some cur => inr cur end)) Q C s5) as Hend.
  { intros s5 b H5. destruct b; cbn [negb]; [|by apply Hload]. eapply step; [done|done|]. intros s6 H6. unfold awp, compare_exchange.
    case_decide as E; [|apply Hret; [done|by eapply read_fits]].
    assert (at_ v n d Quiet (put_loc x (set_tid 0 (set_desc 0 (set_aux 0 w))) s6)) as H7.
    { apply at_put; [done|by left|intros [Ht _]; cbn in Ht; congruence|cbn; congruence|by right]. }
    eapply done_ret; [exact H7|done|]. apply HQ; [done|by intros p [= <-]|done]. }
  destruct (Z.leb_spec t_cur th) as [Hle|Hgt]; [by apply Hend|]. apply cwp_bind. split; [by eapply Hc|].
  intros s5 HR. unfold awp, help_compare_exchange. eapply at_others in H4; [|done]. destruct (help s5 _ _ =? th); [|split; [done|split; [by eapply Hc|by apply Hend]]].
  assert (at_ v n d Quiet (put_help (p_tid w) (negb (p_aux w =? 0)) t_cur s5)) as H6.
  { eapply at_step; [exact H4|done|done| |apply H4]. rewrite <- (at_view _ _ _ _ _ H4). unfold view_of. simpl. by rewrite fn_lookup_insert_ne. }
  split; [done|]. split; [by eapply Hc|by apply Hend].
Qed.

Lemma cwp_finalize_own (Q : DS -> PShared + PShared -> Prop) (C : DS -> Prop) v n d s x w t :
  at_ v n d (Registered x w) s -> v_help v (negb (p_aux w =? 0)) < t -> safe C v n (Registered x w) ->
  safe C (helped w t v) n (Registered x w) -> safe C (helped w t v) n Quiet ->
  (forall s1 p, at_ (helped w t v) n d Quiet s1 -> p_tid p = 0 -> Q s1 (inl p)) ->
  cw (finalize_help x (desc_ptr i (seq d)) t) Q C s.
Proof.
  intros Ha Ht Hc Hch Hcq HQ. unfold finalize_help. cbn [p_desc p_tid p_off desc_ptr Z.eqb].
  assert (tmp_new d = w /\ p_tid w = i) as [Ew Hw] by (destruct (at_mem _ _ _ _ _ Ha); tauto).
  eapply step; [done|done|]. intros s1 H1. unfold awp, assert. cbn [Z.eqb].
  eapply step_gets; [done|done|]. intros s2 H2. rewrite (at_desc _ _ _ _ _ H2), Ew.
  eapply step_gets; [done|done|]. intros s3 H3. rewrite (at_desc _ _ _ _ _ H3), decide_False by tauto. cbn zeta. rewrite Hw.
  set (p := negb (p_aux w =? 0)) in *.
  eapply (step_view (fun v => v_help v p)); [done|done|done|]. intros s4 H4.
  rewrite (proj2 (Z.leb_gt t (v_help v p)) Ht). apply cwp_bind. split; [by eapply Hc|]. intros s5 HR. eapply at_others in H4; [|done].
  unfold awp, help_compare_exchange.
  assert (help s5 i p = v_help v p) as -> by (by rewrite <- (at_view _ _ _ _ _ H4)). rewrite Z.eqb_refl.
  assert (at_ (helped w t v) n d (Registered x w) (put_help i p t s5)) as H6.
  { eapply at_step; [exact H4|done|done| |apply H4]. rewrite <- (at_view _ _ _ _ _ H4). unfold view_of, helped. simpl. by rewrite fn_lookup_insert. }
  split; [done|]. split; [by eapply Hch|]. cbn [negb].
  eapply step; [exact H6|done|]. intros s7 H7. unfold awp, compare_exchange. rewrite decide_True by (destruct (at_mem _ _ _ _ _ H7); done).
  assert (at_ (helped w t v) n d Quiet (put_loc x (set_tid 0 (set_desc 0 (set_aux 0 w))) s7)) as H8.
  { eapply at_land; [exact H7|by right|by left|done]. }
  eapply done_ret; [exact H8|done|]. by apply HQ.
Qed.

(** What a crash while helping may leave. *)
Definition safe_help (C : DS -> Prop) (v : view) (n : nat) (m : mark) : Prop :=
  safe C v n m /\
  match m with
  | Quiet => True
  | Flying x w | Registered x w =>
      safe C v n (Registered x w) /\
      forall t n', (n <= n')%nat -> exec_time_at n <= t < exec_time_at n' -> safe C (helped w t v) n' (Registered x w) /\ safe C (helped w t v) n' Quiet
  end.

(** The result of helping: a clean pointer; an exchange of the thread itself is
    finished, with the time of help recorded. *)
Definition help_done (m : mark) (v : view) (n : nat) (old : PShared) (s : DS) (p : PShared) : Prop :=
  p_tid p = 0 /\ exists n' d', (n <= n')%nat /\
  match m with
  | Quiet => at_ v n' d' Quiet s /\ (D \/ p = old)
  | Flying x w | Registered x w => exists t, exec_time_at n <= t < exec_time_at n' /\ at_ (helped w t v) n' d' Quiet s
  end.

Lemma safe_help_later C v n n' m : safe_help C v n m -> (n <= n')%nat -> safe_help C v n' m.
Proof.
  intros [H1 H2] Hn. split; [by eapply safe_later|]. destruct m as [|x w|x w]; [done|..]; destruct H2 as [H2 H3].
  all: (split; [by eapply safe_later|]; intros t n2 Hn2 Ht; apply H3; [lia|]; pose proof (exec_time_mono _ _ Hn); lia).
Qed.

Lemma cwp_finalize_or C v n0 n d m s x old old0 t again (Q : DS -> PShared -> Prop) :
  at_ v n d m s -> fits m d x old -> p_desc old = 1 -> (m = Quiet -> D) -> safe_help C v n0 m -> (n0 <= n)%nat -> exec_time_at n0 <= t < exec_time_at n ->
  (forall p, v_help v p < exec_time_at n0) ->
  (forall s1 cur, m = Quiet -> at_ v n d Quiet s1 -> fits Quiet d x cur -> cw (again cur) Q C s1) ->
  (forall s1 p, help_done m v n0 old0 s1 p -> Q s1 p) -> cw (finalize_or x old t again) Q C s.
Proof.
  intros Ha Hf Hd1 HD Hc0 Hn0 Ht Hh Hag HQ. destruct (safe_help_later _ _ _ _ _ Hc0 Hn0) as [Hc Hcr]. unfold finalize_or. apply cwp_bind. destruct m as [|y w|y w].
  - eapply cwp_finalize_other; [done|done|done|done|]. intros s1 r H1 Hl Hr. destruct r as [p|p].
    + eapply done_ret; [done|done|]. apply HQ. split; [by apply Hl|]. exists n, d. split; [lia|]. split; [done|left; by apply HD].
    + apply Hag; [done|done|by apply Hr].
  - destruct Hf as (_ & -> & _ & ?). congruence.
  - destruct Hf as (<- & -> & _). destruct Hc0 as [_ [_ Hc1]]. destruct (Hc1 t n Hn0 Ht) as [Hc2 Hc3].
    specialize (Hh (negb (p_aux w =? 0))).
    eapply cwp_finalize_own; [done|lia|done|done|done|]. intros s1 p H1 Hp. eapply done_ret; [done|done|]. apply HQ.
    split; [done|]. exists n, d. split; [done|]. by exists t.
Qed.

Lemma fits_bit m d x p : fits m d x p -> bit (p_desc p).
Proof. destruct m as [|y w|y w]; [by intros [? _]|intros (_ & -> & _ & ->); by left|intros (_ & -> & _); by right]. Qed.

Lemma cwp_help_round C v n d m s x old again (Q : DS -> PShared -> Prop) :
  at_ v n d m s -> fits m d x old -> p_tid old <> 0 -> safe_help C v n m -> (forall p, v_help v p < exec_time_at n) ->
  (forall n1 d1 s1 cur, m = Quiet -> (n <= n1)%nat -> at_ v n1 d1 Quiet s1 -> fits Quiet d1 x cur -> cw (again cur) Q C s1) ->
  (forall s1 p, help_done m v n old s1 p -> Q s1 p) -> cw (help_round tsc_offset patience fuel i x old again) Q C s.
Proof.
  intros Ha Hf E0 Hc Hh Hag HQ. pose proof (proj1 Hc) as Hc0.
  assert (m = Quiet -> D) as HD by (intros ->; by destruct (proj2 (proj2 Hf))).
  unfold help_round. apply cwp_bind. eapply cwp_chk_loop; [done|done|done|done|..].
  { intros n1 s1 cur Hn1 H1 -> Hcur. eapply done_ret; [done|by eapply safe_later|]. apply HQ. split; [done|]. exists n1, d. split; [lia|].
    split; [done|left; by apply HD]. }
  intros n1 s1 old1 t Hn1 H1 Hf1 Et1 Ht1.
  assert (is_non_detectable_cas old1 = false) as -> by (unfold is_non_detectable_cas; rewrite (proj2 (Z.eqb_neq _ _) Et1); apply andb_false_r).
  assert (forall d2 s2 m2 p, at_ v n1 d2 m2 s2 -> fits m2 d2 x p -> p_desc p = 1 -> safe_help C v n m2 -> (m2 = Quiet -> m = Quiet) ->
    (forall s1 p, help_done m2 v n old s1 p -> Q s1 p) -> cw (finalize_or x p t again) Q C s2) as Hfin.
  { intros d2 s2 m2 p H2 Hp Hdp Hc2 Hq HQ2. eapply cwp_finalize_or; [done|done|done|by eauto|exact Hc2|done|done|done| |exact HQ2].
    intros s3 cur Em H3 Hf3. by eapply (Hag n1); [apply Hq|..]. }
  destruct (Z.eqb_spec (p_desc old1) 0) as [Ed|Ed]; [|by eapply Hfin; [..|destruct (fits_bit _ _ _ _ Hf1)| | |]].
  apply cwp_bind. eapply cwp_register; [done|done|done|done|by eapply safe_later|intros w ->; eapply safe_later; [apply Hc|done]|..].
  - intros d2 s2 r H2 -> HD' Hfr Hl. destruct r as [p|p]; [by eapply Hfin; [..|apply Hl| | |]|].
    destruct (Z.eqb_spec (p_desc p) 0) as [Ep|Ep]; [by eapply (Hag n1)|]. by eapply Hfin; [..|destruct (fits_bit _ _ _ _ Hfr)| | |].
  - intros d2 s2 w -> H2. assert (tmp_new d2 = w /\ p_tid w = i) as [Ew Hw] by (destruct (at_mem _ _ _ _ _ H2); tauto).
    eapply (Hfin d2 s2 (Registered x w)); try done. destruct Hc as [_ [Hc1 Hc2]]. done.
Qed.

Lemma cwp_load_help C v x : forall k n old d m s (Q : DS -> PShared -> Prop), at_ v n d m s -> fits m d x old -> safe_help C v n m -> (forall p, v_help v p < exec_time_at n) ->
  (forall s1 p, help_done m v n old s1 p -> Q s1 p) -> cw (load_help tsc_offset patience fuel i k x old) Q C s.
Proof.
  induction k as [|k IH]; intros n old d m s Q Ha Hf Hc Hh HQ; cbn [load_help].
  all: (destruct (Z.eqb_spec (p_tid old) 0) as [E0|E0];
    [pose proof (fits_clean _ _ _ _ Hf E0) as ->; eapply done_ret; [done|apply Hc|]; apply HQ; split; [done|]; exists n, d; split; [lia|]; split; [done|by right]|]).
  all: (eapply cwp_help_round; [done|done|done|done|done| |done]; intros n1 d1 s1 cur -> Hn1 H1 Hf1; assert D as HD by (by destruct (proj2 (proj2 Hf)))).
  - eapply stuck; [done|by eapply safe_later; [apply Hc|]|done].
  - eapply IH; [done|done|by eapply safe_help_later|intros p; pose proof (exec_time_mono _ _ Hn1); specialize (Hh p); lia|].
    intros s2 p (Hp & n2 & d2 & Hn2 & H2 & _). apply HQ. split; [done|]. exists n2, d2. split; [lia|]. split; [done|by left].
Qed.

(** ** The operations of a session *)
Context (request : list Result -> Z * PShared * PShared) (Hreq : forall rs, p_desc (snd (request rs)) = 0).

(** The pointer that an exchange installs first. *)
Definition marked (parity : bool) (new : PShared) : PShared := set_tid i (set_aux (Z.b2z parity) new).

(** The record of a finished operation. *)
Definition recorded (rs : list Result) (v : view) (k : nat) (r : Result) (c : CasTs) : Prop :=
  checkpoint (buf0 (v_mmt v k)) = cas_ts0 /\ checkpoint (buf1 (v_mmt v k)) = c /\
  match r with
  | Ok => ct_fail c = false /\ v_log v k = [request (take k rs)]
  | Err cur => ct_fail c = true /\ fail_current (buf1 (v_mmt v k)) = cur /\ v_log v k = [] /\ cur <> snd (fst (request (take k rs)))
  end.

Record passed (rs : list Result) (cps : list CasTs) (v : view) (n : nat) : Prop := {
  pa_len : length cps = length rs;
  pa_done : forall k r c, rs !! k = Some r -> cps !! k = Some c -> recorded rs v k r c;
  pa_time : forall k c, cps !! k = Some c -> 0 < ct_time c < exec_time_at n;
  pa_incr : forall k k' c c', (k < k')%nat -> cps !! k = Some c -> cps !! k' = Some c' -> ct_time c < ct_time c';
  pa_rest : forall k, (length rs <= k)%nat -> checkpoint (buf0 (v_mmt v k)) = cas_ts0 /\ checkpoint (buf1 (v_mmt v k)) = cas_ts0;
  pa_log : forall k, (length rs < k)%nat -> v_log v k = [];
  pa_help : forall p, v_help v p < exec_time_at n;
}.

(** The checkpoint of the last exchange that took place. *)
Definition is_own (rs : list Result) (cps : list CasTs) (o : CasTs) : Prop :=
  (o = cas_ts0 /\ forall k, rs !! k <> Some Ok) \/
  exists k, rs !! k = Some Ok /\ cps !! k = Some o /\ forall k', (k < k')%nat -> rs !! k' <> Some Ok.

(** How far the next operation is: nothing happened, ... *)
Definition idle (rs : list Result) (o : CasTs) (v : view) (m : mark) : Prop :=
  m = Quiet /\ v_log v (length rs) = [] /\ v_help v (negb (ct_parity o)) <= ct_time o.

(** ... its exchange took place, and the pointer is marked or a helper has left
    a timestamp; ... *)
Definition exchanged (rs : list Result) (o : CasTs) (v : view) (m : mark) : Prop :=
  v_log v (length rs) = [request rs] /\
  (m = Flying (fst (fst (request rs))) (marked (negb (ct_parity o)) (snd (request rs))) \/
   m = Registered (fst (fst (request rs))) (marked (negb (ct_parity o)) (snd (request rs))) \/
   m = Quiet /\ ct_time o < v_help v (negb (ct_parity o))).

(** ... or the operation before it is recorded, but its pointer still marked. *)
Definition late (rs : list Result) (o : CasTs) (v : view) (m : mark) : Prop :=
  exists rs0, rs = rs0 ++ [Ok] /\ m = Flying (fst (fst (request rs0))) (marked (ct_parity o) (snd (request rs0))) /\
  v_log v (length rs) = [] /\ v_help v (negb (ct_parity o)) <= ct_time o.

Definition mid (rs : list Result) (o : CasTs) (v : view) (m : mark) : Prop := idle rs o v m \/ exchanged rs o v m.

Definition Inv (rs : list Result) (cps : list CasTs) (o : CasTs) (v : view) (n : nat) (m : mark) : Prop :=
  passed rs cps v n /\ is_own rs cps o /\ (mid rs o v m \/ late rs o v m).

Definition CrashInv (N : nat) (s : DS) : Prop :=
  exists rs cps o v n d m, (length rs <= N)%nat /\ at_ v n d m s /\ Inv rs cps o v n m.

Lemma Inv_safe N rs cps o v n m : (length rs <= N)%nat -> Inv rs cps o v n m -> safe (CrashInv N) v n m.
Proof. intros Hl HI d s Ha. by exists rs, cps, o, v, n, d, m. Qed.

Lemma passed_later rs cps v n n' : passed rs cps v n -> (n <= n')%nat -> passed rs cps v n'.
Proof.
  intros [H1 H2 H3 H4 H5 H6 H7] Hn. pose proof (exec_time_mono _ _ Hn). split; try done.
  - intros k c Hk. specialize (H3 k c Hk). lia.
  - intros p. specialize (H7 p). lia.
Qed.

Lemma Inv_later rs cps o v n n' m : Inv rs cps o v n m -> (n <= n')%nat -> Inv rs cps o v n' m.
Proof. intros (H1 & H2 & H3) Hn. split_and!; [by eapply passed_later|done|done]. Qed.

(** Only the help timestamps, the mementos and the log matter. *)
Lemma Inv_ext rs cps o v v' n m : Inv rs cps o v n m -> v_help v' = v_help v -> v_mmt v' = v_mmt v -> v_log v' = v_log v -> Inv rs cps o v' n m.
Proof.
  intros ([H1 H2 H3 H4 H5 H6 H7] & Ho & Hm) Eh Em El. split_and!; [split|done|].
  all: unfold recorded, mid, idle, exchanged, late in *; by rewrite ?Eh, ?Em, ?El.
Qed.

Lemma own_time rs cps o v n : passed rs cps v n -> is_own rs cps o -> 0 <= ct_time o < exec_time_at n.
Proof.
  intros Hp [[-> _]|(k & _ & Hk & _)].
  - simpl. pose proof (exec_time_pos n). pose proof global_max_nonneg. lia.
  - pose proof (pa_time _ _ _ _ Hp k o Hk). lia.
Qed.

Lemma marked_aux b new : negb (p_aux (marked b new) =? 0) = b.
Proof. by destruct b. Qed.

(** A helper finishes the exchange. *)
Lemma Inv_helped rs cps o v n n' m t : Inv rs cps o v n m -> exchanged rs o v m -> (n <= n')%nat -> exec_time_at n <= t < exec_time_at n' ->
  let w := marked (negb (ct_parity o)) (snd (request rs)) in
  exchanged rs o (helped w t v) Quiet /\ Inv rs cps o (helped w t v) n' Quiet /\ Inv rs cps o (helped w t v) n' (Registered (fst (fst (request rs))) w).
Proof.
  intros (Hp & Ho & _) [Hl _] Hn Ht w. pose proof (own_time _ _ _ _ _ Hp Ho) as Hto. assert (passed rs cps (helped w t v) n') as Hp'.
  { destruct (passed_later _ _ _ _ _ Hp Hn) as [H1 H2 H3 H4 H5 H6 H7]. split; try done. intros p. simpl.
    destruct (decide (p = negb (p_aux w =? 0))) as [->|Hne]; [rewrite fn_lookup_insert; lia|by rewrite fn_lookup_insert_ne]. }
  assert (exchanged rs o (helped w t v) Quiet) as He.
  { split; [done|]. right; right. split; [done|]. cbn [helped v_help]. unfold w. rewrite marked_aux, fn_lookup_insert. lia. }
  split_and!; [done|split_and!; [done|done|left; by right]|split_and!; [done|done|left; right]]. split; [done|]. right; by left.
Qed.

Lemma exchanged_safe N rs cps o v n m : (length rs <= N)%nat -> Inv rs cps o v n m -> exchanged rs o v m -> safe_help (CrashInv N) v n m.
Proof.
  intros Hl HI He. split; [by eapply Inv_safe|]. pose proof HI as (Hp & Ho & _).
  assert (safe (CrashInv N) v n (Registered (fst (fst (request rs))) (marked (negb (ct_parity o)) (snd (request rs))))) as Hr.
  { eapply Inv_safe; [done|]. split_and!; [exact Hp|exact Ho|]. left; right. destruct He as [Hlog _]. split; [done|right; by left]. }
  assert (forall t n', (n <= n')%nat -> exec_time_at n <= t < exec_time_at n' ->
    safe (CrashInv N) (helped (marked (negb (ct_parity o)) (snd (request rs))) t v) n' (Registered (fst (fst (request rs))) (marked (negb (ct_parity o)) (snd (request rs)))) /\
    safe (CrashInv N) (helped (marked (negb (ct_parity o)) (snd (request rs))) t v) n' Quiet) as Hh.
  { intros t n' Hn Ht. destruct (Inv_helped _ _ _ _ _ _ _ _ HI He Hn Ht) as (_ & H1 & H2). split; by eapply Inv_safe. }
  destruct (proj2 He) as [-> |[-> |[-> _]]]; done.
Qed.

(** ** Recording *)
Definition with_local (t : Z) (v : view) : view := mkView (v_own v) (v_help v) (v_mmt v) (v_rec v) t (v_log v).
Definition with_rec (b : bool) (v : view) : view := mkView (v_own v) (v_help v) (v_mmt v) b (v_local v) (v_log v).
Definition with_own (c : CasTs) (v : view) : view := mkView c (v_help v) (v_mmt v) (v_rec v) (v_local v) (v_log v).
Definition with_buf (k : nat) (c : CasInner) (v : view) : view :=
  mkView (v_own v) (v_help v) (<[k := mkCas (buf0 (v_mmt v k)) c]> (v_mmt v)) (v_rec v) (v_local v) (v_log v).

Lemma step_local {A} t (k : unit -> P DS A) Q (C : DS -> Prop) v n d m s : at_ v n d m s -> safe C v n m ->
  (forall s1, at_ (with_local t v) n d m s1 -> cw (k tt) Q C s1) -> cw (pbind (act (@local_store DS hd t)) k) Q C s.
Proof.
  intros Ha Hc H. eapply step_own; [done|done| |exact H]. intros s1 <-. unfold upd_h, view_of, with_local. simpl. by rewrite !fn_lookup_insert.
Qed.

Lemma step_rec {A} b (k : unit -> P DS A) Q (C : DS -> Prop) v n d m s : at_ v n d m s -> safe C v n m ->
  (forall s1, at_ (with_rec b v) n d m s1 -> cw (k tt) Q C s1) -> cw (pbind (act (@rec_store DS hd b)) k) Q C s.
Proof.
  intros Ha Hc H. eapply step_own; [done|done| |exact H]. intros s1 <-. unfold upd_h, view_of, with_rec. simpl. by rewrite !fn_lookup_insert.
Qed.

Lemma step_put_own {A} c (k : unit -> P DS A) Q (C : DS -> Prop) v n d m s : at_ v n d m s -> safe C v n m ->
  (forall s1, at_ (with_own c v) n d m s1 -> cw (k tt) Q C s1) -> cw (pbind (act (modify (put_own i c))) k) Q C s.
Proof.
  intros Ha Hc H. eapply step_own; [done|done| |exact H]. intros s1 <-. unfold view_of, with_own. simpl. by rewrite fn_lookup_insert.
Qed.

Lemma step_checkpoint {A} k0 c (k : unit -> P DS A) Q (C : DS -> Prop) v n d m s : at_ v n d m s -> safe C v n m ->
  (forall s1, at_ (with_buf k0 (mkInner c (fail_current (buf1 (v_mmt v k0)))) v) n d m s1 -> cw (k tt) Q C s1) ->
  cw (pbind (act (put_checkpoint i k0 true c)) k) Q C s.
Proof.
  intros Ha Hc H. eapply step_own; [done|done| |exact H]. intros s1 <-. unfold view_of, with_buf. simpl. by rewrite fn_lookup_insert.
Qed.

Lemma step_fail_current {A} k0 p (k : unit -> P DS A) Q (C : DS -> Prop) v n d m s : at_ v n d m s -> safe C v n m ->
  (forall s1, at_ (with_buf k0 (mkInner (checkpoint (buf1 (v_mmt v k0))) p) v) n d m s1 -> cw (k tt) Q C s1) ->
  cw (pbind (act (put_fail_current i k0 true p)) k) Q C s.
Proof.
  intros Ha Hc H. eapply step_own; [done|done| |exact H]. intros s1 <-. unfold view_of, with_buf. simpl. by rewrite fn_lookup_insert.
Qed.

(** One more operation is recorded. *)
Lemma passed_snoc rs cps v n n' r c p : passed rs cps v n -> (n <= n')%nat -> exec_time_at n <= ct_time c < exec_time_at n' ->
  match r with
  | Ok => ct_fail c = false /\ v_log v (length rs) = [request rs]
  | Err cur => ct_fail c = true /\ p = cur /\ v_log v (length rs) = [] /\ cur <> snd (fst (request rs))
  end -> passed (rs ++ [r]) (cps ++ [c]) (with_buf (length rs) (mkInner c p) v) n'.
Proof.
  intros Hp Hn Hc Hr. pose proof (pa_len _ _ _ _ Hp) as Hlen. destruct (passed_later _ _ _ _ _ Hp Hn) as [_ H2 H3 H4 H5 H6 H7].
  pose proof (exec_time_pos n). pose proof global_max_nonneg.
  split.
  - rewrite !length_app. simpl. lia.
  - intros k r' c' Hk Hk'. destruct (decide (k = length rs)) as [->|Hne].
    + rewrite list_lookup_middle in Hk by done. rewrite list_lookup_middle in Hk' by done. injection Hk as <-. injection Hk' as <-.
      unfold recorded. cbn [with_buf v_mmt v_log]. rewrite fn_lookup_insert, take_app_length. cbn [buf0 buf1 checkpoint fail_current].
      split; [by apply H5|]. split; [done|]. destruct r as [|cur]; [done|]. by destruct Hr as (? & ? & ? & ?).
    + assert (k < length rs)%nat as Hlt by (apply lookup_lt_Some in Hk; rewrite length_app in Hk; simpl in Hk; lia).
      rewrite lookup_app_l in Hk by done. rewrite lookup_app_l in Hk' by lia. unfold recorded. cbn [with_buf v_mmt v_log].
      rewrite fn_lookup_insert_ne, take_app_le by (done || lia). by apply H2.
  - intros k c' Hk. destruct (decide (k = length cps)) as [->|Hne].
    + rewrite list_lookup_middle in Hk by done. injection Hk as <-. lia.
    + apply (H3 k). rewrite lookup_app_l in Hk; [done|]. apply lookup_lt_Some in Hk. rewrite length_app in Hk. simpl in Hk. lia.
  - intros k k' c1 c2 Hkk H1 H2'. assert (k' < length (cps ++ [c]))%nat as Hlt by (by eapply lookup_lt_Some). rewrite length_app in Hlt. simpl in Hlt.
    rewrite lookup_app_l in H1 by lia. destruct (decide (k' = length cps)) as [->|Hne].
    + rewrite list_lookup_middle in H2' by done. injection H2' as <-. pose proof (pa_time _ _ _ _ Hp k c1 H1). lia.
    + rewrite lookup_app_l in H2' by lia. exact (H4 k k' c1 c2 Hkk H1 H2').
  - intros k Hk. rewrite length_app in Hk. simpl in Hk. cbn [with_buf v_mmt]. rewrite fn_lookup_insert_ne by lia. apply H5. lia.
  - intros k Hk. rewrite length_app in Hk. simpl in Hk. apply H6. lia.
  - done.
Qed.

Lemma is_own_ok rs cps c : length cps = length rs -> is_own (rs ++ [Ok]) (cps ++ [c]) c.
Proof.
  intros Hl. right. exists (length rs). split_and!; [by apply list_lookup_middle|by apply list_lookup_middle|].
  intros k Hk E. apply lookup_lt_Some in E. rewrite length_app in E. simpl in E. lia.
Qed.

Lemma is_own_err rs cps o c cur : length cps = length rs -> is_own rs cps o -> is_own (rs ++ [Err cur]) (cps ++ [c]) o.
Proof.
  intros Hl Ho. assert (forall k, (rs ++ [Err cur]) !! k = Some Ok -> rs !! k = Some Ok) as Hk.
  { intros k E. apply lookup_app_Some in E as [?|[_ E]]; [done|]. apply list_lookup_singleton_Some in E as [_ ?]. done. }
  destruct Ho as [[-> Hno]|(k & Hr & Hc & Hmax)].
  - left. split; [done|]. intros k E. apply (Hno k). by apply Hk.
  - right. exists k. split_and!; [by apply lookup_app_l_Some|by apply lookup_app_l_Some|]. intros k' Hk' E. apply (Hmax k' Hk'). by apply Hk.
Qed.

(** A recorded success: the next operation can start, or the mark is left to
    remove. *)
Lemma Inv_ok rs cps o v n n' m t p : Inv rs cps o v n m -> exchanged rs o v m -> (forall x w, m <> Registered x w) -> (n <= n')%nat -> exec_time_at n <= t < exec_time_at n' ->
  let c := mkCasTs (negb (ct_parity o)) false t in
  Inv (rs ++ [Ok]) (cps ++ [c]) c (with_buf (length rs) (mkInner c p) v) n' m /\
  (match m with Quiet => idle | _ => late end) (rs ++ [Ok]) c (with_buf (length rs) (mkInner c p) v) m.
Proof.
  intros (Hp & Ho & _) [Hl Hm] Hnr Hn Ht c.
  assert (passed (rs ++ [Ok]) (cps ++ [c]) (with_buf (length rs) (mkInner c p) v) n') as Hp' by (by eapply passed_snoc).
  assert (v_log v (length (rs ++ [Ok])) = []) as Hl' by (rewrite length_app; simpl; apply (pa_log _ _ _ _ Hp); lia).
  assert (v_help v (negb (ct_parity c)) <= ct_time c) as Hh.
  { cbn [c ct_parity ct_time]. pose proof (pa_help _ _ _ _ Hp (negb (negb (ct_parity o)))). lia. }
  assert ((match m with Quiet => idle | _ => late end) (rs ++ [Ok]) c (with_buf (length rs) (mkInner c p) v) m) as Hph.
  { destruct Hm as [-> |[-> |[-> _]]]; [by exists rs|by destruct (Hnr _ _ eq_refl)|done]. }
  split; [|done]. split_and!; [done|apply is_own_ok, (pa_len _ _ _ _ Hp)|]. destruct m; [left; by left|by right..].
Qed.

Lemma Inv_err rs cps o v n n' t cur : Inv rs cps o v n Quiet -> idle rs o v Quiet -> cur <> snd (fst (request rs)) ->
  (n <= n')%nat -> exec_time_at n <= t < exec_time_at n' ->
  let c := mkCasTs false true t in
  Inv (rs ++ [Err cur]) (cps ++ [c]) o (with_buf (length rs) (mkInner c cur) v) n' Quiet /\
  idle (rs ++ [Err cur]) o (with_buf (length rs) (mkInner c cur) v) Quiet.
Proof.
  intros (Hp & Ho & _) (_ & Hl & Hh) Hne Hn Ht c.
  assert (idle (rs ++ [Err cur]) o (with_buf (length rs) (mkInner c cur) v) Quiet) as Hid.
  { split_and!; [done| |done]. rewrite length_app; simpl. apply (pa_log _ _ _ _ Hp). lia. }
  split; [|done]. split_and!; [by eapply passed_snoc|apply is_own_err; [apply (pa_len _ _ _ _ Hp)|done]|left; by left].
Qed.

(** Writing the failed pointer of an open operation. *)
Lemma Inv_fail_current rs cps o v n m p : Inv rs cps o v n m -> Inv rs cps o (with_buf (length rs) (mkInner (checkpoint (buf1 (v_mmt v (length rs)))) p) v) n m.
Proof.
  intros ([H1 H2 H3 H4 H5 H6 H7] & Ho & Hm). split_and!; [split; try done|done|done].
  - intros k r c Hk Hk'. unfold recorded. cbn [with_buf v_mmt v_log]. rewrite fn_lookup_insert_ne by (apply lookup_lt_Some in Hk; lia). by apply H2.
  - intros k Hk. cbn [with_buf v_mmt]. destruct (decide (k = length rs)) as [->|Hne]; [rewrite fn_lookup_insert; by apply H5|rewrite fn_lookup_insert_ne by done; by apply H5].
Qed.

Lemma cwp_checkpoint_succ N rs cps o v n d m s (Q : DS -> Z -> Prop) :
  at_ v n d m s -> Inv rs cps o v n m -> exchanged rs o v m -> (forall x w, m <> Registered x w) -> (length rs < N)%nat ->
  (forall s1 t n' v' cps', let c := mkCasTs (negb (ct_parity o)) false t in at_ v' n' d m s1 -> Inv (rs ++ [Ok]) cps' c v' n' m ->
     (match m with Quiet => idle | _ => late end) (rs ++ [Ok]) c v' m -> v_own v' = c -> 0 <= v_local v' -> Q s1 t) ->
  cw (checkpoint_succ i (length rs) true (negb (ct_parity o))) Q (CrashInv N) s.
Proof.
  intros Ha HI He Hnr Hlen HQ. unfold checkpoint_succ.
  eapply step_time; [done|eapply Inv_safe; [|done]; lia|]. intros n1 t s1 Hn1 Ht H1.
  pose proof (Inv_later _ _ _ _ _ n1 _ HI ltac:(lia)) as HI1.
  eapply step_checkpoint; [done|eapply Inv_safe; [|done]; lia|]. intros s2 H2. set (c := mkCasTs _ false t) in *.
  destruct (Inv_ok _ _ _ _ _ n1 _ t (fail_current (buf1 (v_mmt v (length rs)))) HI He Hnr ltac:(lia) Ht) as [HI2 Hph]. fold c in HI2, Hph.
  assert (length (rs ++ [Ok]) <= N)%nat as HN by (rewrite length_app; simpl; lia).
  eapply step_put_own; [done|by eapply Inv_safe|]. intros s3 H3.
  pose proof (Inv_ext _ _ _ _ (with_own c (with_buf (length rs) (mkInner c (fail_current (buf1 (v_mmt v (length rs))))) v)) _ _ HI2 eq_refl eq_refl eq_refl) as HI3.
  eapply step_local; [done|by eapply Inv_safe|]. intros s4 H4.
  eapply done_ret; [exact H4|eapply Inv_safe; [exact HN|by eapply Inv_ext]|].
  apply (HQ s4 t _ _ (cps ++ [c]) H4); [by eapply Inv_ext|by destruct m|done|]. simpl. pose proof (exec_time_pos n). pose proof global_max_nonneg. lia.
Qed.

Lemma cwp_checkpoint_fail N rs cps o v n d s cur (Q : DS -> unit -> Prop) :
  at_ v n d Quiet s -> Inv rs cps o v n Quiet -> idle rs o v Quiet -> cur <> snd (fst (request rs)) -> (length rs < N)%nat ->
  (forall s1 n' v' cps', at_ v' n' d Quiet s1 -> Inv (rs ++ [Err cur]) cps' o v' n' Quiet -> idle (rs ++ [Err cur]) o v' Quiet ->
     v_own v' = v_own v -> 0 <= v_local v' -> Q s1 tt) ->
  cw (checkpoint_fail i (length rs) true cur) Q (CrashInv N) s.
Proof.
  intros Ha HI Hid Hne Hlen HQ. unfold checkpoint_fail.
  eapply step_time; [done|eapply Inv_safe; [|done]; lia|]. intros n1 t s1 Hn1 Ht H1.
  pose proof (Inv_later _ _ _ _ _ n1 _ HI ltac:(lia)) as HI1.
  eapply step_fail_current; [done|eapply Inv_safe; [|done]; lia|]. intros s2 H2.
  pose proof (Inv_fail_current _ _ _ _ _ _ cur HI1) as HI2. set (v2 := with_buf _ _ v) in *.
  eapply step_checkpoint; [done|eapply Inv_safe; [|done]; lia|]. intros s3 H3.
  assert (fail_current (buf1 (v_mmt v2 (length rs))) = cur) as E by (cbn [v2 with_buf v_mmt]; by rewrite fn_lookup_insert). rewrite E in H3.
  destruct (Inv_err _ _ _ v2 _ n1 t cur (Inv_fail_current _ _ _ _ _ _ cur HI) Hid Hne ltac:(lia) Ht) as [HI3 Hid3].
  assert (length (rs ++ [Err cur]) <= N)%nat as HN by (rewrite length_app; simpl; lia).
  eapply step_local; [done|by eapply Inv_safe|]. intros s4 H4. eapply done_ret; [exact H4|eapply Inv_safe; [exact HN|by eapply Inv_ext]|].
  eapply HQ; [exact H4|by eapply Inv_ext|done|done|]. simpl. pose proof (exec_time_pos n). pose proof global_max_nonneg. lia.
Qed.

(** ** The exchange *)
Definition with_log (k : nat) (e : Z * PShared * PShared) (v : view) : view :=
  mkView (v_own v) (v_help v) (v_mmt v) (v_rec v) (v_local v) (<[k := v_log v k ++ [e]]> (v_log v)).

Lemma at_fly v n d s x w k e : at_ v n d Quiet s -> p_tid w = i -> p_desc w = 0 -> at_ (with_log k e v) n d (Flying x w) (log_exchange i k e (put_loc x w s)).
Proof.
  intros [Hv Hn Hd Hm Hb Hs Hh Hc] Ht Hw.
  assert (forall (F : PShared -> Prop), F w -> (forall y, F (d_loc s y)) -> forall y, F ((<[x := w]> (d_loc s) : Z -> PShared) y)) as Hall.
  { intros F Fp Fs y. destruct (decide (y = x)) as [->|?]; [by rewrite fn_lookup_insert|by rewrite fn_lookup_insert_ne]. }
  split; simpl; try done.
  - rewrite <- Hv. unfold view_of, with_log. simpl. by rewrite fn_lookup_insert.
  - rewrite fn_lookup_insert. split_and!; try done. intros y Hy. destruct (decide (y = x)) as [|Hne]; [done|].
    rewrite fn_lookup_insert_ne in Hy by done. by destruct (Hm y).
  - apply (Hall (fun p => bit (p_desc p))); [by left|done].
  - apply (Hall (fun p => p_tid p = i -> p_desc p = 1 -> p_off p <= seq d)); [congruence|done].
  - apply (Hall (fun p => D \/ p_tid p = 0 \/ mine d p)); [right; right; split; tauto|done].
Qed.

Lemma Inv_fly rs cps o v n : Inv rs cps o v n Quiet -> idle rs o v Quiet ->
  let m := Flying (fst (fst (request rs))) (marked (negb (ct_parity o)) (snd (request rs))) in
  Inv rs cps o (with_log (length rs) (request rs) v) n m /\ exchanged rs o (with_log (length rs) (request rs) v) m.
Proof.
  intros ([H1 H2 H3 H4 H5 H6 H7] & Ho & _) (_ & Hl & Hh) m.
  assert (exchanged rs o (with_log (length rs) (request rs) v) m) as He.
  { split; [|by left]. cbn [with_log v_log]. by rewrite fn_lookup_insert, Hl. }
  split; [|done]. split_and!; [split; try done|done|left; by right].
  - intros k r c Hk Hk'. unfold recorded. cbn [with_log v_mmt v_log]. rewrite fn_lookup_insert_ne by (apply lookup_lt_Some in Hk; lia). by apply H2.
  - intros k Hk. cbn [with_log v_log]. rewrite fn_lookup_insert_ne by lia. by apply H6.
Qed.

Lemma Inv_land rs cps o v n m : Inv rs cps o v n m -> late rs o v m -> Inv rs cps o v n Quiet /\ idle rs o v Quiet.
Proof.
  intros (Hp & Ho & _) (rs0 & _ & _ & Hl & Hh). assert (idle rs o v Quiet) as Hid by done. split; [|done]. split_and!; [done|done|left; by left].
Qed.

(** An operation has ended with a result. *)
Definition op_done (rs : list Result) (s : DS) (r : Result) : Prop :=
  exists cps o v n d, at_ v n d Quiet s /\ Inv (rs ++ [r]) cps o v n Quiet /\ idle (rs ++ [r]) o v Quiet /\ v_own v = o /\ 0 <= v_local v.

Lemma cwp_cas_attempt N rs cps o v n d s x old new retry : (length rs < N)%nat -> request rs = (x, old, new) ->
  at_ v n d Quiet s -> Inv rs cps o v n Quiet -> idle rs o v Quiet -> v_own v = o ->
  (forall n d s, D -> at_ v n d Quiet s -> Inv rs cps o v n Quiet -> cw retry (op_done rs) (CrashInv N) s) ->
  cw (cas_attempt tsc_offset patience fuel i (length rs) true (ct_parity o) x old new retry) (op_done rs) (CrashInv N) s.
Proof.
  intros Hlen Hrq Ha HI Hid Hown Hag. pose proof (Hreq rs) as Hnew. rewrite Hrq in Hnew. cbn [snd] in Hnew.
  unfold cas_attempt. eapply step; [done|eapply Inv_safe; [|done]; lia|]. intros s1 H1. unfold awp, exchange. case_decide as E.
  - destruct (Inv_fly _ _ _ _ _ HI Hid) as [HI1 He1]. rewrite Hrq in HI1, He1. cbn [fst snd] in HI1, He1.
    set (w := marked (negb (ct_parity o)) new) in *.
    assert (at_ (with_log (length rs) (x, old, new) v) n d (Flying x w) (log_exchange i (length rs) (x, old, new) (put_loc x w s1))) as H2 by (by apply at_fly).
    apply cwp_bind. eapply cwp_checkpoint_succ; [exact H2|exact HI1|exact He1|done|done|].
    intros s3 t n3 v3 cps3 c H3 HI3 Hl3 Ho3 Hloc3. simpl in Hl3.
    eapply step; [exact H3|eapply Inv_safe; [|exact HI3]; rewrite length_app; simpl; lia|]. intros s4 H4. unfold awp, compare_exchange.
    rewrite decide_True by (destruct (at_mem _ _ _ _ _ H4); done).
    destruct (Inv_land _ _ _ _ _ _ HI3 Hl3) as [HI4 Hid4].
    assert (at_ v3 n3 d Quiet (put_loc x (unmark new) s4)) as H5 by (eapply at_land; [exact H4|by left|simpl; rewrite Hnew; by left|done]).
    eapply done_ret; [exact H5|eapply Inv_safe; [|exact HI4]; rewrite length_app; simpl; lia|]. by exists cps3, c, v3, n3, d.
  - apply cwp_bind. eapply cwp_load_help; [exact H1|by eapply read_fits|split; [eapply Inv_safe; [|done]; lia|done]|apply HI|].
    intros s2 cur (Hcur & n2 & d2 & Hn2 & H2 & HD). pose proof (Inv_later _ _ _ _ _ _ _ HI Hn2) as HI2.
    case_decide as Ec; [by eapply Hag; [destruct HD; [done|congruence]|..]|].
    apply cwp_bind. eapply cwp_checkpoint_fail; [exact H2|exact HI2|exact Hid|by rewrite Hrq|done|].
    intros s3 n3 v3 cps3 H3 HI3 Hid3 Ho3 Hl3. eapply done_ret; [exact H3|eapply Inv_safe; [|exact HI3]; rewrite length_app; simpl; lia|].
    exists cps3, o, v3, n3, d2. split_and!; [done|done|done|congruence|done].
Qed.

Lemma cwp_cas_loop N rs cps o v x old new : (length rs < N)%nat -> request rs = (x, old, new) -> idle rs o v Quiet -> v_own v = o ->
  forall k n d s, at_ v n d Quiet s -> Inv rs cps o v n Quiet ->
  cw (cas_loop tsc_offset patience fuel i k (length rs) true (ct_parity o) x old new) (op_done rs) (CrashInv N) s.
Proof.
  intros Hlen Hrq Hid Hown. induction k as [|k IH]; intros n d s Ha HI; cbn [cas_loop]; (eapply cwp_cas_attempt; [done..|]).
  - intros n1 d1 s1 HD H1 HI1. eapply stuck; [exact H1|eapply Inv_safe; [|done]; lia|done].
  - intros n1 d1 s1 HD H1 HI1. by eapply IH.
Qed.

(** ** A new operation *)
Lemma open_idx rs cps v n : passed rs cps v n -> stale_latest_idx (v_mmt v (length rs)) = (true, false) /\ checkpoint (buf (v_mmt v (length rs)) false) = cas_ts0.
Proof. intros Hp. destruct (pa_rest _ _ _ _ Hp (length rs)) as [E0 E1]; [lia|]. unfold stale_latest_idx. by rewrite E0, E1. Qed.

Lemma cwp_cas_normal N rs cps o v n d s x old new : (length rs < N)%nat -> request rs = (x, old, new) ->
  at_ v n d Quiet s -> Inv rs cps o v n Quiet -> idle rs o v Quiet -> v_own v = o ->
  cw (stale <- act (gets (fun s => fst (stale_latest_idx (mmt i (length rs) s)))) ;;
      p_own <- act (gets (fun s => ct_parity (own s i))) ;;
      cas_loop tsc_offset patience fuel i fuel (length rs) stale p_own x old new) (op_done rs) (CrashInv N) s.
Proof.
  intros Hlen Hrq Ha HI Hid Hown. assert (safe (CrashInv N) v n Quiet) as Hc by (eapply Inv_safe; [|done]; lia).
  eapply (step_view (fun v => fst (stale_latest_idx (v_mmt v (length rs))))); [done|done|done|]. intros s1 H1.
  rewrite (proj1 (open_idx _ _ _ _ (proj1 HI))). cbn [fst].
  eapply (step_view (fun v => ct_parity (v_own v))); [done|done|done|]. intros s2 H2. rewrite Hown. by eapply cwp_cas_loop.
Qed.

(** After a crash: whether the exchange took place is found out. *)
Lemma cwp_result_open N rs cps o v n d m s x old new (Q : DS -> option Result -> Prop) : (length rs < N)%nat -> request rs = (x, old, new) ->
  at_ v n d m s -> Inv rs cps o v n m -> mid rs o v m -> v_own v = o -> 0 <= v_local v ->
  (forall s1 n1 d1, at_ v n1 d1 Quiet s1 -> Inv rs cps o v n1 Quiet -> idle rs o v Quiet -> Q s1 None) ->
  (forall s1, op_done rs s1 Ok -> Q s1 (Some Ok)) ->
  cw (cas_result tsc_offset patience fuel i (length rs) x new) Q (CrashInv N) s.
Proof.
  intros Hlen Hrq Ha HI Hm Hown Hloc HQn HQs. assert (length rs <= N)%nat as HN by lia.
  assert (safe (CrashInv N) v n m) as Hc by (by eapply Inv_safe).
  destruct (open_idx _ _ _ _ (proj1 HI)) as [Eidx Ec]. unfold cas_result.
  eapply (step_view (fun v => v_mmt v (length rs))); [done|done|done|]. intros s1 H1. rewrite Eidx, Ec.
  eapply (step_view v_local); [done|done|done|]. intros s2 H2.
  eapply (step_view v_own); [done|done|done|]. intros s3 H3. rewrite Hown. cbn [cas_ts0 ct_time].
  rewrite (proj2 (Z.ltb_ge (v_local v) 0) Hloc).
  assert (forall s v n d, at_ v n d Quiet s -> Inv rs cps o v n Quiet -> exchanged rs o v Quiet ->
    cw (t_help <- act (gets (fun s => help s i (negb (ct_parity o)))) ;;
        if t_help <=? ct_time o then PRet None else checkpoint_succ i (length rs) true (negb (ct_parity o)) ;;; PRet (Some Ok)) Q (CrashInv N) s) as Hyes.
  { intros s' v' n' d' H' HI' He'. eapply (step_view (fun v => v_help v (negb (ct_parity o)))); [done|by eapply Inv_safe|done|]. intros s4 H4.
    assert (ct_time o < v_help v' (negb (ct_parity o))) as Hlt by (by destruct He' as [_ [?|[?|[_ ?]]]]).
    rewrite (proj2 (Z.leb_gt _ _) Hlt). apply cwp_bind. eapply cwp_checkpoint_succ; [done|done|done|done|done|].
    intros s5 t n5 v5 cps5 c H5 HI5 Hid5 Ho5 Hl5. eapply done_ret; [exact H5|eapply Inv_safe; [|exact HI5]; rewrite length_app; simpl; lia|].
    apply HQs. by exists cps5, c, v5, n5, d'. }
  assert (on m x) as Hon.
  { destruct Hm as [[-> _]|[_ He]]; [done|]. rewrite Hrq in He. by destruct He as [-> |[-> |[-> _]]]. }
  unfold load. apply cwp_bind. eapply step_gets; [done|done|]. intros s4 H4.
  eapply cwp_load_help; [exact H4|by eapply read_fits| |apply HI|].
  { destruct Hm as [[-> _]|He]; [by split|]. by eapply exchanged_safe. }
  intros s5 p (_ & n5 & d5 & Hn5 & H5). destruct Hm as [Hid|He].
  - pose proof Hid as (-> & _ & Hle). destruct H5 as [H5 _]. pose proof (Inv_later _ _ _ _ _ _ _ HI Hn5) as HI5.
    eapply (step_view (fun v => v_help v (negb (ct_parity o)))); [done|by eapply Inv_safe|done|]. intros s6 H6.
    rewrite (proj2 (Z.leb_le _ _) Hle). eapply done_ret; [exact H6|by eapply Inv_safe|]. by eapply HQn.
  - assert (forall t, exec_time_at n <= t < exec_time_at n5 -> at_ (helped (marked (negb (ct_parity o)) (snd (request rs))) t v) n5 d5 Quiet s5 ->
      exchanged rs o (helped (marked (negb (ct_parity o)) (snd (request rs))) t v) Quiet /\
      Inv rs cps o (helped (marked (negb (ct_parity o)) (snd (request rs))) t v) n5 Quiet) as Hh.
    { intros t Ht _. destruct (Inv_helped _ _ _ _ _ _ _ _ HI He Hn5 Ht) as (? & ? & _). done. }
    destruct (proj2 He) as [-> |[-> |[-> _]]]; [destruct H5 as (t & Ht & H5); destruct (Hh t Ht H5); by eapply Hyes..|].
    eapply Hyes; [apply H5|by eapply Inv_later|done].
Qed.

Lemma cwp_cas_new N rs cps o v n d m s x old new : (length rs < N)%nat -> request rs = (x, old, new) ->
  at_ v n d m s -> Inv rs cps o v n m -> mid rs o v m -> (v_rec v = false -> idle rs o v m) -> v_own v = o -> 0 <= v_local v ->
  cw (cas tsc_offset patience fuel i (length rs) x old new) (op_done rs) (CrashInv N) s.
Proof.
  intros Hlen Hrq Ha HI Hm Hid Hown Hloc. assert (safe (CrashInv N) v n m) as Hc by (eapply Inv_safe; [|done]; lia).
  unfold cas. eapply (step_view v_rec); [done|done|done|]. intros s1 H1. destruct (v_rec v) eqn:Er.
  - apply cwp_bind. apply cwp_bind. eapply cwp_result_open; [done|done|exact H1|exact HI|done|done|done|..].
    + intros s2 n2 d2 H2 HI2 Hid2. assert (safe (CrashInv N) v n2 Quiet) as Hc2 by (eapply Inv_safe; [|done]; lia).
      eapply step_rec; [done|done|]. intros s3 H3.
      pose proof (Inv_ext _ _ _ _ (with_rec false v) _ _ HI2 eq_refl eq_refl eq_refl) as HI3.
      eapply done_ret; [exact H3|eapply Inv_safe; [|exact HI3]; lia|]. by eapply cwp_cas_normal.
    + intros s2 H2. pose proof H2 as (cps2 & o2 & v2 & n2 & d2 & H2' & HI2 & _).
      assert (safe (CrashInv N) v2 n2 Quiet) as Hc2 by (eapply Inv_safe; [|exact HI2]; rewrite length_app; simpl; lia).
      eapply done_ret; [exact H2'|done|]. by eapply done_ret.
  - pose proof (Hid eq_refl) as Hid'. pose proof Hid' as (-> & _). by eapply cwp_cas_normal.
Qed.

(** ** An operation that is replayed *)
Lemma own_newest rs cps o v n k c : passed rs cps v n -> is_own rs cps o -> rs !! k = Some Ok -> cps !! k = Some c ->
  ct_time o <= ct_time c \/ S k = length rs -> c = o.
Proof.
  intros Hp [[_ Hno]|(k0 & H0 & Hc0 & Hmax)] Hk Hc Hor; [by destruct (Hno k)|].
  destruct (lt_eq_lt_dec k k0) as [[Hlt|<-]|Hlt]; [|congruence|by destruct (Hmax k Hlt)].
  pose proof (pa_incr _ _ _ _ Hp _ _ _ _ Hlt Hc Hc0). apply lookup_lt_Some in H0. lia.
Qed.

Lemma own_same v o : v_own v = o -> with_own o v = v.
Proof. intros <-. by destruct v. Qed.

(** The repeated second compare-exchange removes the mark if there is one. *)
Lemma replay_exchange rs cps o v n d m s k x old new : at_ v n d m s -> Inv rs cps o v n m -> rs !! k = Some Ok -> request (take k rs) = (x, old, new) ->
  exists m1, at_ v n d m1 (match compare_exchange x (marked (ct_parity o) new) (unmark new) s with Done (s', _) => s' | _ => s end) /\
  Inv rs cps o v n m1 /\ (S k = length rs -> mid rs o v m1).
Proof.
  intros Ha HI Hk Hrq. pose proof (Hreq (take k rs)) as Hnew. rewrite Hrq in Hnew. cbn [snd] in Hnew. unfold compare_exchange.
  assert (mine d (marked (ct_parity o) new)) as Hmine by (split; [done|by left]).
  pose proof (at_mem _ _ _ _ _ Ha) as Hmem. destruct (proj2 (proj2 HI)) as [Hmid|Hl].
  - exists m. rewrite decide_False; [done|]. intros E. destruct Hmid as [[-> _]|[_ He]].
    + apply (Hmem x). by rewrite E.
    + destruct He as [-> |[-> |[-> _]]].
      * destruct Hmem as (E' & _ & _ & Ho). rewrite (Ho x) in E by (by rewrite E). rewrite E' in E.
        apply (f_equal p_aux) in E. cbn in E. by destruct (ct_parity o).
      * destruct Hmem as (E' & _ & _ & Ho). rewrite (Ho x) in E by (by rewrite E). rewrite E' in E.
        apply (f_equal p_desc) in E. cbn in E. congruence.
      * apply (Hmem x). by rewrite E.
  - destruct (Inv_land _ _ _ _ _ _ HI Hl) as [HI' Hid]. pose proof Hl as (rs0 & Ers & -> & _). case_decide as E.
    + destruct Hmem as (E' & _ & _ & Ho). exists Quiet. split_and!; [|done|intros _; by left].
      eapply at_land; [exact Ha| |simpl; rewrite Hnew; by left|done]. left. f_equal. symmetry. apply Ho. by rewrite E.
    + exists (Flying (fst (fst (request rs0))) (marked (ct_parity o) (snd (request rs0)))). split_and!; [done|done|].
      intros Hlast. exfalso. apply E. destruct Hmem as (E' & _).
      assert (take k rs = rs0) as Et by (rewrite Ers in Hlast |- *; rewrite length_app in Hlast; simpl in Hlast; by rewrite take_app_length' by lia).
      rewrite Et in Hrq. rewrite Hrq in E'. done.
Qed.

Lemma late_last rs o v m k : late rs o v m -> S k = length rs -> rs !! k = Some Ok.
Proof.
  intros (rs0 & -> & _) E. rewrite length_app in E. simpl in E. assert (k = length rs0) as -> by lia. by apply list_lookup_middle.
Qed.

Lemma cwp_result_replay N rs cps o v n d m s k r c x old new (Q : DS -> option Result -> Prop) : (length rs <= N)%nat ->
  rs !! k = Some r -> cps !! k = Some c -> request (take k rs) = (x, old, new) ->
  at_ v n d m s -> Inv rs cps o v n m -> v_own v = o -> v_local v < ct_time c ->
  (forall s1 m1, at_ (with_local (ct_time c) v) n d m1 s1 -> Inv rs cps o (with_local (ct_time c) v) n m1 -> (S k = length rs -> mid rs o (with_local (ct_time c) v) m1) -> Q s1 (Some r)) ->
  cw (cas_result tsc_offset patience fuel i k x new) Q (CrashInv N) s.
Proof.
  intros HN Hk Hck Hrq Ha HI Hown Hloc HQ. pose proof HI as (Hp & Ho & Hph). assert (safe (CrashInv N) v n m) as Hc by (by eapply Inv_safe).
  destruct (pa_done _ _ _ _ Hp k r c Hk Hck) as (E0 & E1 & Hr). pose proof (pa_time _ _ _ _ Hp k c Hck) as Ht.
  assert (stale_latest_idx (v_mmt v k) = (false, true)) as Eidx by (unfold stale_latest_idx; rewrite E0, E1; simpl; by rewrite (proj2 (Z.ltb_lt _ _)) by lia).
  assert (forall m1, Inv rs cps o v n m1 -> safe (CrashInv N) (with_local (ct_time c) v) n m1) as Hcl by (intros m1 H1; eapply Inv_safe; [done|by eapply Inv_ext]).
  unfold cas_result. eapply (step_view (fun v => v_mmt v k)); [done|done|done|]. intros s2 H2. rewrite Eidx. cbn [buf]. rewrite E1.
  eapply (step_view v_local); [done|done|done|]. intros s3 H3.
  eapply (step_view v_own); [done|done|done|]. intros s4 H4. rewrite Hown, (proj2 (Z.ltb_lt _ _) Hloc).
  destruct r as [|cur]; destruct Hr as [Ef Hr]; rewrite Ef.
  - assert (forall s m1, at_ v n d m1 s -> Inv rs cps o v n m1 -> (S k = length rs -> mid rs o v m1) ->
      cw (act (@local_store DS hd (ct_time c)) ;;; PRet (Some Ok)) Q (CrashInv N) s) as Hend.
    { intros s' m1 H' HI' Hmid. eapply step_local; [exact H'|by eapply Inv_safe|]. intros s5 H5. eapply done_ret; [exact H5|by apply Hcl|].
      eapply HQ; [exact H5|by eapply Inv_ext|exact Hmid]. }
    destruct (Z.leb_spec (ct_time o) (ct_time c)) as [Hle|Hgt].
    + pose proof (own_newest _ _ _ _ _ _ _ Hp Ho Hk Hck (or_introl Hle)) as ->.
      apply cwp_bind. eapply step_put_own; [exact H4|done|]. intros s5 H5. rewrite own_same in H5 by done.
      eapply step; [exact H5|done|]. intros s6 H6. destruct (replay_exchange _ _ _ _ _ _ _ _ _ _ _ _ H6 HI Hk Hrq) as (m1 & H7 & HI7 & Hmid7).
      unfold awp. revert H7. unfold compare_exchange. fold (marked (ct_parity o) new). case_decide as E; intros H7.
      all: (eapply done_ret; [exact H7|by eapply Inv_safe|]; by eapply Hend).
    + eapply Hend; [exact H4|exact HI|]. intros Hlast. exfalso.
      pose proof (own_newest _ _ _ _ _ _ _ Hp Ho Hk Hck (or_intror Hlast)) as ->. lia.
  - destruct Hr as (Efc & _). eapply step_local; [exact H4|done|]. intros s5 H5.
    eapply (step_view (fun v => fail_current (buf (v_mmt v k) true))); [exact H5|by apply Hcl|done|]. intros s6 H6. cbn [with_local v_mmt buf]. rewrite Efc.
    eapply done_ret; [exact H6|by apply Hcl|]. eapply HQ; [exact H6|by eapply Inv_ext|].
    intros Hlast. destruct Hph as [?|Hl]; [done|]. rewrite (late_last _ _ _ _ _ Hl Hlast) in Hk. done.
Qed.

Lemma cwp_cas_replay N rs cps o v n d m s k r c x old new : (length rs <= N)%nat -> rs !! k = Some r -> cps !! k = Some c -> request (take k rs) = (x, old, new) ->
  at_ v n d m s -> Inv rs cps o v n m -> v_own v = o -> v_rec v = true -> v_local v < ct_time c ->
  cw (cas tsc_offset patience fuel i k x old new)
    (fun s1 r1 => r1 = r /\ exists m1, at_ (with_local (ct_time c) v) n d m1 s1 /\ Inv rs cps o (with_local (ct_time c) v) n m1 /\ (S k = length rs -> mid rs o (with_local (ct_time c) v) m1))
    (CrashInv N) s.
Proof.
  intros HN Hk Hck Hrq Ha HI Hown Hrec Hloc. unfold cas.
  eapply (step_view v_rec); [done|by eapply Inv_safe|done|]. intros s1 H1. rewrite Hrec. apply cwp_bind, cwp_bind.
  eapply cwp_result_replay; [done..|]. intros s2 m1 H2 HI2 Hmid.
  eapply done_ret; [exact H2|by eapply Inv_safe|]. eapply done_ret; [exact H2|by eapply Inv_safe|]. split; [done|]. by exists m1.
Qed.

(** ** Sessions *)

(** Before operation [k] of a session of which the results [rs] are recorded. *)
Definition at_op (N k : nat) (rs : list Result) (s : DS) : Prop :=
  exists cps o v n d m, at_ v n d m s /\ Inv rs cps o v n m /\ v_own v = o /\ (length rs <= N)%nat /\ 0 <= v_local v /\
  (((k < length rs)%nat /\ v_rec v = true /\ forall c, cps !! k = Some c -> v_local v < ct_time c) \/
   (k = length rs /\ mid rs o v m /\ (v_rec v = false -> idle rs o v m))).

Definition session_done (N : nat) (s : DS) (rs : list Result) : Prop :=
  length rs = N /\ exists cps v n d m, at_ v n d m s /\ passed rs cps v n.

Lemma at_op_crash N k rs s : at_op N k rs s -> CrashInv N s.
Proof. intros (cps & o & v & n & d & m & Ha & HI & _ & Hl & _). by exists rs, cps, o, v, n, d, m. Qed.

Lemma op_done_at N rs r s : (length rs < N)%nat -> op_done rs s r -> at_op N (S (length rs)) (rs ++ [r]) s.
Proof.
  intros Hl (cps & o & v & n & d & Ha & HI & Hid & Ho & Hloc). exists cps, o, v, n, d, Quiet. rewrite length_app. simpl.
  split_and!; [done|done|done|lia|done|]. right. split_and!; [lia|by left|done].
Qed.

Lemma replayed_at N k rs cps o v n d m c s : at_ (with_local (ct_time c) v) n d m s -> Inv rs cps o (with_local (ct_time c) v) n m -> v_own v = o -> v_rec v = true ->
  (length rs <= N)%nat -> cps !! k = Some c -> (S k = length rs -> mid rs o (with_local (ct_time c) v) m) -> at_op N (S k) rs s.
Proof.
  intros Ha HI Ho Hrec Hl Hc Hmid. pose proof HI as (Hp & _). pose proof (pa_len _ _ _ _ Hp). pose proof (lookup_lt_Some _ _ _ Hc).
  exists cps, o, (with_local (ct_time c) v), n, d, m. split_and!; [done|done|done|done|simpl; pose proof (pa_time _ _ _ _ Hp k c Hc); lia|].
  destruct (decide (S k = length rs)) as [E|E].
  - right. split_and!; [done|by apply Hmid|]. cbn [with_local v_rec]. by rewrite Hrec.
  - left. split_and!; [lia|done|]. intros c' Hc'. cbn [with_local v_local]. apply (pa_incr _ _ _ _ Hp k (S k)); [lia|done|done].
Qed.

Lemma cwp_exchanges N : forall n k rs s, (k + n = N)%nat -> at_op N k rs s -> cw (session tsc_offset patience fuel i request n (take k rs)) (session_done N) (CrashInv N) s.
Proof.
  induction n as [|n IH]; intros k rs s Hkn Hat; pose proof (at_op_crash _ _ _ _ Hat) as HC; pose proof Hat as (cps & o & v & n0 & d & m & Ha & HI & Ho & Hl & Hloc & Hcase).
  - split; [done|]. assert (k = length rs) as -> by (destruct Hcase as [(? & _)|(? & _)]; lia). rewrite firstn_all.
    split; [lia|]. exists cps, v, n0, d, m. split; [done|apply HI].
  - assert (k <= length rs)%nat as Hk by (destruct Hcase as [(? & _)|(-> & _)]; lia). cbn [session].
    destruct (request (take k rs)) as [[x old] new] eqn:Hrq. rewrite length_take_le by done. apply cwp_bind.
    destruct Hcase as [(Hlt & Hrec & Hc)|(-> & Hmid & Hid)].
    + destruct (lookup_lt_is_Some_2 rs k Hlt) as [r Hr]. destruct (lookup_lt_is_Some_2 cps k) as [c Hck]; [by rewrite (pa_len _ _ _ _ (proj1 HI))|].
      eapply cwp_conseq; [eapply cwp_cas_replay; [done|done|done|done|done|done|done|done|by apply Hc]| |done].
      intros s1 r1 (-> & m1 & H1 & HI1 & Hm1). rewrite <- (take_S_r rs k r Hr). apply IH; [lia|]. by eapply replayed_at.
    + rewrite firstn_all in Hrq |- *. eapply cwp_conseq; [eapply (cwp_cas_new N); [lia|done|done|done|done|done|done|done]| |done].
      intros s1 r1 H1. apply op_done_at with (N := N) in H1; [|lia].
      replace (rs ++ [r1]) with (take (S (length rs)) (rs ++ [r1])) at 1 by (by rewrite firstn_all2 by (rewrite length_app; simpl; lia)).
      apply IH; [lia|done].
Qed.

(** ** Starting again *)

(** The [own] timestamp is the one that the mementos give. It is at all points
    of a session apart from the one between the two stores of
    [checkpoint_succ]. *)
Definition settled (N : nat) (s : DS) : Prop := own s i = gc_own i N s.

Lemma filter_inner_spec o c : let r := filter_inner o c in
  (r = o \/ r = checkpoint c /\ ct_fail r = false) /\ ct_time o <= ct_time r /\ (ct_fail (checkpoint c) = false -> ct_time (checkpoint c) <= ct_time r).
Proof.
  unfold filter_inner. destruct (ct_fail (checkpoint c)) eqn:E; [split_and!; [by left|lia|done]|].
  destruct (Z.ltb_spec (ct_time o) (ct_time (checkpoint c))); (split_and!; [tauto|lia|lia]).
Qed.

Lemma fold_filter_spec l : forall o, let r := fold_left filter_cas l o in
  (r = o \/ ct_fail r = false /\ exists m b, m ∈ l /\ checkpoint (buf m b) = r) /\ ct_time o <= ct_time r /\
  forall m b, m ∈ l -> ct_fail (checkpoint (buf m b)) = false -> ct_time (checkpoint (buf m b)) <= ct_time r.
Proof.
  induction l as [|m l IH]; intros o; cbn [fold_left].
  - split_and!; [by left|lia|]. intros m b Hm. by apply not_elem_of_nil in Hm.
  - destruct (IH (filter_cas o m)) as (Hr & Ht & Hall). set (r := fold_left filter_cas l (filter_cas o m)) in *. unfold filter_cas in Hr, Ht.
    destruct (filter_inner_spec o (buf0 m)) as (A1 & A2 & A3). destruct (filter_inner_spec (filter_inner o (buf0 m)) (buf1 m)) as (B1 & B2 & B3).
    split_and!; [|lia|].
    + destruct Hr as [->|(Hf & m' & b & Hm' & E)]; [|right; split; [done|]; exists m', b; split; [by right|done]].
      destruct B1 as [->|[-> Hf]]; [|right; split; [done|]; exists m, true; split; [by left|done]].
      destruct A1 as [->|[-> Hf]]; [by left|]. right; split; [done|]. exists m, false; split; [by left|done].
    + intros m' b Hm' Hf. apply elem_of_cons in Hm' as [->|Hm']; [|by apply Hall].
      destruct b; cbn [buf] in *; [specialize (B3 Hf)|specialize (A3 Hf)]; lia.
Qed.

(** The collector finds the checkpoint of the last exchange. *)
Lemma gc_own_passed N rs cps o v n s : passed rs cps v n -> is_own rs cps o -> (length rs <= N)%nat -> d_mmt s i = v_mmt v -> gc_own i N s = o.
Proof.
  intros Hp Ho Hl E. unfold gc_own. rewrite E. destruct (fold_filter_spec (map (v_mmt v) (List.seq 0 N)) cas_ts0) as (Hr & Ht & Hall).
  set (r := fold_left _ _ _) in *.
  assert (forall k, (k < N)%nat -> v_mmt v k ∈ map (v_mmt v) (List.seq 0 N)) as Hin.
  { intros k Hk. apply list_elem_of_In, in_map_iff. exists k. split; [done|]. apply in_seq. lia. }
  assert (r = cas_ts0 \/ exists k, rs !! k = Some Ok /\ cps !! k = Some r) as Hsrc.
  { destruct Hr as [->|(Hf & m & b & Hm & Em)]; [by left|]. apply list_elem_of_In, in_map_iff in Hm as (k & <- & Hk).
    destruct (decide (k < length rs)%nat) as [Hlt|Hge].
    - destruct (lookup_lt_is_Some_2 rs k Hlt) as [r' Hr']. destruct (lookup_lt_is_Some_2 cps k) as [c Hc]; [by rewrite (pa_len _ _ _ _ Hp)|].
      destruct (pa_done _ _ _ _ Hp k r' c Hr' Hc) as (E0 & E1 & Hrec). destruct b; cbn [buf] in Em; [|left; congruence].
      right. exists k. rewrite E1 in Em. subst c. split; [|done]. destruct r' as [|cur]; [done|]. destruct Hrec. congruence.
    - destruct (pa_rest _ _ _ _ Hp k ltac:(lia)) as [E0 E1]. left. destruct b; cbn [buf] in Em; congruence. }
  destruct Ho as [[-> Hno]|(k0 & H0 & Hc0 & Hmax)]; [destruct Hsrc as [?|(k & Hk & _)]; [done|by destruct (Hno k)]|].
  assert (ct_time o <= ct_time r) as Hge.
  { destruct (pa_done _ _ _ _ Hp k0 Ok o H0 Hc0) as (_ & E1 & Hf & _). rewrite <- E1 in Hf |- *. apply (Hall (v_mmt v k0) true); [|done].
    apply Hin. apply lookup_lt_Some in H0. lia. }
  pose proof (pa_time _ _ _ _ Hp k0 o Hc0) as Hpos.
  destruct Hsrc as [Er|(k & Hk & Hck)]; [rewrite Er in Hge; simpl in Hge; lia|].
  destruct (lt_eq_lt_dec k k0) as [[Hlt|<-]|Hlt]; [|congruence|by destruct (Hmax k Hlt)].
  pose proof (pa_incr _ _ _ _ Hp _ _ _ _ Hlt Hck Hc0). lia.
Qed.

Lemma rerun_at N s s' : CrashInv N s -> settled N s -> others s s' -> exists rs, at_op N 0 rs (rerun i s').
Proof.
  intros (rs & cps & o & v & n & d & m & Hl & Ha & HI) Hset HR. exists rs. pose proof HI as (Hp & Ho & Hph).
  assert (v_own v = o) as Hown.
  { rewrite <- (gc_own_passed N rs cps o v n s Hp Ho Hl) by (by rewrite <- (at_view _ _ _ _ _ Ha)). rewrite <- Hset. by rewrite <- (at_view _ _ _ _ _ Ha). }
  eapply at_others in Ha; [|done]. set (v' := mkView (v_own v) (v_help v) (v_mmt v) true 0 (v_log v)).
  assert (at_ v' n d m (rerun i s')) as Ha'.
  { eapply at_step; [exact Ha|done|done| |simpl; apply Ha]. unfold view_of, rerun, v'. simpl. rewrite !fn_lookup_insert.
    by rewrite <- (at_view _ _ _ _ _ Ha). }
  exists cps, o, v', n, d, m. split_and!; [done|by eapply Inv_ext|done|done|done|].
  destruct (decide (length rs = 0%nat)) as [E|E].
  - right. split_and!; [done| |done]. destruct Hph as [Hm|(rs0 & -> & _)]; [exact Hm|]. rewrite length_app in E. simpl in E. lia.
  - left. split_and!; [lia|done|]. intros c Hc. simpl. apply (pa_time _ _ _ _ Hp 0%nat c Hc).
Qed.
End thread.

(** ** The theorems *)

(** A thread before its first session: nothing recorded, no marked pointers, and
    nobody helps it. *)
Record fresh (i : Z) (s : DS) : Prop := {
  fr_own : own s i = cas_ts0;
  fr_help : forall p, help s i p = 0;
  fr_mmt : forall k, d_mmt s i k = cas_default;
  fr_rec : d_rec s i = true;
  fr_local : d_local s i = 0;
  fr_log : forall k, d_log s i k = [];
  fr_loc : forall x, p_tid (d_loc s x) <> i /\ bit (p_desc (d_loc s x));
  fr_helpers : forall j, j <> i -> p_tid (tmp_new (help_desc s j)) <> i;
}.

Section theorems.
Context `{CK : Clock} `{CL : !ClockLaws} (tsc_offset patience : Z) (fuel : nat) (i : Z) (Hi : i <> 0).
Context (Hoff : tsc_offset < Z.of_nat fuel) (Hpat : patience < Z.of_nat fuel).
Context (request : list Result -> Z * PShared * PShared) (Hreq : forall rs, p_desc (snd (request rs)) = 0) (N : nat).

Abbreviation prog := (session tsc_offset patience fuel i request N []).

Lemma fresh_at (D : Prop) s : fresh i s -> (D \/ forall x, p_tid (d_loc s x) = 0) -> exists rs, at_op i D request N 0 rs s.
Proof.
  intros [H1 H2 H3 H4 H5 H6 H7 H8] Hcalm. exists [], [], cas_ts0, (view_of i s), (d_now s), (help_desc s i), Quiet.
  assert (idle [] cas_ts0 (view_of i s) Quiet) as Hid by (split_and!; [done|apply H6|simpl; rewrite H2; lia]).
  split_and!; [split; try done| |done|simpl; lia|simpl; lia|].
  - intros x [Ht _]. by destruct (H7 x).
  - intros x. apply H7.
  - intros x Ht. by destruct (H7 x).
  - intros x. destruct Hcalm; [by left|right; by left].
  - split_and!; [split; try done|by left|left; by left].
    + intros k Hk. simpl. by rewrite H3.
    + intros k Hk. apply H6.
    + intros p. simpl. rewrite H2. pose proof (exec_time_pos (d_now s)). pose proof global_max_nonneg. lia.
  - right. split_and!; [done|by left|done].
Qed.

Lemma cwp_started (D : Prop) s : (exists rs, at_op i D request N 0 rs s) -> cwp (others i D) G D prog (session_done i D request N) (CrashInv i D request N) s.
Proof. intros [rs Hat]. apply (cwp_exchanges tsc_offset patience fuel i Hi Hoff Hpat D request Hreq N N 0 rs s); [lia|done]. Qed.

(** C7: the detectable compare-and-swap is detectable. A thread makes [N]
    exchanges, each chosen from the results before; it crashes any number of
    times, at any access but the one after which its own timestamp is behind
    its mementos, and is started again each time, while other threads use the
    same locations and are patient with its marked pointers. In the end every
    operation that returned [Ok] has made its exchange exactly once, over all
    the attempts, and every one that returned [Err] none, with a current pointer
    that differs from the expected one. *)
Theorem exchanges_detected s0 s rs : fresh i s0 -> recovered_at (others i True) (settled i N) (rerun i) prog s0 s rs ->
  length rs = N /\
  forall k r, rs !! k = Some r ->
    match r with
    | Ok => d_log s i k = [request (take k rs)]
    | Err cur => d_log s i k = [] /\ cur <> snd (fst (request (take k rs)))
    end.
Proof.
  intros H0 Hrec.
  assert (session_done i True request N s rs) as (Hl & cps & v & n & d & m & Ha & Hp).
  { eapply (recovered_at_correct (others i True) G True (settled i N) (rerun i) prog (fun s => exists rs, at_op i True request N 0 rs s)
      (session_done i True request N) (CrashInv i True request N)); [intros s1; apply cwp_started| |by apply fresh_at; [|left]|exact Hrec].
    intros s1 s2 HC Hset HR. by eapply (rerun_at fuel). }
  split; [done|]. intros k r Hk.
  destruct (lookup_lt_is_Some_2 cps k) as [c Hc]; [rewrite (pa_len _ _ _ _ _ Hp); by eapply lookup_lt_Some|].
  destruct (pa_done _ _ _ _ _ Hp k r c Hk Hc) as (_ & _ & Hr). rewrite <- (at_view _ _ _ _ _ _ _ Ha) in Hr. destruct r; simpl in Hr; tauto.
Qed.

End theorems.

(** ** Examples *)
Module Runs.
#[local] Existing Instance counting.
#[local] Existing Instance counting_laws.

Definition node (o : Z) : PShared := mkP 0 0 0 0 o 0.
Definition start : DS :=
  mkDS (fun _ => pnull) (fun _ => cas_ts0) (fun _ _ => 0) (fun _ => mkDesc pnull 0) (fun _ _ => cas_default) (fun _ => true) (fun _ => 0) 0 (fun _ _ => []).

(** Thread 7 makes three exchanges on two locations. *)
Definition wishes (rs : list Result) : Z * PShared * PShared :=
  match rs with
  | [] => (1, pnull, node 16)
  | [_] => (2, pnull, node 32)
  | _ => (1, node 16, node 48)
  end.
Definition prog : P DS (list Result) := session 0 0 50 7 wishes 3 [].

(** Runs of the thread alone. *)
Definition state_of {A B} (d : A) (o : outcome (A * B)) : A := match o with Done (s, _) => s | _ => d end.
Definition value_of {A B} (o : outcome (A * B)) : option B := match o with Done (_, b) => Some b | _ => None end.
Definition cut (n : nat) (s : DS) : DS := state_of start (pcut n prog s).
Definition cut_ok (n : nat) (s : DS) : bool := match pcut n prog s with Done _ => true | _ => false end.
Definition complete (s : DS) : DS := state_of start (prun prog s).

Lemma alone_refl D s : others 7 D s s.
Proof. split; try done. by left. Qed.

Lemma wishes_plain rs : p_desc (snd (wishes rs)) = 0.
Proof. by destruct rs as [|r1 [|r2 rs]]. Qed.

Lemma start_fresh : fresh 7 start.
Proof. split; try done. intros x. split; [done|by left]. Qed.

Lemma cut_stops D n s : cut_ok n s = true -> stops (others 7 D) prog s (cut n s).
Proof.
  unfold cut_ok, cut. destruct (pcut n prog s) as [[s' p']| | |] eqn:E; try done. intros _. by eapply (pcut_stops _ (alone_refl D) n).
Qed.

Lemma complete_ends D s rs : value_of (prun prog s) = Some rs -> ends (others 7 D) prog s (complete s) rs.
Proof.
  unfold complete. destruct (prun prog s) as [[s' rs']| | |] eqn:E; try done. intros [= <-]. by apply prun_ends; [apply alone_refl|].
Qed.

(** A crash after the first exchange, before it is recorded; the thread starts
    again and helps itself. *)
Definition crashed : DS := cut 10 start.
Definition final : DS := complete (rerun 7 crashed).

Lemma crashed_settled : settled 7 3 crashed.
Proof. by vm_compute. Qed.

Lemma crashed_run : recovered_at (others 7 True) (settled 7 3) (rerun 7) prog start final [Ok; Ok; Ok].
Proof.
  eapply (rec_at_crash _ _ _ _ start crashed crashed); [apply cut_stops; by vm_compute|apply crashed_settled|apply alone_refl|].
  apply rec_at_ends, complete_ends. by vm_compute.
Qed.

Lemma exchanges_detected_witness : d_log final 7 0%nat = [(1, pnull, node 16)].
Proof.
  destruct (exchanges_detected 0 0 50 7 ltac:(lia) ltac:(lia) ltac:(lia) wishes wishes_plain 3 start final [Ok; Ok; Ok] start_fresh crashed_run) as [_ H].
  exact (H 0%nat Ok eq_refl).
Defined.

Example crashed_before_record : d_log crashed 7 0%nat = [(1, pnull, node 16)] /\ d_mmt crashed 7 0%nat = cas_default /\ d_loc crashed 1 = mkP 1 0 7 0 16 0.
Proof. split_and!; vm_compute; reflexivity. Qed.


(** ** Where the answer is wrong *)

(** Crashes between the two stores of [checkpoint_succ]: the thread that starts
    again finds its [own] timestamp as it was, so the parity it uses to clean up is the old one,
    its marked pointer stays, and is cleaned by a later operation, which takes
    the timestamp of that help for its own: the third exchange is reported and
    never takes place. *)
Definition rerun1 : DS := cut 12 start.
Definition rerun2 : DS := cut 41 (rerun 7 rerun1).
Definition rerun_final : DS := complete (rerun 7 rerun2).

Theorem rerun_reports_too_much : recovered (others 7 True) (rerun 7) prog start rerun_final [Ok; Ok; Ok] /\
  d_log rerun_final 7 2%nat = [] /\ d_loc rerun_final 1 = node 16.
Proof.
  split; [|split; vm_compute; reflexivity].
  eapply (rec_crash _ _ _ start rerun1 rerun1); [apply cut_stops; by vm_compute|apply alone_refl|].
  eapply (rec_crash _ _ _ (rerun 7 rerun1) rerun2 rerun2); [apply cut_stops; by vm_compute|apply alone_refl|].
  apply rec_ends, complete_ends. by vm_compute.
Qed.

(** Threads 8 and 9 read the first location, and are not patient. *)
Definition reader (i : Z) : P DS (list Result) := p <- load 0 0 50 i 1 ;; PRet [Err p].
Definition threads (wish : list Result -> Z * PShared * PShared) (i : Z) : P DS (list Result) :=
  if i =? 7 then session 0 0 50 7 wish 3 [] else reader i.
Definition any (s : DS) : Prop := True.
Definition anyone (i : Z) (s : DS) : Prop := True.
Abbreviation runs := (fun wish => rtc (par_step (threads wish) rerun any anyone)).

(** Thread 7 records its first exchange; thread 8 helps it and stops before it
    cleans the location; thread 7 sees that it has been helped, leaves the
    descriptor where it is and makes its second exchange; thread 9 helps the
    first one again, with a later timestamp. Thread 7 crashes before it starts
    the third exchange, and takes that timestamp for it when it recovers. *)
Definition helped_twice : list turn :=
  replicate 14 (Go 7) ++ replicate 15 (Go 8) ++ replicate 15 (Go 7) ++ replicate 30 (Go 9) ++
  [Crash 7] ++ replicate 80 (Go 7).

(** What a schedule leads to. *)
Definition result {A} (p : P DS A) : option A := match p with PRet a => Some a | _ => None end.
Definition leads (wish : list Result -> Z * PShared * PShared) (l : list turn) (F : DS -> option (list Result) -> Prop) : Prop :=
  match psched (threads wish) rerun l (start, threads wish) with Some (s, ps) => F s (result (ps 7)) | None => False end.

Lemma leads_runs wish l F : leads wish l F -> exists s ps, runs wish (start, threads wish) (s, ps) /\ F s (result (ps 7)).
Proof.
  unfold leads. destruct (psched _ _ _ _) as [[s ps]|] eqn:E; [|done]. intros HF. exists s, ps. split; [by eapply psched_par; [..|exact E]|done].
Qed.

(** C37: an exchange is reported that never took place. With helpers and
    one crash of the thread, outside of its operations, the third
    compare-and-swap returns [Ok] although it has not exchanged anything. *)
Theorem exchange_never_made : exists s ps, runs wishes (start, threads wishes) (s, ps) /\
  result (ps 7) = Some [Ok; Ok; Ok] /\ d_log s 7 2%nat = [] /\ d_loc s 1 = node 16.
Proof.
  apply (leads_runs wishes helped_twice (fun s r => r = Some [Ok; Ok; Ok] /\ d_log s 7 2%nat = [] /\ d_loc s 1 = node 16)).
  vm_compute. split_and!; reflexivity.
Qed.

(** The first location goes from 16 to 32 and back, so that the first and the
    third exchange install the same marked pointer. Thread 8 takes its
    timestamp while the first is marked, and helps the third. *)
Definition back_and_forth (rs : list Result) : Z * PShared * PShared :=
  match rs with
  | [] => (1, pnull, node 16)
  | [_] => (1, node 16, node 32)
  | _ => (1, node 32, node 16)
  end.
Definition stale_help : list turn :=
  replicate 10 (Go 7) ++ replicate 9 (Go 8) ++ replicate 18 (Go 7) ++ replicate 20 (Go 8) ++ [Crash 7] ++ replicate 60 (Go 7).

(** An exchange that took place is reported as failed. *)
Theorem exchange_denied : exists s ps, runs back_and_forth (start, threads back_and_forth) (s, ps) /\
  result (ps 7) = Some [Ok; Ok; Err (node 16)] /\ d_log s 7 2%nat = [(1, node 32, node 16)].
Proof.
  apply (leads_runs back_and_forth stale_help (fun s r => r = Some [Ok; Ok; Err (node 16)] /\ d_log s 7 2%nat = [(1, node 32, node 16)])).
  vm_compute. split_and!; reflexivity.
Qed.

(** A pointer that is being installed by [cas_non_detectable] is taken for a
    clean one: [load] returns it with its mark, before it is persisted. *)
Definition installing : DS := state_of start (pcut 1 (cas_non_detectable 0 0 50 8 50 1 pnull (node 16)) start).

Theorem load_takes_marked : value_of (prun (load 0 0 50 9 1) installing) = Some (mkP 1 0 0 0 16 0) /\
  is_non_detectable_cas (mkP 1 0 0 0 16 0) = true.
Proof. split; vm_compute; reflexivity. Qed.

(** A process: its clock counts on from [up], and it was started at [init] with
    the largest timestamp it found. *)
Definition process (up init found : Z) : Clock := {| rdtscp n := Z.of_nat n + up; init_time := init; global_max_time := found |}.

(** The first exchange fails after the process has run for 1000 cycles. The
    second process does not see that time among its timestamps, starts from 0
    and records the second exchange at an earlier time. In the third process the
    record looks old: the exchange is tried again, and reported as failed. *)
Definition fail_first (rs : list Result) : Z * PShared * PShared :=
  match rs with [] => (1, node 64, node 16) | _ => (2, pnull, node 32) end.
Definition prog_in (c : Clock) : P DS (list Result) := session (CK := c) 0 0 50 7 fail_first 2 [].

Definition crash1 : DS := reopen 7 2 (state_of start (pcut 14 (prog_in (process 1000 0 0)) start)).
Definition second : Clock := process 5000 4999 (set_info (max_ts 8 crash1) 0).
Definition crash2 : DS := reopen 7 2 (state_of start (prun (prog_in second) crash1)).
Definition third : Clock := process 9000 8999 (set_info (max_ts 8 crash2) 0).

Theorem failed_time_forgotten :
  value_of (prun (prog_in second) crash1) = Some [Err pnull; Ok] /\
  value_of (prun (prog_in third) crash2) = Some [Err pnull; Err (node 32)] /\ d_log crash2 7 1%nat = [(2, pnull, node 32)].
Proof. split_and!; vm_compute; reflexivity. Qed.
End Runs.
