(* ===== verification/MmtQueue.v ===== *)
(** * MmtQueue: the detectable queue of the recovery experiments
    (extern/memento/src/ploc/insert_delete.rs, src/ds/queue.rs)

    A linked queue whose nodes are inserted by a compare-exchange on the last
    [next] field and deleted by marking the first node with its replacement. A
    thread that crashed asks whether its insertion took effect by looking for
    the node in the queue, or for the mark that says it has been there.

    Any number of threads run on one state; an access is one step. Memory is not
    reused: nodes stay as long as a thread may hold a pointer to them (they are
    destroyed through the epoch collector). *)

From Stdlib Require Import ZArith Lia Bool.
From stdpp Require Import base numbers option functions gmap sets list.
From S2P Require Import Prelude CrashLogic MmtBase MmtCheckpoint.
Local Open Scope Z_scope.
Local Open Scope crash_scope.

(** ** State *)

(** [queue::Node<PPtr<u64>>]; [n_by], the thread that allocated the node, is not
    part of the program. *)
Record Node := mkNode { n_data : option Z; n_next : PShared; n_repl : PShared; n_by : Z }.

(** A pointer without tags, and [PShared::null()]. *)
Definition ptr (o : Z) : PShared := mkP 0 0 0 0 o 0.
Definition null : PShared := ptr 0.
#[export] Instance PShared_inhabited : Inhabited PShared := populate null.
Definition is_null (p : PShared) : bool := p_off p =? 0.

(** [Node::from] and [Node::default]. *)
Definition node_from (data : Z) (by_ : Z) : Node := mkNode (Some data) null null by_.
Definition node_default (by_ : Z) : Node := mkNode None null null by_.

(** A thread: its handle and its mementos, those of the queue operations
    ([Enqueue], [Dequeue], each with a [Failed]) and the loop counter of the
    experiment (cxlalloc-recover/src/queue.rs, [Mmt]). *)
Record Thr := mkThr {
  t_h : Handle;
  t_i : Checkpoint (Z * Z);
  t_node : Checkpoint PShared;
  t_ins : Z;
  t_head_next : Checkpoint (PShared * PShared);
  t_del : Z;
}.

(** [q_all] lists the nodes ever linked, in order, and [q_gone] counts those the
    head has passed (both are not part of the program). [q_cells] are the values
    that the pointers in the queue point to. *)
Record QS := mkQS {
  q_nodes : gmap Z Node;
  q_cells : gmap Z Z;
  q_head : PShared;
  q_tail : PShared;
  q_thr : Z -> Thr;
  q_all : list Z;
  q_gone : nat;
}.

Definition set_nodes (n : gmap Z Node) (s : QS) : QS := mkQS n (q_cells s) (q_head s) (q_tail s) (q_thr s) (q_all s) (q_gone s).
Definition set_cells (c : gmap Z Z) (s : QS) : QS := mkQS (q_nodes s) c (q_head s) (q_tail s) (q_thr s) (q_all s) (q_gone s).
Definition set_head (p : PShared) (g : nat) (s : QS) : QS := mkQS (q_nodes s) (q_cells s) p (q_tail s) (q_thr s) (q_all s) g.
Definition set_tail (p : PShared) (s : QS) : QS := mkQS (q_nodes s) (q_cells s) (q_head s) p (q_thr s) (q_all s) (q_gone s).
Definition set_thr (i : Z) (t : Thr) (s : QS) : QS := mkQS (q_nodes s) (q_cells s) (q_head s) (q_tail s) (<[i := t]> (q_thr s)) (q_all s) (q_gone s).

Section thread.
Context `{CK : Clock} (alloc : gset Z -> Z) (fuel : nat) (tid : Z).

Definition thr (s : QS) : Thr := q_thr s tid.

Definition put_h (h : Handle) (t : Thr) : Thr := mkThr h (t_i t) (t_node t) (t_ins t) (t_head_next t) (t_del t).
Definition put_i (c : Checkpoint (Z * Z)) (t : Thr) : Thr := mkThr (t_h t) c (t_node t) (t_ins t) (t_head_next t) (t_del t).
Definition put_node (c : Checkpoint PShared) (t : Thr) : Thr := mkThr (t_h t) (t_i t) c (t_ins t) (t_head_next t) (t_del t).
Definition put_ins (x : Z) (t : Thr) : Thr := mkThr (t_h t) (t_i t) (t_node t) x (t_head_next t) (t_del t).
Definition put_head_next (c : Checkpoint (PShared * PShared)) (t : Thr) : Thr := mkThr (t_h t) (t_i t) (t_node t) (t_ins t) c (t_del t).
Definition put_del (x : Z) (t : Thr) : Thr := mkThr (t_h t) (t_i t) (t_node t) (t_ins t) (t_head_next t) x.

#[export] Instance QS_handle : HasHandle QS := {| get_h s := t_h (thr s); set_h h s := set_thr tid (put_h h (thr s)) s |}.

Definition lens_of {A} (g : Thr -> A) (p : A -> Thr -> Thr) : lens QS A := mkLens (fun s => g (thr s)) (fun a s => set_thr tid (p a (thr s)) s).
Definition mmt_i : lens QS (Checkpoint (Z * Z)) := lens_of t_i put_i.
Definition mmt_node : lens QS (Checkpoint PShared) := lens_of t_node put_node.
Definition mmt_ins : lens QS Z := lens_of t_ins put_ins.
Definition mmt_head_next : lens QS (Checkpoint (PShared * PShared)) := lens_of t_head_next put_head_next.
Definition mmt_del : lens QS Z := lens_of t_del put_del.

(** ** Accesses *)

(** [PShared::deref]. *)
Definition deref (p : PShared) : M QS Node := fun s =>
  match q_nodes s !! p_off p with Some n => Done (s, n) | None => Undef end.

(** The fields that are read of the node behind a pointer. *)
Definition next_of (p : PShared) : P QS PShared := act (bind (deref p) (fun n => ret (n_next n))).
Definition repl_of (p : PShared) : P QS PShared := act (bind (deref p) (fun n => ret (n_repl n))).

(** [POwned::new] of a node, and the allocation of a value. *)
Definition used (s : QS) : gset Z := dom (q_nodes s) ∪ dom (q_cells s).
Definition new_node (data : Z) : M QS PShared := fun s =>
  let o := alloc (used s) in Done (set_nodes (<[o := node_from data tid]> (q_nodes s)) s, ptr o).
Definition new_cell (v : Z) : M QS Z := fun s =>
  let o := alloc (used s) in Done (set_cells (<[o := v]> (q_cells s)) s, o).

(** [tail.compare_exchange]. *)
Definition cas_tail (old new : PShared) : M QS unit := modify (fun s => if decide (q_tail s = old) then set_tail new s else s).

(** [head.compare_exchange]. *)
Definition cas_head (old new : PShared) : M QS unit :=
  modify (fun s => if decide (q_head s = old) then set_head new (S (q_gone s)) s else s).

(** [next.compare_exchange(null, new)] on the node behind [p]; the result is the
    present value when it fails. *)
Definition cas_next (p new : PShared) : M QS (option PShared) := fun s =>
  match q_nodes s !! p_off p with
  | None => Undef
  | Some n =>
      if decide (n_next n = null) then
        Done (mkQS (<[p_off p := mkNode (n_data n) new (n_repl n) (n_by n)]> (q_nodes s)) (q_cells s) (q_head s) (q_tail s) (q_thr s)
                (q_all s ++ [p_off new]) (q_gone s), None)
      else Done (s, Some (n_next n))
  end.

(** [replacement().compare_exchange(null, new)]. *)
Definition cas_repl (p new : PShared) : M QS bool := fun s =>
  match q_nodes s !! p_off p with
  | None => Undef
  | Some n =>
      if decide (n_repl n = null) then
        Done (set_nodes (<[p_off p := mkNode (n_data n) (n_next n) new (n_by n)]> (q_nodes s)) s, true)
      else Done (s, false)
  end.

(** ** insert_delete.rs *)

(** [Node::acked]. *)
Definition acked (p : PShared) : P QS bool := r <- repl_of p ;; PRet (bool_decide (r <> null)).

(** [Failed::record] and [Failed::check_failed]. *)
Definition record (m : lens QS Z) : P QS unit :=
  t <- act exec_time ;;
  act (modify (lput m t)).

Definition check_failed (m : lens QS Z) : P QS bool :=
  t_mmt <- act (gets (lget m)) ;;
  t_local <- act local_load ;;
  if t_mmt <=? t_local then PRet false
  else act (local_store t_mmt) ;;; PRet true.

(** [Queue::contains], from a node on; the fuel bounds the steps of a walk. *)
Fixpoint contains_from (n : nat) (curr target : PShared) : P QS bool :=
  if is_null curr then PRet false
  else if decide (curr = target) then PRet true
  else
    match n with
    | O => act diverge
    | S n => next <- next_of curr ;; contains_from n next target
    end.

Definition contains (target : PShared) : P QS bool :=
  head <- act (gets q_head) ;;
  contains_from fuel head target.

(** [SMOAtomic::insert_result]. *)
Definition insert_result (new : PShared) : P QS (option bool) :=
  a <- acked new ;;
  c <- (if (a : bool) then PRet true else contains new) ;;
  b <- (if (c : bool) then PRet true else acked new) ;;
  if (b : bool) then PRet (Some true)
  else
    f <- check_failed mmt_ins ;;
    if (f : bool) then PRet (Some false) else PRet None.

(** [SMOAtomic::insert] on the [next] field of the node behind [p]; [None] is
    [Ok(())]. *)
Definition insert (p new : PShared) : P QS (option PShared) :=
  rec <- act rec_load ;;
  replay <- (if (rec : bool) then
               r <- insert_result new ;;
               match r with
               | Some true => PRet (Some None)
               | Some false => cur <- next_of p ;; PRet (Some (Some cur))
               | None => act (rec_store false) ;;; PRet None
               end
             else PRet None) ;;
  match replay with
  | Some r => PRet r
  | None =>
      e <- act (cas_next p new) ;;
      match e with
      | Some cur => record mmt_ins ;;; PRet (Some cur)
      | None => PRet None
      end
  end.

(** [SMOAtomic::delete_result] on the head. *)
Definition delete_result (old new : PShared) : P QS (option bool) :=
  o <- repl_of old ;;
  if decide (p_tid o <> tid) then
    f <- check_failed mmt_del ;;
    if (f : bool) then PRet (Some false) else PRet None
  else
    act (cas_head old new) ;;;
    PRet (Some true).

(** [SMOAtomic::load_help] on the head, for its effect; the caller of the queue
    ignores the pointer. The wait for the owner is the fuel. *)
Fixpoint load_help_wait (n : nat) (old new : PShared) : P QS unit :=
  match n with
  | O => act (cas_head old (set_tid 0 new))
  | S n => cur <- act (gets q_head) ;; if decide (cur <> old) then PRet tt else load_help_wait n old new
  end.

Definition load_help (patience : nat) (old : PShared) : P QS unit :=
  if is_null old then PRet tt
  else
    new <- repl_of old ;;
    if decide (new = null) then PRet tt
    else if decide (p_off new = p_off old) then PRet tt
    else load_help_wait patience old new.

(** [SMOAtomic::delete] on the head; the result tells whether it succeeded. *)
Definition delete (patience : nat) (old new : PShared) : P QS bool :=
  rec <- act rec_load ;;
  replay <- (if (rec : bool) then
               r <- delete_result old new ;;
               match r with
               | Some true => PRet (Some true)
               | Some false => load_help patience old ;;; PRet (Some false)
               | None => act (rec_store false) ;;; PRet None
               end
             else PRet None) ;;
  match replay with
  | Some r => PRet r
  | None =>
      b <- act (cas_repl old (set_tid tid new)) ;;
      if (b : bool) then act (cas_head old new) ;;; PRet true
      else record mmt_del ;;; load_help patience old ;;; PRet false
  end.

(** ** ds/queue.rs *)

(** The first loop of [Queue::try_enqueue]. *)
Fixpoint find_tail (n : nat) : P QS PShared :=
  tail <- act (gets q_tail) ;;
  next <- next_of tail ;;
  if is_null next then PRet tail
  else
    match n with
    | O => act diverge
    | S n =>
        next <- next_of tail ;;
        act (cas_tail tail next) ;;;
        find_tail n
    end.

Definition try_enqueue (node : PShared) : P QS bool :=
  tail <- find_tail fuel ;;
  r <- insert tail node ;;
  match r with
  | Some _ => PRet false
  | None =>
      rec <- act rec_load ;;
      (if (rec : bool) then PRet tt else act (cas_tail tail node)) ;;;
      PRet true
  end.

Fixpoint enqueue_loop (n : nat) (node : PShared) : P QS unit :=
  r <- try_enqueue node ;;
  if (r : bool) then PRet tt
  else match n with O => act diverge | S n => enqueue_loop n node end.

Definition enqueue (value : Z) : P QS unit :=
  node <- checkpoint true mmt_node (act (new_node value)) ;;
  enqueue_loop fuel node.

(** The closure of [Queue::try_dequeue]. *)
Fixpoint find_head (n : nat) : P QS (PShared * PShared) :=
  head <- act (gets q_head) ;;
  tail <- act (gets q_tail) ;;
  next <- next_of head ;;
  if decide (head <> tail) then PRet (head, next)
  else if is_null next then PRet (head, next)
  else
    match n with
    | O => act diverge
    | S n => act (cas_tail tail next) ;;; find_head n
    end.

(** [Ok(None)] is [Some None], [Err(TryFail)] is [None]. *)
Definition try_dequeue (patience : nat) : P QS (option (option Z)) :=
  chk <- checkpoint true mmt_head_next (find_head fuel) ;;
  let '(head, next) := chk in
  if is_null next then PRet (Some None)
  else
    b <- delete patience head next ;;
    if (b : bool) then
      n <- act (deref next) ;;
      PRet (Some (n_data n))
    else PRet None.

Fixpoint dequeue (patience n : nat) : P QS (option Z) :=
  r <- try_dequeue patience ;;
  match r with
  | Some r => PRet r
  | None => match n with O => act diverge | S n => dequeue patience n end
  end.
End thread.

(** ** The invariant of the queue *)

(** The pointer to the [i]-th node; null past the end. *)
Definition nth_ptr (l : list Z) (i : nat) : PShared := from_option ptr null (l !! i).

(** A node is marked when it is deleted; the head follows. *)
Definition marked (l : list Z) (gone i : nat) (n : Node) : Prop :=
  n_repl n = null /\ (gone <= i)%nat \/
  (i <= gone)%nat /\ (S i < length l)%nat /\ exists t, t <> 0 /\ n_repl n = set_tid t (nth_ptr l (S i)).

Record QInv (s : QS) : Prop := {
  qi_nodup : NoDup (q_all s);
  qi_head : exists o, q_all s !! q_gone s = Some o /\ q_head s = ptr o;
  qi_tail : exists o, o ∈ q_all s /\ q_tail s = ptr o;
  qi_linked : forall i o, q_all s !! i = Some o ->
    exists n, q_nodes s !! o = Some n /\ n_next n = nth_ptr (q_all s) (S i) /\ marked (q_all s) (q_gone s) i n;
  qi_free : forall o n, q_nodes s !! o = Some n -> o ∉ q_all s -> n_next n = null /\ n_repl n = null;
  qi_pos : forall o n, q_nodes s !! o = Some n -> 0 < o;
}.

(** What the threads other than [j] may do. They mark nodes with their own ids,
    and leave the nodes that [j] has not linked yet alone. *)
Record env (j : Z) (s s' : QS) : Prop := {
  ev_thr : q_thr s' j = q_thr s j;
  ev_inv : QInv s -> QInv s';
  ev_all : q_all s `prefix_of` q_all s';
  ev_gone : (q_gone s <= q_gone s')%nat;
  ev_node : forall o n, q_nodes s !! o = Some n -> exists n', q_nodes s' !! o = Some n' /\ n_data n' = n_data n /\ n_by n' = n_by n /\
    (n_repl n <> null -> n_repl n' = n_repl n) /\ (p_tid (n_repl n') = j -> n_repl n' = n_repl n) /\
    (n_by n = j -> o ∉ q_all s -> n' = n /\ o ∉ q_all s');
  ev_new : forall o n', q_nodes s !! o = None -> q_nodes s' !! o = Some n' -> n_by n' <> j;
  ev_cells : q_cells s ⊆ q_cells s';
}.

Lemma env_refl j s : env j s s.
Proof. split; try done. intros o n Hn. exists n. split_and!; done. intros o n' H1 H2. congruence. Qed.

Lemma env_trans j s1 s2 s3 : env j s1 s2 -> env j s2 s3 -> env j s1 s3.
Proof.
  intros [A1 A2 A3 A4 A5 A6 A7] [B1 B2 B3 B4 B5 B6 B7]. split.
  - by rewrite B1.
  - auto.
  - by etrans.
  - lia.
  - intros o n Hn. destruct (A5 o n Hn) as (n' & Hn' & Hd & Hb & Hr & Ht & Hm). destruct (B5 o n' Hn') as (n2 & Hn2 & Hd2 & Hb2 & Hr2 & Ht2 & Hm2).
    exists n2. split_and!; [done|congruence|congruence| | |].
    + intros Hne. rewrite Hr2; [by apply Hr|]. by rewrite Hr.
    + intros Htid. rewrite (Ht2 Htid) in Htid |- *. by apply Ht.
    + intros Hby Hna. destruct (Hm Hby Hna) as [-> Hna']. by apply Hm2.
  - intros o n2 Hno Hn2. destruct (q_nodes s2 !! o) as [n'|] eqn:E; [|by eapply B6].
    destruct (B5 o n' E) as (n3 & Hn3 & _ & Hb & _). rewrite Hn2 in Hn3. injection Hn3 as <-. rewrite Hb. by eapply A6.
  - by etrans.
Qed.

(** What a thread guarantees to all others. *)
Definition guar (tid : Z) (s s' : QS) : Prop := forall j, j <> tid -> env j s s'.

Lemma guar_refl tid s : guar tid s s.
Proof. intros j _. apply env_refl. Qed.

Lemma guar_thr tid t s : guar tid s (set_thr tid t s).
Proof.
  intros j Hj. split; try done; simpl.
  - by rewrite fn_lookup_insert_ne.
  - intros [H1 H2 H3 H4 H5 H6]. by split.
  - intros o n Hn. exists n. split_and!; done.
  - intros o n' H1 H2. congruence.
Qed.

(** Nodes that only one thread knows. *)
Lemma guar_nodes tid o n s : q_nodes s !! o = None -> 0 < o -> n_by n = tid -> n_next n = null -> n_repl n = null -> o ∉ q_all s ->
  guar tid s (set_nodes (<[o := n]> (q_nodes s)) s).
Proof.
  intros Hno Hpos Hby Hnx Hrp Hna j Hj. split; try done; simpl.
  - intros [H1 H2 H3 H4 H5 H6]. split; try done; simpl.
    + intros i x Hx. rewrite lookup_insert_ne; [by apply H4|]. intros ->. apply Hna. by eapply list_elem_of_lookup_2.
    + intros x m. destruct (decide (x = o)) as [->|]; [rewrite lookup_insert_eq; intros [= <-]; done|]. rewrite lookup_insert_ne by done. apply H5.
    + intros x m. destruct (decide (x = o)) as [->|]; [done|]. rewrite lookup_insert_ne by done. apply H6.
  - intros x m Hm. exists m. rewrite lookup_insert_ne by congruence. split_and!; done.
  - intros x m Hx. destruct (decide (x = o)) as [->|]; [rewrite lookup_insert_eq; intros [= <-]; congruence|]. rewrite lookup_insert_ne by done. congruence.
Qed.

Lemma guar_cells tid o v s : q_cells s !! o = None -> guar tid s (set_cells (<[o := v]> (q_cells s)) s).
Proof.
  intros Hno j Hj. split; try done; simpl.
  - intros [H1 H2 H3 H4 H5 H6]. by split.
  - intros x m Hm. exists m. split_and!; done.
  - intros x m H1 H2. congruence.
  - by apply insert_subseteq.
Qed.

Lemma guar_tail tid o s : o ∈ q_all s -> guar tid s (set_tail (ptr o) s).
Proof.
  intros Ho j Hj. split; try done; simpl.
  - intros [H1 H2 H3 H4 H5 H6]. split; try done. simpl. by exists o.
  - intros x m Hm. exists m. split_and!; done.
  - intros x m H1 H2. congruence.
Qed.

Lemma all_pos s i o : QInv s -> q_all s !! i = Some o -> 0 < o.
Proof. intros H Hi. destruct (qi_linked _ H i o Hi) as (n & Hn & _). by eapply qi_pos. Qed.

Lemma nth_ptr_null s i : QInv s -> nth_ptr (q_all s) i = null -> q_all s !! i = None.
Proof.
  intros H. unfold nth_ptr. destruct (q_all s !! i) as [o|] eqn:E; [|done]. simpl. intros [= Ho].
  pose proof (all_pos s i o H E). lia.
Qed.

Lemma nth_ptr_app l l' i : (i < length l)%nat -> nth_ptr (l ++ l') i = nth_ptr l i.
Proof. intros Hi. unfold nth_ptr. by rewrite lookup_app_l. Qed.

Lemma nth_ptr_prefix l l' i : l `prefix_of` l' -> (i < length l)%nat -> nth_ptr l' i = nth_ptr l i.
Proof. intros [x ->]. apply nth_ptr_app. Qed.

(** Linking a new node at the end. *)
Definition link (p o : Z) (n : Node) (s : QS) : QS :=
  mkQS (<[p := mkNode (n_data n) (ptr o) (n_repl n) (n_by n)]> (q_nodes s)) (q_cells s) (q_head s) (q_tail s) (q_thr s) (q_all s ++ [o]) (q_gone s).

Lemma link_last s i p n : QInv s -> q_all s !! i = Some p -> q_nodes s !! p = Some n -> n_next n = null -> S i = length (q_all s) /\ n_repl n = null.
Proof.
  intros H Hi Hn Hnull. destruct (qi_linked _ H i p Hi) as (n' & Hn' & Hnx & Hm). rewrite Hn in Hn'. injection Hn' as <-.
  rewrite Hnull in Hnx. symmetry in Hnx. apply (nth_ptr_null s _ H) in Hnx. apply lookup_ge_None in Hnx.
  apply lookup_lt_Some in Hi. split; [lia|]. destruct Hm as [[? _]|(_ & ? & _)]; [done|lia].
Qed.

Lemma link_inv s i p n o m : QInv s -> q_all s !! i = Some p -> q_nodes s !! p = Some n -> n_next n = null ->
  q_nodes s !! o = Some m -> o ∉ q_all s -> QInv (link p o n s).
Proof.
  intros H Hi Hn Hnull Ho Hna. destruct (link_last s i p n H Hi Hn Hnull) as [Hlast Hrepl].
  destruct (qi_head _ H) as (hd & Hhd & Ehd).
  assert (forall k x, q_all s !! k = Some x -> x = p -> k = i) as Hidx by (intros k x Hk ->; eapply NoDup_lookup; [apply H|done|done]).
  assert (p <> o) as Hpo by (intros ->; apply Hna; by eapply list_elem_of_lookup_2).
  split; unfold link; cbn [q_all q_nodes q_head q_tail q_gone].
  - apply NoDup_app. split_and!; [apply H| |apply NoDup_singleton]. intros x Hx Hx'%list_elem_of_singleton. by subst.
  - exists hd. split; [|done]. by apply lookup_app_l_Some.
  - destruct (qi_tail _ H) as (t & Ht & Et). exists t. split; [set_solver|done].
  - intros k x Hk. apply lookup_app_Some in Hk as [Hk|[Hk Hx]].
    + destruct (qi_linked _ H k x Hk) as (nd & Hnd & Hnx & Hm). pose proof (lookup_lt_Some _ _ _ Hk) as Hlt.
      destruct (decide (x = p)) as [->|Hne].
      * rewrite Hn in Hnd. injection Hnd as <-. rewrite (Hidx k p Hk eq_refl) in *. rewrite lookup_insert_eq. eexists. split_and!; [done| |].
        -- simpl. rewrite Hlast. unfold nth_ptr. by rewrite lookup_app_r, Nat.sub_diag.
        -- left. simpl. split; [done|]. destruct Hm as [[_ ?]|(_ & ? & _)]; lia.
      * exists nd. rewrite lookup_insert_ne by done. assert (k <> i) by (intros ->; congruence).
        split_and!; [done|by rewrite nth_ptr_app by lia|]. destruct Hm as [?|(? & ? & Hx)]; [by left|right].
        rewrite length_app. split_and!; [done|lia|]. by rewrite nth_ptr_app by lia.
    + apply list_lookup_singleton_Some in Hx as [Hk0 <-]. exists m. rewrite lookup_insert_ne by done.
      destruct (qi_free _ H o m Ho Hna) as [Hmn Hmr]. split_and!; [done| |].
      * rewrite Hmn. unfold nth_ptr. rewrite lookup_ge_None_2; [done|]. rewrite length_app. simpl. lia.
      * left. split; [done|]. apply lookup_lt_Some in Hhd. lia.
  - intros x nd Hnd Hx. rewrite lookup_insert_ne in Hnd; [apply (qi_free _ H x); [done|set_solver]|]. intros ->. apply Hx.
    apply elem_of_app. left. by eapply list_elem_of_lookup_2.
  - intros x nd. destruct (decide (x = p)) as [->|]; [intros _; by eapply all_pos|]. rewrite lookup_insert_ne by done. apply H.
Qed.

Lemma guar_link tid s i p n o m : QInv s -> q_all s !! i = Some p -> q_nodes s !! p = Some n -> n_next n = null ->
  q_nodes s !! o = Some m -> o ∉ q_all s -> n_by m = tid -> guar tid s (link p o n s).
Proof.
  intros H Hi Hn Hnull Ho Hna Hby j Hj.
  assert (p ∈ q_all s) as Hp by (by eapply list_elem_of_lookup_2).
  split; try done; unfold link; cbn [q_all q_nodes q_gone q_cells q_thr].
  - intros _. by eapply link_inv.
  - by apply prefix_app_r.
  - intros x nd Hnd. destruct (decide (x = p)) as [->|Hne].
    + rewrite Hn in Hnd. injection Hnd as <-. rewrite lookup_insert_eq. eexists. split_and!; done.
    + rewrite lookup_insert_ne by done. exists nd. split_and!; try done. intros Hb Hx. split; [done|].
      intros [?|Hxo%list_elem_of_singleton]%elem_of_app; [done|]. subst. rewrite Ho in Hnd. injection Hnd as <-. done.
  - intros x nd Hx. rewrite lookup_insert_ne by congruence. congruence.
Qed.

(** ** The nodes a thread has linked *)
Definition by_of (s : QS) (o : Z) : option Z := n_by <$> q_nodes s !! o.
Definition mine (j : Z) (s : QS) : list Z := filter (fun o => by_of s o = Some j) (q_all s).

Lemma filter_by_ext (f g : Z -> option Z) j (l : list Z) : (forall o, o ∈ l -> f o = g o) ->
  filter (fun o => f o = Some j) l = filter (fun o => g o = Some j) l.
Proof.
  induction l as [|o l IH]; intros H; [done|]. rewrite !filter_cons, (H o), IH; [done| |left]. intros x Hx. apply H. by right.
Qed.

Lemma filter_by_none (f : Z -> option Z) j (l : list Z) : (forall o, o ∈ l -> f o <> Some j) -> filter (fun o => f o = Some j) l = [].
Proof.
  induction l as [|o l IH]; intros H; [done|]. rewrite filter_cons_False; [|apply H; left]. apply IH. intros x Hx. apply H. by right.
Qed.

Lemma mine_env j s s' : QInv s -> env j s s' -> mine j s' = mine j s.
Proof.
  intros H He. destruct (ev_all _ _ _ He) as [ext Eall]. unfold mine. rewrite Eall, filter_app.
  replace (filter (fun o => by_of s' o = Some j) ext) with (@nil Z).
  - rewrite app_nil_r. apply filter_by_ext. intros o Ho. apply list_elem_of_lookup in Ho as [i Hi].
    destruct (qi_linked _ H i o Hi) as (n & Hn & _). destruct (ev_node _ _ _ He o n Hn) as (n' & Hn' & _ & Hb & _).
    unfold by_of. rewrite Hn, Hn'. simpl. by rewrite Hb.
  - symmetry. apply filter_by_none. intros o Ho Hby. unfold by_of in Hby.
    pose proof (ev_inv _ _ _ He H) as H'. assert (o ∉ q_all s) as Hna.
    { pose proof (qi_nodup _ H') as Hnd. rewrite Eall in Hnd. apply NoDup_app in Hnd as (_ & Hnd & _). intros Hin. by eapply Hnd. }
    destruct (q_nodes s' !! o) as [n'|] eqn:E'; [|done]. simpl in Hby. injection Hby as Hby.
    destruct (q_nodes s !! o) as [n|] eqn:E; [|by eapply ev_new].
    destruct (ev_node _ _ _ He o n E) as (n2 & Hn2 & _ & Hb & _ & _ & Hm). rewrite E' in Hn2. injection Hn2 as <-.
    destruct (Hm ltac:(congruence) Hna) as [_ Hna']. apply Hna'. rewrite Eall. set_solver.
Qed.

Lemma mine_link j s i p n o m : QInv s -> q_all s !! i = Some p -> q_nodes s !! p = Some n ->
  q_nodes s !! o = Some m -> o ∉ q_all s -> n_by m = j -> mine j (link p o n s) = mine j s ++ [o].
Proof.
  intros H Hi Hn Ho Hna Hby. unfold mine, link. cbn [q_all]. rewrite filter_app. f_equal.
  - apply filter_by_ext. intros x Hx. unfold by_of. cbn [q_nodes]. destruct (decide (x = p)) as [->|]; [|by rewrite lookup_insert_ne].
    by rewrite lookup_insert_eq, Hn.
  - assert (p <> o) as Hpo by (intros ->; apply Hna; by eapply list_elem_of_lookup_2).
    rewrite filter_cons_True; [done|]. unfold by_of. cbn [q_nodes]. rewrite lookup_insert_ne, Ho by done. simpl. by rewrite Hby.
Qed.
