(* ===== verification/MmtEnqueue.v ===== *)
(** * MmtEnqueue: enqueue takes effect exactly once

    A thread that runs [Queue::enqueue], among other threads that use the queue,
    crashes at any access and starts again. The proof follows the node: before it
    is recorded, recorded but not linked, linked. In each case the thread finds
    out where it was. *)

From Stdlib Require Import ZArith Lia Bool.
From stdpp Require Import base numbers option functions gmap sets list.
From S2P Require Import Prelude CrashLogic MmtBase MmtCheckpoint MmtQueue.
Local Open Scope Z_scope.
Local Open Scope crash_scope.

Section enqueue.
Context `{CK : Clock} `{CL : !ClockLaws} (alloc : gset Z -> Z) (fuel : nat) (tid : Z).
Hypothesis alloc_fresh : forall X, (alloc X ∉ X) /\ 0 < alloc X.

#[local] Hint Extern 0 (HasHandle QS) => exact (QS_handle tid) : typeclass_instances.
#[export] Instance QS_handle_laws : HandleLaws QS.
Proof. split. intros h s. cbn [get_h set_h QS_handle]. unfold thr, set_thr. cbn [q_thr]. by rewrite fn_lookup_insert. Qed.

Abbreviation cwpt := (cwp (env tid) (guar tid) True).

Lemma thr_set t s : thr tid (set_thr tid t s) = t.
Proof. unfold thr, set_thr. cbn [q_thr]. apply fn_lookup_insert. Qed.

Lemma lens_of_ok {A} (g : Thr -> A) (p : A -> Thr -> Thr) :
  (forall a t, g (p a t) = a) -> (forall h t, g (put_h h t) = g t) -> (forall a t, t_h (p a t) = t_h t) -> lens_ok (lens_of tid g p).
Proof.
  intros H1 H2 H3. split; intros; unfold lens_of; cbn [lget lput get_h set_h QS_handle]; rewrite thr_set; auto.
Qed.

Lemma own_lens {A} (g : Thr -> A) (p : A -> Thr -> Thr) (l := lens_of tid g p) : forall c s, guar tid s (lput l c s).
Proof. intros. apply guar_thr. Qed.

Lemma own_checkpoint {T} (g : Thr -> Checkpoint T) p : own_accesses (guar tid) (lens_of tid g p).
Proof. split; [apply guar_refl|intros; apply guar_thr|intros; apply guar_thr]. Qed.

Lemma env_view {T} (g : Thr -> Checkpoint T) p s s' : env tid s s' -> view_of (lens_of tid g p) s' = view_of (lens_of tid g p) s /\ (now s <= now s')%nat.
Proof.
  intros He. unfold view_of, now. cbn [get_h QS_handle lens_of lget]. unfold thr. by rewrite (ev_thr _ _ _ He).
Qed.

(** An access from a state that satisfies a stable assertion. *)
Definition stable_env (E : QS -> Prop) : Prop := forall s s', E s -> env tid s s' -> E s'.

Lemma st_step {A X} (E : QS -> Prop) (m : M QS X) (k : X -> P QS A) Q (C : QS -> Prop) s :
  stable_env E -> E s -> (forall s, E s -> C s) ->
  (forall s1, E s1 -> awp True m (fun s2 x => guar tid s1 s2 /\ cwpt (k x) Q C s2) s1) -> cwpt (pbind (act m) k) Q C s.
Proof. intros HE Hs HC H. split; [by apply HC|]. intros s1 HR. apply H. by eapply HE. Qed.

Lemma st_act {X} (E : QS -> Prop) (m : M QS X) Q (C : QS -> Prop) s :
  stable_env E -> E s -> (forall s, E s -> C s) ->
  (forall s1, E s1 -> awp True m (fun s2 x => guar tid s1 s2 /\ C s2 /\ Q s2 x) s1) -> cwpt (act m) Q C s.
Proof. intros HE Hs HC H. split; [by apply HC|]. intros s1 HR. apply H. by eapply HE. Qed.

(** Reads. *)
Lemma st_gets {A X} (E : QS -> Prop) (f : QS -> X) (k : X -> P QS A) Q (C : QS -> Prop) s :
  stable_env E -> E s -> (forall s, E s -> C s) -> (forall s1, E s1 -> cwpt (k (f s1)) Q C s1) -> cwpt (pbind (act (gets f)) k) Q C s.
Proof. intros HE Hs HC H. apply (st_step E); [done..|]. intros s1 H1. apply awp_gets. split; [apply guar_refl|by apply H]. Qed.

(** Fields of a node that exists. *)
Lemma st_node {A X} (E : QS -> Prop) o (f : Node -> X) (k : X -> P QS A) Q (C : QS -> Prop) s :
  stable_env E -> E s -> (forall s, E s -> C s) -> (forall s, E s -> exists n, q_nodes s !! o = Some n) ->
  (forall s1 n, E s1 -> q_nodes s1 !! o = Some n -> cwpt (k (f n)) Q C s1) ->
  cwpt (pbind (act (bind (deref (ptr o)) (fun n => ret (f n)))) k) Q C s.
Proof.
  intros HE Hs HC Hn H. apply (st_step E); [done..|]. intros s1 H1. destruct (Hn s1 H1) as [n E1].
  unfold awp, bind, deref. cbn [ptr p_off]. rewrite E1. cbn [obind fst snd ret]. split; [apply guar_refl|by apply H].
Qed.

(** ** Where the node is *)
Section phases.
Context (m0 : list Z) (v : Z) (ci : Checkpoint (Z * Z)) (cl : gmap Z Z) (T0 : Z).

(** What an enqueue does not touch: the loop counter and the cells. *)
Record frame (s : QS) : Prop := {
  fr_inv : QInv s;
  fr_i : t_i (thr tid s) = ci;
  fr_cells : cl ⊆ q_cells s;
}.

(** The node is recorded in [c]; the thread has seen what was recorded before. *)
Record calm (c : Checkpoint PShared) (s : QS) : Prop := {
  cm_frame : frame s;
  cm_node : t_node (thr tid s) = c;
  cm_time : (latest c).2 < exec_time_at (h_now (t_h (thr tid s)));
  cm_seen : T0 <= local_max_time (t_h (thr tid s));
}.

(** The node of this thread, with the value, not linked yet. *)
Definition private (o : Z) (s : QS) : Prop :=
  exists n, q_nodes s !! o = Some n /\ n_by n = tid /\ n_data n = Some v /\ o ∉ q_all s.
Definition linked (o : Z) (s : QS) : Prop := exists n, q_nodes s !! o = Some n /\ n_data n = Some v /\ o ∈ q_all s.

Definition pending (o : Z) (s : QS) : Prop := mine tid s = m0 /\ private o s.
Definition done_ (o : Z) (s : QS) : Prop := mine tid s = m0 ++ [o] /\ linked o s.

Lemma frame_env : stable_env frame.
Proof.
  intros s s' [H1 H2 H3] He. pose proof (ev_thr _ _ _ He) as Et. unfold thr in *. split; unfold thr; rewrite ?Et; try done.
  - by apply (ev_inv _ _ _ He).
  - etrans; [done|]. apply (ev_cells _ _ _ He).
Qed.

Lemma calm_env c : stable_env (calm c).
Proof.
  intros s s' [H1 H2 H3 H4] He. pose proof (ev_thr _ _ _ He) as Et. unfold thr in *. split; unfold thr; rewrite ?Et; try done.
  by eapply frame_env.
Qed.

Lemma frame_thr s t : frame s -> t_i t = ci -> frame (set_thr tid t s).
Proof. intros [H1 H2 H3] Ht. destruct H1. split; [by split|by rewrite thr_set|done]. Qed.

Lemma calm_thr c s t : calm c s -> t_i t = t_i (thr tid s) -> t_node t = t_node (thr tid s) ->
  (h_now (t_h (thr tid s)) <= h_now (t_h t))%nat -> T0 <= local_max_time (t_h t) -> calm c (set_thr tid t s).
Proof.
  intros [H1 H2 H3 H4] Hi Hn Hw Hl. split; rewrite ?thr_set; [|congruence| |done].
  - apply frame_thr; [done|]. rewrite Hi. apply H1.
  - eapply Z.lt_le_trans; [done|]. by apply exec_time_mono.
Qed.

Lemma private_env o : stable_env (private o).
Proof.
  intros s s' (n & Hn & Hb & Hd & Hna) He. destruct (ev_node _ _ _ He o n Hn) as (n' & Hn' & _ & _ & _ & _ & Hm).
  destruct (Hm Hb Hna) as [-> Hna']. by exists n.
Qed.

Lemma linked_env o : stable_env (linked o).
Proof.
  intros s s' (n & Hn & Hd & Ha) He. destruct (ev_node _ _ _ He o n Hn) as (n' & Hn' & Hd' & _). exists n'.
  split_and!; [done|congruence|]. destruct (ev_all _ _ _ He) as [ext ->]. set_solver.
Qed.

Lemma and_env (E F : QS -> Prop) : stable_env E -> stable_env F -> stable_env (fun s => E s /\ F s).
Proof. intros HE HF s s' [H1 H2] He. split; [by eapply HE|by eapply HF]. Qed.

Lemma pending_env c o : stable_env (fun s => calm c s /\ pending o s).
Proof.
  intros s s' (Hc & Hm & Hp) He. split; [by eapply calm_env|].
  split; [|by eapply private_env]. rewrite (mine_env tid s s'); [done|apply Hc|done].
Qed.

Lemma done_env c o : stable_env (fun s => calm c s /\ done_ o s).
Proof.
  intros s s' (Hc & Hm & Hp) He. split; [by eapply calm_env|].
  split; [|by eapply linked_env]. rewrite (mine_env tid s s'); [done|apply Hc|done].
Qed.
End phases.

(** ** Walks *)

(** An assertion under which a thread may move the tail. *)
Record tail_ok (E : QS -> Prop) : Prop := {
  to_env : stable_env E;
  to_inv : forall s, E s -> QInv s;
  to_tail : forall s o, E s -> o ∈ q_all s -> E (set_tail (ptr o) s);
}.

Lemma set_tail_inv s o : QInv s -> o ∈ q_all s -> QInv (set_tail (ptr o) s).
Proof. intros [H1 H2 H3 H4 H5 H6] Ho. split; try done. by exists o. Qed.

Lemma pending_tail m0 v ci cl T0 c o : tail_ok (fun s => calm ci cl T0 c s /\ pending m0 v o s).
Proof.
  split; [apply pending_env|by intros s [[[? _ _] _ _ _] _]|]. intros s x [[[I1 I2 I3] H2 H3 H4] Hp] Hx. split; [|done].
  split; try done. split; try done. by apply set_tail_inv.
Qed.

Lemma done_tail m0 v ci cl T0 c o : tail_ok (fun s => calm ci cl T0 c s /\ done_ m0 v o s).
Proof.
  split; [apply done_env|by intros s [[[? _ _] _ _ _] _]|]. intros s x [[[I1 I2 I3] H2 H3 H4] Hp] Hx. split; [|done].
  split; try done. split; try done. by apply set_tail_inv.
Qed.

(** A pointer to a node that is or was in the queue. *)
Definition at_node (i : nat) (p : PShared) (s : QS) : Prop := exists x, q_all s !! i = Some x /\ p = ptr x.

Lemma at_node_env i p : stable_env (at_node i p).
Proof. intros s s' (x & Hx & ->) He. exists x. split; [|done]. eapply prefix_lookup_Some; [done|apply (ev_all _ _ _ He)]. Qed.

Lemma at_node_guar i p s s' : at_node i p s -> guar tid s s' -> at_node i p s'.
Proof.
  intros (x & Hx & ->) Hg. exists x. split; [|done]. eapply prefix_lookup_Some; [done|]. apply (ev_all (tid + 1)), Hg. lia.
Qed.

(** Reading the [next] field of such a node. *)
Lemma st_next {A} (E : QS -> Prop) i p (k : PShared -> P QS A) Q (C : QS -> Prop) s :
  stable_env E -> (forall s, E s -> QInv s) -> E s -> at_node i p s -> (forall s, E s -> C s) ->
  (forall s1, E s1 -> at_node i p s1 -> cwpt (k (nth_ptr (q_all s1) (S i))) Q C s1) -> cwpt (pbind (next_of p) k) Q C s.
Proof.
  intros HE HI Hs (x & Hx & ->) HC H. unfold next_of. apply (st_node (fun s => E s /\ at_node i (ptr x) s)).
  - apply and_env; [done|apply at_node_env].
  - split; [done|]. by exists x.
  - intros s1 [H1 _]. by apply HC.
  - intros s1 [H1 (y & Hy & [= ->])]. destruct (qi_linked _ (HI _ H1) i y Hy) as (n & Hn & _). by exists n.
  - intros s1 n [H1 (y & Hy & [= ->])] Hn. destruct (qi_linked _ (HI _ H1) i y Hy) as (n' & Hn' & Hnx & _).
    rewrite Hn in Hn'. injection Hn' as <-. rewrite Hnx. apply H; [done|]. by exists y.
Qed.

Lemma tail_node s : QInv s -> exists i, at_node i (q_tail s) s.
Proof. intros H. destruct (qi_tail _ H) as (o & Ho & Eo). apply list_elem_of_lookup in Ho as [i Hi]. exists i, o. done. Qed.

Lemma nth_ptr_at s i : QInv s -> is_null (nth_ptr (q_all s) i) = false -> exists x, q_all s !! i = Some x /\ nth_ptr (q_all s) i = ptr x.
Proof. intros H. unfold nth_ptr. destruct (q_all s !! i) as [x|]; [by exists x|done]. Qed.

(** Moving the tail from one node to another. *)
Lemma st_cas_tail {A} (E : QS -> Prop) old new (k : P QS A) Q (C : QS -> Prop) s i :
  tail_ok E -> E s -> at_node i new s -> (forall s, E s -> C s) -> (forall s1, E s1 -> cwpt k Q C s1) ->
  cwpt (act (cas_tail old new) ;;; k) Q C s.
Proof.
  intros HE Hs Ha HC H. apply (st_step (fun s => E s /\ at_node i new s)).
  - apply and_env; [apply HE|apply at_node_env].
  - done.
  - intros s1 [H1 _]. by apply HC.
  - intros s1 [H1 (x & Hx & ->)]. assert (x ∈ q_all s1) as Hin by (by eapply list_elem_of_lookup_2).
    unfold cas_tail. apply awp_modify. case_decide.
    + split; [by apply guar_tail|]. apply H. by apply HE.
    + split; [apply guar_refl|]. by apply H.
Qed.

Lemma cwp_find_tail (E : QS -> Prop) (C : QS -> Prop) n : tail_ok E -> (forall s, E s -> C s) ->
  forall s, E s -> cwpt (find_tail n) (fun s' p => E s' /\ exists i, at_node i p s') C s.
Proof.
  intros HE HC. induction n as [|n IH]; intros s Hs; cbn [find_tail].
  all: apply (st_gets E); [apply HE|done|done|]; intros s1 H1; destruct (tail_node s1 (to_inv _ HE _ H1)) as [i Hi].
  all: apply (st_next E i); [apply HE|apply HE|done|done|done|]; intros s2 H2 Ha2;
    destruct (is_null (nth_ptr (q_all s2) (S i))) eqn:En; [apply cwp_ret; [by apply HC|]; eauto|].
  - split; [by apply HC|]. done.
  - destruct (nth_ptr_at s2 (S i) (to_inv _ HE _ H2) En) as (y & Hy & _).
    apply (st_next (fun s => E s /\ at_node (S i) (ptr y) s) i).
    + apply and_env; [apply HE|apply at_node_env].
    + intros s' [H' _]. by apply HE.
    + split; [done|]. by exists y.
    + done.
    + intros s' [H' _]. by apply HC.
    + intros s3 [H3 (z & Hz & Ez)] _. apply (st_cas_tail E _ _ _ _ _ _ (S i)); [done|done| |done|done].
      exists z. split; [done|]. unfold nth_ptr. by rewrite Hz.
Qed.

(** ** One node *)
Section node.
Context (m0 : list Z) (v : Z) (ci : Checkpoint (Z * Z)) (cl : gmap Z Z) (T0 : Z) (c : Checkpoint PShared) (o : Z).

Definition waits (s : QS) : Prop := calm ci cl T0 c s /\ pending m0 v o s.
Definition is_in (s : QS) : Prop := calm ci cl T0 c s /\ done_ m0 v o s.
Definition either (s : QS) : Prop := waits s \/ is_in s.

Lemma waits_env : stable_env waits.
Proof. apply pending_env. Qed.
Lemma is_in_env : stable_env is_in.
Proof. apply done_env. Qed.
Lemma waits_inv s : waits s -> QInv s.
Proof. by intros [[[? _ _] _ _ _] _]. Qed.
Lemma is_in_inv s : is_in s -> QInv s.
Proof. by intros [[[? _ _] _ _ _] _]. Qed.

(** A node that is not linked is not marked, and not in the queue. *)
Lemma cwp_acked_waits s : waits s -> cwpt (acked (ptr o)) (fun s' b => waits s' /\ b = false) either s.
Proof.
  intros Hs. unfold acked. apply (st_node waits); [apply waits_env|done|by left|by intros s1 [_ [_ (n & Hn & _)]]; exists n|].
  intros s1 n H1 Hn. pose proof H1 as [_ [_ (n' & Hn' & _ & _ & Hna)]]. rewrite Hn in Hn'. injection Hn' as <-.
  destruct (qi_free _ (waits_inv _ H1) o n Hn Hna) as [_ ->]. apply cwp_ret; [by left|]. split; [done|]. apply bool_decide_eq_false_2. tauto.
Qed.

Lemma cwp_contains_waits n : forall curr s, waits s -> (curr = null \/ exists i, at_node i curr s) ->
  cwpt (contains_from n curr (ptr o)) (fun s' b => waits s' /\ b = false) either s.
Proof.
  induction n as [|n IH]; intros curr s Hs Hcurr; cbn [contains_from].
  all: destruct (is_null curr) eqn:En; [apply cwp_ret; [by left|done]|].
  all: destruct Hcurr as [->|[i Hi]]; [done|].
  all: rewrite decide_False; [|destruct Hi as (x & Hx & ->); intros [= ->]; destruct Hs as [_ [_ (nd & _ & _ & _ & Hna)]];
    apply Hna; by eapply list_elem_of_lookup_2].
  - split; [by left|]. done.
  - apply (st_next waits i); [apply waits_env|apply waits_inv|done|done|by left|]. intros s1 H1 _. apply IH; [done|].
    destruct (is_null (nth_ptr (q_all s1) (S i))) eqn:En1.
    + left. unfold nth_ptr in *. destruct (q_all s1 !! S i) as [x|] eqn:Ex; [|done]. pose proof (all_pos s1 (S i) x (waits_inv _ H1) Ex).
      unfold is_null in En1. simpl in En1. lia.
    + right. destruct (nth_ptr_at s1 (S i) (waits_inv _ H1) En1) as (x & Hx & ->). exists (S i), x. done.
Qed.

Lemma head_node s : QInv s -> at_node (q_gone s) (q_head s) s.
Proof. intros H. destruct (qi_head _ H) as (x & Hx & Ex). by exists x. Qed.

(** A node that was linked is found in the queue, unless the head has passed it;
    then it is marked. *)
Definition passed_node (s : QS) : Prop := exists i, q_all s !! i = Some o /\ (i < q_gone s)%nat.

Lemma passed_node_env : stable_env passed_node.
Proof.
  intros s s' (i & Hi & Hg) He. exists i. split; [eapply prefix_lookup_Some; [done|apply (ev_all _ _ _ He)]|]. pose proof (ev_gone _ _ _ He). lia.
Qed.

Lemma cwp_acked_in (I : QS -> Prop) s : stable_env I -> (forall s, I s -> is_in s) -> I s ->
  cwpt (acked (ptr o)) (fun s' b => I s' /\ (passed_node s -> b = true)) either s.
Proof.
  intros HI HI' Hs. unfold acked. apply (st_node (fun s' => I s' /\ (passed_node s -> passed_node s'))).
  - intros s1 s2 [H1 H2] He. split; [by eapply HI|]. intros Hp. eapply passed_node_env; [by apply H2|done].
  - done.
  - intros s1 [H1 _]. right. by apply HI'.
  - intros s1 [H1 _]. destruct (HI' _ H1) as [_ [_ (n & Hn & _)]]. by exists n.
  - intros s1 n [H1 H2] Hn. apply cwp_ret; [right; by apply HI'|]. split; [done|]. intros Hp. destruct (H2 Hp) as (i & Hi & Hg).
    destruct (qi_linked _ (is_in_inv _ (HI' _ H1)) i o Hi) as (n' & Hn' & _ & Hm). rewrite Hn in Hn'. injection Hn' as <-.
    apply bool_decide_eq_true_2. destruct Hm as [[_ ?]|(_ & Hlt & t & Ht & ->)]; [lia|]. intros E. by apply (f_equal p_tid) in E.
Qed.

Lemma cwp_contains_in (I : QS -> Prop) n : stable_env I -> (forall s, I s -> is_in s) -> forall i curr s, I s ->
  (at_node i curr s /\ (exists k, q_all s !! k = Some o /\ (i <= k)%nat) \/ passed_node s /\ (curr = null \/ at_node i curr s)) ->
  cwpt (contains_from n curr (ptr o)) (fun s' b => I s' /\ (b = true \/ passed_node s')) either s.
Proof.
  intros HI HI'. assert (forall s, I s -> either s) as HC by (intros s Hs; right; by apply HI').
  induction n as [|n IH]; intros i curr s Hs Hcurr; cbn [contains_from].
  all: destruct (is_null curr) eqn:En.
  1,3: apply cwp_ret; [by apply HC|]; split; [done|]; right; destruct Hcurr as [[(x & Hx & ->) _]|[? _]]; [|done];
    pose proof (all_pos s i x (is_in_inv _ (HI' _ Hs)) Hx); unfold is_null in En; simpl in En; lia.
  all: case_decide as Heq; [apply cwp_ret; [by apply HC|]; split; [done|by left]|].
  - split; [by apply HC|]. done.
  - assert (at_node i curr s) as Hat by (destruct Hcurr as [[? _]|[_ [->|?]]]; [done|done|done]).
    set (F := fun s => (exists k, q_all s !! k = Some o /\ (S i <= k)%nat) \/ passed_node s).
    assert (stable_env (fun s => I s /\ F s)) as HF.
    { apply and_env; [done|]. intros s1 s2 [(k & Hk & Hik)|Hp] He; [left|right; by eapply passed_node_env].
      exists k. split; [|done]. eapply prefix_lookup_Some; [done|apply (ev_all _ _ _ He)]. }
    apply (st_next (fun s => I s /\ F s) i).
    + done.
    + intros s1 [H1 _]. by apply is_in_inv, HI'.
    + split; [done|]. destruct Hcurr as [[(x & Hx & ->) (k & Hk & Hik)]|[Hp _]]; [left|by right]. exists k. split; [done|].
      destruct (decide (k = i)) as [->|]; [|lia]. rewrite Hx in Hk. injection Hk as ->. done.
    + done.
    + intros s1 [H1 _]. by apply HC.
    + intros s1 [H1 HF1] _. apply (IH (S i)); [done|]. destruct HF1 as [(k & Hk & Hik)|Hp].
      * left. destruct (lookup_lt_is_Some_2 (q_all s1) (S i)) as [x Hx]; [apply lookup_lt_Some in Hk; lia|].
        split; [|by exists k]. exists x. split; [done|]. unfold nth_ptr. by rewrite Hx.
      * right. split; [done|]. unfold nth_ptr. destruct (q_all s1 !! S i) as [x|] eqn:Ex; [right|by left]. by exists x.
Qed.

(** A walk from the head finds the node or it was passed. *)
Lemma cwp_contains_head (I : QS -> Prop) s : stable_env I -> (forall s, I s -> is_in s) -> I s ->
  cwpt (contains fuel (ptr o)) (fun s' b => I s' /\ (b = true \/ passed_node s')) either s.
Proof.
  intros HI HI' Hs. unfold contains. apply (st_gets I); [done|done|intros s1 H1; right; by apply HI'|]. intros s1 H1.
  pose proof (head_node s1 (is_in_inv _ (HI' _ H1))) as Hh. apply (cwp_contains_in I fuel HI HI' (q_gone s1)); [done|].
  destruct (HI' _ H1) as [_ [_ (n & _ & _ & Hin)]]. apply list_elem_of_lookup in Hin as [k Hk].
  destruct (decide (q_gone s1 <= k)%nat); [left; split; [done|by exists k]|right]. split; [|by right]. exists k. split; [done|lia].
Qed.

(** ** Insertion *)
Lemma waits_thr s t : waits s -> t_i t = t_i (thr tid s) -> t_node t = t_node (thr tid s) ->
  (h_now (t_h (thr tid s)) <= h_now (t_h t))%nat -> T0 <= local_max_time (t_h t) -> waits (set_thr tid t s).
Proof. intros [Hc Hp] Hi Hn Hw Hl. split; [by apply calm_thr|exact Hp]. Qed.

Lemma waits_seen s : waits s -> T0 <= local_max_time (t_h (thr tid s)).
Proof. by intros [[_ _ _ ?] _]. Qed.

Lemma cwp_check_failed_waits s : waits s -> cwpt (check_failed tid (mmt_ins tid)) (fun s' _ => waits s') either s.
Proof.
  intros Hs. unfold check_failed. apply (st_gets waits); [apply waits_env|done|by left|]. intros s1 H1.
  set (t := lget (mmt_ins tid) s1). apply (st_gets waits); [apply waits_env|done|by left|]. intros s2 H2.
  destruct (Z.leb_spec t (local_max_time (get_h s2))) as [Hle|Hgt]; [apply cwp_ret; [by left|done]|].
  apply (st_step (fun s => waits s /\ T0 <= t)); [|split; [done|]| |].
  - intros s3 s4 [H3 ?] He. split; [by eapply waits_env|done].
  - pose proof (waits_seen _ H2). cbn [get_h QS_handle] in Hgt. lia.
  - intros s3 [H3 _]. by left.
  - intros s3 [H3 Ht]. apply awp_modify. split; [apply guar_thr|]. apply cwp_ret; [left|]; by apply waits_thr.
Qed.

Lemma cwp_insert_result_waits s : waits s -> cwpt (insert_result fuel tid (ptr o)) (fun s' r => waits s' /\ r <> Some true) either s.
Proof.
  intros Hs. unfold insert_result. apply cwp_bind. eapply cwp_conseq; [by apply cwp_acked_waits| |done]. intros s1 b [H1 ->]. cbn beta iota.
  apply cwp_bind. unfold contains. apply (st_gets waits); [apply waits_env|done|by left|]. intros s2 H2.
  eapply cwp_conseq; [apply cwp_contains_waits; [done|right; exists (q_gone s2); by apply head_node, waits_inv]| |done]. intros s3 b [H3 ->]. cbn beta iota.
  apply cwp_bind. eapply cwp_conseq; [by apply cwp_acked_waits| |done]. intros s4 b [H4 ->]. cbn beta iota.
  apply cwp_bind. eapply cwp_conseq; [by apply cwp_check_failed_waits| |done]. intros s5 [] H5; apply cwp_ret; (by left || done).
Qed.

(** A record of a failed insertion. *)
Lemma cwp_record_waits s : waits s -> cwpt (record tid (mmt_ins tid)) (fun s' _ => waits s') either s.
Proof.
  intros Hs. unfold record. apply (st_step waits); [apply waits_env|done|by left|]. intros s1 H1. unfold awp, exec_time. split; [apply guar_thr|].
  assert (waits (upd_h (fun h => mkHandle (h_rec h) (local_max_time h) (S (h_now h))) s1)) as H2.
  { unfold upd_h. cbn [set_h QS_handle]. apply waits_thr; [done|done|done|simpl; lia|]. by apply waits_seen. }
  apply (st_act waits); [apply waits_env|done|by left|]. intros s3 H3. apply awp_modify. split; [apply guar_thr|].
  assert (forall x, waits (lput (mmt_ins tid) x s3)) as H4.
  { intros x. cbn [mmt_ins lens_of lput]. apply waits_thr; [done|done|done|done|]. by apply waits_seen. }
  split; [left|]; apply H4.
Qed.

(** The compare-exchange links the node, or another thread was first. *)
Lemma cwp_link i p s : waits s -> at_node i p s ->
  cwpt (e <- act (cas_next p (ptr o)) ;;
        match e with Some cur => record tid (mmt_ins tid) ;;; PRet (Some cur) | None => PRet None end)
    (fun s' r => match r with Some _ => waits s' | None => is_in s' end) either s.
Proof.
  intros Hs Hp. apply (st_step (fun s => waits s /\ at_node i p s)).
  - apply and_env; [apply waits_env|apply at_node_env].
  - done.
  - intros s1 [H1 _]. by left.
  - intros s1 [H1 (x & Hx & ->)]. destruct (qi_linked _ (waits_inv _ H1) i x Hx) as (n & Hn & _).
    unfold awp, cas_next. cbn [ptr p_off]. rewrite Hn. case_decide as Hnull.
    + pose proof H1 as [Hc [Hm (nd & Hnd & Hb & Hd & Hna)]]. split; [by eapply guar_link; [apply waits_inv|..]|].
      assert (is_in (link x o n s1)) as H2; [|apply cwp_ret; [by right|done]].
      destruct Hc as [[I1 I2 I3] C2 C3 C4]. split; [|split].
      * split; [|done|done|done]. split; [by eapply link_inv|done|done].
      * rewrite (mine_link tid s1 i x n o nd); [by rewrite Hm|done..].
      * exists nd. unfold link. cbn [q_nodes q_all]. rewrite lookup_insert_ne; [split_and!; [done|done|set_solver]|].
        intros ->. apply Hna. by eapply list_elem_of_lookup_2.
    + split; [apply guar_refl|]. apply cwp_bind. eapply cwp_conseq; [by apply cwp_record_waits| |done].
      intros s2 ? H2. apply cwp_ret; [by left|done].
Qed.

Definition rec_is (b : bool) (s : QS) : Prop := h_rec (t_h (thr tid s)) = b.
Lemma rec_is_env b : stable_env (rec_is b).
Proof. intros s s' Hr He. unfold rec_is, thr in *. by rewrite (ev_thr _ _ _ He). Qed.

Lemma cwp_insert_waits i p s : waits s -> at_node i p s ->
  cwpt (insert fuel tid p (ptr o)) (fun s' r => match r with Some _ => waits s' | None => is_in s' end) either s.
Proof.
  intros Hs Hp. unfold insert. set (E := fun s => waits s /\ at_node i p s).
  assert (stable_env E) as HE by (apply and_env; [apply waits_env|apply at_node_env]).
  assert (forall s, E s -> either s) as HEC by (intros s1 [H1 _]; by left).
  apply (st_gets E); [done|done|done|]. intros s1 H1. destruct (h_rec (get_h s1)); [|by apply (cwp_link i); destruct H1].
  apply cwp_bind, cwp_bind.
  destruct H1 as [H1 Ha1]. eapply cwp_conseq; [eapply (cwp_frame _ _ _ _ _ _ (at_node i p)); [apply at_node_env|apply at_node_guar| |done];
    by apply cwp_insert_result_waits| |by intros s2 [? _]]. clear s1 H1 Ha1.
  intros s1 [[]|] [[H1 Hr] Ha1]; [done| |].
  - apply (st_next E i); [done|intros s2 [H2 _]; by apply waits_inv|done|done|done|]. intros s2 H2 _.
    apply cwp_ret; [by apply HEC|]. apply cwp_ret; [by apply HEC|]. by destruct H2.
  - apply (st_step E); [done|done|done|]. intros s2 [H2 Ha2]. apply awp_modify. split; [apply guar_thr|].
    assert (waits (upd_h (fun h => mkHandle false (local_max_time h) (h_now h)) s2)) as H3.
    { unfold upd_h. cbn [set_h QS_handle]. apply waits_thr; [done|done|done|done|]. by apply waits_seen. }
    apply cwp_ret; [by left|]. by apply (cwp_link i).
Qed.

(** A thread in recovery whose node is linked learns that. *)
Lemma cwp_insert_in p s : is_in s -> rec_is true s ->
  cwpt (insert fuel tid p (ptr o)) (fun s' r => r = None /\ is_in s' /\ rec_is true s') either s.
Proof.
  intros Hs Hr. unfold insert. set (E := fun s => is_in s /\ rec_is true s).
  assert (stable_env E) as HE by (apply and_env; [apply is_in_env|apply rec_is_env]).
  assert (forall s, E s -> either s) as HEC by (intros s1 [H1 _]; by right).
  apply (st_gets E); [done|done|done|]. intros s1 [H1 Hr1]. change (h_rec (get_h s1)) with (h_rec (t_h (thr tid s1))). rewrite Hr1.
  apply cwp_bind, cwp_bind. assert (forall s, E s -> is_in s) as HEI by (by intros s2 [? _]). unfold insert_result.
  assert (forall s, E s -> cwpt (PRet (Some true)) (fun s' r => r = Some true /\ E s') either s) as Hyes by (intros s2 H2; apply cwp_ret; [by apply HEC|done]).
  eapply (cwp_conseq _ _ _ _ (fun s' r => r = Some true /\ E s') _ either); [| |done].
  - apply cwp_bind. eapply cwp_conseq; [by apply (cwp_acked_in E)| |done]. intros s2 a [H2 _]. apply cwp_bind. destruct a.
    + apply cwp_ret; [by apply HEC|]. cbn [pbind]. by apply Hyes.
    + eapply cwp_conseq; [by apply (cwp_contains_head E)| |done]. intros s3 b [H3 Hb]. apply cwp_bind. destruct b.
      * apply cwp_ret; [by apply HEC|]. by apply Hyes.
      * destruct Hb as [?|Hb]; [done|]. eapply cwp_conseq; [by apply (cwp_acked_in E)| |done]. intros s4 b [H4 Hb4].
        rewrite (Hb4 Hb). by apply Hyes.
  - intros s2 r [-> H2]. apply cwp_ret; [by apply HEC|]. apply cwp_ret; [by apply HEC|]. destruct H2. done.
Qed.

Lemma in_at s : is_in s -> exists i, at_node i (ptr o) s.
Proof. intros [_ [_ (n & _ & _ & Hin)]]. apply list_elem_of_lookup in Hin as [i Hi]. exists i, o. done. Qed.

Lemma cwp_finish tail s : is_in s ->
  cwpt (rec <- act (rec_load (S := QS)) ;; (if (rec : bool) then PRet tt else act (cas_tail tail (ptr o))) ;;; PRet true)
    (fun s' b => b = true /\ is_in s') either s.
Proof.
  intros Hs. apply (st_gets is_in); [apply is_in_env|done|by right|]. intros s1 H1. apply cwp_bind.
  destruct (h_rec _); [apply cwp_ret; [by right|]; apply cwp_ret; [by right|done]|].
  destruct (in_at s1 H1) as [i Hi].
  eapply (cwp_conseq _ _ _ _ (fun s' _ => is_in s') _ either); [| |done].
  - apply (st_act (fun s => is_in s /\ at_node i (ptr o) s)).
    + apply and_env; [apply is_in_env|apply at_node_env].
    + done.
    + intros s2 [H2 _]. by right.
    + intros s2 [H2 (x & Hx & [= ->])]. assert (x ∈ q_all s2) as Hin by (by eapply list_elem_of_lookup_2).
      unfold cas_tail. apply awp_modify. case_decide; [|split; [apply guar_refl|split; [by right|done]]].
      assert (is_in (set_tail (ptr x) s2)) as H3 by (by apply (done_tail m0 v ci cl T0 c o)).
      split; [by apply guar_tail|split; [by right|done]].
  - intros s2 _ H2. apply cwp_ret; [by right|done].
Qed.

(** One attempt: the node is linked, or still waits. *)
Lemma cwp_try_enqueue s : waits s \/ is_in s /\ rec_is true s ->
  cwpt (try_enqueue fuel tid (ptr o)) (fun s' b => if (b : bool) then is_in s' else waits s') either s.
Proof.
  assert (forall tail s, is_in s -> cwpt (rec <- act (rec_load (S := QS)) ;;
    (if (rec : bool) then PRet tt else act (cas_tail tail (ptr o))) ;;; PRet true) (fun s' b => if (b : bool) then is_in s' else waits s') either s) as Hfin.
  { intros tail s1 H1. eapply cwp_conseq; [by apply cwp_finish| |done]. by intros s2 b [-> H2]. }
  intros [Hs|[Hs Hr]]; unfold try_enqueue; apply cwp_bind.
  - eapply cwp_conseq; [apply (cwp_find_tail waits either); [apply pending_tail|by left|done]| |done]. intros s1 tail [H1 [i Hi]].
    apply cwp_bind. eapply cwp_conseq; [by apply (cwp_insert_waits i)| |done]. intros s2 [r|] H2; [apply cwp_ret; [by left|done]|by apply Hfin].
  - eapply cwp_conseq; [apply (cwp_find_tail (fun s => is_in s /\ rec_is true s) either); [|intros s1 [H1 _]; by right|done]| |done].
    + split; [apply and_env; [apply is_in_env|apply rec_is_env]|intros s1 [H1 _]; by apply is_in_inv|].
      intros s1 x [H1 Hr1] Hx. split; [by apply (done_tail m0 v ci cl T0 c o)|done].
    + intros s1 tail [[H1 Hr1] _]. apply cwp_bind. eapply cwp_conseq; [by apply cwp_insert_in| |done]. intros s2 r (-> & H2 & _). by apply Hfin.
Qed.

Lemma cwp_enqueue_loop n : forall s, waits s \/ is_in s /\ rec_is true s -> cwpt (enqueue_loop fuel tid n (ptr o)) (fun s' _ => is_in s') either s.
Proof.
  induction n as [|n IH]; intros s Hs; cbn [enqueue_loop]; apply cwp_bind;
    (eapply cwp_conseq; [by apply cwp_try_enqueue| |done]); intros s1 [] H1; try (apply cwp_ret; [by right|done]).
  - split; [by left|]. done.
  - apply IH. by left.
Qed.
End node.

(** ** The whole operation *)
Section whole.
Context (m0 : list Z) (v : Z) (ci : Checkpoint (Z * Z)) (cl : gmap Z Z) (T0 : Z).

Abbreviation clock s := (exec_time_at (h_now (t_h (thr tid s)))).

(** Nothing is recorded for this operation; or the node [o] is. *)
Definition before (s : QS) : Prop := frame ci cl s /\ mine tid s = m0 /\ (latest (t_node (thr tid s))).2 <= T0.
Definition placed (o : Z) (s : QS) : Prop := frame ci cl s /\ (pending m0 v o s \/ done_ m0 v o s).
Definition recorded (s : QS) : Prop := exists c o t, latest c = (ptr o, t) /\ T0 < t < clock s /\ t_node (thr tid s) = c /\ placed o s.
Definition enq_crash (s : QS) : Prop := T0 < clock s /\ (before s \/ recorded s).
Definition enq_ready (s : QS) : Prop := T0 < clock s /\
  (before s /\ T0 <= local_max_time (t_h (thr tid s)) \/ rec_is true s /\ local_max_time (t_h (thr tid s)) = T0 /\ recorded s).

Abbreviation node_stable := (stable (env tid) (mmt_node tid)).

Lemma placed_stable o : node_stable (placed o).
Proof.
  split.
  - intros s s' [Hf Hp] He. split; [by eapply frame_env|]. destruct Hp as [[Hm Hp]|[Hm Hp]]; [left|right]; (split; [|by eapply private_env || by eapply linked_env]);
      (rewrite (mine_env tid s s'); [done|apply Hf|done]).
  - intros h s [Hf Hp]. split; [|done]. apply frame_thr; [done|]. apply Hf.
  - intros c s [Hf Hp]. split; [|done]. apply frame_thr; [done|]. apply Hf.
Qed.

Lemma mine_stable : node_stable (fun s => frame ci cl s /\ mine tid s = m0).
Proof.
  split.
  - intros s s' [Hf Hm] He. split; [by eapply frame_env|]. rewrite (mine_env tid s s'); [done|apply Hf|done].
  - intros h s [Hf Hm]. split; [|done]. apply frame_thr; [done|]. apply Hf.
  - intros c s [Hf Hm]. split; [|done]. apply frame_thr; [done|]. apply Hf.
Qed.

Lemma pending_stable p : node_stable (fun s => exists o, p = ptr o /\ frame ci cl s /\ pending m0 v o s).
Proof.
  split.
  - intros s s' (o & -> & Hf & Hm & Hp) He. exists o. split; [done|]. split; [by eapply frame_env|]. split; [|by eapply private_env].
    rewrite (mine_env tid s s'); [done|apply Hf|done].
  - intros h s (o & -> & Hf & Hp). exists o. split; [done|]. split; [|done]. apply frame_thr; [done|]. apply Hf.
  - intros c s (o & -> & Hf & Hp). exists o. split; [done|]. split; [|done]. apply frame_thr; [done|]. apply Hf.
Qed.

Lemma mmt_node_ok : lens_ok (mmt_node tid).
Proof. by apply lens_of_ok. Qed.

(** Allocating the node. *)
Lemma new_node_pending s : frame ci cl s -> mine tid s = m0 ->
  exists o s', new_node alloc tid v s = Done (s', ptr o) /\ guar tid s s' /\ frame ci cl s' /\ pending m0 v o s' /\ q_thr s' = q_thr s.
Proof.
  intros Hf Hm. set (o := alloc (used s)). destruct (alloc_fresh (used s)) as [Ho Hpos]. fold o in Ho, Hpos.
  assert (q_nodes s !! o = None) as Hno by (apply not_elem_of_dom; unfold used in Ho; set_solver).
  assert (o ∉ q_all s) as Hna.
  { intros Hin. apply list_elem_of_lookup in Hin as [i Hi]. destruct (qi_linked _ (fr_inv _ _ _ Hf) i o Hi) as (n & Hn & _). congruence. }
  assert (guar tid s (set_nodes (<[o := node_from v tid]> (q_nodes s)) s)) as Hg by (by apply guar_nodes).
  eexists o, _. split; [reflexivity|]. split; [exact Hg|]. split; [|split; [|done]].
  - destruct Hf as [H1 H2 H3]. split; [|done|done]. apply (ev_inv _ _ _ (Hg (tid + 1) ltac:(lia))), H1.
  - split; [|exists (node_from v tid); cbn [q_nodes set_nodes]; by rewrite lookup_insert_eq]. rewrite <- Hm. apply filter_by_ext. intros x Hx.
    unfold by_of. cbn [q_nodes set_nodes]. rewrite lookup_insert_ne; [done|]. by intros <-.
Qed.

Lemma either_crash c o t s : latest c = (ptr o, t) -> T0 < t -> either m0 v ci cl T0 c o s -> enq_crash s.
Proof.
  intros Hlat Ht H. assert (calm ci cl T0 c s /\ placed o s) as [[Hf Hn Hc Hs] Hp].
  { destruct H as [[Hc Hp]|[Hc Hp]]; (split; [done|split; [apply Hc|]]); [by left|by right]. }
  rewrite Hlat in Hc. simpl in Hc. split; [lia|]. right. exists c, o, t. split_and!; done.
Qed.

Definition enq_done (s : QS) : Prop := exists c o t, latest c = (ptr o, t) /\ T0 < t /\ is_in m0 v ci cl T0 c o s.

Lemma cwp_loop_done c o t s : latest c = (ptr o, t) -> T0 < t -> waits m0 v ci cl T0 c o s \/ is_in m0 v ci cl T0 c o s /\ rec_is true s ->
  cwpt (enqueue_loop fuel tid fuel (ptr o)) (fun s' _ => enq_done s') enq_crash s.
Proof.
  intros Hlat Ht Hs. eapply cwp_conseq; [by apply cwp_enqueue_loop| |].
  - intros s' ? H. by exists c, o, t.
  - intros s' H. by eapply either_crash.
Qed.

(** The node was recorded before the crash. *)
Lemma cwp_enqueue_again s : rec_is true s -> local_max_time (t_h (thr tid s)) = T0 -> recorded s ->
  cwpt (enqueue alloc fuel tid v) (fun s' _ => enq_done s') enq_crash s.
Proof.
  intros Hr Hl (c & o & t & Hlat & [Ht Htc] & Hn & Hp). unfold enqueue. apply cwp_bind.
  assert (knows (mmt_node tid) (placed o) (mkView true T0 c) (now s) s) as Hk.
  { split; [done|]. split; [|done]. unfold view_of. cbn [get_h QS_handle mmt_node lens_of lget]. by rewrite Hr, Hl, Hn. }
  eapply cwp_conseq; [eapply (cwp_replay (env tid) (guar tid) True true (mmt_node tid) mmt_node_ok (env_view _ _) (own_checkpoint _ _));
    [apply placed_stable|exact Hk|by rewrite Hlat]| |].
  - intros s1 p [-> (Hp1 & Ev1 & Hn1)]. rewrite Hlat in *. cbn [fst snd] in *. injection Ev1 as Er1 El1 Ec1.
    assert (calm ci cl T0 c s1) as Hcalm.
    { split; [apply Hp1|done| |cbn [get_h QS_handle] in El1; rewrite El1; lia]. rewrite Hlat. simpl. eapply Z.lt_le_trans; [exact Htc|]. by apply exec_time_mono. }
    eapply (cwp_loop_done c); [done|done|]. destruct Hp1 as [_ [Hp1|Hp1]]; [left|right]; split; try done.
  - intros s1 (L & Hp1 & Ev1 & Hn1). injection Ev1 as _ _ Ec1. assert (t < clock s1) by (eapply Z.lt_le_trans; [exact Htc|by apply exec_time_mono]).
    split; [lia|]. right. exists c, o, t. split_and!; done.
Qed.

(** The operation starts. *)
Lemma cwp_enqueue_first s : T0 < clock s -> before s -> T0 <= local_max_time (t_h (thr tid s)) ->
  cwpt (enqueue alloc fuel tid v) (fun s' _ => enq_done s') enq_crash s.
Proof.
  intros Ht (Hf & Hm & Hold) Hl. unfold enqueue. apply cwp_bind. set (c := t_node (thr tid s)).
  set (J := fun s => frame ci cl s /\ mine tid s = m0). set (J' := fun p s => exists o, p = ptr o /\ frame ci cl s /\ pending m0 v o s).
  eapply cwp_conseq; [eapply (cwp_checkpoint (env tid) (guar tid) True true (mmt_node tid) mmt_node_ok (env_view _ _) (own_checkpoint _ _)
    (now s) (h_rec (get_h s)) (local_max_time (get_h s)) c J J J')| |].
  - apply mine_stable.
  - apply pending_stable.
  - done.
  - intros p s1 (o & -> & Hf1 & Hp1). split; [done|apply Hp1].
  - intros n s1 Hn Hk. eapply knows_act; [apply env_view|apply mine_stable|exact Hk|exact Hk|]. intros s2 ([Hf2 Hm2] & Ev2 & Hn2).
    destruct (new_node_pending s2 Hf2 Hm2) as (o & s3 & E3 & Hg & Hf3 & Hp3 & Et3). unfold awp. rewrite E3. split; [done|].
    assert (view_of (mmt_node tid) s3 = view_of (mmt_node tid) s2 /\ now s3 = now s2) as [Ev3 En3].
    { unfold view_of, now. cbn [get_h QS_handle mmt_node lens_of lget]. unfold thr. by rewrite Et3. }
    split; (split; [|split; [by rewrite Ev3|by rewrite En3]]); [split; [done|apply Hp3]|]. by exists o.
  - split; [done|]. by split.
  - intros _. fold c in Hold. cbn [get_h QS_handle]. lia.
  - fold c in Hold. unfold now. cbn [get_h QS_handle]. lia.
  - intros s1 p ((o & -> & Hf1 & Hp1) & c1 & t & Ev1 & Hlat & [Ht0 Ht1] & Hn1). injection Ev1 as Er1 El1 Ec1.
    unfold time, now in *. cbn [get_h QS_handle] in *.
    eapply (cwp_loop_done c1 o t); [done|lia|]. left. split; [|done]. split; [done|done|rewrite Hlat; simpl; done|rewrite El1; lia].
  - intros s1 [Hn1 [[[Hf1 Hm1] Hlat]|(p & (o & -> & Hf1 & Hp1) & t & Hlat & [Ht0 Ht1])]]; unfold time, now in *; cbn [get_h QS_handle] in *.
    + split; [eapply Z.lt_le_trans; [exact Ht|by apply exec_time_mono]|]. left. split_and!; [done|done|].
      change (lget (mmt_node tid) s1) with (t_node (thr tid s1)) in Hlat. rewrite Hlat. done.
    + split; [lia|]. right. exists (t_node (thr tid s1)), o, t. split_and!; [done|lia|done|done|]. split; [done|by left].
Qed.

(** From every state in which it may be started or started again, the operation
    ends with exactly one more node, which holds the value. *)
Lemma cwp_enqueue s : enq_ready s -> cwpt (enqueue alloc fuel tid v) (fun s' _ => enq_done s') enq_crash s.
Proof. intros [Ht [[Hb Hl]|(Hr & Hl & Hrec)]]; [by apply cwp_enqueue_first|by apply cwp_enqueue_again]. Qed.
End whole.
End enqueue.
