(* ===== verification/RecoverQueue.v ===== *)
(** * RecoverQueue: the queue workload of the recovery experiments
    (cxlalloc-recover/src/queue.rs)

    Every thread enqueues the numbers below [object_count], each in a cell of
    its own, on the queue it shares with the others; it crashes at any access
    and is started again. The theorem says that crashes do not show: each thread
    has enqueued its numbers exactly once and in order. *)

From Stdlib Require Import ZArith Lia Bool.
From stdpp Require Import base numbers option functions relations gmap sets list.
From S2P Require Import Prelude CrashLogic MmtBase MmtCheckpoint MmtQueue MmtEnqueue.
Local Open Scope Z_scope.
Local Open Scope crash_scope.

(** [sum], the numbers below [i] on 64 bits, and [FINAL] (worker.rs). *)
Fixpoint sum (i : nat) : Z :=
  match i with O => 0 | S j => wrap 64 (sum j + Z.of_nat j) end.
Definition FINAL (object_count thread_count : Z) : Z := wrap 64 (sum (Z.to_nat object_count) * thread_count).

Section workload.
Context `{CK : Clock} `{CL : !ClockLaws} (alloc : gset Z -> Z) (fuel : nat) (object_count : Z) (tid : Z).
Hypothesis alloc_fresh : forall X, (alloc X ∉ X) /\ 0 < alloc X.

#[local] Hint Extern 0 (HasHandle QS) => exact (QS_handle tid) : typeclass_instances.
Abbreviation cwpt := (cwp (env tid) (guar tid) True).
Abbreviation clock s := (exec_time_at (h_now (t_h (thr tid s)))).

(** The first loop of [run]. *)
Fixpoint enqueue_all (n : nat) (i : Z) : P QS unit :=
  if i <? object_count then
    match n with
    | O => act diverge
    | S n =>
        x <- checkpoint true (mmt_i tid) (pointer <- act (new_cell alloc i) ;; PRet (i + 1, pointer)) ;;
        enqueue alloc fuel tid (snd x) ;;;
        enqueue_all n (fst x)
    end
  else PRet tt.

(** ** What the nodes hold *)
Definition has_val (o x : Z) (s : QS) : Prop :=
  exists n p, q_nodes s !! o = Some n /\ n_data n = Some p /\ q_cells s !! p = Some x.

Definition vals (m : list Z) (k : Z) (s : QS) : Prop := Forall2 (fun o x => has_val o x s) m (seqZ 0 k).

Lemma has_val_env j o x s s' : has_val o x s -> env j s s' -> has_val o x s'.
Proof.
  intros (n & p & Hn & Hd & Hc) He. destruct (ev_node _ _ _ He o n Hn) as (n' & Hn' & Hd' & _).
  exists n', p. split_and!; [done|congruence|]. eapply lookup_weaken; [done|apply (ev_cells _ _ _ He)].
Qed.

Lemma vals_env j m k s s' : vals m k s -> env j s s' -> vals m k s'.
Proof. intros H He. eapply Forall2_impl; [exact H|]. intros o x Hx. exact (has_val_env j o x s s' Hx He). Qed.

Lemma vals_guar m k s s' : vals m k s -> guar tid s s' -> vals m k s'.
Proof. intros H Hg. eapply (vals_env (tid + 1)); [done|]. apply Hg. lia. Qed.

Lemma vals_snoc m o k s : 0 <= k -> vals m k s -> has_val o k s -> vals (m ++ [o]) (k + 1) s.
Proof.
  intros Hk H Ho. unfold vals. rewrite seqZ_app by lia. apply Forall2_app; [done|]. by constructor; [|constructor].
Qed.

(** The number [k - 1] waits in the cell [p]. *)
Definition cell_is (p k : Z) (s : QS) : Prop := q_cells s !! p = Some (k - 1).

Lemma cell_env j p k s s' : cell_is p k s -> env j s s' -> cell_is p k s'.
Proof. intros H He. eapply lookup_weaken; [done|apply (ev_cells _ _ _ He)]. Qed.

Lemma linked_val v o k s : linked v o s -> cell_is v k s -> has_val o (k - 1) s.
Proof. intros (n & Hn & Hd & _) Hc. by exists n, v. Qed.

Lemma cell_guar p k s s' : cell_is p k s -> guar tid s s' -> cell_is p k s'.
Proof. intros H Hg. eapply (cell_env (tid + 1)); [done|]. apply Hg. lia. Qed.

(** ** Where the thread is *)
Abbreviation stable_i := (stable (env tid) (mmt_i tid)).
Abbreviation chk_i s := (t_i (thr tid s)).
Abbreviation chk_node s := (t_node (thr tid s)).

(** The number [k - 1] is under way, in the cell [p]; [w] tells where its node
    is. The times are those before the [n]-th reading of the clock. *)
Record busy (w : QS -> Prop) (n : nat) (k p T0 : Z) (m0 : list Z) (s : QS) : Prop := {
  bz_inv : QInv s;
  bz_time : 0 < T0 < exec_time_at n;
  bz_count : 1 <= k <= object_count;
  bz_vals : vals m0 (k - 1) s;
  bz_cell : cell_is p k s;
  bz_where : w s;
}.

(** Not recorded; recorded; recorded and linked. *)
Definition at_start (T0 : Z) (m0 : list Z) (s : QS) : Prop := mine tid s = m0 /\ (latest (chk_node s)).2 <= T0.
Definition at_node_of (X : Z -> QS -> Prop) (n : nat) (T0 : Z) (s : QS) : Prop :=
  exists o t, latest (chk_node s) = (ptr o, t) /\ T0 < t < exec_time_at n /\ X o s.
Definition at_end (n : nat) (p T0 : Z) (m0 : list Z) : QS -> Prop := at_node_of (done_ tid m0 p) n T0.
Definition anywhere (n : nat) (p T0 : Z) (m0 : list Z) (s : QS) : Prop :=
  at_start T0 m0 s \/ at_node_of (fun o s => pending tid m0 p o s \/ done_ tid m0 p o s) n T0 s.

(** Assertions that are about the rest of the state: with the invariant, they
    survive what the other threads do and the accesses of the loop counter. *)
Definition steady (w : QS -> Prop) : Prop :=
  (forall s s', QInv s -> w s -> env tid s s' -> w s') /\ (forall h s, w s -> w (set_h h s)) /\ (forall c s, w s -> w (lput (mmt_i tid) c s)).

Lemma node_kept s : (forall s', env tid s s' -> chk_node s' = chk_node s) /\ (forall h, chk_node (set_h h s) = chk_node s) /\
  (forall c, chk_node (lput (mmt_i tid) c s) = chk_node s).
Proof.
  split_and!; intros; cbn [set_h QS_handle mmt_i lens_of lput]; rewrite ?thr_set; [|done..].
  unfold thr. by rewrite (ev_thr tid s s').
Qed.

Lemma pending_steady m0 p o : steady (pending tid m0 p o).
Proof.
  split_and!; [|done..]. intros s s' Hi [Hm Hp] He. split; [by rewrite (mine_env _ _ _ Hi He)|by eapply private_env].
Qed.

Lemma done_steady m0 p o : steady (done_ tid m0 p o).
Proof.
  split_and!; [|done..]. intros s s' Hi [Hm Hp] He. split; [by rewrite (mine_env _ _ _ Hi He)|by eapply linked_env].
Qed.

Lemma or_steady (w w' : QS -> Prop) : steady w -> steady w' -> steady (fun s => w s \/ w' s).
Proof. unfold steady. naive_solver. Qed.

Lemma start_steady T0 m0 : steady (at_start T0 m0).
Proof.
  split_and!; unfold at_start.
  - intros s s' Hi [Hm Hn] He. destruct (node_kept s) as (E & _ & _). rewrite (E s' He). by rewrite (mine_env _ _ _ Hi He).
  - intros h s [Hm Hn]. destruct (node_kept s) as (_ & E & _). by rewrite E.
  - intros c s [Hm Hn]. destruct (node_kept s) as (_ & _ & E). by rewrite E.
Qed.

Lemma node_steady X n T0 : (forall o, steady (X o)) -> steady (at_node_of X n T0).
Proof.
  intros HX. split_and!; unfold at_node_of.
  - intros s s' Hi (o & t & Hl & Ht & Hx) He. destruct (node_kept s) as (E & _ & _). rewrite (E s' He). exists o, t. split; [done|]. split; [done|]. by eapply (proj1 (HX o)).
  - intros h s (o & t & Hl & Ht & Hx). destruct (node_kept s) as (_ & E & _). rewrite E. exists o, t. split; [done|]. split; [done|]. by apply HX.
  - intros c s (o & t & Hl & Ht & Hx). destruct (node_kept s) as (_ & _ & E). rewrite E. exists o, t. split; [done|]. split; [done|]. by apply HX.
Qed.

Lemma end_steady n p T0 m0 : steady (at_end n p T0 m0).
Proof. apply node_steady. apply done_steady. Qed.
Lemma anywhere_steady n p T0 m0 : steady (anywhere n p T0 m0).
Proof. apply or_steady; [apply start_steady|]. apply node_steady. intros o. apply or_steady; [apply pending_steady|apply done_steady]. Qed.

Lemma QInv_thr t s : QInv s -> QInv (set_thr tid t s).
Proof. intros []. by split. Qed.

Lemma busy_stable w n k p T0 m0 : steady w -> stable_i (busy w n k p T0 m0).
Proof.
  intros (H1 & H2 & H3). split.
  - intros s s' [] He. split; [by apply (ev_inv _ _ _ He)|done|done|by eapply vals_env|by eapply cell_env|by eapply H1].
  - intros h s []. split; [by apply QInv_thr|done|done|done|done|by apply H2].
  - intros c s []. split; [by apply QInv_thr|done|done|done|done|by apply H3].
Qed.

Lemma end_anywhere n p T0 m0 s : at_end n p T0 m0 s -> anywhere n p T0 m0 s.
Proof. intros (o & t & Hl & Ht & Hd). right. exists o, t. split; [done|]. split; [done|by right]. Qed.

Lemma busy_weaken (w w' : QS -> Prop) n k p T0 m0 s : (w s -> w' s) -> busy w n k p T0 m0 s -> busy w' n k p T0 m0 s.
Proof. intros Hw []. split; auto. Qed.

(** The state after a crash: nothing was ever recorded, or a number is under
    way. *)
Definition untouched (li : Z * Z * Z) (s : QS) : Prop := QInv s /\ mine tid s = [] /\ li.2 = 0 /\ (latest (chk_node s)).2 = 0.
Definition stage (s : QS) : Prop :=
  untouched (latest (chk_i s)) s \/
  exists k p T0 m0, latest (chk_i s) = ((k, p), T0) /\ busy (anywhere (now s) p T0 m0) (now s) k p T0 m0 s.

(** The state before each round of the loop. *)
Definition idle (n : nat) (i : Z) (li : Z * Z * Z) (s : QS) : Prop :=
  i = 0 /\ 0 <= object_count /\ untouched li s \/ exists p T0 m0, li = ((i, p), T0) /\ busy (at_end n p T0 m0) n i p T0 m0 s.

Lemma busy_crash n k p T0 m0 s : (n <= now s)%nat ->
  busy (anywhere n p T0 m0) n k p T0 m0 s -> enq_crash tid m0 p (chk_i s) {[p := k - 1]} T0 s.
Proof.
  intros Hn [H1 H2 H3 H4 H5 H6]. assert (exec_time_at n <= clock s) as Hle by (by apply exec_time_mono).
  assert (frame tid (chk_i s) {[p := k - 1]} s) as Hf by (split; [done|done|by apply map_singleton_subseteq_l]).
  split; [lia|]. destruct H6 as [[Hm Hl]|(o & t & Hl & Ht & Hx)]; [left; by split_and!|right].
  exists (chk_node s), o, t. split; [done|]. split; [lia|]. split; [done|]. by split.
Qed.

Lemma crash_busy k p T0 m0 ci s : 0 < T0 -> 1 <= k <= object_count -> vals m0 (k - 1) s ->
  enq_crash tid m0 p ci {[p := k - 1]} T0 s -> chk_i s = ci /\ busy (anywhere (now s) p T0 m0) (now s) k p T0 m0 s.
Proof.
  intros H0 Hk Hv [Ht H].
  assert (frame tid ci {[p := k - 1]} s /\ anywhere (now s) p T0 m0 s) as [[Hi Hc Hl] Hw].
  { destruct H as [(Hf & Hm & Hl)|(c & o & t & Hl & Htt & <- & Hf & Hp)]; (split; [done|]); [by left|right]. by exists o, t. }
  split; [done|]. split; [done|done|done|done| |done]. by apply map_singleton_subseteq_l.
Qed.

Lemma done_busy k p T0 m0 ci s : 0 < T0 -> 1 <= k <= object_count -> vals m0 (k - 1) s ->
  enq_done tid m0 p ci {[p := k - 1]} T0 s -> chk_i s = ci /\ busy (at_end (now s) p T0 m0) (now s) k p T0 m0 s /\ T0 <= local_max_time (get_h s).
Proof.
  intros H0 Hk Hv (c & o & t & Hl & Ht & [[[Hi Hci Hcl] Hn Htm Hs] Hd]). rewrite Hl in Htm. simpl in Htm. split; [done|]. split; [|done].
  assert (T0 < exec_time_at (now s)) by (unfold now; cbn [get_h QS_handle]; lia).
  split; [done|lia|done|done|by apply map_singleton_subseteq_l|]. exists o, t. rewrite Hn. split; [done|]. split; [|done]. split; [done|exact Htm].
Qed.

Lemma untouched_stable li : stable_i (untouched li).
Proof.
  split; unfold untouched.
  - intros s s' (H1 & H2 & H3 & H4) He. destruct (node_kept s) as (E & _ & _). rewrite (E s' He), (mine_env _ _ _ H1 He).
    split_and!; try done. by apply (ev_inv _ _ _ He).
  - intros h s (H1 & H2 & H3 & H4). destruct (node_kept s) as (_ & E & _). rewrite E. split_and!; try done. by apply QInv_thr.
  - intros c s (H1 & H2 & H3 & H4). destruct (node_kept s) as (_ & _ & E). rewrite E. split_and!; try done. by apply QInv_thr.
Qed.

Lemma idle_stable n i li : stable_i (idle n i li).
Proof.
  pose proof (untouched_stable li) as HU.
  assert (forall p T0 m0, stable_i (busy (at_end n p T0 m0) n i p T0 m0)) as HB by (intros; apply busy_stable, end_steady).
  split; [intros s s' H He|intros h s H|intros c s H].
  all: destruct H as [(Hi & Ho & H)|(p & T0 & m0 & Hl & H)]; [left; split; [done|split; [done|]]|right; exists p, T0, m0; split; [done|]].
  - by eapply st_rely.
  - by eapply (st_rely _ _ _ (HB p T0 m0)).
  - by apply (st_h _ _ _ HU).
  - by apply (st_h _ _ _ (HB p T0 m0)).
  - by apply (st_put _ _ _ HU).
  - by apply (st_put _ _ _ (HB p T0 m0)).
Qed.

(** The numbers below [i] have been enqueued. *)
Lemma idle_vals n i li s : idle n i li s -> QInv s /\ vals (mine tid s) i s /\ 0 <= i <= object_count /\
  0 <= li.2 < exec_time_at n /\ (latest (chk_node s)).2 < exec_time_at n.
Proof.
  pose proof (exec_time_pos n). pose proof global_max_nonneg.
  intros [(-> & Ho & Hi & Hm & H1 & H2)|(p & T0 & m0 & -> & [Hi H1 H2 H3 H4 (o & t & Hl & Ht & [Hm Hd])])].
  - rewrite Hm, H1, H2. split_and!; try done || lia. constructor.
  - rewrite Hm, Hl. simpl. split_and!; try done || lia. replace i with (i - 1 + 1) by lia.
    apply vals_snoc; [lia|done|]. by eapply linked_val.
Qed.

Lemma idle_stage n i s : (n <= now s)%nat -> idle n i (latest (chk_i s)) s -> stage s.
Proof.
  intros Hn [(_ & _ & H)|(p & T0 & m0 & Hl & H)]; [by left|right]. exists i, p, T0, m0. split; [done|].
  destruct (crash_busy i p T0 m0 (chk_i s) s) as [_ ?]; [apply H..| |done].
  eapply busy_crash; [done|]. eapply busy_weaken; [apply end_anywhere|exact H].
Qed.

(** ** A round of the loop *)
Lemma cells_idle n i li s : idle n i li s -> exists p s', new_cell alloc i s = Done (s', p) /\ guar tid s s' /\
  idle n i li s' /\ cell_is p (i + 1) s' /\ q_thr s' = q_thr s.
Proof.
  intros H. set (p := alloc (used s)). destruct (alloc_fresh (used s)) as [Ho _]. fold p in Ho.
  assert (q_cells s !! p = None) as Hno by (apply not_elem_of_dom; unfold used in Ho; set_solver).
  pose proof (guar_cells tid p i s Hno) as Hg. eexists p, _. split; [reflexivity|]. split; [exact Hg|]. split; [|split; [|done]].
  - destruct H as [(Hi & Ho' & H1 & H)|(q & T0 & m0 & Hl & [H1 H2 H3 H4 H5 H6])]; [left; split; [done|]; split; [done|]; split; [|exact H]|right].
    + by apply (ev_inv _ _ _ (Hg (tid + 1) ltac:(lia))).
    + exists q, T0, m0. split; [done|]. split; [|done|done|by eapply vals_guar|by eapply cell_guar|done].
      by apply (ev_inv _ _ _ (Hg (tid + 1) ltac:(lia))).
  - unfold cell_is. cbn [q_cells set_cells]. rewrite lookup_insert_eq. f_equal. lia.
Qed.

(** The new number is recorded, or still the old one. *)
Definition noted (n : nat) (i : Z) (li : Z * Z * Z) (x : Z * Z) (s : QS) : Prop := idle n i li s /\ fst x = i + 1 /\ cell_is (snd x) (i + 1) s.

Lemma noted_stable n i li x : stable_i (noted n i li x).
Proof.
  pose proof (idle_stable n i li) as HI. split; [intros s s' (H1 & H2 & H3) He|intros h s (H1 & H2 & H3)|intros c s (H1 & H2 & H3)].
  - split; [by eapply st_rely|]. split; [done|by eapply cell_env].
  - split; [by apply (st_h _ _ _ HI)|]. by split.
  - split; [by apply (st_put _ _ _ HI)|]. by split.
Qed.

Lemma noted_busy n i li x t s : noted n i li x s -> i < object_count -> exec_time_at n <= t < exec_time_at (now s) ->
  busy (at_start t (mine tid s)) (now s) (fst x) (snd x) t (mine tid s) s.
Proof.
  intros (H1 & H2 & H3) Hi Ht. destruct (idle_vals _ _ _ _ H1) as (Hq & Hv & Hc & Hl & Hn). rewrite H2.
  split; [done|lia|lia| |done|split; [done|lia]]. by replace (i + 1 - 1) with i by lia.
Qed.

Definition ready (i : Z) (s : QS) : Prop := idle (now s) i (latest (chk_i s)) s /\ (latest (chk_i s)).2 <= local_max_time (get_h s).

Lemma mmt_i_ok : lens_ok (mmt_i tid).
Proof. by apply lens_of_ok. Qed.

Lemma cwp_note i s : ready i s -> i < object_count ->
  cwpt (checkpoint true (mmt_i tid) (pointer <- act (new_cell alloc i) ;; PRet (i + 1, pointer)))
    (fun s' x => exists n t, noted n i (latest (chk_i s)) x s' /\ latest (chk_i s') = (x, t) /\ exec_time_at n <= t < exec_time_at (now s') /\
       local_max_time (get_h s') = t) stage s.
Proof.
  intros [Hi Hl] Hlt. set (li := latest (chk_i s)). set (n := now s).
  pose proof (idle_vals _ _ _ _ Hi) as (_ & _ & _ & Ht & _).
  eapply cwp_conseq; [eapply (cwp_checkpoint (env tid) (guar tid) True true (mmt_i tid) mmt_i_ok (env_view _ _ _) (own_checkpoint _ _ _)
    n (h_rec (get_h s)) (local_max_time (get_h s)) (chk_i s) (idle n i li) (idle n i li) (noted n i li))| |].
  - apply idle_stable.
  - apply noted_stable.
  - done.
  - by intros x s1 [H1 _].
  - intros m s1 Hm Hk. eapply knows_step; [apply env_view|apply idle_stable|exact Hk|exact Hk|]. intros s2 (H2 & E2 & Hn2).
    destruct (cells_idle _ _ _ _ H2) as (p & s3 & E3 & Hg & H3 & Hp3 & Et). unfold awp. rewrite E3. split; [done|].
    assert (view_of (mmt_i tid) s3 = view_of (mmt_i tid) s2 /\ now s3 = now s2) as [Ev En].
    { unfold view_of, now. cbn [get_h QS_handle mmt_i lens_of lget]. unfold thr. by rewrite Et. }
    apply cwp_ret; (split; [|split; [by rewrite Ev|by rewrite En]]); done.
  - done.
  - done.
  - apply Ht.
  - intros s1 x (Hx & c & t & Ev & Hlat & Htt & Hn1). injection Ev as Er El Ec. change (lget (mmt_i tid) s1) with (chk_i s1) in Ec.
    exists n, t. rewrite Ec. done.
  - intros s1 [Hn1 [[H1 Hlat]|(x & Hx & t & Hlat & Htt)]]; change (lget (mmt_i tid) s1) with (chk_i s1) in Hlat.
    + apply (idle_stage n i); [done|by rewrite Hlat].
    + right. exists (fst x), (snd x), t, (mine tid s1). split; [by rewrite Hlat, <- surjective_pairing|].
      eapply busy_weaken; [|by eapply noted_busy]. by left.
Qed.

(** Enqueueing from a state in which the number is under way. *)
Lemma cwp_number k p T0 m0 s : latest (chk_i s) = ((k, p), T0) -> busy (anywhere (now s) p T0 m0) (now s) k p T0 m0 s ->
  enq_ready tid m0 p (chk_i s) {[p := k - 1]} T0 s ->
  cwpt (enqueue alloc fuel tid p) (fun s' _ => ready k s') stage s.
Proof.
  intros Hlat [H1 H2 H3 H4 H5 H6] Hr. eapply cwp_conseq.
  - eapply (cwp_frame _ _ _ _ _ _ (vals m0 (k - 1))); [intros; by eapply vals_env|intros; by eapply vals_guar| |done].
    by apply cwp_enqueue.
  - intros s1 _ [Hd Hv]. destruct (done_busy k p T0 m0 (chk_i s) s1) as (Ec & Hb & Hl); [lia|done|done|done|].
    unfold ready. rewrite Ec, Hlat. split; [|done]. right. by exists p, T0, m0.
  - intros s1 [Hc Hv]. destruct (crash_busy k p T0 m0 (chk_i s) s1) as (Ec & Hb); [lia|done|done|done|].
    right. exists k, p, T0, m0. by rewrite Ec.
Qed.

Lemma cwp_round (K : Z -> P QS unit) Q i s : (forall s' k, ready k s' -> cwpt (K k) Q stage s') -> ready i s -> i < object_count ->
  cwpt (x <- checkpoint true (mmt_i tid) (pointer <- act (new_cell alloc i) ;; PRet (i + 1, pointer)) ;;
        enqueue alloc fuel tid (snd x) ;;; K (fst x)) Q stage s.
Proof.
  intros HK Hs Hi. apply cwp_bind. eapply cwp_conseq; [by apply cwp_note| |done].
  intros s1 x (n & t & Hx & Hlat & Ht & Hl). pose proof (noted_busy _ _ _ _ _ _ Hx Hi Ht) as Hb.
  assert (latest (chk_i s1) = ((fst x, snd x), t)) as Hlat' by (by rewrite Hlat, <- surjective_pairing).
  apply cwp_bind. eapply cwp_conseq; [apply (cwp_number (fst x) (snd x) t (mine tid s1)); [done| |]| |done].
  - eapply busy_weaken; [|exact Hb]. by left.
  - destruct Hb as [H1 H2 H3 H4 H5 [_ H6]]. split; [exact (proj2 H2)|]. left. split; [|cbn [get_h QS_handle] in Hl; lia].
    split; [|done]. split; [done|done|by apply map_singleton_subseteq_l].
  - intros s2 ? H2. by apply HK.
Qed.

(** The first round of a thread that starts again replays the number that was
    under way. *)
Lemma cwp_first (K : Z -> P QS unit) Q k p T0 m0 f s : (forall s' k, ready k s' -> cwpt (K k) Q stage s') -> latest (chk_i s) = ((k, p), T0) -> busy (anywhere (now s) p T0 m0) (now s) k p T0 m0 s ->
  rec_is tid true s -> local_max_time (get_h s) = 0 ->
  cwpt (x <- checkpoint true (mmt_i tid) f ;; enqueue alloc fuel tid (snd x) ;;; K (fst x)) Q stage s.
Proof.
  intros HK Hlat Hb Hr Hl. set (n := now s). apply cwp_bind.
  assert (knows (mmt_i tid) (busy (anywhere n p T0 m0) n k p T0 m0) (mkView true 0 (chk_i s)) n s) as Hk.
  { split; [done|]. split; [|done]. unfold view_of. change (lget (mmt_i tid) s) with (chk_i s). rewrite Hl. by change (h_rec (get_h s)) with (h_rec (t_h (thr tid s))); rewrite Hr. }
  assert (forall b L s1, knows (mmt_i tid) (busy (anywhere n p T0 m0) n k p T0 m0) (mkView b L (chk_i s)) n s1 ->
    latest (chk_i s1) = ((k, p), T0) /\ busy (anywhere (now s1) p T0 m0) (now s1) k p T0 m0 s1) as Hkb.
  { intros b L s1 (H1 & Ev & Hn). injection Ev as _ _ Ec. change (lget (mmt_i tid) s1) with (chk_i s1) in Ec. split; [by rewrite Ec|].
    eapply (crash_busy k p T0 m0 (chk_i s1)); [apply H1..|]. by eapply busy_crash. }
  eapply cwp_conseq; [eapply (cwp_replay (env tid) (guar tid) True true (mmt_i tid) mmt_i_ok (env_view _ _ _) (own_checkpoint _ _ _));
    [apply busy_stable, anywhere_steady|exact Hk|rewrite Hlat; apply Hb]| |].
  - rewrite Hlat. cbn [fst snd]. intros s1 x [-> Hk1]. destruct (Hkb _ _ _ Hk1) as [Hlat1 Hb1]. cbn [fst snd]. apply cwp_bind.
    eapply cwp_conseq; [apply (cwp_number k p T0 m0); [done|done|]| |done].
    + destruct (busy_crash (now s1) k p T0 m0 s1 ltac:(done) Hb1) as [Ht Hc]. destruct Hk1 as (_ & Ev & _). injection Ev as Er El _.
      split; [done|]. destruct Hc as [Hc|Hc]; [left; split; [done|]|right; split_and!; try done]. cbn [get_h QS_handle] in El. lia.
    + intros s2 ? H2. by apply HK.
  - intros s1 [L Hk1]. destruct (Hkb _ _ _ Hk1) as [Hlat1 Hb1]. right. by exists k, p, T0, m0.
Qed.

(** ** The loop *)
Definition finished (s : QS) : Prop := QInv s /\ vals (mine tid s) object_count s.
Definition booted (s : QS) : Prop := stage s /\ rec_is tid true s /\ local_max_time (get_h s) = 0 /\ 0 <= object_count.

Lemma enqueue_all_unfold n i : i < object_count -> enqueue_all (S n) i =
  (x <- checkpoint true (mmt_i tid) (pointer <- act (new_cell alloc i) ;; PRet (i + 1, pointer)) ;;
   enqueue alloc fuel tid (snd x) ;;; enqueue_all n (fst x)).
Proof. intros Hi. cbn [enqueue_all]. by rewrite (proj2 (Z.ltb_lt _ _) Hi). Qed.

Lemma ready_stage i s : ready i s -> stage s.
Proof. intros [H _]. by eapply idle_stage. Qed.

Lemma ready_finished i s : ready i s -> object_count <= i -> finished s.
Proof. intros [H _] Hi. destruct (idle_vals _ _ _ _ H) as (Hq & Hv & Hc & _). assert (i = object_count) as E by lia. split; [done|by rewrite <- E]. Qed.

Lemma cwp_loop n : forall i s, ready i s -> cwpt (enqueue_all n i) (fun s' _ => finished s') stage s.
Proof.
  induction n as [|n IH]; intros i s Hs; (destruct (Z.lt_ge_cases i object_count) as [Hi|Hi];
    [|unfold enqueue_all; rewrite (proj2 (Z.ltb_ge _ _) Hi); apply cwp_ret; [by eapply ready_stage|by eapply ready_finished]]).
  - unfold enqueue_all. rewrite (proj2 (Z.ltb_lt _ _) Hi). split; [by eapply ready_stage|]. done.
  - rewrite enqueue_all_unfold by done. apply cwp_round; [|done|done]. intros s1 k H1. by apply IH.
Qed.

Lemma booted_ready s : booted s -> ready 0 s \/ exists k p T0 m0, latest (chk_i s) = ((k, p), T0) /\ busy (anywhere (now s) p T0 m0) (now s) k p T0 m0 s.
Proof. intros ([H|H] & _ & Hl & Ho); [left|by right]. split; [by left|]. destruct H as (_ & _ & E & _). lia. Qed.

(** A thread that starts, for the first time or after a crash. *)
Lemma cwp_boot n s : booted s -> cwpt (enqueue_all n 0) (fun s' _ => finished s') stage s.
Proof.
  intros Hs. destruct (booted_ready s Hs) as [H|(k & p & T0 & m0 & Hlat & Hb)]; [by apply cwp_loop|].
  destruct Hs as (Hst & Hr & Hl & _). assert (0 < object_count) as Hi by (destruct Hb; lia).
  destruct n as [|n]; [unfold enqueue_all; rewrite (proj2 (Z.ltb_lt _ _) Hi); by split|].
  rewrite enqueue_all_unfold by done. eapply cwp_first; [|done..]. intros s1 j H1. by apply cwp_loop.
Qed.

Lemma stage_env s s' : stage s -> env tid s s' -> stage s'.
Proof.
  intros [H|(k & p & T0 & m0 & Hlat & Hb)] He; unfold stage, now; cbn [get_h QS_handle]; unfold thr; rewrite (ev_thr _ _ _ He).
  - left. by eapply (st_rely _ _ _ (untouched_stable _)).
  - right. exists k, p, T0, m0. split; [done|]. by eapply (st_rely _ _ _ (busy_stable _ _ _ _ _ _ (anywhere_steady _ _ _ _))).
Qed.

Lemma finished_env s s' : finished s -> env tid s s' -> finished s'.
Proof.
  intros [Hq Hv] He. split; [by apply (ev_inv _ _ _ He)|]. rewrite (mine_env _ _ _ Hq He). by eapply vals_env.
Qed.

Lemma stage_reboot s : 0 <= object_count -> stage s -> booted (reboot s) /\ guar tid s (reboot s).
Proof.
  intros Ho H. split; [|apply guar_thr]. unfold reboot, upd_h. set (h := handle_new (h_now (get_h s))).
  assert (chk_i (set_h h s) = chk_i s /\ now (set_h h s) = now s) as [Ei En].
  { unfold now. cbn [set_h get_h QS_handle]. by rewrite !thr_set. }
  split_and!; [|unfold rec_is; cbn [set_h QS_handle]; by rewrite thr_set|cbn [get_h set_h QS_handle]; by rewrite thr_set|done].
  unfold stage. rewrite Ei, En. destruct H as [H|(k & p & T0 & m0 & Hlat & Hb)].
  - left. by apply (st_h _ _ _ (untouched_stable _)).
  - right. exists k, p, T0, m0. split; [done|]. by apply (st_h _ _ _ (busy_stable _ _ _ _ _ _ (anywhere_steady _ _ _ _))).
Qed.
End workload.

(** ** The sum of the queue *)

(** The number a node holds; the sentinel holds none. *)
Definition value (s : QS) (o : Z) : Z := default 0 ((q_nodes s !! o ≫= n_data) ≫= (fun p => q_cells s !! p)).
Definition total (f : Z -> Z) (l : list Z) : Z := foldr (fun o x => f o + x) 0 l.

Lemma total_cons f o l : total f (o :: l) = f o + total f l.
Proof. done. Qed.

Lemma total_app f l l' : total f (l ++ l') = total f l + total f l'.
Proof. induction l as [|o l IH]; [done|]. rewrite <- app_comm_cons, !total_cons, IH. lia. Qed.

Lemma total_ext (g h : Z -> Z) ks : (forall k, k ∈ ks -> g k = h k) -> total g ks = total h ks.
Proof.
  induction ks as [|k ks IH]; intros H; [done|]. rewrite !total_cons, (H k), IH; [done| |set_solver]. intros j Hj. apply H. set_solver.
Qed.

Lemma total_zero (ks : list Z) : total (fun _ => 0) ks = 0.
Proof. induction ks as [|k ks IH]; [done|]. by rewrite total_cons, IH. Qed.

Lemma total_plus (g h : Z -> Z) ks : total (fun k => g k + h k) ks = total g ks + total h ks.
Proof. induction ks as [|k ks IH]; [done|]. rewrite !total_cons, IH. lia. Qed.

Lemma total_one (ks : list Z) k x : NoDup ks -> k ∈ ks -> total (fun j => if decide (j = k) then x else 0) ks = x.
Proof.
  induction ks as [|j ks IH]; [set_solver|]. intros [Hj Hnd]%NoDup_cons Hk. rewrite total_cons. destruct (decide (j = k)) as [->|Hne].
  - rewrite (total_ext _ (fun _ => 0)), total_zero; [lia|]. intros i Hi. rewrite decide_False; [done|]. by intros ->.
  - rewrite IH; [lia|done|set_solver].
Qed.

(** A sum by owners. *)
Lemma total_split (f : Z -> Z) (by_ : Z -> option Z) ks l : NoDup ks -> (forall o, o ∈ l -> exists k, k ∈ ks /\ by_ o = Some k) ->
  total f l = total (fun k => total f (filter (fun o => by_ o = Some k) l)) ks.
Proof.
  intros Hnd. induction l as [|o l IH]; intros H; [symmetry; apply total_zero|].
  destruct (H o ltac:(set_solver)) as (k & Hk & E). rewrite total_cons, IH by (intros; apply H; set_solver).
  rewrite <- (total_one ks k (f o) Hnd Hk) at 1. rewrite <- total_plus. apply total_ext. intros j _.
  rewrite filter_cons. destruct (decide (j = k)) as [->|Hne]; [by rewrite decide_True|]. rewrite decide_False by congruence. lia.
Qed.

(** The numbers of one thread. *)
Lemma vals_total m k s : 0 <= k -> vals m k s -> total (value s) m = total id (seqZ 0 k).
Proof.
  intros _. unfold vals. generalize (seqZ 0 k) as xs. induction 1 as [|o x m xs (n & p & Hn & Hd & Hc) _ IH]; [done|].
  rewrite !total_cons, IH. unfold value. rewrite Hn. simpl. rewrite Hd. simpl. by rewrite Hc.
Qed.

Lemma sum_total i : sum i = wrap 64 (total id (seqZ 0 (Z.of_nat i))).
Proof.
  induction i as [|i IH]; [done|]. cbn [sum]. rewrite IH. replace (Z.of_nat (S i)) with (Z.of_nat i + 1) by lia.
  rewrite seqZ_app, total_app by lia. unfold wrap. rewrite Zplus_mod_idemp_l. f_equal. unfold total, id. simpl. lia.
Qed.

(** ** All threads *)
Section threads.
Context `{CK : Clock} `{CL : !ClockLaws} (alloc : gset Z -> Z) (fuel : nat) (object_count thread_count : Z).
Hypothesis alloc_fresh : forall X, (alloc X ∉ X) /\ 0 < alloc X.
Hypothesis counts : 0 <= object_count /\ 0 <= thread_count.

(** The threads are numbered from 1. [run] is the first phase of queue.rs's
    [run], in which a thread enqueues its numbers; the second one, which drains
    the queue, is left out. A thread that crashes is started again with a new
    handle ([PoolHandle::execute]). *)
Definition run (i : Z) : P QS unit :=
  if decide (1 <= i <= thread_count) then enqueue_all alloc fuel object_count i fuel 0 else PRet tt.
Definition restart (i : Z) (s : QS) : QS := reboot (H := QS_handle i) s.

(** Threads run and crash without restriction. *)
Definition pool_step : relation (QS * (Z -> P QS unit)) := par_step run restart (fun _ => True) (fun _ _ => True).

(** The pool after [Queue::pdefault] and with new mementos. *)
Definition thr_new : Thr := mkThr (handle_new 0) chk_default chk_default 0 chk_default 0.
Definition pool_new : QS :=
  let o := alloc ∅ in mkQS {[o := node_default 0]} ∅ (ptr o) (ptr o) (fun _ => thr_new) [o] 0.

Definition inside (i : Z) : Prop := 1 <= i <= thread_count.
Definition sentinel (s : QS) : Prop := exists n, q_nodes s !! alloc ∅ = Some n /\ n_data n = None.
Definition outside (i : Z) (s : QS) : Prop := QInv s /\ mine i s = mine i pool_new /\ sentinel s.
Definition I_ (i : Z) (s : QS) : Prop := if decide (inside i) then booted object_count i s else outside i s.
Definition C_ (i : Z) (s : QS) : Prop := if decide (inside i) then stage object_count i s else outside i s.
Definition Q_ (i : Z) (s : QS) (_ : unit) : Prop := if decide (inside i) then finished object_count i s else outside i s.

Lemma outside_env i s s' : outside i s -> env i s s' -> outside i s'.
Proof.
  intros (Hq & Hm & n & Hn & Hd) He. split; [by apply (ev_inv _ _ _ He)|]. rewrite (mine_env _ _ _ Hq He). split; [done|].
  destruct (ev_node _ _ _ He _ n Hn) as (n' & Hn' & Hd' & _). exists n'. by rewrite Hd'.
Qed.

Lemma pool_inv : QInv pool_new.
Proof.
  destruct (alloc_fresh ∅) as [_ Hpos]. split; cbn [pool_new q_all q_nodes q_head q_tail q_gone].
  - apply NoDup_singleton.
  - by exists (alloc ∅).
  - exists (alloc ∅). split; [set_solver|done].
  - intros i o Ho. apply list_lookup_singleton_Some in Ho as [-> <-]. rewrite lookup_singleton_eq. eexists. split_and!; [done|done|]. by left.
  - intros o n Hn Hna. apply lookup_singleton_Some in Hn as [<- <-]. set_solver.
  - intros o n Hn. by apply lookup_singleton_Some in Hn as [<- _].
Qed.

Lemma pool_mine i : mine i pool_new = if decide (i = 0) then [alloc ∅] else [].
Proof.
  unfold mine. cbn [pool_new q_all]. assert (by_of pool_new (alloc ∅) = Some 0) as E by (unfold by_of; cbn [pool_new q_nodes]; by rewrite lookup_singleton_eq).
  case_decide; [subst; by rewrite filter_cons_True|]. rewrite filter_cons_False; [done|]. rewrite E. congruence.
Qed.

Lemma pool_booted i : I_ i pool_new.
Proof.
  unfold I_. case_decide as Hi; [|split; [apply pool_inv|split; [done|eexists; split; [apply lookup_singleton_eq|done]]]]. split; [|by split_and!; [..|lia]]. left.
  split_and!; [apply pool_inv| |done|done]. rewrite pool_mine. rewrite decide_False; [done|]. unfold inside in Hi. lia.
Qed.

Lemma run_ok i s : I_ i s -> cwp (env i) (guar i) True (run i) (Q_ i) (C_ i) s.
Proof.
  unfold I_, Q_, C_, run, inside. case_decide; [by apply cwp_boot|]. intros H'. by apply cwp_ret.
Qed.

Lemma restart_ok i s : C_ i s -> I_ i (restart i s) /\ guar i s (restart i s).
Proof.
  unfold C_, I_. case_decide; [apply stage_reboot with (alloc := alloc); [done|apply counts]|]. intros [Hq Hm]. split; [|apply guar_thr]. split; [by apply QInv_thr|exact Hm].
Qed.

(** Every reachable state of the pool. *)
Lemma pool_correct s ps : rtc pool_step (pool_new, run) (s, ps) -> forall i, cwp (env i) (guar i) True (ps i) (Q_ i) (C_ i) s.
Proof.
  eapply (threads_correct run restart (fun _ => True) (fun _ _ => True) env env guar True I_ C_ Q_).
  - intros i s1 _. apply env_refl.
  - apply env_trans.
  - intros i j s1 s2 Hij Hg. by apply Hg.
  - intros i s1 s2. unfold C_. case_decide; [by apply stage_env with (alloc := alloc)|apply outside_env].
  - intros i s1 s2 []. unfold Q_. case_decide; [apply finished_env|apply outside_env].
  - intros i s1 H1 _. by apply restart_ok.
  - apply run_ok.
  - apply pool_booted.
Qed.


(** Every linked node is the sentinel or a thread's. *)
Lemma owned s : (forall i, C_ i s) -> QInv s /\ (forall o, o ∈ q_all s -> exists k, k ∈ seqZ 0 (thread_count + 1) /\ by_of s o = Some k) /\
  mine 0 s = [alloc ∅] /\ value s (alloc ∅) = 0.
Proof.
  intros H. assert (forall i, ~ inside i -> outside i s) as Hout by (intros i Hi; specialize (H i); unfold C_ in H; by rewrite decide_False in H).
  destruct (Hout 0) as (Hq & Hm & nd & Hnd & Hdd); [unfold inside; lia|]. rewrite pool_mine, decide_True in Hm by done.
  split_and!; [done| |done|unfold value; rewrite Hnd; simpl; by rewrite Hdd].
  intros o Ho. apply list_elem_of_lookup in Ho as [i Hi]. destruct (qi_linked _ Hq i o Hi) as (n & Hn & _).
  exists (n_by n). unfold by_of. rewrite Hn. split; [|done]. apply elem_of_seqZ.
  destruct (decide (n_by n = 0)) as [E0|E0]; [lia|]. destruct (decide (inside (n_by n))) as [Hin|Hnin]; [unfold inside in Hin; lia|].
  destruct (Hout _ Hnin) as (_ & Hm' & _). rewrite pool_mine, decide_False in Hm' by done. exfalso.
  assert (o ∈ mine (n_by n) s) as Hmi; [|rewrite Hm' in Hmi; set_solver]. apply list_elem_of_filter. split; [by unfold by_of; rewrite Hn|].
  by eapply list_elem_of_lookup_2.
Qed.

Lemma ended_total s : (forall i, C_ i s) -> (forall i, inside i -> vals (mine i s) object_count s) ->
  wrap 64 (total (value s) (q_all s)) = FINAL object_count thread_count.
Proof.
  intros HC Hv. destruct (owned s HC) as (Hq & Hown & Hm0 & Hs0).
  rewrite (total_split (value s) (by_of s) (seqZ 0 (thread_count + 1))); [|apply NoDup_seqZ|done].
  rewrite seqZ_cons, total_cons by lia. fold (mine 0 s). rewrite Hm0. rewrite total_cons, Hs0.
  set (x := total id (seqZ 0 object_count)).
  rewrite (total_ext _ (fun _ => x) (seqZ _ _)).
  - assert (forall l, total (fun _ => x) l = x * Z.of_nat (length l)) as E.
    { induction l as [|y l IH]; [simpl; lia|]. rewrite total_cons, IH. cbn [length]. lia. }
    rewrite E, length_seqZ. unfold FINAL. rewrite sum_total, Z2Nat.id by lia. unfold wrap. rewrite Zmult_mod_idemp_l. fold x. f_equal.
    change (total (value s) []) with 0. rewrite Z2Nat.id by lia. replace (Z.pred (thread_count + 1)) with thread_count by lia. lia.
  - intros k Hk%elem_of_seqZ. apply vals_total; [lia|]. apply Hv. unfold inside. lia.
Qed.

(** C6: crashes do not show. Any number of threads enqueue their numbers on the
    shared queue; they take turns in any order, access by access, and each may
    crash at any access, any number of times, and start over. No access ever
    goes wrong; the nodes of a thread that has ended are in the queue once each,
    in order; and when all threads have ended the queue adds up to [FINAL], the
    sum that the experiment checks at its end. *)
Theorem crashes_do_not_show s ps : rtc pool_step (pool_new, run) (s, ps) ->
  (forall i X (m : M QS X) k, ps i = PAct m k -> m s <> Panic /\ m s <> Undef) /\
  (forall i, inside i -> ps i = PRet tt -> vals (mine i s) object_count s) /\
  ((forall i, inside i -> ps i = PRet tt) -> wrap 64 (total (value s) (q_all s)) = FINAL object_count thread_count).
Proof.
  intros Hr. pose proof (pool_correct s ps Hr) as H.
  assert (forall i, inside i -> ps i = PRet tt -> vals (mine i s) object_count s) as Hend.
  { intros i Hi Ei. specialize (H i). rewrite Ei in H. destruct H as [_ H]. unfold Q_ in H. rewrite decide_True in H by done. apply H. }
  split_and!; [|done|].
  - intros i X m k Ei. specialize (H i). rewrite Ei in H. destruct H as [_ H]. specialize (H s (env_refl i s)). unfold awp in H.
    by destruct (m s).
  - intros Hall. apply ended_total; [|auto]. intros i. by eapply cwp_crash.
Qed.
End threads.

(** ** Examples *)
Module Runs.
#[local] Existing Instance counting.
#[local] Existing Instance counting_laws.

(** Addresses above all that are in use. *)
Definition above (X : gset Z) : Z := 1 + foldr Z.max 0 (elements X).

Lemma above_max l x : x ∈ l -> x <= foldr Z.max 0 l.
Proof. induction l as [|y l IH]; [set_solver|]. intros [->|H]%elem_of_cons; simpl; [lia|]. specialize (IH H). lia. Qed.

Lemma above_fresh X : (above X ∉ X) /\ 0 < above X.
Proof.
  assert (0 <= foldr Z.max 0 (elements X)) by (generalize (elements X); intros l; induction l; simpl; lia).
  unfold above. split; [|lia]. intros H'%elem_of_elements. apply above_max in H'. lia.
Qed.

(** Two threads, two numbers each. The first crashes when its first node is
    recorded but not linked, and again when it is linked, the second one in its
    second round. *)
Definition crash_points : list (list turn) :=
  [repeat (Go 1) 18; Crash 1 :: repeat (Go 1) 30; repeat (Go 2) 31; [Crash 1; Crash 2] ++ mjoin (repeat [Go 1; Go 2] 120)].
Definition all_turns : list turn := mjoin crash_points.
Definition start : QS * (Z -> P QS unit) := (pool_new above, run above 12 2 2).
Definition outcome_of (l : list turn) : option (QS * (Z -> P QS unit)) := psched (run above 12 2 2) restart l start.
Definition after (l : list turn) : QS * (Z -> P QS unit) := default start (outcome_of l).

(** The numbers in the queue with their threads, after the sentinel. *)
Definition queued (s : QS) : list (option Z * Z) := (fun o => (by_of s o, value s o)) <$> drop 1 (q_all s).

Example queued_at_crashes : (fun n => queued (fst (after (mjoin (take n crash_points))))) <$> [1; 2; 3; 4]%nat =
  [[]; [(Some 1, 0)]; [(Some 1, 0); (Some 2, 0)]; [(Some 1, 0); (Some 2, 0); (Some 1, 1); (Some 2, 1)]].
Proof. vm_compute. reflexivity. Qed.

Definition is_done (l : list turn) (i : Z) : bool :=
  match outcome_of l with Some (_, ps) => match ps i with PRet _ => true | _ => false end | None => false end.

Lemma after_reached l i : is_done l i = true ->
  rtc (pool_step above 12 2 2) start (fst (after l), snd (after l)) /\ snd (after l) i = PRet tt.
Proof.
  unfold is_done, after. destruct (outcome_of l) as [[s ps]|] eqn:E; [|done]. cbn [default from_option fst snd id].
  destruct (ps i) as [[]|]; [|done]. intros _. split; [|done]. by eapply psched_par in E.
Qed.

Lemma both_done i : inside 2 i -> is_done all_turns i = true.
Proof. intros Hi. unfold inside in Hi. assert (i = 1 \/ i = 2) as [-> | ->] by lia; vm_compute; reflexivity. Qed.

Abbreviation final := (fst (after all_turns)).

Lemma crashes_do_not_show_witness : wrap 64 (total (value final) (q_all final)) = FINAL 2 2 /\ vals (mine 1 final) 2 final.
Proof.
  destruct (crashes_do_not_show above 12 2 2 above_fresh ltac:(lia) final (snd (after all_turns))) as (_ & Hv & Ht).
  - apply (after_reached all_turns 1). apply both_done. unfold inside. lia.
  - split; [apply Ht; intros i Hi; by apply after_reached, both_done|]. apply Hv; [|apply after_reached, both_done]; unfold inside; lia.
Defined.
End Runs.
